(* ===== verification/_CoqProject ===== *)
-Q . S2P
Prelude.v
Errors.v
Types.v
Binary.v
Frame.v
FrameFacts.v
Stream.v
StreamFacts.v
Text.v
Permissions.v
SecureBuffer.v
SecureBufferFacts.v
AuthTlv.v
Pipeline.v
Transport.v
Tcp.v
Udp.v
SocketLogic.v
TcpFacts.v
UdpFacts.v
Sockets.v
SocketsFacts.v
SocketAddr.v
Posix.v
Windows.v
SimOS.v
TransportProps.v
Programs.v
TransportExample.v
Lifecycle.v
Link.v
LinkFacts.v
Session.v
SessionFacts.v
SessionProps.v
Progress.v
AddressLoops.v
UdpCache.v
Datagrams.v
ReceiveQueues.v
Mesh.v
MeshProps.v
Facade.v
Tests.v
TransportTests.v
Schedules.v
