(* ===== verification/Prelude.v ===== *)
(** * MicroProtocolFramework: a verification development

    MicroProtocolFramework is a C++23 library of three modules: [vosp::protocol] turns
    application values into bounded VSP1 frames and back, [vosp::security] stores secrets,
    keeps permission bits and carries authentication tags, and [vosp::transport] owns TCP
    and UDP sockets.  This development translates the implementation of all three
    (headers under [include/vosp/], sources under [src/]) into executable definitions and
    proves that they do what the library documents.

    ** Components and files

    Shared
    - [Prelude.v]: outcomes of fallible code, the state monad of member functions,
      [std::size_t] arithmetic, bytes, spans and big-endian integers.
    - [Errors.v]: [protocol/error.hpp] and [security/error.hpp]; the C++ error-model
      template argument is the class [ErrorModel].

    vosp::protocol
    - [Types.v]: [types.hpp] (versions, flags, extensions, messages, limits).
    - [Binary.v]: [binary.hpp] ([BinaryWriter], [BinaryReader]), for every unsigned
      integral type, [bool] included.
    - [Frame.v], [FrameFacts.v]: [frame.hpp] ([FrameCodec]) and the wire format it
      implements, [frame_wire].
    - [Stream.v], [StreamFacts.v]: [stream_decoder.hpp] ([StreamDecoder]) and the byte
      queue it implements.
    - [Text.v]: [text.hpp] (UTF-8 validation, [Utf8Codec], [BytesCodec]) and the
      interface [PayloadCodec].
    - [Pipeline.v]: codec, authentication tag, frame and stream composed as
      [docs/ARCHITECTURE.md] describes.

    vosp::security
    - [Permissions.v]: [permissions.hpp] ([PermissionSet]).
    - [SecureBuffer.v], [SecureBufferFacts.v]: [secure_buffer.cpp] and the two
      [erase_*.cpp]; objects with identity over a heap of blocks.
    - [AuthTlv.v]: [security/protocol.hpp].

    vosp::transport
    - [Transport.v]: [error.hpp], [types.hpp] and [socket_platform.hpp]; the functions
      the last one declares are the class [SocketPlatform], and what TCP and UDP rely on
      is [SocketPlatformLaws].
    - [Tcp.v], [Udp.v]: [tcp.cpp] and [udp.cpp] over that interface.
    - [SocketLogic.v], [TcpFacts.v], [UdpFacts.v]: a weakest-precondition calculus, the
      ownership assertion, and a specification of every member function.
    - [Sockets.v], [SocketsFacts.v]: programs over any number of transport objects,
      reachable states and their invariant.
    - [SocketAddr.v], [Posix.v], [Windows.v]: [socket_posix.cpp] and
      [socket_windows.cpp]; both are proved to satisfy [SocketPlatformLaws].
    - [SimOS.v]: an operating system that satisfies the hypotheses, to run the code on.
    - [TransportProps.v]: the transport theorems.
    - [Lifecycle.v]: closed and moved-from objects.
    - [AddressLoops.v]: the loops of [connect] and the two [bind]s as instances of one
      reference definition.
    - [UdpCache.v]: the destination cache of UDP, on a platform that keeps a record.

    Composition and programs
    - [Link.v], [LinkFacts.v]: frames over one TCP connection, as the README describes it: a
      sending and a receiving process and the network between them as a step relation.
    - [Session.v], [SessionFacts.v], [SessionProps.v]: the same over the life of a client and
      a server: [connect], [accept], closing and [reconnect], with a new decoder for every
      connection.
    - [Progress.v]: that a server on a network that delivers gets every message.
    - [Datagrams.v]: what a network promises about datagrams (class [DatagramNetwork]), and
      that both platform layers carry them whole.
    - [ReceiveQueues.v]: the receive queue of a UDP socket (class [DatagramQueue]): a receive
      takes its first datagram, on both platform layers.
    - [Mesh.v], [MeshProps.v]: one frame per datagram, over any program of transport objects.
    - [Programs.v], [TransportExample.v]: [fuzz/frame_fuzz.cpp] and the four programs
      under [examples/].
    - [Facade.v]: the facade headers and the [version.hpp] of every module.
    - [Tests.v], [TransportTests.v], [Schedules.v]: the suites under [tests/] and the package
      consumer, run on the model: every check that they make of the code holds of the
      definitions, on both platforms, and for the tests with two threads under every
      schedule of their calls.

    ** How the code is modelled

    A function that returns [std::expected] is a function into [outcome]: [Ok] and [Fail]
    are its two states.  Whatever the C++ standard leaves undefined (a subscript or subspan
    out of range, a [memcpy] past a buffer, signed overflow, use of an object that is not
    alive) is the outcome [UB], so "never [UB]" is a theorem and not an assumption.  A
    member function is a [method]: a state transformer on its object that keeps the
    changes made before an early return.  Integers are [Z] with the wrap-around of their
    C++ type written out ([⊕], [⊖] and [wrap]).  [std::size_t] has 64 bits.  A loop that is
    not structural takes fuel: one more than the number of bytes or attempts that are
    left, each turn consuming at least one; running out is the outcome [NoFuel], which the
    theorems exclude.  The hypothesis [in_memory] says that a range is no longer than
    [PTRDIFF_MAX], which holds of every C++ object.

    Code that is not part of the repository is a parameter: the erasing primitives, the POSIX
    and WinSock calls, the payload codec and the error model of an application, and the
    network. Of TCP, [TcpChannel] says that what is received on a handle is a prefix of what
    was sent on its peer, and [TcpNetwork] that any two handles may be such ends; a renewal in
    [Session.v] gives a connection that has carried nothing; [PromptNetwork], for [Progress.v]
    only, adds that bytes under way are received before the timeout. Of UDP, [PosixDatagrams]
    and [WindowsDatagrams] say that a datagram is sent and received as a unit, and how the
    calls report one that does not fit; [PosixQueue] and [WindowsQueue] that a receive takes
    the first datagram of the socket's queue, to which more may be added at any time. The
    hypotheses state documented behaviour, and each is
    met by a concrete instance used in the witnesses ([SimOS.v]).

    One hypothesis is about the caller.  [reconnect] doubles its delay before it caps it, and
    [ReconnectPolicy::valid] bounds neither delay from above, so a valid policy can make the
    64-bit count overflow ([reconnect_delay_overflow] in [TransportProps.v] runs one).
    [delays_representable] excludes exactly the valid policies for which a delay that may be
    doubled does not fit ([duration_twice_overflows]); it is a condition on the policies of new streams in [op_enabled],
    of the client in [session_start], and of the theorem about [reconnect].

    ** What the theorems show

    - Frames: [decode_prefix] accepts exactly the wire forms of the messages within the
      limits; encoding and decoding are inverse in both directions; [encode] produces the
      wire form or reports the limit; no input whatever leads to undefined behaviour; the
      verdict of [probe] is stable under more input and its size request is bounded; the
      format is unambiguous.
    - Streams: the decoder, with its cursor and compaction, is a byte queue for every
      sequence of calls; how bytes are cut into chunks does not matter; it fails closed;
      [push] is exact about its limit; a waiting decoder can always accept the rest.
    - Values: typed fields round-trip through the writer and the reader, writes are atomic
      and bounded, reads exact (a [bool] is any one byte, nonzero meaning [true]); the UTF-8 validator accepts exactly the encodings of
      Unicode scalar values; version negotiation finds the highest common version.
    - Composition: values and tags sent through codec, frame and stream arrive in order;
      over TCP, for every interleaving of the two processes and the network, every failure
      and any number of reconnects, the messages delivered are, connection by connection, a
      prefix of those sent on it, each at most once and in order, and while the network
      delivers all of them arrive after a bounded number of calls; over UDP every message is
      one that was sent, whole, and a malformed datagram costs only itself: it is removed from
      the queue and the next call takes the next one.
    - Programs: the fuzz target is safe on every input and its re-encoding is exact; the
      examples succeed for every text and secret within the limits, and the transport
      example leaves no handle behind on any platform.  The security example releases two
      blocks: its secure buffer's, which is zero by then, and the extension's copy of the same
      bytes, a plain vector, which is not erased.
    - Secrets: programs over [SecureBuffer] behave as programs over values; every block of a
      secure buffer is zero when it is released, and none leaks; [constant_time_equal] is exact and its
      memory accesses depend on the lengths only; a permission word is a finite set;
      authentication tags round-trip.
    - Sockets: for every program over streams, listeners and UDP sockets, the open handles
      are those the live objects own, every call is defined and touches its own objects
      only; [close] is idempotent and a closed or moved-from object refuses its operations
      without effect; [send_all] transmits the range exactly or closes; [connect] is all or nothing;
      [reconnect] makes exactly as many calls of [connect] as its result says, at most the
      policy's number and 1024, and sleeps the documented delays; the address loops take the first
      usable address and report the last error; UDP sizes are bounded, and the destination
      cache never misdirects a datagram, but outlives [close] and [bind], after which an
      address of another family is refused; both platform layers satisfy the interface;
      timeouts are converted exactly.

    ** Not modelled

    Allocation failure ([std::bad_alloc]) and exceptions other than the one the code
    catches; the lifetime of spans (a view is its bytes); concurrency (every object is
    single-owner by contract); the time a call takes, except through the accesses of
    [constant_time_equal] and the delays of [reconnect]; what strangers send to a socket
    (such bytes are arbitrary); the static assertions against the concepts of the external
    contracts library, and the tests that only check that code compiles or does not;
    benchmarks.

    In [Link.v] and [Schedules.v] a call is one step: a receive between two sends of the same [send_all] is
    the same receive after it, since the network may deliver any prefix. *)

From stdpp Require Import prelude list strings.
From Stdlib Require Import ZArith Lia.
From Stdlib.Strings Require Byte.

#[export] Set Default Goal Selector "!".
Open Scope Z_scope.

(** ** Outcomes of a fallible operation

    [Ok] and [Fail] are the two states of [std::expected].  [UB] is an execution
    the C++ standard leaves undefined (an out-of-range subscript, subspan or
    iterator range, an overflowing signed operation); [NoFuel] marks a loop whose
    fuel ran out.  Neither is a result of the program: they are values so that
    their absence can be proved. *)
Inductive outcome (E A : Type) : Type :=
| Ok (a : A)
| Fail (e : E)
| UB
| NoFuel.
Arguments Ok {E A} a.
Arguments Fail {E A} e.
Arguments UB {E A}.
Arguments NoFuel {E A}.

#[export] Instance outcome_ret {E} : MRet (outcome E) := λ A a, Ok a.
#[export] Instance outcome_bind {E} : MBind (outcome E) := λ A B f m,
  match m with Ok a => f a | Fail e => Fail e | UB => UB | NoFuel => NoFuel end.

(** An outcome the program can really have. *)
Definition defined {E A} (m : outcome E A) : Prop := m ≠ UB ∧ m ≠ NoFuel.

(** ** Operations on an object

    A member function that can change its object: from the object before the call
    to its outcome and the object after it.  An early return keeps the changes made
    so far, as in the source. *)
Definition method (S E A : Type) : Type := S → outcome E A * S.

#[export] Instance method_ret {S E} : MRet (method S E) := λ A a s, (Ok a, s).
#[export] Instance method_bind {S E} : MBind (method S E) := λ A B f m s,
  match m s with
  | (Ok a, s') => f a s'
  | (Fail e, s') => (Fail e, s')
  | (UB, s') => (UB, s')
  | (NoFuel, s') => (NoFuel, s')
  end.

Definition get {S E} : method S E S := λ s, (Ok s, s).
Definition modify {S E} (f : S → S) : method S E unit := λ s, (Ok tt, f s).
Definition lift {S E A} (m : outcome E A) : method S E A := λ s, (m, s).

Lemma method_bind_ok {S E A B} (m : method S E A) (f : A → method S E B) s a s' :
  m s = (Ok a, s') → (m ≫= f) s = f a s'.
Proof. intros H. unfold mbind, method_bind. by rewrite H. Qed.

Lemma method_bind_fail {S E A B} (m : method S E A) (f : A → method S E B) s e s' :
  m s = (Fail e, s') → (m ≫= f) s = (Fail e, s').
Proof. intros H. unfold mbind, method_bind. by rewrite H. Qed.

(** ** What a call leaves alone

    [leaves g f]: the call [f] does not change the part [g] of the state, whatever its
    outcome. *)
Definition leaves {S V A} (g : S → V) (f : S → A * S) : Prop := ∀ s, g (f s).2 = g s.

Section Leaves.
Context {S V E : Type} (g : S → V).

Lemma leaves_ret {A} (a : A) : leaves g (mret a : method S E A).
Proof. done. Qed.

Lemma leaves_get : leaves g (get : method S E S).
Proof. done. Qed.

Lemma leaves_lift {A} (r : outcome E A) : leaves g (lift r : method S E A).
Proof. done. Qed.

Lemma leaves_bind {A B} (f : method S E A) (h : A → method S E B) :
  leaves g f → (∀ a, leaves g (h a)) → leaves g (f ≫= h).
Proof.
  intros Hf Hh s. specialize (Hf s). unfold mbind, method_bind.
  destruct (f s) as [[a| | |] s']; simpl in *; [by rewrite Hh|done..].
Qed.
End Leaves.

Create HintDb leaves.
#[export] Hint Resolve leaves_ret leaves_get leaves_lift : leaves.

(** Follow the structure of a member function. *)
Ltac leaves :=
  repeat first
    [ progress eauto with leaves
    | apply leaves_bind; [|intros]
    | match goal with |- leaves _ (match ?x with _ => _ end) => destruct x end
    | match goal with |- leaves _ (if ?x then _ else _) => destruct x end
    | progress simpl ].

(** ** Machine integers *)

(** Conversion to an unsigned integer type of [w] bits. *)
Definition wrap (w z : Z) : Z := z mod 2 ^ w.

Definition uint16_max : Z := 65535.
Definition uint32_max : Z := 4294967295.
Definition size_max : Z := 18446744073709551615.
(** The largest object size: spans and vectors are never longer. *)
Definition ptrdiff_max : Z := 9223372036854775807.

(** Arithmetic on [std::size_t] (64 bits), which wraps. *)
Declare Scope size_scope.
Delimit Scope size_scope with size.
Notation "a ⊕ b" := (wrap 64 (a + b)) (at level 50, left associativity) : size_scope.
Notation "a ⊖ b" := (wrap 64 (a - b)) (at level 50, left associativity) : size_scope.
Open Scope size_scope.

Lemma wrap_small w z : 0 ≤ z < 2 ^ w → wrap w z = z.
Proof. intros. by apply Z.mod_small. Qed.

Lemma wrap_range w z : 0 ≤ w → 0 ≤ wrap w z < 2 ^ w.
Proof. intros. apply Z.mod_pos_bound. lia. Qed.

Lemma size_add_small a b : 0 ≤ a + b ≤ size_max → a ⊕ b = a + b.
Proof. intros. apply wrap_small. unfold size_max in *. lia. Qed.

Lemma size_sub_small a b : 0 ≤ a - b ≤ size_max → a ⊖ b = a - b.
Proof. intros. apply wrap_small. unfold size_max in *. lia. Qed.

(** ** Sizes of vectors and spans *)
Definition len {A} (l : list A) : Z := Z.of_nat (length l).

(** A byte range that fits in the address space. *)
Definition in_memory {A} (l : list A) : Prop := len l ≤ ptrdiff_max.

Lemma len_nonneg {A} (l : list A) : 0 ≤ len l.
Proof. unfold len. lia. Qed.

Lemma len_nil {A} : len (@nil A) = 0.
Proof. done. Qed.

Lemma len_cons {A} (x : A) l : len (x :: l) = 1 + len l.
Proof. unfold len. simpl. lia. Qed.

Lemma len_app {A} (l k : list A) : len (l ++ k) = len l + len k.
Proof. unfold len. rewrite length_app. lia. Qed.

Lemma len_take {A} n (l : list A) : 0 ≤ n ≤ len l → len (take (Z.to_nat n) l) = n.
Proof. unfold len. rewrite length_take. lia. Qed.

Lemma len_drop {A} n (l : list A) : 0 ≤ n ≤ len l → len (drop (Z.to_nat n) l) = len l - n.
Proof. unfold len. rewrite length_drop. lia. Qed.

Lemma len_zero_inv {A} (l : list A) : len l = 0 → l = [].
Proof. destruct l; [done|]. rewrite len_cons. pose proof (len_nonneg l). lia. Qed.

(** Rewriting with sizes, and bounds on the sizes that occur in a goal. *)
Create Rewrite HintDb len.
#[export] Hint Rewrite @len_nil @len_cons @len_app : len.

Ltac len_bounds :=
  repeat match goal with
  | |- context [len ?l] =>
      lazymatch goal with H : 0 ≤ len l |- _ => fail | _ => pose proof (len_nonneg l) end
  | _ : context [len ?l] |- _ =>
      lazymatch goal with H : 0 ≤ len l |- _ => fail | _ => pose proof (len_nonneg l) end
  end.

(** Linear arithmetic about sizes and the fixed bounds of the platform. *)
Ltac len_lia :=
  unfold in_memory, ptrdiff_max, size_max, uint16_max, uint32_max in *;
  autorewrite with len in *; len_bounds; lia.

(** Remove the wrap-around of a [size_t] operation that does not overflow. *)
Ltac size_norm :=
  repeat first
    [ rewrite size_add_small by len_lia
    | rewrite size_sub_small by len_lia ].

(** Decide a conjunction of closed comparisons by evaluation. *)
Ltac by_compute := vm_compute; repeat split; first [done | intro; discriminate].

(** ** Bytes *)
Abbreviation byte := Byte.byte.

#[export] Instance byte_eq_decision : EqDecision byte := Byte.byte_eq_dec.

(** [std::to_integer] of a byte. *)
Definition to_Z (b : byte) : Z := Z.of_N (Byte.to_N b).

(** [static_cast<std::byte>]: the low eight bits. *)
Definition of_Z (z : Z) : byte := default Byte.x00 (Byte.of_N (Z.to_N (z mod 256))).

(** Byte strings written as numbers. *)
Definition bytes_of (l : list Z) : list byte := map of_Z l.

Lemma to_Z_range b : 0 ≤ to_Z b < 256.
Proof. unfold to_Z. pose proof (Byte.to_N_bounded b). lia. Qed.

Lemma of_to_Z b : of_Z (to_Z b) = b.
Proof.
  unfold of_Z. rewrite Z.mod_small by apply to_Z_range.
  unfold to_Z. by rewrite N2Z.id, Byte.of_to_N.
Qed.

Lemma to_of_Z z : to_Z (of_Z z) = z mod 256.
Proof.
  pose proof (Z.mod_pos_bound z 256 ltac:(lia)) as R. unfold of_Z, to_Z.
  destruct (Byte.of_N (Z.to_N (z mod 256))) as [b|] eqn:Eb; simpl.
  - apply Byte.to_of_N in Eb. rewrite Eb. lia.
  - apply Byte.of_N_None_iff in Eb. lia.
Qed.

Lemma to_Z_inj a b : to_Z a = to_Z b → a = b.
Proof. intros Hab. by rewrite <- (of_to_Z a), <- (of_to_Z b), Hab. Qed.

(** ** Subscripts and ranges of spans

    Each is [UB] exactly when the C++ operation has no defined meaning. *)
Section Spans.
Context {E : Type}.

(** [input[i]] *)
Definition index_at (input : list byte) (i : Z) : outcome E byte :=
  match input !! Z.to_nat i with
  | Some b => if 0 <=? i then Ok b else UB
  | None => UB
  end.

(** [input.subspan(offset, count)] *)
Definition subspan (input : list byte) (offset count : Z) : outcome E (list byte) :=
  if (0 <=? offset) && (offset <=? len input) &&
     (0 <=? count) && (count <=? len input - offset)
  then Ok (take (Z.to_nat count) (drop (Z.to_nat offset) input))
  else UB.

(** [input.first(count)] *)
Definition first_n (input : list byte) (count : Z) : outcome E (list byte) :=
  subspan input 0 count.

(** The vector built from the iterators [input.begin() + lo] and
    [input.begin() + hi]. *)
Definition iter_range (input : list byte) (lo hi : Z) : outcome E (list byte) :=
  if lo <=? hi then subspan input lo (hi - lo) else UB.

(** [std::memcpy] of [count] bytes over the start of [dest] *)
Definition memcpy (dest source : list byte) (count : Z) : outcome E (list byte) :=
  if (0 <=? count) && (count <=? len dest) && (count <=? len source)
  then Ok (take (Z.to_nat count) source ++ drop (Z.to_nat count) dest)
  else UB.

Lemma index_at_app_r (l : list byte) b k :
  index_at (l ++ b :: k) (len l) = Ok b.
Proof.
  unfold index_at, len. rewrite Nat2Z.id, list_lookup_middle by done.
  destruct (Z.leb_spec 0 (Z.of_nat (length l))); [done|lia].
Qed.

Lemma subspan_app (l m k : list byte) :
  subspan (l ++ m ++ k) (len l) (len m) = Ok m.
Proof.
  unfold subspan. pose proof (len_nonneg l). pose proof (len_nonneg m).
  pose proof (len_nonneg k). autorewrite with len.
  rewrite !(proj2 (Z.leb_le _ _)) by lia. simpl. unfold len.
  by rewrite !Nat2Z.id, drop_app_length, take_app_length.
Qed.

Lemma subspan_ok_inv (input : list byte) offset count r :
  subspan input offset count = Ok r →
  0 ≤ offset ∧ 0 ≤ count ∧ offset + count ≤ len input ∧
  r = take (Z.to_nat count) (drop (Z.to_nat offset) input) ∧ len r = count.
Proof.
  unfold subspan. intros Hs.
  destruct (Z.leb_spec 0 offset); [|done].
  destruct (Z.leb_spec offset (len input)); [|done].
  destruct (Z.leb_spec 0 count); [|done].
  destruct (Z.leb_spec count (len input - offset)); [|done].
  simpl in Hs. injection Hs as <-. repeat split; try lia.
  rewrite len_take; [done|]. rewrite len_drop; lia.
Qed.
End Spans.

Lemma memcpy_whole {E} (text bytes : list byte) :
  length text = length bytes → memcpy (E:=E) text bytes (len bytes) = Ok bytes.
Proof.
  intros Hl. unfold memcpy, len. rewrite Hl, Z.leb_refl, (proj2 (Z.leb_le _ _)) by lia. simpl.
  by rewrite Nat2Z.id, firstn_all, <- Hl, drop_all, app_nil_r.
Qed.

(** Every range of a list splits it. *)
Lemma split_at {A} (l : list A) n :
  0 ≤ n ≤ len l → ∃ a b, l = a ++ b ∧ len a = n.
Proof.
  intros. exists (take (Z.to_nat n) l), (drop (Z.to_nat n) l).
  by rewrite take_drop, len_take.
Qed.

Lemma split_range {A} (l : list A) o n :
  0 ≤ o → 0 ≤ n → o + n ≤ len l →
  ∃ a m b, l = a ++ m ++ b ∧ len a = o ∧ len m = n.
Proof.
  intros. destruct (split_at l o) as (a & r & -> & <-); [lia|].
  rewrite len_app in *. destruct (split_at r n) as (m & b & -> & <-); [lia|].
  by exists a, m, b.
Qed.

(** ** Big-endian integers *)

(** The [n] low bytes of [v], most significant first. *)
Fixpoint be_split (n : nat) (v : Z) : list byte :=
  match n with
  | O => []
  | S n' => of_Z (v / 256 ^ Z.of_nat n') :: be_split n' v
  end.

(** The value of a big-endian byte string. *)
Definition be_step (acc : Z) (b : byte) : Z := acc * 256 + to_Z b.
Definition be_combine (l : list byte) : Z := foldl be_step 0 l.

Lemma length_be_split n v : length (be_split n v) = n.
Proof. induction n; simpl; congruence. Qed.

Lemma len_be_split n v : len (be_split n v) = Z.of_nat n.
Proof. unfold len. by rewrite length_be_split. Qed.
#[export] Hint Rewrite len_be_split : len.

Lemma foldl_be_step l acc :
  foldl be_step acc l = acc * 256 ^ len l + be_combine l.
Proof.
  unfold be_combine. revert acc. induction l as [|b l IH]; intros acc.
  - rewrite len_nil. simpl. lia.
  - simpl. rewrite IH, (IH (be_step 0 b)), len_cons, Z.pow_add_r
      by (try lia; apply len_nonneg). unfold be_step. lia.
Qed.

Lemma be_combine_cons b l : be_combine (b :: l) = to_Z b * 256 ^ len l + be_combine l.
Proof. unfold be_combine at 1. simpl. rewrite foldl_be_step. unfold be_step. lia. Qed.

Lemma be_combine_singleton b : be_combine [b] = to_Z b.
Proof. rewrite be_combine_cons. change (be_combine []) with 0. change (256 ^ len []) with 1. lia. Qed.

Lemma be_combine_range l : 0 ≤ be_combine l < 256 ^ len l.
Proof.
  induction l as [|b l IH]; [vm_compute; split; congruence|].
  rewrite be_combine_cons, len_cons, Z.pow_add_r by (try lia; apply len_nonneg).
  pose proof (to_Z_range b). nia.
Qed.

Lemma be_combine_split n v : be_combine (be_split n v) = v mod 256 ^ Z.of_nat n.
Proof.
  induction n as [|n IH]; [by rewrite Z.mod_1_r|].
  simpl be_split. rewrite be_combine_cons, IH, to_of_Z, len_be_split.
  rewrite Nat2Z.inj_succ, Z.pow_succ_r by lia.
  set (p := 256 ^ Z.of_nat n). assert (0 < p) by (subst p; lia).
  rewrite (Z.mul_comm 256 p), Z.rem_mul_r by lia. lia.
Qed.

Lemma be_combine_split_small n v :
  0 ≤ v < 256 ^ Z.of_nat n → be_combine (be_split n v) = v.
Proof. intros. rewrite be_combine_split. by apply Z.mod_small. Qed.

Lemma be_split_mod n m v :
  (n ≤ m)%nat → be_split n (v mod 256 ^ Z.of_nat m) = be_split n v.
Proof.
  induction n as [|n IH]; intros; [done|]. simpl. rewrite IH by lia. f_equal.
  apply to_Z_inj. rewrite !to_of_Z.
  replace (Z.of_nat m) with (Z.of_nat n + 1 + Z.of_nat (m - n - 1)) by lia.
  rewrite !Z.pow_add_r by lia. change (256 ^ 1) with 256.
  set (p := 256 ^ Z.of_nat n). set (q := 256 ^ Z.of_nat (m - n - 1)).
  assert (0 < p) by (subst p; lia). assert (0 < q) by (subst q; lia).
  rewrite <- Z.mul_assoc, Z.rem_mul_r by nia.
  rewrite (Z.mul_comm p (_ mod _)), Z.div_add by lia.
  rewrite (Z.div_small (v mod p)) by (apply Z.mod_pos_bound; lia).
  rewrite Z.add_0_l, Z.rem_mul_r by lia.
  rewrite (Z.mul_comm 256), Z.mod_add by lia. apply Z.mod_mod. lia.
Qed.

Lemma be_split_combine l : be_split (length l) (be_combine l) = l.
Proof.
  induction l as [|b l IH]; [done|]. simpl length. simpl be_split.
  rewrite be_combine_cons. pose proof (be_combine_range l) as R. unfold len in *.
  f_equal.
  - rewrite Z.div_add_l, (Z.div_small (be_combine l)), Z.add_0_r by lia. apply of_to_Z.
  - rewrite <- (be_split_mod _ (length l)), Z.add_comm, Z.mod_add, Z.mod_small by lia.
    exact IH.
Qed.

Lemma be_split_combine' n l : len l = Z.of_nat n → be_split n (be_combine l) = l.
Proof. unfold len. intros. replace n with (length l) by lia. apply be_split_combine. Qed.

(** ** The byte loops of the codecs *)

(** [for (shift = sizeof(Value); shift > 0; --shift)
       bytes.push_back(static_cast<std::byte>((value >> ((shift - 1) * 8)) & mask))] *)
Fixpoint be_write_loop (mask : Z) (shift : nat) (value : Z) (bytes : list byte) : list byte :=
  match shift with
  | O => bytes
  | S s =>
      be_write_loop mask s value
        (bytes ++ [of_Z (Z.land (Z.shiftr value (Z.of_nat s * 8)) mask)])
  end.

(** [for (index = 0; index < sizeof(value); ++index)
       value = cast((value << 8) | input[offset + index])], where [cast] converts to the
    type of [value]; [n] is the number of iterations left. *)
Fixpoint be_read_loop {E} (cast : Z → Z) (input : list byte) (offset : Z) (n : nat)
    (index value : Z) : outcome E Z :=
  match n with
  | O => Ok value
  | S n' =>
      b ← index_at input (offset ⊕ index);
      be_read_loop cast input offset n' (index + 1)
        (cast (Z.lor (Z.shiftl value 8) (to_Z b)))
  end.

Lemma of_Z_land_255 z : of_Z (Z.land z 255) = of_Z z.
Proof.
  apply to_Z_inj. rewrite !to_of_Z. change 255 with (Z.ones 8).
  rewrite Z.land_ones by lia. change (2 ^ 8) with 256. by rewrite Z.mod_mod.
Qed.

Lemma be_write_loop_app n v l : be_write_loop 255 n v l = l ++ be_split n v.
Proof.
  revert l. induction n as [|n IH]; intros l; simpl; [by rewrite app_nil_r|].
  rewrite IH, <- app_assoc, of_Z_land_255. simpl. do 3 f_equal.
  rewrite Z.shiftr_div_pow2 by lia. by rewrite Z.mul_comm, Z.pow_mul_r by lia.
Qed.

Lemma lor_shift_byte acc b :
  0 ≤ acc → Z.lor (Z.shiftl acc 8) (to_Z b) = be_step acc b.
Proof.
  intros. pose proof (to_Z_range b) as R. unfold be_step.
  change 256 with (2 ^ 8). rewrite <- (Z.shiftl_mul_pow2 acc 8) by lia.
  assert (Z.land (Z.shiftl acc 8) (to_Z b) = 0) as Hland.
  { apply Z.bits_inj'. intros i Hi. rewrite Z.land_spec, Z.bits_0.
    destruct (Z.ltb_spec i 8); [by rewrite Z.shiftl_spec_low|].
    rewrite <- (Z.mod_small (to_Z b) (2 ^ 8)) by lia.
    rewrite Z.mod_pow2_bits_high by lia. apply andb_false_r. }
  by rewrite <- Z.lxor_lor, <- Z.add_nocarry_lxor.
Qed.

Lemma be_read_loop_fold {E} cast (a m c : list byte) off i v :
  in_memory (a ++ m ++ c) → off + i = len a → 0 ≤ i →
  be_read_loop (E:=E) cast (a ++ m ++ c) off (length m) i v =
  Ok (foldl (λ v b, cast (Z.lor (Z.shiftl v 8) (to_Z b))) v m).
Proof.
  revert a i v. induction m as [|b m IH]; intros a i v Hm Ha Hi; [done|].
  simpl. rewrite Ha, wrap_small by len_lia. rewrite index_at_app_r. simpl.
  rewrite (cons_middle b). rewrite app_assoc in *. apply IH; len_lia.
Qed.

Lemma be_fold_combine w m v :
  0 ≤ v → (v + 1) * 256 ^ len m ≤ 2 ^ w →
  foldl (λ v b, wrap w (Z.lor (Z.shiftl v 8) (to_Z b))) v m = foldl be_step v m.
Proof.
  revert v. induction m as [|b m IH]; intros v Hv Hw; [done|]. simpl.
  rewrite len_cons, Z.pow_add_r in Hw by (try lia; apply len_nonneg).
  change (256 ^ 1) with 256 in Hw. pose proof (to_Z_range b).
  assert (0 < 256 ^ len m) by (pose proof (len_nonneg m); lia).
  rewrite lor_shift_byte by lia. rewrite wrap_small by (unfold be_step; nia).
  apply IH; unfold be_step; nia.
Qed.

(** Reading the [n] bytes [m] at [offset] gives their big-endian value. *)
Lemma be_read_loop_ok {E} w (a m c : list byte) n :
  in_memory (a ++ m ++ c) → len m = Z.of_nat n → 256 ^ Z.of_nat n ≤ 2 ^ w →
  be_read_loop (E:=E) (wrap w) (a ++ m ++ c) (len a) n 0 0 = Ok (be_combine m).
Proof.
  intros Hm Hn Hw. replace n with (length m) by (unfold len in Hn; lia).
  rewrite be_read_loop_fold by (try done; lia).
  rewrite be_fold_combine; [done|lia|]. rewrite Hn. lia.
Qed.

#[global] Arguments be_split : simpl never.
#[global] Arguments be_write_loop : simpl never.
#[global] Arguments be_read_loop : simpl never.
#[global] Arguments wrap : simpl never.
#[global] Arguments len : simpl never.
