(* ===== verification/Errors.v ===== *)
(** * Error models of the protocol and security modules

    [include/vosp/protocol/error.hpp] and [include/vosp/security/error.hpp]: the
    portable error codes, the owning [Error] value and the replaceable error
    model.  The C++ class templates take an [ErrorModel] argument; the components
    of this development take an instance of the class [ErrorModel] in the same
    place. *)

From stdpp Require Import prelude strings.
From S2P Require Import Prelude.

(** What a component needs from its error model: a type of errors and a way to
    build one from a numeric code and a message. *)
Class ErrorModel := {
  error_type : Type;
  make_error : Z → string → error_type
}.

(** [typename ErrorModel::template Result<Value>] *)
Abbreviation result A := (outcome error_type A).

(** ** vosp::protocol *)
Module Protocol.
Inductive ErrorCode :=
| invalid_argument
| limit_exceeded
| insufficient_data
| invalid_magic
| unsupported_version
| malformed_frame
| invalid_utf8
| trailing_data.

(** [static_cast<std::uint32_t>(code)] *)
Definition code_value (code : ErrorCode) : Z :=
  match code with
  | invalid_argument => 1
  | limit_exceeded => 2
  | insufficient_data => 3
  | invalid_magic => 4
  | unsupported_version => 5
  | malformed_frame => 6
  | invalid_utf8 => 7
  | trailing_data => 8
  end.

(** The enumeration has a fixed underlying type, so [code_] is any 32-bit value. *)
Record Error := MkError { code_ : Z; message_ : string }.

(** [vosp::protocol::Model] *)
Definition Model : ErrorModel :=
  {| error_type := Error; make_error := λ code message, MkError (wrap 32 code) message |}.

(** [detail::failure] *)
Definition failure {EM : ErrorModel} {A} (code : ErrorCode) (message : string) : result A :=
  Fail (make_error (code_value code) message).

#[export] Instance ErrorCode_eq_decision : EqDecision ErrorCode.
Proof. solve_decision. Defined.
#[export] Instance Error_eq_decision : EqDecision Error.
Proof. solve_decision. Defined.

Lemma code_value_inj c d : code_value c = code_value d → c = d.
Proof. by destruct c, d. Qed.
End Protocol.

(** ** vosp::security *)
Module Security.
Inductive SecurityErrorCode :=
| sec_invalid_argument
| sec_limit_exceeded
| sec_authentication_failed
| sec_invalid_extension
| sec_provider_failure.

Definition security_code_value (code : SecurityErrorCode) : Z :=
  match code with
  | sec_invalid_argument => 1
  | sec_limit_exceeded => 2
  | sec_authentication_failed => 3
  | sec_invalid_extension => 4
  | sec_provider_failure => 5
  end.

Record SecurityError := MkSecurityError { sec_code_ : Z; sec_message_ : string }.

(** [Error{ErrorCode, message}] *)
Definition security_error (code : SecurityErrorCode) (message : string) : SecurityError :=
  MkSecurityError (security_code_value code) message.

(** [vosp::security::Model] *)
Definition SecurityModel : ErrorModel :=
  {| error_type := SecurityError;
     make_error := λ code message, MkSecurityError (wrap 32 code) message |}.

#[export] Instance SecurityError_eq_decision : EqDecision SecurityError.
Proof. solve_decision. Defined.
End Security.
