(* ===== verification/Types.v ===== *)
(** * Protocol values and limits

    [include/vosp/protocol/types.hpp]: versions and their negotiation, frame
    flags, extensions, messages and the limits a codec enforces. *)

From stdpp Require Import prelude list strings.
From S2P Require Import Prelude.

(** ** Version, VersionRange, negotiate_version *)
Record Version := MkVersion { major_ : Z; minor_ : Z }.

(** [Version()]: the default member initialisers. *)
Definition default_version : Version := MkVersion 1 0.

#[export] Instance Version_eq_decision : EqDecision Version.
Proof. solve_decision. Defined.

Definition compatible_with (self peer : Version) : bool := major_ self =? major_ peer.

(** The defaulted [operator<=>]: members in declaration order. *)
Definition version_compare (a b : Version) : comparison :=
  match major_ a ?= major_ b with
  | Eq => minor_ a ?= minor_ b
  | c => c
  end.

Definition version_ltb (a b : Version) : bool :=
  match version_compare a b with Lt => true | _ => false end.
Definition version_leb (a b : Version) : bool :=
  match version_compare a b with Gt => false | _ => true end.

(** [std::max] and [std::min], which compare with [operator<]. *)
Definition version_max (a b : Version) : Version := if version_ltb a b then b else a.
Definition version_min (a b : Version) : Version := if version_ltb b a then b else a.

Record VersionRange := MkVersionRange { minimum : Version; maximum : Version }.

Definition range_valid (r : VersionRange) : bool :=
  version_leb (minimum r) (maximum r) && (major_ (minimum r) =? major_ (maximum r)).

Definition range_contains (r : VersionRange) (v : Version) : bool :=
  range_valid r && version_leb (minimum r) v && version_leb v (maximum r).

Definition negotiate_version (local remote : VersionRange) : option Version :=
  if negb (range_valid local) || negb (range_valid remote) then None
  else
    let lower := version_max (minimum local) (minimum remote) in
    let upper := version_min (maximum local) (maximum remote) in
    if version_ltb upper lower then None else Some upper.

(** ** Frame flags: a 16-bit set *)
Definition FrameFlags := Z.
Definition flags_none : FrameFlags := 0.
Definition flags_compressed : FrameFlags := Z.shiftl 1 0.
Definition flags_encrypted : FrameFlags := Z.shiftl 1 1.
Definition flags_authenticated : FrameFlags := Z.shiftl 1 2.
Definition flags_checksum : FrameFlags := Z.shiftl 1 3.

Definition flags_or (left right : FrameFlags) : FrameFlags := wrap 16 (Z.lor left right).
Definition flags_and (left right : FrameFlags) : FrameFlags := wrap 16 (Z.land left right).
Definition flags_all : FrameFlags :=
  flags_or (flags_or (flags_or flags_compressed flags_encrypted) flags_authenticated)
    flags_checksum.
Definition has_flag (value flag : FrameFlags) : bool := flags_and value flag =? flag.

(** ** Extensions and messages *)
Inductive ExtensionId :=
| content_type | compression | checksum | authentication | trace_context
| application_first.

Definition extension_id_value (i : ExtensionId) : Z :=
  match i with
  | content_type => 1
  | compression => 2
  | checksum => 3
  | authentication => 4
  | trace_context => 5
  | application_first => 1024
  end.

Record Extension := MkExtension { id_ : Z; value_ : list byte }.

Record Message := MkMessage {
  version_ : Version;
  type_ : Z;
  correlation_id_ : Z;
  flags_ : FrameFlags;
  extensions_ : list Extension;
  payload_ : list byte
}.

#[export] Instance Extension_eq_decision : EqDecision Extension.
Proof. solve_decision. Defined.
#[export] Instance Message_eq_decision : EqDecision Message.
Proof. solve_decision. Defined.

(** The non-owning view a frame is encoded from. *)
Record MessageView := MkMessageView {
  view_version : Version;
  view_type : Z;
  view_correlation_id : Z;
  view_flags : FrameFlags;
  view_extensions : list Extension;
  view_payload : list byte
}.

(** [MessageView(const Message&)] *)
Definition view_of_message (m : Message) : MessageView :=
  MkMessageView (version_ m) (type_ m) (correlation_id_ m) (flags_ m) (extensions_ m)
    (payload_ m).

(** ** Limits *)
Definition default_payload_size : Z := 16 * 1024 * 1024.
Definition default_extension_bytes : Z := uint16_max - 32.
Definition default_frame_size : Z := default_payload_size + default_extension_bytes + 32.
Definition default_buffered_bytes : Z := 2 * default_frame_size.

Record Limits := MkLimits {
  max_payload_size : Z;
  max_extension_count : Z;
  max_extension_bytes : Z;
  max_frame_size : Z;
  max_buffered_bytes : Z
}.

Definition default_limits : Limits :=
  MkLimits default_payload_size 64 default_extension_bytes default_frame_size
    default_buffered_bytes.

Definition limits_valid (l : Limits) : bool :=
  (max_extension_count l <=? uint16_max) &&
  (max_extension_bytes l <=? uint16_max) &&
  (max_payload_size l <=? uint32_max) &&
  (32 <=? max_frame_size l) && (max_payload_size l <=? max_frame_size l ⊖ 32) &&
  (max_frame_size l <=? max_buffered_bytes l).

(** ** Type invariants: every integer is in the range of its C++ type *)
Definition version_wf (v : Version) : Prop :=
  0 ≤ major_ v ≤ uint16_max ∧ 0 ≤ minor_ v ≤ uint16_max.

Definition extension_wf (e : Extension) : Prop :=
  0 ≤ id_ e ≤ uint16_max ∧ in_memory (value_ e).

Definition message_wf (m : Message) : Prop :=
  version_wf (version_ m) ∧ 0 ≤ type_ m ≤ uint32_max ∧
  0 ≤ correlation_id_ m ≤ size_max ∧ 0 ≤ flags_ m ≤ uint16_max ∧
  Forall extension_wf (extensions_ m) ∧ in_memory (extensions_ m) ∧ in_memory (payload_ m).

Definition limits_wf (l : Limits) : Prop :=
  0 ≤ max_payload_size l ≤ size_max ∧ 0 ≤ max_extension_count l ≤ size_max ∧
  0 ≤ max_extension_bytes l ≤ size_max ∧ 0 ≤ max_frame_size l ≤ size_max ∧
  0 ≤ max_buffered_bytes l ≤ size_max.

(** The range of a stored extension id and the address-space bound of a vector
    are facts of the C++ types; a message outside them does not exist. *)

(** ** The version order *)
Definition version_le (a b : Version) : Prop :=
  major_ a < major_ b ∨ (major_ a = major_ b ∧ minor_ a ≤ minor_ b).

Lemma version_compare_spec a b :
  match version_compare a b with
  | Eq => a = b
  | Lt => version_le a b ∧ a ≠ b
  | Gt => version_le b a ∧ a ≠ b
  end.
Proof.
  unfold version_compare, version_le. destruct a as [a1 a2], b as [b1 b2]; simpl.
  destruct (Z.compare_spec a1 b1); [subst|split; [lia|intros [=]; lia]..].
  destruct (Z.compare_spec a2 b2); [by subst|split; [lia|intros [=]; lia]..].
Qed.

Lemma version_le_antisym a b : version_le a b → version_le b a → a = b.
Proof. destruct a, b; unfold version_le; simpl; intros. f_equal; lia. Qed.

Lemma version_leb_spec a b : version_leb a b = true ↔ version_le a b.
Proof.
  unfold version_leb. pose proof (version_compare_spec a b) as C.
  destruct (version_compare a b).
  - subst. split; [|done]. unfold version_le. lia.
  - destruct C. split; auto.
  - destruct C as [C N]. split; [done|]. intros. by destruct N, (version_le_antisym a b).
Qed.

Lemma version_ltb_spec a b : version_ltb a b = true ↔ ¬ version_le b a.
Proof.
  unfold version_ltb. pose proof (version_compare_spec a b) as C.
  destruct (version_compare a b).
  - subst. split; [done|]. intros N. destruct N. unfold version_le. lia.
  - destruct C as [C N]. split; [|done]. intros _ D. by destruct N, (version_le_antisym a b).
  - split; [done|]. intros N. by destruct C.
Qed.

Lemma range_valid_spec r :
  range_valid r = true ↔
  version_le (minimum r) (maximum r) ∧ major_ (minimum r) = major_ (maximum r).
Proof. unfold range_valid. by rewrite andb_true_iff, version_leb_spec, Z.eqb_eq. Qed.

Lemma range_contains_spec r v :
  range_contains r v = true ↔
  range_valid r = true ∧ version_le (minimum r) v ∧ version_le v (maximum r).
Proof. unfold range_contains. rewrite !andb_true_iff, !version_leb_spec. tauto. Qed.

(** ** Negotiation *)

Lemma version_max_le a b u :
  version_le (version_max a b) u ↔ version_le a u ∧ version_le b u.
Proof.
  unfold version_max. destruct (version_ltb a b) eqn:H.
  - apply version_ltb_spec in H. unfold version_le in *. lia.
  - apply not_true_iff_false in H. rewrite version_ltb_spec in H.
    unfold version_le in *. lia.
Qed.

Lemma version_le_min a b u :
  version_le u (version_min a b) ↔ version_le u a ∧ version_le u b.
Proof.
  unfold version_min. destruct (version_ltb b a) eqn:H.
  - apply version_ltb_spec in H. unfold version_le in *. lia.
  - apply not_true_iff_false in H. rewrite version_ltb_spec in H.
    unfold version_le in *. lia.
Qed.

Lemma negotiate_inv local remote :
  match negotiate_version local remote with
  | Some v =>
      range_contains local v = true ∧ range_contains remote v = true ∧
      ∀ u, range_contains local u = true → range_contains remote u = true → version_le u v
  | None => ∀ u, ¬ (range_contains local u = true ∧ range_contains remote u = true)
  end.
Proof.
  unfold negotiate_version.
  destruct (range_valid local) eqn:Vl; simpl;
    [|intros u; rewrite !range_contains_spec; intros [[? _] [? _]]; congruence].
  destruct (range_valid remote) eqn:Vr; simpl;
    [|intros u; rewrite !range_contains_spec; intros [[? _] [? _]]; congruence].
  set (lo := version_max _ _). set (up := version_min _ _).
  assert (∀ u, version_le lo u ↔
    version_le (minimum local) u ∧ version_le (minimum remote) u) as Hlo
    by (intros; apply version_max_le).
  assert (∀ u, version_le u up ↔
    version_le u (maximum local) ∧ version_le u (maximum remote)) as Hup
    by (intros; apply version_le_min).
  destruct (version_ltb up lo) eqn:H; setoid_rewrite range_contains_spec.
  - apply version_ltb_spec in H. intros u [(_ & A & B) (_ & C & D)]. apply H.
    assert (version_le lo u) by (by apply Hlo). assert (version_le u up) by (by apply Hup).
    unfold version_le in *. lia.
  - apply not_true_iff_false in H. rewrite version_ltb_spec in H.
    assert (version_le lo up) as L by (unfold version_le in *; lia).
    assert (version_le up up) as R by (unfold version_le in *; lia).
    apply Hlo in L. apply Hup in R. split_and!; [tauto..|].
    intros u (_ & _ & B) (_ & _ & D). by apply Hup.
Qed.

Lemma has_flag_spec v f :
  0 ≤ v ≤ uint16_max → 0 ≤ f ≤ uint16_max →
  has_flag v f = true ↔ ∀ i, Z.testbit f i = true → Z.testbit v i = true.
Proof.
  intros Hv Hf. unfold has_flag, flags_and. rewrite Z.eqb_eq.
  assert (Z.land v f = wrap 16 (Z.land v f)) as <-.
  { symmetry. unfold wrap. rewrite <- Z.land_ones by lia.
    rewrite <- Z.land_assoc. f_equal. rewrite Z.land_ones by lia.
    apply Z.mod_small. unfold uint16_max in *. lia. }
  split.
  - intros H i Hi. rewrite <- H, Z.land_spec in Hi. apply andb_true_iff in Hi. tauto.
  - intros H. apply Z.bits_inj'. intros i _. rewrite Z.land_spec.
    specialize (H i). destruct (Z.testbit f i); [by rewrite H|by rewrite andb_false_r].
Qed.

Lemma limits_valid_spec l :
  limits_wf l → limits_valid l = true →
  max_extension_count l ≤ uint16_max ∧ max_extension_bytes l ≤ uint16_max ∧
  max_payload_size l ≤ uint32_max ∧ max_payload_size l + 32 ≤ max_frame_size l ∧
  32 ≤ max_frame_size l ≤ max_buffered_bytes l.
Proof.
  intros (?&?&?&?&?). unfold limits_valid. rewrite !andb_true_iff, !Z.leb_le.
  intros (((((?&?)&?)&?)&Hp)&?). rewrite size_sub_small in Hp by len_lia. lia.
Qed.

(** ** Properties *)

(** C40. Negotiation picks the best common version: when [negotiate_version] returns a
    version it lies in both ranges and no version in both is higher, and when it
    returns nothing the two ranges (an invalid range contains nothing) have no version
    in common. *)
Theorem negotiate_version_highest_common local remote :
  match negotiate_version local remote with
  | Some v =>
      range_contains local v = true ∧ range_contains remote v = true ∧
      ∀ u, range_contains local u = true → range_contains remote u = true → version_le u v
  | None => ∀ u, ¬ (range_contains local u = true ∧ range_contains remote u = true)
  end.
Proof. apply negotiate_inv. Qed.
