(* ===== verification/Binary.v ===== *)
(** * Bounded big-endian writer and reader

    [include/vosp/protocol/binary.hpp]: [BinaryWriter] and [BinaryReader].  A
    [std::string] is the list of its bytes.  An operation takes the object and
    returns its result with the object after the call. *)

From stdpp Require Import prelude list strings.
From S2P Require Import Prelude Errors.
Import Protocol.

Section Binary.
Context {EM : ErrorModel}.

(** ** Unsigned integral types

    The template argument [Value] of [write] and [read]: [bool], which satisfies
    [std::unsigned_integral] too, or a type of [n] bytes without padding. *)
Inductive unsigned_type := UBool | UInt (n : nat).

#[global] Instance unsigned_type_eq_dec : EqDecision unsigned_type.
Proof. solve_decision. Defined.

(** The unsigned integral types: [bool] and those of 1, 2, 4 or 8 bytes, the
    character types among them, and of 16 bytes where the compiler has one. *)
Definition unsigned_types : list unsigned_type :=
  UBool :: (UInt <$> [1; 2; 4; 8; 16]%nat).

(** [sizeof(Value)] *)
Definition size_of (t : unsigned_type) : nat :=
  match t with UBool => 1 | UInt n => n end.

(** [static_cast<Value>(z)]: a conversion to [bool] asks whether [z] is nonzero, one
    to another unsigned type wraps around. *)
Definition static_cast (t : unsigned_type) (z : Z) : Z :=
  match t with
  | UBool => if z =? 0 then 0 else 1
  | UInt n => wrap (8 * Z.of_nat n) z
  end.

(** The number of values of the type. *)
Definition cardinality (t : unsigned_type) : Z :=
  match t with UBool => 2 | UInt n => 256 ^ Z.of_nat n end.

(** ** BinaryWriter *)
Record BinaryWriter := MkWriter { limit_ : Z; writer_bytes : list byte }.

(** [BinaryWriter(limit)] *)
Definition new_writer (limit : Z) : BinaryWriter := MkWriter limit [].

Definition can_append (w : BinaryWriter) (count : Z) : bool :=
  count <=? limit_ w ⊖ Z.min (limit_ w) (len (writer_bytes w)).

(** [write<Value>(value)]; the mask is [static_cast<Value>(0xff)]. *)
Definition write (Value : unsigned_type) (value : Z) (w : BinaryWriter)
    : result unit * BinaryWriter :=
  if negb (can_append w (Z.of_nat (size_of Value))) then
    (failure limit_exceeded "binary writer limit exceeded", w)
  else
    (Ok tt, MkWriter (limit_ w)
              (be_write_loop (static_cast Value 255) (size_of Value) value (writer_bytes w))).

Definition write_bytes (bytes : list byte) (w : BinaryWriter) : result unit * BinaryWriter :=
  if negb (can_append w (len bytes)) then
    (failure limit_exceeded "binary writer limit exceeded", w)
  else (Ok tt, MkWriter (limit_ w) (writer_bytes w ++ bytes)).

Definition write_string (value : list byte) (w : BinaryWriter) : result unit * BinaryWriter :=
  let prefix_size := 4 in
  if (uint32_max <? len value) || (size_max ⊖ prefix_size <? len value)
     || negb (can_append w (prefix_size ⊕ len value)) then
    (failure limit_exceeded "binary string limit exceeded", w)
  else
    let length := wrap 32 (len value) in
    let bytes := be_write_loop 255 4 length (writer_bytes w) in
    (Ok tt, MkWriter (limit_ w) (bytes ++ value)).

(** [bytes()] and [size()] *)
Definition writer_view (w : BinaryWriter) : list byte := writer_bytes w.
Definition writer_size (w : BinaryWriter) : Z := len (writer_bytes w).

(** [take() &&]: the vector is moved out, which leaves it empty. *)
Definition take_writer (w : BinaryWriter) : list byte * BinaryWriter :=
  (writer_bytes w, MkWriter (limit_ w) []).

(** ** BinaryReader *)
Record BinaryReader := MkReader { reader_bytes : list byte; position_ : Z }.

(** [BinaryReader(bytes)] *)
Definition new_reader (bytes : list byte) : BinaryReader := MkReader bytes 0.

Definition reader_position (r : BinaryReader) : Z := position_ r.
Definition remaining (r : BinaryReader) : Z := len (reader_bytes r) ⊖ position_ r.
Definition reader_empty (r : BinaryReader) : bool := remaining r =? 0.

(** [read<Value>()]; every turn of the loop converts to [Value]. *)
Definition read (Value : unsigned_type) (r : BinaryReader) : result Z * BinaryReader :=
  let n := size_of Value in
  if remaining r <? Z.of_nat n then
    (failure insufficient_data "binary value is truncated", r)
  else
    match be_read_loop (static_cast Value) (reader_bytes r) (position_ r) n 0 0 with
    | Ok value => (Ok value, MkReader (reader_bytes r) (position_ r ⊕ Z.of_nat n))
    | m => (m, r)
    end.

Definition read_bytes (count : Z) (r : BinaryReader) : result (list byte) * BinaryReader :=
  if remaining r <? count then
    (failure insufficient_data "binary byte range is truncated", r)
  else
    match subspan (reader_bytes r) (position_ r) count with
    | Ok bytes => (Ok bytes, MkReader (reader_bytes r) (position_ r ⊕ count))
    | m => (m, r)
    end.

Definition read_string (maximum : Z) (r : BinaryReader) : result (list byte) * BinaryReader :=
  let prefix_size := 4 in
  if remaining r <? prefix_size then
    (failure insufficient_data "binary string length is truncated", r)
  else
    match be_read_loop (wrap 32) (reader_bytes r) (position_ r) 4 0 0 with
    | Ok size =>
        if maximum <? size then
          (failure limit_exceeded "binary string limit exceeded", r)
        else if remaining r ⊖ prefix_size <? size then
          (failure insufficient_data "binary string payload is truncated", r)
        else
          let position := position_ r ⊕ prefix_size in
          match subspan (reader_bytes r) position size with
          | Ok text => (Ok text, MkReader (reader_bytes r) (position ⊕ size))
          | m => (m, r)
          end
    | Fail e => (Fail e, r)
    | UB => (UB, r)
    | NoFuel => (NoFuel, r)
    end.

(** ** Typed fields

    A caller writes and reads a sequence of unsigned integers, raw byte ranges and
    strings. *)
Inductive field :=
| FInt (t : unsigned_type) (v : Z)
| FBytes (b : list byte)
| FString (s : list byte).

(** What the reader has to be told to read a field back. *)
Inductive shape :=
| SInt (t : unsigned_type)
| SBytes (count : Z)
| SString (maximum : Z).

Definition write_field (f : field) : BinaryWriter → result unit * BinaryWriter :=
  match f with
  | FInt t v => write t v
  | FBytes b => write_bytes b
  | FString s => write_string s
  end.

Definition read_field (s : shape) (r : BinaryReader) : result field * BinaryReader :=
  match s with
  | SInt t => let '(m, r') := read t r in (v ← m; Ok (FInt t v), r')
  | SBytes c => let '(m, r') := read_bytes c r in (b ← m; Ok (FBytes b), r')
  | SString c => let '(m, r') := read_string c r in (b ← m; Ok (FString b), r')
  end.

Fixpoint write_fields (fs : list field) (w : BinaryWriter) : result unit * BinaryWriter :=
  match fs with
  | [] => (Ok tt, w)
  | f :: fs' =>
      match write_field f w with
      | (Ok _, w') => write_fields fs' w'
      | (m, w') => (m, w')
      end
  end.

Fixpoint read_fields (ss : list shape) (r : BinaryReader) : result (list field) * BinaryReader :=
  match ss with
  | [] => (Ok [], r)
  | s :: ss' =>
      match read_field s r with
      | (Ok f, r') =>
          let '(m, r'') := read_fields ss' r' in (fs ← m; Ok (f :: fs), r'')
      | (Fail e, r') => (Fail e, r')
      | (UB, r') => (UB, r')
      | (NoFuel, r') => (NoFuel, r')
      end
  end.

Definition field_wf (f : field) : Prop :=
  match f with
  | FInt t v => t ∈ unsigned_types ∧ 0 ≤ v < cardinality t
  | FBytes b => in_memory b
  | FString s => len s ≤ uint32_max
  end.

Definition shape_wf (s : shape) : Prop :=
  match s with
  | SInt t => t ∈ unsigned_types
  | SBytes count => 0 ≤ count ≤ size_max
  | SString maximum => 0 ≤ maximum ≤ size_max
  end.

Definition field_shape (f : field) : shape :=
  match f with
  | FInt t _ => SInt t
  | FBytes b => SBytes (len b)
  | FString _ => SString uint32_max
  end.

(** The bytes of a field on the wire. *)
Definition field_wire (f : field) : list byte :=
  match f with
  | FInt t v => be_split (size_of t) v
  | FBytes b => b
  | FString s => be_split 4 (len s) ++ s
  end.

(** [m] is an encoding of [f]: its wire form, except that any nonzero byte is read as
    the [bool] [true]. *)
Definition field_at (f : field) (m : list byte) : Prop :=
  match f with
  | FInt UBool v => ∃ b, m = [b] ∧ (v = 0 ↔ to_Z b = 0)
  | _ => m = field_wire f
  end.

(** A read of shape [s] may return [f]. *)
Definition shape_of (s : shape) (f : field) : Prop :=
  match s, f with
  | SInt t, FInt t' _ => t = t'
  | SBytes count, FBytes b => len b = count
  | SString maximum, FString b => len b ≤ maximum
  | _, _ => False
  end.

(** The message of the error a rejected write reports. *)
Definition write_error (f : field) : string :=
  match f with
  | FString _ => "binary string limit exceeded"
  | _ => "binary writer limit exceeded"
  end.

(** ** Invariants *)
Definition writer_inv (w : BinaryWriter) : Prop :=
  0 ≤ limit_ w ≤ size_max ∧ len (writer_bytes w) ≤ limit_ w.

Definition reader_inv (r : BinaryReader) : Prop :=
  in_memory (reader_bytes r) ∧ 0 ≤ position_ r ≤ len (reader_bytes r).
End Binary.

Section BinaryFacts.
Context {EM : ErrorModel}.

Ltac field_simpl :=
  cbn [write_field read_field field_wire field_wf field_shape shape_wf write_error
       reader_bytes position_ writer_bytes limit_] in *.

Lemma can_append_spec w count :
  writer_inv w → can_append w count = true ↔ len (writer_bytes w) + count ≤ limit_ w.
Proof.
  intros [? ?]. unfold can_append. rewrite Z.min_r by lia.
  rewrite size_sub_small by len_lia. rewrite Z.leb_le. lia.
Qed.

Lemma unsigned_types_sizes t : t ∈ unsigned_types → (1 ≤ size_of t ≤ 16)%nat.
Proof.
  intros Ht. assert (Forall (λ t, 1 ≤ size_of t ≤ 16)%nat unsigned_types) as Hall
    by (repeat constructor). by rewrite Forall_forall in Hall; apply Hall.
Qed.

(** The loop of [write] appends the big-endian bytes of any value of the type. *)
Lemma be_write_loop_typed t v l :
  t ∈ unsigned_types → 0 ≤ v < cardinality t →
  be_write_loop (static_cast t 255) (size_of t) v l = l ++ be_split (size_of t) v.
Proof.
  intros Ht Hv. pose proof (unsigned_types_sizes t Ht). destruct t as [|n]; simpl in *.
  - assert (v = 0 ∨ v = 1) as [-> | ->] by lia; done.
  - assert (2 ^ 8 ≤ 2 ^ (8 * Z.of_nat n)) by (apply Z.pow_le_mono_r; lia).
    rewrite wrap_small by lia. apply be_write_loop_app.
Qed.

(** The loop of [read] converts the big-endian value of the bytes to the type. *)
Lemma be_read_loop_typed {E} t (a m c : list byte) :
  in_memory (a ++ m ++ c) → len m = Z.of_nat (size_of t) →
  be_read_loop (E:=E) (static_cast t) (a ++ m ++ c) (len a) (size_of t) 0 0 =
  Ok (static_cast t (be_combine m)).
Proof.
  intros Hm Hn. destruct t as [|n]; simpl in *.
  - destruct m as [|b [|? ?]]; [done| |len_lia].
    by rewrite (be_read_loop_fold _ a [b] c) by (done || lia).
  - assert (2 ^ (8 * Z.of_nat n) = 256 ^ Z.of_nat n) as Hw by by rewrite Z.pow_mul_r by lia.
    pose proof (be_combine_range m) as Hv. rewrite Hn in Hv.
    change (static_cast (UInt n)) with (wrap (8 * Z.of_nat n)).
    rewrite be_read_loop_ok by (done || by rewrite Hw). by rewrite wrap_small by by rewrite Hw.
Qed.

Lemma static_cast_range t z :
  t ∈ unsigned_types → 0 ≤ static_cast t z < cardinality t.
Proof.
  intros Ht. pose proof (unsigned_types_sizes t Ht). destruct t as [|n]; simpl in *.
  - by destruct (z =? 0).
  - assert (2 ^ (8 * Z.of_nat n) = 256 ^ Z.of_nat n) as <- by by rewrite Z.pow_mul_r by lia.
    unfold wrap. apply Z.mod_pos_bound. lia.
Qed.

(** The encodings of an integer are the byte strings that convert to it. *)
Lemma field_at_int t v m :
  t ∈ unsigned_types → 0 ≤ v < cardinality t →
  field_at (FInt t v) m ↔
  len m = Z.of_nat (size_of t) ∧ v = static_cast t (be_combine m).
Proof.
  intros Ht Hv. destruct t as [|n]; simpl in *.
  - split.
    + intros (b & -> & Hb). split; [done|]. rewrite be_combine_singleton.
      destruct (Z.eqb_spec (to_Z b) 0); [tauto|lia].
    + intros [Hn ->]. destruct m as [|b [|? ?]]; [done| |len_lia]. exists b.
      rewrite be_combine_singleton. split; [done|].
      destruct (Z.eqb_spec (to_Z b) 0); lia.
  - assert (2 ^ (8 * Z.of_nat n) = 256 ^ Z.of_nat n) as Hw by by rewrite Z.pow_mul_r by lia.
    split.
    + intros ->. rewrite len_be_split. split; [done|].
      rewrite be_combine_split_small, wrap_small by by rewrite ?Hw. done.
    + intros [Hn ->]. pose proof (be_combine_range m) as Hc. rewrite Hn in Hc.
      rewrite wrap_small by by rewrite Hw. by rewrite be_split_combine'.
Qed.

Lemma field_at_wire f : field_wf f → field_at f (field_wire f).
Proof.
  destruct f as [t v|b|b]; [|done..]. intros [Ht Hv]. destruct t as [|n]; [|done].
  simpl in *. assert (v = 0 ∨ v = 1) as [-> | ->] by lia.
  - by exists Byte.x00.
  - by exists Byte.x01.
Qed.

Lemma field_wire_len f : field_wf f → len (field_wire f) ≤ size_max.
Proof.
  destruct f as [n v|b|s]; simpl; intros Hf; autorewrite with len.
  - destruct Hf as [Ht _]. apply unsigned_types_sizes in Ht. len_lia.
  - len_lia.
  - len_lia.
Qed.

Lemma write_field_spec f w :
  writer_inv w → field_wf f →
  write_field f w =
    if len (writer_bytes w) + len (field_wire f) <=? limit_ w
    then (Ok tt, MkWriter (limit_ w) (writer_bytes w ++ field_wire f))
    else (failure limit_exceeded (write_error f), w).
Proof.
  intros Hw Hf. pose proof (field_wire_len f Hf) as Hs.
  assert (∀ c, can_append w c = (len (writer_bytes w) + c <=? limit_ w)) as Hc.
  { intros c. apply eq_bool_prop_intro. rewrite !Is_true_true, Z.leb_le.
    by apply can_append_spec. }
  destruct f as [n v|b|s]; field_simpl.
  - unfold write. rewrite Hc, len_be_split, be_write_loop_typed by apply Hf.
    by destruct (_ <=? _).
  - unfold write_bytes. rewrite Hc. by destruct (_ <=? _).
  - unfold write_string. rewrite (proj2 (Z.ltb_ge _ _)) by done.
    rewrite (proj2 (Z.ltb_ge _ (len s))) by (rewrite size_sub_small; len_lia).
    rewrite size_add_small by len_lia. rewrite Hc, len_app, len_be_split.
    rewrite wrap_small by len_lia. rewrite be_write_loop_app, <- app_assoc.
    change (Z.of_nat 4) with 4. by destruct (_ <=? _).
Qed.

Lemma write_fields_spec fs w :
  writer_inv w → Forall field_wf fs →
  len (writer_bytes w) + len (concat (map field_wire fs)) ≤ limit_ w →
  write_fields fs w =
    (Ok tt, MkWriter (limit_ w) (writer_bytes w ++ concat (map field_wire fs))).
Proof.
  intros Hw Hfs. revert w Hw. induction Hfs as [|f fs Hf Hfs IH]; intros w Hw Hl.
  - simpl. rewrite app_nil_r. by destruct w.
  - simpl in *. rewrite len_app in Hl. pose proof (len_nonneg (concat (map field_wire fs))).
    rewrite write_field_spec, (proj2 (Z.leb_le _ _)) by (done || lia).
    rewrite IH; simpl; [by rewrite app_assoc|split; simpl|]; destruct Hw; len_lia.
Qed.

Lemma remaining_spec r : reader_inv r → remaining r = len (reader_bytes r) - position_ r.
Proof. intros [? ?]. unfold remaining. apply size_sub_small. len_lia. Qed.

(** What each read returns on a reader positioned before an encoding of a field. *)
Lemma read_field_at sh f a m c :
  field_wf f → shape_of sh f → field_at f m → in_memory (a ++ m ++ c) →
  read_field sh (MkReader (a ++ m ++ c) (len a)) =
    (Ok f, MkReader (a ++ m ++ c) (len a + len m)).
Proof.
  intros Hf Hs Ha Hm. set (r := MkReader _ _).
  assert (reader_inv r) as Hr by (split; [done|]; simpl; len_lia).
  pose proof (remaining_spec r Hr) as Hrem. subst r. field_simpl.
  destruct sh as [t|n|n], f as [t' v|b|b]; simpl in Hs; try done; field_simpl.
  - subst t'. destruct Hf as [Ht Hv]. apply field_at_int in Ha as [Hn Ha]; [|done..].
    unfold read. rewrite Hrem, (proj2 (Z.ltb_ge _ _)) by len_lia.
    field_simpl. rewrite be_read_loop_typed by done. cbn. rewrite <- Ha.
    pose proof (unsigned_types_sizes t Ht). by rewrite <- Hn, size_add_small by len_lia.
  - simpl in Ha. subst m n. unfold read_bytes. rewrite Hrem, (proj2 (Z.ltb_ge _ _)) by len_lia.
    field_simpl. rewrite subspan_app. by rewrite size_add_small by len_lia.
  - cbn [field_at field_wire] in Ha. subst m. unfold read_string. rewrite Hrem, (proj2 (Z.ltb_ge _ _)) by len_lia.
    field_simpl. rewrite <- (app_assoc _ b c) in *.
    rewrite be_read_loop_ok; [|done|apply len_be_split|done].
    rewrite be_combine_split_small by (change (256 ^ Z.of_nat 4) with 4294967296; len_lia).
    rewrite (proj2 (Z.ltb_ge _ _)) by done.
    rewrite (proj2 (Z.ltb_ge _ _)) by (rewrite size_sub_small; len_lia).
    rewrite size_add_small by len_lia.
    replace (len a + 4) with (len (a ++ be_split 4 (len b))) by len_lia.
    rewrite app_assoc, subspan_app. rewrite size_add_small by len_lia.
    do 2 f_equal. len_lia.
Qed.

Lemma field_shape_of f : field_wf f → shape_of (field_shape f) f.
Proof. by destruct f. Qed.

Lemma read_field_wire f a c :
  field_wf f → in_memory (a ++ field_wire f ++ c) →
  read_field (field_shape f) (MkReader (a ++ field_wire f ++ c) (len a)) =
    (Ok f, MkReader (a ++ field_wire f ++ c) (len a + len (field_wire f))).
Proof.
  intros Hf. by apply read_field_at; [done|apply field_shape_of|apply field_at_wire].
Qed.

Lemma read_fields_wire fs a c :
  Forall field_wf fs → in_memory (a ++ concat (map field_wire fs) ++ c) →
  read_fields (map field_shape fs) (MkReader (a ++ concat (map field_wire fs) ++ c) (len a)) =
    (Ok fs, MkReader (a ++ concat (map field_wire fs) ++ c)
              (len a + len (concat (map field_wire fs)))).
Proof.
  intros Hfs. revert a. induction Hfs as [|f fs Hf Hfs IH]; intros a Hm; simpl in *.
  - rewrite len_nil. by rewrite Z.add_0_r.
  - rewrite <- (app_assoc (field_wire f)) in *.
    rewrite read_field_wire by done.
    replace (len a + len (field_wire f)) with (len (a ++ field_wire f)) by len_lia.
    rewrite (app_assoc a) in *. rewrite IH by done.
    cbn. do 2 f_equal. len_lia.
Qed.

(** Every read is defined; a successful one consumes exactly an encoding of what it
    returns, and a rejected one leaves the reader where it was. *)
Lemma read_field_sound sh r :
  reader_inv r → shape_wf sh →
  match read_field sh r with
  | (Ok f, r') =>
      field_wf f ∧ shape_of sh f ∧
      ∃ a m c, reader_bytes r = a ++ m ++ c ∧ len a = position_ r ∧ field_at f m ∧
        r' = MkReader (reader_bytes r) (position_ r + len m)
  | (Fail _, r') => r' = r
  | _ => False
  end.
Proof.
  intros Hr Hs. pose proof (remaining_spec r Hr) as Hrem. destruct r as [bytes pos].
  destruct Hr as [Hm Hp]. field_simpl.
  destruct sh as [t|count|maximum]; field_simpl.
  - unfold read. rewrite Hrem. field_simpl.
    destruct (Z.ltb_spec (len bytes - pos) (Z.of_nat (size_of t))); [done|].
    destruct (split_range bytes pos (Z.of_nat (size_of t))) as (a & m & c & -> & <- & Hn); [lia..|].
    rewrite be_read_loop_typed by done. cbn. pose proof (static_cast_range t (be_combine m) Hs).
    rewrite size_add_small by len_lia. split_and!; [done|lia..|done|].
    exists a, m, c. split_and!; [done..|by apply field_at_int|by rewrite Hn].
  - unfold read_bytes. rewrite Hrem. field_simpl.
    destruct (Z.ltb_spec (len bytes - pos) count); [done|].
    destruct (split_range bytes pos count) as (a & m & c & -> & <- & <-); [lia..|].
    rewrite subspan_app. cbn. rewrite size_add_small by len_lia.
    split_and!; [len_lia|done|by exists a, m, c].
  - unfold read_string. rewrite Hrem. field_simpl.
    destruct (Z.ltb_spec (len bytes - pos) 4); [done|].
    destruct (split_range bytes pos 4) as (a & m & c & -> & <- & Hn); [lia..|].
    rewrite be_read_loop_ok by done.
    pose proof (be_combine_range m) as Hv. rewrite Hn in Hv.
    destruct (Z.ltb_spec maximum (be_combine m)); [done|].
    rewrite size_sub_small by len_lia.
    destruct (Z.ltb_spec (len (a ++ m ++ c) - len a - 4) (be_combine m)); [done|].
    rewrite size_add_small by len_lia.
    destruct (split_at c (be_combine m)) as (t & d & -> & Ht); [len_lia|].
    replace (len a + 4) with (len (a ++ m)) by len_lia.
    assert (subspan (E:=error_type) (a ++ m ++ t ++ d) (len (a ++ m)) (be_combine m) = Ok t)
      as -> by (rewrite <- Ht, app_assoc; apply subspan_app). cbn.
    rewrite size_add_small by len_lia.
    split_and!; [change (256 ^ 4) with 4294967296 in Hv; len_lia|lia|].
    exists a, (m ++ t), d. rewrite <- !app_assoc, Ht, (be_split_combine' 4 m Hn).
    split_and!; [done..|]. f_equal. len_lia.
Qed.
End BinaryFacts.

(** ** Properties *)

(** C31. Round trip: any sequence of integers, byte ranges and strings written to a
    fresh writer whose limit covers its wire form is accepted, and a reader over the
    vector taken from the writer returns the same fields and ends up empty. *)
Theorem binary_fields_roundtrip {EM : ErrorModel} (fs : list field) (limit : Z) :
  Forall field_wf fs → 0 ≤ limit ≤ size_max →
  len (concat (map field_wire fs)) ≤ Z.min limit ptrdiff_max →
  ∃ w r, write_fields fs (MkWriter limit []) = (Ok tt, w) ∧
    read_fields (map field_shape fs) (new_reader (fst (take_writer w))) = (Ok fs, r) ∧
    reader_empty r = true.
Proof.
  intros Hfs Hl Hs. pose proof (read_fields_wire fs [] [] Hfs) as Hr.
  eexists _, _. rewrite write_fields_spec by (done || (split; simpl; len_lia) || (simpl; len_lia)).
  split; [done|]. simpl in *. rewrite app_nil_r in Hr. unfold new_reader.
  split; [apply Hr; len_lia|]. unfold reader_empty, remaining. simpl.
  rewrite len_nil, Z.add_0_l, Z.sub_diag. done.
Qed.

Example binary_fields_roundtrip_witness :
  let fs := [FInt (UInt 2) 4660; FInt UBool 1; FInt (UInt 4) 2309737967; FString (bytes_of [86; 79; 83; 80])] in
  ∃ w r, write_fields (EM:=Model) fs (MkWriter 128 []) = (Ok tt, w) ∧
    read_fields (EM:=Model) (map field_shape fs) (new_reader (fst (take_writer w))) = (Ok fs, r) ∧
    reader_empty r = true.
Proof.
  apply (binary_fields_roundtrip (EM:=Model)).
  - repeat constructor; simpl; try (by_compute); set_solver.
  - by_compute.
  - by_compute.
Defined.



(** C33. Reads are memory safe and exact: on any reader whose cursor is inside its
    span no read is undefined.  A successful read returns a value of the type asked for
    and moves the cursor past exactly an encoding of it: the wire form of an integer, a
    byte range or a string, and for a [bool], which is an unsigned integral type too,
    any one byte, read as [false] when it is zero and as [true] otherwise (so the byte
    0x02 is read as [true], whose own wire form is 0x01).  A read is rejected only when
    no encoding of a value of the requested shape starts at the cursor, and a rejected
    read preserves the cursor. *)
Theorem binary_read_safe_exact {EM : ErrorModel} (s : shape) (r : BinaryReader) :
  reader_inv r → shape_wf s →
  reader_inv (read_field s r).2 ∧
  match read_field s r with
  | (Ok f, r') =>
      field_wf f ∧ shape_of s f ∧
      ∃ a m c, reader_bytes r = a ++ m ++ c ∧ len a = position_ r ∧ field_at f m ∧
        r' = MkReader (reader_bytes r) (position_ r + len m)
  | (Fail _, r') =>
      r' = r ∧
      ∀ f a m c, reader_bytes r = a ++ m ++ c → len a = position_ r →
        field_wf f → shape_of s f → ¬ field_at f m
  | _ => False
  end.
Proof.
  intros Hr Hs. pose proof (read_field_sound s r Hr Hs) as H.
  destruct (read_field s r) as [[f|e| |] r'] eqn:E; simpl; [| |done..].
  - split; [|done]. destruct H as (_ & _ & a & m & c & Hb & Ha & _ & ->).
    destruct Hr. split; simpl; [done|]. rewrite Hb. len_lia.
  - subst r'. split_and!; [done..|]. intros f a m c Hb Ha Hf Hsf Hat.
    destruct r as [bytes pos], Hr as [Hm _]. simpl in *. subst bytes pos.
    by rewrite (read_field_at s f) in E.
Qed.

(** A 16-bit integer and the [bool] stored as 0x02 are read, a string longer than the
    caller's maximum is not. *)
Example binary_read_safe_exact_witness :
  let r := MkReader (bytes_of [18; 52; 2; 0; 0; 0; 2; 111; 107]) in
  let after s p := (read_field (EM:=Model) s (r p)).2 in
  read_field (EM:=Model) (SInt (UInt 2)) (r 0) = (Ok (FInt (UInt 2) 4660), r 2) ∧
  read_field (EM:=Model) (SInt UBool) (r 2) = (Ok (FInt UBool 1), r 3) ∧
  read_field (EM:=Model) (SString 1) (r 3) =
    (Fail (MkError 2 "binary string limit exceeded"), r 3) ∧
  reader_inv (after (SInt (UInt 2)) 0) ∧ reader_inv (after (SInt UBool) 2) ∧
  reader_inv (after (SString 1) 3).
Proof.
  intros r after. split; [vm_compute; done|]. split; [vm_compute; done|].
  split; [vm_compute; done|]. split; [|split].
  - destruct (binary_read_safe_exact (EM:=Model) (SInt (UInt 2)) (r 0)) as [H _];
      [by_compute|by right; right; left|exact H].
  - destruct (binary_read_safe_exact (EM:=Model) (SInt UBool) (r 2)) as [H _];
      [by_compute|by left|exact H].
  - destruct (binary_read_safe_exact (EM:=Model) (SString 1) (r 3)) as [H _];
      [by_compute..|exact H].
Defined.
