(* ===== verification/Frame.v ===== *)
(** * VSP1 frames

    [include/vosp/protocol/frame.hpp]: the byte helpers of [detail], the
    [FrameCodec] operations [encode], [probe], [decode_prefix] and [decode], and
    the private [validate_extensions].  The wire format they implement is stated
    separately as [frame_wire], from [docs/WIRE_FORMAT.md]. *)

From stdpp Require Import prelude list strings.
From S2P Require Import Prelude Errors Types.
Import Protocol.

Definition wire_magic : Z := 0x56535031.
Definition wire_header_size : Z := 32.

Inductive FrameState := incomplete | ready.

(** The only member of [FrameCodec] is [limits_]; its functions take it as an argument. *)
Definition FrameCodec := Limits.

Definition new_codec (limits : Limits) : FrameCodec := limits.
Definition codec_limits (c : FrameCodec) : Limits := c.

Record FrameProbe := MkProbe { state : FrameState; frame_size : Z; required_size : Z }.

(** [FrameProbe{}]: the default member initialisers. *)
Definition default_probe : FrameProbe := MkProbe incomplete 0 wire_header_size.

Record DecodedFrame := MkDecoded { message : Message; consumed : Z }.

#[export] Instance FrameState_eq_decision : EqDecision FrameState.
Proof. solve_decision. Defined.

(** ** Byte helpers *)
Definition append_byte (output : list byte) (value : Z) : list byte :=
  output ++ [of_Z (Z.land value 255)].

Definition append_u16 (output : list byte) (value : Z) : list byte :=
  append_byte (append_byte output (Z.shiftr value 8)) value.

Definition append_u32 (output : list byte) (value : Z) : list byte :=
  foldl (λ out shift, append_byte out (Z.shiftr value shift)) output [24; 16; 8; 0].

Definition append_u64 (output : list byte) (value : Z) : list byte :=
  foldl (λ out shift, append_byte out (Z.shiftr value shift)) output
    [56; 48; 40; 32; 24; 16; 8; 0].

Section FrameCodec.
Context {EM : ErrorModel}.

Definition read_u16 (input : list byte) (offset : Z) : result Z :=
  high ← index_at input offset;
  low ← index_at input (offset ⊕ 1);
  Ok (wrap 16 (Z.lor (Z.shiftl (to_Z high) 8) (to_Z low))).

Definition read_u32 (input : list byte) (offset : Z) : result Z :=
  be_read_loop (wrap 32) input offset 4 0 0.

Definition read_u64 (input : list byte) (offset : Z) : result Z :=
  be_read_loop (wrap 64) input offset 8 0 0.

(** ** FrameCodec *)

(** The loop of [encode] that sums the sizes of the extensions. *)
Fixpoint sum_extensions (l : Limits) (exts : list Extension) (extension_bytes : Z) : result Z :=
  match exts with
  | [] => Ok extension_bytes
  | e :: exts' =>
      if (uint16_max <? len (value_ e)) || (max_extension_bytes l <? extension_bytes)
         || (max_extension_bytes l ⊖ extension_bytes <? len (value_ e))
         || (size_max ⊖ extension_bytes ⊖ 4 <? len (value_ e))
      then failure limit_exceeded "protocol extension bytes exceeded"
      else sum_extensions l exts' (extension_bytes ⊕ (4 ⊕ len (value_ e)))
  end.

(** The loop of [encode] that appends the extensions. *)
Definition append_extension (output : list byte) (e : Extension) : list byte :=
  append_u16 (append_u16 output (id_ e)) (wrap 16 (len (value_ e))) ++ value_ e.

(** The bytes [encode] writes once every check has passed. *)
Definition emit_frame (m : MessageView) (header_size : Z) : list byte :=
  let output := append_u32 [] wire_magic in
  let output := append_u16 output (wrap 16 header_size) in
  let output := append_u16 output (view_flags m) in
  let output := append_u16 output (major_ (view_version m)) in
  let output := append_u16 output (minor_ (view_version m)) in
  let output := append_u32 output (view_type m) in
  let output := append_u64 output (view_correlation_id m) in
  let output := append_u32 output (wrap 32 (len (view_payload m))) in
  let output := append_u16 output (wrap 16 (len (view_extensions m))) in
  let output := append_u16 output 0 in
  let output := foldl append_extension output (view_extensions m) in
  output ++ view_payload m.

(** [encode(const MessageView&)] *)
Definition encode_view (l : Limits) (m : MessageView) : result (list byte) :=
  if negb (limits_valid l) then
    failure invalid_argument "protocol limits are inconsistent"
  else if (max_payload_size l <? len (view_payload m)) || (uint32_max <? len (view_payload m)) then
    failure limit_exceeded "protocol payload limit exceeded"
  else if (max_extension_count l <? len (view_extensions m))
          || (uint16_max <? len (view_extensions m)) then
    failure limit_exceeded "protocol extension count exceeded"
  else
    extension_bytes ← sum_extensions l (view_extensions m) 0;
    if (max_extension_bytes l <? extension_bytes)
       || (uint16_max ⊖ wire_header_size <? extension_bytes) then
      failure limit_exceeded "protocol header limit exceeded"
    else
      let header_size := wire_header_size ⊕ extension_bytes in
      if size_max ⊖ header_size <? len (view_payload m) then
        failure limit_exceeded "protocol frame size overflow"
      else
        let frame_size := header_size ⊕ len (view_payload m) in
        if max_frame_size l <? frame_size then
          failure limit_exceeded "protocol frame limit exceeded"
        else Ok (emit_frame m header_size).

(** [encode(const Message&)] *)
Definition encode (l : Limits) (m : Message) : result (list byte) :=
  encode_view l (view_of_message m).

(** The loop of [validate_extensions]; [n] extensions are left.  Returns the cursor. *)
Fixpoint validate_loop (header : list byte) (n : nat) (cursor : Z) : result Z :=
  match n with
  | O => Ok cursor
  | S n' =>
      if len header ⊖ cursor <? 4 then
        failure malformed_frame "protocol extension header is truncated"
      else
        value_size ← read_u16 header (cursor ⊕ 2);
        let cursor := cursor ⊕ 4 in
        if len header ⊖ cursor <? value_size then
          failure malformed_frame "protocol extension value is truncated"
        else validate_loop header n' (cursor ⊕ value_size)
  end.

Definition validate_extensions (header : list byte) (extension_count : Z) : result unit :=
  cursor ← validate_loop header (Z.to_nat extension_count) wire_header_size;
  if negb (cursor =? len header) then
    failure malformed_frame "protocol extension count is inconsistent"
  else Ok tt.

Definition probe (l : Limits) (input : list byte) : result FrameProbe :=
  if negb (limits_valid l) then
    failure invalid_argument "protocol limits are inconsistent"
  else if len input <? 4 then Ok default_probe
  else
    magic ← read_u32 input 0;
    if negb (magic =? wire_magic) then
      failure invalid_magic "protocol frame magic mismatch"
    else if len input <? wire_header_size then Ok default_probe
    else
      header_size ← read_u16 input 4;
      payload_size ← read_u32 input 24;
      extension_count ← read_u16 input 28;
      reserved ← read_u16 input 30;
      if negb (reserved =? 0) || (header_size <? wire_header_size) then
        failure malformed_frame "protocol frame header is malformed"
      else if (max_extension_count l <? extension_count)
              || (max_extension_bytes l <? header_size ⊖ wire_header_size)
              || (max_payload_size l <? payload_size) then
        failure limit_exceeded "protocol frame declares excessive sizes"
      else if size_max ⊖ header_size <? payload_size then
        failure limit_exceeded "protocol frame size overflow"
      else
        let frame_size := header_size ⊕ payload_size in
        if max_frame_size l <? frame_size then
          failure limit_exceeded "protocol frame limit exceeded"
        else if len input <? header_size then Ok (MkProbe incomplete frame_size frame_size)
        else
          header ← first_n input header_size;
          _ ← validate_extensions header extension_count;
          if len input <? frame_size then Ok (MkProbe incomplete frame_size frame_size)
          else Ok (MkProbe ready frame_size frame_size).

(** The loop of [decode_prefix] that copies the extensions; [n] are left. *)
Fixpoint decode_extensions (input : list byte) (n : nat) (cursor : Z)
    (extensions : list Extension) : result (list Extension) :=
  match n with
  | O => Ok extensions
  | S n' =>
      id ← read_u16 input cursor;
      size ← read_u16 input (cursor ⊕ 2);
      let cursor := cursor ⊕ 4 in
      value ← iter_range input cursor (cursor ⊕ size);
      decode_extensions input n' (cursor ⊕ size) (extensions ++ [MkExtension id value])
  end.

Definition decode_prefix (l : Limits) (input : list byte) : result DecodedFrame :=
  inspected ← probe l input;
  if negb (bool_decide (state inspected = ready)) then
    failure insufficient_data "protocol frame is incomplete"
  else
    header_size ← read_u16 input 4;
    extension_count ← read_u16 input 28;
    extensions ← decode_extensions input (Z.to_nat extension_count) wire_header_size [];
    payload ← subspan input header_size (frame_size inspected ⊖ header_size);
    major ← read_u16 input 8;
    minor ← read_u16 input 10;
    type ← read_u32 input 12;
    correlation_id ← read_u64 input 16;
    flags ← read_u16 input 6;
    Ok (MkDecoded
          (MkMessage (MkVersion major minor) type correlation_id flags extensions payload)
          (frame_size inspected)).

Definition decode (l : Limits) (input : list byte) : result Message :=
  decoded ← decode_prefix l input;
  if negb (consumed decoded =? len input) then
    failure trailing_data "protocol frame has trailing bytes"
  else Ok (message decoded).
End FrameCodec.

(** ** The wire format *)

(** One TLV: 16-bit id, 16-bit size, value. *)
Definition extension_wire (e : Extension) : list byte :=
  be_split 2 (id_ e) ++ be_split 2 (len (value_ e)) ++ value_ e.

Definition extensions_wire (es : list Extension) : list byte := concat (map extension_wire es).

(** The fixed header of 32 bytes. *)
Definition header_wire (m : Message) : list byte :=
  be_split 4 wire_magic ++
  be_split 2 (wire_header_size + len (extensions_wire (extensions_ m))) ++
  be_split 2 (flags_ m) ++
  be_split 2 (major_ (version_ m)) ++ be_split 2 (minor_ (version_ m)) ++
  be_split 4 (type_ m) ++ be_split 8 (correlation_id_ m) ++
  be_split 4 (len (payload_ m)) ++ be_split 2 (len (extensions_ m)) ++ be_split 2 0.

Definition frame_wire (m : Message) : list byte :=
  header_wire m ++ extensions_wire (extensions_ m) ++ payload_ m.

(** The message is within the limits of a codec and of the format. *)
Definition fits (l : Limits) (m : Message) : Prop :=
  len (payload_ m) ≤ max_payload_size l ∧
  len (extensions_ m) ≤ max_extension_count l ∧
  len (extensions_wire (extensions_ m)) ≤ max_extension_bytes l ∧
  len (extensions_wire (extensions_ m)) ≤ uint16_max - wire_header_size ∧
  len (frame_wire m) ≤ max_frame_size l.

(** ** A message of the test suite *)
Definition sample_message : Message :=
  MkMessage (MkVersion 1 2) 17 42 (flags_or flags_authenticated flags_checksum)
    [MkExtension (extension_id_value content_type)
       (bytes_of [116; 101; 120; 116; 47; 112; 108; 97; 105; 110])]
    (bytes_of [112; 97; 121; 108; 111; 97; 100]).

Example sample_frame_round_trip :
  encode (EM:=Model) default_limits sample_message = Ok (frame_wire sample_message) ∧
  len (frame_wire sample_message) = 32 + 4 + 10 + 7 ∧
  decode (EM:=Model) default_limits (frame_wire sample_message) = Ok sample_message ∧
  decode (EM:=Model) default_limits (frame_wire sample_message ++ [Byte.x00]) =
    Fail (MkError 8 "protocol frame has trailing bytes").
Proof. by vm_compute. Qed.
