(* ===== verification/FrameFacts.v ===== *)
(** * Facts about VSP1 frames

    The encoder writes exactly the wire format; the probe and the decoder accept
    exactly the prefixes that are a frame of the wire format within the limits;
    nothing they do is undefined. *)

From stdpp Require Import prelude list strings.
From S2P Require Import Prelude Errors Types Frame.
Import Protocol.

(** ** Big-endian fields at an offset *)
Definition be_at (input : list byte) (off : Z) (n : nat) : Z :=
  be_combine (take n (drop (Z.to_nat off) input)).

Lemma be_at_mid a m c off n :
  off = len a → len m = Z.of_nat n → be_at (a ++ m ++ c) off n = be_combine m.
Proof.
  unfold be_at, len. intros -> ?. rewrite Nat2Z.id, drop_app_length.
  replace n with (length m) by lia. by rewrite take_app_length.
Qed.

Lemma be_at_skip k v x off n :
  Z.of_nat k ≤ off → be_at (be_split k v ++ x) off n = be_at x (off - Z.of_nat k) n.
Proof.
  intros. unfold be_at. replace (Z.to_nat off) with (k + Z.to_nat (off - Z.of_nat k))%nat by lia.
  rewrite <- drop_drop. do 3 f_equal.
  rewrite <- (length_be_split k v) at 1. by rewrite drop_app_length.
Qed.

Lemma be_at_here v x off n :
  off = 0 → be_at (be_split n v ++ x) off n = v mod 256 ^ Z.of_nat n.
Proof.
  intros ->. rewrite <- be_combine_split. apply (be_at_mid []); [done|by rewrite len_be_split].
Qed.

Lemma be_at_range input off n :
  0 ≤ off → off + Z.of_nat n ≤ len input → 0 ≤ be_at input off n < 256 ^ Z.of_nat n.
Proof.
  intros. destruct (split_range input off (Z.of_nat n)) as (a & m & c & -> & <- & Hm); [lia..|].
  rewrite (be_at_mid a m c) by done. rewrite <- Hm. apply be_combine_range.
Qed.

Lemma be_at_app input more off n :
  0 ≤ off → off + Z.of_nat n ≤ len input → be_at (input ++ more) off n = be_at input off n.
Proof.
  intros. destruct (split_range input off (Z.of_nat n)) as (a & m & c & -> & <- & Hm); [lia..|].
  by rewrite <- !app_assoc, !(be_at_mid a m).
Qed.

(** A field is the big-endian form of its value. *)
Lemma be_split_at input off n :
  0 ≤ off → off + Z.of_nat n ≤ len input →
  be_split n (be_at input off n) = take n (drop (Z.to_nat off) input).
Proof.
  intros. apply be_split_combine'. unfold len in *. rewrite length_take, length_drop. lia.
Qed.

(** Evaluate [be_at] on a concatenation of [be_split]s. *)
Ltac field_at :=
  rewrite <- ?app_assoc; repeat rewrite be_at_skip by lia; rewrite be_at_here by lia.

(** Reduce the projections of a message without unfolding its wire form. *)
Ltac msg_simpl :=
  cbn [version_ type_ correlation_id_ flags_ extensions_ payload_ major_ minor_].

(** ** The byte helpers *)
Lemma append_u16_app o v : append_u16 o v = o ++ be_split 2 v.
Proof.
  unfold append_u16, append_byte. rewrite !of_Z_land_255, <- app_assoc.
  rewrite Z.shiftr_div_pow2 by lia. unfold be_split. do 2 f_equal. simpl.
  by rewrite Z.div_1_r.
Qed.

Lemma append_shifts_app o v :
  append_u32 o v = o ++ be_split 4 v ∧ append_u64 o v = o ++ be_split 8 v.
Proof.
  unfold append_u32, append_u64, append_byte, be_split. cbn [foldl].
  rewrite !of_Z_land_255, <- !app_assoc. cbn [app].
  rewrite !Z.shiftr_div_pow2 by lia. done.
Qed.

Lemma append_u32_app o v : append_u32 o v = o ++ be_split 4 v.
Proof. apply append_shifts_app. Qed.

Lemma append_u64_app o v : append_u64 o v = o ++ be_split 8 v.
Proof. apply append_shifts_app. Qed.

Lemma append_extensions_app es o :
  Forall (λ e, len (value_ e) ≤ uint16_max) es →
  foldl append_extension o es = o ++ extensions_wire es.
Proof.
  intros Hes. revert o. induction Hes as [|e es He Hes IH]; intros o; simpl.
  - by rewrite app_nil_r.
  - rewrite IH. unfold append_extension, extensions_wire, extension_wire. simpl.
    rewrite !append_u16_app, wrap_small by len_lia. by rewrite <- !app_assoc.
Qed.

Section FrameFacts.
Context {EM : ErrorModel}.

Lemma read_u16_at input off :
  in_memory input → 0 ≤ off → off + 2 ≤ len input →
  read_u16 input off = Ok (be_at input off 2).
Proof.
  intros Hm H0 H1. destruct (split_range input off 2) as (a & m & c & -> & <- & Hn); [lia..|].
  rewrite (be_at_mid a m c) by done.
  destruct m as [|x [|y [|z m]]]; try (exfalso; len_lia).
  unfold read_u16. simpl. rewrite index_at_app_r. simpl.
  rewrite wrap_small by len_lia. replace (len a + 1) with (len (a ++ [x])) by len_lia.
  rewrite (cons_middle x a), app_assoc, index_at_app_r. simpl.
  pose proof (to_Z_range x). pose proof (to_Z_range y).
  rewrite lor_shift_byte by lia. rewrite wrap_small by (unfold be_step; lia). done.
Qed.

Lemma read_u32_at input off :
  in_memory input → 0 ≤ off → off + 4 ≤ len input →
  read_u32 input off = Ok (be_at input off 4).
Proof.
  intros Hm H0 H1. destruct (split_range input off 4) as (a & m & c & -> & <- & Hn); [lia..|].
  rewrite (be_at_mid a m c) by done. by apply be_read_loop_ok.
Qed.

Lemma read_u64_at input off :
  in_memory input → 0 ≤ off → off + 8 ≤ len input →
  read_u64 input off = Ok (be_at input off 8).
Proof.
  intros Hm H0 H1. destruct (split_range input off 8) as (a & m & c & -> & <- & Hn); [lia..|].
  rewrite (be_at_mid a m c) by done. by apply be_read_loop_ok.
Qed.

(** ** Encoding *)

Lemma extensions_wire_cons e es :
  extensions_wire (e :: es) = extension_wire e ++ extensions_wire es.
Proof. done. Qed.

Lemma len_extension_wire e : len (extension_wire e) = 4 + len (value_ e).
Proof. unfold extension_wire. len_lia. Qed.

Lemma len_header_wire m : len (header_wire m) = 32.
Proof. unfold header_wire. len_lia. Qed.

Lemma len_frame_wire m :
  len (frame_wire m) = 32 + len (extensions_wire (extensions_ m)) + len (payload_ m).
Proof. unfold frame_wire. rewrite !len_app, len_header_wire. lia. Qed.

(** The value of every extension is bounded by their total size. *)
Lemma extensions_wire_values es b :
  len (extensions_wire es) ≤ b → Forall (λ e, len (value_ e) ≤ b) es.
Proof.
  induction es as [|e es IH]; intros H; [done|].
  rewrite extensions_wire_cons, len_app, len_extension_wire in H.
  pose proof (len_nonneg (value_ e)). pose proof (len_nonneg (extensions_wire es)).
  constructor; [lia|]. apply IH. lia.
Qed.

Lemma extensions_wire_count es : 4 * len es ≤ len (extensions_wire es).
Proof.
  induction es as [|e es IH]; [done|].
  rewrite extensions_wire_cons, len_app, len_extension_wire, len_cons.
  pose proof (len_nonneg (value_ e)). lia.
Qed.

(** The size loop computes the total, or stops because the total exceeds the limit. *)
Lemma sum_extensions_spec l es acc :
  max_extension_bytes l ≤ uint16_max → 0 ≤ acc ≤ 200000 → Forall extension_wf es →
  let total := acc + len (extensions_wire es) in
  match sum_extensions l es acc with
  | Ok t => t = total
  | m => m = failure limit_exceeded "protocol extension bytes exceeded" ∧
         max_extension_bytes l < total
  end.
Proof.
  intros Hl Hacc Hes total. subst total. revert acc Hacc.
  induction Hes as [|e es [_ He] Hes IH]; intros acc Hacc; simpl.
  - unfold extensions_wire. simpl. rewrite len_nil. lia.
  - rewrite extensions_wire_cons, len_app, len_extension_wire.
    pose proof (len_nonneg (value_ e)). pose proof (len_nonneg (extensions_wire es)).
    destruct (Z.ltb_spec uint16_max (len (value_ e))); simpl; [split; [done|lia]|].
    destruct (Z.ltb_spec (max_extension_bytes l) acc); simpl; [split; [done|lia]|].
    rewrite size_sub_small by len_lia.
    destruct (Z.ltb_spec (max_extension_bytes l - acc) (len (value_ e))); simpl; [split; [done|lia]|].
    rewrite (size_sub_small size_max), size_sub_small by len_lia.
    destruct (Z.ltb_spec (size_max - acc - 4) (len (value_ e))); simpl; [len_lia|].
    rewrite (size_add_small 4), size_add_small by len_lia.
    specialize (IH (acc + (4 + len (value_ e))) ltac:(len_lia)).
    destruct (sum_extensions _ _ _); [lia|split; [apply IH|lia]..].
Qed.

Lemma emit_frame_wire m :
  len (extensions_wire (extensions_ m)) ≤ uint16_max - wire_header_size →
  len (payload_ m) ≤ uint32_max → len (extensions_ m) ≤ uint16_max →
  emit_frame (view_of_message m) (wire_header_size + len (extensions_wire (extensions_ m))) =
  frame_wire m.
Proof.
  intros Hx Hp Hc. unfold emit_frame, frame_wire, header_wire. cbn [view_of_message
    view_version view_type view_correlation_id view_flags view_extensions view_payload].
  unfold wire_header_size in *.
  rewrite append_extensions_app by (apply extensions_wire_values; lia).
  rewrite !append_u16_app, !append_u64_app, !append_u32_app.
  rewrite !wrap_small by len_lia. by rewrite <- !app_assoc.
Qed.

#[export] Instance fits_decision l m : Decision (fits l m).
Proof. unfold fits. apply _. Defined.

(** [encode] produces the wire form of the messages that fit, and reports
    [limit_exceeded] for the others. *)
Lemma encode_spec l m :
  limits_wf l → limits_valid l = true → message_wf m →
  (fits l m ∧ encode l m = Ok (frame_wire m)) ∨
  (¬ fits l m ∧ ∃ msg, encode l m = failure limit_exceeded msg).
Proof.
  intros Hlw Hlv Hm. pose proof (limits_valid_spec l Hlw Hlv) as (B1 & B2 & B3 & B4 & B5).
  destruct Hm as (_ & _ & _ & _ & Hes & Hem & Hpm).
  unfold encode, encode_view. rewrite Hlv. cbn [negb view_of_message view_payload view_extensions].
  pose proof (sum_extensions_spec l (extensions_ m) 0 B2 ltac:(lia) Hes) as Hsum.
  cbv zeta in Hsum. rewrite Z.add_0_l in Hsum.
  pose proof (emit_frame_wire m) as Hemit. pose proof (len_frame_wire m) as Hfl.
  set (X := len (extensions_wire (extensions_ m))) in *.
  assert (0 ≤ X) by apply len_nonneg.
  unfold fits. fold X. rewrite Hfl. unfold wire_header_size in *.
  destruct (Z.ltb_spec (max_payload_size l) (len (payload_ m))); simpl; [right; split; [lia|by eexists]|].
  rewrite (proj2 (Z.ltb_ge _ _)) by lia.
  destruct (Z.ltb_spec (max_extension_count l) (len (extensions_ m))); simpl; [right; split; [lia|by eexists]|].
  rewrite (proj2 (Z.ltb_ge _ _)) by lia.
  destruct (sum_extensions _ _ _) as [t|e| |];
    [subst t|destruct Hsum as [Hx ?]; injection Hx as ->; right; split; [lia|by eexists]|destruct Hsum as [Hx _]; discriminate Hx..].
  simpl. rewrite size_sub_small by len_lia.
  destruct (Z.ltb_spec (max_extension_bytes l) X); simpl; [right; split; [lia|by eexists]|].
  destruct (Z.ltb_spec (uint16_max - 32) X); simpl; [right; split; [lia|by eexists]|].
  rewrite !(size_add_small 32), size_sub_small by len_lia.
  rewrite (proj2 (Z.ltb_ge _ _)) by len_lia. rewrite size_add_small by len_lia.
  destruct (Z.ltb_spec (max_frame_size l) (32 + X + len (payload_ m))); [right; split; [lia|by eexists]|].
  left. split; [lia|]. by rewrite Hemit by lia.
Qed.

(** ** Extensions on the wire *)

(** What the TLV loops read at the start of an extension. *)
Lemma extension_fields a e c :
  in_memory (a ++ extension_wire e ++ c) → 0 ≤ id_ e ≤ uint16_max →
  len (value_ e) ≤ uint16_max →
  read_u16 (a ++ extension_wire e ++ c) (len a) = Ok (id_ e) ∧
  read_u16 (a ++ extension_wire e ++ c) (len a ⊕ 2) = Ok (len (value_ e)).
Proof.
  unfold extension_wire. intros Hm Hi Hv. rewrite size_add_small by len_lia.
  rewrite !read_u16_at by len_lia. rewrite <- !app_assoc. split; f_equal.
  - rewrite be_at_mid by (done || apply len_be_split). apply be_combine_split_small. len_lia.
  - rewrite (app_assoc a). rewrite be_at_mid by len_lia.
    apply be_combine_split_small. len_lia.
Qed.

Lemma validate_loop_complete es a c :
  in_memory (a ++ extensions_wire es ++ c) → Forall extension_wf es →
  Forall (λ e, len (value_ e) ≤ uint16_max) es →
  validate_loop (a ++ extensions_wire es ++ c) (length es) (len a) =
  Ok (len a + len (extensions_wire es)).
Proof.
  intros Hm Hw. revert a Hm. induction Hw as [|e es [Hi _] Hw IH]; intros a Hm Hv.
  - simpl. f_equal. change (len (extensions_wire [])) with 0. lia.
  - apply Forall_cons in Hv as [Hv1 Hv]. rewrite extensions_wire_cons in *.
    rewrite <- (app_assoc (extension_wire e)) in *. pose proof (len_extension_wire e).
    cbn [length validate_loop]. rewrite size_sub_small, (proj2 (Z.ltb_ge _ _)) by len_lia.
    rewrite (proj2 (extension_fields a e _ Hm Hi Hv1)). cbn [mbind outcome_bind].
    rewrite !(size_add_small (len a)), size_sub_small by len_lia.
    rewrite (proj2 (Z.ltb_ge _ _)) by len_lia. rewrite size_add_small by len_lia.
    replace (len a + 4 + len (value_ e)) with (len (a ++ extension_wire e)) by len_lia.
    rewrite (app_assoc a) in *. rewrite IH by done. f_equal. len_lia.
Qed.

Lemma decode_extensions_complete es a c acc :
  in_memory (a ++ extensions_wire es ++ c) → Forall extension_wf es →
  Forall (λ e, len (value_ e) ≤ uint16_max) es →
  decode_extensions (a ++ extensions_wire es ++ c) (length es) (len a) acc = Ok (acc ++ es).
Proof.
  intros Hm Hw. revert a acc Hm. induction Hw as [|e es [Hi _] Hw IH]; intros a acc Hm Hv.
  - simpl. by rewrite app_nil_r.
  - apply Forall_cons in Hv as [Hv1 Hv]. rewrite extensions_wire_cons in *.
    rewrite <- (app_assoc (extension_wire e)) in *. pose proof (len_extension_wire e).
    cbn [length decode_extensions]. destruct (extension_fields a e _ Hm Hi Hv1) as [-> ->].
    cbn [mbind outcome_bind].
    rewrite (size_add_small (len a)), size_add_small by len_lia.
    assert (iter_range (E:=error_type) (a ++ extension_wire e ++ extensions_wire es ++ c)
      (len a + 4) (len a + 4 + len (value_ e)) = Ok (value_ e)) as ->.
    { unfold iter_range. rewrite (proj2 (Z.leb_le _ _)) by len_lia.
      set (p := a ++ be_split 2 (id_ e) ++ be_split 2 (len (value_ e))).
      replace (len a + 4 + len (value_ e) - (len a + 4)) with (len (value_ e)) by lia.
      replace (len a + 4) with (len p) by (subst p; len_lia).
      rewrite <- (subspan_app p (value_ e) (extensions_wire es ++ c)). subst p.
      unfold extension_wire. by rewrite <- !app_assoc. }
    cbn [mbind outcome_bind]. replace (len a + 4 + len (value_ e)) with (len (a ++ extension_wire e)) by len_lia.
    rewrite (app_assoc a) in *. rewrite IH by done. rewrite <- app_assoc. by destruct e.
Qed.

Lemma validate_loop_sound n a s :
  in_memory (a ++ s) →
  match validate_loop (a ++ s) n (len a) with
  | Ok cursor =>
      ∃ es c, s = extensions_wire es ++ c ∧ length es = n ∧ Forall extension_wf es ∧
        cursor = len a + len (extensions_wire es)
  | m => ∃ msg, m = failure malformed_frame msg
  end.
Proof.
  revert a s. induction n as [|n IH]; intros a s Hm; simpl.
  - exists [], s. rewrite Z.add_0_r. by repeat split.
  - rewrite size_sub_small by len_lia.
    destruct (Z.ltb_spec (len (a ++ s) - len a) 4) as [|Hs]; [by eexists|].
    destruct (split_at s 2) as (i & s1 & -> & Hi); [len_lia|].
    destruct (split_at s1 2) as (z & r & -> & Hz); [len_lia|].
    rewrite (size_add_small (len a) 2) by len_lia.
    rewrite read_u16_at by len_lia. simpl. rewrite (app_assoc a), be_at_mid by len_lia.
    pose proof (be_combine_range z) as Hzr. rewrite Hz in Hzr.
    pose proof (be_combine_range i) as Hir. rewrite Hi in Hir.
    rewrite size_add_small, size_sub_small by len_lia.
    destruct (Z.ltb_spec (len ((a ++ i) ++ z ++ r) - (len a + 4)) (be_combine z)) as [|Hr];
      [by eexists|].
    destruct (split_at r (be_combine z)) as (v & c & -> & Hv); [len_lia|].
    rewrite size_add_small by len_lia.
    set (e := MkExtension (be_combine i) v).
    assert (extension_wire e = i ++ z ++ v) as He.
    { unfold extension_wire, e. cbn [id_ value_]. rewrite Hv.
      by rewrite (be_split_combine' 2 i), (be_split_combine' 2 z). }
    replace (len a + 4 + be_combine z) with (len (a ++ extension_wire e))
      by (rewrite He; len_lia).
    replace ((a ++ i) ++ z ++ v ++ c) with ((a ++ extension_wire e) ++ c)
      by (rewrite He, <- !app_assoc; done).
    specialize (IH (a ++ extension_wire e) c ltac:(rewrite He; len_lia)).
    destruct (validate_loop _ _ _); [|done..].
    destruct IH as (es & c' & -> & <- & Hes & ->). exists (e :: es), c'.
    rewrite extensions_wire_cons. split_and!; [|done| |].
    + by rewrite He, <- !app_assoc.
    + constructor; [|done]. split; simpl; [|len_lia].
      change (256 ^ 2) with 65536 in Hir. len_lia.
    + len_lia.
Qed.

(** ** The probe as a function of the header fields *)
Definition probe_fields (l : Limits) (input : list byte) : result FrameProbe :=
  let header_size := be_at input 4 2 in
  let payload_size := be_at input 24 4 in
  let count := be_at input 28 2 in
  let size := header_size + payload_size in
  if len input <? 4 then Ok default_probe
  else if negb (be_at input 0 4 =? wire_magic) then
    failure invalid_magic "protocol frame magic mismatch"
  else if len input <? 32 then Ok default_probe
  else if negb (be_at input 30 2 =? 0) || (header_size <? 32) then
    failure malformed_frame "protocol frame header is malformed"
  else if (max_extension_count l <? count) || (max_extension_bytes l <? header_size - 32)
          || (max_payload_size l <? payload_size) then
    failure limit_exceeded "protocol frame declares excessive sizes"
  else if max_frame_size l <? size then
    failure limit_exceeded "protocol frame limit exceeded"
  else if len input <? header_size then Ok (MkProbe incomplete size size)
  else
    _ ← validate_extensions (take (Z.to_nat header_size) input) count;
    if len input <? size then Ok (MkProbe incomplete size size)
    else Ok (MkProbe ready size size).

Lemma field_range input off n :
  0 ≤ off → off + Z.of_nat n ≤ len input → (n ≤ 4)%nat → 0 ≤ be_at input off n ≤ uint32_max.
Proof.
  intros. pose proof (be_at_range input off n ltac:(lia) ltac:(lia)).
  pose proof (Z.pow_le_mono_r 256 (Z.of_nat n) 4 ltac:(lia) ltac:(lia)).
  change (256 ^ 4) with 4294967296 in *. len_lia.
Qed.

Lemma probe_eq l input :
  limits_valid l = true → in_memory input → probe l input = probe_fields l input.
Proof.
  intros Hv Hm. unfold probe, probe_fields. rewrite Hv. cbn [negb].
  destruct (Z.ltb_spec (len input) 4); [done|].
  rewrite (read_u32_at input 0) by (done || lia). cbn [mbind outcome_bind].
  destruct (be_at input 0 4 =? wire_magic); [|done]. unfold wire_header_size. cbn [negb].
  destruct (Z.ltb_spec (len input) 32); [done|].
  rewrite !read_u16_at, read_u32_at by (done || lia). cbn [mbind outcome_bind].
  pose proof (field_range input 4 2 ltac:(lia) ltac:(lia) ltac:(lia)).
  pose proof (field_range input 24 4 ltac:(lia) ltac:(lia) ltac:(lia)).
  destruct (be_at input 30 2 =? 0); [|done].
  destruct (Z.ltb_spec (be_at input 4 2) 32); [done|]. cbn [negb orb].
  rewrite !size_sub_small, (size_add_small (be_at input 4 2)) by len_lia.
  destruct (_ || _); [done|].
  rewrite (proj2 (Z.ltb_ge (size_max - _) _)) by len_lia.
  destruct (max_frame_size l <? _); [done|].
  destruct (Z.ltb_spec (len input) (be_at input 4 2)); [done|].
  unfold first_n, subspan. rewrite !(proj2 (Z.leb_le _ _)) by lia. done.
Qed.

(** ** The probe accepts exactly the frames *)
Lemma take_drop_step {A} (x : list A) o n k :
  k = (o + n)%nat → take n (drop o x) ++ drop k x = drop o x.
Proof. intros ->. by rewrite <- drop_drop, take_drop. Qed.

(** The first 32 bytes of an input are the wire form of the fields read there. *)
Lemma input_fields input :
  32 ≤ len input →
  input = be_split 4 (be_at input 0 4) ++ be_split 2 (be_at input 4 2) ++
    be_split 2 (be_at input 6 2) ++ be_split 2 (be_at input 8 2) ++
    be_split 2 (be_at input 10 2) ++ be_split 4 (be_at input 12 4) ++
    be_split 8 (be_at input 16 8) ++ be_split 4 (be_at input 24 4) ++
    be_split 2 (be_at input 28 2) ++ be_split 2 (be_at input 30 2) ++ drop 32 input.
Proof.
  intros. rewrite !be_split_at by lia. by rewrite !take_drop_step.
Qed.

Lemma frame_wire_fields m rest :
  message_wf m → len (extensions_wire (extensions_ m)) ≤ uint16_max - wire_header_size →
  len (payload_ m) ≤ uint32_max →
  let input := frame_wire m ++ rest in
  be_at input 0 4 = wire_magic ∧
  be_at input 4 2 = 32 + len (extensions_wire (extensions_ m)) ∧
  be_at input 6 2 = flags_ m ∧
  be_at input 8 2 = major_ (version_ m) ∧ be_at input 10 2 = minor_ (version_ m) ∧
  be_at input 12 4 = type_ m ∧ be_at input 16 8 = correlation_id_ m ∧
  be_at input 24 4 = len (payload_ m) ∧ be_at input 28 2 = len (extensions_ m) ∧
  be_at input 30 2 = 0.
Proof.
  intros ([Hv1 Hv2] & Ht & Hc & Hf & _) Hx Hp input.
  pose proof (extensions_wire_count (extensions_ m)) as Hn.
  subst input. unfold frame_wire, header_wire, wire_header_size in *.
  split_and!; field_at; apply Z.mod_small; unfold wire_magic; cbn; len_lia.
Qed.

(** A wire frame, cut at the end of its header. *)
Lemma frame_wire_header m rest :
  take (Z.to_nat (32 + len (extensions_wire (extensions_ m)))) (frame_wire m ++ rest) =
  header_wire m ++ extensions_wire (extensions_ m).
Proof.
  unfold frame_wire. rewrite (app_assoc (header_wire m)), <- (app_assoc _ (payload_ m)).
  apply take_app_length'. rewrite length_app.
  pose proof (len_header_wire m). unfold len in *. lia.
Qed.

Lemma probe_complete l m rest :
  limits_wf l → limits_valid l = true → message_wf m → fits l m →
  in_memory (frame_wire m ++ rest) →
  probe l (frame_wire m ++ rest) =
    Ok (MkProbe ready (len (frame_wire m)) (len (frame_wire m))).
Proof.
  intros Hlw Hlv Hm (F1 & F2 & F3 & F4 & F5) Hin.
  pose proof (limits_valid_spec l Hlw Hlv) as (B1 & B2 & B3 & B4 & B5).
  rewrite probe_eq by done. unfold probe_fields.
  destruct (frame_wire_fields m rest Hm F4 ltac:(lia))
    as (-> & -> & _ & _ & _ & _ & _ & -> & -> & ->).
  pose proof (len_frame_wire m) as Hf. unfold wire_header_size in *.
  pose proof (len_nonneg (extensions_wire (extensions_ m))).
  rewrite !len_app, Hf. rewrite Hf in F5.
  rewrite !(proj2 (Z.ltb_ge _ _)) by len_lia. cbn [negb orb Z.eqb].
  rewrite Z.eqb_refl, frame_wire_header. cbn [negb]. unfold validate_extensions.
  replace (Z.to_nat (len (extensions_ m))) with (length (extensions_ m))
    by (unfold len; lia).
  unfold wire_header_size. rewrite <- (len_header_wire m) at 1.
  rewrite <- (app_nil_r (extensions_wire (extensions_ m))) at 1.
  destruct Hm as (_ & _ & _ & _ & Hes & _).
  rewrite validate_loop_complete; [|rewrite app_nil_r; pose proof (len_header_wire m); len_lia|done|].
  - cbn [mbind outcome_bind]. by rewrite len_app, len_header_wire, Z.eqb_refl.
  - apply extensions_wire_values. lia.
Qed.

(** Every outcome of [validate_extensions] on a header of at least 32 bytes. *)
Lemma validate_extensions_sound header count :
  in_memory header → 32 ≤ len header →
  match validate_extensions header count with
  | Ok _ =>
      ∃ es, drop 32 header = extensions_wire es ∧ length es = Z.to_nat count ∧
        Forall extension_wf es
  | m => ∃ msg, m = failure malformed_frame msg
  end.
Proof.
  intros Hm Hh. unfold validate_extensions.
  destruct (split_at header 32) as (a & s & -> & Ha); [lia|].
  pose proof (validate_loop_sound (Z.to_nat count) a s Hm) as Hs.
  unfold wire_header_size. rewrite Ha in Hs.
  destruct (validate_loop _ _ _) as [cursor|e| |]; [|destruct Hs as [msg Hs]..].
  - destruct Hs as (es & c & -> & Hn & Hes & ->). cbn [mbind outcome_bind].
    destruct (Z.eqb_spec (32 + len (extensions_wire es)) (len (a ++ extensions_wire es ++ c)));
      cbn [negb]; [|by eexists].
    assert (c = []) as -> by (apply len_zero_inv; len_lia).
    exists es. rewrite app_nil_r, drop_app_length' by (unfold len in Ha; lia). done.
  - injection Hs as ->. by exists msg.
  - discriminate Hs.
  - discriminate Hs.
Qed.

(** Inversion of the checks before the extensions are validated. *)
Lemma probe_fields_inv l input p :
  probe_fields l input = Ok p → 32 ≤ len input → be_at input 4 2 ≤ len input →
  be_at input 0 4 = wire_magic ∧ be_at input 30 2 = 0 ∧ 32 ≤ be_at input 4 2 ∧
  be_at input 28 2 ≤ max_extension_count l ∧ be_at input 4 2 - 32 ≤ max_extension_bytes l ∧
  be_at input 24 4 ≤ max_payload_size l ∧
  be_at input 4 2 + be_at input 24 4 ≤ max_frame_size l ∧
  validate_extensions (take (Z.to_nat (be_at input 4 2)) input) (be_at input 28 2) = Ok tt ∧
  let size := be_at input 4 2 + be_at input 24 4 in
  p = MkProbe (if len input <? size then incomplete else ready) size size.
Proof.
  intros Hp H32 Hhs. unfold probe_fields in Hp. rewrite (proj2 (Z.ltb_ge _ _)) in Hp by lia.
  destruct (Z.eqb_spec (be_at input 0 4) wire_magic); cbn [negb] in Hp; [|discriminate Hp].
  rewrite (proj2 (Z.ltb_ge (len input) 32)) in Hp by lia.
  destruct (Z.eqb_spec (be_at input 30 2) 0); cbn [negb orb] in Hp; [|discriminate Hp].
  destruct (Z.ltb_spec (be_at input 4 2) 32); cbn [negb orb] in Hp; [discriminate Hp|].
  destruct (Z.ltb_spec (max_extension_count l) (be_at input 28 2));
    cbn [orb] in Hp; [discriminate Hp|].
  destruct (Z.ltb_spec (max_extension_bytes l) (be_at input 4 2 - 32));
    cbn [orb] in Hp; [discriminate Hp|].
  destruct (Z.ltb_spec (max_payload_size l) (be_at input 24 4)); [discriminate Hp|].
  destruct (Z.ltb_spec (max_frame_size l) (be_at input 4 2 + be_at input 24 4));
    [discriminate Hp|].
  rewrite (proj2 (Z.ltb_ge (len input) (be_at input 4 2))) in Hp by lia.
  destruct (validate_extensions _ _) as [[]|?| |]; [|discriminate Hp..].
  cbn [mbind outcome_bind] in Hp. split_and!; try done.
  cbv zeta. by destruct (len input <? be_at input 4 2 + be_at input 24 4); injection Hp as <-.
Qed.

(** With less than the whole header, the probe can only ask for more. *)
Lemma probe_fields_short l input p :
  probe_fields l input = Ok p → len input < 32 ∨ len input < be_at input 4 2 →
  state p = incomplete ∧ len input < required_size p.
Proof.
  unfold probe_fields, default_probe, wire_header_size. intros Hp Hs.
  destruct (Z.ltb_spec (len input) 4); [injection Hp as <-; simpl; split; [done|lia]|].
  destruct (negb (be_at input 0 4 =? wire_magic)); [discriminate Hp|].
  destruct (Z.ltb_spec (len input) 32); [injection Hp as <-; simpl; split; [done|lia]|].
  destruct (_ || _); [discriminate Hp|]. destruct (_ || _); [discriminate Hp|].
  destruct (max_frame_size l <? _); [discriminate Hp|].
  rewrite (proj2 (Z.ltb_lt (len input) (be_at input 4 2))) in Hp by lia.
  pose proof (field_range input 24 4 ltac:(lia) ltac:(lia) ltac:(lia)).
  injection Hp as <-. simpl. split; [done|lia].
Qed.

(** The message a complete, well-formed input carries. *)
Definition parsed (input : list byte) (es : list Extension) (payload : list byte) : Message :=
  MkMessage (MkVersion (be_at input 8 2) (be_at input 10 2)) (be_at input 12 4)
    (be_at input 16 8) (be_at input 6 2) es payload.

Lemma parsed_wf input es payload :
  32 ≤ len input → Forall extension_wf es → in_memory es → in_memory payload →
  message_wf (parsed input es payload).
Proof.
  intros. unfold message_wf, parsed, version_wf. simpl.
  assert (∀ o n, 0 ≤ o → o + Z.of_nat n ≤ 32 → 0 ≤ be_at input o n < 256 ^ Z.of_nat n) as R
    by (intros; apply be_at_range; lia).
  pose proof (R 8 2%nat ltac:(lia) ltac:(lia)). pose proof (R 10 2%nat ltac:(lia) ltac:(lia)).
  pose proof (R 12 4%nat ltac:(lia) ltac:(lia)). pose proof (R 16 8%nat ltac:(lia) ltac:(lia)).
  pose proof (R 6 2%nat ltac:(lia) ltac:(lia)). cbn in *.
  split_and!; try done; len_lia.
Qed.

Lemma parsed_wire input h pl rest es :
  input = h ++ pl ++ rest → len h = be_at input 4 2 → 32 ≤ len h →
  be_at input 0 4 = wire_magic → be_at input 30 2 = 0 →
  len pl = be_at input 24 4 → len es = be_at input 28 2 → drop 32 h = extensions_wire es →
  input = frame_wire (parsed input es pl) ++ rest.
Proof.
  intros Hin Hhl H32 Hmag Hres Hpl Hcnt Hes.
  assert (len (extensions_wire es) = len h - 32) as Hxl
    by (rewrite <- Hes; change 32%nat with (Z.to_nat 32); rewrite len_drop; lia).
  assert (32 ≤ len input) by (rewrite Hin; len_lia).
  rewrite (input_fields input) at 1 by done. unfold frame_wire, header_wire, parsed. msg_simpl.
  rewrite Hmag, Hres, Hxl, Hcnt, Hpl, Hhl. unfold wire_header_size.
  replace (32 + (be_at input 4 2 - 32)) with (be_at input 4 2) by lia.
  rewrite <- !app_assoc. do 10 f_equal.
  by rewrite Hin, drop_app_le, Hes by (unfold len in *; lia).
Qed.

Lemma probe_sound l input p :
  limits_wf l → limits_valid l = true → in_memory input →
  probe l input = Ok p → state p = ready →
  ∃ m rest, input = frame_wire m ++ rest ∧ message_wf m ∧ fits l m.
Proof.
  intros Hlw Hlv Hm Hp Hready. rewrite probe_eq in Hp by done.
  pose proof (limits_valid_spec l Hlw Hlv) as (B1 & B2 & B3 & B4 & B5).
  destruct (decide (len input < 32 ∨ len input < be_at input 4 2)) as [Hs|Hs].
  { destruct (probe_fields_short _ _ _ Hp Hs). congruence. }
  destruct (probe_fields_inv _ _ _ Hp ltac:(lia) ltac:(lia))
    as (Hmag & Hres & Hh & Hcount & Hxb & Hpay & Hfr & Hval & ->).
  simpl in Hready. destruct (Z.ltb_spec (len input) (be_at input 4 2 + be_at input 24 4)) as [|Hsz];
    [done|].
  pose proof (field_range input 4 2 ltac:(lia) ltac:(lia) ltac:(lia)) as R1.
  pose proof (field_range input 24 4 ltac:(lia) ltac:(lia) ltac:(lia)) as R2.
  pose proof (be_at_range input 4 2 ltac:(lia) ltac:(lia)) as R3. cbn in R3.
  set (hs := be_at input 4 2) in *. set (ps := be_at input 24 4) in *.
  destruct (split_at input hs) as (h & r & Hin & Hhl); [lia|].
  destruct (split_at r ps) as (pl & rest & -> & Hpl); [subst input; len_lia|].
  assert (take (Z.to_nat hs) input = h) as Htake
    by (rewrite Hin; apply take_app_length'; unfold len in Hhl; lia).
  rewrite Htake in Hval.
  pose proof (validate_extensions_sound h (be_at input 28 2)
    ltac:(subst input; len_lia) ltac:(lia)) as Hsound.
  rewrite Hval in Hsound. destruct Hsound as (es & Hes & Hn & Hwf).
  pose proof (be_at_range input 28 2 ltac:(lia) ltac:(lia)).
  assert (len es = be_at input 28 2) as Hcnt by (unfold len; lia).
  exists (parsed input es pl), rest.
  split; [apply (parsed_wire input h); done || lia|].
  assert (len (extensions_wire es) = hs - 32) as Hxl
    by (rewrite <- Hes; change 32%nat with (Z.to_nat 32); rewrite len_drop; lia).
  split; [apply parsed_wf; (done || subst input; len_lia)|].
  pose proof (len_frame_wire (parsed input es pl)) as Hfl. simpl in Hfl.
  unfold fits, wire_header_size. simpl. rewrite Hfl, Hxl, Hcnt, Hpl.
  split_and!; try done; len_lia.
Qed.

(** ** Decoding *)
Lemma decode_prefix_complete l m rest :
  limits_wf l → limits_valid l = true → message_wf m → fits l m →
  in_memory (frame_wire m ++ rest) →
  decode_prefix l (frame_wire m ++ rest) = Ok (MkDecoded m (len (frame_wire m))).
Proof.
  intros Hlw Hlv Hm Hfit Hin. unfold decode_prefix.
  rewrite probe_complete by done. destruct Hfit as (F1 & F2 & F3 & F4 & F5).
  pose proof (limits_valid_spec l Hlw Hlv) as (B1 & B2 & B3 & B4 & B5).
  pose proof (len_frame_wire m) as Hfl. pose proof (len_header_wire m) as Hhl.
  pose proof (len_nonneg (extensions_wire (extensions_ m))).
  cbn [mbind outcome_bind]. rewrite bool_decide_true by done. cbn [negb frame_size].
  rewrite !read_u16_at, read_u32_at, read_u64_at by len_lia. cbn [mbind outcome_bind].
  destruct (frame_wire_fields m rest Hm F4 ltac:(lia))
    as (_ & -> & -> & -> & -> & -> & -> & _ & -> & _).
  rewrite size_sub_small by len_lia.
  replace (len (frame_wire m) - _) with (len (payload_ m)) by lia.
  replace (Z.to_nat (len (extensions_ m))) with (length (extensions_ m)) by (unfold len; lia).
  unfold wire_header_size in *.
  assert (decode_extensions (frame_wire m ++ rest) (length (extensions_ m)) 32 [] =
    Ok (extensions_ m)) as ->.
  { unfold frame_wire in *. rewrite <- Hhl. rewrite <- !app_assoc in *.
    apply decode_extensions_complete; [done|apply Hm|]. apply extensions_wire_values. lia. }
  assert (subspan (E:=error_type) (frame_wire m ++ rest)
    (32 + len (extensions_wire (extensions_ m))) (len (payload_ m)) = Ok (payload_ m)) as ->.
  { rewrite <- Hhl, <- len_app. unfold frame_wire.
    rewrite <- (subspan_app (header_wire m ++ extensions_wire (extensions_ m)) (payload_ m) rest).
    by rewrite <- !app_assoc. }
  cbn [mbind outcome_bind]. by destruct m as [[? ?] ? ? ? ? ?].
Qed.

(** The decoder accepts an input exactly when it starts with a frame of the wire
    format within the limits, and returns that frame's message and size. *)
Lemma decode_prefix_spec l input d :
  limits_wf l → in_memory input →
  decode_prefix l input = Ok d ↔
  limits_valid l = true ∧ message_wf (message d) ∧ fits l (message d) ∧
  consumed d = len (frame_wire (message d)) ∧ ∃ rest, input = frame_wire (message d) ++ rest.
Proof.
  intros Hlw Hin. split.
  - intros Hd. pose proof Hd as Hd'. unfold decode_prefix in Hd'.
    destruct (limits_valid l) eqn:Hlv;
      [|unfold probe in Hd'; rewrite Hlv in Hd'; discriminate Hd'].
    destruct (probe l input) as [p|e| |] eqn:Hp; [|discriminate Hd'..].
    cbn [mbind outcome_bind] in Hd'.
    destruct (bool_decide_reflect (state p = ready)) as [Hr|]; [|discriminate Hd'].
    destruct (probe_sound l input p Hlw Hlv Hin Hp Hr) as (m & rest & -> & Hm & Hf).
    rewrite decode_prefix_complete in Hd by done. injection Hd as <-. simpl.
    split_and!; eauto.
  - intros (Hlv & Hm & Hf & Hc & rest & ->).
    rewrite decode_prefix_complete by done. rewrite <- Hc. by destruct d.
Qed.

Lemma decode_spec l input m :
  limits_wf l → in_memory input →
  decode l input = Ok m ↔
  limits_valid l = true ∧ message_wf m ∧ fits l m ∧ input = frame_wire m.
Proof.
  intros Hlw Hin. unfold decode. split.
  - intros Hd. destruct (decode_prefix l input) as [d|e| |] eqn:Hp; [|discriminate Hd..].
    cbn [mbind outcome_bind] in Hd.
    destruct (Z.eqb_spec (consumed d) (len input)) as [Hc|]; [|discriminate Hd].
    injection Hd as <-. apply decode_prefix_spec in Hp as (? & ? & ? & Hc' & rest & Hi); [|done..].
    split_and!; [done..|]. assert (rest = []) as ->; [|by rewrite app_nil_r in Hi].
    apply len_zero_inv. rewrite Hi in Hc. len_lia.
  - intros (Hlv & Hm & Hf & ->). rewrite <- (app_nil_r (frame_wire m)) in *.
    rewrite decode_prefix_complete by done. cbn [mbind outcome_bind consumed].
    by rewrite app_nil_r, Z.eqb_refl.
Qed.

(** ** No operation is undefined *)
Lemma probe_defined l input : in_memory input → defined (probe l input).
Proof.
  intros Hin. destruct (limits_valid l) eqn:Hlv; [|unfold probe; rewrite Hlv; by split].
  rewrite probe_eq by done. unfold probe_fields.
  destruct (Z.ltb_spec (len input) 4); [by split|].
  destruct (negb _); [by split|].
  destruct (Z.ltb_spec (len input) 32); [by split|].
  destruct (be_at input 30 2 =? 0); [|by split].
  destruct (Z.ltb_spec (be_at input 4 2) 32); cbn [negb orb]; [by split|].
  destruct (_ || _); [by split|]. destruct (_ <? _); [by split|].
  destruct (Z.ltb_spec (len input) (be_at input 4 2)); [by split|].
  pose proof (validate_extensions_sound (take (Z.to_nat (be_at input 4 2)) input)
    (be_at input 28 2)) as Hs.
  rewrite len_take in Hs by lia. unfold in_memory in Hs. rewrite len_take in Hs by lia.
  specialize (Hs ltac:(len_lia) ltac:(lia)).
  destruct (validate_extensions _ _); [|destruct Hs as [msg Hs]..]; try discriminate Hs;
    cbn [mbind outcome_bind]; [destruct (_ <? _)|]; by split.
Qed.

Lemma decode_prefix_defined l input :
  limits_wf l → in_memory input → defined (decode_prefix l input).
Proof.
  intros Hlw Hin. unfold decode_prefix.
  destruct (limits_valid l) eqn:Hlv; [|unfold probe; rewrite Hlv; by split].
  pose proof (probe_defined l input Hin) as [Hd1 Hd2].
  destruct (probe l input) as [p|e| |] eqn:Hp; [|by split|done..].
  cbn [mbind outcome_bind]. destruct (bool_decide_reflect (state p = ready)) as [Hr|]; [|by split].
  destruct (probe_sound l input p Hlw Hlv Hin Hp Hr) as (m & rest & -> & Hm & Hf).
  pose proof (decode_prefix_complete l m rest Hlw Hlv Hm Hf Hin) as Hd.
  unfold decode_prefix in Hd. rewrite Hp in Hd. cbn [mbind outcome_bind] in Hd.
  rewrite bool_decide_true in Hd by done. cbn [negb] in Hd |- *. rewrite Hd. by split.
Qed.

Lemma decode_defined l input : limits_wf l → in_memory input → defined (decode l input).
Proof.
  intros Hlw Hin. unfold decode. destruct (decode_prefix_defined l input Hlw Hin).
  destruct (decode_prefix l input); [|by split|done..].
  cbn [mbind outcome_bind]. destruct (negb _); by split.
Qed.

(** ** More input never changes a verdict *)
Lemma take_app_le' {A} (x y : list A) n :
  0 ≤ n ≤ len x → take (Z.to_nat n) (x ++ y) = take (Z.to_nat n) x.
Proof. intros. apply take_app_le. unfold len in *. lia. Qed.

Lemma probe_extend l input more :
  in_memory (input ++ more) →
  match probe l input with
  | Ok p => state p = ready → probe l (input ++ more) = Ok p
  | m => probe l (input ++ more) = m
  end.
Proof.
  intros Hin. assert (in_memory input) as Hin' by len_lia.
  destruct (limits_valid l) eqn:Hlv; [|unfold probe; by rewrite Hlv].
  rewrite !probe_eq by done. unfold probe_fields.
  destruct (Z.ltb_spec (len input) 4); [done|].
  rewrite (be_at_app input more 0), (proj2 (Z.ltb_ge (len (input ++ more)) 4)) by len_lia.
  destruct (negb (be_at input 0 4 =? wire_magic)); [done|].
  destruct (Z.ltb_spec (len input) 32); [done|].
  rewrite (be_at_app input more 4), (be_at_app input more 24), (be_at_app input more 28),
    (be_at_app input more 30), (proj2 (Z.ltb_ge (len (input ++ more)) 32)) by len_lia.
  destruct (be_at input 30 2 =? 0); [|done].
  destruct (Z.ltb_spec (be_at input 4 2) 32); cbn [negb orb]; [done|].
  destruct (_ || _); [done|]. destruct (max_frame_size l <? _); [done|].
  destruct (Z.ltb_spec (len input) (be_at input 4 2)); [done|].
  rewrite take_app_le', (proj2 (Z.ltb_ge (len (input ++ more)) (be_at input 4 2))) by len_lia.
  destruct (validate_extensions _ _); cbn [mbind outcome_bind]; [|done..].
  destruct (Z.ltb_spec (len input) (be_at input 4 2 + be_at input 24 4)); [done|].
  by rewrite (proj2 (Z.ltb_ge (len (input ++ more)) _)) by len_lia.
Qed.

(** An incomplete input is shorter than what the probe asks for, which the codec's
    frame limit covers. *)
Lemma probe_incomplete l input p :
  limits_wf l → limits_valid l = true → in_memory input →
  probe l input = Ok p → state p = incomplete →
  len input < required_size p ≤ max_frame_size l.
Proof.
  intros Hlw Hlv Hin Hp Hi. rewrite probe_eq in Hp by done.
  pose proof (limits_valid_spec l Hlw Hlv) as (B1 & B2 & B3 & B4 & B5).
  split.
  - destruct (decide (len input < 32 ∨ len input < be_at input 4 2)) as [Hs|Hs];
      [by apply (probe_fields_short l)|].
    destruct (probe_fields_inv _ _ _ Hp ltac:(lia) ltac:(lia))
      as (_ & _ & _ & _ & _ & _ & _ & _ & ->).
    simpl in *. by destruct (Z.ltb_spec (len input) (be_at input 4 2 + be_at input 24 4)).
  - unfold probe_fields, default_probe, wire_header_size in Hp.
    destruct (_ <? 4); [injection Hp as <-; simpl; lia|].
    destruct (negb (be_at input 0 4 =? wire_magic)); [discriminate Hp|].
    destruct (_ <? 32); [injection Hp as <-; simpl; lia|].
    destruct (_ || _); [discriminate Hp|]. destruct (_ || _); [discriminate Hp|].
    destruct (Z.ltb_spec (max_frame_size l) (be_at input 4 2 + be_at input 24 4));
      [discriminate Hp|].
    destruct (_ <? _); [injection Hp as <-; simpl; lia|].
    destruct (validate_extensions _ _); [|discriminate Hp..]. cbn [mbind outcome_bind] in Hp.
    destruct (_ <? _); injection Hp as <-; simpl; lia.
Qed.
End FrameFacts.

(** ** Facts about the samples used by the witnesses *)
Lemma default_limits_wf : limits_wf default_limits.
Proof. by_compute. Qed.

Lemma sample_message_wf : message_wf sample_message.
Proof.
  unfold message_wf, version_wf. split_and!;
    try lazymatch goal with |- Forall _ _ => repeat constructor end; by_compute.
Qed.

Lemma sample_message_fits : fits default_limits sample_message.
Proof. by_compute. Qed.

(** ** Properties *)

(** C2. Round trip: whatever [encode] accepts, [decode] of the resulting frame
    returns, field for field, with the same limits. *)
Theorem frame_encode_decode_roundtrip {EM : ErrorModel} (l : Limits) (m : Message) bytes :
  limits_wf l → message_wf m → in_memory bytes →
  encode l m = Ok bytes → decode l bytes = Ok m.
Proof.
  intros Hlw Hm Hin He. destruct (limits_valid l) eqn:Hlv.
  - destruct (encode_spec l m Hlw Hlv Hm) as [[Hf Hx]|[_ [msg Hx]]]; rewrite Hx in He;
      [|discriminate He]. injection He as <-. by apply decode_spec.
  - unfold encode, encode_view in He. rewrite Hlv in He. discriminate He.
Qed.

Example frame_encode_decode_roundtrip_witness :
  decode (EM:=Model) default_limits (frame_wire sample_message) = Ok sample_message.
Proof.
  apply (frame_encode_decode_roundtrip (EM:=Model) default_limits sample_message).
  - apply default_limits_wf.
  - apply sample_message_wf.
  - by_compute.
  - by vm_compute.
Defined.

(** C1. Refinement of the wire format: [decode_prefix] returns a message and a size
    exactly when the limits are valid, the message is well formed and within the
    limits, and the input begins with its wire form of that size. *)
Theorem frame_decode_prefix_refines_wire {EM : ErrorModel} (l : Limits) input d :
  limits_wf l → in_memory input →
  decode_prefix l input = Ok d ↔
  limits_valid l = true ∧ message_wf (message d) ∧ fits l (message d) ∧
  consumed d = len (frame_wire (message d)) ∧ ∃ rest, input = frame_wire (message d) ++ rest.
Proof. apply decode_prefix_spec. Qed.

Example frame_decode_prefix_refines_wire_witness :
  let input := frame_wire sample_message ++ [Byte.x00] in
  decode_prefix (EM:=Model) default_limits input = Ok (MkDecoded sample_message 53).
Proof.
  apply (frame_decode_prefix_refines_wire (EM:=Model) default_limits).
  - apply default_limits_wf.
  - by_compute.
  - split_and!; [by vm_compute|apply sample_message_wf|apply sample_message_fits|by vm_compute|].
    by eexists.
Defined.

(** Canonical form: re-encoding any decoded message with the same limits
    succeeds and gives back exactly the consumed bytes. *)
Theorem frame_decode_reencode {EM : ErrorModel} (l : Limits) input d :
  limits_wf l → in_memory input → decode_prefix l input = Ok d →
  encode l (message d) = Ok (take (Z.to_nat (consumed d)) input).
Proof.
  intros Hlw Hin Hd. apply decode_prefix_spec in Hd as (Hlv & Hm & Hf & -> & rest & Hi); [|done..].
  destruct (encode_spec l (message d) Hlw Hlv Hm) as [[_ ->]|[Hn _]]; [|done].
  rewrite Hi. unfold len. by rewrite Nat2Z.id, take_app_length.
Qed.

Example frame_decode_reencode_witness :
  let input := frame_wire sample_message ++ [Byte.x00] in
  encode (EM:=Model) default_limits sample_message = Ok (take 53 input).
Proof.
  apply (frame_decode_reencode (EM:=Model) default_limits _ (MkDecoded sample_message 53)).
  - apply default_limits_wf.
  - by_compute.
  - by vm_compute.
Defined.

(** C26. Exactness of [encode]: with valid limits a message that fits is written as
    its wire form, whose size is the header, the TLVs and the payload; one that does
    not fit is rejected with [limit_exceeded]; invalid limits are rejected with
    [invalid_argument]. *)
Theorem frame_encode_exact {EM : ErrorModel} (l : Limits) (m : Message) :
  limits_wf l → message_wf m →
  if limits_valid l then
    (fits l m ∧ encode l m = Ok (frame_wire m) ∧
     len (frame_wire m) = 32 + len (extensions_wire (extensions_ m)) + len (payload_ m)) ∨
    (¬ fits l m ∧ ∃ msg, encode l m = failure limit_exceeded msg)
  else encode l m = failure invalid_argument "protocol limits are inconsistent".
Proof.
  intros Hlw Hm. destruct (limits_valid l) eqn:Hlv.
  - pose proof (len_frame_wire m). destruct (encode_spec l m Hlw Hlv Hm); [left|right]; tauto.
  - unfold encode, encode_view. by rewrite Hlv.
Qed.

Example frame_encode_exact_witness :
  let l := MkLimits 8 0 0 40 40 in
  (fits l sample_message ∧ encode (EM:=Model) l sample_message = Ok (frame_wire sample_message) ∧
   len (frame_wire sample_message) = 53) ∨
  (¬ fits l sample_message ∧ ∃ msg, encode (EM:=Model) l sample_message =
     failure (EM:=Model) limit_exceeded msg).
Proof.
  apply (frame_encode_exact (EM:=Model) (MkLimits 8 0 0 40 40) sample_message).
  - by_compute.
  - apply sample_message_wf.
Defined.

(** C25. Memory safety: for every limits value and every input that fits in memory,
    [probe], [decode_prefix] and [decode] perform no out-of-range subscript, subspan
    or iterator range. *)
Theorem frame_codec_memory_safe {EM : ErrorModel} (l : Limits) input :
  limits_wf l → in_memory input →
  defined (probe l input) ∧ defined (decode_prefix l input) ∧ defined (decode l input).
Proof.
  intros. split_and!; [by apply probe_defined|by apply decode_prefix_defined|by apply decode_defined].
Qed.

Example frame_codec_memory_safe_witness :
  let input := bytes_of [86; 83; 80; 49; 255; 255] in
  defined (probe (EM:=Model) default_limits input) ∧
  defined (decode_prefix (EM:=Model) default_limits input) ∧
  defined (decode (EM:=Model) default_limits input).
Proof.
  apply (frame_codec_memory_safe (EM:=Model)).
  - apply default_limits_wf.
  - by_compute.
Defined.

(** Stability: appending bytes to an input never changes an error and never
    changes a ready verdict or its size, so a stream can be judged as it arrives. *)
Theorem frame_probe_stable {EM : ErrorModel} (l : Limits) input more :
  in_memory (input ++ more) →
  match probe l input with
  | Ok p => state p = ready → probe l (input ++ more) = Ok p
  | m => probe l (input ++ more) = m
  end.
Proof. apply probe_extend. Qed.

Example frame_probe_stable_witness :
  probe (EM:=Model) default_limits (bytes_of [0; 1; 2; 3] ++ bytes_of [4; 5]) =
  failure (EM:=Model) invalid_magic "protocol frame magic mismatch".
Proof.
  apply (frame_probe_stable (EM:=Model) default_limits (bytes_of [0; 1; 2; 3]) (bytes_of [4; 5])).
  by_compute.
Defined.

(** Progress: an incomplete input is strictly shorter than the size the probe
    requires, and that size is within the frame limit, hence within the stream
    buffer. *)
Theorem frame_probe_progress {EM : ErrorModel} (l : Limits) input p :
  limits_wf l → limits_valid l = true → in_memory input →
  probe l input = Ok p → state p = incomplete →
  len input < required_size p ≤ max_frame_size l ∧ max_frame_size l ≤ max_buffered_bytes l.
Proof.
  intros Hlw Hlv Hin Hp Hi. split; [by apply probe_incomplete|].
  by apply limits_valid_spec.
Qed.

Example frame_probe_progress_witness :
  let input := take 40 (frame_wire sample_message) in
  len input < 53 ≤ max_frame_size default_limits ∧
  max_frame_size default_limits ≤ max_buffered_bytes default_limits.
Proof.
  apply (frame_probe_progress (EM:=Model) default_limits _ (MkProbe incomplete 53 53)).
  - apply default_limits_wf.
  - by vm_compute.
  - by_compute.
  - by vm_compute.
  - done.
Defined.

(** Limits at the bounds of the format itself. *)
Definition format_limits : Limits :=
  MkLimits uint32_max uint16_max uint16_max (uint32_max + uint16_max)
    (uint32_max + uint16_max).

(** The wire format is unambiguous: two byte streams that begin with frames of
    well-formed messages are equal only if the messages and what follows them are;
    no frame is a proper prefix of another. *)
Theorem frame_wire_unambiguous m1 m2 r1 r2 :
  message_wf m1 → message_wf m2 → fits format_limits m1 → fits format_limits m2 →
  in_memory (frame_wire m1 ++ r1) →
  frame_wire m1 ++ r1 = frame_wire m2 ++ r2 → m1 = m2 ∧ r1 = r2.
Proof.
  intros Hm1 Hm2 Hf1 Hf2 Hin Heq.
  assert (limits_wf format_limits) as Hlw by (by_compute).
  pose proof (decode_prefix_complete (EM:=Model) _ m1 r1 Hlw eq_refl Hm1 Hf1 Hin) as H1.
  rewrite Heq in H1, Hin.
  rewrite (decode_prefix_complete (EM:=Model) _ m2 r2 Hlw eq_refl Hm2 Hf2 Hin) in H1.
  injection H1 as -> _. split; [done|]. by apply app_inv_head in Heq.
Qed.

Example frame_wire_unambiguous_witness :
  frame_wire sample_message ++ [Byte.x01] = frame_wire sample_message ++ [Byte.x01] ∧
  sample_message = sample_message ∧ [Byte.x01] = [Byte.x01].
Proof.
  split; [done|].
  apply (frame_wire_unambiguous sample_message sample_message [Byte.x01] [Byte.x01]);
    try apply sample_message_wf; try done; by_compute.
Defined.
