(* ===== verification/Stream.v ===== *)
(** * Incremental stream decoder

    [include/vosp/protocol/stream_decoder.hpp]: [StreamDecoder], its buffer and
    cursor, and the two compaction helpers.  The abstract view of a decoder is the
    queue of bytes that were pushed and not yet consumed; [StreamFacts] shows that
    the buffer, the cursor and the compaction implement that queue. *)

From stdpp Require Import prelude list strings.
From S2P Require Import Prelude Errors Types Frame.
Import Protocol.

(** [codec_] is built from the same limits, so it is not stored twice. *)
Record StreamDecoder := MkStream {
  stream_limits : Limits;
  buffer_ : list byte;
  cursor_ : Z
}.

(** [StreamDecoder(limits)] *)
Definition new_stream (l : Limits) : StreamDecoder := MkStream l [] 0.

Definition buffered_size (d : StreamDecoder) : Z := len (buffer_ d) ⊖ cursor_ d.

Definition reset (d : StreamDecoder) : StreamDecoder := MkStream (stream_limits d) [] 0.

Section StreamDecoder.
Context {EM : ErrorModel}.

(** [erase(begin, begin + cursor_)] needs the cursor inside the buffer. *)
Definition compact_consumed : method StreamDecoder error_type unit :=
  d ← get;
  if cursor_ d <=? len (buffer_ d) then
    modify (λ _, MkStream (stream_limits d) (drop (Z.to_nat (cursor_ d)) (buffer_ d)) 0)
  else lift UB.

Definition compact : method StreamDecoder error_type unit :=
  d ← get;
  if cursor_ d =? 0 then mret tt
  else if cursor_ d =? len (buffer_ d) then modify reset
  else if (4096 <=? cursor_ d) && (len (buffer_ d) / 2 <=? cursor_ d) then compact_consumed
  else mret tt.

Definition push (bytes : list byte) : method StreamDecoder error_type unit :=
  d ← get;
  let maximum := max_buffered_bytes (stream_limits d) in
  if negb (limits_valid (stream_limits d)) then
    lift (failure invalid_argument "protocol limits are inconsistent")
  else
    compact;;
    d ← get;
    (if negb (cursor_ d =? 0) &&
        ((maximum <? len (buffer_ d)) ||
         (maximum ⊖ Z.min maximum (len (buffer_ d)) <? len bytes))
     then compact_consumed else mret tt);;
    d ← get;
    if (maximum <? len (buffer_ d)) || (maximum ⊖ len (buffer_ d) <? len bytes) then
      lift (failure limit_exceeded "protocol stream buffer limit exceeded")
    else
      modify (λ d, MkStream (stream_limits d) (buffer_ d ++ bytes) (cursor_ d)).

Definition next : method StreamDecoder error_type (option Message) :=
  d ← get;
  if buffered_size d =? 0 then mret None
  else
    available ← lift (subspan (buffer_ d) (cursor_ d) (len (buffer_ d) ⊖ cursor_ d));
    inspected ← lift (probe (stream_limits d) available);
    if bool_decide (state inspected = incomplete) then mret None
    else
      decoded ← lift (decode_prefix (stream_limits d) available);
      modify (λ d, MkStream (stream_limits d) (buffer_ d) (cursor_ d ⊕ consumed decoded));;
      compact;;
      mret (Some (message decoded)).

(** ** The abstract queue of pending bytes *)
Definition spec_push (l : Limits) (bytes pending : list byte) : result unit * list byte :=
  if len pending + len bytes <=? max_buffered_bytes l then (Ok tt, pending ++ bytes)
  else (failure limit_exceeded "protocol stream buffer limit exceeded", pending).

Definition spec_next (l : Limits) (pending : list byte) : result (option Message) * list byte :=
  if len pending =? 0 then (Ok None, pending)
  else
    match probe l pending with
    | Ok p =>
        if bool_decide (state p = incomplete) then (Ok None, pending)
        else
          match decode_prefix l pending with
          | Ok d => (Ok (Some (message d)), drop (Z.to_nat (consumed d)) pending)
          | Fail e => (Fail e, pending)
          | UB => (UB, pending)
          | NoFuel => (NoFuel, pending)
          end
    | Fail e => (Fail e, pending)
    | UB => (UB, pending)
    | NoFuel => (NoFuel, pending)
    end.

(** ** Sequences of calls *)
Inductive stream_op :=
| OpPush (bytes : list byte)
| OpNext
| OpReset.

Inductive stream_obs :=
| ObsPush (r : result unit)
| ObsNext (r : result (option Message))
| ObsReset.

Fixpoint run_stream (ops : list stream_op) (d : StreamDecoder) : list stream_obs * StreamDecoder :=
  match ops with
  | [] => ([], d)
  | op :: ops' =>
      let '(o, d') :=
        match op with
        | OpPush bytes => let '(r, d') := push bytes d in (ObsPush r, d')
        | OpNext => let '(r, d') := next d in (ObsNext r, d')
        | OpReset => (ObsReset, reset d)
        end in
      let '(os, d'') := run_stream ops' d' in (o :: os, d'')
  end.

Fixpoint run_queue (l : Limits) (ops : list stream_op) (q : list byte) :
    list stream_obs * list byte :=
  match ops with
  | [] => ([], q)
  | op :: ops' =>
      let '(o, q') :=
        match op with
        | OpPush bytes => let '(r, q') := spec_push l bytes q in (ObsPush r, q')
        | OpNext => let '(r, q') := spec_next l q in (ObsNext r, q')
        | OpReset => (ObsReset, [])
        end in
      let '(os, q'') := run_queue l ops' q' in (o :: os, q'')
  end.

Definition op_in_memory (op : stream_op) : Prop :=
  match op with OpPush bytes => in_memory bytes | _ => True end.

(** ** A client

    The documented use: push every received range and call [next] until it returns
    an empty optional. *)
Fixpoint drain (fuel : nat) : method StreamDecoder error_type (list Message) :=
  match fuel with
  | O => lift NoFuel
  | S fuel' =>
      m ← next;
      match m with
      | None => mret []
      | Some m => ms ← drain fuel'; mret (m :: ms)
      end
  end.

(** Enough for every queue: each message consumes at least 32 bytes. *)
Definition drain_fuel (d : StreamDecoder) : nat := S (length (buffer_ d)).

Fixpoint receive (chunks : list (list byte)) : method StreamDecoder error_type (list Message) :=
  match chunks with
  | [] => mret []
  | chunk :: chunks' =>
      push chunk;;
      d ← get;
      ms ← drain (drain_fuel d);
      ms' ← receive chunks';
      mret (ms ++ ms')
  end.
End StreamDecoder.

(** ** Abstraction and invariant *)
Definition pending (d : StreamDecoder) : list byte := drop (Z.to_nat (cursor_ d)) (buffer_ d).

(** Limits a decoder can be used with: consistent, and within the address space. *)
Definition stream_limits_ok (l : Limits) : Prop :=
  limits_wf l ∧ limits_valid l = true ∧ max_buffered_bytes l ≤ ptrdiff_max.

Definition stream_inv (d : StreamDecoder) : Prop :=
  stream_limits_ok (stream_limits d) ∧ 0 ≤ cursor_ d ≤ len (buffer_ d) ∧
  len (buffer_ d) ≤ max_buffered_bytes (stream_limits d).

Example stream_test :
  let f := frame_wire sample_message in
  (receive (EM:=Model) [take 10 f; drop 10 f ++ take 3 f; drop 3 f] (new_stream default_limits)).1 =
  Ok [sample_message; sample_message].
Proof. by vm_compute. Qed.
