(* ===== verification/StreamFacts.v ===== *)
(** * Facts about the stream decoder

    The decoder refines the queue of pending bytes for every operation, and the
    properties of the queue carry over: the buffer stays within its limit, errors
    are sticky, and the messages delivered do not depend on how a byte stream was
    cut into chunks. *)

From stdpp Require Import prelude list strings.
From S2P Require Import Prelude Errors Types Frame FrameFacts Stream.
Import Protocol.

Section Refinement.
Context {EM : ErrorModel}.

Lemma len_pending d : 0 ≤ cursor_ d ≤ len (buffer_ d) →
  len (pending d) = len (buffer_ d) - cursor_ d.
Proof. apply len_drop. Qed.

Lemma pending_new l : pending (new_stream l) = [].
Proof. done. Qed.

Lemma compact_consumed_spec d :
  stream_inv d → compact_consumed d = (Ok tt, MkStream (stream_limits d) (pending d) 0).
Proof.
  intros (_ & Hc & _). unfold compact_consumed, mbind, method_bind, get.
  by rewrite (proj2 (Z.leb_le _ _)) by lia.
Qed.

Lemma compacted_inv d :
  stream_inv d → stream_inv (MkStream (stream_limits d) (pending d) 0).
Proof.
  intros (Hl & Hc & Hb). pose proof (len_pending d Hc).
  unfold stream_inv. simpl. split_and!; [done|len_lia..].
Qed.

(** Compaction does not change the queue. *)
Lemma compact_spec d :
  stream_inv d →
  ∃ d', compact d = (Ok tt, d') ∧ stream_inv d' ∧ pending d' = pending d ∧
    stream_limits d' = stream_limits d.
Proof.
  intros Hi. unfold compact, mbind, method_bind, get, modify.
  destruct (cursor_ d =? 0); [by exists d|].
  destruct (Z.eqb_spec (cursor_ d) (len (buffer_ d))) as [Hc|].
  - pose proof Hi as (Hl & Hr & Hb). eexists. split; [done|]. split; [|split]; [|symmetry|done].
    + unfold stream_inv. simpl. split_and!; [done|len_lia..].
    + apply len_zero_inv. rewrite len_pending; lia.
  - destruct (_ && _); [|by exists d].
    rewrite compact_consumed_spec by done. eexists. split; [done|].
    split; [by apply compacted_inv|done].
Qed.

Lemma push_refines bytes d :
  stream_inv d → in_memory bytes →
  let '(r, d') := push bytes d in
  stream_inv d' ∧ stream_limits d' = stream_limits d ∧
  (r, pending d') = spec_push (stream_limits d) bytes (pending d).
Proof.
  intros Hi Hm. unfold push. rewrite (method_bind_ok get _ d d d) by done.
  pose proof Hi as ((Hlw & Hlv & Hlp) & _). rewrite Hlv. cbn [negb].
  pose proof (limits_valid_spec _ Hlw Hlv) as (_ & _ & _ & _ & B5).
  destruct (compact_spec d Hi) as (d1 & E1 & Hi1 & Hp1 & Hl1).
  rewrite (method_bind_ok _ _ _ _ _ E1), (method_bind_ok get _ d1 d1 d1) by done.
  rewrite <- Hp1, <- Hl1 in *. clear E1 Hi Hp1 Hl1 d. set (mx := max_buffered_bytes _) in *.
  pose proof Hi1 as (_ & Hc & Hb). pose proof (len_pending d1 Hc) as Hlen.
  fold mx in Hb. rewrite Z.min_r, size_sub_small by len_lia.
  rewrite (proj2 (Z.ltb_ge mx (len (buffer_ d1)))) by lia. cbn [orb].
  set (need := negb (cursor_ d1 =? 0) && (mx - len (buffer_ d1) <? len bytes)).
  set (d2 := if need then MkStream (stream_limits d1) (pending d1) 0 else d1).
  assert ((if need then compact_consumed else mret tt) d1 = (Ok tt, d2)) as E2.
  { subst d2. destruct need; [by apply compact_consumed_spec|done]. }
  assert (stream_inv d2 ∧ pending d2 = pending d1 ∧ stream_limits d2 = stream_limits d1)
    as (Hi2 & Hp2 & Hl2).
  { subst d2. destruct need; [split; [by apply compacted_inv|done]|done]. }
  rewrite (method_bind_ok _ _ _ _ _ E2), (method_bind_ok get _ d2 d2 d2) by done.
  pose proof Hi2 as (_ & Hc2 & Hb2). rewrite Hl2 in Hb2. fold mx in Hb2.
  pose proof (len_pending d2 Hc2) as Hlen2.
  rewrite (proj2 (Z.ltb_ge mx (len (buffer_ d2)))), size_sub_small by len_lia. cbn [orb].
  unfold spec_push. fold mx. rewrite <- Hp2.
  assert (len (pending d2) + len bytes ≤ mx → len (buffer_ d2) + len bytes ≤ mx) as Hfit.
  { subst d2 need. destruct (Z.eqb_spec (cursor_ d1) 0); simpl in *; [lia|].
    destruct (Z.ltb_spec (mx - len (buffer_ d1)) (len bytes)); simpl in *; lia. }
  destruct (Z.ltb_spec (mx - len (buffer_ d2)) (len bytes)).
  - rewrite (proj2 (Z.leb_gt _ _)) by lia. by split_and!.
  - rewrite (proj2 (Z.leb_le _ _)) by lia. unfold modify. split_and!; [|done|].
    + unfold stream_inv. simpl. rewrite Hl2. fold mx. split_and!; [apply Hi1|len_lia..].
    + f_equal. unfold pending. simpl. apply drop_app_le. unfold len in *. lia.
Qed.

Lemma next_refines d :
  stream_inv d →
  let '(r, d') := next d in
  stream_inv d' ∧ stream_limits d' = stream_limits d ∧
  (r, pending d') = spec_next (stream_limits d) (pending d) ∧
  (r = Ok None ∨ (∃ e, r = Fail e) → d' = d).
Proof.
  intros Hi. unfold next. rewrite (method_bind_ok get _ d d d) by done.
  pose proof Hi as ((Hlw & Hlv & Hlp) & Hc & Hb). unfold spec_next.
  pose proof (len_pending d Hc) as Hlen. unfold buffered_size.
  rewrite size_sub_small, <- Hlen by len_lia.
  destruct (len (pending d) =? 0); [by split_and!|].
  assert (subspan (E:=error_type) (buffer_ d) (cursor_ d) (len (pending d)) = Ok (pending d))
    as Hav.
  { pose proof (subspan_app (E:=error_type) (take (Z.to_nat (cursor_ d)) (buffer_ d))
      (pending d) []) as Hx.
    rewrite app_nil_r, len_take in Hx by done. unfold pending in Hx at 1.
    by rewrite take_drop in Hx. }
  rewrite Hav. unfold lift at 1. rewrite (method_bind_ok _ _ d (pending d) d) by done.
  assert (in_memory (pending d)) as Hm by len_lia.
  destruct (probe (stream_limits d) (pending d)) as [p|e| |] eqn:Hp;
    [|unfold mbind, method_bind, lift; split_and!; naive_solver..].
  rewrite (method_bind_ok _ _ d p d) by done.
  destruct (bool_decide_reflect (state p = incomplete)); [by split_and!|].
  destruct (decode_prefix (stream_limits d) (pending d)) as [f|e| |] eqn:Hd;
    [|unfold mbind, method_bind, lift; split_and!; naive_solver..].
  rewrite (method_bind_ok _ _ d f d) by done.
  apply decode_prefix_spec in Hd as (_ & _ & _ & Hcons & rest & Hrest); [|done..].
  assert (len (pending d) = consumed f + len rest) by (rewrite Hrest, Hcons; len_lia).
  assert (0 ≤ consumed f) by (rewrite Hcons; apply len_nonneg).
  set (d1 := MkStream (stream_limits d) (buffer_ d) (cursor_ d + consumed f)).
  unfold modify. rewrite (method_bind_ok _ _ d tt d1)
    by (rewrite size_add_small; [done|len_lia]).
  assert (stream_inv d1) as Hi1.
  { unfold stream_inv, d1. simpl. split_and!; [done|len_lia..]. }
  destruct (compact_spec d1 Hi1) as (d2 & E2 & Hi2 & Hp2 & Hl2).
  rewrite (method_bind_ok _ _ _ _ _ E2). unfold mret, method_ret. split_and!; [done..| |].
  - f_equal. rewrite Hp2. unfold pending, d1. simpl.
    rewrite drop_drop. f_equal. lia.
  - intros [?|[e ?]]; congruence.
Qed.

Lemma reset_inv d : stream_inv d → stream_inv (reset d).
Proof.
  intros (Hl & Hc & Hb). unfold stream_inv, reset. simpl.
  pose proof (limits_valid_spec _ (proj1 Hl) (proj1 (proj2 Hl))).
  split_and!; [done|len_lia..].
Qed.

(** The simulation extends to sequences of calls. *)
Lemma run_stream_refines ops d :
  stream_inv d → Forall op_in_memory ops →
  let '(os, d') := run_stream ops d in
  stream_inv d' ∧ stream_limits d' = stream_limits d ∧
  (os, pending d') = run_queue (stream_limits d) ops (pending d).
Proof.
  intros Hi Hops. revert d Hi. induction Hops as [|op ops Hop Hops IH]; intros d Hi; simpl; [done|].
  destruct op as [bytes| |].
  - pose proof (push_refines bytes d Hi Hop) as Hp. destruct (push bytes d) as [r d1].
    destruct Hp as (Hi1 & Hl1 & <-). specialize (IH d1 Hi1). rewrite Hl1 in IH.
    destruct (run_stream ops d1) as [os d2]. by destruct IH as (? & ? & <-).
  - pose proof (next_refines d Hi) as Hn. destruct (next d) as [r d1].
    destruct Hn as (Hi1 & Hl1 & <- & _). specialize (IH d1 Hi1). rewrite Hl1 in IH.
    destruct (run_stream ops d1) as [os d2]. by destruct IH as (? & ? & <-).
  - specialize (IH (reset d) (reset_inv d Hi)).
    change (stream_limits (reset d)) with (stream_limits d) in IH.
    change (pending (reset d)) with (@nil byte) in IH.
    destruct (run_stream ops (reset d)) as [os d2]. by destruct IH as (? & ? & <-).
Qed.
End Refinement.

(** ** The queue *)
Section Queue.
Context {EM : ErrorModel} (l : Limits).
Hypothesis Hl : stream_limits_ok l.

(** An error of the queue is an error of the probe: a ready prefix always decodes. *)
Lemma spec_next_fail q q' e :
  in_memory q → spec_next l q = (Fail e, q') → probe l q = Fail e ∧ q ≠ [] ∧ q' = q.
Proof.
  intros Hm. destruct Hl as (Hlw & Hlv & _). unfold spec_next.
  destruct (Z.eqb_spec (len q) 0) as [|Hq]; [congruence|].
  assert (q ≠ []) as Hne by (intros ->; by apply Hq).
  destruct (probe l q) as [p|e0| |] eqn:Hp; [|naive_solver|congruence..].
  destruct (bool_decide_reflect (state p = incomplete)) as [|Hs]; [congruence|].
  assert (state p = ready) as Hr by (by destruct (state p)).
  destruct (probe_sound l q p Hlw Hlv Hm Hp Hr) as (m & rest & -> & Hw & Hf).
  rewrite decode_prefix_complete by done. congruence.
Qed.

Lemma spec_next_stuck q e :
  probe l q = Fail e → q ≠ [] → spec_next l q = (Fail e, q).
Proof.
  intros Hp Hq. unfold spec_next. rewrite Hp. destruct (Z.eqb_spec (len q) 0) as [H|]; [|done].
  by apply len_zero_inv in H.
Qed.

(** No call of the queue is undefined. *)
Lemma spec_next_defined q : in_memory q → defined (spec_next l q).1.
Proof.
  intros Hm. unfold spec_next. destruct (len q =? 0); [by split|].
  destruct (probe_defined l q Hm), (decode_prefix_defined l q (proj1 Hl) Hm).
  destruct (probe l q); [|by split|done..].
  destruct (bool_decide _); [by split|]. by destruct (decode_prefix l q).
Qed.

Definition is_reset (op : stream_op) : bool := match op with OpReset => true | _ => false end.

(** Once a call of [next] has failed, every later one fails in the same way until
    the next reset, whatever is pushed meanwhile. *)
Lemma run_queue_stuck ops q e :
  probe l q = Fail e → q ≠ [] → len q ≤ max_buffered_bytes l →
  Forall (λ op, is_reset op = false) ops →
  Forall (λ o, ∀ r, o = ObsNext r → r = Fail e) (run_queue l ops q).1.
Proof.
  intros Hp Hq Hb Hops. revert q Hp Hq Hb.
  induction Hops as [|op ops Hop Hops IH]; intros q Hp Hq Hb; simpl; [done|].
  destruct op as [bytes| |]; [| |done].
  - unfold spec_push. destruct (Z.leb_spec (len q + len bytes) (max_buffered_bytes l)).
    + specialize (IH (q ++ bytes)). destruct (run_queue l ops (q ++ bytes)). simpl in *.
      constructor; [congruence|]. apply IH; [|by destruct q|len_lia].
      pose proof (probe_extend l q bytes) as Hx. rewrite Hp in Hx. apply Hx.
      destruct Hl as (_ & _ & ?). len_lia.
    + specialize (IH q Hp Hq Hb). destruct (run_queue l ops q). constructor; [congruence|done].
  - rewrite (spec_next_stuck q e) by done. specialize (IH q Hp Hq Hb).
    destruct (run_queue l ops q). constructor; [congruence|done].
Qed.
End Queue.

(** ** Chunked reception *)
Section Chunks.
Context {EM : ErrorModel}.

Definition sendable (l : Limits) (m : Message) : Prop := message_wf m ∧ fits l m.

Definition frames_wire (ms : list Message) : list byte := concat (map frame_wire ms).

Lemma frames_wire_cons m ms : frames_wire (m :: ms) = frame_wire m ++ frames_wire ms.
Proof. done. Qed.

(** The queue holds a proper prefix of the frame of the first message to come. *)
Definition partial (q : list byte) (ms : list Message) : Prop :=
  match ms with
  | [] => q = []
  | m :: _ => len q < len (frame_wire m)
  end.

Lemma next_frame d m rest :
  stream_inv d → sendable (stream_limits d) m → pending d = frame_wire m ++ rest →
  ∃ d', next d = (Ok (Some m), d') ∧ stream_inv d' ∧
    stream_limits d' = stream_limits d ∧ pending d' = rest.
Proof.
  intros Hi [Hm Hf] Hq. pose proof (next_refines d Hi) as Hn.
  destruct (next d) as [r d']. destruct Hn as (Hi' & Hl' & Heq & _).
  pose proof Hi as ((Hlw & Hlv & Hlp) & Hc & Hb). pose proof (len_pending d Hc) as Hlen.
  unfold spec_next in Heq. rewrite Hq in *. pose proof (len_frame_wire m) as Hfl.
  rewrite (proj2 (Z.eqb_neq _ _)) in Heq by len_lia.
  assert (in_memory (frame_wire m ++ rest)) by len_lia.
  rewrite probe_complete, decode_prefix_complete in Heq by assumption.
  cbn [state] in Heq. rewrite bool_decide_false in Heq by done. cbn [message consumed] in Heq.
  unfold len in Heq. rewrite Nat2Z.id, drop_app_length in Heq. injection Heq as -> Hr.
  by exists d'.
Qed.

Lemma next_partial d ms more :
  stream_inv d → Forall (sendable (stream_limits d)) ms →
  pending d ++ more = frames_wire ms → partial (pending d) ms → next d = (Ok None, d).
Proof.
  intros Hi Hms Hq Hp. pose proof (next_refines d Hi) as Hn.
  destruct (next d) as [r d']. destruct Hn as (_ & _ & Heq & Hsame).
  pose proof Hi as ((Hlw & Hlv & Hlp) & Hc & Hb). pose proof (len_pending d Hc) as Hlen.
  assert (in_memory (pending d)) as Hpm by len_lia.
  assert (r = Ok None) as ->; [|by rewrite Hsame by auto].
  unfold spec_next in Heq. destruct (Z.eqb_spec (len (pending d)) 0) as [|Hne]; [congruence|].
  destruct ms as [|m ms]; [simpl in Hp; by rewrite Hp in Hne|].
  apply Forall_cons in Hms as [[Hm Hf] _].
  assert (∃ x, pending d ++ x = frame_wire m) as [x Hx].
  { rewrite frames_wire_cons in Hq. apply app_eq_app in Hq as (k & [[Hk _]|[Hk _]]).
    - exists []. simpl in Hp. rewrite Hk in Hp. len_lia.
    - by exists k. }
  assert (in_memory (frame_wire m)) as Hmem.
  { destruct Hf as (_ & _ & _ & _ & Hf).
    pose proof (limits_valid_spec _ Hlw Hlv). len_lia. }
  pose proof (probe_extend (stream_limits d) (pending d) x) as Hext. rewrite Hx in Hext.
  specialize (Hext Hmem). pose proof (probe_complete _ m [] Hlw Hlv Hm Hf) as Hcomp.
  rewrite app_nil_r in Hcomp. specialize (Hcomp Hmem).
  destruct (probe (stream_limits d) (pending d)) as [p|e| |] eqn:Hpr; [|congruence..].
  destruct (bool_decide_reflect (state p = incomplete)) as [|Hs]; [congruence|].
  assert (state p = ready) as Hr by (by destruct (state p)).
  destruct (probe_sound _ _ p Hlw Hlv Hpm Hpr Hr) as (m' & rest & Hq' & Hm' & Hf').
  pose proof (probe_complete _ m' rest Hlw Hlv Hm' Hf' ltac:(by rewrite <- Hq')) as Hc'.
  rewrite <- Hq', Hpr in Hc'. specialize (Hext Hr). rewrite Hcomp in Hext.
  injection Hc' as ->.
  assert (len (frame_wire m) = len (frame_wire m')) by congruence. cbn [partial] in Hp. rewrite Hq', len_app in Hp.
  pose proof (len_nonneg rest). lia.
Qed.

(** A prefix of a sequence of frames is some whole frames and a partial one. *)
Lemma frames_prefix ms p q :
  p ++ q = frames_wire ms →
  ∃ ms1 ms2 tail, ms = ms1 ++ ms2 ∧ p = frames_wire ms1 ++ tail ∧
    tail ++ q = frames_wire ms2 ∧ partial tail ms2.
Proof.
  revert p. induction ms as [|m ms IH]; intros p Hp.
  - apply app_eq_nil in Hp as [-> ->]. by exists [], [], [].
  - destruct (Z.ltb_spec (len p) (len (frame_wire m))) as [|Hlen].
    { by exists [], (m :: ms), p. }
    rewrite frames_wire_cons in Hp.
    apply app_eq_app in Hp as (k & [[-> Hk]|[Hk ->]]).
    + destruct (IH k) as (ms1 & ms2 & tail & -> & -> & Ht & Hpart); [done|].
      exists (m :: ms1), ms2, tail. split_and!; try done.
      by rewrite frames_wire_cons, app_assoc.
    + assert (k = []) as -> by (apply len_zero_inv; rewrite Hk in Hlen; len_lia).
      rewrite app_nil_r in Hk. subst p. destruct (IH []) as (ms1 & ms2 & tail & -> & Hn & Ht & Hpart);
        [done|].
      exists (m :: ms1), ms2, tail. split_and!; try done.
      by rewrite frames_wire_cons, <- app_assoc, <- Hn, app_nil_r.
Qed.

Lemma drain_frames ms1 ms2 tail more d fuel :
  stream_inv d → Forall (sendable (stream_limits d)) (ms1 ++ ms2) →
  pending d = frames_wire ms1 ++ tail → tail ++ more = frames_wire ms2 → partial tail ms2 →
  (length ms1 < fuel)%nat →
  ∃ d', drain fuel d = (Ok ms1, d') ∧ stream_inv d' ∧
    stream_limits d' = stream_limits d ∧ pending d' = tail.
Proof.
  revert d fuel. induction ms1 as [|m ms1 IH]; intros d fuel Hi Hms Hq Ht Hpart Hf;
    (destruct fuel as [|fuel]; [simpl in Hf; lia|]); simpl.
  - simpl in *. rewrite (method_bind_ok _ _ d None d); [by exists d|].
    apply (next_partial d ms2 more); [done..| |]; by rewrite Hq.
  - apply Forall_cons in Hms as [Hm Hms].
    rewrite frames_wire_cons, <- app_assoc in Hq.
    destruct (next_frame d m _ Hi Hm Hq) as (d1 & E1 & Hi1 & Hl1 & Hq1).
    rewrite (method_bind_ok _ _ _ _ _ E1).
    destruct (IH d1 fuel) as (d2 & E2 & Hi2 & Hl2 & Hq2);
      [done|by rewrite Hl1|done..|simpl in Hf; lia|].
    rewrite (method_bind_ok _ _ _ _ _ E2). exists d2. by rewrite Hl2.
Qed.

Lemma frames_wire_length ms : (length ms ≤ length (frames_wire ms))%nat.
Proof.
  induction ms as [|m ms IH]; [done|]. rewrite frames_wire_cons, length_app.
  pose proof (len_frame_wire m). pose proof (len_nonneg (payload_ m)).
  pose proof (len_nonneg (extensions_wire (extensions_ m))).
  cbn [length]. unfold len in *. lia.
Qed.

(** What a decoder between two frames holds is smaller than a frame. *)
Lemma partial_small l q ms :
  limits_wf l → Forall (sendable l) ms → partial q ms → len q ≤ max_frame_size l.
Proof.
  intros Hlw Hms Hq. destruct ms as [|m ms]; simpl in Hq.
  - rewrite Hq, len_nil. destruct Hlw as (_ & _ & _ & ? & _). lia.
  - apply Forall_cons in Hms as [[_ (_ & _ & _ & _ & Hfr)] _]. lia.
Qed.

(** One received range: it is accepted, and yields the messages it completes. *)
Lemma push_drain c more ms d :
  stream_inv d → Forall (sendable (stream_limits d)) ms →
  len c ≤ max_buffered_bytes (stream_limits d) - max_frame_size (stream_limits d) →
  (pending d ++ c) ++ more = frames_wire ms → partial (pending d) ms →
  ∃ d1 ms1 ms2 d2, push c d = (Ok tt, d1) ∧ drain (drain_fuel d1) d1 = (Ok ms1, d2) ∧
    ms = ms1 ++ ms2 ∧ pending d ++ c = frames_wire ms1 ++ pending d2 ∧ stream_inv d2 ∧
    stream_limits d2 = stream_limits d ∧ pending d2 ++ more = frames_wire ms2 ∧
    partial (pending d2) ms2.
Proof.
  intros Hi Hms Hc Hq Hpart. pose proof Hi as ((Hlw & Hlv & Hlp) & Hcur & Hb).
  pose proof (partial_small _ _ _ Hlw Hms Hpart) as Hsmall.
  destruct Hlw as (_ & _ & _ & Hlf & _).
  pose proof (push_refines c d Hi ltac:(len_lia)) as Hp.
  destruct (push c d) as [r d1] eqn:E1. destruct Hp as (Hi1 & Hl1 & Heq).
  unfold spec_push in Heq. rewrite (proj2 (Z.leb_le _ _)) in Heq by lia. injection Heq as -> Hq1.
  destruct (frames_prefix ms _ _ Hq) as (ms1 & ms2 & tail & -> & Hq2 & Ht & Hp2).
  rewrite <- Hl1 in *.
  destruct (drain_frames ms1 ms2 tail more d1 (drain_fuel d1))
    as (d2 & E2 & Hi2 & Hl2 & Hq3); [done|done|by rewrite Hq1|done|done| |].
  { unfold drain_fuel. pose proof (frames_wire_length ms1). apply (f_equal length) in Hq1.
    rewrite Hq2, length_app in Hq1. unfold pending in Hq1. rewrite length_drop in Hq1. lia. }
  exists d1, ms1, ms2, d2. by rewrite Hq3.
Qed.

Lemma receive_frames chunks ms d :
  stream_inv d → Forall (sendable (stream_limits d)) ms →
  Forall (λ c, len c ≤ max_buffered_bytes (stream_limits d) - max_frame_size (stream_limits d))
    chunks →
  pending d ++ concat chunks = frames_wire ms → partial (pending d) ms →
  ∃ d', receive chunks d = (Ok ms, d') ∧ stream_inv d' ∧ pending d' = [].
Proof.
  intros Hi Hms Hch. revert ms d Hi Hms Hch.
  induction chunks as [|c chunks IH]; intros ms d Hi Hms Hch Hq Hpart; simpl.
  - simpl in Hq. rewrite app_nil_r in Hq. destruct ms as [|m ms]; [by exists d|].
    cbn [partial] in Hpart. rewrite Hq, frames_wire_cons, len_app in Hpart.
    pose proof (len_nonneg (frames_wire ms)). lia.
  - apply Forall_cons in Hch as [Hc Hch]. simpl in Hq. rewrite app_assoc in Hq.
    destruct (push_drain c _ ms d Hi Hms Hc Hq Hpart)
      as (d1 & ms1 & ms2 & d2 & E1 & E2 & -> & _ & Hi2 & Hl2 & Hq2 & Hp2).
    rewrite (method_bind_ok _ _ _ _ _ E1), (method_bind_ok get _ d1 d1 d1) by done.
    rewrite (method_bind_ok _ _ _ _ _ E2). apply Forall_app in Hms as [_ Hms2].
    destruct (IH ms2 d2) as (d3 & E3 & Hi3 & Hq4); [done|by rewrite Hl2..|done|done|].
    rewrite (method_bind_ok _ _ _ _ _ E3). by exists d3.
Qed.

Lemma buffered_size_empty d : stream_inv d → pending d = [] → buffered_size d = 0.
Proof.
  intros ((_ & _ & ?) & Hc & Hb) Hp. apply (f_equal len) in Hp.
  rewrite len_pending, len_nil in Hp by done. unfold buffered_size. rewrite size_sub_small; len_lia.
Qed.

(** A fresh decoder. *)
Lemma receive_fresh (l : Limits) ms chunks :
  stream_limits_ok l → Forall (sendable l) ms →
  Forall (λ c, len c ≤ max_buffered_bytes l - max_frame_size l) chunks →
  concat chunks = frames_wire ms →
  ∃ d', receive chunks (new_stream l) = (Ok ms, d') ∧ buffered_size d' = 0.
Proof.
  intros Hl Hms Hch Hcat. pose proof Hl as (Hlw & Hlv & _).
  pose proof (limits_valid_spec _ Hlw Hlv) as (_ & _ & _ & _ & B5).
  destruct (receive_frames chunks ms (new_stream l)) as (d' & E & Hi & Hp); try done.
  - unfold stream_inv. simpl. split_and!; [done|done|done|]. len_lia.
  - destruct ms as [|m ms]; [done|]. cbn [partial]. rewrite len_frame_wire.
    change (len (pending (new_stream l))) with 0. len_lia.
  - exists d'. split; [done|]. by apply buffered_size_empty.
Qed.
End Chunks.

(** ** Properties *)

Lemma default_stream_inv : stream_inv (new_stream default_limits).
Proof.
  unfold stream_inv, stream_limits_ok. split_and!; by_compute.
Qed.

(** C4. Refinement: for every sequence of [push], [next] and [reset] calls, the
    buffer with its cursor and compaction gives the same results as the queue of
    pending bytes, every result is defined, and the buffer stays within
    [max_buffered_bytes] with the cursor inside it. *)
Theorem stream_refines_byte_queue {EM : ErrorModel} ops d :
  stream_inv d → Forall op_in_memory ops →
  let '(os, d') := run_stream ops d in
  stream_inv d' ∧ (os, pending d') = run_queue (stream_limits d) ops (pending d) ∧
  defined (next d').1.
Proof.
  intros Hi Hops. pose proof (run_stream_refines ops d Hi Hops) as H.
  destruct (run_stream ops d) as [os d']. destruct H as (Hi' & _ & H).
  split_and!; [done..|]. pose proof (next_refines d' Hi') as Hn.
  destruct (next d') as [r d'']. destruct Hn as (_ & _ & Hn & _).
  destruct Hi' as (Hl & Hc & Hb). pose proof (len_pending d' Hc).
  pose proof (spec_next_defined _ Hl (pending d') ltac:(destruct Hl as (_ & _ & ?); len_lia)) as Hd.
  rewrite <- Hn in Hd. apply Hd.
Qed.

Example stream_refines_byte_queue_witness :
  let ops := [OpPush (frame_wire sample_message ++ bytes_of [86]); OpNext; OpNext; OpReset] in
  let '(os, d') := run_stream (EM:=Model) ops (new_stream default_limits) in
  stream_inv d' ∧ (os, pending d') = run_queue (EM:=Model) default_limits ops [] ∧
  defined (next (EM:=Model) d').1.
Proof.
  apply (stream_refines_byte_queue (EM:=Model) _ (new_stream default_limits)).
  - apply default_stream_inv.
  - repeat constructor; by_compute.
Defined.

(** C3. Chunking does not matter: when the wire forms of a list of messages are cut
    into chunks in any way, a fresh decoder that is given the chunks one by one and
    drained after each delivers exactly those messages in order and is left empty,
    provided a chunk fits beside one buffered frame. *)
Theorem stream_chunking_irrelevant {EM : ErrorModel} (l : Limits) ms chunks :
  stream_limits_ok l → Forall (sendable l) ms →
  Forall (λ c, len c ≤ max_buffered_bytes l - max_frame_size l) chunks →
  concat chunks = frames_wire ms →
  ∃ d', receive chunks (new_stream l) = (Ok ms, d') ∧ buffered_size d' = 0.
Proof. apply receive_fresh. Qed.

Example stream_chunking_irrelevant_witness :
  let f := frame_wire sample_message in
  ∃ d', receive (EM:=Model) [take 1 f; drop 1 f ++ take 40 f; drop 40 f]
    (new_stream default_limits) = (Ok [sample_message; sample_message], d') ∧
  buffered_size d' = 0.
Proof.
  apply (stream_chunking_irrelevant (EM:=Model) default_limits).
  - unfold stream_limits_ok. split_and!; [apply default_limits_wf|by_compute..].
  - repeat constructor; apply sample_message_wf || apply sample_message_fits.
  - repeat constructor; by_compute.
  - by vm_compute.
Defined.

(** C27. Fail closed: a failing [next] changes nothing, and until [reset] every
    further [next] reports the same error whatever is pushed in between. *)
Theorem stream_fail_closed {EM : ErrorModel} d d' e ops :
  stream_inv d → next d = (Fail e, d') →
  Forall op_in_memory ops → Forall (λ op, is_reset op = false) ops →
  d' = d ∧ Forall (λ o, ∀ r, o = ObsNext r → r = Fail e) (run_stream ops d').1.
Proof.
  intros Hi Hn Hmem Hops. pose proof (next_refines d Hi) as Href. rewrite Hn in Href.
  destruct Href as (_ & _ & Hs & Hsame). assert (d' = d) as -> by (apply Hsame; right; by eexists).
  split; [done|]. pose proof Hi as (Hl & Hc & Hb). pose proof (len_pending d Hc).
  symmetry in Hs. apply spec_next_fail in Hs as (Hp & Hne & _);
    [|done|destruct Hl as (_ & _ & ?); len_lia].
  pose proof (run_stream_refines ops d Hi Hmem) as Hr.
  destruct (run_stream ops d) as [os d'']. destruct Hr as (_ & _ & Hr). cbn [fst].
  change os with (os, pending d'').1. rewrite Hr.
  apply (run_queue_stuck _ Hl); [done..|len_lia|done].
Qed.

Example stream_fail_closed_witness :
  let d := MkStream default_limits (bytes_of [0; 83; 80; 49]) 0 in
  d = d ∧ Forall (λ o, ∀ r, o = ObsNext r →
    r = failure (EM:=Model) invalid_magic "protocol frame magic mismatch")
    (run_stream (EM:=Model) [OpPush (frame_wire sample_message); OpNext; OpNext] d).1.
Proof.
  apply (stream_fail_closed (EM:=Model)).
  - unfold stream_inv, stream_limits_ok. split_and!; by_compute.
  - by vm_compute.
  - repeat constructor; by_compute.
  - by repeat constructor.
Defined.



(** C29. No stall: when [next] has no message yet, the probe of the pending bytes asks
    for more of them, and any range up to the size it asks for is accepted by
    [push]; a frame within the limits can always be completed. *)
Theorem stream_never_stalls {EM : ErrorModel} d bytes :
  stream_inv d → in_memory bytes → next d = (Ok None, d) →
  ∃ p, probe (stream_limits d) (pending d) = Ok p ∧ len (pending d) < required_size p ∧
    (len (pending d) + len bytes ≤ required_size p → (push bytes d).1 = Ok tt).
Proof.
  intros Hi Hm Hn. pose proof (next_refines d Hi) as H. rewrite Hn in H.
  destruct H as (_ & _ & H & _). pose proof Hi as ((Hlw & Hlv & Hlp) & Hc & Hb).
  pose proof (len_pending d Hc). assert (in_memory (pending d)) as Hpm by len_lia.
  assert (∃ p, probe (stream_limits d) (pending d) = Ok p ∧ state p = incomplete)
    as (p & Hp & Hs).
  { unfold spec_next in H. destruct (Z.eqb_spec (len (pending d)) 0) as [Hz|].
    - exists default_probe. split; [|done]. rewrite probe_eq by done. unfold probe_fields.
      by rewrite Hz.
    - destruct (probe _ _) as [p|e| |]; [|congruence..]. exists p. split; [done|].
      destruct (bool_decide_reflect (state p = incomplete)) as [|Hne]; [done|].
      destruct (decode_prefix _ _); congruence. }
  pose proof (probe_incomplete _ _ p Hlw Hlv Hpm Hp Hs) as [Hlt Hle].
  pose proof (limits_valid_spec _ Hlw Hlv) as (_ & _ & _ & _ & B5).
  exists p. split_and!; [done..|]. intros Hlen.
  pose proof (push_refines bytes d Hi Hm) as Hpush. destruct (push bytes d) as [r d'].
  destruct Hpush as (_ & _ & Hpush). unfold spec_push in Hpush.
  rewrite (proj2 (Z.leb_le _ _)) in Hpush by lia. simpl. congruence.
Qed.

Example stream_never_stalls_witness :
  let d := MkStream default_limits (take 50 (frame_wire sample_message)) 0 in
  let rest := drop 50 (frame_wire sample_message) in
  ∃ p, probe (EM:=Model) default_limits (pending d) = Ok p ∧ len (pending d) < required_size p ∧
    (len (pending d) + len rest ≤ required_size p → (push (EM:=Model) rest d).1 = Ok tt).
Proof.
  apply (stream_never_stalls (EM:=Model) (MkStream default_limits _ 0)).
  - unfold stream_inv, stream_limits_ok. split_and!; by_compute.
  - by_compute.
  - by vm_compute.
Defined.

(** ** Types of the results *)
Lemma spec_next_sendable {EM : ErrorModel} l q m q' :
  stream_limits_ok l → in_memory q → spec_next l q = (Ok (Some m), q') → sendable l m.
Proof.
  intros (Hlw & Hlv & _) Hq. unfold spec_next. destruct (len q =? 0); [congruence|].
  destruct (probe l q) as [p|e| |]; [|congruence..]. destruct (bool_decide _); [congruence|].
  destruct (decode_prefix l q) as [d|e| |] eqn:Hd; [|congruence..]. intros [= <- _].
  apply decode_prefix_spec in Hd as (_ & Hm & Hf & _); [|done..]. done.
Qed.

Lemma next_sendable {EM : ErrorModel} d m d' :
  stream_inv d → next d = (Ok (Some m), d') → sendable (stream_limits d) m.
Proof.
  intros Hi Hn. pose proof (next_refines d Hi) as H. rewrite Hn in H. destruct H as (_ & _ & H & _).
  pose proof Hi as (Hl & Hc & Hb). pose proof (len_pending d Hc). destruct Hl as (? & ? & Hp).
  eapply spec_next_sendable; [done| |by symmetry]. len_lia.
Qed.

(** C30. Everything a decoder hands out is a value of its C++ types and within the limits:
    whatever bytes are pushed, in any sequence of calls, each message that [next] returns
    has all its fields in the range of their integer types, extensions of at most 65535
    bytes, and sizes within every limit, so that the same codec can send it again. *)
Theorem stream_messages_well_typed {EM : ErrorModel} ops d m :
  stream_inv d → Forall op_in_memory ops →
  ObsNext (Ok (Some m)) ∈ (run_stream ops d).1 →
  message_wf m ∧ fits (stream_limits d) m ∧ encode (stream_limits d) m = Ok (frame_wire m).
Proof.
  intros Hi Hops. revert d Hi. induction Hops as [|op ops Hop Hops IH]; intros d Hi; simpl.
  { by intros ?%not_elem_of_nil. }
  destruct op as [bytes| |].
  - pose proof (push_refines bytes d Hi Hop) as Hp. destruct (push bytes d) as [r d1].
    destruct Hp as (Hi1 & Hl1 & _). specialize (IH d1 Hi1). rewrite Hl1 in IH.
    destruct (run_stream ops d1) as [os d2]. simpl. by intros [?|?]%elem_of_cons; [|apply IH].
  - pose proof (next_refines d Hi) as Hn. destruct (next d) as [r d1] eqn:En.
    destruct Hn as (Hi1 & Hl1 & _). specialize (IH d1 Hi1). rewrite Hl1 in IH.
    destruct (run_stream ops d1) as [os d2]. simpl. intros [[= <-]|?]%elem_of_cons; [|by apply IH].
    destruct (next_sendable _ _ _ Hi En) as [Hm Hf]. split_and!; [done|done|].
    destruct Hi as ((Hlw & Hlv & _) & _).
    by destruct (encode_spec (stream_limits d) m Hlw Hlv Hm) as [[_ ?]|[? _]].
  - specialize (IH (reset d) (reset_inv d Hi)). change (stream_limits (reset d)) with (stream_limits d) in IH.
    destruct (run_stream ops (reset d)) as [os d2]. simpl. by intros [?|?]%elem_of_cons; [|apply IH].
Qed.

Lemma sample_observations :
  (run_stream (EM:=Model) [OpPush (frame_wire sample_message); OpNext] (new_stream default_limits)).1 =
  [ObsPush (Ok tt); ObsNext (Ok (Some sample_message))].
Proof. reflexivity. Qed.

Example stream_messages_well_typed_witness :
  message_wf sample_message ∧ fits (stream_limits (new_stream default_limits)) sample_message ∧
  encode (EM:=Model) (stream_limits (new_stream default_limits)) sample_message =
    Ok (frame_wire sample_message).
Proof.
  apply (stream_messages_well_typed (EM:=Model) [OpPush (frame_wire sample_message); OpNext]
    (new_stream default_limits)).
  - apply default_stream_inv.
  - repeat constructor. by_compute.
  - rewrite sample_observations. apply elem_of_cons. right. by left.
Defined.
