(* ===== verification/Text.v ===== *)
(** * Strict UTF-8 and raw byte codecs

    [include/vosp/protocol/text.hpp].  The validator is translated with its index
    arithmetic and subscripts; the specification is the encoding of Unicode scalar
    values, which the source never mentions.  A [std::string] is its byte sequence. *)

From stdpp Require Import prelude list strings.
From Stdlib Require Import ZArith Lia.
From S2P Require Import Prelude Errors Types.
Import Protocol.

(** ** The validator *)

(** [detail::continuation] *)
Definition continuation (value : byte) : bool := Z.land (to_Z value) 192 =? 128.

Section Validator.
Context {E : Type}.

(** [valid_second] of the three-byte branch *)
Definition valid_second3 (first second : Z) : bool :=
  ((first =? 0xe0) && (0xa0 <=? second) && (second <=? 0xbf)) ||
  ((first =? 0xed) && (0x80 <=? second) && (second <=? 0x9f)) ||
  ((((0xe1 <=? first) && (first <=? 0xec)) || ((0xee <=? first) && (first <=? 0xef))) &&
   (0x80 <=? second) && (second <=? 0xbf)).

(** [valid_second] of the four-byte branch *)
Definition valid_second4 (first second : Z) : bool :=
  ((first =? 0xf0) && (0x90 <=? second) && (second <=? 0xbf)) ||
  ((first =? 0xf4) && (0x80 <=? second) && (second <=? 0x8f)) ||
  ((0xf1 <=? first) && (first <=? 0xf3) && (0x80 <=? second) && (second <=? 0xbf)).

(** The [while] loop of [detail::valid_utf8]; each turn uses one unit of fuel. *)
Fixpoint valid_utf8_loop (fuel : nat) (bytes : list byte) (index : Z) : outcome E bool :=
  match fuel with
  | O => NoFuel
  | S fuel' =>
      if index <? len bytes then
        b0 ← index_at bytes index;
        let first := to_Z b0 in
        if first <=? 0x7f then valid_utf8_loop fuel' bytes (index ⊕ 1)
        else if (0xc2 <=? first) && (first <=? 0xdf) then
          if len bytes <=? index ⊕ 1 then Ok false
          else
            b1 ← index_at bytes (index ⊕ 1);
            if negb (continuation b1) then Ok false
            else valid_utf8_loop fuel' bytes (index ⊕ 2)
        else if (0xe0 <=? first) && (first <=? 0xef) then
          if len bytes <=? index ⊕ 2 then Ok false
          else
            b1 ← index_at bytes (index ⊕ 1);
            if negb (valid_second3 first (to_Z b1)) then Ok false
            else
              b2 ← index_at bytes (index ⊕ 2);
              if negb (continuation b2) then Ok false
              else valid_utf8_loop fuel' bytes (index ⊕ 3)
        else if (0xf0 <=? first) && (first <=? 0xf4) then
          if len bytes <=? index ⊕ 3 then Ok false
          else
            b1 ← index_at bytes (index ⊕ 1);
            if negb (valid_second4 first (to_Z b1)) then Ok false
            else
              b2 ← index_at bytes (index ⊕ 2);
              if negb (continuation b2) then Ok false
              else
                b3 ← index_at bytes (index ⊕ 3);
                if negb (continuation b3) then Ok false
                else valid_utf8_loop fuel' bytes (index ⊕ 4)
        else Ok false
      else Ok true
  end.

(** [detail::valid_utf8]: one turn consumes at least a byte. *)
Definition valid_utf8 (bytes : list byte) : outcome E bool :=
  valid_utf8_loop (S (length bytes)) bytes 0.
End Validator.

(** ** The codecs *)
Section Codecs.
Context {EM : ErrorModel}.

Record Utf8Codec := MkUtf8Codec { utf8_limit_ : Z }.

(** The default argument of the [Utf8Codec] constructor. *)
Definition utf8_default_limit : Z := 1024 * 1024.

Definition utf8_codec_encode (codec : Utf8Codec) (value : list byte) : result (list byte) :=
  if utf8_limit_ codec <? len value then
    failure limit_exceeded "UTF-8 value limit exceeded"
  else
    valid ← valid_utf8 value;
    if negb valid then failure invalid_utf8 "text is not valid UTF-8"
    else Ok value.

Definition utf8_codec_decode (codec : Utf8Codec) (bytes : list byte) : result (list byte) :=
  if utf8_limit_ codec <? len bytes then
    failure limit_exceeded "UTF-8 value limit exceeded"
  else
    valid ← valid_utf8 bytes;
    if negb valid then failure invalid_utf8 "payload is not valid UTF-8"
    else
      let text := replicate (length bytes) Byte.x00 in
      if negb (len bytes =? 0) then memcpy text bytes (len bytes) else Ok text.

Record BytesCodec := MkBytesCodec { bytes_limit_ : Z }.

Definition bytes_codec_encode (codec : BytesCodec) (value : list byte) : result (list byte) :=
  if bytes_limit_ codec <? len value then
    failure limit_exceeded "byte value limit exceeded"
  else Ok value.

Definition bytes_codec_decode (codec : BytesCodec) (bytes : list byte) : result (list byte) :=
  if bytes_limit_ codec <? len bytes then
    failure limit_exceeded "byte value limit exceeded"
  else Ok bytes.
End Codecs.

(** ** Specification: the Unicode encoding form UTF-8 *)

(** A Unicode scalar value: a code point that is not a surrogate. *)
Definition scalar_value (c : Z) : Prop :=
  0 ≤ c ≤ 0x10ffff ∧ ¬ (0xd800 ≤ c ≤ 0xdfff).

Definition trail (c : Z) : byte := of_Z (0x80 + c mod 64).

(** The shortest encoding of a scalar value. *)
Definition utf8_encode (c : Z) : list byte :=
  if c <? 0x80 then [of_Z c]
  else if c <? 0x800 then [of_Z (0xc0 + c / 64); trail c]
  else if c <? 0x10000 then [of_Z (0xe0 + c / 4096); trail (c / 64); trail c]
  else [of_Z (0xf0 + c / 262144); trail (c / 4096); trail (c / 64); trail c].

Definition utf8_text (cs : list Z) : list byte := concat (map utf8_encode cs).

Definition is_utf8 (bytes : list byte) : Prop :=
  ∃ cs, Forall scalar_value cs ∧ bytes = utf8_text cs.

(** ** One character at the start of a byte string *)

(** The width of the well-formed sequence that starts [l], by the lead and second
    byte ranges of the standard's table. *)
Definition utf8_width (l : list byte) : option nat :=
  match l with
  | [] => None
  | b0 :: r =>
      let first := to_Z b0 in
      if first <=? 0x7f then Some 1%nat
      else if (0xc2 <=? first) && (first <=? 0xdf) then
        match r with
        | b1 :: _ => if continuation b1 then Some 2%nat else None
        | _ => None
        end
      else if (0xe0 <=? first) && (first <=? 0xef) then
        match r with
        | b1 :: b2 :: _ =>
            if valid_second3 first (to_Z b1) && continuation b2 then Some 3%nat else None
        | _ => None
        end
      else if (0xf0 <=? first) && (first <=? 0xf4) then
        match r with
        | b1 :: b2 :: b3 :: _ =>
            if valid_second4 first (to_Z b1) && continuation b2 && continuation b3
            then Some 4%nat else None
        | _ => None
        end
      else None
  end.

Lemma continuation_range b : continuation b = true ↔ 128 ≤ to_Z b ≤ 191.
Proof. destruct b; vm_compute; intuition congruence. Qed.

Lemma valid_second3_range f s :
  valid_second3 f s = true ↔
  (f = 0xe0 ∧ 0xa0 ≤ s ≤ 0xbf) ∨ (f = 0xed ∧ 0x80 ≤ s ≤ 0x9f) ∨
  ((0xe1 ≤ f ≤ 0xec ∨ 0xee ≤ f ≤ 0xef) ∧ 0x80 ≤ s ≤ 0xbf).
Proof.
  unfold valid_second3.
  rewrite !orb_true_iff, !andb_true_iff, !orb_true_iff, !andb_true_iff, !Z.leb_le, !Z.eqb_eq.
  lia.
Qed.

Lemma valid_second4_range f s :
  valid_second4 f s = true ↔
  (f = 0xf0 ∧ 0x90 ≤ s ≤ 0xbf) ∨ (f = 0xf4 ∧ 0x80 ≤ s ≤ 0x8f) ∨
  (0xf1 ≤ f ≤ 0xf3 ∧ 0x80 ≤ s ≤ 0xbf).
Proof.
  unfold valid_second4.
  rewrite !orb_true_iff, !andb_true_iff, !Z.leb_le, !Z.eqb_eq. lia.
Qed.

Lemma index_at_app_skip {E} (a r : list byte) b i :
  0 ≤ i → r !! Z.to_nat i = Some b → index_at (E:=E) (a ++ r) (len a + i) = Ok b.
Proof.
  intros Hi Hr. unfold index_at, len.
  rewrite lookup_app_r by lia.
  replace (Z.to_nat (Z.of_nat (length a) + i) - length a)%nat with (Z.to_nat i) by lia.
  rewrite Hr. destruct (Z.leb_spec 0 (Z.of_nat (length a) + i)); [done|lia].
Qed.

(** ** The loop follows the table *)

Section Loop.
Context {E : Type}.

(** Past the guard of a branch, the subscripts are in range. *)
Ltac utf8_subscripts :=
  repeat (erewrite index_at_app_skip by (first [lia | reflexivity]);
          cbn [mbind outcome_bind]).

(** Decide the guard [index + k >= bytes.size()] from the shape of the tail. *)
Ltac utf8_guard :=
  match goal with
  | |- context [len ?l <=? ?k] =>
      destruct (Z.leb_spec (len l) k); try (exfalso; len_lia); try done
  end.

Lemma valid_utf8_loop_step fuel (a r : list byte) :
  in_memory (a ++ r) →
  valid_utf8_loop (E:=E) (S fuel) (a ++ r) (len a) =
  match r with
  | [] => Ok true
  | _ =>
      match utf8_width r with
      | Some n => valid_utf8_loop fuel (a ++ r) (len a + Z.of_nat n)
      | None => Ok false
      end
  end.
Proof.
  intros Hm. destruct r as [|b0 r].
  { simpl. rewrite app_nil_r, Z.ltb_irrefl. done. }
  cbn [valid_utf8_loop]. destruct (Z.ltb_spec (len a) (len (a ++ b0 :: r))) as [_|];
    [|exfalso; len_lia].
  rewrite index_at_app_r. cbn [mbind outcome_bind]. cbv zeta. cbn [utf8_width]. size_norm.
  destruct (to_Z b0 <=? 127); [done|].
  destruct ((194 <=? to_Z b0) && (to_Z b0 <=? 223)).
  { destruct r as [|b1 r]; utf8_guard. utf8_subscripts. by destruct (continuation b1). }
  destruct ((224 <=? to_Z b0) && (to_Z b0 <=? 239)).
  { destruct r as [|b1 [|b2 r]]; utf8_guard. utf8_subscripts.
    destruct (valid_second3 _ _); [|done]. cbn [negb andb]. utf8_subscripts.
    by destruct (continuation b2). }
  destruct ((240 <=? to_Z b0) && (to_Z b0 <=? 244)); [|done].
  destruct r as [|b1 [|b2 [|b3 r]]]; utf8_guard. utf8_subscripts.
  destruct (valid_second4 _ _); [|done]. cbn [negb andb]. utf8_subscripts.
  destruct (continuation b2); [|done]. cbn [negb andb]. utf8_subscripts.
  by destruct (continuation b3).
Qed.
End Loop.

(** ** The table is the encoding of scalar values *)

Lemma of_Z_eq b z : to_Z b = z → of_Z z = b.
Proof. intros <-. apply of_to_Z. Qed.

Lemma trail_eq b c : to_Z b = 128 + c mod 64 → trail c = b.
Proof. apply of_Z_eq. Qed.

Lemma to_Z_of_Z_small z : 0 ≤ z < 256 → to_Z (of_Z z) = z.
Proof. intros. rewrite to_of_Z. by apply Z.mod_small. Qed.

Lemma to_Z_trail c : to_Z (trail c) = 128 + c mod 64.
Proof.
  pose proof (Z.mod_pos_bound c 64 ltac:(lia)). apply to_Z_of_Z_small. lia.
Qed.

Lemma continuation_trail c : continuation (trail c) = true.
Proof.
  apply continuation_range. rewrite to_Z_trail.
  pose proof (Z.mod_pos_bound c 64 ltac:(lia)). lia.
Qed.

Ltac euclid := Z.to_euclidean_division_equations; lia.

(** Reduce the comparisons of a closed branch by arithmetic. *)
Ltac zcases :=
  repeat (match goal with
  | |- context [?a <=? ?b] => destruct (Z.leb_spec a b)
  end; cbn [andb]; try (exfalso; euclid)); try done.

Lemma utf8_width_encode c l :
  scalar_value c → utf8_width (utf8_encode c ++ l) = Some (length (utf8_encode c)).
Proof.
  intros [Hc Hs]. unfold utf8_encode.
  destruct (Z.ltb_spec c 0x80).
  { simpl. rewrite to_Z_of_Z_small by lia. zcases. }
  destruct (Z.ltb_spec c 0x800).
  { cbn [app utf8_width]. rewrite to_Z_of_Z_small, !continuation_trail by euclid.
    zcases. }
  destruct (Z.ltb_spec c 0x10000).
  { cbn [app utf8_width]. rewrite to_Z_of_Z_small, !continuation_trail by euclid.
    rewrite (proj2 (valid_second3_range _ _)); [zcases|].
    rewrite to_Z_trail. euclid. }
  cbn [app utf8_width]. rewrite to_Z_of_Z_small, !continuation_trail by euclid.
  rewrite (proj2 (valid_second4_range _ _)); [zcases|].
  rewrite to_Z_trail. euclid.
Qed.

(** Every sequence the table admits encodes a scalar value. *)
Ltac utf8_reencode :=
  split; [unfold scalar_value; lia|]; unfold utf8_encode;
  repeat match goal with |- context [?a <? ?b] => destruct (Z.ltb_spec a b); try (exfalso; lia) end;
  repeat (f_equal; try (first [apply of_Z_eq | apply trail_eq]; euclid)).

Lemma utf8_encode_2 b0 b1 :
  0xc2 ≤ to_Z b0 ≤ 0xdf → 128 ≤ to_Z b1 ≤ 191 →
  let c := (to_Z b0 - 0xc0) * 64 + (to_Z b1 - 0x80) in
  scalar_value c ∧ utf8_encode c = [b0; b1].
Proof. intros H0 H1. cbv zeta. utf8_reencode. Qed.

Lemma utf8_encode_3 b0 b1 b2 :
  valid_second3 (to_Z b0) (to_Z b1) = true → 128 ≤ to_Z b2 ≤ 191 →
  let c := (to_Z b0 - 0xe0) * 4096 + (to_Z b1 - 0x80) * 64 + (to_Z b2 - 0x80) in
  scalar_value c ∧ utf8_encode c = [b0; b1; b2].
Proof. intros H1%valid_second3_range H2. cbv zeta. utf8_reencode. Qed.

Lemma utf8_encode_4 b0 b1 b2 b3 :
  valid_second4 (to_Z b0) (to_Z b1) = true → 128 ≤ to_Z b2 ≤ 191 → 128 ≤ to_Z b3 ≤ 191 →
  let c := (to_Z b0 - 0xf0) * 262144 + (to_Z b1 - 0x80) * 4096 +
           (to_Z b2 - 0x80) * 64 + (to_Z b3 - 0x80) in
  scalar_value c ∧ utf8_encode c = [b0; b1; b2; b3].
Proof. intros H1%valid_second4_range H2 H3. cbv zeta. utf8_reencode. Qed.

Lemma utf8_width_decode l n :
  utf8_width l = Some n →
  ∃ c k, scalar_value c ∧ l = utf8_encode c ++ k ∧ n = length (utf8_encode c).
Proof.
  unfold utf8_width. destruct l as [|b0 r]; [done|]. pose proof (to_Z_range b0) as R0.
  destruct (Z.leb_spec (to_Z b0) 127).
  { intros [= <-]. exists (to_Z b0), r. unfold scalar_value, utf8_encode.
    destruct (Z.ltb_spec (to_Z b0) 0x80); [|lia]. rewrite of_to_Z. repeat split; simpl; lia. }
  destruct ((194 <=? to_Z b0) && (to_Z b0 <=? 223)) eqn:F2.
  { destruct r as [|b1 r]; [done|]. destruct (continuation b1) eqn:C1; [|done].
    intros [= <-]. apply continuation_range in C1.
    destruct (utf8_encode_2 b0 b1 ltac:(lia) C1) as [Hc He].
    eexists _, r. by rewrite He. }
  destruct ((224 <=? to_Z b0) && (to_Z b0 <=? 239)) eqn:F3.
  { destruct r as [|b1 [|b2 r]]; [done|done|].
    destruct (valid_second3 (to_Z b0) (to_Z b1)) eqn:V; [|done].
    destruct (continuation b2) eqn:C2; [|done].
    intros [= <-]. apply continuation_range in C2.
    destruct (utf8_encode_3 b0 b1 b2 V C2) as [Hc He]. eexists _, r. by rewrite He. }
  destruct ((240 <=? to_Z b0) && (to_Z b0 <=? 244)) eqn:F4; [|done].
  destruct r as [|b1 [|b2 [|b3 r]]]; [done|done|done|].
  destruct (valid_second4 (to_Z b0) (to_Z b1)) eqn:V; [|done].
  destruct (continuation b2) eqn:C2; [|done]. destruct (continuation b3) eqn:C3; [|done].
  intros [= <-]. apply continuation_range in C2, C3.
  destruct (utf8_encode_4 b0 b1 b2 b3 V C2 C3) as [Hc He]. eexists _, r. by rewrite He.
Qed.

Lemma utf8_encode_nonempty c : (1 ≤ length (utf8_encode c))%nat.
Proof. unfold utf8_encode. repeat case_match; simpl; lia. Qed.

Lemma is_utf8_nil : is_utf8 [].
Proof. exists []. by split; [constructor|]. Qed.

Lemma is_utf8_app_encode c l : scalar_value c → is_utf8 (utf8_encode c ++ l) ↔ is_utf8 l.
Proof.
  intros Hc. split.
  - intros (cs & Hcs & Hl). destruct Hcs as [|d cs Hd Hcs].
    { destruct (utf8_encode c) eqn:E; [|done]. pose proof (utf8_encode_nonempty c).
      rewrite E in *. simpl in *. lia. }
    change (utf8_text (d :: cs)) with (utf8_encode d ++ utf8_text cs) in Hl.
    exists cs. split; [done|].
    pose proof (utf8_width_encode c l Hc) as W1.
    pose proof (utf8_width_encode d (utf8_text cs) Hd) as W2.
    rewrite Hl, W2 in W1. injection W1 as W1. by apply app_inj_1 in Hl as [_ ->].
  - intros (cs & Hcs & ->). exists (c :: cs). by split; [constructor|].
Qed.

Lemma is_utf8_inv l : is_utf8 l → l = [] ∨ ∃ n, utf8_width l = Some n.
Proof.
  intros (cs & Hcs & ->). destruct Hcs as [|c cs Hc]; [by left|right].
  eexists. by apply (utf8_width_encode c (utf8_text cs)).
Qed.

(** The loop, started at any character boundary with enough fuel, decides the rest. *)
Lemma valid_utf8_loop_decides {E} fuel (a r : list byte) :
  in_memory (a ++ r) → (length r < fuel)%nat →
  ∃ v, valid_utf8_loop (E:=E) fuel (a ++ r) (len a) = Ok v ∧ (v = true ↔ is_utf8 r).
Proof.
  revert a r. induction fuel as [|fuel IH]; intros a r Hm Hf; [lia|].
  rewrite valid_utf8_loop_step by done. destruct r as [|b0 r].
  { exists true. pose proof is_utf8_nil. naive_solver. }
  destruct (utf8_width (b0 :: r)) as [n|] eqn:W.
  - destruct (utf8_width_decode _ _ W) as (c & k & Hc & Hl & ->). rewrite Hl in *.
    pose proof (utf8_encode_nonempty c). rewrite length_app in Hf. rewrite app_assoc in *.
    destruct (IH (a ++ utf8_encode c) k Hm ltac:(lia)) as (v & Hv & Hiff).
    exists v. rewrite <- Hv, Hiff, is_utf8_app_encode by done.
    split; [|done]. by rewrite len_app.
  - exists false. split; [done|]. split; [done|]. intros [?|[? ?]]%is_utf8_inv; congruence.
Qed.

Lemma valid_utf8_decides {E} l :
  in_memory l → ∃ v, valid_utf8 (E:=E) l = Ok v ∧ (v = true ↔ is_utf8 l).
Proof. intros Hm. apply (valid_utf8_loop_decides _ [] l Hm). lia. Qed.

(** ** The codecs on every branch *)

Lemma utf8_codec_decode_eq {EM : ErrorModel} codec bytes :
  utf8_codec_decode codec bytes =
  if utf8_limit_ codec <? len bytes then failure limit_exceeded "UTF-8 value limit exceeded"
  else
    valid ← valid_utf8 bytes;
    if negb valid then failure invalid_utf8 "payload is not valid UTF-8" else Ok bytes.
Proof.
  unfold utf8_codec_decode. destruct (_ <? _); [done|].
  destruct (valid_utf8 bytes) as [[]| | |]; [|done..]. simpl.
  destruct (Z.eqb_spec (len bytes) 0) as [E|E]; simpl.
  - by apply len_zero_inv in E as ->.
  - apply memcpy_whole. apply length_replicate.
Qed.

(** How the validator can answer. *)
Lemma valid_utf8_cases {E} l :
  in_memory l →
  (is_utf8 l ∧ valid_utf8 (E:=E) l = Ok true) ∨ (¬ is_utf8 l ∧ valid_utf8 (E:=E) l = Ok false).
Proof.
  intros Hm. destruct (valid_utf8_decides (E:=E) l Hm) as ([] & -> & Hiff); [left|right].
  - split; [by apply Hiff|done].
  - split; [|done]. intros H%Hiff. done.
Qed.

Lemma utf8_encode_inj c d :
  scalar_value c → scalar_value d → utf8_encode c = utf8_encode d → c = d.
Proof.
  intros [Hc _] [Hd _]. unfold utf8_encode.
  assert (∀ x y, 0 ≤ x < 256 → 0 ≤ y < 256 → of_Z x = of_Z y → x = y) as Hof.
  { intros x y ? ? E%(f_equal to_Z). by rewrite !to_Z_of_Z_small in E. }
  assert (∀ x y, trail x = trail y → x mod 64 = y mod 64) as Htr.
  { intros x y E%(f_equal to_Z). rewrite !to_Z_trail in E. lia. }
  repeat match goal with |- context [?a <? ?b] => destruct (Z.ltb_spec a b) end;
    try discriminate; intros Heq; injection Heq; clear Heq; intros;
    repeat match goal with H : trail _ = trail _ |- _ => apply Htr in H end;
    match goal with H : of_Z _ = of_Z _ |- _ => apply Hof in H; [|euclid..] end;
    euclid.
Qed.

Lemma utf8_text_inj cs ds :
  Forall scalar_value cs → Forall scalar_value ds → utf8_text cs = utf8_text ds → cs = ds.
Proof.
  intros Hcs. revert ds. induction Hcs as [|c cs Hc Hcs IH]; intros ds Hds Heq.
  - destruct Hds as [|d ds]; [done|]. apply (f_equal length) in Heq. revert Heq.
    unfold utf8_text. simpl. rewrite length_app. pose proof (utf8_encode_nonempty d). lia.
  - destruct Hds as [|d ds Hd Hds].
    { apply (f_equal length) in Heq. revert Heq. unfold utf8_text. simpl.
      rewrite length_app. pose proof (utf8_encode_nonempty c). lia. }
    change (utf8_encode c ++ utf8_text cs = utf8_encode d ++ utf8_text ds) in Heq.
    pose proof (utf8_width_encode c (utf8_text cs) Hc) as W.
    rewrite Heq, utf8_width_encode in W by done. injection W as W.
    apply app_inj_1 in Heq as [E1 E2]; [|done].
    f_equal; [by apply utf8_encode_inj|by apply IH].
Qed.

(** ** Payload codecs as an interface

    What the layers above rely on: [decode] undoes [encode], and whatever [encode]
    produces is no longer than the limit of the codec. *)
Class PayloadCodec {EM : ErrorModel} (V : Type) := {
  payload_encode : V → result (list byte);
  payload_decode : list byte → result V;
  payload_limit : Z
}.

Class PayloadCodecLaws {EM : ErrorModel} {V} (C : PayloadCodec V) : Prop := {
  payload_roundtrip v bytes :
    in_memory bytes → payload_encode v = Ok bytes → payload_decode bytes = Ok v;
  payload_bounded v bytes : payload_encode v = Ok bytes → len bytes ≤ payload_limit
}.

Section Instances.
Context {EM : ErrorModel}.

Definition utf8_payload (codec : Utf8Codec) : PayloadCodec (list byte) :=
  {| payload_encode := utf8_codec_encode codec;
     payload_decode := utf8_codec_decode codec;
     payload_limit := utf8_limit_ codec |}.

Definition bytes_payload (codec : BytesCodec) : PayloadCodec (list byte) :=
  {| payload_encode := bytes_codec_encode codec;
     payload_decode := bytes_codec_decode codec;
     payload_limit := bytes_limit_ codec |}.

Lemma utf8_codec_encode_inv codec value bytes :
  utf8_codec_encode codec value = Ok bytes →
  bytes = value ∧ len value ≤ utf8_limit_ codec ∧ valid_utf8 (E:=error_type) value = Ok true.
Proof.
  unfold utf8_codec_encode. destruct (Z.ltb_spec (utf8_limit_ codec) (len value)); [done|].
  destruct (valid_utf8 value) as [[]| | |]; naive_solver.
Qed.

#[export] Instance utf8_payload_laws codec : PayloadCodecLaws (utf8_payload codec).
Proof.
  split; intros v bytes.
  - intros _ (-> & Hl & Hv)%utf8_codec_encode_inv. simpl.
    rewrite utf8_codec_decode_eq, Hv. by destruct (Z.ltb_spec (utf8_limit_ codec) (len v)); [lia|].
  - by intros (-> & Hl & Hv)%utf8_codec_encode_inv.
Qed.

#[export] Instance bytes_payload_laws codec : PayloadCodecLaws (bytes_payload codec).
Proof.
  split; intros v bytes; simpl; unfold bytes_codec_encode, bytes_codec_decode;
    destruct (Z.ltb_spec (bytes_limit_ codec) (len v)); try done; intros; simplify_eq; [|lia].
  by destruct (Z.ltb_spec (bytes_limit_ codec) (len bytes)); [lia|].
Qed.
End Instances.

(** ** Properties *)

(** C9. The validator is exact: on every byte string it terminates without an
    out-of-range access, and it accepts exactly the concatenations of shortest-form
    encodings of Unicode scalar values (no overlong form, no surrogate, nothing above
    U+10FFFF, nothing truncated). *)
Theorem utf8_validator_exact {E} (bytes : list byte) :
  in_memory bytes →
  ∃ v, valid_utf8 (E:=E) bytes = Ok v ∧ (v = true ↔ is_utf8 bytes).
Proof. apply valid_utf8_decides. Qed.

Example utf8_validator_exact_witness :
  let euro := bytes_of [226; 130; 172] in
  ∃ v, valid_utf8 (E:=unit) euro = Ok v ∧ (v = true ↔ is_utf8 euro).
Proof. apply (utf8_validator_exact (E:=unit)). by_compute. Defined.

(** The text codec on every branch: above the limit both directions report
    [limit_exceeded]; otherwise UTF-8 text passes unchanged in both directions and
    everything else is reported as [invalid_utf8]. *)
Theorem utf8_codec_contract {EM : ErrorModel} codec bytes :
  in_memory bytes →
  (utf8_limit_ codec < len bytes →
     utf8_codec_encode codec bytes = failure limit_exceeded "UTF-8 value limit exceeded" ∧
     utf8_codec_decode codec bytes = failure limit_exceeded "UTF-8 value limit exceeded") ∧
  (len bytes ≤ utf8_limit_ codec → is_utf8 bytes →
     utf8_codec_encode codec bytes = Ok bytes ∧ utf8_codec_decode codec bytes = Ok bytes) ∧
  (len bytes ≤ utf8_limit_ codec → ¬ is_utf8 bytes →
     utf8_codec_encode codec bytes = failure invalid_utf8 "text is not valid UTF-8" ∧
     utf8_codec_decode codec bytes = failure invalid_utf8 "payload is not valid UTF-8").
Proof.
  intros Hm. rewrite utf8_codec_decode_eq. unfold utf8_codec_encode.
  destruct (Z.ltb_spec (utf8_limit_ codec) (len bytes)).
  { split_and!; [done|lia..]. }
  destruct (valid_utf8_cases (E:=error_type) bytes Hm) as [[Hu ->]|[Hu ->]]; simpl;
    (split_and!; [lia|done..]).
Qed.

Example utf8_codec_contract_witness :
  let codec := MkUtf8Codec utf8_default_limit in
  let overlong := bytes_of [192; 175] in
  in_memory overlong ∧
  (utf8_limit_ codec < len overlong →
     utf8_codec_encode (EM:=Model) codec overlong =
       failure (EM:=Model) limit_exceeded "UTF-8 value limit exceeded") ∧
  utf8_codec_decode (EM:=Model) codec overlong =
    Fail (MkError 7 "payload is not valid UTF-8").
Proof.
  split; [by_compute|]. split; [|by vm_compute].
  apply (utf8_codec_contract (EM:=Model) (MkUtf8Codec utf8_default_limit) (bytes_of [192; 175])).
  by_compute.
Defined.

(** Decoded text has one reading: a successful decode returns the payload bytes,
    and there is exactly one sequence of Unicode scalar values they encode. *)
Theorem utf8_decode_unique_text {EM : ErrorModel} codec bytes text :
  in_memory bytes → utf8_codec_decode codec bytes = Ok text →
  text = bytes ∧ len text ≤ utf8_limit_ codec ∧
  ∃ cs, (Forall scalar_value cs ∧ text = utf8_text cs) ∧
    ∀ ds, Forall scalar_value ds → text = utf8_text ds → ds = cs.
Proof.
  intros Hm. rewrite utf8_codec_decode_eq.
  destruct (Z.ltb_spec (utf8_limit_ codec) (len bytes)); [done|].
  destruct (valid_utf8_cases (E:=error_type) bytes Hm) as [[(cs & Hcs & Htext) ->]|[_ ->]];
    simpl; [|done].
  intros [= <-]. split_and!; [done|done|]. exists cs. split; [done|].
  intros ds Hds Hds'. apply utf8_text_inj; [done..|]. by rewrite <- Hds'.
Qed.

Example utf8_decode_unique_text_witness :
  let text := bytes_of [226; 130; 172; 33] in
  text = text ∧ len text ≤ 8 ∧
  ∃ cs, (Forall scalar_value cs ∧ text = utf8_text cs) ∧
    ∀ ds, Forall scalar_value ds → text = utf8_text ds → ds = cs.
Proof.
  apply (utf8_decode_unique_text (EM:=Model) (MkUtf8Codec 8)); by_compute.
Defined.
