(* ===== verification/Permissions.v ===== *)
(** * Permission sets in one machine word

    [include/vosp/security/permissions.hpp].  The template parameters are section
    variables: the underlying type of the enumeration (its signedness and width)
    and [Count].  The specification is a finite set of enumeration values. *)

From stdpp Require Import prelude gmap sets list.
From Stdlib Require Import ZArith Lia.
From S2P Require Import Prelude.

(** [std::underlying_type_t<Permission>] *)
Record underlying := MkUnderlying { is_signed : bool; type_width : Z }.

Definition underlying_wf (u : underlying) : Prop := 8 ≤ type_width u ≤ 64.

(** The values of an integer type. *)
Definition representable (u : underlying) (value : Z) : Prop :=
  if is_signed u
  then - 2 ^ (type_width u - 1) ≤ value < 2 ^ (type_width u - 1)
  else 0 ≤ value < 2 ^ type_width u.

Record PermissionSet := MkPermissionSet { mask_ : Z }.

Definition no_permissions : PermissionSet := MkPermissionSet 0.

Section PermissionSet.
Context (u : underlying) (Count : Z).

Definition bit_for (permission : Z) : Z :=
  if is_signed u && (permission <? 0) then 0
  else
    let index := wrap 64 (wrap (type_width u) permission) in
    if index <? Count then wrap 64 (Z.shiftl 1 index) else 0.

Definition grant (permission : Z) (p : PermissionSet) : bool * PermissionSet :=
  let bit := bit_for permission in
  if bit =? 0 then (false, p)
  else (true, MkPermissionSet (Z.lor (mask_ p) bit)).

Definition revoke (permission : Z) (p : PermissionSet) : bool * PermissionSet :=
  let bit := bit_for permission in
  if bit =? 0 then (false, p)
  else (true, MkPermissionSet (Z.land (mask_ p) (wrap 64 (Z.lnot bit)))).

Definition allows (p : PermissionSet) (permission : Z) : bool :=
  let bit := bit_for permission in
  negb (bit =? 0) && negb (Z.land (mask_ p) bit =? 0).

Definition permissions_mask (p : PermissionSet) : Z := mask_ p.

Definition permissions_empty (p : PermissionSet) : bool := mask_ p =? 0.

Definition clear_permissions (p : PermissionSet) : PermissionSet := MkPermissionSet 0.

(** ** Sequences of calls, on the word and on a finite set *)
Inductive perm_op :=
| OpGrant (permission : Z)
| OpRevoke (permission : Z)
| OpAllows (permission : Z)
| OpEmpty
| OpClear.

Definition perm_step (op : perm_op) (p : PermissionSet) : bool * PermissionSet :=
  match op with
  | OpGrant v => grant v p
  | OpRevoke v => revoke v p
  | OpAllows v => (allows p v, p)
  | OpEmpty => (permissions_empty p, p)
  | OpClear => (true, clear_permissions p)
  end.

Definition in_set (v : Z) : bool := (0 <=? v) && (v <? Count).

Definition set_step (op : perm_op) (s : gset Z) : bool * gset Z :=
  match op with
  | OpGrant v => if in_set v then (true, {[v]} ∪ s) else (false, s)
  | OpRevoke v => if in_set v then (true, s ∖ {[v]}) else (false, s)
  | OpAllows v => (bool_decide (v ∈ s), s)
  | OpEmpty => (bool_decide (s = ∅), s)
  | OpClear => (true, ∅)
  end.

Definition run_ops {S} (step : perm_op → S → bool * S) : list perm_op → S → list bool * S :=
  fix run ops s :=
    match ops with
    | [] => ([], s)
    | op :: ops' =>
        let '(b, s') := step op s in
        let '(bs, s'') := run ops' s' in (b :: bs, s'')
    end.

Definition op_representable (op : perm_op) : Prop :=
  match op with
  | OpGrant v | OpRevoke v | OpAllows v => representable u v
  | _ => True
  end.

(** The word [p] holds exactly the set [s]. *)
Definition holds_set (p : PermissionSet) (s : gset Z) : Prop :=
  0 ≤ mask_ p < 2 ^ 64 ∧ (∀ i, i ∈ s → 0 ≤ i < Count) ∧
  ∀ i, 0 ≤ i → Z.testbit (mask_ p) i = bool_decide (i ∈ s).

Context (Hu : underlying_wf u) (HCount : 0 < Count ≤ 64).

Lemma in_set_spec v : in_set v = true ↔ 0 ≤ v < Count.
Proof. unfold in_set. rewrite andb_true_iff, Z.leb_le, Z.ltb_lt. tauto. Qed.

(** The conversion chain of [bit_for] loses nothing on a valid enumerator. *)
Lemma bit_for_spec v :
  representable u v → bit_for v = if in_set v then 2 ^ v else 0.
Proof.
  intros Hv. unfold bit_for, representable, underlying_wf in *.
  assert (2 ^ type_width u ≤ 2 ^ 64) by (apply Z.pow_le_mono_r; lia).
  assert (2 ^ (type_width u - 1) < 2 ^ type_width u) by (apply Z.pow_lt_mono_r; lia).
  destruct (Z.ltb_spec v 0).
  { destruct (is_signed u); [|lia]. simpl. unfold in_set. by destruct (Z.leb_spec 0 v); [lia|]. }
  rewrite andb_false_r, (wrap_small (type_width u) v) by (destruct (is_signed u); lia).
  rewrite (wrap_small 64 v) by (destruct (is_signed u); lia).
  unfold in_set. destruct (Z.leb_spec 0 v); [|lia]. simpl.
  destruct (Z.ltb_spec v Count); [|done]. rewrite Z.shiftl_1_l.
  apply wrap_small. split; [lia|]. apply Z.pow_lt_mono_r; lia.
Qed.

Lemma bit_for_eqb v :
  representable u v → (bit_for v =? 0) = negb (in_set v).
Proof.
  intros Hv. rewrite bit_for_spec by done. destruct (in_set v) eqn:E; [|done].
  apply in_set_spec in E. apply Z.eqb_neq. assert (0 < 2 ^ v) by lia. lia.
Qed.

Lemma holds_empty : holds_set no_permissions ∅.
Proof.
  split_and!; [simpl; lia|simpl; lia|set_solver|].
  intros. rewrite Z.testbit_0_l. symmetry. apply bool_decide_eq_false. set_solver.
Qed.

(** Setting and clearing one bit. *)
Lemma testbit_set m v i :
  0 ≤ v → 0 ≤ i → Z.testbit (Z.lor m (2 ^ v)) i = Z.testbit m i || bool_decide (i = v).
Proof.
  intros. rewrite Z.lor_spec, Z.pow2_bits_eqb by done. f_equal.
  destruct (Z.eqb_spec v i); symmetry;
    [by apply bool_decide_eq_true|apply bool_decide_eq_false; lia].
Qed.

Lemma testbit_unset m v i :
  0 ≤ v < 64 → 0 ≤ m < 2 ^ 64 → 0 ≤ i →
  Z.testbit (Z.land m (wrap 64 (Z.lnot (2 ^ v)))) i = Z.testbit m i && negb (bool_decide (i = v)).
Proof.
  intros Hv Hm Hi. rewrite Z.land_spec. unfold wrap.
  destruct (Z.ltb_spec i 64).
  - rewrite Z.mod_pow2_bits_low, Z.lnot_spec, Z.pow2_bits_eqb by lia. do 2 f_equal.
    destruct (Z.eqb_spec v i); symmetry;
      [by apply bool_decide_eq_true|apply bool_decide_eq_false; lia].
  - rewrite <- (Z.mod_small m (2 ^ 64)) by lia.
    by rewrite !Z.mod_pow2_bits_high by lia.
Qed.

(** A word whose bits from 64 on are clear is a 64-bit word. *)
Lemma lor_range m v : 0 ≤ m < 2 ^ 64 → 0 ≤ v < 64 → 0 ≤ Z.lor m (2 ^ v) < 2 ^ 64.
Proof.
  intros Hm Hv. assert (0 < 2 ^ v < 2 ^ 64) by (split; [lia|apply Z.pow_lt_mono_r; lia]).
  assert (Z.lor m (2 ^ v) = Z.lor m (2 ^ v) mod 2 ^ 64) as ->;
    [|apply Z.mod_pos_bound; lia].
  rewrite <- Z.land_ones, Z.land_lor_distr_l, !Z.land_ones, !Z.mod_small by lia. done.
Qed.

Lemma land_range m k : 0 ≤ m < 2 ^ 64 → 0 ≤ Z.land m k < 2 ^ 64.
Proof.
  intros Hm. assert (Z.land m k = Z.land m k mod 2 ^ 64) as ->;
    [|apply Z.mod_pos_bound; lia].
  rewrite <- Z.land_ones, <- Z.land_assoc, (Z.land_comm k), Z.land_assoc by lia.
  by rewrite Z.land_ones, Z.mod_small by lia.
Qed.

Lemma land_bit_eqb m v :
  0 ≤ v → (Z.land m (2 ^ v) =? 0) = negb (Z.testbit m v).
Proof.
  intros Hv. destruct (Z.testbit m v) eqn:E; simpl.
  - apply Z.eqb_neq. intros H. apply (f_equal (λ z, Z.testbit z v)) in H.
    rewrite Z.land_spec, E, Z.pow2_bits_true, Z.bits_0 in H by done. done.
  - apply Z.eqb_eq. apply Z.bits_inj'. intros i Hi.
    rewrite Z.land_spec, Z.pow2_bits_eqb, Z.bits_0 by done.
    destruct (Z.eqb_spec v i) as [<-|]; [by rewrite E|by rewrite andb_false_r].
Qed.

Lemma holds_empty_iff p s : holds_set p s → (mask_ p =? 0) = bool_decide (s = ∅).
Proof.
  intros (Hm & Hs & Hb). destruct (Z.eqb_spec (mask_ p) 0) as [E|E]; symmetry.
  - apply bool_decide_eq_true. apply set_eq. intros i. split; [|set_solver].
    intros Hi. specialize (Hb i). rewrite E, Z.bits_0 in Hb.
    rewrite bool_decide_eq_true_2 in Hb by done. pose proof (Hs i Hi).
    by specialize (Hb ltac:(lia)).
  - apply bool_decide_eq_false. intros ->. apply E. apply Z.bits_inj'. intros i Hi.
    rewrite Hb, Z.bits_0 by done. apply bool_decide_eq_false. set_solver.
Qed.

Lemma perm_step_refines op p s :
  op_representable op → holds_set p s →
  (perm_step op p).1 = (set_step op s).1 ∧ holds_set (perm_step op p).2 (set_step op s).2.
Proof.
  intros Hop Hh. pose proof Hh as (Hm & Hs & Hb). destruct op as [v|v|v| |]; simpl in *.
  - unfold grant. rewrite bit_for_eqb, bit_for_spec by done.
    destruct (in_set v) eqn:E; simpl; [|done]. apply in_set_spec in E.
    split; [done|]. split_and!; [apply lor_range; lia..|clear -Hs E; set_solver|]. simpl.
    intros i Hi. rewrite testbit_set, Hb, <- bool_decide_or by lia.
    apply bool_decide_ext. clear. set_solver.
  - unfold revoke. rewrite bit_for_eqb, bit_for_spec by done.
    destruct (in_set v) eqn:E; simpl; [|done]. apply in_set_spec in E.
    split; [done|]. split_and!; [apply land_range; lia..|clear -Hs; set_solver|].
    simpl. intros i Hi. rewrite testbit_unset, Hb, <- bool_decide_not, <- bool_decide_and by lia.
    apply bool_decide_ext. clear. set_solver.
  - split; [|done]. unfold allows. rewrite bit_for_eqb, bit_for_spec by done.
    destruct (in_set v) eqn:E; simpl.
    + apply in_set_spec in E. rewrite land_bit_eqb, Hb, negb_involutive by lia. done.
    + symmetry. apply bool_decide_eq_false. intros Hv%Hs. apply in_set_spec in Hv. congruence.
  - split; [|done]. unfold permissions_empty. by apply holds_empty_iff.
  - split; [done|]. apply holds_empty.
Qed.

Lemma run_refines ops p s :
  Forall op_representable ops → holds_set p s →
  (run_ops perm_step ops p).1 = (run_ops set_step ops s).1 ∧
  holds_set (run_ops perm_step ops p).2 (run_ops set_step ops s).2.
Proof.
  intros Hops. revert p s. induction Hops as [|op ops Hop Hops IH]; intros p s Hh; [done|].
  simpl. destruct (perm_step_refines op p s Hop Hh) as [H1 H2].
  destruct (perm_step op p) as [b p'], (set_step op s) as [b' s']. simpl in *. subst b'.
  destruct (IH p' s' H2) as [H3 H4].
  destruct (run_ops perm_step ops p'), (run_ops set_step ops s'). simpl in *. by subst.
Qed.
End PermissionSet.

(** ** Properties *)

(** C35. A permission set is a set: for every enumeration type and every [Count] the
    template admits, any sequence of calls on the 64-bit word answers exactly as the
    finite set of granted enumerators does, out-of-range and negative enumerators
    being refused without effect, and the word never has another bit set. *)
Theorem permission_set_refines_gset (u : underlying) (Count : Z) ops :
  underlying_wf u → 0 < Count ≤ 64 → Forall (op_representable u) ops →
  let '(answers, p) := run_ops (perm_step u Count) ops no_permissions in
  let '(answers', s) := run_ops (set_step Count) ops ∅ in
  answers = answers' ∧ holds_set Count p s.
Proof.
  intros Hu HC Hops.
  destruct (run_refines u Count Hu HC ops no_permissions ∅ Hops (holds_empty u Count Hu HC)) as [H1 H2].
  by destruct (run_ops _ _ _), (run_ops _ _ _).
Qed.

(** The sequence of the test suite: a signed 8-bit enumeration of three values. *)
Example permission_set_refines_gset_witness :
  let ops := [OpEmpty; OpGrant 0; OpGrant 2; OpAllows 0; OpAllows 1; OpGrant (-1); OpGrant 3;
              OpRevoke 0; OpAllows 0; OpClear; OpEmpty] in
  (run_ops (perm_step (MkUnderlying true 8) 3) ops no_permissions).1 =
    [true; true; true; true; false; false; false; true; false; true; true] ∧
  let '(answers, p) := run_ops (perm_step (MkUnderlying true 8) 3) ops no_permissions in
  let '(answers', s) := run_ops (set_step 3) ops ∅ in
  answers = answers' ∧ holds_set 3 p s.
Proof.
  split; [by vm_compute|].
  apply (permission_set_refines_gset (MkUnderlying true 8) 3); [by_compute..|].
  repeat constructor; by_compute.
Defined.
