(* ===== verification/SecureBuffer.v ===== *)
(** * Secret storage: erasure, comparison and the move-only buffer

    [src/security/secure_buffer.cpp], [erase_posix.cpp] and [erase_windows.cpp].
    Buffers are objects with an identity over a heap of byte blocks, so that who owns
    an allocation, what it still holds when it is released and what a moved-from
    object keeps are all visible in the state.  Allocation failure is not modelled. *)

From stdpp Require Import prelude gmap list strings.
From Stdlib Require Import ZArith Lia.
From S2P Require Import Prelude Errors.
Import Security.

(** ** Erasure *)

Definition zeroed (l : list byte) : Prop := Forall (λ b, b = Byte.x00) l.

(** What [secure_erase] promises to its callers: the bytes of the range, overwritten. *)
Class SecureErase := { secure_erase : list byte → list byte }.

Class SecureEraseLaws (SE : SecureErase) : Prop := {
  secure_erase_zeroes l : secure_erase l = replicate (length l) Byte.x00
}.

(** The operating systems' primitives, applied to a non-empty range, are parameters
    with their documented effect. *)
Section Posix.
Context (explicit_bzero : list byte → list byte).

Definition posix_secure_erase (bytes : list byte) : list byte :=
  if negb (len bytes =? 0) then explicit_bzero bytes else bytes.

Definition posix_erase : SecureErase := {| secure_erase := posix_secure_erase |}.

Context (explicit_bzero_zeroes : ∀ l, l ≠ [] → explicit_bzero l = replicate (length l) Byte.x00).

Lemma posix_erase_laws : SecureEraseLaws posix_erase.
Proof.
  split. intros l. simpl. unfold posix_secure_erase.
  destruct l; [done|]. rewrite len_cons. pose proof (len_nonneg l).
  destruct (Z.eqb_spec (1 + len l) 0); [lia|]. by apply explicit_bzero_zeroes.
Qed.
End Posix.

Section Windows.
Context (SecureZeroMemory : list byte → list byte).

Definition windows_secure_erase (bytes : list byte) : list byte :=
  if negb (len bytes =? 0) then SecureZeroMemory bytes else bytes.

Definition windows_erase : SecureErase := {| secure_erase := windows_secure_erase |}.

Context (SecureZeroMemory_zeroes :
  ∀ l, l ≠ [] → SecureZeroMemory l = replicate (length l) Byte.x00).

Lemma windows_erase_laws : SecureEraseLaws windows_erase.
Proof.
  split. intros l. simpl. unfold windows_secure_erase.
  destruct l; [done|]. rewrite len_cons. pose proof (len_nonneg l).
  destruct (Z.eqb_spec (1 + len l) 0); [lia|]. by apply SecureZeroMemory_zeroes.
Qed.
End Windows.

(** A primitive with the documented effect. *)
Definition zero_memory (l : list byte) : list byte := replicate (length l) Byte.x00.

(** ** Comparison

    The state is the sequence of memory accesses made so far: it is what an observer
    of the timing can learn. *)
Inductive access := AccessLeft (index : Z) | AccessRight (index : Z).

Section Compare.
Context {E : Type}.

Definition traced_at (event : Z → access) (l : list byte) (index : Z) :
    method (list access) E byte :=
  modify (λ tr, tr ++ [event index]);; lift (index_at l index).

Fixpoint compare_loop (fuel : nat) (left right : list byte) (index difference : Z) :
    method (list access) E Z :=
  match fuel with
  | O => lift NoFuel
  | S fuel' =>
      if index <? len left then
        a ← traced_at AccessLeft left index;
        b ← traced_at AccessRight right index;
        compare_loop fuel' left right (index ⊕ 1)
          (wrap 8 (Z.lor difference (Z.lxor (to_Z a) (to_Z b))))
      else mret difference
  end.

Definition constant_time_equal (left right : list byte) : method (list access) E bool :=
  if negb (len left =? len right) then mret false
  else
    difference ← compare_loop (S (length left)) left right 0 0;
    mret (difference =? 0).
End Compare.

(** ** The heap and the objects *)

(** [std::vector<std::byte>]: its allocation, if any, and its size. *)
Record vector := MkVector { vdata : option nat; vsize : Z }.

Definition empty_vector : vector := MkVector None 0.

Record SecureBuffer := MkSecureBuffer { bytes_ : vector }.

Record world := MkWorld {
  heap : gmap nat (list byte);
  next_block : nat;
  (** the contents of every block at the moment it was released *)
  released : list (list byte);
  objects : gmap nat SecureBuffer
}.

Definition initial_world : world := MkWorld ∅ 0 [] ∅.

Definition with_heap (f : gmap nat (list byte) → gmap nat (list byte)) (w : world) : world :=
  MkWorld (f (heap w)) (next_block w) (released w) (objects w).

Definition with_objects (f : gmap nat SecureBuffer → gmap nat SecureBuffer) (w : world) : world :=
  MkWorld (heap w) (next_block w) (released w) (f (objects w)).

Definition default_maximum_size : Z := 1024 * 1024.
Definition hard_maximum_size : Z := 64 * 1024 * 1024.

Section Buffer.
Context {SE : SecureErase}.

Abbreviation M := (method world SecurityError).

(** The object named [x]; using one that is not alive is undefined. *)
Definition object (x : nat) : M SecureBuffer := λ w,
  match objects w !! x with Some b => (Ok b, w) | None => (UB, w) end.

Definition set_object (x : nat) (b : SecureBuffer) : M unit :=
  modify (with_objects <[x := b]>).

(** Storage for a new object must not hold a live one. *)
Definition storage (x : nat) : M unit := λ w,
  match objects w !! x with Some _ => (UB, w) | None => (Ok tt, w) end.

(** The block of a vector with an allocation. *)
Definition block (l : nat) : M (list byte) := λ w,
  match heap w !! l with Some blk => (Ok blk, w) | None => (UB, w) end.

(** [std::vector<std::byte>{source.begin(), source.end()}] *)
Definition vector_of (source : list byte) : M vector := λ w,
  match source with
  | [] => (Ok empty_vector, w)
  | _ =>
      let l := next_block w in
      (Ok (MkVector (Some l) (len source)),
       MkWorld (<[l := source]> (heap w)) (S l) (released w) (objects w))
  end.

(** The destructor of a vector. *)
Definition vector_free (v : vector) : M unit :=
  match vdata v with
  | None => mret tt
  | Some l =>
      blk ← block l;
      modify (λ w, MkWorld (delete l (heap w)) (next_block w) (released w ++ [blk]) (objects w))
  end.

(** [secure_erase(bytes_)]: the logical bytes, not the capacity. *)
Definition erase_vector (v : vector) : M unit :=
  match vdata v with
  | None => mret tt
  | Some l =>
      blk ← block l;
      let n := Z.to_nat (vsize v) in
      modify (with_heap <[l := secure_erase (take n blk) ++ drop n blk]>)
  end.

(** [SecureBuffer::clear] *)
Definition buffer_clear (x : nat) : M unit :=
  b ← object x;
  erase_vector (bytes_ b);;
  set_object x (MkSecureBuffer (MkVector (vdata (bytes_ b)) 0)).

(** [SecureBuffer::~SecureBuffer], then the destructor of the member *)
Definition buffer_destroy (x : nat) : M unit :=
  buffer_clear x;;
  b ← object x;
  vector_free (bytes_ b);;
  modify (with_objects (delete x)).

(** [SecureBuffer()] *)
Definition buffer_default (x : nat) : M unit :=
  storage x;; set_object x (MkSecureBuffer empty_vector).

(** [SecureBuffer(std::vector<std::byte> bytes)] *)
Definition buffer_construct (x : nat) (v : vector) : M unit :=
  storage x;; set_object x (MkSecureBuffer v).

(** [SecureBuffer(SecureBuffer&& other)] *)
Definition buffer_move_construct (x other : nat) : M unit :=
  storage x;;
  o ← object other;
  set_object x (MkSecureBuffer (bytes_ o));;
  set_object other (MkSecureBuffer empty_vector);;
  buffer_clear other.

(** [operator=(SecureBuffer&& other)]; assigning the vector releases the old block. *)
Definition buffer_move_assign (x other : nat) : M unit :=
  if bool_decide (x = other) then (_ ← object x; mret tt)
  else
    buffer_clear x;;
    b ← object x;
    o ← object other;
    vector_free (bytes_ b);;
    set_object x (MkSecureBuffer (bytes_ o));;
    set_object other (MkSecureBuffer empty_vector);;
    buffer_clear other.

(** [SecureBuffer::copy_from]: the buffer is built in a temporary, moved into the
    result [x], and the temporary is destroyed. *)
Definition buffer_copy_from (x : nat) (source : list byte) (maximum_size : Z) : M unit :=
  storage x;;
  if (len source =? 0) || (maximum_size =? 0) || (hard_maximum_size <? maximum_size) then
    lift (Fail (security_error sec_invalid_argument "secure buffer size limit is invalid"))
  else if maximum_size <? len source then
    lift (Fail (security_error sec_limit_exceeded "secret exceeds secure buffer limit"))
  else
    v ← vector_of source;
    w ← get;
    let temporary := fresh ({[x]} ∪ dom (objects w)) in
    buffer_construct temporary v;;
    buffer_move_construct x temporary;;
    buffer_destroy temporary.

Definition buffer_size (x : nat) : M Z := b ← object x; mret (vsize (bytes_ b)).

Definition buffer_empty (x : nat) : M bool := n ← buffer_size x; mret (n =? 0).

(** [bytes()], read *)
Definition buffer_bytes (x : nat) : M (list byte) :=
  b ← object x;
  match vdata (bytes_ b) with
  | None => mret []
  | Some l => blk ← block l; mret (take (Z.to_nat (vsize (bytes_ b))) blk)
  end.

(** [bytes()[index] = value] *)
Definition buffer_write (x : nat) (index : Z) (value : byte) : M unit :=
  b ← object x;
  if (0 <=? index) && (index <? vsize (bytes_ b)) then
    match vdata (bytes_ b) with
    | None => lift UB
    | Some l =>
        blk ← block l;
        modify (with_heap <[l := <[Z.to_nat index := value]> blk]>)
    end
  else lift UB.
End Buffer.

(** ** Programs over buffers, and their value semantics *)
Inductive buffer_op :=
| OpDefault (x : nat)
| OpCopyFrom (x : nat) (source : list byte) (maximum_size : Z)
| OpMoveConstruct (x other : nat)
| OpMoveAssign (x other : nat)
| OpClearBuffer (x : nat)
| OpDestroy (x : nat)
| OpSize (x : nat)
| OpIsEmpty (x : nat)
| OpBytes (x : nat)
| OpWrite (x : nat) (index : Z) (value : byte).

Inductive buffer_answer :=
| Done
| Size (n : Z)
| IsEmpty (b : bool)
| Bytes (l : list byte).

Definition buffer_step {SE : SecureErase} (op : buffer_op) :
    method world SecurityError buffer_answer :=
  match op with
  | OpDefault x => buffer_default x;; mret Done
  | OpCopyFrom x source maximum_size => buffer_copy_from x source maximum_size;; mret Done
  | OpMoveConstruct x other => buffer_move_construct x other;; mret Done
  | OpMoveAssign x other => buffer_move_assign x other;; mret Done
  | OpClearBuffer x => buffer_clear x;; mret Done
  | OpDestroy x => buffer_destroy x;; mret Done
  | OpSize x => n ← buffer_size x; mret (Size n)
  | OpIsEmpty x => b ← buffer_empty x; mret (IsEmpty b)
  | OpBytes x => l ← buffer_bytes x; mret (Bytes l)
  | OpWrite x index value => buffer_write x index value;; mret Done
  end.

(** A store of byte strings: a move takes the value and leaves the empty string. *)
Abbreviation values := (gmap nat (list byte)).

Definition value_of (x : nat) : method values SecurityError (list byte) := λ s,
  match s !! x with Some c => (Ok c, s) | None => (UB, s) end.

Definition no_value (x : nat) : method values SecurityError unit := λ s,
  match s !! x with Some _ => (UB, s) | None => (Ok tt, s) end.

Definition put (x : nat) (c : list byte) : method values SecurityError unit :=
  modify <[x := c]>.

Definition value_step (op : buffer_op) : method values SecurityError buffer_answer :=
  match op with
  | OpDefault x => no_value x;; put x [];; mret Done
  | OpCopyFrom x source maximum_size =>
      no_value x;;
      if (len source =? 0) || (maximum_size =? 0) || (hard_maximum_size <? maximum_size) then
        lift (Fail (security_error sec_invalid_argument "secure buffer size limit is invalid"))
      else if maximum_size <? len source then
        lift (Fail (security_error sec_limit_exceeded "secret exceeds secure buffer limit"))
      else put x source;; mret Done
  | OpMoveConstruct x other => no_value x;; c ← value_of other; put x c;; put other [];; mret Done
  | OpMoveAssign x other =>
      _ ← value_of x; c ← value_of other;
      if bool_decide (x = other) then mret Done else put x c;; put other [];; mret Done
  | OpClearBuffer x => _ ← value_of x; put x [];; mret Done
  | OpDestroy x => _ ← value_of x; modify (delete x);; mret Done
  | OpSize x => c ← value_of x; mret (Size (len c))
  | OpIsEmpty x => c ← value_of x; mret (IsEmpty (len c =? 0))
  | OpBytes x => c ← value_of x; mret (Bytes c)
  | OpWrite x index value =>
      c ← value_of x;
      if (0 <=? index) && (index <? len c) then put x (<[Z.to_nat index := value]> c);; mret Done
      else lift UB
  end.

(** Run a program and collect the answers. *)
Fixpoint run_program {S} (step : buffer_op → method S SecurityError buffer_answer)
    (ops : list buffer_op) (s : S) : list (outcome SecurityError buffer_answer) * S :=
  match ops with
  | [] => ([], s)
  | op :: ops' =>
      let '(r, s') := step op s in
      let '(rs, s'') := run_program step ops' s' in (r :: rs, s'')
  end.

(** ** The invariant *)

(** The vector [v] holds the bytes [c]; what its allocation holds past them is zero. *)
Definition vector_holds (h : gmap nat (list byte)) (v : vector) (c : list byte) : Prop :=
  vsize v = len c ∧
  match vdata v with
  | None => c = []
  | Some l => ∃ spare, h !! l = Some (c ++ spare) ∧ zeroed spare
  end.

(** The objects hold the values [s]. *)
Definition objects_hold (w : world) (s : values) : Prop :=
  dom (objects w) = dom s ∧
  ∀ x b c, objects w !! x = Some b → s !! x = Some c → vector_holds (heap w) (bytes_ b) c.

(** Every block has exactly one owner. *)
Definition blocks_owned (w : world) : Prop :=
  (∀ x y bx b l, objects w !! x = Some bx → objects w !! y = Some b →
     vdata (bytes_ bx) = Some l → vdata (bytes_ b) = Some l → x = y) ∧
  (∀ l, is_Some (heap w !! l) →
     (l < next_block w)%nat ∧
     ∃ x b, objects w !! x = Some b ∧ vdata (bytes_ b) = Some l).

Definition buffers_inv (w : world) (s : values) : Prop :=
  objects_hold w s ∧ blocks_owned w ∧ Forall zeroed (released w).
