(* ===== verification/SecureBufferFacts.v ===== *)
(** * Secret storage: proofs

    The comparison is exact and its accesses depend on the lengths only; a program
    over buffers behaves as one over values; every block is erased before it is
    released. *)

From stdpp Require Import prelude gmap list strings.
From Stdlib Require Import ZArith Lia.
From S2P Require Import Prelude Errors SecureBuffer.
Import Security.

Lemma zeroed_replicate n : zeroed (replicate n Byte.x00).
Proof. by apply Forall_replicate. Qed.

Lemma bind_run {S E A B} (m : method S E A) (f : A → method S E B) s a s' r :
  m s = (Ok a, s') → f a s' = r → (m ≫= f) s = r.
Proof. intros H <-. by apply method_bind_ok. Qed.

(** ** Moves between states that keep the invariant *)
Section Invariant.
Context {SE : SecureErase} {SEL : SecureEraseLaws SE}.
Implicit Types (w : world) (s : values).

Lemma inv_object w s x c :
  buffers_inv w s → s !! x = Some c →
  ∃ b, objects w !! x = Some b ∧ vector_holds (heap w) (bytes_ b) c.
Proof.
  intros ((Hdom & Hh) & _) Hx. assert (x ∈ dom (objects w)) as [b Hb]%elem_of_dom.
  { rewrite Hdom. apply elem_of_dom. by eexists. }
  exists b. split; [done|]. by eapply Hh.
Qed.

Lemma inv_no_object w s x : buffers_inv w s → s !! x = None → objects w !! x = None.
Proof.
  intros ((Hdom & _) & _) Hx. apply not_elem_of_dom. rewrite Hdom. by apply not_elem_of_dom.
Qed.

(** A new content for the block of [x], whose part past the size is zero. *)
Lemma inv_set_block w s x b l c c' spare :
  buffers_inv w s → objects w !! x = Some b → s !! x = Some c →
  vdata (bytes_ b) = Some l → zeroed spare →
  buffers_inv
    (with_objects <[x := MkSecureBuffer (MkVector (Some l) (len c'))]>
       (with_heap <[l := c' ++ spare]> w)) (<[x := c']> s).
Proof.
  intros ((Hdom & Hh) & (Hinj & Hown) & Hr) Hb Hc Hl Hz. split_and!; [split|split|done]; simpl.
  - by rewrite !dom_insert_L, Hdom.
  - intros y by' cy Hy Hcy. destruct (decide (y = x)) as [->|Hne].
    + simplify_map_eq. split; [done|]. simpl.
      exists spare. by rewrite lookup_insert_eq.
    + rewrite lookup_insert_ne in Hy by done. rewrite lookup_insert_ne in Hcy by done.
      destruct (Hh _ _ _ Hy Hcy) as [Hn Hd]. split; [done|].
      destruct (vdata (bytes_ by')) as [l'|] eqn:Hl'; [|done].
      rewrite lookup_insert_ne; [done|]. intros <-. apply Hne. by eapply Hinj.
  - intros y z by' bz l' Hy Hz' Hly Hlz.
    destruct (decide (y = x)) as [->|], (decide (z = x)) as [->|]; [done|..];
      simplify_map_eq; by eapply Hinj.
  - intros l' Hl'. destruct (decide (l' = l)) as [->|].
    + split.
      * destruct (Hh _ _ _ Hb Hc) as [_ Hd]. rewrite Hl in Hd. destruct Hd as (? & Hd & _).
        by apply (Hown l).
      * exists x. eexists. by rewrite lookup_insert_eq.
    + rewrite lookup_insert_ne in Hl' by done.
      destruct (Hown l' Hl') as [Hlt (y & by' & Hy & Hly)]. split; [done|].
      exists y, by'. split; [|done]. rewrite lookup_insert_ne; [done|].
      intros <-. rewrite Hb in Hy. congruence.
Qed.

(** [x] takes over the vector of [other], which is left with an empty one. *)
Lemma inv_steal w s x other o c :
  buffers_inv w s → x ≠ other →
  objects w !! other = Some o → s !! other = Some c →
  (∀ b, objects w !! x = Some b → vdata (bytes_ b) = None) →
  buffers_inv
    (with_objects <[other := MkSecureBuffer empty_vector]>
       (with_objects <[x := MkSecureBuffer (bytes_ o)]> w)) (<[other := []]> (<[x := c]> s)).
Proof.
  intros ((Hdom & Hh) & (Hinj & Hown) & Hr) Hne Ho Hc Hx.
  split_and!; [split|split|done]; simpl.
  - by rewrite !dom_insert_L, Hdom.
  - intros y b cy Hy Hcy. destruct (decide (y = other)) as [->|]; simplify_map_eq; [done|].
    destruct (decide (y = x)) as [->|]; simplify_map_eq; by eapply Hh.
  - intros y z by' bz l Hy Hz Hly Hlz.
    destruct (decide (y = other)) as [->|]; simplify_map_eq.
    destruct (decide (z = other)) as [->|]; simplify_map_eq.
    destruct (decide (y = x)) as [->|], (decide (z = x)) as [->|]; simplify_map_eq; [done|..|by eapply Hinj].
    + destruct (Hinj other z o bz l); done.
    + destruct (Hinj other y o by' l); done.
  - intros l Hl. destruct (Hown l Hl) as [Hlt (y & b & Hy & Hly)]. split; [done|].
    destruct (decide (y = other)) as [->|].
    + exists x, (MkSecureBuffer (bytes_ o)). simplify_map_eq. done.
    + exists y, b. split; [|done]. rewrite lookup_insert_ne by done.
      rewrite lookup_insert_ne; [done|]. intros <-. specialize (Hx _ Hy). congruence.
Qed.

(** Releasing the block of an object that holds nothing. *)
Lemma inv_free w s x b :
  buffers_inv w s → objects w !! x = Some b → s !! x = Some [] →
  ∃ w', vector_free (bytes_ b) w = (Ok tt, w') ∧ objects w' = objects w ∧
    buffers_inv (with_objects <[x := MkSecureBuffer empty_vector]> w') s.
Proof.
  intros ((Hdom & Hh) & (Hinj & Hown) & Hr) Hb Hc. pose proof (Hh _ _ _ Hb Hc) as [Hn Hd].
  unfold vector_free. destruct (vdata (bytes_ b)) as [l|] eqn:Hl.
  - destruct Hd as (spare & Hl' & Hz). simpl in Hl'. unfold block, mbind, method_bind.
    rewrite Hl'. eexists. split; [done|]. split; [done|].
    split_and!; [split|split|]; simpl.
    + rewrite dom_insert_L, Hdom. apply elem_of_dom_2 in Hc.
      by apply subseteq_union_1_L, singleton_subseteq_l.
    + intros y by' cy Hy Hcy. destruct (decide (y = x)) as [->|]; simplify_map_eq; [done|].
      destruct (Hh _ _ _ Hy Hcy) as [? Hd']. split; [done|].
      destruct (vdata (bytes_ by')) as [l'|] eqn:?; [|done].
      rewrite lookup_delete_ne; [done|]. intros <-. by destruct (Hinj x y b by' l).
    + intros y z by' bz l' Hy Hz' Hly Hlz.
      destruct (decide (y = x)) as [->|]; simplify_map_eq.
      destruct (decide (z = x)) as [->|]; simplify_map_eq. by eapply Hinj.
    + intros l' Hl''. destruct (decide (l' = l)) as [->|]; [by rewrite lookup_delete_eq in Hl''; destruct Hl''|].
      rewrite lookup_delete_ne in Hl'' by done.
      destruct (Hown l' Hl'') as [? (y & by' & Hy & Hly)]. split; [done|].
      exists y, by'. split; [|done]. rewrite lookup_insert_ne; [done|]. intros <-. congruence.
    + apply Forall_app. split; [done|]. by repeat constructor.
  - simpl. exists w. split; [done|]. split; [done|].
    unfold with_objects. rewrite insert_id; [by destruct w|].
    rewrite Hb. f_equal. destruct b as [[d n]]. simpl in *. by subst.
Qed.

Lemma inv_remove w s x b :
  buffers_inv w s → objects w !! x = Some b → vdata (bytes_ b) = None →
  buffers_inv (with_objects (delete x) w) (delete x s).
Proof.
  intros ((Hdom & Hh) & (Hinj & Hown) & Hr) Hb Hl. split_and!; [split|split|done]; simpl.
  - by rewrite !dom_delete_L, Hdom.
  - intros y by' cy [_ Hy]%lookup_delete_Some [_ Hcy]%lookup_delete_Some. by eapply Hh.
  - intros y z by' bz l [_ Hy]%lookup_delete_Some [_ Hz]%lookup_delete_Some. by apply Hinj.
  - intros l Hl'. destruct (Hown l Hl') as [? (y & by' & Hy & Hly)]. split; [done|].
    exists y, by'. split; [|done]. rewrite lookup_delete_ne; [done|]. intros <-. congruence.
Qed.

(** A new object with a vector that owns nothing or a fresh block. *)
Lemma inv_add w s x :
  buffers_inv w s → s !! x = None →
  buffers_inv (with_objects <[x := MkSecureBuffer empty_vector]> w) (<[x := []]> s).
Proof.
  intros Hi Hx. pose proof (inv_no_object _ _ _ Hi Hx) as Hnx.
  destruct Hi as ((Hdom & Hh) & (Hinj & Hown) & Hr). split_and!; [split|split|done]; simpl.
  - by rewrite !dom_insert_L, Hdom.
  - intros y b cy Hy Hcy. destruct (decide (y = x)) as [->|]; simplify_map_eq; [done|].
    by eapply Hh.
  - intros y z by' bz l Hy Hz Hly Hlz.
    destruct (decide (y = x)) as [->|]; simplify_map_eq.
    destruct (decide (z = x)) as [->|]; simplify_map_eq. by eapply Hinj.
  - intros l Hl. destruct (Hown l Hl) as [? (y & b & Hy & Hly)]. split; [done|].
    exists y, b. split; [|done]. rewrite lookup_insert_ne; [done|]. congruence.
Qed.

Lemma inv_allocate w s x source :
  buffers_inv w s → s !! x = None → source ≠ [] →
  ∃ v w', vector_of source w = (Ok v, w') ∧ objects w' = objects w ∧
    buffers_inv (with_objects <[x := MkSecureBuffer v]> w') (<[x := source]> s).
Proof.
  intros Hi Hx Hs. pose proof (inv_no_object _ _ _ Hi Hx) as Hnx.
  destruct Hi as ((Hdom & Hh) & (Hinj & Hown) & Hr).
  assert (∀ l, is_Some (heap w !! l) → l ≠ next_block w) as Hfresh.
  { intros l Hl ->. destruct (Hown _ Hl). lia. }
  destruct source as [|b0 r]; [done|]. eexists _, _. split; [done|]. split; [done|].
  set (source := b0 :: r) in *. split_and!; [split|split|done]; simpl.
  - by rewrite !dom_insert_L, Hdom.
  - intros y b cy Hy Hcy. destruct (decide (y = x)) as [->|]; simplify_map_eq.
    + split; [done|]. simpl. exists []. rewrite lookup_insert_eq, app_nil_r. split; [done|constructor].
    + destruct (Hh _ _ _ Hy Hcy) as [? Hd]. split; [done|].
      destruct (vdata (bytes_ b)) as [l|]; [|done]. destruct Hd as (spare & Hl & Hz).
      exists spare. rewrite lookup_insert_ne; [done|]. apply not_eq_sym, Hfresh. by eexists.
  - assert (∀ y b c, objects w !! y = Some b → s !! y = Some c →
      vdata (bytes_ b) ≠ Some (next_block w)) as Hnot.
    { intros y b c Hy Hcy Hl. destruct (Hh _ _ _ Hy Hcy) as [_ Hd]. rewrite Hl in Hd.
      destruct Hd as (? & Hd & _). by apply (Hfresh (next_block w)). }
    assert (∀ y b, objects w !! y = Some b → vdata (bytes_ b) ≠ Some (next_block w)) as Hnot'.
    { intros y b Hy. assert (y ∈ dom s) as [c Hc]%elem_of_dom.
      { rewrite <- Hdom. by apply elem_of_dom_2 in Hy. } by eapply Hnot. }
    intros y z by' bz l Hy Hz Hly Hlz.
    destruct (decide (y = x)) as [->|], (decide (z = x)) as [->|]; simplify_map_eq; [done|..|by eapply Hinj].
    + by destruct (Hnot' z bz).
    + by destruct (Hnot' y by').
  - intros l Hl. destruct (decide (l = next_block w)) as [->|].
    + split; [lia|]. eexists x, _. by rewrite lookup_insert_eq.
    + rewrite lookup_insert_ne in Hl by done.
      destruct (Hown l Hl) as [? (y & b & Hy & Hly)]. split; [lia|].
      exists y, b. split; [|done]. rewrite lookup_insert_ne; [done|]. congruence.
Qed.

(** ** The operations *)

Lemma object_ok w x b : objects w !! x = Some b → object x w = (Ok b, w).
Proof. intros H. unfold object. by rewrite H. Qed.

Lemma storage_ok w s x : buffers_inv w s → s !! x = None → storage x w = (Ok tt, w).
Proof. intros Hi Hx. unfold storage. by rewrite (inv_no_object _ _ _ Hi Hx). Qed.

Lemma block_ok w l blk : heap w !! l = Some blk → block l w = (Ok blk, w).
Proof. intros H. unfold block. by rewrite H. Qed.

Lemma with_objects_id w x b : objects w !! x = Some b → with_objects <[x := b]> w = w.
Proof. intros H. unfold with_objects. rewrite insert_id by done. by destruct w. Qed.

Lemma clear_ok w s x c :
  buffers_inv w s → s !! x = Some c →
  ∃ w', buffer_clear x w = (Ok tt, w') ∧ buffers_inv w' (<[x := []]> s).
Proof.
  intros Hi Hx. destruct (inv_object _ _ _ _ Hi Hx) as (b & Hb & Hn & Hd).
  unfold buffer_clear. destruct (vdata (bytes_ b)) as [l|] eqn:Hl.
  - destruct Hd as (spare & Hblk & Hz). eexists. split.
    + eapply bind_run; [by apply object_ok|]. unfold erase_vector. rewrite Hl.
      eapply bind_run; [eapply bind_run; [by apply block_ok|done]|done].
    + rewrite Hn. unfold len. rewrite Nat2Z.id, take_app_length, drop_app_length.
      rewrite secure_erase_zeroes.
      apply (inv_set_block w s x b l c [] (replicate (length c) Byte.x00 ++ spare) Hi Hb Hx Hl).
      apply Forall_app. split; [apply zeroed_replicate|done].
  - subst c. exists w. split; [|by rewrite insert_id].
    eapply bind_run; [by apply object_ok|]. unfold erase_vector. rewrite Hl.
    eapply bind_run; [done|]. unfold set_object, modify.
    rewrite with_objects_id; [done|]. rewrite Hb. f_equal. destruct b as [[d n]].
    simpl in *. by subst.
Qed.

Lemma destroy_ok w s x c :
  buffers_inv w s → s !! x = Some c →
  ∃ w', buffer_destroy x w = (Ok tt, w') ∧ buffers_inv w' (delete x s).
Proof.
  intros Hi Hx. destruct (clear_ok _ _ _ _ Hi Hx) as (w1 & E1 & Hi1).
  assert (<[x := []]> s !! x = Some []) as Hx1 by apply lookup_insert_eq.
  destruct (inv_object _ _ _ _ Hi1 Hx1) as (b & Hb & _).
  destruct (inv_free _ _ _ _ Hi1 Hb Hx1) as (w2 & E2 & _ & Hi2).
  eexists. split.
  - eapply bind_run; [done|]. eapply bind_run; [by apply object_ok|]. by eapply bind_run.
  - apply (inv_remove _ _ x (MkSecureBuffer empty_vector)) in Hi2;
      [|by simpl; rewrite lookup_insert_eq|done].
    unfold with_objects in *. simpl in *. by rewrite !delete_insert_eq in Hi2.
Qed.

Lemma move_construct_ok w s x other c :
  buffers_inv w s → s !! x = None → s !! other = Some c →
  ∃ w', buffer_move_construct x other w = (Ok tt, w') ∧
    buffers_inv w' (<[other := []]> (<[x := c]> s)).
Proof.
  intros Hi Hx Ho. destruct (inv_object _ _ _ _ Hi Ho) as (o & Hob & _).
  assert (x ≠ other) as Hne by congruence.
  pose proof (inv_no_object _ _ _ Hi Hx) as Hnx.
  assert (∀ b, objects w !! x = Some b → vdata (bytes_ b) = None) as Hfree by congruence.
  destruct (clear_ok _ _ other [] (inv_steal _ _ x other o c Hi Hne Hob Ho Hfree))
    as (w1 & E1 & Hi1); [apply lookup_insert_eq|].
  exists w1. rewrite insert_insert_eq in Hi1. split; [|done].
  eapply bind_run; [by eapply storage_ok|]. eapply bind_run; [by apply object_ok|].
  eapply bind_run; [done|]. by eapply bind_run.
Qed.

Lemma move_assign_ok w s x other a c :
  buffers_inv w s → x ≠ other → s !! x = Some a → s !! other = Some c →
  ∃ w', buffer_move_assign x other w = (Ok tt, w') ∧
    buffers_inv w' (<[other := []]> (<[x := c]> s)).
Proof.
  intros Hi Hne Hx Ho. destruct (clear_ok _ _ _ _ Hi Hx) as (w1 & E1 & Hi1).
  assert (<[x := []]> s !! x = Some []) as Hx1 by apply lookup_insert_eq.
  destruct (inv_object _ _ _ _ Hi1 Hx1) as (b & Hb & _).
  assert (<[x := []]> s !! other = Some c) as Ho1 by by rewrite lookup_insert_ne.
  destruct (inv_object _ _ _ _ Hi1 Ho1) as (o & Hob & _).
  destruct (inv_free _ _ _ _ Hi1 Hb Hx1) as (w2 & E2 & Eo & Hi2).
  assert (objects (with_objects <[x := MkSecureBuffer empty_vector]> w2) !! other = Some o) as Hob2.
  { simpl. by rewrite lookup_insert_ne, Eo. }
  assert (∀ b', objects (with_objects <[x := MkSecureBuffer empty_vector]> w2) !! x = Some b' →
    vdata (bytes_ b') = None) as Hfree.
  { simpl. rewrite lookup_insert_eq. by intros b' [= <-]. }
  destruct (clear_ok _ _ other [] (inv_steal _ _ x other o c Hi2 Hne Hob2 Ho1 Hfree))
    as (w3 & E3 & Hi3); [apply lookup_insert_eq|].
  exists w3. rewrite !insert_insert_eq in Hi3. split; [|done].
  unfold buffer_move_assign. rewrite bool_decide_eq_false_2 by done.
  eapply bind_run; [done|]. eapply bind_run; [by apply object_ok|].
  eapply bind_run; [by apply object_ok|]. eapply bind_run; [done|].
  eapply bind_run; [done|]. eapply bind_run; [done|]. rewrite <- E3. f_equal.
  unfold with_objects. simpl. by rewrite insert_insert_eq.
Qed.

Lemma copy_from_ok w s x source maximum_size :
  buffers_inv w s → s !! x = None → source ≠ [] →
  maximum_size ≠ 0 → maximum_size ≤ hard_maximum_size → len source ≤ maximum_size →
  ∃ w', buffer_copy_from x source maximum_size w = (Ok tt, w') ∧
    buffers_inv w' (<[x := source]> s).
Proof.
  intros Hi Hx Hs Hm Hh Hl. unfold buffer_copy_from.
  destruct (Z.eqb_spec (len source) 0) as [E|_]; [by apply len_zero_inv in E|].
  destruct (Z.eqb_spec maximum_size 0); [done|].
  destruct (Z.ltb_spec hard_maximum_size maximum_size); [lia|]. simpl orb.
  destruct (Z.ltb_spec maximum_size (len source)); [lia|]. cbv iota.
  set (t := fresh ({[x]} ∪ dom (objects w))).
  assert (t ∉ ({[x]} ∪ dom (objects w) : gset nat)) as Ht by apply is_fresh.
  apply not_elem_of_union in Ht as [Htx Htd]. rewrite not_elem_of_singleton in Htx.
  assert (s !! t = None) as Hts.
  { destruct Hi as ((Hdom & _) & _). rewrite Hdom in Htd. by apply not_elem_of_dom. }
  apply not_elem_of_dom in Htd.
  destruct (inv_allocate _ _ t source Hi Hts Hs) as (v & w1 & E1 & Eo & Hi1).
  destruct (move_construct_ok _ _ x t source Hi1) as (w2 & E2 & Hi2);
    [by rewrite lookup_insert_ne|apply lookup_insert_eq|].
  destruct (destroy_ok _ _ t [] Hi2) as (w3 & E3 & Hi3); [apply lookup_insert_eq|].
  exists w3. split.
  - eapply bind_run; [by eapply storage_ok|]. eapply bind_run; [done|].
    eapply bind_run; [done|]. rewrite Eo. fold t.
    eapply bind_run; [|by eapply bind_run].
    eapply bind_run; [|done]. unfold storage. by rewrite Eo, Htd.
  - rewrite delete_insert_eq, delete_insert_ne, delete_insert_id in Hi3 by done. done.
Qed.

Lemma bytes_ok w s x c :
  buffers_inv w s → s !! x = Some c →
  buffer_bytes x w = (Ok c, w) ∧ buffer_size x w = (Ok (len c), w).
Proof.
  intros Hi Hx. destruct (inv_object _ _ _ _ Hi Hx) as (b & Hb & Hn & Hd). split.
  - unfold buffer_bytes. eapply bind_run; [by apply object_ok|].
    destruct (vdata (bytes_ b)) as [l|]; [|by subst].
    destruct Hd as (spare & Hblk & _). eapply bind_run; [by apply block_ok|].
    rewrite Hn. unfold len. by rewrite Nat2Z.id, take_app_length.
  - unfold buffer_size. eapply bind_run; [by apply object_ok|]. by rewrite Hn.
Qed.

Lemma write_ok w s x c index value :
  buffers_inv w s → s !! x = Some c → 0 ≤ index < len c →
  ∃ w', buffer_write x index value w = (Ok tt, w') ∧
    buffers_inv w' (<[x := <[Z.to_nat index := value]> c]> s).
Proof.
  intros Hi Hx Hr. destruct (inv_object _ _ _ _ Hi Hx) as (b & Hb & Hn & Hd).
  destruct (vdata (bytes_ b)) as [l|] eqn:Hl; [|exfalso; rewrite Hd in Hr; change (len []) with 0 in Hr; lia].
  destruct Hd as (spare & Hblk & Hz).
  pose proof (inv_set_block w s x b l c (<[Z.to_nat index := value]> c) spare Hi Hb Hx Hl Hz) as Hi'.
  eexists. split; [|exact Hi'].
  unfold buffer_write. eapply bind_run; [by apply object_ok|]. rewrite Hn.
  destruct (Z.leb_spec 0 index); [|lia]. destruct (Z.ltb_spec index (len c)); [|lia].
  simpl. rewrite Hl. eapply bind_run; [by apply block_ok|].
  unfold modify. f_equal. rewrite insert_app_l by (unfold len in Hr; lia).
  symmetry. apply with_objects_id. simpl. rewrite Hb. f_equal.
  destruct b as [[d n]]. simpl in *. subst. unfold len. by rewrite length_insert.
Qed.

(** Evaluate a step on values. *)
Ltac eval_step E :=
  cbv [value_step no_value value_of put modify lift mbind method_bind mret method_ret] in E;
  repeat match type of E with context [match ?s !! ?x with _ => _ end] =>
    destruct (s !! x) eqn:? end;
  try (injection E as <- <-).

Ltac run_step H := eapply bind_run; [exact H|reflexivity].

Lemma copy_from_refines w s x source maximum_size r s' :
  buffers_inv w s → value_step (OpCopyFrom x source maximum_size) s = (r, s') → r ≠ UB →
  ∃ w', buffer_step (OpCopyFrom x source maximum_size) w = (r, w') ∧ buffers_inv w' s'.
Proof.
  intros Hi E Hr. eval_step E; [done|]. cbn [buffer_step].
  destruct ((len source =? 0) || (maximum_size =? 0) || (hard_maximum_size <? maximum_size)) eqn:G1.
  { injection E as <- <-. exists w. split; [|done]. unfold mbind, method_bind, buffer_copy_from.
    unfold mbind, method_bind. by rewrite (storage_ok _ _ _ Hi Heqo), G1. }
  destruct (maximum_size <? len source) eqn:G2.
  { injection E as <- <-. exists w. split; [|done]. unfold mbind, method_bind, buffer_copy_from.
    unfold mbind, method_bind. by rewrite (storage_ok _ _ _ Hi Heqo), G1, G2. }
  injection E as <- <-.
  apply orb_false_iff in G1 as [[G3 G4]%orb_false_iff G5]. apply Z.eqb_neq in G3, G4.
  apply Z.ltb_ge in G5, G2.
  destruct (copy_from_ok w s x source maximum_size Hi Heqo) as (w' & E & Hi'); [|done..|].
  - intros ->. by apply G3.
  - exists w'. split; [run_step E|done].
Qed.

(** Every step that is defined on values is defined on buffers, with the same answer. *)
Lemma step_refines w s op r s' :
  buffers_inv w s → value_step op s = (r, s') → r ≠ UB →
  ∃ w', buffer_step op w = (r, w') ∧ buffers_inv w' s'.
Proof.
  intros Hi E Hr. destruct op as [x|x source m|x o|x o|x|x|x|x|x|x i v];
    [|by eapply copy_from_refines|..]; eval_step E; try done; cbn [buffer_step].
  - eexists. split; [|by apply inv_add].
    eapply bind_run; [|done]. eapply bind_run; [by eapply storage_ok|done].
  - edestruct (move_construct_ok w s x o) as (w' & Ew & Hi'); [done..|].
    exists w'. split; [run_step Ew|done].
  - destruct (decide (x = o)) as [->|Hne].
    + rewrite bool_decide_eq_true_2 in E by done. injection E as <- <-. exists w. split; [|done].
      destruct (inv_object _ _ _ _ Hi Heqo0) as (b & Hb & _). unfold buffer_move_assign.
      rewrite bool_decide_eq_true_2 by done.
      eapply bind_run; [|done]. eapply bind_run; [by apply object_ok|done].
    + rewrite bool_decide_eq_false_2 in E by done. injection E as <- <-.
      edestruct (move_assign_ok w s x o) as (w' & Ew & Hi'); [done..|].
      exists w'. split; [run_step Ew|done].
  - edestruct (clear_ok w s x) as (w' & Ew & Hi'); [done..|]. exists w'. split; [run_step Ew|done].
  - edestruct (destroy_ok w s x) as (w' & Ew & Hi'); [done..|].
    exists w'. split; [run_step Ew|done].
  - edestruct (bytes_ok w s x) as [_ Ew]; [done..|]. exists w. split; [run_step Ew|done].
  - edestruct (bytes_ok w s x) as [_ Ew]; [done..|]. exists w. split; [|done].
    eapply bind_run; [|done]. run_step Ew.
  - edestruct (bytes_ok w s x) as [Ew _]; [done..|]. exists w. split; [run_step Ew|done].
  - destruct ((0 <=? i) && (i <? len l)) eqn:G; injection E as <- <-; [|done].
    edestruct (write_ok w s x l i v) as (w' & Ew & Hi'); [done..|lia|].
    exists w'. split; [run_step Ew|done].
Qed.

Lemma program_refines ops w s :
  buffers_inv w s → Forall (λ r, r ≠ UB) (run_program value_step ops s).1 →
  (run_program buffer_step ops w).1 = (run_program value_step ops s).1 ∧
  buffers_inv (run_program buffer_step ops w).2 (run_program value_step ops s).2.
Proof.
  revert w s. induction ops as [|op ops IH]; intros w s Hi; [done|]. simpl.
  destruct (value_step op s) as [r s'] eqn:E.
  destruct (run_program value_step ops s') as [rs s''] eqn:Es. intros [Hr Hrs]%Forall_cons.
  destruct (step_refines _ _ _ _ _ Hi E Hr) as (w' & -> & Hi').
  destruct (IH w' s' Hi') as [H1 H2]; rewrite Es in *; [done|].
  destruct (run_program buffer_step ops w'). simpl in *. by subst.
Qed.
End Invariant.

(** ** Comparison *)

(** The accesses of a comparison of two ranges of [n] bytes, from [index] on. *)
Fixpoint compare_trace (n : nat) (index : Z) : list access :=
  match n with
  | O => []
  | S n' => AccessLeft index :: AccessRight index :: compare_trace n' (index + 1)
  end.

Lemma lxor_byte_zero a b : Z.lxor (to_Z a) (to_Z b) = 0 ↔ a = b.
Proof. rewrite Z.lxor_eq_0_iff. split; [apply to_Z_inj|by intros ->]. Qed.

Lemma lor_byte_range d a b :
  0 ≤ d < 256 → 0 ≤ Z.lor d (Z.lxor (to_Z a) (to_Z b)) < 256.
Proof.
  intros Hd. pose proof (to_Z_range a) as Ha. pose proof (to_Z_range b) as Hb.
  assert (∀ z, 0 ≤ z < 256 → z = Z.land z (Z.ones 8)) as Hones.
  { intros z Hz. rewrite Z.land_ones, Z.mod_small by lia. done. }
  assert (Z.lor d (Z.lxor (to_Z a) (to_Z b)) =
    Z.land (Z.lor d (Z.lxor (to_Z a) (to_Z b))) (Z.ones 8)) as ->.
  { rewrite Z.land_lor_distr_l, <- Hones by done. f_equal.
    apply Z.bits_inj'. intros i Hi. rewrite (Hones _ Ha), (Hones _ Hb).
    rewrite !Z.land_spec, !Z.lxor_spec, !Z.land_spec.
    by destruct (Z.testbit (Z.ones 8) i), (Z.testbit (to_Z a) i), (Z.testbit (to_Z b) i). }
  rewrite Z.land_ones by lia. apply Z.mod_pos_bound. lia.
Qed.

Lemma compare_loop_spec {E} fuel (a b l r : list byte) d tr :
  in_memory (a ++ l) → length a = length b → length l = length r → (length l < fuel)%nat →
  0 ≤ d < 256 →
  ∃ d', compare_loop (E:=E) fuel (a ++ l) (b ++ r) (len a) d tr =
    (Ok d', tr ++ compare_trace (length l) (len a)) ∧
    (d' = 0 ↔ d = 0 ∧ l = r).
Proof.
  revert a b l r d tr. induction fuel as [|fuel IH]; intros a b l r d tr Hm Hab Hlr Hf Hd; [lia|].
  destruct l as [|x l], r as [|y r]; try done; cbn [compare_loop compare_trace length].
  { exists d. rewrite app_nil_r. destruct (Z.ltb_spec (len a) (len a)); [lia|].
    rewrite app_nil_r. split; [done|]. clear. split; [by intros ->|by intros [-> _]]. }
  destruct (Z.ltb_spec (len a) (len (a ++ x :: l))); [|exfalso; len_lia].
  unfold mbind, method_bind, traced_at, mbind, method_bind, modify, lift.
  rewrite index_at_app_r.
  assert (index_at (b ++ y :: r) (len a) = Ok y) as ->.
  { intros. replace (len a) with (len b) by (unfold len; lia). apply index_at_app_r. }
  rewrite wrap_small with (w := 8) by (apply lor_byte_range; done).
  size_norm. rewrite (cons_middle x), (cons_middle y), !app_assoc.
  replace (len a + 1) with (len (a ++ [x])) by (by rewrite len_app).
  edestruct (IH (a ++ [x]) (b ++ [y]) l r) as (d' & Ed & Hd').
  - rewrite <- app_assoc. exact Hm.
  - rewrite !length_app. simpl. lia.
  - simpl in Hlr. lia.
  - simpl in Hf. lia.
  - by apply lor_byte_range.
  - exists d'. rewrite Ed, <- !app_assoc. split; [done|].
    rewrite Hd', Z.lor_eq_0_iff, lxor_byte_zero. clear.
    split; [by intros [[-> ->] ->]|by intros [-> [= -> ->]]].
Qed.

Lemma constant_time_equal_spec {E} (l r : list byte) tr :
  in_memory l →
  constant_time_equal (E:=E) l r tr =
  (Ok (bool_decide (l = r)),
   tr ++ if len l =? len r then compare_trace (length l) 0 else []).
Proof.
  intros Hm. unfold constant_time_equal. destruct (Z.eqb_spec (len l) (len r)) as [Hl|Hl]; simpl.
  - destruct (compare_loop_spec (E:=E) (S (length l)) [] [] l r 0 tr) as (d & Ed & Hd);
      [done|done|unfold len in Hl; lia|lia..|].
    eapply bind_run; [exact Ed|]. unfold mret, method_ret. do 2 f_equal.
    destruct (Z.eqb_spec d 0); symmetry;
      [apply bool_decide_eq_true; by apply Hd|apply bool_decide_eq_false].
    intros ->. by apply n, Hd.
  - rewrite app_nil_r. unfold mret, method_ret. do 2 f_equal. symmetry.
    apply bool_decide_eq_false. by intros ->.
Qed.

(** ** Properties *)

Lemma initial_inv : buffers_inv initial_world ∅.
Proof.
  split_and!; [split|split|by apply Forall_nil]; simpl; [by rewrite !dom_empty_L|done|done|].
  intros l [? Hl]. by rewrite lookup_empty in Hl.
Qed.

(** C11. A program over buffers is a program over values: whenever the value semantics
    (a move takes the bytes and leaves an empty buffer, self-assignment keeps them,
    [copy_from] accepts exactly the bounded non-empty secrets) is defined on every
    step, the buffers give the same answers, errors included, without undefined
    behaviour, and they hold those values. *)
Theorem secure_buffer_refines_values {SE : SecureErase} ops :
  SecureEraseLaws SE →
  Forall (λ r, r ≠ UB) (run_program value_step ops ∅).1 →
  (run_program buffer_step ops initial_world).1 = (run_program value_step ops ∅).1 ∧
  objects_hold (run_program buffer_step ops initial_world).2 (run_program value_step ops ∅).2.
Proof.
  intros SEL Hops. destruct (program_refines ops initial_world ∅ initial_inv Hops) as [H1 H2].
  split; [done|apply H2].
Qed.

(** A secret is copied, moved twice, overwritten by self-assignment and destroyed. *)
Definition sample_program : list buffer_op :=
  [OpCopyFrom 0 (bytes_of [16; 32; 48]) default_maximum_size; OpMoveConstruct 1 0; OpIsEmpty 0;
   OpWrite 1 1 Byte.xff; OpCopyFrom 2 (bytes_of [7]) 1; OpMoveAssign 2 1; OpMoveAssign 2 2;
   OpBytes 2; OpCopyFrom 3 (bytes_of [1; 2; 3]) 2; OpDestroy 0; OpDestroy 1; OpDestroy 2].

Example secure_buffer_refines_values_witness :
  let SE := posix_erase zero_memory in
  (run_program (buffer_step (SE:=SE)) sample_program initial_world).1 =
    (run_program value_step sample_program ∅).1 ∧
  objects_hold (run_program (buffer_step (SE:=SE)) sample_program initial_world).2
    (run_program value_step sample_program ∅).2.
Proof.
  apply (secure_buffer_refines_values (SE:=posix_erase zero_memory) sample_program).
  - by apply posix_erase_laws.
  - vm_compute. repeat constructor; discriminate.
Defined.

(** C10. Nothing secret is ever released, leaked or left behind: after any defined
    program, every block returned to the allocator was all zeros at that moment, every
    live block belongs to exactly one buffer and holds its bytes followed by zeros
    only, and once no buffer is alive no block is. *)
Theorem secure_buffer_erased_on_release {SE : SecureErase} ops :
  SecureEraseLaws SE →
  Forall (λ r, r ≠ UB) (run_program value_step ops ∅).1 →
  let w := (run_program buffer_step ops initial_world).2 in
  Forall zeroed (released w) ∧
  (∀ l blk, heap w !! l = Some blk →
     ∃ x b spare, objects w !! x = Some b ∧ vdata (bytes_ b) = Some l ∧
       (∀ y o, objects w !! y = Some o → vdata (bytes_ o) = Some l → y = x) ∧
       blk = take (Z.to_nat (vsize (bytes_ b))) blk ++ spare ∧ zeroed spare) ∧
  (objects w = ∅ → heap w = ∅).
Proof.
  intros SEL Hops w.
  destruct (program_refines ops initial_world ∅ initial_inv Hops) as [_ Hi]. fold w in Hi.
  pose proof Hi as ((Hdom & Hh) & (Hinj & Hown) & Hr). split_and!; [done| |].
  - intros l blk Hl. destruct (Hown l) as [_ (x & b & Hx & Hb)]; [by eexists|].
    assert (x ∈ dom (objects w)) as Hd by (by apply elem_of_dom_2 in Hx).
    rewrite Hdom in Hd. apply elem_of_dom in Hd as [c Hc].
    destruct (Hh _ _ _ Hx Hc) as [Hn Hv]. rewrite Hb, Hl in Hv.
    destruct Hv as (spare & [= ->] & Hz). exists x, b, spare. split_and!; [done..| | |done].
    + intros y o Hy Ho. by eapply Hinj.
    + rewrite Hn. unfold len. by rewrite Nat2Z.id, take_app_length.
  - intros Ho. apply map_empty. intros l. destruct (heap w !! l) eqn:Hl; [|done].
    destruct (Hown l) as [_ (x & b & Hx & _)]; [by eexists|]. by rewrite Ho in Hx.
Qed.

Example secure_buffer_erased_on_release_witness :
  let w := (run_program (buffer_step (SE:=windows_erase zero_memory)) sample_program
              initial_world).2 in
  length (released w) = 2%nat ∧ Forall zeroed (released w).
Proof.
  split; [by vm_compute|].
  apply (secure_buffer_erased_on_release (SE:=windows_erase zero_memory) sample_program).
  - by apply windows_erase_laws.
  - vm_compute. repeat constructor; discriminate.
Defined.

(** C34. The comparison is exact and content-independent: it terminates, answers
    whether the two ranges are equal without an out-of-range access, and the memory
    accesses it makes are a function of the two lengths alone. *)
Theorem constant_time_equal_exact {E} (left right : list byte) tr :
  in_memory left →
  constant_time_equal (E:=E) left right tr =
  (Ok (bool_decide (left = right)),
   tr ++ if len left =? len right then compare_trace (length left) 0 else []).
Proof. apply constant_time_equal_spec. Qed.

Example constant_time_equal_exact_witness :
  constant_time_equal (E:=unit) (bytes_of [1; 2]) (bytes_of [9; 2]) [] =
  (Ok (bool_decide (bytes_of [1; 2] = bytes_of [9; 2])),
   [] ++ [AccessLeft 0; AccessRight 0; AccessLeft 1; AccessRight 1]).
Proof. apply (constant_time_equal_exact (E:=unit) (bytes_of [1; 2]) (bytes_of [9; 2])). by_compute. Defined.
