(* ===== verification/AuthTlv.v ===== *)
(** * Authentication tags in VSP1 extensions

    [include/vosp/security/protocol.hpp]. *)

From stdpp Require Import prelude list strings.
From Stdlib Require Import ZArith Lia.
From S2P Require Import Prelude Errors Types.
Import Security.

Definition default_maximum_authentication_tag_size : Z := 4096.

Definition authentication_extension (tag : list byte) (maximum_size : Z) :
    outcome SecurityError Extension :=
  if (len tag =? 0) || (maximum_size =? 0)
     || (default_maximum_authentication_tag_size <? maximum_size) then
    Fail (security_error sec_invalid_argument "authentication tag limit is invalid")
  else if maximum_size <? len tag then
    Fail (security_error sec_limit_exceeded "authentication tag exceeds its limit")
  else Ok (MkExtension (extension_id_value authentication) tag).

Definition authentication_tag (extension : Extension) : outcome SecurityError (list byte) :=
  if negb (id_ extension =? extension_id_value authentication)
     || (len (value_ extension) =? 0) then
    Fail (security_error sec_invalid_extension "extension is not an authentication tag")
  else Ok (value_ extension).

Lemma authentication_extension_inv tag maximum_size e :
  authentication_extension tag maximum_size = Ok e →
  e = MkExtension (extension_id_value authentication) tag ∧
  0 < len tag ≤ maximum_size ∧ maximum_size ≤ 4096.
Proof.
  unfold authentication_extension, default_maximum_authentication_tag_size.
  pose proof (len_nonneg tag). destruct (Z.eqb_spec (len tag) 0); [done|].
  destruct (Z.eqb_spec maximum_size 0); [done|]. destruct (Z.ltb_spec 4096 maximum_size); [done|].
  simpl. destruct (Z.ltb_spec maximum_size (len tag)); [done|]. intros [= <-]. split; [done|lia].
Qed.

Lemma authentication_tag_of tag :
  0 < len tag →
  authentication_tag (MkExtension (extension_id_value authentication) tag) = Ok tag.
Proof.
  intros Hl. unfold authentication_tag. simpl. by destruct (Z.eqb_spec (len tag) 0); [lia|].
Qed.

Lemma authentication_extension_wf tag maximum_size e :
  authentication_extension tag maximum_size = Ok e → extension_wf e.
Proof.
  intros (-> & ? & ?)%authentication_extension_inv. unfold extension_wf. simpl. len_lia.
Qed.

(** ** Properties *)

(** The two helpers are inverse and bounded: an extension is built exactly for a
    non-empty tag within a limit of 1 to 4096 bytes, and then the tag read back from it
    is the tag given; conversely every tag that is read comes from an extension with
    the authentication id, and rebuilding the extension of a tag within the limit gives
    the extension it was read from. *)
Theorem authentication_tag_roundtrip (tag : list byte) maximum_size e :
  (authentication_extension tag maximum_size = Ok e ↔
     0 < len tag ≤ maximum_size ∧ maximum_size ≤ default_maximum_authentication_tag_size ∧
     e = MkExtension (extension_id_value authentication) tag) ∧
  (authentication_tag e = Ok tag ↔
     0 < len tag ∧ e = MkExtension (extension_id_value authentication) tag) ∧
  (authentication_extension tag maximum_size = Ok e → authentication_tag e = Ok tag) ∧
  (authentication_tag e = Ok tag →
     0 < len tag ≤ maximum_size ∧ maximum_size ≤ default_maximum_authentication_tag_size →
     authentication_extension tag maximum_size = Ok e).
Proof.
  assert (authentication_extension tag maximum_size = Ok e ↔
     0 < len tag ≤ maximum_size ∧ maximum_size ≤ default_maximum_authentication_tag_size ∧
     e = MkExtension (extension_id_value authentication) tag) as Hext.
  { split; [by intros (-> & [? ?] & ?)%authentication_extension_inv; split_and!|].
    unfold authentication_extension. intros (? & ? & ->).
    destruct (Z.eqb_spec (len tag) 0); [lia|]. destruct (Z.eqb_spec maximum_size 0); [lia|].
    destruct (Z.ltb_spec default_maximum_authentication_tag_size maximum_size); [lia|].
    simpl. by destruct (Z.ltb_spec maximum_size (len tag)); [lia|]. }
  assert (authentication_tag e = Ok tag ↔
     0 < len tag ∧ e = MkExtension (extension_id_value authentication) tag) as Htag.
  { split; [|intros [? ->]; by apply authentication_tag_of].
    unfold authentication_tag. destruct e as [i v]. cbn [id_ value_].
    destruct (Z.eqb_spec i (extension_id_value authentication)) as [->|]; [|done]. cbn [negb orb].
    destruct (Z.eqb_spec (len v) 0); [done|]. intros [= <-].
    pose proof (len_nonneg v). split; [lia|done]. }
  split_and!; [done|done| |].
  - intros (? & ? & ->)%Hext. apply authentication_tag_of. lia.
  - intros [? ->]%Htag [? ?]. by apply Hext.
Qed.

Example authentication_tag_roundtrip_witness :
  let tag := bytes_of [16; 32] in
  authentication_tag (MkExtension 4 tag) = Ok tag.
Proof.
  apply (authentication_tag_roundtrip (bytes_of [16; 32]) 4096 (MkExtension 4 (bytes_of [16; 32]))).
  by vm_compute.
Defined.
