(* ===== verification/Pipeline.v ===== *)
(** * The components together

    The composition of [docs/ARCHITECTURE.md]: an application value goes through a
    payload codec, gets an authentication tag, is framed, crosses a byte stream in
    arbitrary pieces, is reassembled and read back.  The theorem is proved against the
    interface [PayloadCodec], so it holds for the text and the byte codec and for every
    codec of an application that satisfies the two laws. *)

From stdpp Require Import prelude list strings.
From Stdlib Require Import ZArith Lia.
From S2P Require Import Prelude Errors Types Frame FrameFacts Stream StreamFacts Text AuthTlv.
Import Protocol.

(** What the application hands over: the header fields and other extensions of the
    message, the value and the tag its provider computed. *)
Record packet (V : Type) := MkPacket { template : Message; value : V; tag : list byte }.
Arguments MkPacket {V}.
Arguments template {V}.
Arguments value {V}.
Arguments tag {V}.

(** The message with an authentication extension appended and the encoded payload. *)
Definition attach (m : Message) (e : Extension) (payload : list byte) : Message :=
  MkMessage (version_ m) (type_ m) (correlation_id_ m) (flags_ m) (extensions_ m ++ [e]) payload.

Section Pipeline.
Context {EM : ErrorModel} {V : Type} {C : PayloadCodec V}.

(** The sender's calls succeed and produce these frame bytes. *)
Definition sent (l : Limits) (p : packet V) (bytes : list byte) : Prop :=
  ∃ payload e,
    payload_encode (value p) = Ok payload ∧ in_memory payload ∧
    authentication_extension (tag p) default_maximum_authentication_tag_size = Ok e ∧
    encode l (attach (template p) e payload) = Ok bytes.

(** What the receiver reads from a message. *)
Definition opens (m : Message) (p : packet V) : Prop :=
  payload_decode (payload_ m) = Ok (value p) ∧
  ∃ e, last (extensions_ m) = Some e ∧ authentication_tag e = Ok (tag p).

(** A template the C++ types can hold, with room for one more extension. *)
Definition template_wf (m : Message) : Prop :=
  message_wf m ∧ len (extensions_ m) + 1 ≤ ptrdiff_max.

Context {CL : PayloadCodecLaws C}.

Lemma sent_message l p bytes :
  limits_wf l → limits_valid l = true → template_wf (template p) → sent l p bytes →
  ∃ m, sendable l m ∧ bytes = frame_wire m ∧ opens m p.
Proof.
  intros Hlw Hlv [Hm Hc] (payload & e & Hp & Hpm & He & Henc).
  set (m := attach (template p) e payload) in *.
  assert (message_wf m) as Hwf.
  { destruct Hm as (? & ? & ? & ? & ? & ? & ?). unfold message_wf. simpl.
    split_and!; try done; [lia..| |].
    - apply Forall_app. split; [done|]. apply Forall_singleton.
      by eapply authentication_extension_wf.
    - len_lia. }
  exists m. destruct (encode_spec l m Hlw Hlv Hwf) as [[Hf Hx]|[_ [msg Hx]]];
    rewrite Hx in Henc; [|discriminate Henc].
  injection Henc as <-. split; [done|]. split; [done|]. split.
  - by apply payload_roundtrip.
  - exists e. split; [apply last_snoc|].
    destruct (authentication_extension_inv _ _ _ He) as (-> & ? & _).
    apply authentication_tag_of. lia.
Qed.

Lemma sent_messages l ps frames :
  limits_wf l → limits_valid l = true → Forall (λ p, template_wf (template p)) ps →
  Forall2 (sent l) ps frames →
  ∃ ms, Forall (sendable l) ms ∧ concat frames = frames_wire ms ∧ Forall2 opens ms ps.
Proof.
  intros Hlw Hlv Hps Hs. induction Hs as [|p f ps frames Hp Hs IH]; [by exists []|].
  apply Forall_cons in Hps as [Hp' Hps].
  destruct (sent_message _ _ _ Hlw Hlv Hp' Hp) as (m & Hm & -> & Ho).
  destruct (IH Hps) as (ms & Hms & Hcat & Hos). exists (m :: ms).
  split_and!; [by constructor| |by constructor]. by rewrite frames_wire_cons, <- Hcat.
Qed.
End Pipeline.

(** ** Property *)

(** C5. End to end delivery: for every payload codec that satisfies the codec laws,
    when the sender's calls succeed for a sequence of packets and the concatenated
    frames reach the receiver cut into any pieces that fit the buffer, the receiver
    obtains one message per packet, in order, whose payload decodes to the value sent
    and whose last extension yields the tag sent, and its decoder is left empty. *)
Theorem pipeline_delivers {EM : ErrorModel} {V} {C : PayloadCodec V}
    (l : Limits) (ps : list (packet V)) frames chunks :
  PayloadCodecLaws C → stream_limits_ok l →
  Forall (λ p, template_wf (template p)) ps → Forall2 (sent l) ps frames →
  concat chunks = concat frames →
  Forall (λ c, len c ≤ max_buffered_bytes l - max_frame_size l) chunks →
  ∃ ms d', receive chunks (new_stream l) = (Ok ms, d') ∧ buffered_size d' = 0 ∧
    Forall2 opens ms ps.
Proof.
  intros CL Hl Hps Hs Hcat Hch. pose proof Hl as (Hlw & Hlv & _).
  destruct (sent_messages l ps frames Hlw Hlv Hps Hs) as (ms & Hms & Hw & Ho).
  rewrite Hw in Hcat.
  destruct (receive_fresh l ms chunks Hl Hms Hch Hcat) as (d' & E & Hb). by exists ms, d'.
Qed.

(** Two text messages with two-byte tags, delivered in three pieces. *)
Definition sample_packet : packet (list byte) :=
  MkPacket sample_message (bytes_of [226; 130; 172]) (bytes_of [16; 32]).

Definition sample_packet_frame : list byte :=
  frame_wire (attach sample_message (MkExtension 4 (bytes_of [16; 32])) (bytes_of [226; 130; 172])).

Lemma sample_template_wf : template_wf (template sample_packet).
Proof. split; [apply sample_message_wf|by_compute]. Qed.

Lemma sample_sent :
  sent (EM:=Model) (C:=utf8_payload (EM:=Model) (MkUtf8Codec utf8_default_limit))
    default_limits sample_packet sample_packet_frame.
Proof.
  exists (bytes_of [226; 130; 172]), (MkExtension 4 (bytes_of [16; 32])).
  split_and!; [by vm_compute|by_compute|by vm_compute|by vm_compute].
Qed.

Example pipeline_delivers_witness :
  let f := sample_packet_frame in
  ∃ ms d', receive (EM:=Model) [take 9 f; drop 9 f ++ take 5 f; drop 5 f]
      (new_stream default_limits) = (Ok ms, d') ∧ buffered_size d' = 0 ∧
    Forall2 (opens (EM:=Model) (C:=utf8_payload (EM:=Model) (MkUtf8Codec utf8_default_limit)))
      ms [sample_packet; sample_packet].
Proof.
  apply (pipeline_delivers (EM:=Model) (C:=utf8_payload (EM:=Model) (MkUtf8Codec utf8_default_limit))
    default_limits [sample_packet; sample_packet] [sample_packet_frame; sample_packet_frame]).
  - apply utf8_payload_laws.
  - unfold stream_limits_ok. split_and!; [apply default_limits_wf|by_compute..].
  - pose proof sample_template_wf. by repeat (apply Forall_cons; split || apply Forall_nil).
  - pose proof sample_sent. by repeat (apply Forall2_cons; split || apply Forall2_nil).
  - by vm_compute.
  - repeat constructor; by_compute.
Defined.
