(* ===== verification/Transport.v ===== *)
(** * Transport: errors, types and the platform interface

    [include/vosp/transport/error.hpp], [types.hpp] and
    [src/transport/socket_platform.hpp].  The functions that [socket_platform.hpp]
    declares and the platform files define are the class [SocketPlatform]; what TCP and
    UDP rely on is the class [SocketPlatformLaws].  [Posix.v] and [Windows.v] translate
    the two implementations and prove the laws from those of the operating system. *)

From stdpp Require Import prelude gmap sets list strings.
From Stdlib Require Import ZArith Lia.
From S2P Require Import Prelude Errors.

(** ** Errors *)
Inductive TransportErrorCode :=
| net_invalid_argument
| net_address_resolution_failed
| net_socket_creation_failed
| net_option_failed
| net_bind_failed
| net_listen_failed
| net_accept_failed
| net_connect_failed
| net_send_failed
| net_receive_failed
| net_peer_closed
| net_not_connected
| net_retry_limit_exceeded
| net_datagram_too_large
| net_platform_initialization_failed
| net_unlisted (value : Z).

(** The enumeration has a fixed underlying type: [static_cast<ErrorCode>] keeps a value
    with no enumerator, here [net_unlisted].  The two casts: *)
Definition net_code_value (code : TransportErrorCode) : Z :=
  match code with
  | net_invalid_argument => 1
  | net_address_resolution_failed => 2
  | net_socket_creation_failed => 3
  | net_option_failed => 4
  | net_bind_failed => 5
  | net_listen_failed => 6
  | net_accept_failed => 7
  | net_connect_failed => 8
  | net_send_failed => 9
  | net_receive_failed => 10
  | net_peer_closed => 11
  | net_not_connected => 12
  | net_retry_limit_exceeded => 13
  | net_datagram_too_large => 14
  | net_platform_initialization_failed => 15
  | net_unlisted value => value
  end.

Definition net_code_of (value : Z) : TransportErrorCode :=
  match value with
  | 1 => net_invalid_argument
  | 2 => net_address_resolution_failed
  | 3 => net_socket_creation_failed
  | 4 => net_option_failed
  | 5 => net_bind_failed
  | 6 => net_listen_failed
  | 7 => net_accept_failed
  | 8 => net_connect_failed
  | 9 => net_send_failed
  | 10 => net_receive_failed
  | 11 => net_peer_closed
  | 12 => net_not_connected
  | 13 => net_retry_limit_exceeded
  | 14 => net_datagram_too_large
  | 15 => net_platform_initialization_failed
  | _ => net_unlisted value
  end.

Record TransportError := MkTransportError {
  net_code : TransportErrorCode;
  net_native_code : Z;
  net_message : string
}.

#[export] Instance TransportErrorCode_eq_decision : EqDecision TransportErrorCode.
Proof. solve_decision. Defined.
#[export] Instance TransportError_eq_decision : EqDecision TransportError.
Proof. solve_decision. Defined.

(** [Error(std::uint32_t, std::string)]: no native code. *)
Definition net_error_of (code : Z) (message : string) : TransportError :=
  MkTransportError (net_code_of code) 0 message.

(** [vosp::transport::Model] *)
Definition TransportModel : ErrorModel :=
  {| error_type := TransportError;
     make_error := λ code message, net_error_of (wrap 32 code) message |}.

(** Through [code()] an error built from a number gives that number back. *)
Lemma net_code_roundtrip v : net_code_value (net_code_of v) = v.
Proof.
  destruct v as [|p|p]; [done| |done]. do 4 (destruct p as [p|p|]; try done).
Qed.

(** [detail::failure] *)
Definition net_failure {A} (code : TransportErrorCode) (message : string) (native_code : Z) :
    outcome TransportError A :=
  Fail (MkTransportError code native_code message).

(** ** Types *)
Record IpEndpoint := MkIpEndpoint { host_ : string; port_ : Z }.

Definition endpoint_valid (e : IpEndpoint) : bool := negb (bool_decide (host_ e = EmptyString)).

#[export] Instance IpEndpoint_eq_decision : EqDecision IpEndpoint.
Proof. solve_decision. Defined.

(** Durations are in milliseconds, 64-bit signed. *)
Record IoOptions := MkIoOptions { receive_timeout : Z; send_timeout : Z }.

Definition default_io_options : IoOptions := MkIoOptions 0 0.

Definition io_options_valid (o : IoOptions) : bool :=
  (0 <=? receive_timeout o) && (0 <=? send_timeout o).

Definition hard_attempt_limit : Z := 1024.

Record ReconnectPolicy := MkReconnectPolicy {
  max_attempts : Z;
  initial_delay : Z;
  maximum_delay : Z
}.

Definition default_reconnect_policy : ReconnectPolicy := MkReconnectPolicy 3 10 1000.

Definition reconnect_policy_valid (p : ReconnectPolicy) : bool :=
  (0 <? max_attempts p) && (max_attempts p <=? hard_attempt_limit) &&
  (0 <=? initial_delay p) && (initial_delay p <=? maximum_delay p).

Record Datagram := MkDatagram { datagram_endpoint : IpEndpoint; datagram_payload : list byte }.

(** ** Handles and addresses *)
Inductive SocketType := stream_type | datagram_type.

Definition invalid_value : Z := size_max.

Record NativeSocket := MkNativeSocket { sock_value : Z }.

Definition invalid_socket : NativeSocket := MkNativeSocket invalid_value.

Definition socket_valid (s : NativeSocket) : bool := negb (sock_value s =? invalid_value).

Definition storage_size : Z := 128.

Record NativeAddress := MkNativeAddress {
  addr_storage : list byte;
  addr_size : Z;
  addr_family : Z
}.

Record AcceptedSocket := MkAcceptedSocket {
  accepted_socket : NativeSocket;
  accepted_remote : NativeAddress
}.

Record ReceivedDatagram := MkReceivedDatagram {
  received_remote : NativeAddress;
  received_size : Z
}.

Definition address_wf (a : NativeAddress) : Prop :=
  len (addr_storage a) = storage_size ∧ 0 ≤ addr_size a ≤ storage_size.

(** ** The platform interface

    [W] is the state of the operating system.  A function that fills a caller's span
    takes the span's contents and returns the new ones. *)
Class SocketPlatform (W : Type) := {
  resolve : IpEndpoint → SocketType → bool → method W TransportError (list NativeAddress);
  to_endpoint : NativeAddress → method W TransportError IpEndpoint;
  create_socket : NativeAddress → SocketType → method W TransportError NativeSocket;
  apply_options : NativeSocket → IoOptions → method W TransportError unit;
  set_reuse_address : NativeSocket → method W TransportError unit;
  connect_socket : NativeSocket → NativeAddress → method W TransportError unit;
  bind_socket : NativeSocket → NativeAddress → method W TransportError unit;
  listen_socket : NativeSocket → Z → method W TransportError unit;
  accept_socket : NativeSocket → method W TransportError AcceptedSocket;
  local_address : NativeSocket → method W TransportError NativeAddress;
  send_socket : NativeSocket → list byte → method W TransportError Z;
  receive_socket : NativeSocket → list byte → method W TransportError (Z * list byte);
  send_datagram : NativeSocket → NativeAddress → list byte → method W TransportError Z;
  receive_datagram :
    NativeSocket → list byte → method W TransportError (ReceivedDatagram * list byte);
  close_socket : NativeSocket → method W TransportError NativeSocket
}.

(** What can be observed of the operating system: the open handles, and the bytes that
    were accepted for sending on each. *)
Class SocketGhost (W : Type) := {
  open_handles : W → gset Z;
  sent_bytes : W → Z → list byte
}.

Section Laws.
Context {W : Type} {G : SocketGhost W}.

(** Neither the open handles nor what was sent change. *)
Definition keeps (w w' : W) : Prop :=
  open_handles w' = open_handles w ∧ ∀ h, sent_bytes w' h = sent_bytes w h.

(** The call is defined, keeps the observable state, and a result satisfies [P]. *)
Definition settles {A} (w : W) (P : A → Prop) (r : outcome TransportError A * W) : Prop :=
  match r with
  | (Ok a, w') => keeps w w' ∧ P a
  | (Fail _, w') => keeps w w'
  | _ => False
  end.

(** The call is defined; a result is a handle that was not open and now is. *)
Definition opens_handle {A} (w : W) (handle : A → NativeSocket)
    (r : outcome TransportError A * W) : Prop :=
  match r with
  | (Ok a, w') =>
      socket_valid (handle a) = true ∧ (sock_value (handle a) ∉ open_handles w) ∧
      open_handles w' = {[sock_value (handle a)]} ∪ open_handles w ∧
      ∀ h, h ≠ sock_value (handle a) → sent_bytes w' h = sent_bytes w h
  | (Fail _, w') => keeps w w'
  | _ => False
  end.

(** A result [n] counts a prefix of [bytes] that was accepted on [h]. *)
Definition transmits (w : W) (h : Z) (bytes : list byte) (r : outcome TransportError Z * W) : Prop :=
  match r with
  | (Ok n, w') =>
      0 ≤ n ≤ len bytes ∧ open_handles w' = open_handles w ∧
      sent_bytes w' h = sent_bytes w h ++ take (Z.to_nat n) bytes ∧
      ∀ h', h' ≠ h → sent_bytes w' h' = sent_bytes w h'
  | (Fail _, w') => keeps w w'
  | _ => False
  end.

(** [n] bytes were written at the start of the span [output]. *)
Definition fills (output : list byte) (n : Z) (output' : list byte) : Prop :=
  0 ≤ n ≤ len output ∧ len output' = len output ∧
  drop (Z.to_nat n) output' = drop (Z.to_nat n) output.
End Laws.

(** No call is made on a handle that is not open, so nothing is promised for one. *)
Class SocketPlatformLaws {W} (G : SocketGhost W) (P : SocketPlatform W) : Prop := {
  resolve_law e t passive w :
    settles w (λ l, l ≠ [] ∧ Forall address_wf l) (resolve e t passive w);
  to_endpoint_law a w : address_wf a → settles w (λ _, True) (to_endpoint a w);
  create_socket_law a t w : opens_handle w id (create_socket a t w);
  apply_options_law s o w :
    sock_value s ∈ open_handles w → settles w (λ _, True) (apply_options s o w);
  set_reuse_address_law s w :
    sock_value s ∈ open_handles w → settles w (λ _, True) (set_reuse_address s w);
  connect_socket_law s a w :
    sock_value s ∈ open_handles w → address_wf a → settles w (λ _, True) (connect_socket s a w);
  bind_socket_law s a w :
    sock_value s ∈ open_handles w → address_wf a → settles w (λ _, True) (bind_socket s a w);
  listen_socket_law s backlog w :
    sock_value s ∈ open_handles w → settles w (λ _, True) (listen_socket s backlog w);
  accept_socket_law s w :
    sock_value s ∈ open_handles w →
    opens_handle w accepted_socket (accept_socket s w);
  local_address_law s w :
    sock_value s ∈ open_handles w → settles w address_wf (local_address s w);
  send_socket_law s bytes w :
    sock_value s ∈ open_handles w → in_memory bytes →
    transmits w (sock_value s) bytes (send_socket s bytes w);
  receive_socket_law s output w :
    sock_value s ∈ open_handles w → in_memory output →
    settles w (λ r, fills output r.1 r.2) (receive_socket s output w);
  send_datagram_law s a payload w :
    sock_value s ∈ open_handles w → address_wf a → len payload ≤ 65507 →
    transmits w (sock_value s) payload (send_datagram s a payload w);
  receive_datagram_law s output w :
    sock_value s ∈ open_handles w → 0 < len output ≤ 65507 →
    settles w (λ r, address_wf (received_remote r.1) ∧ fills output (received_size r.1) r.2)
      (receive_datagram s output w);
  close_socket_law s w :
    (socket_valid s = true → sock_value s ∈ open_handles w) →
    ∃ w', close_socket s w = (Ok invalid_socket, w') ∧
      open_handles w' =
        (if socket_valid s then open_handles w ∖ {[sock_value s]} else open_handles w) ∧
      ∀ h, sent_bytes w' h = sent_bytes w h
}.

(** ** Objects on a machine

    The state of a member function: the object, the operating system, and the delays
    the thread has slept. *)
Record machine (S W : Type) := MkMachine { self : S; os : W; slept : list Z }.
Arguments MkMachine {S W}.
Arguments self {S W}.
Arguments os {S W}.
Arguments slept {S W}.

Section Machine.
Context {S W : Type}.
Abbreviation M := (method (machine S W) TransportError).

(** A call of a platform function. *)
Definition sys {A} (f : method W TransportError A) : M A := λ m,
  let '(r, w') := f (os m) in (r, MkMachine (self m) w' (slept m)).

(** Keep the [std::expected] a call returns as a value. *)
Definition attempt {A} (f : M A) : M (TransportError + A) := λ m,
  match f m with
  | (Ok a, m') => (Ok (inr a), m')
  | (Fail e, m') => (Ok (inl e), m')
  | (UB, m') => (UB, m')
  | (NoFuel, m') => (NoFuel, m')
  end.

(** [return std::unexpected{error}] *)
Definition throw {A} (e : TransportError) : M A := lift (Fail e).

(** [std::this_thread::sleep_for] *)
Definition sleep_for (delay : Z) : M unit :=
  modify (λ m, MkMachine (self m) (os m) (slept m ++ [delay])).

Definition set_self (f : S → S) : M unit :=
  modify (λ m, MkMachine (f (self m)) (os m) (slept m)).
End Machine.

(** Parts of a machine. *)
Definition on_self {S W V} (g : S → V) (m : machine S W) : V := g (self m).
Definition on_os {S W V} (g : W → V) (m : machine S W) : V := g (os m).

Section LeavesMachine.
Context {S W V : Type}.

Lemma leaves_attempt {A} (g : machine S W → V) (f : method (machine S W) TransportError A) :
  leaves g f → leaves g (attempt f).
Proof. intros Hf m. specialize (Hf m). unfold attempt. by destruct (f m) as [[| | |] ?]. Qed.

Lemma leaves_throw {A} (g : machine S W → V) e : leaves g (throw (A:=A) e).
Proof. done. Qed.

Lemma leaves_sys_self {A} (g : S → V) (f : method W TransportError A) : leaves (on_self g) (sys f).
Proof. intros m. unfold sys. by destruct (f (os m)). Qed.

Lemma leaves_sys_os {A} (g : W → V) (f : method W TransportError A) :
  leaves g f → leaves (on_os g) (sys (S:=S) f).
Proof. intros Hf m. specialize (Hf (os m)). unfold sys. by destruct (f (os m)). Qed.

Lemma leaves_set_self (g : W → V) (h : S → S) : leaves (on_os g) (set_self h).
Proof. done. Qed.

Lemma leaves_sleep_self (g : S → V) d : leaves (on_self g) (sleep_for (W:=W) d).
Proof. done. Qed.

Lemma leaves_sleep_os (g : W → V) d : leaves (on_os g) (sleep_for (S:=S) d).
Proof. done. Qed.
End LeavesMachine.

#[export] Hint Resolve leaves_attempt leaves_throw leaves_sys_self leaves_sys_os leaves_set_self
  leaves_sleep_self leaves_sleep_os : leaves.

(** A C++ duration times two, on a 64-bit signed count. *)
Definition int64_max : Z := 9223372036854775807.

Definition duration_twice {E} (d : Z) : outcome E Z :=
  if (- int64_max - 1 <=? d * 2) && (d * 2 <=? int64_max) then Ok (d * 2) else UB.
