(* ===== verification/Tcp.v ===== *)
(** * TCP streams and listeners

    [src/transport/tcp.cpp], over the platform interface.  A stream is its
    [implementation_] pointer: [None] is a moved-from object. *)

From stdpp Require Import prelude gmap sets list strings.
From Stdlib Require Import ZArith Lia.
From S2P Require Import Prelude Transport.

(** ** TcpStream *)
Record StreamImpl := MkStreamImpl {
  stream_socket : NativeSocket;
  stream_options : IoOptions;
  stream_policy : ReconnectPolicy;
  stream_endpoint : option IpEndpoint
}.

Definition TcpStream := option StreamImpl.

Definition new_tcp_stream (options : IoOptions) (reconnect : ReconnectPolicy) : TcpStream :=
  Some (MkStreamImpl invalid_socket options reconnect None).

Definition with_stream_socket (s : NativeSocket) (t : TcpStream) : TcpStream :=
  (λ i, MkStreamImpl s (stream_options i) (stream_policy i) (stream_endpoint i)) <$> t.

Definition with_stream_endpoint (e : IpEndpoint) (t : TcpStream) : TcpStream :=
  (λ i, MkStreamImpl (stream_socket i) (stream_options i) (stream_policy i) (Some e)) <$> t.

(** [TcpStream::connected] *)
Definition connected (t : TcpStream) : bool :=
  match t with Some i => socket_valid (stream_socket i) | None => false end.

Section TcpStream.
Context {W : Type} {P : SocketPlatform W}.
Abbreviation M := (method (machine TcpStream W) TransportError).

(** [*implementation_] *)
Definition stream_impl : M StreamImpl :=
  m ← get; match self m with Some i => mret i | None => lift UB end.

Definition tcp_close : M unit :=
  m ← get;
  match self m with
  | None => mret tt
  | Some i =>
      s ← sys (close_socket (stream_socket i));
      set_self (with_stream_socket s)
  end.

(** [~TcpStream]: the object is gone. *)
Definition tcp_destroy : M unit := tcp_close;; set_self (λ _, None).

(** The loop of [connect] over the resolved addresses. *)
Fixpoint connect_loop (options : IoOptions) (addresses : list NativeAddress)
    (last_error : option TransportError) : M unit :=
  match addresses with
  | [] =>
      match last_error with
      | Some e => throw e
      | None => lift (net_failure net_connect_failed "no usable TCP endpoint was resolved" 0)
      end
  | address :: rest =>
      socket ← attempt (sys (create_socket address stream_type));
      match socket with
      | inl e => connect_loop options rest (Some e)
      | inr socket =>
          configured ← attempt (sys (apply_options socket options));
          match configured with
          | inl e => sys (close_socket socket);; connect_loop options rest (Some e)
          | inr _ =>
              connected ← attempt (sys (connect_socket socket address));
              match connected with
              | inl e => sys (close_socket socket);; connect_loop options rest (Some e)
              | inr _ => set_self (with_stream_socket socket)
              end
          end
      end
  end.

Definition tcp_connect (endpoint : IpEndpoint) : M unit :=
  m ← get;
  match self m with
  | None => lift (net_failure net_invalid_argument "cannot reuse a moved-from TCP stream" 0)
  | Some i =>
      if negb (endpoint_valid endpoint) || negb (io_options_valid (stream_options i))
         || negb (reconnect_policy_valid (stream_policy i)) then
        lift (net_failure net_invalid_argument "TCP endpoint or stream options are invalid" 0)
      else
        tcp_close;;
        set_self (with_stream_endpoint endpoint);;
        addresses ← sys (resolve endpoint stream_type false);
        connect_loop (stream_options i) addresses None
  end.

(** The retry loop of [reconnect]; each turn uses one unit of fuel. *)
Fixpoint reconnect_loop (fuel : nat) (policy : ReconnectPolicy) (endpoint : IpEndpoint)
    (attempt_ delay : Z) (last_error : option TransportError) : M unit :=
  match fuel with
  | O => lift NoFuel
  | S fuel' =>
      if attempt_ <? max_attempts policy then
        result ← attempt (tcp_connect endpoint);
        match result with
        | inr _ => mret tt
        | inl e =>
            if (attempt_ ⊕ 1 <? max_attempts policy) && (0 <? delay) then
              sleep_for delay;;
              doubled ← lift (duration_twice delay);
              reconnect_loop fuel' policy endpoint (attempt_ ⊕ 1)
                (Z.min doubled (maximum_delay policy)) (Some e)
            else reconnect_loop fuel' policy endpoint (attempt_ ⊕ 1) delay (Some e)
        end
      else
        let native_code := match last_error with Some e => net_native_code e | None => 0 end in
        lift (net_failure net_retry_limit_exceeded "TCP reconnect retry limit exceeded" native_code)
  end.

Definition tcp_reconnect : M unit :=
  m ← get;
  match self m with
  | Some (MkStreamImpl _ _ policy (Some endpoint)) =>
      if negb (reconnect_policy_valid policy) then
        lift (net_failure net_invalid_argument "TCP reconnect policy is invalid" 0)
      else
        reconnect_loop (S (Z.to_nat (max_attempts policy))) policy endpoint 0
          (initial_delay policy) None
  | _ => lift (net_failure net_not_connected "TCP reconnect requires a previous endpoint" 0)
  end.

Definition tcp_send (bytes : list byte) : M Z :=
  m ← get;
  if negb (connected (self m)) then
    lift (net_failure net_not_connected "TCP stream is not connected" 0)
  else if len bytes =? 0 then mret 0
  else
    i ← stream_impl;
    result ← attempt (sys (send_socket (stream_socket i) bytes));
    match result with
    | inl e => tcp_close;; throw e
    | inr n => mret n
    end.

(** The loop of [send_all]; each turn uses one unit of fuel. *)
Fixpoint send_all_loop (fuel : nat) (bytes : list byte) (offset : Z) : M Z :=
  match fuel with
  | O => lift NoFuel
  | S fuel' =>
      if offset <? len bytes then
        rest ← lift (subspan bytes offset (len bytes ⊖ offset));
        sent ← tcp_send rest;
        if sent =? 0 then
          tcp_close;;
          lift (net_failure net_peer_closed "TCP peer closed while sending" 0)
        else send_all_loop fuel' bytes (offset ⊕ sent)
      else mret offset
  end.

(** A turn that continues has sent at least one byte. *)
Definition tcp_send_all (bytes : list byte) : M Z := send_all_loop (S (length bytes)) bytes 0.

(** The number of bytes received, and the caller's span. *)
Definition tcp_receive (output : list byte) : M (Z * list byte) :=
  m ← get;
  if negb (connected (self m)) then
    lift (net_failure net_not_connected "TCP stream is not connected" 0)
  else if len output =? 0 then mret (0, output)
  else
    i ← stream_impl;
    received ← attempt (sys (receive_socket (stream_socket i) output));
    match received with
    | inl e => tcp_close;; throw e
    | inr (n, output') =>
        if n =? 0 then
          tcp_close;; lift (net_failure net_peer_closed "TCP peer closed the stream" 0)
        else mret (n, output')
    end.
End TcpStream.

(** ** TcpListener *)
Record ListenerImpl := MkListenerImpl {
  listener_socket : NativeSocket;
  accepted_stream_options : IoOptions
}.

Definition TcpListener := option ListenerImpl.

Definition new_tcp_listener (options : IoOptions) : TcpListener :=
  Some (MkListenerImpl invalid_socket options).

Definition with_listener_socket (s : NativeSocket) (t : TcpListener) : TcpListener :=
  (λ i, MkListenerImpl s (accepted_stream_options i)) <$> t.

(** [TcpListener::listening] *)
Definition listening (t : TcpListener) : bool :=
  match t with Some i => socket_valid (listener_socket i) | None => false end.

Section TcpListener.
Context {W : Type} {P : SocketPlatform W}.
Abbreviation M := (method (machine TcpListener W) TransportError).

Definition listener_impl : M ListenerImpl :=
  m ← get; match self m with Some i => mret i | None => lift UB end.

Definition listener_close : M unit :=
  m ← get;
  match self m with
  | None => mret tt
  | Some i =>
      s ← sys (close_socket (listener_socket i));
      set_self (with_listener_socket s)
  end.

Definition listener_destroy : M unit := listener_close;; set_self (λ _, None).

Fixpoint listen_loop (backlog : Z) (addresses : list NativeAddress)
    (last_error : option TransportError) : M unit :=
  match addresses with
  | [] =>
      match last_error with
      | Some e => throw e
      | None => lift (net_failure net_bind_failed "no usable TCP bind endpoint was resolved" 0)
      end
  | address :: rest =>
      socket ← attempt (sys (create_socket address stream_type));
      match socket with
      | inl e => listen_loop backlog rest (Some e)
      | inr socket =>
          reused ← attempt (sys (set_reuse_address socket));
          match reused with
          | inl e => sys (close_socket socket);; listen_loop backlog rest (Some e)
          | inr _ =>
              bound ← attempt (sys (bind_socket socket address));
              match bound with
              | inl e => sys (close_socket socket);; listen_loop backlog rest (Some e)
              | inr _ =>
                  listening ← attempt (sys (listen_socket socket backlog));
                  match listening with
                  | inl e => sys (close_socket socket);; listen_loop backlog rest (Some e)
                  | inr _ => set_self (with_listener_socket socket)
                  end
              end
          end
      end
  end.

Definition listener_bind (endpoint : IpEndpoint) (backlog : Z) : M unit :=
  m ← get;
  match self m with
  | None => lift (net_failure net_invalid_argument "cannot reuse a moved-from TCP listener" 0)
  | Some i =>
      if negb (endpoint_valid endpoint) || (backlog <=? 0) || (65535 <? backlog)
         || negb (io_options_valid (accepted_stream_options i)) then
        lift (net_failure net_invalid_argument
                "TCP listener endpoint, backlog, or options are invalid" 0)
      else
        listener_close;;
        addresses ← sys (resolve endpoint stream_type true);
        listen_loop backlog addresses None
  end.

Definition listener_accept : M TcpStream :=
  m ← get;
  if negb (listening (self m)) then
    lift (net_failure net_not_connected "TCP listener is not active" 0)
  else
    i ← listener_impl;
    accepted ← sys (accept_socket (listener_socket i));
    configured ← attempt (sys (apply_options (accepted_socket accepted) (accepted_stream_options i)));
    match configured with
    | inl e => sys (close_socket (accepted_socket accepted));; throw e
    | inr _ =>
        mret (Some (MkStreamImpl (accepted_socket accepted) (accepted_stream_options i)
                      default_reconnect_policy None))
    end.

Definition listener_local_endpoint : M IpEndpoint :=
  m ← get;
  if negb (listening (self m)) then
    lift (net_failure net_not_connected "TCP listener is not active" 0)
  else
    i ← listener_impl;
    address ← sys (local_address (listener_socket i));
    sys (to_endpoint address).
End TcpListener.
