(* ===== verification/Udp.v ===== *)
(** * UDP sockets

    [src/transport/udp.cpp], over the platform interface. *)

From stdpp Require Import prelude gmap sets list strings.
From Stdlib Require Import ZArith Lia.
From S2P Require Import Prelude Transport.

Record UdpImpl := MkUdpImpl {
  udp_socket : NativeSocket;
  udp_options : IoOptions;
  udp_family : Z;
  cached_endpoint : option IpEndpoint;
  cached_address : option NativeAddress
}.

(** [implementation_]; [None] is a moved-from object. *)
Definition UdpSocket := option UdpImpl.

Definition maximum_payload_size : Z := 65507.

Definition new_udp_socket (options : IoOptions) : UdpSocket :=
  Some (MkUdpImpl invalid_socket options 0 None None).

(** The socket and its family. *)
Definition with_udp_socket (s : NativeSocket) (family : Z) (u : UdpSocket) : UdpSocket :=
  (λ i, MkUdpImpl s (udp_options i) family (cached_endpoint i) (cached_address i)) <$> u.

Definition with_udp_cache (e : IpEndpoint) (a : NativeAddress) (u : UdpSocket) : UdpSocket :=
  (λ i, MkUdpImpl (udp_socket i) (udp_options i) (udp_family i) (Some e) (Some a)) <$> u.

Definition udp_open (u : UdpSocket) : bool :=
  match u with Some i => socket_valid (udp_socket i) | None => false end.

(** [std::vector::resize] *)
Definition resize (v : list byte) (n : Z) : list byte :=
  take (Z.to_nat n) v ++ replicate (Z.to_nat n - length v) Byte.x00.

Section Udp.
Context {W : Type} {P : SocketPlatform W}.
Abbreviation M := (method (machine UdpSocket W) TransportError).

Definition udp_impl : M UdpImpl :=
  m ← get; match self m with Some i => mret i | None => lift UB end.

Definition udp_close : M unit :=
  m ← get;
  match self m with
  | None => mret tt
  | Some i =>
      s ← sys (close_socket (udp_socket i));
      set_self (with_udp_socket s 0)
  end.

Definition udp_destroy : M unit := udp_close;; set_self (λ _, None).

Fixpoint udp_bind_loop (options : IoOptions) (addresses : list NativeAddress)
    (last_error : option TransportError) : M unit :=
  match addresses with
  | [] =>
      match last_error with
      | Some e => throw e
      | None => lift (net_failure net_bind_failed "no usable UDP bind endpoint was resolved" 0)
      end
  | address :: rest =>
      socket ← attempt (sys (create_socket address datagram_type));
      match socket with
      | inl e => udp_bind_loop options rest (Some e)
      | inr socket =>
          configured ← attempt (sys (apply_options socket options));
          match configured with
          | inl e => sys (close_socket socket);; udp_bind_loop options rest (Some e)
          | inr _ =>
              bound ← attempt (sys (bind_socket socket address));
              match bound with
              | inl e => sys (close_socket socket);; udp_bind_loop options rest (Some e)
              | inr _ => set_self (with_udp_socket socket (addr_family address))
              end
          end
      end
  end.

Definition udp_bind (endpoint : IpEndpoint) : M unit :=
  m ← get;
  match self m with
  | None => lift (net_failure net_invalid_argument "cannot reuse a moved-from UDP socket" 0)
  | Some i =>
      if negb (endpoint_valid endpoint) || negb (io_options_valid (udp_options i)) then
        lift (net_failure net_invalid_argument "UDP endpoint or socket options are invalid" 0)
      else
        udp_close;;
        addresses ← sys (resolve endpoint datagram_type true);
        udp_bind_loop (udp_options i) addresses None
  end.

(** The lambda [ensure_open] of [send_to] *)
Definition ensure_open (address : NativeAddress) : M unit :=
  m ← get;
  if udp_open (self m) then
    i ← udp_impl;
    if addr_family address =? udp_family i then mret tt
    else lift (net_failure net_send_failed "UDP endpoint does not match the open socket family" 0)
  else
    socket ← sys (create_socket address datagram_type);
    i ← udp_impl;
    configured ← attempt (sys (apply_options socket (udp_options i)));
    match configured with
    | inl e => sys (close_socket socket);; throw e
    | inr _ => set_self (with_udp_socket socket (addr_family address))
    end.

Fixpoint send_to_loop (endpoint : IpEndpoint) (payload : list byte)
    (addresses : list NativeAddress) (last_error : option TransportError) : M Z :=
  match addresses with
  | [] =>
      match last_error with
      | Some e => throw e
      | None => lift (net_failure net_send_failed "no UDP endpoint matches the open socket family" 0)
      end
  | address :: rest =>
      prepared ← attempt (ensure_open address);
      match prepared with
      | inl e => send_to_loop endpoint payload rest (Some e)
      | inr _ =>
          i ← udp_impl;
          sent ← attempt (sys (send_datagram (udp_socket i) address payload));
          match sent with
          | inr n => set_self (with_udp_cache endpoint address);; mret n
          | inl e => send_to_loop endpoint payload rest (Some e)
          end
      end
  end.

Definition udp_send_to (endpoint : IpEndpoint) (payload : list byte) : M Z :=
  m ← get;
  match self m with
  | None => lift (net_failure net_invalid_argument "cannot reuse a moved-from UDP socket" 0)
  | Some i =>
      if negb (endpoint_valid endpoint) || negb (io_options_valid (udp_options i)) then
        lift (net_failure net_invalid_argument "UDP endpoint or socket options are invalid" 0)
      else if maximum_payload_size <? len payload then
        lift (net_failure net_datagram_too_large "UDP payload exceeds 65507 bytes" 0)
      else
        match bool_decide (cached_endpoint i = Some endpoint), cached_address i with
        | true, Some address =>
            ensure_open address;;
            i ← udp_impl;
            sys (send_datagram (udp_socket i) address payload)
        | _, _ =>
            addresses ← sys (resolve endpoint datagram_type false);
            send_to_loop endpoint payload addresses None
        end
  end.

Definition udp_receive (maximum_size : Z) : M Datagram :=
  m ← get;
  if negb (udp_open (self m)) then
    lift (net_failure net_not_connected "UDP socket is not open" 0)
  else if (maximum_size =? 0) || (maximum_payload_size <? maximum_size) then
    lift (net_failure net_invalid_argument "UDP receive bound must be in [1, 65507]" 0)
  else
    i ← udp_impl;
    let payload := replicate (Z.to_nat maximum_size) Byte.x00 in
    r ← sys (receive_datagram (udp_socket i) payload);
    let payload := resize r.2 (received_size r.1) in
    endpoint ← sys (to_endpoint (received_remote r.1));
    mret (MkDatagram endpoint payload).

Definition udp_local_endpoint : M IpEndpoint :=
  m ← get;
  if negb (udp_open (self m)) then
    lift (net_failure net_not_connected "UDP socket is not open" 0)
  else
    i ← udp_impl;
    address ← sys (local_address (udp_socket i));
    sys (to_endpoint address).
End Udp.
