(* ===== verification/SocketLogic.v ===== *)
(** * Reasoning about objects that own handles

    A small weakest-precondition calculus for member functions, and the ownership
    assertion every transport object keeps: the open handles of the operating system
    are those of this object and those of everybody else, and nothing is transmitted
    on the others. *)

From stdpp Require Import prelude gmap sets list strings.
From Stdlib Require Import ZArith Lia.
From S2P Require Import Prelude Transport.

(** [f], started in [m], is defined, and returns a value with [Q] or an error with [F]. *)
Definition wp {S A} (f : method S TransportError A) (m : S)
    (Q : A → S → Prop) (F : TransportError → S → Prop) : Prop :=
  match f m with
  | (Ok a, m') => Q a m'
  | (Fail e, m') => F e m'
  | _ => False
  end.

Section Calculus.
Context {S : Type}.

Lemma wp_ret {A} (a : A) (m : S) Q F : Q a m → wp (mret a) m Q F.
Proof. done. Qed.

Lemma wp_bind {A B} (f : method S TransportError A) (g : A → method S TransportError B) m Q F :
  wp f m (λ a m', wp (g a) m' Q F) F → wp (f ≫= g) m Q F.
Proof. unfold wp, mbind, method_bind. by destruct (f m) as [[| | |] ?]. Qed.

Lemma wp_eq {A} (g f : method S TransportError A) m Q F : f m = g m → wp g m Q F → wp f m Q F.
Proof. unfold wp. by intros ->. Qed.

Lemma wp_get (m : S) Q F : Q m m → wp get m Q F.
Proof. done. Qed.

Lemma wp_fail {A} (e : TransportError) (m : S) (Q : A → S → Prop) (F : TransportError → S → Prop) :
  F e m → wp (lift (Fail e)) m Q F.
Proof. done. Qed.

Lemma wp_mono {A} (f : method S TransportError A) m (Q Q' : A → S → Prop) F F' :
  wp f m Q F → (∀ a m', Q a m' → Q' a m') → (∀ e m', F e m' → F' e m') → wp f m Q' F'.
Proof. unfold wp. destruct (f m) as [[| | |] ?]; auto. Qed.

(** Keep a fact about both outcomes. *)
Lemma wp_conj {A} (f : method S TransportError A) m Q Q' F F' :
  wp f m Q F → wp f m Q' F' → wp f m (λ a m', Q a m' ∧ Q' a m') (λ e m', F e m' ∧ F' e m').
Proof. unfold wp. destruct (f m) as [[| | |] ?]; auto. Qed.
End Calculus.

Section Machines.
Context {S W : Type}.

Lemma wp_attempt {A} (f : method (machine S W) TransportError A) m Q F :
  wp f m (λ a m', Q (inr a) m') (λ e m', Q (inl e) m') → wp (attempt f) m Q F.
Proof. unfold wp, attempt. by destruct (f m) as [[| | |] ?]. Qed.

Lemma wp_sys {A} (f : method W TransportError A) (m : machine S W) Q F :
  wp f (os m) (λ a w, Q a (MkMachine (self m) w (slept m)))
    (λ e w, F e (MkMachine (self m) w (slept m))) → wp (sys f) m Q F.
Proof. unfold wp, sys. by destruct (f (os m)) as [[| | |] ?]. Qed.

Lemma wp_set_self g (m : machine S W) Q F :
  Q tt (MkMachine (g (self m)) (os m) (slept m)) → wp (set_self g) m Q F.
Proof. done. Qed.
End Machines.

(** Symbolic execution of the straight-line parts. *)
Ltac wp_step :=
  cbv beta iota;
  lazymatch goal with
  | |- wp (_ ≫= _) _ _ _ => apply wp_bind
  | |- wp (mret _) _ _ _ => apply wp_ret
  | |- wp get _ _ _ => apply wp_get
  | |- wp (attempt _) _ _ _ => apply wp_attempt
  | |- wp (sys _) _ _ _ => apply wp_sys
  | |- wp (set_self _) _ _ _ => apply wp_set_self
  | |- wp (throw _) _ _ _ => apply wp_fail
  | |- wp (lift (net_failure _ _ _)) _ _ _ => apply wp_fail
  end.

(** ** Ownership *)
Definition socket_handles (s : NativeSocket) : gset Z :=
  if socket_valid s then {[sock_value s]} else ∅.

Lemma socket_handles_valid s : socket_valid s = true → socket_handles s = {[sock_value s]}.
Proof. unfold socket_handles. by intros ->. Qed.

Section Ownership.
Context {W : Type} {G : SocketGhost W}.

(** The open handles are [mine] and [others], and what was sent on the others is [log]. *)
Definition owns (others : gset Z) (log : Z → list byte) (mine : gset Z) (w : W) : Prop :=
  mine ## others ∧ open_handles w = mine ∪ others ∧
  ∀ h, h ∈ others → sent_bytes w h = log h.

Context {P : SocketPlatform W} {L : SocketPlatformLaws G P}.
Context (others : gset Z) (log : Z → list byte).

Lemma owns_keeps mine w w' : owns others log mine w → keeps w w' → owns others log mine w'.
Proof.
  intros (Hd & Ho & Hs) (Hk & Hk'). split_and!; [done|by rewrite Hk|].
  intros h Hh. rewrite Hk'. by apply Hs.
Qed.

Lemma owns_open mine w h : owns others log mine w → h ∈ mine → h ∈ open_handles w.
Proof. intros (_ & -> & _) Hh. by apply elem_of_union_l. Qed.

Lemma wp_settles {A} (f : method W TransportError A) w mine (R : A → Prop) Q F :
  owns others log mine w → settles w R (f w) →
  (∀ a w', keeps w w' → owns others log mine w' → R a → Q a w') →
  (∀ e w', keeps w w' → owns others log mine w' → F e w') →
  wp f w Q F.
Proof.
  intros Ho Hs HQ HF. unfold wp, settles in *. destruct (f w) as [[| | |] w']; try done.
  - destruct Hs as [Hk HR]. apply HQ; [done|by eapply owns_keeps|done].
  - apply HF; [done|by eapply owns_keeps].
Qed.

Lemma wp_opens {A} (f : method W TransportError A) w mine handle Q F :
  owns others log mine w → opens_handle w handle (f w) →
  (∀ a w', socket_valid (handle a) = true → sock_value (handle a) ∉ mine →
     owns others log ({[sock_value (handle a)]} ∪ mine) w' →
     (∀ h, h ≠ sock_value (handle a) → sent_bytes w' h = sent_bytes w h) → Q a w') →
  (∀ e w', keeps w w' → owns others log mine w' → F e w') →
  wp f w Q F.
Proof.
  intros Ho Hs HQ HF. unfold wp, opens_handle in *. destruct (f w) as [[| | |] w']; try done.
  - destruct Hs as (Hv & Hn & He & Hsent). destruct Ho as (Hd & Hop & Hlog).
    rewrite Hop in Hn. apply not_elem_of_union in Hn as [Hn1 Hn2].
    apply HQ; [done|done| |done]. split_and!.
    + apply disjoint_union_l. split; [by apply disjoint_singleton_l|done].
    + by rewrite He, Hop, union_assoc_L.
    + intros h Hh. rewrite Hsent; [by apply Hlog|]. by intros ->.
  - apply HF; [done|by eapply owns_keeps].
Qed.

(** Closing a handle, valid or not. *)
Lemma wp_close s w mine Q F :
  owns others log (socket_handles s ∪ mine) w → socket_handles s ## mine →
  (∀ w', owns others log mine w' → (∀ h, sent_bytes w' h = sent_bytes w h) →
     Q invalid_socket w') →
  wp (close_socket s) w Q F.
Proof.
  intros Ho Hdis HQ. unfold wp. pose proof Ho as (Hd & Hop & Hlog).
  destruct (close_socket_law s w) as (w' & -> & Hc & Hs).
  { intros Hv. rewrite Hop. unfold socket_handles. rewrite Hv. clear. set_solver. }
  apply disjoint_union_l in Hd as [Hd1 Hd2].
  apply HQ; [|done]. split_and!; [done| |by intros h Hh; rewrite Hs; apply Hlog].
  unfold socket_handles in *. rewrite Hc, Hop. destruct (socket_valid s).
  - apply set_eq. intros h. rewrite elem_of_difference, !elem_of_union, elem_of_singleton.
    specialize (Hdis h). specialize (Hd1 h). rewrite elem_of_singleton in Hdis, Hd1. tauto.
  - by rewrite union_empty_l_L.
Qed.

(** A handle that a loop gives up. *)
Lemma wp_close_one {S} s (m : machine S W) Q F :
  socket_valid s = true → owns others log ({[sock_value s]} ∪ ∅) (os m) →
  (∀ w, owns others log ∅ w → Q invalid_socket (MkMachine (self m) w (slept m))) →
  wp (sys (close_socket s)) m Q F.
Proof.
  intros Hv Ho HQ. wp_step. apply (wp_close _ _ ∅).
  - by rewrite socket_handles_valid.
  - apply disjoint_empty_r.
  - intros w Hw _. by apply HQ.
Qed.

(** Transmitting on a handle of this object. *)
Lemma wp_transmits (f : method W TransportError Z) w mine h bytes Q F :
  owns others log mine w → h ∈ mine → transmits w h bytes (f w) →
  (∀ n w', owns others log mine w' → 0 ≤ n ≤ len bytes →
     sent_bytes w' h = sent_bytes w h ++ take (Z.to_nat n) bytes → Q n w') →
  (∀ e w', keeps w w' → owns others log mine w' → F e w') →
  wp f w Q F.
Proof.
  intros Ho Hh Ht HQ HF. unfold wp, transmits in *. destruct (f w) as [[n| | |] w']; try done.
  - destruct Ht as (Hn & Hop & Hs & Hs'). destruct Ho as (Hd & Ho & Hlog).
    apply HQ; [|done..]. split_and!; [done|by rewrite Hop|].
    intros h' Hh'. rewrite Hs'; [by apply Hlog|]. intros ->. by apply (Hd h).
  - apply HF; [done|by eapply owns_keeps].
Qed.
End Ownership.
