(* ===== verification/TcpFacts.v ===== *)
(** * TCP: ownership, transmission and retries

    Every member function of [TcpStream] and [TcpListener] is defined, owns exactly the
    handle it stores, and leaves other handles alone; [send_all] transmits the whole
    range or closes; [reconnect] is bounded in attempts and delays. *)

From stdpp Require Import prelude gmap sets list strings.
From Stdlib Require Import ZArith Lia.
From S2P Require Import Prelude Transport SocketLogic Tcp.

Definition stream_handles (t : TcpStream) : gset Z :=
  match t with Some i => socket_handles (stream_socket i) | None => ∅ end.

Definition listener_handles (t : TcpListener) : gset Z :=
  match t with Some i => socket_handles (listener_socket i) | None => ∅ end.

Section Stream.
Context {W : Type} {G : SocketGhost W} {P : SocketPlatform W} {L : SocketPlatformLaws G P}.
Context (others : gset Z) (log : Z → list byte).
Implicit Types m : machine TcpStream W.

Abbreviation owned := (owns others log).

Definition stream_owns m : Prop := owned (stream_handles (self m)) (os m).

Lemma tcp_close_wp m Q F :
  stream_owns m →
  (∀ w, owned ∅ w → (∀ h, sent_bytes w h = sent_bytes (os m) h) →
     Q tt (MkMachine (with_stream_socket invalid_socket (self m)) w (slept m))) →
  wp tcp_close m Q F.
Proof.
  intros Ho HQ. unfold tcp_close. wp_step. wp_step. unfold stream_owns in Ho.
  destruct m as [[i|] w sl]; simpl in *.
  - wp_step. wp_step. apply (wp_close others log _ _ ∅).
    + by rewrite union_empty_r_L.
    + apply disjoint_empty_r.
    + intros w' Hw' Hs. wp_step. by apply HQ.
  - wp_step. by apply HQ.
Qed.

(** [connect_loop] either hands over one open handle or keeps none. *)
Lemma connect_loop_wp options addresses last m :
  Forall address_wf addresses → owned ∅ (os m) →
  wp (connect_loop options addresses last) m
    (λ _ m', ∃ s, socket_valid s = true ∧ self m' = with_stream_socket s (self m) ∧
       owned {[sock_value s]} (os m') ∧ slept m' = slept m)
    (λ _ m', self m' = self m ∧ owned ∅ (os m') ∧ slept m' = slept m).
Proof.
  intros Ha. revert last m. induction Ha as [|a rest Hwf Ha IH]; intros last m Ho; simpl.
  { destruct last; by wp_step. }
  wp_step. wp_step. wp_step. eapply wp_opens; [done|apply create_socket_law| |].
  2:{ intros e w' _ Ho'. by apply (IH (Some e) (MkMachine _ w' _)). }
  intros s w' Hv _ Ho' _. simpl in Ho'. wp_step. wp_step. wp_step.
  eapply wp_settles; [done|apply apply_options_law; eapply owns_open; [done|clear; set_solver]| |].
  2:{ intros e w2 _ Ho2. wp_step. eapply wp_close_one; [done|done|]. intros w3 Ho3. by apply (IH (Some e) (MkMachine _ w3 _)). }
  intros _ w2 _ Ho2 _. wp_step. wp_step. wp_step.
  eapply wp_settles; [done|apply connect_socket_law; [|done]; eapply owns_open; [done|clear; set_solver]| |].
  2:{ intros e w3 _ Ho3. wp_step. eapply wp_close_one; [done|done|]. intros w4 Ho4. by apply (IH (Some e) (MkMachine _ w4 _)). }
  intros _ w3 _ Ho3 _. wp_step. exists s. rewrite union_empty_r_L in Ho3. done.
Qed.

(** What a call of [connect] leaves of the object. *)
Definition same_settings (t t' : TcpStream) : Prop :=
  stream_options <$> t' = stream_options <$> t ∧ stream_policy <$> t' = stream_policy <$> t.

Lemma tcp_connect_wp endpoint m :
  stream_owns m →
  wp (tcp_connect endpoint) m
    (λ _ m', stream_owns m' ∧ connected (self m') = true ∧ same_settings (self m) (self m') ∧
       (self m' ≫= stream_endpoint) = Some endpoint ∧ slept m' = slept m)
    (λ e m', stream_owns m' ∧ same_settings (self m) (self m') ∧ slept m' = slept m ∧
       (m' = m ∨ connected (self m') = false)).
Proof.
  intros Ho. unfold tcp_connect. wp_step. wp_step.
  destruct m as [[i|] w sl]; simpl.
  2:{ wp_step. by split_and!; [..|left]. }
  destruct (_ || _); [wp_step; by split_and!; [..|left]|].
  wp_step. apply tcp_close_wp; [done|]. intros w1 Ho1 _. simpl.
  wp_step. wp_step. wp_step. wp_step.
  eapply wp_settles; [done|apply resolve_law| |]; simpl.
  2:{ intros e w2 _ Ho2. split_and!; [done..|by right]. }
  intros addresses w2 _ Ho2 [_ Hwf].
  eapply wp_mono; [by apply connect_loop_wp| |]; simpl.
  - intros _ m' (s & Hv & Hself & Ho' & Hsl). destruct m' as [t' w' sl']; simpl in *. subst.
    unfold stream_owns. simpl. rewrite socket_handles_valid by done. done.
  - intros e m' (Hself & Ho' & Hsl). destruct m' as [t' w' sl']; simpl in *. subst.
    split_and!; [done..|by right].
Qed.

(** ** Transmission *)

(** The bytes accepted so far on the handle of a stream. *)
Definition sent_on (t : TcpStream) (w : W) : list byte :=
  match t with Some i => sent_bytes w (sock_value (stream_socket i)) | None => [] end.

Lemma connected_inv t :
  connected t = true →
  ∃ i, t = Some i ∧ socket_valid (stream_socket i) = true ∧
    stream_handles t = {[sock_value (stream_socket i)]}.
Proof.
  destruct t as [i|]; simpl; [|done]. intros Hv. exists i. by rewrite socket_handles_valid.
Qed.

Lemma stream_impl_wp i m Q F : self m = Some i → Q i m → wp stream_impl m Q F.
Proof. destruct m as [t w sl]. simpl. by intros ->. Qed.

Lemma tcp_send_wp bytes m :
  stream_owns m → in_memory bytes →
  wp (tcp_send bytes) m
    (λ n m', self m' = self m ∧ connected (self m) = true ∧ stream_owns m' ∧
       0 ≤ n ≤ len bytes ∧
       sent_on (self m) (os m') = sent_on (self m) (os m) ++ take (Z.to_nat n) bytes)
    (λ _ m', stream_owns m' ∧ connected (self m') = false ∧
       sent_on (self m) (os m') = sent_on (self m) (os m)).
Proof.
  intros Ho Hm. unfold tcp_send. wp_step. wp_step.
  destruct (connected (self m)) eqn:Hc; simpl; [|by wp_step].
  destruct (Z.eqb_spec (len bytes) 0) as [Hz|Hz].
  { wp_step. apply len_zero_inv in Hz as ->. split_and!; [done..|]. by rewrite app_nil_r. }
  destruct (connected_inv _ Hc) as (i & Hi & Hv & Hh). unfold stream_owns in *.
  destruct m as [t w sl]; simpl in *. subst t. rewrite Hh in Ho.
  wp_step. apply (stream_impl_wp i); [done|]. wp_step. wp_step. wp_step.
  eapply wp_transmits; [done|by apply elem_of_singleton|apply send_socket_law; [|done]| |].
  - eapply owns_open; [done|by apply elem_of_singleton].
  - intros n w' Ho' Hn Hs. wp_step. simpl in *. by rewrite Hh.
  - intros e w' Hk Ho'. wp_step. apply tcp_close_wp; [by unfold stream_owns; simpl in *; rewrite Hh|].
    intros w2 Ho2 Hs2. wp_step. simpl. split_and!; [done|done|]. rewrite Hs2. apply Hk.
Qed.

(** From any offset, the rest of the range is transmitted, or a proper prefix of it and
    the stream is closed. *)
Lemma send_all_loop_wp fuel a r m :
  stream_owns m → in_memory (a ++ r) → (length r < fuel)%nat →
  wp (send_all_loop fuel (a ++ r) (len a)) m
    (λ n m', n = len (a ++ r) ∧ self m' = self m ∧ stream_owns m' ∧
       (r ≠ [] → connected (self m) = true) ∧
       sent_on (self m) (os m') = sent_on (self m) (os m) ++ r)
    (λ _ m', stream_owns m' ∧ connected (self m') = false ∧
       ∃ p q, r = p ++ q ∧ q ≠ [] ∧
         sent_on (self m) (os m') = sent_on (self m) (os m) ++ p).
Proof.
  revert a r m. induction fuel as [|fuel IH]; intros a r m Ho Hm Hf; [lia|]. simpl.
  destruct (Z.ltb_spec (len a) (len (a ++ r))).
  2:{ assert (r = []) as -> by (apply len_zero_inv; len_lia). wp_step.
      split_and!; [by rewrite app_nil_r|done|done|done|by rewrite app_nil_r]. }
  size_norm. replace (len (a ++ r) - len a) with (len r) by len_lia.
  pose proof (subspan_app (E:=TransportError) a r []) as Hsub. rewrite app_nil_r in Hsub.
  rewrite Hsub. change (lift (Ok r)) with (mret (M:=method (machine TcpStream W) TransportError) r).
  wp_step. wp_step. wp_step.
  eapply wp_mono; [apply tcp_send_wp; [done|len_lia]| |]; simpl.
  2:{ intros e m' (Ho' & Hc & Hs). split_and!; [done..|]. exists [], r.
      split_and!; [done| |by rewrite app_nil_r].
      intros ->. autorewrite with len in *. lia. }
  intros n m' (Hself & Hc & Ho' & Hn & Hs). destruct (Z.eqb_spec n 0) as [->|Hne].
  { wp_step. apply tcp_close_wp; [done|]. intros w Hw Hs'. wp_step. simpl.
    split_and!; [by rewrite Hself; destruct (self m)|by rewrite Hself; destruct (self m)|].
    exists [], r. split_and!; [done| |].
    - intros ->. autorewrite with len in *. lia.
    - rewrite app_nil_r in *. rewrite <- Hs. unfold sent_on. destruct (self m); [apply Hs'|done]. }
  destruct (split_at r n) as (p & q & -> & <-); [lia|].
  assert (take (Z.to_nat (len p)) (p ++ q) = p) as Htake
    by (unfold len; by rewrite Nat2Z.id, take_app_length).
  rewrite Htake in Hs. rewrite size_add_small by len_lia. rewrite app_assoc, <- len_app.
  eapply wp_mono; [apply IH; [done| |]| |]; simpl.
  - by rewrite <- app_assoc.
  - rewrite length_app in Hf. unfold len in Hne. lia.
  - rewrite Hself. intros k m2 (-> & Hself2 & Ho2 & _ & Hs2).
    split_and!; [done|done|done|done|]. by rewrite Hs2, Hs, app_assoc.
  - rewrite Hself. intros e m2 (Ho2 & Hc2 & p' & q' & -> & Hq & Hs2).
    split_and!; [done|done|]. exists (p ++ p'), q'. rewrite <- app_assoc.
    split_and!; [done|done|]. by rewrite Hs2, Hs, app_assoc.
Qed.

(** ** Reception *)
Lemma tcp_receive_wp output m :
  stream_owns m → in_memory output →
  wp (tcp_receive output) m
    (λ r m', self m' = self m ∧ connected (self m) = true ∧ stream_owns m' ∧
       fills output r.1 r.2 ∧ (r.1 = 0 → output = []))
    (λ _ m', stream_owns m' ∧ connected (self m') = false).
Proof.
  intros Ho Hm. unfold tcp_receive. wp_step. wp_step.
  destruct (connected (self m)) eqn:Hc; simpl; [|by wp_step].
  destruct (Z.eqb_spec (len output) 0) as [Hz|Hz].
  { wp_step. apply len_zero_inv in Hz as ->. done. }
  destruct (connected_inv _ Hc) as (i & Hi & Hv & Hh). unfold stream_owns in *.
  destruct m as [t w sl]; simpl in *. subst t. rewrite Hh in Ho.
  wp_step. apply (stream_impl_wp i); [done|]. wp_step. wp_step. wp_step.
  eapply wp_settles; [done|apply receive_socket_law; [|done]| |].
  - eapply owns_open; [done|by apply elem_of_singleton].
  - intros [n output'] w' _ Ho' Hfill. destruct (Z.eqb_spec n 0) as [->|Hn].
    + wp_step. apply tcp_close_wp; [by unfold stream_owns; simpl in *; rewrite Hh|].
      intros w2 Ho2 _. by wp_step.
    + wp_step. simpl in *. by rewrite Hh.
  - intros e w' Hk Ho'. wp_step. apply tcp_close_wp; [by unfold stream_owns; simpl in *; rewrite Hh|].
    intros w2 Ho2 _. by wp_step.
Qed.

(** ** Retries *)

(** The delay before attempt [n + 1]: doubled each time, up to the maximum. *)
Definition backoff (p : ReconnectPolicy) (n : Z) : Z :=
  Z.min (initial_delay p * 2 ^ n) (maximum_delay p).

(** The delays after [k] failed attempts from attempt [a] on. *)
Definition schedule (p : ReconnectPolicy) (a k : Z) : list Z :=
  if 0 <? initial_delay p then backoff p <$> seqZ a k else [].

(** Every delay that [reconnect] may double still fits in a 64-bit count afterwards; the
    last one it doubles is the one before the last attempt.  This is not a range of a C++
    type and [ReconnectPolicy::valid] does not check it: without it, the doubling
    overflows. *)
Definition delays_representable (p : ReconnectPolicy) : Prop :=
  backoff p (max_attempts p - 2) * 2 ≤ int64_max.

Lemma reconnect_policy_valid_spec p :
  reconnect_policy_valid p = true ↔
  0 < max_attempts p ≤ 1024 ∧ 0 ≤ initial_delay p ≤ maximum_delay p.
Proof.
  unfold reconnect_policy_valid, hard_attempt_limit.
  rewrite !andb_true_iff, Z.ltb_lt, !Z.leb_le. lia.
Qed.

Lemma backoff_succ p n :
  0 ≤ n → 0 ≤ maximum_delay p → Z.min (backoff p n * 2) (maximum_delay p) = backoff p (n + 1).
Proof.
  intros Hn Hm. unfold backoff. rewrite Z.pow_add_r by lia. change (2 ^ 1) with 2. lia.
Qed.

Lemma backoff_pos p n :
  reconnect_policy_valid p = true → 0 ≤ n → (0 <? backoff p n) = (0 <? initial_delay p).
Proof.
  rewrite reconnect_policy_valid_spec. intros [_ Hd] Hn. unfold backoff.
  assert (0 < 2 ^ n) by lia. destruct (Z.ltb_spec 0 (initial_delay p)).
  - apply Z.ltb_lt. nia.
  - assert (initial_delay p = 0) as -> by lia. apply Z.ltb_ge. lia.
Qed.

Lemma backoff_mono p a b : 0 ≤ initial_delay p → 0 ≤ a ≤ b → backoff p a ≤ backoff p b.
Proof.
  intros Hd Hab. unfold backoff. assert (2 ^ a ≤ 2 ^ b) by (apply Z.pow_le_mono_r; lia). nia.
Qed.

Lemma duration_twice_backoff {E} p a :
  reconnect_policy_valid p = true → delays_representable p → 0 ≤ a → a + 1 < max_attempts p →
  duration_twice (E:=E) (backoff p a) = Ok (backoff p a * 2).
Proof.
  rewrite reconnect_policy_valid_spec. intros [_ Hd] Hrep Ha Hlt. unfold delays_representable in Hrep.
  pose proof (backoff_mono p a (max_attempts p - 2) ltac:(lia) ltac:(lia)) as Hle.
  assert (0 ≤ backoff p a) by (unfold backoff; assert (0 < 2 ^ a) by lia; nia).
  unfold duration_twice, int64_max in *.
  rewrite (proj2 (Z.leb_le _ _)), (proj2 (Z.leb_le _ _)) by lia. done.
Qed.

(** The condition is exact: a valid policy without it doubles a delay that overflows. *)
Lemma duration_twice_overflows {E} p :
  reconnect_policy_valid p = true → ¬ delays_representable p →
  2 ≤ max_attempts p ∧ duration_twice (E:=E) (backoff p (max_attempts p - 2)) = UB.
Proof.
  rewrite reconnect_policy_valid_spec. unfold delays_representable, int64_max.
  intros [Hmax Hd] Hn. destruct (decide (max_attempts p = 1)) as [H1|H1].
  { destruct Hn. rewrite H1. unfold backoff. change (2 ^ (1 - 2)) with 0. lia. }
  split; [lia|]. unfold duration_twice, int64_max.
  by rewrite (proj2 (Z.leb_gt (backoff p (max_attempts p - 2) * 2) _)), andb_false_r by lia.
Qed.

Lemma schedule_snoc p k :
  0 ≤ k → 0 < initial_delay p → schedule p 0 (k + 1) = schedule p 0 k ++ [backoff p k].
Proof.
  intros Hk Hd. unfold schedule. rewrite (proj2 (Z.ltb_lt _ _)) by done.
  rewrite seqZ_app by lia. by rewrite fmap_app.
Qed.

Lemma schedule_none p a k : initial_delay p ≤ 0 ∨ k ≤ 0 → schedule p a k = [].
Proof.
  intros H. unfold schedule. destruct (Z.ltb_spec 0 (initial_delay p)); [|done].
  rewrite seqZ_nil by lia. done.
Qed.

(** *** The attempts

    The pause after attempt [n] failed: none after the last one. *)
Definition pause (p : ReconnectPolicy) (n : Z) m : machine TcpStream W :=
  if (n + 1 <? max_attempts p) && (0 <? initial_delay p)
  then MkMachine (self m) (os m) (slept m ++ [backoff p n]) else m.

(** [failed_attempts p e k m last m']: starting in [m], [k] calls of [connect], all of
    which failed, each followed by its pause, lead to [m']; [last] is the error of the last
    one. *)
Inductive failed_attempts (p : ReconnectPolicy) (endpoint : IpEndpoint) :
    Z → machine TcpStream W → option TransportError → machine TcpStream W → Prop :=
| no_attempt m : failed_attempts p endpoint 0 m None m
| next_attempt k m last m1 e m2 :
    failed_attempts p endpoint k m last m1 → tcp_connect endpoint m1 = (Fail e, m2) →
    failed_attempts p endpoint (k + 1) m (Some e) (pause p k m2).

Lemma failed_attempts_nonneg p endpoint k m last m' :
  failed_attempts p endpoint k m last m' → 0 ≤ k ∧ (last = None → k = 0).
Proof. induction 1 as [|k m last m1 e m2 _ [IH _] _]; [done|]. split; [lia|done]. Qed.

(** Failed attempts keep the ownership and sleep the schedule. *)
Lemma failed_attempts_slept p endpoint k m last m' :
  failed_attempts p endpoint k m last m' → stream_owns m → k ≤ max_attempts p →
  stream_owns m' ∧ slept m' = slept m ++ schedule p 0 (Z.min k (max_attempts p - 1)).
Proof.
  induction 1 as [m|k m last m1 e m2 Hk IH Hc]; intros Ho Hmax.
  { rewrite schedule_none by lia. by rewrite app_nil_r. }
  apply failed_attempts_nonneg in Hk as [Hk _]. destruct IH as [Ho1 Hs1]; [done|lia|].
  pose proof (tcp_connect_wp endpoint m1 Ho1) as Hwp. unfold wp in Hwp. rewrite Hc in Hwp.
  destruct Hwp as (Ho2 & _ & Hs2 & _). unfold pause.
  destruct (Z.ltb_spec (k + 1) (max_attempts p)), (Z.ltb_spec 0 (initial_delay p)); cbn [andb].
  - split; [done|]. simpl. rewrite Hs2, Hs1, !Z.min_l, schedule_snoc by lia. by rewrite app_assoc.
  - split; [done|]. rewrite Hs2, Hs1. by rewrite !schedule_none by lia.
  - split; [done|]. rewrite Hs2, Hs1. do 2 f_equal. lia.
  - split; [done|]. rewrite Hs2, Hs1. do 2 f_equal. lia.
Qed.

(** The error of [reconnect] after the last attempt. *)
Definition retry_error (last : option TransportError) : TransportError :=
  MkTransportError net_retry_limit_exceeded
    (match last with Some e => net_native_code e | None => 0 end)
    "TCP reconnect retry limit exceeded".

(** What the loop has done when it returns. *)
Definition retried p endpoint m : unit → machine TcpStream W → Prop := λ _ m',
  stream_owns m' ∧ connected (self m') = true ∧
  ∃ k last m1, 0 ≤ k < max_attempts p ∧ failed_attempts p endpoint k m last m1 ∧
    tcp_connect endpoint m1 = (Ok tt, m').

Definition gave_up p endpoint m : TransportError → machine TcpStream W → Prop := λ e m',
  stream_owns m' ∧ ∃ last, e = retry_error last ∧
    failed_attempts p endpoint (max_attempts p) m last m'.

Lemma reconnect_loop_wp fuel p endpoint a delay last m0 m :
  reconnect_policy_valid p = true → delays_representable p → stream_owns m →
  0 ≤ a ≤ max_attempts p → (Z.to_nat (max_attempts p - a) < fuel)%nat →
  (a < max_attempts p → delay = backoff p a) → failed_attempts p endpoint a m0 last m →
  wp (reconnect_loop fuel p endpoint a delay last) m
    (retried p endpoint m0) (gave_up p endpoint m0).
Proof.
  intros Hp Hrep. pose proof Hp as Hp'. rewrite reconnect_policy_valid_spec in Hp'.
  destruct Hp' as [Hmax Hdel].
  revert a delay last m. induction fuel as [|fuel IH]; intros a delay last m Ho Ha Hf Hd Hm; [lia|].
  simpl. destruct (Z.ltb_spec a (max_attempts p)) as [Hlt|Hge].
  2:{ wp_step. split; [done|]. exists last. split; [done|].
      by replace (max_attempts p) with a by lia. }
  rewrite (Hd Hlt). wp_step. wp_step. pose proof (tcp_connect_wp endpoint m Ho) as Hwp.
  unfold wp in Hwp |- * at 1. destruct (tcp_connect endpoint m) as [[[]|e| |] m1] eqn:Hc; [| |done..].
  { destruct Hwp as (Ho' & Hcon & _). split_and!; [done..|].
    exists a, last, m. split_and!; [lia|lia|done|done]. }
  destruct Hwp as (Ho' & _). rewrite size_add_small, backoff_pos by (done || len_lia).
  pose proof (next_attempt p endpoint a m0 last m e m1 Hm Hc) as Hn. unfold pause in Hn.
  destruct (Z.ltb_spec (a + 1) (max_attempts p)) as [Hmore|Hlast],
    (Z.ltb_spec 0 (initial_delay p)) as [Hpos|Hzero]; cbn [andb] in *.
  - wp_step. unfold sleep_for. unfold wp at 1, modify. rewrite duration_twice_backoff by (done || lia).
    change (lift (Ok ?x)) with (mret (M:=method (machine TcpStream W) TransportError) x).
    wp_step. wp_step. apply IH; [exact Ho'|lia|lia| |exact Hn].
    intros _. apply backoff_succ; lia.
  - apply IH; [done|lia|lia| |done]. intros _. unfold backoff.
    assert (initial_delay p = 0) as -> by lia. lia.
  - apply IH; [done|lia|lia|lia|done].
  - apply IH; [done|lia|lia|lia|done].
Qed.

(** [reconnect] refuses the call, or makes its attempts. *)
Lemma tcp_reconnect_attempts m :
  stream_owns m → (∀ i, self m = Some i → delays_representable (stream_policy i)) →
  wp tcp_reconnect m
    (λ r m', ∃ i endpoint, self m = Some i ∧ stream_endpoint i = Some endpoint ∧
       reconnect_policy_valid (stream_policy i) = true ∧ retried (stream_policy i) endpoint m r m')
    (λ e m',
       (m' = m ∧ ((self m ≫= stream_endpoint) = None ∧ net_code e = net_not_connected ∨
                  (∃ i, self m = Some i ∧ reconnect_policy_valid (stream_policy i) = false) ∧
                  net_code e = net_invalid_argument)) ∨
       ∃ i endpoint, self m = Some i ∧ stream_endpoint i = Some endpoint ∧
         reconnect_policy_valid (stream_policy i) = true ∧ gave_up (stream_policy i) endpoint m e m').
Proof.
  intros Ho Hrep. unfold tcp_reconnect. wp_step. wp_step.
  destruct m as [t w sl]; cbn [self slept] in *.
  destruct t as [[s o p e]|]; [|wp_step; left; split; [done|by left]].
  destruct e as [endpoint|]; [|wp_step; left; split; [done|by left]].
  destruct (reconnect_policy_valid p) eqn:Hv; cbn [negb].
  2:{ wp_step. left. split; [done|]. right. split; [by eexists|done]. }
  pose proof Hv as Hv'. rewrite reconnect_policy_valid_spec in Hv'. destruct Hv' as [Hmax Hd].
  eapply wp_mono; [eapply (reconnect_loop_wp _ _ _ 0); [done|by apply (Hrep _ eq_refl)|exact Ho|lia|lia| |]| |].
  - intros _. unfold backoff. change (2 ^ 0) with 1. lia.
  - apply no_attempt.
  - intros [] m' H. by eexists _, _.
  - intros e m' H. right. by eexists _, _.
Qed.

Lemma tcp_reconnect_wp m :
  stream_owns m → (∀ i, self m = Some i → delays_representable (stream_policy i)) →
  wp tcp_reconnect m (λ _ m', stream_owns m' ∧ connected (self m') = true)
    (λ _ m', stream_owns m').
Proof.
  intros Ho Hrep. eapply wp_mono; [by apply tcp_reconnect_attempts| |].
  - by intros _ m' (i & endpoint & _ & _ & _ & Ho' & Hc & _).
  - by intros e m' [[-> _]|(i & endpoint & _ & _ & _ & Ho' & _)].
Qed.

Lemma tcp_destroy_wp m :
  stream_owns m → wp tcp_destroy m (λ _ m', self m' = None ∧ owned ∅ (os m')) (λ _ _, False).
Proof.
  intros Ho. unfold tcp_destroy. wp_step. apply tcp_close_wp; [done|]. intros w Hw _. by wp_step.
Qed.
End Stream.

Section Listener.
Context {W : Type} {G : SocketGhost W} {P : SocketPlatform W} {L : SocketPlatformLaws G P}.
Context (others : gset Z) (log : Z → list byte).
Implicit Types m : machine TcpListener W.

Abbreviation owned := (owns others log).

Definition listener_owns m : Prop := owned (listener_handles (self m)) (os m).

Lemma listener_close_wp m Q F :
  listener_owns m →
  (∀ w, owned ∅ w → Q tt (MkMachine (with_listener_socket invalid_socket (self m)) w (slept m))) →
  wp listener_close m Q F.
Proof.
  intros Ho HQ. unfold listener_close. wp_step. wp_step. unfold listener_owns in Ho.
  destruct m as [[i|] w sl]; simpl in *.
  - wp_step. wp_step. apply (wp_close others log _ _ ∅).
    + by rewrite union_empty_r_L.
    + apply disjoint_empty_r.
    + intros w' Hw' _. wp_step. by apply HQ.
  - wp_step. by apply HQ.
Qed.

Lemma listen_loop_wp backlog addresses last m :
  Forall address_wf addresses → owned ∅ (os m) →
  wp (listen_loop backlog addresses last) m
    (λ _ m', ∃ s, socket_valid s = true ∧ self m' = with_listener_socket s (self m) ∧
       owned {[sock_value s]} (os m'))
    (λ _ m', self m' = self m ∧ owned ∅ (os m')).
Proof.
  intros Ha. revert last m. induction Ha as [|a rest Hwf Ha IH]; intros last m Ho; simpl.
  { destruct last; by wp_step. }
  wp_step. wp_step. wp_step. eapply wp_opens; [done|apply create_socket_law| |].
  2:{ intros e w' _ Ho'. by apply (IH (Some e) (MkMachine _ w' _)). }
  intros s w' Hv _ Ho' _. simpl in Ho'. wp_step. wp_step. wp_step.
  eapply wp_settles; [done|apply set_reuse_address_law; eapply owns_open; [done|clear; set_solver]| |].
  2:{ intros e w2 _ Ho2. wp_step. eapply wp_close_one; [done|done|].
      intros w3 Ho3. by apply (IH (Some e) (MkMachine _ w3 _)). }
  intros _ w2 _ Ho2 _. wp_step. wp_step. wp_step.
  eapply wp_settles; [done|apply bind_socket_law; [|done]; eapply owns_open; [done|clear; set_solver]| |].
  2:{ intros e w3 _ Ho3. wp_step. eapply wp_close_one; [done|done|].
      intros w4 Ho4. by apply (IH (Some e) (MkMachine _ w4 _)). }
  intros _ w3 _ Ho3 _. wp_step. wp_step. wp_step.
  eapply wp_settles; [done|apply listen_socket_law; eapply owns_open; [done|clear; set_solver]| |].
  2:{ intros e w4 _ Ho4. wp_step. eapply wp_close_one; [done|done|].
      intros w5 Ho5. by apply (IH (Some e) (MkMachine _ w5 _)). }
  intros _ w4 _ Ho4 _. wp_step. exists s. rewrite union_empty_r_L in Ho4. done.
Qed.

Lemma listener_bind_wp endpoint backlog m :
  listener_owns m →
  wp (listener_bind endpoint backlog) m
    (λ _ m', listener_owns m' ∧ listening (self m') = true)
    (λ _ m', listener_owns m' ∧ (m' = m ∨ listening (self m') = false)).
Proof.
  intros Ho. unfold listener_bind. wp_step. wp_step.
  destruct m as [[i|] w sl]; simpl.
  2:{ wp_step. by split; [|left]. }
  destruct (_ || _); [wp_step; by split; [|left]|].
  wp_step. apply listener_close_wp; [done|]. intros w1 Ho1. simpl.
  wp_step. wp_step. eapply wp_settles; [done|apply resolve_law| |]; simpl.
  2:{ intros e w2 _ Ho2. split; [done|by right]. }
  intros addresses w2 _ Ho2 [_ Hwf].
  eapply wp_mono; [by apply listen_loop_wp| |]; simpl.
  - intros _ m' (s & Hv & Hself & Ho'). destruct m' as [t' w' sl']; simpl in *. subst.
    unfold listener_owns. simpl. rewrite socket_handles_valid by done. done.
  - intros e m' (Hself & Ho'). destruct m' as [t' w' sl']; simpl in *. subst.
    split; [done|by right].
Qed.

Lemma listening_inv t :
  listening t = true →
  ∃ i, t = Some i ∧ socket_valid (listener_socket i) = true ∧
    listener_handles t = {[sock_value (listener_socket i)]}.
Proof.
  destruct t as [i|]; simpl; [|done]. intros Hv. exists i. by rewrite socket_handles_valid.
Qed.

Lemma listener_impl_wp i m Q F : self m = Some i → Q i m → wp listener_impl m Q F.
Proof. destruct m as [t w sl]. simpl. by intros ->. Qed.

(** An accepted stream comes with one new handle. *)
Lemma listener_accept_wp m :
  listener_owns m →
  wp listener_accept m
    (λ t m', self m' = self m ∧ connected t = true ∧
       stream_policy <$> t = Some default_reconnect_policy ∧
       stream_handles t ## listener_handles (self m) ∧
       owned (stream_handles t ∪ listener_handles (self m)) (os m') ∧
       ∀ h, h ∈ open_handles (os m) → sent_bytes (os m') h = sent_bytes (os m) h)
    (λ _ m', self m' = self m ∧ listener_owns m').
Proof.
  intros Ho. unfold listener_accept. wp_step. wp_step.
  destruct (listening (self m)) eqn:Hl; cbn [negb]; [|by wp_step].
  destruct (listening_inv _ Hl) as (i & Hi & Hv & Hh). unfold listener_owns in *.
  destruct m as [t w sl]; simpl in *. subst t. rewrite Hh in *.
  wp_step. apply (listener_impl_wp i); [done|]. wp_step. wp_step.
  eapply wp_opens; [done|apply accept_socket_law; eapply owns_open; [done|by apply elem_of_singleton]| |].
  2:{ intros e w' _ Ho'. simpl in *. by rewrite Hh. }
  intros acc w' Hv' Hn Ho' Hs'. wp_step. wp_step. wp_step.
  eapply wp_settles; [done|apply apply_options_law; eapply owns_open; [done|clear; set_solver]| |].
  - intros _ w2 [_ Hk] Ho2 _. wp_step. simpl. rewrite socket_handles_valid by done.
    split_and!; [done|done|done|by apply disjoint_singleton_l|done|].
    intros h Hopen. rewrite Hk. apply Hs'. intros ->.
    destruct Ho as (_ & Hop & _), Ho' as (Hd' & _). rewrite Hop in Hopen.
    apply elem_of_union in Hopen as [?|Hopen]; [done|].
    apply (Hd' _ ltac:(apply elem_of_union_l, elem_of_singleton; reflexivity) Hopen).
  - intros e w2 _ Ho2. wp_step. wp_step.
    eapply wp_close; [by rewrite socket_handles_valid| |].
    + rewrite socket_handles_valid by done. by apply disjoint_singleton_l.
    + intros w3 Ho3 _. wp_step. simpl in *. by rewrite Hh.
Qed.

Lemma listener_local_endpoint_wp m :
  listener_owns m →
  wp listener_local_endpoint m (λ _ m', self m' = self m ∧ listener_owns m')
    (λ _ m', self m' = self m ∧ listener_owns m').
Proof.
  intros Ho. unfold listener_local_endpoint. wp_step. wp_step.
  destruct (listening (self m)) eqn:Hl; cbn [negb]; [|by wp_step].
  destruct (listening_inv _ Hl) as (i & Hi & Hv & Hh). unfold listener_owns in *.
  destruct m as [t w sl]; simpl in *. subst t.
  wp_step. apply (listener_impl_wp i); [done|]. wp_step. wp_step.
  eapply wp_settles; [done|apply local_address_law; eapply owns_open;
    [done|rewrite Hh; by apply elem_of_singleton]| |]; simpl; [|done].
  intros a w' _ Ho' Ha. wp_step.
  by eapply wp_settles; [done|by apply to_endpoint_law| |].
Qed.

Lemma listener_destroy_wp m :
  listener_owns m →
  wp listener_destroy m (λ _ m', self m' = None ∧ owned ∅ (os m')) (λ _ _, False).
Proof.
  intros Ho. unfold listener_destroy. wp_step. apply listener_close_wp; [done|].
  intros w Hw. by wp_step.
Qed.
End Listener.

(** ** The settings of a stream never change *)
Definition policy_of (t : TcpStream) : option ReconnectPolicy := stream_policy <$> t.
Abbreviation keeps_policy := (leaves (on_self policy_of)).

Section Policy.
Context {W : Type} {P : SocketPlatform W}.

Lemma keeps_policy_socket s : keeps_policy (set_self (W:=W) (with_stream_socket s)).
Proof. intros [[i|] w sl]; done. Qed.

Lemma keeps_policy_endpoint e : keeps_policy (set_self (W:=W) (with_stream_endpoint e)).
Proof. intros [[i|] w sl]; done. Qed.
#[local] Hint Resolve keeps_policy_socket keeps_policy_endpoint : leaves.

Lemma tcp_close_policy : keeps_policy (tcp_close (W:=W)).
Proof. unfold tcp_close. leaves. Qed.
#[local] Hint Resolve tcp_close_policy : leaves.

Lemma connect_loop_policy options addresses last : keeps_policy (connect_loop options addresses last).
Proof. revert last. induction addresses; intros; simpl; leaves. Qed.
#[local] Hint Resolve connect_loop_policy : leaves.

Lemma tcp_connect_policy e : keeps_policy (tcp_connect e).
Proof. unfold tcp_connect. leaves. Qed.
#[local] Hint Resolve tcp_connect_policy : leaves.

Lemma reconnect_loop_policy fuel p e a d last : keeps_policy (reconnect_loop fuel p e a d last).
Proof. revert a d last. induction fuel; intros; simpl; leaves. Qed.
#[local] Hint Resolve reconnect_loop_policy : leaves.

Lemma tcp_reconnect_policy : keeps_policy (tcp_reconnect (W:=W)).
Proof. unfold tcp_reconnect. leaves. Qed.

Lemma tcp_send_policy bytes : keeps_policy (tcp_send bytes).
Proof. unfold tcp_send, stream_impl. leaves. Qed.
#[local] Hint Resolve tcp_send_policy : leaves.

Lemma send_all_loop_policy fuel bytes offset : keeps_policy (send_all_loop fuel bytes offset).
Proof. revert offset. induction fuel; intros; simpl; leaves. Qed.

Lemma tcp_receive_policy output : keeps_policy (tcp_receive output).
Proof. unfold tcp_receive, stream_impl. leaves. Qed.
End Policy.
