(* ===== verification/UdpFacts.v ===== *)
(** * UDP: ownership, bounds and the destination cache *)

From stdpp Require Import prelude gmap sets list strings.
From Stdlib Require Import ZArith Lia.
From S2P Require Import Prelude Transport SocketLogic Udp.

Definition udp_handles (u : UdpSocket) : gset Z :=
  match u with Some i => socket_handles (udp_socket i) | None => ∅ end.

(** A cached address is one that resolution returned. *)
Definition cache_wf (u : UdpSocket) : Prop :=
  ∀ i a, u = Some i → cached_address i = Some a → address_wf a.

Lemma udp_impl_run {W} (m : machine UdpSocket W) :
  udp_impl m = match self m with Some i => (Ok i, m) | None => (UB, m) end.
Proof. by destruct m as [[i|] w sl]. Qed.

Section Udp.
Context {W : Type} {G : SocketGhost W} {P : SocketPlatform W} {L : SocketPlatformLaws G P}.
Context (others : gset Z) (log : Z → list byte).
Implicit Types m : machine UdpSocket W.

Abbreviation owned := (owns others log).

Definition udp_owns m : Prop := owned (udp_handles (self m)) (os m) ∧ cache_wf (self m).

Lemma cache_wf_socket s family u : cache_wf u → cache_wf (with_udp_socket s family u).
Proof. intros H i a. destruct u as [j|]; [|done]. intros [= <-]. by apply (H j a). Qed.

Lemma cache_wf_cache e a u : address_wf a → cache_wf (with_udp_cache e a u).
Proof. intros H i b. destruct u as [j|]; [|done]. intros [= <-]. by intros [= <-]. Qed.

Lemma udp_impl_wp i m Q F : self m = Some i → Q i m → wp udp_impl m Q F.
Proof. destruct m as [t w sl]. simpl. by intros ->. Qed.

Lemma udp_open_inv u :
  udp_open u = true →
  ∃ i, u = Some i ∧ socket_valid (udp_socket i) = true ∧
    udp_handles u = {[sock_value (udp_socket i)]}.
Proof.
  destruct u as [i|]; simpl; [|done]. intros Hv. exists i. by rewrite socket_handles_valid.
Qed.

Lemma udp_close_wp m Q F :
  udp_owns m →
  (∀ w, owned ∅ w → Q tt (MkMachine (with_udp_socket invalid_socket 0 (self m)) w (slept m))) →
  wp udp_close m Q F.
Proof.
  intros [Ho _] HQ. unfold udp_close. wp_step. wp_step.
  destruct m as [[i|] w sl]; simpl in *.
  - wp_step. wp_step. apply (wp_close others log _ _ ∅).
    + by rewrite union_empty_r_L.
    + apply disjoint_empty_r.
    + intros w' Hw' _. wp_step. by apply HQ.
  - wp_step. by apply HQ.
Qed.

Lemma udp_bind_loop_wp options addresses last m :
  Forall address_wf addresses → owned ∅ (os m) →
  wp (udp_bind_loop options addresses last) m
    (λ _ m', ∃ s a, socket_valid s = true ∧ a ∈ addresses ∧
       self m' = with_udp_socket s (addr_family a) (self m) ∧ owned {[sock_value s]} (os m'))
    (λ _ m', self m' = self m ∧ owned ∅ (os m')).
Proof.
  intros Ha. revert last m. induction Ha as [|a rest Hwf Ha IH]; intros last m Ho; simpl.
  { destruct last; by wp_step. }
  assert (∀ e w, owned ∅ w →
    wp (udp_bind_loop options rest (Some e)) (MkMachine (self m) w (slept m))
      (λ _ m', ∃ s a', socket_valid s = true ∧ a' ∈ a :: rest ∧
         self m' = with_udp_socket s (addr_family a') (self m) ∧ owned {[sock_value s]} (os m'))
      (λ _ m', self m' = self m ∧ owned ∅ (os m'))) as Hnext.
  { intros e w Hw. eapply wp_mono; [by apply (IH (Some e) (MkMachine _ w _))| |done].
    intros _ m' (s & a' & ? & ? & ? & ?). exists s, a'. split_and!; [done|by right|done..]. }
  wp_step. wp_step. wp_step. eapply wp_opens; [done|apply create_socket_law| |].
  2:{ intros e w' _ Ho'. by apply Hnext. }
  intros s w' Hv _ Ho' _. simpl in Ho'. wp_step. wp_step. wp_step.
  eapply wp_settles; [done|apply apply_options_law; eapply owns_open; [done|clear; set_solver]| |].
  2:{ intros e w2 _ Ho2. wp_step. eapply wp_close_one; [done|done|]. intros w3 Ho3. by apply Hnext. }
  intros _ w2 _ Ho2 _. wp_step. wp_step. wp_step.
  eapply wp_settles; [done|apply bind_socket_law; [|done]; eapply owns_open; [done|clear; set_solver]| |].
  2:{ intros e w3 _ Ho3. wp_step. eapply wp_close_one; [done|done|]. intros w4 Ho4. by apply Hnext. }
  intros _ w3 _ Ho3 _. wp_step. exists s, a. rewrite union_empty_r_L in Ho3.
  split_and!; [done|by left|done..].
Qed.

Lemma udp_bind_wp endpoint m :
  udp_owns m →
  wp (udp_bind endpoint) m
    (λ _ m', udp_owns m' ∧ udp_open (self m') = true)
    (λ _ m', udp_owns m' ∧ (m' = m ∨ udp_open (self m') = false)).
Proof.
  intros Ho. pose proof Ho as [_ Hcache]. unfold udp_bind. wp_step. wp_step.
  destruct m as [[i|] w sl]; simpl in *.
  2:{ wp_step. by split; [|left]. }
  destruct (_ || _); [wp_step; by split; [|left]|].
  wp_step. apply udp_close_wp; [done|]. intros w1 Ho1. simpl.
  pose proof (cache_wf_socket invalid_socket 0 _ Hcache) as Hcache'. simpl in Hcache'.
  wp_step. wp_step. eapply wp_settles; [done|apply resolve_law| |]; simpl.
  2:{ intros e w2 _ Ho2. split; [done|by right]. }
  intros addresses w2 _ Ho2 [_ Hwf].
  eapply wp_mono; [by apply udp_bind_loop_wp| |]; simpl.
  - intros _ m' (s & a & Hv & _ & Hself & Ho'). destruct m' as [t' w' sl']; simpl in *. subst.
    unfold udp_owns. simpl. rewrite socket_handles_valid by done. split; [|done].
    split; [done|]. by apply (cache_wf_socket s (addr_family a) (Some i)).
  - intros e m' (Hself & Ho'). destruct m' as [t' w' sl']; simpl in *. subst.
    split; [done|by right].
Qed.

(** [ensure_open] leaves a socket of the address's family, or what there was. *)
Lemma ensure_open_wp a m :
  udp_owns m → is_Some (self m) →
  wp (ensure_open a) m
    (λ _ m', udp_owns m' ∧ udp_open (self m') = true ∧
       (udp_family <$> self m') = Some (addr_family a) ∧
       (cached_endpoint <$> self m') = (cached_endpoint <$> self m))
    (λ _ m', udp_owns m' ∧ self m' = self m).
Proof.
  intros [Ho Hcache] [i Hi]. unfold ensure_open. wp_step. wp_step.
  destruct m as [t w sl]; simpl in *. subst t.
  destruct (udp_open (Some i)) eqn:Hop.
  - wp_step. apply (udp_impl_wp i); [done|].
    destruct (Z.eqb_spec (addr_family a) (udp_family i)) as [->|]; by wp_step.
  - assert (udp_handles (Some i) = ∅) as Hnone.
    { simpl in *. unfold socket_handles. by rewrite Hop. }
    rewrite Hnone in Ho. simpl in Hnone.
    wp_step. wp_step. eapply wp_opens; [done|apply create_socket_law| |].
    2:{ intros e w' _ Ho'. split; [|done]. split; [|done]. simpl. by rewrite Hnone. }
    intros s w' Hv _ Ho' _. simpl in Ho'. wp_step. apply (udp_impl_wp i); [done|].
    wp_step. wp_step. wp_step.
    eapply wp_settles; [done|apply apply_options_law; eapply owns_open; [done|clear; set_solver]| |].
    + intros _ w2 _ Ho2 _. wp_step. simpl. rewrite union_empty_r_L in Ho2.
      split_and!; [split|done|done|done]; simpl; [by rewrite socket_handles_valid|].
      by apply (cache_wf_socket s (addr_family a) (Some i)).
    + intros e w2 _ Ho2. wp_step. eapply wp_close_one; [done|done|]. intros w3 Ho3. wp_step.
      split; [|done]. split; [|done]. simpl. by rewrite Hnone.
Qed.

Lemma send_datagram_wp i a payload m Q F :
  udp_owns m → self m = Some i → udp_open (self m) = true → address_wf a →
  len payload ≤ maximum_payload_size →
  (∀ n w, 0 ≤ n ≤ len payload → udp_owns (MkMachine (self m) w (slept m)) →
     Q n (MkMachine (self m) w (slept m))) →
  (∀ e w, udp_owns (MkMachine (self m) w (slept m)) → F e (MkMachine (self m) w (slept m))) →
  wp (sys (send_datagram (udp_socket i) a payload)) m Q F.
Proof.
  intros [Ho Hcache] Hi Hop Ha Hl HQ HF. destruct (udp_open_inv _ Hop) as (j & Hj & Hv & Hh).
  rewrite Hi in Hj. injection Hj as <-. rewrite Hh in Ho. wp_step.
  eapply wp_transmits; [done|by apply elem_of_singleton|apply send_datagram_law; [|done|done]| |].
  - eapply owns_open; [done|by apply elem_of_singleton].
  - intros n w' Ho' Hn _. apply HQ; [done|]. split; [|done]. simpl. by rewrite Hh.
  - intros e w' _ Ho'. apply HF. split; [|done]. simpl. by rewrite Hh.
Qed.

(** What a call of [send_to] that reports [n] bytes guarantees. *)
Definition sent_to (endpoint : IpEndpoint) (payload : list byte) (n : Z) m : Prop :=
  udp_owns m ∧ udp_open (self m) = true ∧ 0 ≤ n ≤ len payload ∧
  (self m ≫= cached_endpoint) = Some endpoint.

Lemma send_to_loop_wp endpoint payload addresses last m :
  Forall address_wf addresses → udp_owns m → is_Some (self m) →
  len payload ≤ maximum_payload_size →
  wp (send_to_loop endpoint payload addresses last) m
    (λ n m', sent_to endpoint payload n m') (λ _ m', udp_owns m').
Proof.
  intros Ha. revert last m. induction Ha as [|a rest Hwf Ha IH]; intros last m Ho Hs Hl; simpl.
  { destruct last; by wp_step. }
  wp_step. wp_step. eapply wp_mono; [by apply ensure_open_wp| |]; simpl.
  2:{ intros e m' [Ho' Hself]. apply IH; [done|by rewrite Hself|done]. }
  intros _ m' (Ho' & Hop & _ & _). destruct (udp_open_inv _ Hop) as (i & Hi & _).
  wp_step. apply (udp_impl_wp i); [done|]. wp_step. wp_step.
  eapply send_datagram_wp; [done..| |].
  - intros n w Hn Hw. wp_step. wp_step. wp_step. destruct Hw as [Hw Hc]. unfold sent_to. simpl in *.
    split_and!; [split; simpl|..]; rewrite ?Hi in *; simpl in *; try done; try lia.
    by apply (cache_wf_cache endpoint a (Some i)).
  - intros e w Hw. apply IH; [done|by simpl; rewrite Hi|done].
Qed.

Lemma udp_send_to_wp endpoint payload m :
  udp_owns m →
  wp (udp_send_to endpoint payload) m
    (λ n m', sent_to endpoint payload n m' ∧ len payload ≤ maximum_payload_size)
    (λ e m', udp_owns m' ∧
       (maximum_payload_size < len payload → m' = m ∧
          net_code e ∈ [net_invalid_argument; net_datagram_too_large])).
Proof.
  intros Ho. unfold udp_send_to. wp_step. wp_step. pose proof Ho as [_ Hcache].
  destruct m as [[i|] w sl]; cbn [self slept] in *.
  2:{ wp_step. split; [done|]. intros _. split; [done|by left]. }
  destruct (_ || _).
  { wp_step. split; [done|]. intros _. split; [done|by left]. }
  destruct (Z.ltb_spec maximum_payload_size (len payload)).
  { wp_step. split; [done|]. intros _. split; [done|by right; left]. }
  assert (∀ f, wp f (MkMachine (Some i) w sl) (λ n m', sent_to endpoint payload n m') (λ _ m', udp_owns m') →
    wp f (MkMachine (Some i) w sl)
      (λ n m', sent_to endpoint payload n m' ∧ len payload ≤ maximum_payload_size)
      (λ e m', udp_owns m' ∧ (maximum_payload_size < len payload →
         m' = MkMachine (Some i) w sl ∧ net_code e ∈ [net_invalid_argument; net_datagram_too_large])))
    as Hweak.
  { intros f Hf. eapply wp_mono; [exact Hf| |]; simpl; [done|]. intros e m' Hm'. split; [done|lia]. }
  apply Hweak. clear Hweak.
  destruct (bool_decide_reflect (cached_endpoint i = Some endpoint)) as [He|He];
    [destruct (cached_address i) as [a|] eqn:Hca|].
  - wp_step. eapply wp_mono; [by apply ensure_open_wp| |]; simpl; [|by intros e m' []].
    intros _ m' (Ho' & Hop & _ & Hce). destruct (udp_open_inv _ Hop) as (j & Hj & _).
    wp_step. apply (udp_impl_wp j); [done|].
    eapply send_datagram_wp; [done|done|done|by apply (Hcache i)|done| |].
    + intros n w' Hn Hw'. unfold sent_to. simpl. split_and!; [done|done|lia|lia|].
      rewrite Hj in *. simpl in *. injection Hce as ->. done.
    + done.
  - wp_step. wp_step. eapply wp_settles; [apply Ho|apply resolve_law| |]; simpl.
    + intros l w' _ Ho' [_ Hwf]. by apply send_to_loop_wp.
    + done.
  - wp_step. wp_step. eapply wp_settles; [apply Ho|apply resolve_law| |]; simpl.
    + intros l w' _ Ho' [_ Hwf]. by apply send_to_loop_wp.
    + done.
Qed.

Lemma len_resize v n : 0 ≤ n → len (resize v n) = n.
Proof.
  intros Hn. unfold len, resize. rewrite length_app, length_take, length_replicate. lia.
Qed.

Lemma udp_receive_wp maximum_size m :
  udp_owns m → 0 ≤ maximum_size →
  wp (udp_receive maximum_size) m
    (λ d m', udp_owns m' ∧ self m' = self m ∧ udp_open (self m) = true ∧
       len (datagram_payload d) ≤ maximum_size ∧ 0 < maximum_size ≤ maximum_payload_size)
    (λ _ m', udp_owns m' ∧ self m' = self m).
Proof.
  intros [Ho Hcache] Hmax. unfold udp_receive. wp_step. wp_step.
  destruct (udp_open (self m)) eqn:Hop; cbn [negb]; [|by wp_step].
  destruct (Z.eqb_spec maximum_size 0); cbn [orb]; [by wp_step|].
  destruct (Z.ltb_spec maximum_payload_size maximum_size); [by wp_step|].
  destruct (udp_open_inv _ Hop) as (i & Hi & Hv & Hh). unfold udp_owns.
  destruct m as [t w sl]; simpl in *. subst t.
  wp_step. apply (udp_impl_wp i); [done|]. wp_step. wp_step.
  set (payload := replicate (Z.to_nat maximum_size) Byte.x00).
  assert (len payload = maximum_size) as Hlen
    by (unfold len, payload; rewrite length_replicate; lia).
  eapply wp_settles; [done|apply receive_datagram_law| |]; simpl.
  - eapply owns_open; [done|]. rewrite Hh. by apply elem_of_singleton.
  - rewrite Hlen. unfold maximum_payload_size in *. lia.
  - intros [rd out] w' _ Ho' [Ha Hf]. simpl in *. destruct Hf as (Hr & _). wp_step. wp_step.
    eapply wp_settles; [done|by apply to_endpoint_law| |]; simpl; [|done].
    intros e w2 _ Ho2 _. wp_step. simpl. rewrite len_resize by lia. split_and!; [done..|lia|lia|lia].
  - done.
Qed.

Lemma udp_local_endpoint_wp m :
  udp_owns m →
  wp udp_local_endpoint m (λ _ m', udp_owns m' ∧ self m' = self m)
    (λ _ m', udp_owns m' ∧ self m' = self m).
Proof.
  intros [Ho Hcache]. unfold udp_local_endpoint. wp_step. wp_step.
  destruct (udp_open (self m)) eqn:Hop; cbn [negb]; [|by wp_step].
  destruct (udp_open_inv _ Hop) as (i & Hi & Hv & Hh). unfold udp_owns.
  destruct m as [t w sl]; simpl in *. subst t.
  wp_step. apply (udp_impl_wp i); [done|]. wp_step. wp_step.
  eapply wp_settles; [done|apply local_address_law; eapply owns_open;
    [done|rewrite Hh; by apply elem_of_singleton]| |]; simpl; [|done].
  intros a w' _ Ho' Ha. wp_step.
  by eapply wp_settles; [done|by apply to_endpoint_law| |].
Qed.

Lemma udp_destroy_wp m :
  udp_owns m → wp udp_destroy m (λ _ m', self m' = None ∧ owned ∅ (os m')) (λ _ _, False).
Proof.
  intros Ho. unfold udp_destroy. wp_step. apply udp_close_wp; [done|]. intros w Hw. by wp_step.
Qed.
End Udp.
