(* ===== verification/Sockets.v ===== *)
(** * Programs over transport objects

    A process holds any number of streams, listeners and UDP sockets and calls their
    member functions in any order, including the move operations and destructors.  The
    transitions are the member functions themselves; the invariant is that the open
    handles are exactly those the live objects own, each by one object. *)

From stdpp Require Import prelude gmap sets list strings.
From Stdlib Require Import ZArith Lia.
From S2P Require Import Prelude Transport SocketLogic Tcp TcpFacts Udp UdpFacts.

Inductive sock_object :=
| ObjStream (t : TcpStream)
| ObjListener (t : TcpListener)
| ObjUdp (u : UdpSocket).

Definition object_handles (o : sock_object) : gset Z :=
  match o with
  | ObjStream t => stream_handles t
  | ObjListener t => listener_handles t
  | ObjUdp u => udp_handles u
  end.

(** The object after its [implementation_] was moved away. *)
Definition moved_from (o : sock_object) : sock_object :=
  match o with
  | ObjStream _ => ObjStream None
  | ObjListener _ => ObjListener None
  | ObjUdp _ => ObjUdp None
  end.

Definition same_kind (a b : sock_object) : bool :=
  match a, b with
  | ObjStream _, ObjStream _ | ObjListener _, ObjListener _ | ObjUdp _, ObjUdp _ => true
  | _, _ => false
  end.

Abbreviation store := (gmap nat sock_object).

Inductive sock_op :=
| NewStream (x : nat) (options : IoOptions) (policy : ReconnectPolicy)
| NewListener (x : nat) (options : IoOptions)
| NewUdp (x : nat) (options : IoOptions)
| Connect (x : nat) (endpoint : IpEndpoint)
| Reconnect (x : nat)
| Send (x : nat) (bytes : list byte)
| SendAll (x : nat) (bytes : list byte)
| Receive (x : nat) (output : list byte)
| BindListener (x : nat) (endpoint : IpEndpoint) (backlog : Z)
| Accept (x listener : nat)
| BindUdp (x : nat) (endpoint : IpEndpoint)
| SendTo (x : nat) (endpoint : IpEndpoint) (payload : list byte)
| ReceiveFrom (x : nat) (maximum_size : Z)
| LocalEndpoint (x : nat)
| Close (x : nat)
| MoveConstruct (x other : nat)
| MoveAssign (x other : nat)
| Destroy (x : nat).

Inductive sock_answer :=
| Done
| Count (n : Z)
| Filled (n : Z) (output : list byte)
| Local (e : IpEndpoint)
| Packet (d : Datagram).

Section Programs.
Context {W : Type} {P : SocketPlatform W}.
Abbreviation M := (method (machine store W) TransportError).

(** Run a member function on the object [x]; using one that does not exist, or as an
    object of another class, is undefined. *)
Definition on_stream {A} (x : nat) (f : method (machine TcpStream W) TransportError A) : M A := λ m,
  match self m !! x with
  | Some (ObjStream t) =>
      let '(r, m') := f (MkMachine t (os m) (slept m)) in
      (r, MkMachine (<[x := ObjStream (self m')]> (self m)) (os m') (slept m'))
  | _ => (UB, m)
  end.

Definition on_listener {A} (x : nat) (f : method (machine TcpListener W) TransportError A) : M A :=
  λ m,
  match self m !! x with
  | Some (ObjListener t) =>
      let '(r, m') := f (MkMachine t (os m) (slept m)) in
      (r, MkMachine (<[x := ObjListener (self m')]> (self m)) (os m') (slept m'))
  | _ => (UB, m)
  end.

Definition on_udp {A} (x : nat) (f : method (machine UdpSocket W) TransportError A) : M A := λ m,
  match self m !! x with
  | Some (ObjUdp u) =>
      let '(r, m') := f (MkMachine u (os m) (slept m)) in
      (r, MkMachine (<[x := ObjUdp (self m')]> (self m)) (os m') (slept m'))
  | _ => (UB, m)
  end.

(** A new object in free storage. *)
Definition place (x : nat) (o : sock_object) : M unit := λ m,
  match self m !! x with
  | Some _ => (UB, m)
  | None => (Ok tt, MkMachine (<[x := o]> (self m)) (os m) (slept m))
  end.

Definition close_object (x : nat) : M unit := λ m,
  match self m !! x with
  | Some (ObjStream _) => on_stream x tcp_close m
  | Some (ObjListener _) => on_listener x listener_close m
  | Some (ObjUdp _) => on_udp x udp_close m
  | None => (UB, m)
  end.

Definition destroy_object (x : nat) : M unit := λ m,
  match self m !! x with
  | Some (ObjStream _) => (on_stream x tcp_destroy;; set_self (delete x)) m
  | Some (ObjListener _) => (on_listener x listener_destroy;; set_self (delete x)) m
  | Some (ObjUdp _) => (on_udp x udp_destroy;; set_self (delete x)) m
  | None => (UB, m)
  end.

Definition local_endpoint (x : nat) : M IpEndpoint := λ m,
  match self m !! x with
  | Some (ObjListener _) => on_listener x listener_local_endpoint m
  | Some (ObjUdp _) => on_udp x udp_local_endpoint m
  | _ => (UB, m)
  end.

(** The defaulted move constructors: the pointer changes hands. *)
Definition move_construct (x other : nat) : M unit := λ m,
  match self m !! x, self m !! other with
  | None, Some o =>
      (Ok tt, MkMachine (<[other := moved_from o]> (<[x := o]> (self m))) (os m) (slept m))
  | _, _ => (UB, m)
  end.

(** [implementation_ = std::move(other.implementation_)] *)
Definition take_implementation (x other : nat) : M unit :=
  m ← get;
  match self m !! other with
  | Some o => set_self (λ s, <[other := moved_from o]> (<[x := o]> s))
  | None => lift UB
  end.

(** [operator=(T&& other)], one per class: an object assigned to itself stays as it is. *)
Definition tcp_stream_move_assign (x other : nat) : M unit :=
  if bool_decide (x = other) then mret tt
  else on_stream x tcp_close;; take_implementation x other.

Definition tcp_listener_move_assign (x other : nat) : M unit :=
  if bool_decide (x = other) then mret tt
  else on_listener x listener_close;; take_implementation x other.

Definition udp_socket_move_assign (x other : nat) : M unit :=
  if bool_decide (x = other) then mret tt
  else on_udp x udp_close;; take_implementation x other.

(** Only objects of one class are assigned to each other. *)
Definition move_assign (x other : nat) : M unit := λ m,
  match self m !! x, self m !! other with
  | Some (ObjStream _), Some (ObjStream _) => tcp_stream_move_assign x other m
  | Some (ObjListener _), Some (ObjListener _) => tcp_listener_move_assign x other m
  | Some (ObjUdp _), Some (ObjUdp _) => udp_socket_move_assign x other m
  | _, _ => (UB, m)
  end.

Definition sock_step (op : sock_op) : M sock_answer :=
  match op with
  | NewStream x options policy => place x (ObjStream (new_tcp_stream options policy));; mret Done
  | NewListener x options => place x (ObjListener (new_tcp_listener options));; mret Done
  | NewUdp x options => place x (ObjUdp (new_udp_socket options));; mret Done
  | Connect x e => on_stream x (tcp_connect e);; mret Done
  | Reconnect x => on_stream x tcp_reconnect;; mret Done
  | Send x bytes => n ← on_stream x (tcp_send bytes); mret (Count n)
  | SendAll x bytes => n ← on_stream x (tcp_send_all bytes); mret (Count n)
  | Receive x output => r ← on_stream x (tcp_receive output); mret (Filled r.1 r.2)
  | BindListener x e backlog => on_listener x (listener_bind e backlog);; mret Done
  | Accept x l =>
      m ← get;
      match self m !! x with
      | Some _ => lift UB
      | None => t ← on_listener l listener_accept; place x (ObjStream t);; mret Done
      end
  | BindUdp x e => on_udp x (udp_bind e);; mret Done
  | SendTo x e payload => n ← on_udp x (udp_send_to e payload); mret (Count n)
  | ReceiveFrom x n => d ← on_udp x (udp_receive n); mret (Packet d)
  | LocalEndpoint x => e ← local_endpoint x; mret (Local e)
  | Close x => close_object x;; mret Done
  | MoveConstruct x other => move_construct x other;; mret Done
  | MoveAssign x other => move_assign x other;; mret Done
  | Destroy x => destroy_object x;; mret Done
  end.
End Programs.

(** ** When a call is well formed

    The objects exist, have the right class, new storage is free, and arguments are in
    the range of their C++ types.  One condition is the caller's own: the policy of a new
    stream has delays that can be doubled in 64 bits, which [ReconnectPolicy::valid] does
    not check ([delays_representable]); without it a failing [reconnect] is undefined. *)
Definition is_stream (o : option sock_object) : bool :=
  match o with Some (ObjStream _) => true | _ => false end.
Definition is_listener (o : option sock_object) : bool :=
  match o with Some (ObjListener _) => true | _ => false end.
Definition is_udp (o : option sock_object) : bool :=
  match o with Some (ObjUdp _) => true | _ => false end.

Definition op_enabled (op : sock_op) (s : store) : Prop :=
  match op with
  | NewStream x _ policy => s !! x = None ∧ delays_representable policy
  | NewListener x _ | NewUdp x _ => s !! x = None
  | Connect x _ | Reconnect x => is_stream (s !! x) = true
  | Send x bytes | SendAll x bytes | Receive x bytes =>
      is_stream (s !! x) = true ∧ in_memory bytes
  | BindListener x _ _ => is_listener (s !! x) = true
  | Accept x l => s !! x = None ∧ is_listener (s !! l) = true
  | BindUdp x _ | SendTo x _ _ => is_udp (s !! x) = true
  | ReceiveFrom x n => is_udp (s !! x) = true ∧ 0 ≤ n
  | LocalEndpoint x => is_listener (s !! x) = true ∨ is_udp (s !! x) = true
  | Close x | Destroy x => is_Some (s !! x)
  | MoveConstruct x other => s !! x = None ∧ is_Some (s !! other)
  | MoveAssign x other =>
      ∃ a b, s !! x = Some a ∧ s !! other = Some b ∧ same_kind a b = true
  end.

(** The objects a call may change. *)
Definition op_objects (op : sock_op) : gset nat :=
  match op with
  | NewStream x _ _ | NewListener x _ | NewUdp x _ | Connect x _ | Reconnect x | Send x _
  | SendAll x _ | Receive x _ | BindListener x _ _ | BindUdp x _ | SendTo x _ _
  | ReceiveFrom x _ | LocalEndpoint x | Close x | Destroy x => {[x]}
  | Accept x y | MoveConstruct x y | MoveAssign x y => {[x; y]}
  end.

(** ** Reachable states *)
Inductive reachable {W} {P : SocketPlatform W} (m0 : machine store W) : machine store W → Prop :=
| reachable_start : reachable m0 m0
| reachable_call m op r m' :
    reachable m0 m → op_enabled op (self m) → sock_step op m = (r, m') → reachable m0 m'.

(** ** The invariant *)
Definition object_wf (o : sock_object) : Prop :=
  match o with
  | ObjStream t => ∀ i, t = Some i → delays_representable (stream_policy i)
  | ObjListener _ => True
  | ObjUdp u => cache_wf u
  end.

Section Invariant.
Context {W : Type} {G : SocketGhost W}.

(** [base] are the handles of the process that the library does not own, on which
    [log] was sent. *)
Record fleet (base : gset Z) (log : Z → list byte) (s : store) (w : W) : Prop := MkFleet {
  fleet_open : ∀ h, h ∈ open_handles w ↔
    h ∈ base ∨ ∃ x o, s !! x = Some o ∧ h ∈ object_handles o;
  fleet_base : ∀ x o h, s !! x = Some o → h ∈ object_handles o → h ∉ base;
  fleet_unique : ∀ x y o o' h, s !! x = Some o → s !! y = Some o' →
    h ∈ object_handles o → h ∈ object_handles o' → x = y;
  fleet_wf : ∀ x o, s !! x = Some o → object_wf o;
  fleet_log : ∀ h, h ∈ base → sent_bytes w h = log h
}.
End Invariant.
