(* ===== verification/SocketsFacts.v ===== *)
(** * Programs over transport objects: proofs *)

From stdpp Require Import prelude gmap sets list strings.
From Stdlib Require Import ZArith Lia.
From S2P Require Import Prelude Transport SocketLogic Tcp TcpFacts Udp UdpFacts Sockets.

Section Fleet.
Context {W : Type} {G : SocketGhost W} {P : SocketPlatform W} {L : SocketPlatformLaws G P}.
Context (base : gset Z) (log : Z → list byte).
Implicit Types (s : store) (w : W).

Abbreviation inv := (fleet base log).

(** After a call that concerns the objects [xs]: the invariant holds, every other object
    is the same, and nothing was sent on its handle. *)
Definition good (xs : gset nat) (m m' : machine store W) : Prop :=
  inv (self m') (os m') ∧
  ∀ y o, y ∉ xs → self m !! y = Some o →
    self m' !! y = Some o ∧ ∀ h, h ∈ object_handles o → sent_bytes (os m') h = sent_bytes (os m) h.

Definition good_wp {A} (f : method (machine store W) TransportError A) (xs : gset nat)
    (m : machine store W) : Prop :=
  wp f m (λ _ m', good xs m m') (λ _ m', good xs m m').

Lemma good_refl xs m : inv (self m) (os m) → good xs m m.
Proof. by split. Qed.

Lemma good_trans xs m1 m2 m3 : good xs m1 m2 → good xs m2 m3 → good xs m1 m3.
Proof.
  intros [_ H12] [Hi H23]. split; [done|]. intros y o Hy Ho.
  destruct (H12 y o Hy Ho) as [Ho2 Hs2]. destruct (H23 y o Hy Ho2) as [Ho3 Hs3].
  split; [done|]. intros h Hh. by rewrite Hs3, Hs2.
Qed.

Lemma good_mono xs ys m m' : xs ⊆ ys → good xs m m' → good ys m m'.
Proof. intros Hsub [Hi H]. split; [done|]. intros y o Hy. apply H. set_solver. Qed.

(** ** Focusing on one object *)
Lemma fleet_focus s w x o :
  inv s w → s !! x = Some o →
  owns (open_handles w ∖ object_handles o) (sent_bytes w) (object_handles o) w.
Proof.
  intros Hi Hx. split_and!; [set_solver| |done].
  assert (object_handles o ⊆ open_handles w).
  { intros h Hh. apply (fleet_open _ _ _ _ Hi). right. by exists x, o. }
  by apply union_difference_L.
Qed.

Lemma fleet_unfocus s w sl x o o' w' sl' :
  inv s w → s !! x = Some o → object_wf o' →
  owns (open_handles w ∖ object_handles o) (sent_bytes w) (object_handles o') w' →
  good {[x]} (MkMachine s w sl) (MkMachine (<[x := o']> s) w' sl').
Proof.
  intros Hi Hx Hwf (Hd & Hop & Hlog).
  assert (∀ y oy h, y ≠ x → s !! y = Some oy → h ∈ object_handles oy →
    h ∈ open_handles w ∖ object_handles o) as Hothers.
  { intros y oy h Hne Hy Hh. apply elem_of_difference. split.
    - apply (fleet_open _ _ _ _ Hi). right. by exists y, oy.
    - intros Hh'. apply Hne. by eapply (fleet_unique _ _ _ _ Hi). }
  assert (∀ h, h ∈ base → h ∈ open_handles w ∖ object_handles o) as Hbase.
  { intros h Hh. apply elem_of_difference. split.
    - apply (fleet_open _ _ _ _ Hi). by left.
    - intros Hh'. by apply (fleet_base _ _ _ _ Hi x o h). }
  split; [split|]; simpl.
  - intros h. rewrite Hop, elem_of_union, elem_of_difference, (fleet_open _ _ _ _ Hi). split.
    + intros [Hh|[[Hh|(y & oy & Hy & Hh)] Hn]].
      * right. exists x, o'. by rewrite lookup_insert_eq.
      * by left.
      * right. exists y, oy. rewrite lookup_insert_ne; [done|]. intros <-. by simplify_eq.
    + intros [Hh|(y & oy & Hy & Hh)].
      * right. split; [by left|]. apply Hbase in Hh. by apply elem_of_difference in Hh as [_ ?].
      * destruct (decide (y = x)) as [->|Hne]; simplify_map_eq; [by left|right].
        split; [right; by exists y, oy|]. pose proof (Hothers y oy h Hne Hy Hh) as Hh'.
        by apply elem_of_difference in Hh' as [_ ?].
  - intros y oy h Hy Hh Hb. destruct (decide (y = x)) as [->|]; simplify_map_eq.
    + by apply (Hd h), Hbase.
    + by apply (fleet_base _ _ _ _ Hi y oy h).
  - intros y z oy oz h Hy Hz Hhy Hhz.
    destruct (decide (y = x)) as [->|Hy'], (decide (z = x)) as [->|Hz']; simplify_map_eq; [done|..].
    + destruct (Hd h Hhy). by eapply Hothers.
    + destruct (Hd h Hhz). by eapply Hothers.
    + by eapply (fleet_unique _ _ _ _ Hi).
  - intros y oy Hy. destruct (decide (y = x)) as [->|]; simplify_map_eq; [done|].
    by eapply (fleet_wf _ _ _ _ Hi).
  - intros h Hh. rewrite Hlog by (by apply Hbase). by apply (fleet_log _ _ _ _ Hi).
  - intros y oy Hy Hoy. rewrite not_elem_of_singleton in Hy. rewrite lookup_insert_ne by done.
    split; [done|]. intros h Hh. apply Hlog. by eapply Hothers.
Qed.

(** ** Objects that come, move and go *)
Lemma fleet_add s w sl x o w' sl' :
  inv s w → s !! x = None → object_wf o → object_handles o ## open_handles w →
  open_handles w' = object_handles o ∪ open_handles w →
  (∀ h, h ∈ open_handles w → sent_bytes w' h = sent_bytes w h) →
  good {[x]} (MkMachine s w sl) (MkMachine (<[x := o]> s) w' sl').
Proof.
  intros Hi Hx Hwf Hd Hop Hs.
  assert (∀ y oy h, s !! y = Some oy → h ∈ object_handles oy → h ∈ open_handles w) as Hin.
  { intros y oy h Hy Hh. apply (fleet_open _ _ _ _ Hi). right. by exists y, oy. }
  assert (∀ h, h ∈ base → h ∈ open_handles w) as Hbase.
  { intros h Hh. apply (fleet_open _ _ _ _ Hi). by left. }
  split; [split|]; simpl.
  - intros h. rewrite Hop, elem_of_union, (fleet_open _ _ _ _ Hi). split.
    + intros [Hh|[Hh|(y & oy & Hy & Hh)]].
      * right. exists x, o. by rewrite lookup_insert_eq.
      * by left.
      * right. exists y, oy. rewrite lookup_insert_ne; [done|]. congruence.
    + intros [Hh|(y & oy & Hy & Hh)]; [by right; left|].
      destruct (decide (y = x)) as [->|]; simplify_map_eq; [by left|].
      right; right. by exists y, oy.
  - intros y oy h Hy Hh Hb. destruct (decide (y = x)) as [->|]; simplify_map_eq.
    + by apply (Hd h), Hbase.
    + by apply (fleet_base _ _ _ _ Hi y oy h).
  - intros y z oy oz h Hy Hz Hhy Hhz.
    destruct (decide (y = x)) as [->|Hy'], (decide (z = x)) as [->|Hz']; simplify_map_eq; [done|..].
    + destruct (Hd h Hhy). by eapply Hin.
    + destruct (Hd h Hhz). by eapply Hin.
    + by eapply (fleet_unique _ _ _ _ Hi).
  - intros y oy Hy. destruct (decide (y = x)) as [->|]; simplify_map_eq; [done|].
    by eapply (fleet_wf _ _ _ _ Hi).
  - intros h Hh. rewrite Hs by (by apply Hbase). by apply (fleet_log _ _ _ _ Hi).
  - intros y oy Hy Hoy. rewrite not_elem_of_singleton in Hy. rewrite lookup_insert_ne by done.
    split; [done|]. intros h Hh. apply Hs. by eapply Hin.
Qed.

(** An object without a handle does not count. *)
Lemma fleet_remove s w sl x o :
  inv s w → s !! x = Some o → object_handles o = ∅ →
  good {[x]} (MkMachine s w sl) (MkMachine (delete x s) w sl).
Proof.
  intros Hi Hx Hnone. split; [split|]; simpl.
  - intros h. rewrite (fleet_open _ _ _ _ Hi). split; (intros [Hh|(y & oy & Hy & Hh)]; [by left|right]).
    + exists y, oy. rewrite lookup_delete_ne; [done|]. intros <-. simplify_eq.
      rewrite Hnone in Hh. set_solver.
    + apply lookup_delete_Some in Hy as [_ Hy]. by exists y, oy.
  - intros y oy h [_ Hy]%lookup_delete_Some. by apply (fleet_base _ _ _ _ Hi y oy h).
  - intros y z oy oz h [_ Hy]%lookup_delete_Some [_ Hz]%lookup_delete_Some.
    by apply (fleet_unique _ _ _ _ Hi).
  - intros y oy [_ Hy]%lookup_delete_Some. by eapply (fleet_wf _ _ _ _ Hi).
  - apply (fleet_log _ _ _ _ Hi).
  - intros y oy Hy Hoy. rewrite not_elem_of_singleton in Hy. by rewrite lookup_delete_ne.
Qed.

Lemma moved_from_handles o : object_handles (moved_from o) = ∅.
Proof. by destruct o. Qed.

Lemma moved_from_wf o : object_wf (moved_from o).
Proof. by destruct o. Qed.

(** [x] takes the handle of [other]; [x] is new or has none. *)
Lemma fleet_move s w sl x other o :
  inv s w → x ≠ other → s !! other = Some o →
  (∀ a, s !! x = Some a → object_handles a = ∅) →
  good {[x; other]} (MkMachine s w sl)
    (MkMachine (<[other := moved_from o]> (<[x := o]> s)) w sl).
Proof.
  intros Hi Hne Ho Hx. set (s' := <[other := moved_from o]> (<[x := o]> s)).
  assert (∀ y oy h, s' !! y = Some oy → h ∈ object_handles oy →
    ∃ z, s !! z = Some oy ∧ (y = x ∧ z = other ∨ y ≠ x ∧ y ≠ other ∧ z = y)) as Hback.
  { intros y oy h Hy Hh. unfold s' in Hy. destruct (decide (y = other)) as [->|].
    - simplify_map_eq. rewrite moved_from_handles in Hh. set_solver.
    - destruct (decide (y = x)) as [->|]; simplify_map_eq; [exists other; auto|exists y; auto]. }
  split; [split|]; simpl; fold s'.
  - intros h. rewrite (fleet_open _ _ _ _ Hi). split; (intros [Hh|(y & oy & Hy & Hh)]; [by left|right]).
    + destruct (decide (y = other)) as [->|].
      * rewrite Ho in Hy. injection Hy as <-. exists x, o. unfold s'. by simplify_map_eq.
      * exists y, oy. unfold s'. rewrite lookup_insert_ne by done. rewrite lookup_insert_ne; [done|].
        intros <-. rewrite (Hx _ Hy) in Hh. set_solver.
    + destruct (Hback y oy h Hy Hh) as (z & Hz & _). by exists z, oy.
  - intros y oy h Hy Hh. destruct (Hback y oy h Hy Hh) as (z & Hz & _).
    by apply (fleet_base _ _ _ _ Hi z oy h).
  - intros y1 y2 o1 o2 h Hy1 Hy2 Hh1 Hh2.
    destruct (Hback _ _ _ Hy1 Hh1) as (z1 & Hz1 & C1), (Hback _ _ _ Hy2 Hh2) as (z2 & Hz2 & C2).
    pose proof (fleet_unique _ _ _ _ Hi z1 z2 o1 o2 h Hz1 Hz2 Hh1 Hh2) as Heq.
    destruct C1 as [[-> ->]|(? & ? & ->)], C2 as [[-> ->]|(? & ? & ->)]; subst; done.
  - intros y oy Hy. unfold s' in Hy. destruct (decide (y = other)) as [->|]; simplify_map_eq;
      [apply moved_from_wf|].
    destruct (decide (y = x)) as [->|]; simplify_map_eq; by eapply (fleet_wf _ _ _ _ Hi).
  - apply (fleet_log _ _ _ _ Hi).
  - intros y oy Hy Hoy. split; [|done]. unfold s'. rewrite !lookup_insert_ne by set_solver. done.
Qed.

(** ** Member functions *)

Lemma on_stream_wp {A} x (f : method (machine TcpStream W) TransportError A) s w sl t Q F :
  inv s w → s !! x = Some (ObjStream t) →
  let others := open_handles w ∖ stream_handles t in
  wp f (MkMachine t w sl)
    (λ a m', stream_owns others (sent_bytes w) m' ∧ object_wf (ObjStream (self m')) ∧
       (good {[x]} (MkMachine s w sl)
          (MkMachine (<[x := ObjStream (self m')]> s) (os m') (slept m')) →
        Q a (MkMachine (<[x := ObjStream (self m')]> s) (os m') (slept m'))))
    (λ e m', stream_owns others (sent_bytes w) m' ∧ object_wf (ObjStream (self m')) ∧
       (good {[x]} (MkMachine s w sl)
          (MkMachine (<[x := ObjStream (self m')]> s) (os m') (slept m')) →
        F e (MkMachine (<[x := ObjStream (self m')]> s) (os m') (slept m')))) →
  wp (on_stream x f) (MkMachine s w sl) Q F.
Proof.
  intros Hi Hx others Hf. unfold wp, on_stream in *. simpl. rewrite Hx.
  destruct (f (MkMachine t w sl)) as [[a|e| |] m']; simpl; [| |done..];
    destruct Hf as (Ho & Hwf & HQ); apply HQ; by eapply fleet_unfocus.
Qed.

(** A member function that keeps ownership and the settings of the stream. *)
Lemma on_stream_good {A} x (f : method (machine TcpStream W) TransportError A) s w sl t :
  inv s w → s !! x = Some (ObjStream t) → keeps_policy f →
  (∀ others log, stream_owns others log (MkMachine t w sl) →
     wp f (MkMachine t w sl) (λ _ m', stream_owns others log m') (λ _ m', stream_owns others log m')) →
  good_wp (on_stream x f) {[x]} (MkMachine s w sl).
Proof.
  intros Hi Hx Hk Hf. pose proof (fleet_focus _ _ _ _ Hi Hx) as Ho.
  specialize (Hf _ _ Ho). eapply on_stream_wp; [done..|]. simpl.
  specialize (Hk (MkMachine t w sl)). unfold wp in *.
  assert (∀ t', stream_policy <$> t' = stream_policy <$> t → object_wf (ObjStream t')) as Hwf.
  { intros t' Ht' i ->. destruct t as [j|]; [|done]. simpl in Ht'. injection Ht' as ->.
    by apply (fleet_wf _ _ _ _ Hi _ _ Hx j). }
  destruct (f (MkMachine t w sl)) as [[a|e| |] m']; simpl in *; [| |done..];
    (split_and!; [exact Hf|by apply Hwf|done]).
Qed.

Lemma on_listener_wp {A} x (f : method (machine TcpListener W) TransportError A) s w sl t Q F :
  inv s w → s !! x = Some (ObjListener t) →
  let others := open_handles w ∖ listener_handles t in
  wp f (MkMachine t w sl)
    (λ a m', listener_owns others (sent_bytes w) m' ∧
       (good {[x]} (MkMachine s w sl)
          (MkMachine (<[x := ObjListener (self m')]> s) (os m') (slept m')) →
        Q a (MkMachine (<[x := ObjListener (self m')]> s) (os m') (slept m'))))
    (λ e m', listener_owns others (sent_bytes w) m' ∧
       (good {[x]} (MkMachine s w sl)
          (MkMachine (<[x := ObjListener (self m')]> s) (os m') (slept m')) →
        F e (MkMachine (<[x := ObjListener (self m')]> s) (os m') (slept m')))) →
  wp (on_listener x f) (MkMachine s w sl) Q F.
Proof.
  intros Hi Hx others Hf. unfold wp, on_listener in *. simpl. rewrite Hx.
  destruct (f (MkMachine t w sl)) as [[a|e| |] m']; simpl; [| |done..];
    destruct Hf as (Ho & HQ); apply HQ; by eapply fleet_unfocus.
Qed.

Lemma on_listener_good {A} x (f : method (machine TcpListener W) TransportError A) s w sl t :
  inv s w → s !! x = Some (ObjListener t) →
  (∀ others log, listener_owns others log (MkMachine t w sl) →
     wp f (MkMachine t w sl) (λ _ m', listener_owns others log m')
       (λ _ m', listener_owns others log m')) →
  good_wp (on_listener x f) {[x]} (MkMachine s w sl).
Proof.
  intros Hi Hx Hf. pose proof (fleet_focus _ _ _ _ Hi Hx) as Ho.
  specialize (Hf _ _ Ho). eapply on_listener_wp; [done..|]. simpl.
  eapply wp_mono; [exact Hf|auto..].
Qed.

Lemma on_udp_wp {A} x (f : method (machine UdpSocket W) TransportError A) s w sl u Q F :
  inv s w → s !! x = Some (ObjUdp u) →
  let others := open_handles w ∖ udp_handles u in
  wp f (MkMachine u w sl)
    (λ a m', udp_owns others (sent_bytes w) m' ∧
       (good {[x]} (MkMachine s w sl)
          (MkMachine (<[x := ObjUdp (self m')]> s) (os m') (slept m')) →
        Q a (MkMachine (<[x := ObjUdp (self m')]> s) (os m') (slept m'))))
    (λ e m', udp_owns others (sent_bytes w) m' ∧
       (good {[x]} (MkMachine s w sl)
          (MkMachine (<[x := ObjUdp (self m')]> s) (os m') (slept m')) →
        F e (MkMachine (<[x := ObjUdp (self m')]> s) (os m') (slept m')))) →
  wp (on_udp x f) (MkMachine s w sl) Q F.
Proof.
  intros Hi Hx others Hf. unfold wp, on_udp in *. simpl. rewrite Hx.
  destruct (f (MkMachine u w sl)) as [[a|e| |] m']; simpl; [| |done..];
    destruct Hf as ([Ho Hc] & HQ); apply HQ; by eapply fleet_unfocus.
Qed.

Lemma on_udp_good {A} x (f : method (machine UdpSocket W) TransportError A) s w sl u :
  inv s w → s !! x = Some (ObjUdp u) →
  (∀ others log, udp_owns others log (MkMachine u w sl) →
     wp f (MkMachine u w sl) (λ _ m', udp_owns others log m') (λ _ m', udp_owns others log m')) →
  good_wp (on_udp x f) {[x]} (MkMachine s w sl).
Proof.
  intros Hi Hx Hf. pose proof (fleet_focus _ _ _ _ Hi Hx) as Ho.
  pose proof (fleet_wf _ _ _ _ Hi _ _ Hx) as Hc.
  specialize (Hf _ _ (conj Ho Hc)). eapply on_udp_wp; [done..|]. simpl.
  eapply wp_mono; [exact Hf|auto..].
Qed.

Lemma good_wp_ret {A B} (f : method (machine store W) TransportError A) (g : A → B) xs m :
  good_wp f xs m → good_wp (a ← f; mret (g a)) xs m.
Proof. intros Hf. unfold good_wp in *. apply wp_bind. eapply wp_mono; [exact Hf|done|done]. Qed.

(** ** Closing and destroying *)
Lemma close_object_wp x s w sl o Q F :
  inv s w → s !! x = Some o →
  (∀ o' w', same_kind o o' = true → object_handles o' = ∅ →
     good {[x]} (MkMachine s w sl) (MkMachine (<[x := o']> s) w' sl) →
     Q tt (MkMachine (<[x := o']> s) w' sl)) →
  wp (close_object x) (MkMachine s w sl) Q F.
Proof.
  intros Hi Hx HQ. pose proof (fleet_focus _ _ _ _ Hi Hx) as Ho.
  pose proof (fleet_wf _ _ _ _ Hi _ _ Hx) as Hwf.
  unfold wp, close_object. simpl. rewrite Hx. destruct o as [t|t|u].
  - change (wp (on_stream x tcp_close) (MkMachine s w sl) Q F).
    eapply on_stream_wp; [done..|]. simpl. eapply tcp_close_wp; [exact Ho|].
    intros w' Hw' _. simpl. destruct t as [i|]; simpl in *.
    + split_and!; [done|by intros j [= <-]; apply (Hwf i)|]. intros Hg. by apply HQ.
    + split_and!; [done|done|]. intros Hg. by apply HQ.
  - change (wp (on_listener x listener_close) (MkMachine s w sl) Q F).
    eapply on_listener_wp; [done..|]. simpl. eapply listener_close_wp; [exact Ho|].
    intros w' Hw'. simpl. destruct t as [i|]; simpl in *; (split; [done|]; intros Hg; by apply HQ).
  - change (wp (on_udp x udp_close) (MkMachine s w sl) Q F).
    eapply on_udp_wp; [done..|]. simpl. eapply udp_close_wp; [by split|].
    intros w' Hw'. simpl. split.
    + split; [by destruct u|]. by apply cache_wf_socket.
    + intros Hg. apply HQ; [done|by destruct u|done].
Qed.

Lemma destroy_object_good x s w sl :
  inv s w → is_Some (s !! x) → good_wp (destroy_object x) {[x]} (MkMachine s w sl).
Proof.
  intros Hi [o Hx]. pose proof (fleet_focus _ _ _ _ Hi Hx) as Ho.
  pose proof (fleet_wf _ _ _ _ Hi _ _ Hx) as Hwf.
  assert (∀ o' w' sl', object_handles o' = ∅ →
    good {[x]} (MkMachine s w sl) (MkMachine (<[x := o']> s) w' sl') →
    good {[x]} (MkMachine s w sl) (MkMachine (delete x (<[x := o']> s)) w' sl')) as Hdel.
  { intros o' w' sl' Hnone Hg. eapply good_trans; [exact Hg|].
    apply (fleet_remove _ _ _ _ o'); [apply Hg|apply lookup_insert_eq|done]. }
  unfold good_wp, wp, destroy_object. simpl. rewrite Hx. destruct o as [t|t|u].
  - change (good_wp (on_stream x tcp_destroy;; set_self (delete x)) {[x]} (MkMachine s w sl)).
    unfold good_wp. wp_step. eapply on_stream_wp; [done..|]. simpl.
    eapply wp_mono; [eapply tcp_destroy_wp; exact Ho| |done].
    intros _ m' [Hself Ho']. destruct m' as [t' w' sl']; simpl in *. subst t'.
    split_and!; [done|done|]. intros Hg. wp_step. by apply Hdel.
  - change (good_wp (on_listener x listener_destroy;; set_self (delete x)) {[x]} (MkMachine s w sl)).
    unfold good_wp. wp_step. eapply on_listener_wp; [done..|]. simpl.
    eapply wp_mono; [eapply listener_destroy_wp; exact Ho| |done].
    intros _ m' [Hself Ho']. destruct m' as [t' w' sl']; simpl in *. subst t'.
    split; [done|]. intros Hg. wp_step. by apply Hdel.
  - change (good_wp (on_udp x udp_destroy;; set_self (delete x)) {[x]} (MkMachine s w sl)).
    unfold good_wp. wp_step. eapply on_udp_wp; [done..|]. simpl.
    eapply wp_mono; [eapply udp_destroy_wp; by split| |done].
    intros _ m' [Hself Ho']. destruct m' as [t' w' sl']; simpl in *. subst t'.
    split; [by split|]. intros Hg. wp_step. by apply Hdel.
Qed.

Lemma place_good x o s w sl :
  inv s w → s !! x = None → object_wf o → object_handles o = ∅ →
  good_wp (place x o) {[x]} (MkMachine s w sl).
Proof.
  intros Hi Hx Hwf Hnone. unfold good_wp, wp, place. simpl. rewrite Hx.
  apply fleet_add; [done..| |by rewrite Hnone, union_empty_l_L|done].
  rewrite Hnone. apply disjoint_empty_l.
Qed.

Lemma accept_good x l s w sl :
  inv s w → s !! x = None → is_listener (s !! l) = true →
  good_wp (sock_step (Accept x l)) {[x; l]} (MkMachine s w sl).
Proof.
  intros Hi Hx Hl. destruct (s !! l) as [[|t|]|] eqn:El; try done.
  assert (x ≠ l) as Hne by congruence. unfold good_wp. simpl. wp_step. wp_step. simpl. rewrite Hx.
  pose proof (fleet_focus _ _ _ _ Hi El) as Ho. wp_step.
  unfold wp, on_listener. simpl. rewrite El.
  pose proof (listener_accept_wp _ _ (MkMachine t w sl) Ho) as Hacc. unfold wp in Hacc.
  destruct (listener_accept (MkMachine t w sl)) as [[t'|e| |] m']; try done.
  - destruct m' as [self' w' sl']. simpl in *. destruct Hacc as (-> & Hc & Hpol & Hd & Ho' & Hsent).
    rewrite (insert_id s) by done. unfold mbind, method_bind, place. simpl. rewrite Hx. simpl.
    destruct Ho' as (Hd' & Hop & Hlog).
    assert (listener_handles t ⊆ open_handles w) as Hsub.
    { intros h Hh. apply (fleet_open _ _ _ _ Hi). right. by exists l, (ObjListener t). }
    eapply good_mono; [apply union_subseteq_l|].
    apply fleet_add; [done|done| | | |].
    + intros i ->. simpl in Hpol. injection Hpol as ->. by_compute.
    + simpl. intros h H1 H2. destruct (decide (h ∈ listener_handles t)).
      * by apply (Hd h).
      * apply (Hd' h); [by apply elem_of_union_l|by apply elem_of_difference].
    + simpl. rewrite Hop, <- union_assoc_L. f_equal. symmetry. by apply union_difference_L.
    + done.
  - destruct m' as [self' w' sl']. simpl in *. destruct Hacc as (-> & Ho').
    eapply good_mono; [apply union_subseteq_r|].
    by eapply fleet_unfocus.
Qed.

Lemma move_construct_good x other s w sl :
  inv s w → s !! x = None → is_Some (s !! other) →
  good_wp (move_construct x other) {[x; other]} (MkMachine s w sl).
Proof.
  intros Hi Hx [o Ho]. unfold good_wp, wp, move_construct. simpl. rewrite Hx, Ho.
  apply fleet_move; [done|congruence|done|congruence].
Qed.

(** The three assignment operators are one program over the class's [close]. *)
Lemma move_assign_eq x other m a b :
  self m !! x = Some a → self m !! other = Some b → same_kind a b = true → x ≠ other →
  move_assign x other m = (close_object x;; take_implementation x other) m.
Proof.
  intros Hx Ho Hk Hne. unfold move_assign, tcp_stream_move_assign, tcp_listener_move_assign,
    udp_socket_move_assign. rewrite Hx, Ho, bool_decide_eq_false_2 by done.
  unfold mbind, method_bind, close_object. rewrite Hx. by destruct a, b.
Qed.

Lemma move_assign_self x m a :
  self m !! x = Some a → move_assign x x m = (Ok tt, m).
Proof.
  intros Hx. unfold move_assign, tcp_stream_move_assign, tcp_listener_move_assign,
    udp_socket_move_assign. rewrite Hx, bool_decide_eq_true_2 by done. by destruct a.
Qed.

Lemma move_assign_good x other s w sl a b :
  inv s w → s !! x = Some a → s !! other = Some b → same_kind a b = true →
  good_wp (move_assign x other) {[x; other]} (MkMachine s w sl).
Proof.
  intros Hi Hx Ho Hk. unfold good_wp. destruct (decide (x = other)) as [->|Hne].
  { unfold wp. erewrite move_assign_self by done. by apply good_refl. }
  apply (wp_eq (close_object x;; take_implementation x other)); [by eapply move_assign_eq|].
  wp_step. eapply close_object_wp; [done..|]. intros o' w' _ Hnone Hg. unfold take_implementation.
  wp_step. wp_step. simpl. rewrite lookup_insert_ne, Ho by done. wp_step. simpl.
  eapply good_trans; [eapply good_mono; [apply union_subseteq_l|exact Hg]|].
  apply fleet_move; [apply Hg|done|by rewrite lookup_insert_ne|].
  intros o2 Ho2. rewrite lookup_insert_eq in Ho2. by injection Ho2 as <-.
Qed.

Lemma stream_step_good {A} x (f : method (machine TcpStream W) TransportError A) s w sl :
  inv s w → is_stream (s !! x) = true → keeps_policy f →
  (∀ others log m, stream_owns others log m → (∀ i, self m = Some i → delays_representable (stream_policy i)) →
     wp f m (λ _ m', stream_owns others log m') (λ _ m', stream_owns others log m')) →
  good_wp (on_stream x f) {[x]} (MkMachine s w sl).
Proof.
  intros Hi Hx Hk Hf. destruct (s !! x) as [[t| |]|] eqn:E; try done.
  eapply on_stream_good; [done..|]. intros others' log' Ho. apply Hf; [done|].
  apply (fleet_wf _ _ _ _ Hi _ _ E).
Qed.

Lemma listener_step_good {A} x (f : method (machine TcpListener W) TransportError A) s w sl :
  inv s w → is_listener (s !! x) = true →
  (∀ others log m, listener_owns others log m →
     wp f m (λ _ m', listener_owns others log m') (λ _ m', listener_owns others log m')) →
  good_wp (on_listener x f) {[x]} (MkMachine s w sl).
Proof.
  intros Hi Hx Hf. destruct (s !! x) as [[|t|]|] eqn:E; try done.
  eapply on_listener_good; [done..|]. intros others' log' Ho. by apply Hf.
Qed.

Lemma udp_step_good {A} x (f : method (machine UdpSocket W) TransportError A) s w sl :
  inv s w → is_udp (s !! x) = true →
  (∀ others log m, udp_owns others log m →
     wp f m (λ _ m', udp_owns others log m') (λ _ m', udp_owns others log m')) →
  good_wp (on_udp x f) {[x]} (MkMachine s w sl).
Proof.
  intros Hi Hx Hf. destruct (s !! x) as [[| |u]|] eqn:E; try done.
  eapply on_udp_good; [done..|]. intros others' log' Ho. by apply Hf.
Qed.

Lemma close_object_good x s w sl :
  inv s w → is_Some (s !! x) → good_wp (close_object x) {[x]} (MkMachine s w sl).
Proof. intros Hi [o Hx]. unfold good_wp. by eapply close_object_wp. Qed.

Lemma local_endpoint_good x s w sl :
  inv s w → is_listener (s !! x) = true ∨ is_udp (s !! x) = true →
  good_wp (local_endpoint x) {[x]} (MkMachine s w sl).
Proof.
  intros Hi Hx. unfold good_wp, wp, local_endpoint. simpl.
  destruct (s !! x) as [[t|t|u]|] eqn:E; simpl in Hx; try (exfalso; by destruct Hx).
  - apply listener_step_good; [done|by rewrite E|]. intros others' log' m Ho.
    eapply wp_mono; [by apply listener_local_endpoint_wp| |]; simpl; intros ? ? H; apply H.
  - apply udp_step_good; [done|by rewrite E|]. intros others' log' m Ho.
    eapply wp_mono; [by apply udp_local_endpoint_wp| |]; simpl; intros ? ? H; apply H.
Qed.

(** Every well-formed call keeps the fleet in order. *)
Lemma sock_step_good op m :
  inv (self m) (os m) → op_enabled op (self m) → good_wp (sock_step op) (op_objects op) m.
Proof.
  destruct m as [s w sl]. simpl. intros Hi Hop.
  destruct op; simpl in Hop |- *; try (apply good_wp_ret).
  - destruct Hop as [Hx Hp]. apply place_good; [done..| |done]. by intros i [= <-].
  - by apply place_good.
  - apply place_good; [done..| |done]. by intros i a [= <-].
  - apply stream_step_good; [done..|apply tcp_connect_policy|]. intros others' log' m Ho _.
    eapply wp_mono; [by apply tcp_connect_wp| |]; simpl; intros ? ? H; apply H.
  - apply stream_step_good; [done..|apply tcp_reconnect_policy|]. intros others' log' m Ho Hp.
    eapply wp_mono; [by apply tcp_reconnect_wp| |]; simpl; intros ? ? H; apply H.
  - destruct Hop as [Hx Hb]. apply stream_step_good; [done..|apply tcp_send_policy|].
    intros others' log' m Ho _.
    eapply wp_mono; [by apply tcp_send_wp| |]; simpl; intros ? ? H; apply H.
  - destruct Hop as [Hx Hb]. apply stream_step_good; [done..|apply send_all_loop_policy|].
    intros others' log' m Ho _.
    eapply wp_mono; [apply (send_all_loop_wp others' log' _ [] bytes); [done|done|lia]| |]; simpl;
      intros ? ? H; apply H.
  - destruct Hop as [Hx Hb]. apply stream_step_good; [done..|apply tcp_receive_policy|].
    intros others' log' m Ho _.
    eapply wp_mono; [by apply tcp_receive_wp| |]; simpl; intros ? ? H; apply H.
  - apply listener_step_good; [done..|]. intros others' log' m Ho.
    eapply wp_mono; [by apply listener_bind_wp| |]; simpl; intros ? ? H; apply H.
  - destruct Hop. by apply accept_good.
  - apply udp_step_good; [done..|]. intros others' log' m Ho.
    eapply wp_mono; [by apply udp_bind_wp| |]; simpl; intros ? ? H; apply H.
  - apply udp_step_good; [done..|]. intros others' log' m Ho.
    eapply wp_mono; [by apply udp_send_to_wp| |]; simpl; intros ? ? H; apply H.
  - destruct Hop. apply udp_step_good; [done..|]. intros others' log' m Ho.
    eapply wp_mono; [by apply udp_receive_wp| |]; simpl; intros ? ? H'; apply H'.
  - by apply local_endpoint_good.
  - by apply close_object_good.
  - destruct Hop. by apply move_construct_good.
  - destruct Hop as (a & b & ? & ? & ?). by eapply move_assign_good.
  - by apply destroy_object_good.
Qed.

Lemma reachable_fleet m0 m :
  inv (self m0) (os m0) → reachable m0 m → inv (self m) (os m).
Proof.
  intros H0 Hr. induction Hr as [|m op r m' Hr IH Hop Hstep]; [done|].
  pose proof (sock_step_good op m IH Hop) as Hg. unfold good_wp, wp in Hg. rewrite Hstep in Hg.
  destruct r; [apply Hg|apply Hg|done..].
Qed.
End Fleet.
