(* ===== verification/SocketAddr.v ===== *)
(** * What the two platform files share

    Socket addresses, the conversion of a resolved address, and the standard library's
    string to number conversions that [socket_posix.cpp] and [socket_windows.cpp] use. *)

From stdpp Require Import prelude gmap sets list strings pretty.
From Stdlib Require Import ZArith Lia.
From S2P Require Import Prelude Transport SocketLogic.

(** Constants of the socket interface. *)
Inductive socktype := SOCK_STREAM | SOCK_DGRAM.
Inductive ipproto := IPPROTO_TCP | IPPROTO_UDP.

(** A [sockaddr]: its family, and the memory it points to. *)
Record sockaddr := MkSockaddr { sa_family : Z; sa_memory : list byte }.

(** One node of the list of [getaddrinfo]. *)
Record addrinfo := MkAddrinfo { ai_addr : sockaddr; ai_addrlen : Z }.

(** The hints: the family is unspecified. *)
Record addrinfo_hints := MkHints {
  ai_socktype : socktype;
  ai_protocol : ipproto;
  ai_passive : bool
}.

Definition socktype_of (type : SocketType) : socktype :=
  match type with stream_type => SOCK_STREAM | datagram_type => SOCK_DGRAM end.

Definition protocol_of (type : SocketType) : ipproto :=
  match type with stream_type => IPPROTO_TCP | datagram_type => IPPROTO_UDP end.

Definition resolve_hints (type : SocketType) (passive : bool) : addrinfo_hints :=
  MkHints (socktype_of type) (protocol_of type) passive.

(** [passive && endpoint.host() == "*" ? nullptr : endpoint.host().c_str()] *)
Definition host_argument (endpoint : IpEndpoint) (passive : bool) : option string :=
  if passive && bool_decide (host_ endpoint = "*"%string) then None else Some (host_ endpoint).

Definition INT_MAX : Z := 2147483647.

(** A call of the operating system. *)
Definition call {W A} (f : W → A * W) : method W TransportError A := λ w,
  let '(a, w') := f w in (Ok a, w').

(** [std::array<std::byte, 128> storage{}] *)
Definition zero_storage : list byte := replicate (Z.to_nat storage_size) Byte.x00.

(** [copy_address]: the storage starts out zeroed. *)
Definition copy_address (address : sockaddr) (size : Z) : outcome TransportError NativeAddress :=
  storage ← memcpy zero_storage (sa_memory address) size;
  Ok (MkNativeAddress storage size (sa_family address)).

(** The loop of [resolve] over the list of entries. *)
Fixpoint collect_addresses (entries : list addrinfo) (addresses : list NativeAddress) :
    outcome TransportError (list NativeAddress) :=
  match entries with
  | [] => Ok addresses
  | entry :: rest =>
      if ai_addrlen entry <=? storage_size then
        a ← copy_address (ai_addr entry) (ai_addrlen entry);
        collect_addresses rest (addresses ++ [a])
      else collect_addresses rest addresses
  end.

(** ** [std::stoul] in base ten; [None] is an exception. *)
Definition digit_value (c : Ascii.ascii) : option Z :=
  let n := Z.of_nat (Ascii.nat_of_ascii c) in
  if (48 <=? n) && (n <=? 57) then Some (n - 48) else None.

Fixpoint read_digits (s : string) (acc : option Z) : option Z :=
  match s with
  | String c rest =>
      match digit_value c with
      | Some d => read_digits rest (Some (default 0 acc * 10 + d))
      | None => acc
      end
  | EmptyString => acc
  end.

Definition is_space (c : Ascii.ascii) : bool :=
  let n := Z.of_nat (Ascii.nat_of_ascii c) in (n =? 32) || ((9 <=? n) && (n <=? 13)).

Fixpoint skip_space (s : string) : string :=
  match s with
  | String c rest => if is_space c then skip_space rest else s
  | EmptyString => s
  end.

(** [width] is the width of [unsigned long]. *)
Definition stoul (width : Z) (s : string) : option Z :=
  let s := skip_space s in
  let '(negative, digits) :=
    match s with
    | String c rest =>
        (* '-' and '+' *)
        if bool_decide (Ascii.nat_of_ascii c = 45%nat) then (true, rest)
        else if bool_decide (Ascii.nat_of_ascii c = 43%nat) then (false, rest) else (false, s)
    | EmptyString => (false, s)
    end in
  match read_digits digits None with
  | None => None
  | Some v =>
      if 2 ^ width <=? v then None
      else Some (wrap width (if negative : bool then - v else v))
  end.

(** ** Facts *)

(** The memory of an address holds what its size claims. *)
Definition sockaddr_holds (a : sockaddr) (size : Z) : Prop := 0 ≤ size ≤ len (sa_memory a).

Lemma copy_address_ok a size :
  sockaddr_holds a size → size ≤ storage_size →
  ∃ n, copy_address a size = Ok n ∧ address_wf n.
Proof.
  intros [H0 H1] H2. unfold copy_address, memcpy.
  assert (len zero_storage = storage_size) as Hr by by vm_compute.
  rewrite Hr. destruct (Z.leb_spec 0 size); [|lia]. destruct (Z.leb_spec size storage_size); [|lia].
  destruct (Z.leb_spec size (len (sa_memory a))); [|lia]. cbn [andb mbind outcome_bind].
  eexists. split; [done|]. split; cbn [addr_storage addr_size]; [|lia].
  rewrite len_app, len_take, len_drop by (rewrite ?Hr; lia). rewrite Hr. lia.
Qed.

Lemma collect_addresses_ok entries acc :
  Forall (λ e, sockaddr_holds (ai_addr e) (ai_addrlen e)) entries → Forall address_wf acc →
  ∃ l, collect_addresses entries acc = Ok l ∧ Forall address_wf l.
Proof.
  intros He. revert acc. induction He as [|e rest He Hrest IH]; intros acc Hacc; simpl; [by exists acc|].
  destruct (Z.leb_spec (ai_addrlen e) storage_size); [|by apply IH].
  destruct (copy_address_ok _ _ He ltac:(done)) as (a & -> & Ha). simpl. apply IH.
  apply Forall_app. split; [done|by apply Forall_singleton].
Qed.

(** ** Calls of an operating system that keep the observable state *)
Section Calls.
Context {W : Type} {G : SocketGhost W}.
Implicit Types w : W.

(** A call that accepts a prefix of [data] for sending on [fd], or fails. *)
Definition accepts_data (w : W) (fd : Z) (data : list byte) (n : Z) (w' : W) : Prop :=
  if n <? 0 then keeps w w'
  else
    n ≤ len data ∧ open_handles w' = open_handles w ∧
    sent_bytes w' fd = sent_bytes w fd ++ take (Z.to_nat n) data ∧
    ∀ h, h ≠ fd → sent_bytes w' h = sent_bytes w h.

(** An address written by the kernel fits a [sockaddr_storage]. *)
Definition kernel_address (a : sockaddr) (size : Z) : Prop :=
  sockaddr_holds a size ∧ size ≤ storage_size.
Lemma keeps_refl w : keeps w w.
Proof. done. Qed.

Lemma keeps_trans w1 w2 w3 : keeps w1 w2 → keeps w2 w3 → keeps w1 w3.
Proof. intros [H1 H2] [H3 H4]. split; [by rewrite H3|]. intros h. by rewrite H4. Qed.

Lemma wp_call {A} (f : W → A * W) w Q F :
  Q (f w).1 (f w).2 → wp (call f) w Q F.
Proof. unfold wp, call. by destruct (f w). Qed.

Lemma wp_lift_ok {A} (r : outcome TransportError A) a w Q F : r = Ok a → Q a w → wp (lift r) w Q F.
Proof. by intros ->. Qed.

(** [settles], as a weakest precondition. *)
Lemma settles_wp {A} (f : method W TransportError A) w (R : A → Prop) :
  wp f w (λ a w', keeps w w' ∧ R a) (λ _ w', keeps w w') → settles w R (f w).
Proof. unfold wp, settles. by destruct (f w) as [[| | |] ?]. Qed.

Lemma wp_settles_keeps {A B} (f : method W TransportError A) (g : A → method W TransportError B)
    w (R : A → Prop) (R' : B → Prop) :
  settles w R (f w) → (∀ a w', keeps w w' → R a → settles w' R' (g a w')) →
  settles w R' ((f ≫= g) w).
Proof.
  unfold settles, mbind, method_bind. destruct (f w) as [[a|e| |] w']; try done.
  intros [Hk HR] Hg. specialize (Hg a w' Hk HR).
  destruct (g a w') as [[b|e| |] w2]; [|by eapply keeps_trans|done..].
  destruct Hg. split; [by eapply keeps_trans|done].
Qed.

Lemma accepts_transmits w fd data bytes n w' :
  accepts_data w fd data n w' → 0 ≤ n → data = take (length data) bytes → in_memory data →
  transmits w fd bytes (Ok (wrap 64 n), w').
Proof.
  unfold accepts_data. destruct (Z.ltb_spec n 0); [lia|]. intros (Hn & Ho & Hs & Hs') _ Hdata Hm.
  simpl. rewrite wrap_small by len_lia.
  assert (len data ≤ len bytes) as Hle.
  { apply (f_equal length) in Hdata. rewrite length_take in Hdata. unfold len. lia. }
  split_and!; [lia|lia|done| |done]. rewrite Hs. f_equal. rewrite Hdata, take_take. f_equal.
  unfold len in Hn. lia.
Qed.
End Calls.
