(* ===== verification/Posix.v ===== *)
(** * The POSIX platform

    [src/transport/socket_posix.cpp].  The system calls are the class [PosixCalls]; what
    their manual pages promise is [PosixLaws].  The main result is that the translated
    functions satisfy [SocketPlatformLaws]. *)

From stdpp Require Import prelude gmap sets list strings pretty.
From Stdlib Require Import ZArith Lia.
From S2P Require Import Prelude Transport SocketLogic SocketAddr.

(** [struct timeval] *)
Record timeval := MkTimeval { tv_sec : Z; tv_usec : Z }.

(** An option name with the value passed for it. *)
Inductive posix_option :=
| SO_RCVTIMEO (v : timeval)
| SO_SNDTIMEO (v : timeval)
| SO_REUSEADDR (v : Z).

(** Results are the returned integer; a call that fills memory returns the new contents. *)
Class PosixCalls (W : Type) := {
  errno : W → Z;
  strerror : Z → string;
  gai_strerror : Z → string;
  sys_getaddrinfo : option string → string → addrinfo_hints → W → (Z * list addrinfo) * W;
  sys_freeaddrinfo : list addrinfo → W → unit * W;
  sys_getnameinfo : list byte → Z → W → (Z * string * string) * W;
  sys_socket : Z → socktype → ipproto → W → Z * W;
  sys_setsockopt : Z → posix_option → W → Z * W;
  sys_connect : Z → list byte → Z → W → Z * W;
  sys_bind : Z → list byte → Z → W → Z * W;
  sys_listen : Z → Z → W → Z * W;
  sys_accept : Z → W → (Z * sockaddr * Z) * W;
  sys_getsockname : Z → W → (Z * sockaddr * Z) * W;
  sys_send : Z → list byte → W → Z * W;
  sys_recv : Z → list byte → Z → W → (Z * list byte) * W;
  sys_sendto : Z → list byte → list byte → Z → W → Z * W;
  sys_recvfrom : Z → list byte → W → (Z * list byte * sockaddr * Z) * W;
  sys_shutdown : Z → W → Z * W;
  sys_close : Z → W → Z * W
}.

Section Posix.
Context {W : Type} {C : PosixCalls W}.
Abbreviation M := (method W TransportError).

(** [static_cast<int>(socket.value)] *)
Definition native (socket : NativeSocket) : Z :=
  let v := wrap 32 (sock_value socket) in if v <=? INT_MAX then v else v - 2 ^ 32.

Definition native_message (operation : string) (code : Z) : string :=
  operation +:+ " failed: " +:+ strerror code.

(** The common end of the wrappers: [errno] is read, and the error carries it. *)
Definition posix_fail {A} (code : TransportErrorCode) (operation : string) : M A :=
  w ← get;
  let e := errno w in
  lift (net_failure code (native_message operation e) e).

(** Truncating division and remainder, as in C++. *)
Definition timeval_of (timeout : Z) : timeval :=
  MkTimeval (Z.quot timeout 1000) (Z.rem timeout 1000 * 1000).

Definition set_timeout (socket : NativeSocket) (option : timeval → posix_option) (timeout : Z) :
    M unit :=
  if timeout =? 0 then mret tt
  else
    r ← call (sys_setsockopt (native socket) (option (timeval_of timeout)));
    if negb (r =? 0) then posix_fail net_option_failed "setsockopt" else mret tt.

Definition posix_initialize_network : M unit := mret tt.

Definition posix_resolve (endpoint : IpEndpoint) (type : SocketType) (passive : bool) :
    M (list NativeAddress) :=
  if negb (endpoint_valid endpoint) then
    lift (net_failure net_invalid_argument "transport endpoint host is empty" 0)
  else
    r ← call (sys_getaddrinfo (host_argument endpoint passive) (pretty (port_ endpoint))
                (resolve_hints type passive));
    let '(status, entries) := r in
    if negb (status =? 0) then
      lift (net_failure net_address_resolution_failed
              ("address resolution failed: " +:+ gai_strerror status) status)
    else
      addresses ← lift (collect_addresses entries []);
      call (sys_freeaddrinfo entries);;
      if len addresses =? 0 then
        lift (net_failure net_address_resolution_failed
                "address resolution returned no endpoints" 0)
      else mret addresses.

Definition posix_to_endpoint (address : NativeAddress) : M IpEndpoint :=
  r ← call (sys_getnameinfo (addr_storage address) (wrap 32 (addr_size address)));
  let '(status, host, service) := r in
  if negb (status =? 0) then
    lift (net_failure net_address_resolution_failed
            ("endpoint conversion failed: " +:+ gai_strerror status) status)
  else
    match stoul 64 service with
    | Some port => mret (MkIpEndpoint host (wrap 16 port))
    | None =>
        lift (net_failure net_address_resolution_failed "endpoint service is not a valid port" 0)
    end.

Definition posix_create_socket (address : NativeAddress) (type : SocketType) : M NativeSocket :=
  descriptor ← call (sys_socket (addr_family address) (socktype_of type) (protocol_of type));
  if descriptor <? 0 then posix_fail net_socket_creation_failed "socket"
  else mret (MkNativeSocket (wrap 64 descriptor)).

Definition posix_apply_options (socket : NativeSocket) (options : IoOptions) : M unit :=
  if negb (io_options_valid options) then
    lift (net_failure net_invalid_argument "transport I/O options are invalid" 0)
  else
    set_timeout socket SO_RCVTIMEO (receive_timeout options);;
    set_timeout socket SO_SNDTIMEO (send_timeout options).

Definition posix_set_reuse_address (socket : NativeSocket) : M unit :=
  r ← call (sys_setsockopt (native socket) (SO_REUSEADDR 1));
  if negb (r =? 0) then posix_fail net_option_failed "setsockopt" else mret tt.

Definition posix_connect_socket (socket : NativeSocket) (address : NativeAddress) : M unit :=
  r ← call (sys_connect (native socket) (addr_storage address) (wrap 32 (addr_size address)));
  if negb (r =? 0) then posix_fail net_connect_failed "connect" else mret tt.

Definition posix_bind_socket (socket : NativeSocket) (address : NativeAddress) : M unit :=
  r ← call (sys_bind (native socket) (addr_storage address) (wrap 32 (addr_size address)));
  if negb (r =? 0) then posix_fail net_bind_failed "bind" else mret tt.

Definition posix_listen_socket (socket : NativeSocket) (backlog : Z) : M unit :=
  r ← call (sys_listen (native socket) backlog);
  if negb (r =? 0) then posix_fail net_listen_failed "listen" else mret tt.

Definition posix_accept_socket (socket : NativeSocket) : M AcceptedSocket :=
  r ← call (sys_accept (native socket));
  let '(accepted, storage, size) := r in
  if accepted <? 0 then posix_fail net_accept_failed "accept"
  else
    remote ← lift (copy_address storage size);
    mret (MkAcceptedSocket (MkNativeSocket (wrap 64 accepted)) remote).

Definition posix_local_address (socket : NativeSocket) : M NativeAddress :=
  r ← call (sys_getsockname (native socket));
  let '(status, storage, size) := r in
  if negb (status =? 0) then posix_fail net_address_resolution_failed "getsockname"
  else lift (copy_address storage size).

Definition posix_send_socket (socket : NativeSocket) (bytes : list byte) : M Z :=
  let requested := Z.min (len bytes) INT_MAX in
  sent ← call (sys_send (native socket) (take (Z.to_nat requested) bytes));
  if sent <? 0 then posix_fail net_send_failed "send" else mret (wrap 64 sent).

Definition posix_receive_socket (socket : NativeSocket) (output : list byte) : M (Z * list byte) :=
  let requested := Z.min (len output) INT_MAX in
  r ← call (sys_recv (native socket) output requested);
  let '(received, output) := r in
  if received <? 0 then posix_fail net_receive_failed "recv"
  else mret (wrap 64 received, output).

Definition posix_send_datagram (socket : NativeSocket) (address : NativeAddress)
    (payload : list byte) : M Z :=
  sent ← call (sys_sendto (native socket) payload (addr_storage address)
                 (wrap 32 (addr_size address)));
  if sent <? 0 then posix_fail net_send_failed "sendto" else mret (wrap 64 sent).

Definition posix_receive_datagram (socket : NativeSocket) (output : list byte) :
    M (ReceivedDatagram * list byte) :=
  r ← call (sys_recvfrom (native socket) output);
  let '(received, output', storage, address_size) := r in
  if received <? 0 then posix_fail net_receive_failed "recvfrom"
  else if len output <? wrap 64 received then
    lift (net_failure net_datagram_too_large
            "received UDP datagram exceeds the requested bound" 0)
  else
    remote ← lift (copy_address storage address_size);
    mret (MkReceivedDatagram remote (wrap 64 received), output').

Definition posix_close_socket (socket : NativeSocket) : M NativeSocket :=
  if negb (socket_valid socket) then mret socket
  else
    call (sys_shutdown (native socket));;
    call (sys_close (native socket));;
    mret invalid_socket.

#[export] Instance posix_platform : SocketPlatform W := {|
  resolve := posix_resolve;
  to_endpoint := posix_to_endpoint;
  create_socket := posix_create_socket;
  apply_options := posix_apply_options;
  set_reuse_address := posix_set_reuse_address;
  connect_socket := posix_connect_socket;
  bind_socket := posix_bind_socket;
  listen_socket := posix_listen_socket;
  accept_socket := posix_accept_socket;
  local_address := posix_local_address;
  send_socket := posix_send_socket;
  receive_socket := posix_receive_socket;
  send_datagram := posix_send_datagram;
  receive_datagram := posix_receive_datagram;
  close_socket := posix_close_socket
|}.
End Posix.

(** ** What the manual pages promise *)
Section Laws.
Context {W : Type} {G : SocketGhost W}.

(** A call that returns a new descriptor, or a negative number. *)
Definition new_descriptor (w : W) (fd : Z) (w' : W) : Prop :=
  if fd <? 0 then keeps w w'
  else
    fd ≤ INT_MAX ∧ (fd ∉ open_handles w) ∧ open_handles w' = {[fd]} ∪ open_handles w ∧
    ∀ h, h ≠ fd → sent_bytes w' h = sent_bytes w h.

End Laws.

Class PosixLaws {W} (G : SocketGhost W) (C : PosixCalls W) : Prop := {
  posix_range w h : h ∈ open_handles w → 0 ≤ h ≤ INT_MAX;
  getaddrinfo_ok host service hints w :
    let '((status, entries), w') := sys_getaddrinfo host service hints w in
    keeps w w' ∧ (status = 0 → Forall (λ e, sockaddr_holds (ai_addr e) (ai_addrlen e)) entries);
  freeaddrinfo_ok entries w : keeps w (sys_freeaddrinfo entries w).2;
  getnameinfo_ok storage size w : keeps w (sys_getnameinfo storage size w).2;
  socket_ok family type protocol w :
    let '(fd, w') := sys_socket family type protocol w in new_descriptor w fd w';
  setsockopt_ok fd option w : fd ∈ open_handles w → keeps w (sys_setsockopt fd option w).2;
  connect_ok fd storage size w : fd ∈ open_handles w → keeps w (sys_connect fd storage size w).2;
  bind_ok fd storage size w : fd ∈ open_handles w → keeps w (sys_bind fd storage size w).2;
  listen_ok fd backlog w : fd ∈ open_handles w → keeps w (sys_listen fd backlog w).2;
  accept_ok fd w :
    fd ∈ open_handles w →
    let '((accepted, storage, size), w') := sys_accept fd w in
    new_descriptor w accepted w' ∧ (0 ≤ accepted → kernel_address storage size);
  getsockname_ok fd w :
    fd ∈ open_handles w →
    let '((status, storage, size), w') := sys_getsockname fd w in
    keeps w w' ∧ (status = 0 → kernel_address storage size);
  send_ok fd data w :
    fd ∈ open_handles w → let '(n, w') := sys_send fd data w in accepts_data w fd data n w';
  recv_ok fd output requested w :
    fd ∈ open_handles w → 0 ≤ requested ≤ len output →
    let '((n, output'), w') := sys_recv fd output requested w in
    keeps w w' ∧ (0 ≤ n → n ≤ requested ∧ fills output n output');
  sendto_ok fd data storage size w :
    fd ∈ open_handles w →
    let '(n, w') := sys_sendto fd data storage size w in accepts_data w fd data n w';
  (** with [MSG_TRUNC], [n] is the size of the datagram *)
  recvfrom_ok fd output w :
    fd ∈ open_handles w →
    let '((n, output', storage, size), w') := sys_recvfrom fd output w in
    keeps w w' ∧
    (0 ≤ n → n ≤ ptrdiff_max ∧ kernel_address storage size ∧ (n ≤ len output → fills output n output'));
  shutdown_ok fd w : fd ∈ open_handles w → keeps w (sys_shutdown fd w).2;
  (** the descriptor is released whatever the result *)
  close_ok fd w :
    fd ∈ open_handles w →
    let w' := (sys_close fd w).2 in
    open_handles w' = open_handles w ∖ {[fd]} ∧ ∀ h, sent_bytes w' h = sent_bytes w h
}.

(** ** The platform functions satisfy the interface *)
Section Platform.
Context {W : Type} {G : SocketGhost W} {C : PosixCalls W} {PL : PosixLaws G C}.
Implicit Types w : W.

Lemma wp_posix_fail {A} code operation w (Q : A → W → Prop) F :
  (∀ e, F e w) → wp (posix_fail code operation) w Q F.
Proof. intros HF. apply HF. Qed.

Lemma native_open s w :
  sock_value s ∈ open_handles w → native s = sock_value s.
Proof.
  intros H%posix_range. unfold native, INT_MAX in *. rewrite wrap_small by lia.
  by destruct (Z.leb_spec (sock_value s) 2147483647); [|lia].
Qed.

(** A call whose nonzero result is an error. *)
Lemma status_call_ok (f : W → Z * W) w code operation :
  keeps w (f w).2 →
  settles w (λ _, True)
    ((r ← call f; if negb (r =? 0) then posix_fail code operation else mret tt) w).
Proof.
  intros Hk. apply settles_wp. wp_step. apply wp_call.
  destruct ((f w).1 =? 0); cbn [negb]; [by wp_step|by apply wp_posix_fail].
Qed.

Lemma set_timeout_ok s option timeout w :
  sock_value s ∈ open_handles w → settles w (λ _, True) (set_timeout s option timeout w).
Proof.
  intros Hs. unfold set_timeout. destruct (timeout =? 0).
  - by apply settles_wp.
  - apply status_call_ok. rewrite (native_open s w) by done. by apply setsockopt_ok.
Qed.

Lemma posix_apply_options_ok s o w :
  sock_value s ∈ open_handles w → settles w (λ _, True) (posix_apply_options s o w).
Proof.
  intros Hs. unfold posix_apply_options. destruct (io_options_valid o); simpl negb; cbv iota;
    [|by apply settles_wp].
  eapply wp_settles_keeps; [by apply set_timeout_ok|]. intros _ w' [Ho _] _.
  apply set_timeout_ok. by rewrite Ho.
Qed.

Lemma posix_resolve_ok e t passive w :
  settles w (λ l, l ≠ [] ∧ Forall address_wf l) (posix_resolve e t passive w).
Proof.
  apply settles_wp. unfold posix_resolve. destruct (endpoint_valid e); simpl negb; cbv iota; [|by wp_step].
  wp_step. apply wp_call.
  pose proof (getaddrinfo_ok (host_argument e passive) (pretty (port_ e)) (resolve_hints t passive) w) as Hg.
  destruct (sys_getaddrinfo _ _ _ w) as [[status entries] w1]. destruct Hg as [Hk Hentries]. simpl.
  destruct (Z.eqb_spec status 0) as [->|]; simpl; [|by wp_step].
  destruct (collect_addresses_ok entries [] (Hentries eq_refl) (Forall_nil_2 _)) as (l & El & Hl).
  wp_step. eapply wp_lift_ok; [exact El|]. wp_step. apply wp_call.
  pose proof (freeaddrinfo_ok entries w1) as Hk2. pose proof (keeps_trans _ _ _ Hk Hk2) as Hk'.
  destruct (Z.eqb_spec (len l) 0) as [|Hne]; wp_step; [done|].
  split_and!; [done| |done]. by intros ->.
Qed.

Lemma posix_to_endpoint_ok a w : settles w (λ _, True) (posix_to_endpoint a w).
Proof.
  apply settles_wp. unfold posix_to_endpoint. wp_step. apply wp_call.
  pose proof (getnameinfo_ok (addr_storage a) (wrap 32 (addr_size a)) w) as Hk.
  destruct (sys_getnameinfo _ _ w) as [[[status host] service] w1]. simpl in *.
  destruct (status =? 0); simpl; [|by wp_step]. destruct (stoul 64 service); by wp_step.
Qed.

Lemma new_descriptor_opens {A} w fd w' (handle : A → NativeSocket) a :
  new_descriptor w fd w' → 0 ≤ fd → handle a = MkNativeSocket (wrap 64 fd) →
  opens_handle w handle (Ok a, w').
Proof.
  unfold new_descriptor, INT_MAX. destruct (Z.ltb_spec fd 0); [lia|]. intros (Hmax & Hn & Ho & Hs) _ Ha.
  simpl. rewrite Ha, wrap_small by lia. simpl. split_and!; [|done..].
  unfold socket_valid, invalid_value, size_max. simpl.
  by destruct (Z.eqb_spec fd 18446744073709551615); [lia|].
Qed.

Lemma posix_create_socket_ok a t w : opens_handle w id (posix_create_socket a t w).
Proof.
  unfold posix_create_socket, call, mbind, method_bind.
  pose proof (socket_ok (addr_family a) (socktype_of t) (protocol_of t) w) as Hs.
  destruct (sys_socket _ _ _ w) as [fd w1]. destruct (Z.ltb_spec fd 0).
  - unfold new_descriptor in Hs. rewrite (proj2 (Z.ltb_lt _ _)) in Hs by done. exact Hs.
  - by apply (new_descriptor_opens w fd).
Qed.

Lemma posix_accept_socket_ok s w :
  sock_value s ∈ open_handles w → opens_handle w accepted_socket (posix_accept_socket s w).
Proof.
  intros Hs. unfold posix_accept_socket, call, mbind, method_bind. rewrite (native_open s w) by done.
  pose proof (accept_ok (sock_value s) w Hs) as Ha.
  destruct (sys_accept _ w) as [[[fd storage] size] w1]. destruct Ha as [Hn Hk].
  destruct (Z.ltb_spec fd 0).
  - unfold new_descriptor in Hn. rewrite (proj2 (Z.ltb_lt _ _)) in Hn by done. exact Hn.
  - destruct (Hk ltac:(done)) as [H1 H2].
    destruct (copy_address_ok storage size H1 H2) as (n & En & _). unfold lift. rewrite En.
    by apply (new_descriptor_opens w fd).
Qed.

Lemma posix_local_address_ok s w :
  sock_value s ∈ open_handles w → settles w address_wf (posix_local_address s w).
Proof.
  intros Hs. apply settles_wp. unfold posix_local_address. wp_step. apply wp_call.
  rewrite (native_open s w) by done. pose proof (getsockname_ok (sock_value s) w Hs) as Hg.
  destruct (sys_getsockname _ w) as [[[status storage] size] w1]. destruct Hg as [Hk Ha]. simpl.
  destruct (Z.eqb_spec status 0) as [->|]; simpl; [|by apply wp_posix_fail].
  destruct (Ha eq_refl) as [H1 H2]. destruct (copy_address_ok storage size H1 H2) as (n & En & Hn).
  by eapply wp_lift_ok.
Qed.

Lemma posix_send_socket_ok s bytes w :
  sock_value s ∈ open_handles w → in_memory bytes →
  transmits w (sock_value s) bytes (posix_send_socket s bytes w).
Proof.
  intros Hs Hm. unfold posix_send_socket, call, mbind, method_bind.
  rewrite (native_open s w) by done. set (n := Z.to_nat _).
  pose proof (send_ok (sock_value s) (take n bytes) w Hs) as Hsend.
  destruct (sys_send _ _ w) as [sent w1]. destruct (Z.ltb_spec sent 0).
  - unfold accepts_data in Hsend. by rewrite (proj2 (Z.ltb_lt _ _)) in Hsend.
  - apply (accepts_transmits _ _ (take n bytes)); [done|done| |].
    + rewrite length_take. subst n. f_equal. unfold len, INT_MAX. lia.
    + unfold in_memory, len in *. rewrite length_take. lia.
Qed.

Lemma posix_send_datagram_ok s a payload w :
  sock_value s ∈ open_handles w → len payload ≤ 65507 →
  transmits w (sock_value s) payload (posix_send_datagram s a payload w).
Proof.
  intros Hs Hm. unfold posix_send_datagram, call, mbind, method_bind.
  rewrite (native_open s w) by done.
  pose proof (sendto_ok (sock_value s) payload (addr_storage a) (wrap 32 (addr_size a)) w Hs) as Hsend.
  destruct (sys_sendto _ _ _ _ w) as [sent w1]. destruct (Z.ltb_spec sent 0).
  - unfold accepts_data in Hsend. by rewrite (proj2 (Z.ltb_lt _ _)) in Hsend.
  - apply (accepts_transmits _ _ payload); [done|done|by rewrite firstn_all|len_lia].
Qed.

Lemma posix_receive_socket_ok s output w :
  sock_value s ∈ open_handles w → in_memory output →
  settles w (λ r, fills output r.1 r.2) (posix_receive_socket s output w).
Proof.
  intros Hs Hm. apply settles_wp. unfold posix_receive_socket. wp_step. apply wp_call.
  rewrite (native_open s w) by done. set (requested := Z.min _ _).
  pose proof (recv_ok (sock_value s) output requested w Hs) as Hr.
  destruct (sys_recv _ _ _ w) as [[n output'] w1].
  destruct Hr as [Hk Hn]; [subst requested; unfold INT_MAX; len_lia|]. simpl.
  destruct (Z.ltb_spec n 0); [by apply wp_posix_fail|]. wp_step. split; [done|]. simpl.
  destruct (Hn ltac:(done)) as [Hle Hf]. rewrite wrap_small; [done|].
  destruct Hf as [? _]. len_lia.
Qed.

Lemma posix_receive_datagram_ok s output w :
  sock_value s ∈ open_handles w →
  settles w (λ r, address_wf (received_remote r.1) ∧ fills output (received_size r.1) r.2)
    (posix_receive_datagram s output w).
Proof.
  intros Hs. apply settles_wp. unfold posix_receive_datagram. wp_step. apply wp_call.
  rewrite (native_open s w) by done. pose proof (recvfrom_ok (sock_value s) output w Hs) as Hr.
  destruct (sys_recvfrom _ _ w) as [[[[n output'] storage] size] w1]. destruct Hr as [Hk Hn]. simpl.
  destruct (Z.ltb_spec n 0); [by apply wp_posix_fail|].
  destruct (Hn ltac:(done)) as (Hmax & [H1 H2] & Hf). rewrite wrap_small by len_lia.
  destruct (Z.ltb_spec (len output) n); [by wp_step|].
  destruct (copy_address_ok storage size H1 H2) as (a & Ea & Ha).
  wp_step. eapply wp_lift_ok; [exact Ea|]. wp_step. simpl. auto.
Qed.

Lemma posix_close_socket_ok s w :
  (socket_valid s = true → sock_value s ∈ open_handles w) →
  ∃ w', posix_close_socket s w = (Ok invalid_socket, w') ∧
    open_handles w' =
      (if socket_valid s then open_handles w ∖ {[sock_value s]} else open_handles w) ∧
    ∀ h, sent_bytes w' h = sent_bytes w h.
Proof.
  intros Hs. unfold posix_close_socket. destruct (socket_valid s) eqn:Hv; cbn [negb].
  - specialize (Hs eq_refl). rewrite (native_open s w) by done.
    unfold call, mbind, method_bind. pose proof (shutdown_ok (sock_value s) w Hs) as [Ho1 Hs1].
    destruct (sys_shutdown _ w) as [r1 w1]. simpl in Ho1, Hs1.
    pose proof (close_ok (sock_value s) w1 ltac:(by rewrite Ho1)) as [Ho2 Hs2].
    destruct (sys_close _ w1) as [r2 w2]. simpl in *. exists w2. split_and!; [done| |].
    + by rewrite Ho2, Ho1.
    + intros h. by rewrite Hs2, Hs1.
  - exists w. split_and!; [|done..]. unfold mret, method_ret. do 2 f_equal.
    destruct s as [v]. unfold socket_valid in Hv. simpl in Hv.
    apply negb_false_iff, Z.eqb_eq in Hv. by subst v.
Qed.

Lemma posix_laws : SocketPlatformLaws G posix_platform.
Proof.
  split; simpl.
  - apply posix_resolve_ok.
  - intros a w _. apply posix_to_endpoint_ok.
  - apply posix_create_socket_ok.
  - apply posix_apply_options_ok.
  - intros s w Hs. apply status_call_ok. rewrite (native_open s w) by done. by apply setsockopt_ok.
  - intros s a w Hs _. apply status_call_ok. rewrite (native_open s w) by done. by apply connect_ok.
  - intros s a w Hs _. apply status_call_ok. rewrite (native_open s w) by done. by apply bind_ok.
  - intros s b w Hs. apply status_call_ok. rewrite (native_open s w) by done. by apply listen_ok.
  - apply posix_accept_socket_ok.
  - apply posix_local_address_ok.
  - apply posix_send_socket_ok.
  - apply posix_receive_socket_ok.
  - intros s a payload w Hs _. by apply posix_send_datagram_ok.
  - intros s output w Hs _. by apply posix_receive_datagram_ok.
  - apply posix_close_socket_ok.
Qed.
End Platform.
