(* ===== verification/Windows.v ===== *)
(** * The Windows platform

    [src/transport/socket_windows.cpp].  The WinSock functions are the class
    [WindowsCalls] and their documented behaviour is [WindowsLaws].  The state of the
    process adds the function-local static of [runtime()].  The main result is that the
    translated functions satisfy [SocketPlatformLaws]. *)

From stdpp Require Import prelude gmap sets list strings pretty.
From Stdlib Require Import ZArith Lia.
From S2P Require Import Prelude Transport SocketLogic SocketAddr.

(** An option name with the value passed for it. *)
Inductive winsock_option :=
| WS_RCVTIMEO (milliseconds : Z)
| WS_SNDTIMEO (milliseconds : Z)
| WS_REUSEADDR (enabled : bool).

Class WindowsCalls (W : Type) := {
  WSAGetLastError : W → Z;
  ws_WSAStartup : W → Z * W;
  ws_WSACleanup : W → Z * W;
  ws_getaddrinfo : option string → string → addrinfo_hints → W → (Z * list addrinfo) * W;
  ws_freeaddrinfo : list addrinfo → W → unit * W;
  ws_getnameinfo : list byte → Z → W → (Z * string * string) * W;
  ws_socket : Z → socktype → ipproto → W → Z * W;
  ws_setsockopt : Z → winsock_option → W → Z * W;
  ws_connect : Z → list byte → Z → W → Z * W;
  ws_bind : Z → list byte → Z → W → Z * W;
  ws_listen : Z → Z → W → Z * W;
  ws_accept : Z → W → (Z * sockaddr * Z) * W;
  ws_getsockname : Z → W → (Z * sockaddr * Z) * W;
  ws_send : Z → list byte → W → Z * W;
  ws_recv : Z → list byte → Z → W → (Z * list byte) * W;
  ws_sendto : Z → list byte → list byte → Z → W → Z * W;
  ws_recvfrom : Z → list byte → Z → W → (Z * list byte * sockaddr * Z) * W;
  ws_shutdown : Z → W → Z * W;
  ws_closesocket : Z → W → Z * W
}.

Definition INVALID_SOCKET : Z := size_max.
Definition SOCKET_ERROR : Z := -1.
Definition WSAEMSGSIZE : Z := 10040.
Definition UINT_MAX : Z := 4294967295.

(** The process: the static [WinsockRuntime] once it is constructed, with its status. *)
Record win_process (W : Type) := MkProcess { winsock_runtime : option Z; win_os : W }.
Arguments MkProcess {W}.
Arguments winsock_runtime {W}.
Arguments win_os {W}.

(** [static_cast<int>] *)
Definition to_int (z : Z) : Z :=
  let v := wrap 32 z in if v <=? INT_MAX then v else v - 2 ^ 32.

Section Windows.
Context {W : Type} {C : WindowsCalls W}.
Abbreviation M := (method (win_process W) TransportError).

Definition ws_call {A} (f : W → A * W) : M A := λ w,
  let '(a, o) := f (win_os w) in (Ok a, MkProcess (winsock_runtime w) o).

(** [runtime().status()]: the first use constructs the object. *)
Definition runtime_status : M Z :=
  w ← get;
  match winsock_runtime w with
  | Some status => mret status
  | None =>
      status ← ws_call ws_WSAStartup;
      modify (λ w, MkProcess (Some status) (win_os w));;
      mret status
  end.

(** [~WinsockRuntime], at the end of the process *)
Definition runtime_destroy : M unit :=
  w ← get;
  match winsock_runtime w with
  | Some status =>
      (if status =? 0 then (_ ← ws_call ws_WSACleanup; mret tt) else mret tt);;
      modify (λ w, MkProcess None (win_os w))
  | None => mret tt
  end.

(** [static_cast<SOCKET>(socket.value)] *)
Definition win_native (socket : NativeSocket) : Z := wrap 64 (sock_value socket).

(** [copy_address]: the [int] size becomes a [std::size_t]. *)
Definition win_copy_address (address : sockaddr) (size : Z) : outcome TransportError NativeAddress :=
  copy_address address (wrap 64 size).

Definition winsock_message (operation : string) (code : Z) : string :=
  operation +:+ " failed with WinSock error " +:+ pretty code.

Definition win_fail {A} (code : TransportErrorCode) (operation : string) : M A :=
  w ← get;
  let e := WSAGetLastError (win_os w) in
  lift (net_failure code (winsock_message operation e) e).

(** [static_cast<DWORD>] of the bounded timeout *)
Definition timeout_value (timeout : Z) : Z := wrap 32 (Z.min timeout UINT_MAX).

Definition win_set_timeout (socket : NativeSocket) (option : Z → winsock_option) (timeout : Z) :
    M unit :=
  if timeout =? 0 then mret tt
  else
    r ← ws_call (ws_setsockopt (win_native socket) (option (timeout_value timeout)));
    if r =? SOCKET_ERROR then win_fail net_option_failed "setsockopt" else mret tt.

Definition initialize_network : M unit :=
  status ← runtime_status;
  if negb (status =? 0) then
    lift (net_failure net_platform_initialization_failed
            (winsock_message "WSAStartup" status) status)
  else mret tt.

Definition win_resolve (endpoint : IpEndpoint) (type : SocketType) (passive : bool) :
    M (list NativeAddress) :=
  initialize_network;;
  if negb (endpoint_valid endpoint) then
    lift (net_failure net_invalid_argument "transport endpoint host is empty" 0)
  else
    r ← ws_call (ws_getaddrinfo (host_argument endpoint passive) (pretty (port_ endpoint))
                   (resolve_hints type passive));
    let '(status, entries) := r in
    if negb (status =? 0) then
      lift (net_failure net_address_resolution_failed
              ("address resolution failed with WinSock error " +:+ pretty status) status)
    else
      addresses ← lift (collect_addresses entries []);
      ws_call (ws_freeaddrinfo entries);;
      if len addresses =? 0 then
        lift (net_failure net_address_resolution_failed
                "address resolution returned no endpoints" 0)
      else mret addresses.

Definition win_to_endpoint (address : NativeAddress) : M IpEndpoint :=
  r ← ws_call (ws_getnameinfo (addr_storage address) (to_int (addr_size address)));
  let '(status, host, service) := r in
  if negb (status =? 0) then
    lift (net_failure net_address_resolution_failed
            ("endpoint conversion failed with WinSock error " +:+ pretty status) status)
  else
    (* [unsigned long] has 32 bits *)
    match stoul 32 service with
    | Some port => mret (MkIpEndpoint host (wrap 16 port))
    | None =>
        lift (net_failure net_address_resolution_failed "endpoint service is not a valid port" 0)
    end.

Definition win_create_socket (address : NativeAddress) (type : SocketType) : M NativeSocket :=
  initialize_network;;
  descriptor ← ws_call (ws_socket (addr_family address) (socktype_of type) (protocol_of type));
  if descriptor =? INVALID_SOCKET then win_fail net_socket_creation_failed "socket"
  else mret (MkNativeSocket (wrap 64 descriptor)).

Definition win_apply_options (socket : NativeSocket) (options : IoOptions) : M unit :=
  if negb (io_options_valid options) then
    lift (net_failure net_invalid_argument "transport I/O options are invalid" 0)
  else
    win_set_timeout socket WS_RCVTIMEO (receive_timeout options);;
    win_set_timeout socket WS_SNDTIMEO (send_timeout options).

Definition win_set_reuse_address (socket : NativeSocket) : M unit :=
  r ← ws_call (ws_setsockopt (win_native socket) (WS_REUSEADDR true));
  if r =? SOCKET_ERROR then win_fail net_option_failed "setsockopt" else mret tt.

Definition win_connect_socket (socket : NativeSocket) (address : NativeAddress) : M unit :=
  r ← ws_call (ws_connect (win_native socket) (addr_storage address) (to_int (addr_size address)));
  if r =? SOCKET_ERROR then win_fail net_connect_failed "connect" else mret tt.

Definition win_bind_socket (socket : NativeSocket) (address : NativeAddress) : M unit :=
  r ← ws_call (ws_bind (win_native socket) (addr_storage address) (to_int (addr_size address)));
  if r =? SOCKET_ERROR then win_fail net_bind_failed "bind" else mret tt.

Definition win_listen_socket (socket : NativeSocket) (backlog : Z) : M unit :=
  r ← ws_call (ws_listen (win_native socket) backlog);
  if r =? SOCKET_ERROR then win_fail net_listen_failed "listen" else mret tt.

Definition win_accept_socket (socket : NativeSocket) : M AcceptedSocket :=
  r ← ws_call (ws_accept (win_native socket));
  let '(accepted, storage, size) := r in
  if accepted =? INVALID_SOCKET then win_fail net_accept_failed "accept"
  else
    remote ← lift (win_copy_address storage size);
    mret (MkAcceptedSocket (MkNativeSocket (wrap 64 accepted)) remote).

Definition win_local_address (socket : NativeSocket) : M NativeAddress :=
  r ← ws_call (ws_getsockname (win_native socket));
  let '(status, storage, size) := r in
  if status =? SOCKET_ERROR then win_fail net_address_resolution_failed "getsockname"
  else lift (win_copy_address storage size).

Definition win_send_socket (socket : NativeSocket) (bytes : list byte) : M Z :=
  let requested := to_int (Z.min (len bytes) INT_MAX) in
  sent ← ws_call (ws_send (win_native socket) (take (Z.to_nat requested) bytes));
  if sent =? SOCKET_ERROR then win_fail net_send_failed "send" else mret (wrap 64 sent).

Definition win_receive_socket (socket : NativeSocket) (output : list byte) : M (Z * list byte) :=
  let requested := to_int (Z.min (len output) INT_MAX) in
  r ← ws_call (ws_recv (win_native socket) output requested);
  let '(received, output) := r in
  if received =? SOCKET_ERROR then win_fail net_receive_failed "recv"
  else mret (wrap 64 received, output).

Definition win_send_datagram (socket : NativeSocket) (address : NativeAddress)
    (payload : list byte) : M Z :=
  sent ← ws_call (ws_sendto (win_native socket)
                    (take (Z.to_nat (to_int (len payload))) payload)
                    (addr_storage address) (to_int (addr_size address)));
  if sent =? SOCKET_ERROR then win_fail net_send_failed "sendto" else mret (wrap 64 sent).

Definition win_receive_datagram (socket : NativeSocket) (output : list byte) :
    M (ReceivedDatagram * list byte) :=
  r ← ws_call (ws_recvfrom (win_native socket) output (to_int (len output)));
  let '(received, output', storage, address_size) := r in
  if received =? SOCKET_ERROR then
    w ← get;
    let code := WSAGetLastError (win_os w) in
    if code =? WSAEMSGSIZE then
      lift (net_failure net_datagram_too_large
              "received UDP datagram exceeds the requested bound" code)
    else lift (net_failure net_receive_failed (winsock_message "recvfrom" code) code)
  else
    remote ← lift (win_copy_address storage address_size);
    mret (MkReceivedDatagram remote (wrap 64 received), output').

Definition win_close_socket (socket : NativeSocket) : M NativeSocket :=
  if negb (socket_valid socket) then mret socket
  else
    ws_call (ws_shutdown (win_native socket));;
    ws_call (ws_closesocket (win_native socket));;
    mret invalid_socket.

#[export] Instance windows_platform : SocketPlatform (win_process W) := {|
  resolve := win_resolve;
  to_endpoint := win_to_endpoint;
  create_socket := win_create_socket;
  apply_options := win_apply_options;
  set_reuse_address := win_set_reuse_address;
  connect_socket := win_connect_socket;
  bind_socket := win_bind_socket;
  listen_socket := win_listen_socket;
  accept_socket := win_accept_socket;
  local_address := win_local_address;
  send_socket := win_send_socket;
  receive_socket := win_receive_socket;
  send_datagram := win_send_datagram;
  receive_datagram := win_receive_datagram;
  close_socket := win_close_socket
|}.

(** The observable state is that of the operating system. *)
#[export] Instance process_ghost {G : SocketGhost W} : SocketGhost (win_process W) := {|
  open_handles := λ w, open_handles (win_os w);
  sent_bytes := λ w, sent_bytes (win_os w)
|}.
End Windows.

(** ** What the documentation of WinSock promises *)
Section WindowsSpecs.
Context {W : Type} {G : SocketGhost W}.

Definition new_win_socket (w : W) (v : Z) (w' : W) : Prop :=
  if v =? INVALID_SOCKET then keeps w w'
  else
    0 ≤ v < INVALID_SOCKET ∧ (v ∉ open_handles w) ∧ open_handles w' = {[v]} ∪ open_handles w ∧
    ∀ h, h ≠ v → sent_bytes w' h = sent_bytes w h.

(** A count, or [SOCKET_ERROR]. *)
Definition count_or_error (n : Z) : Prop := n = SOCKET_ERROR ∨ 0 ≤ n ≤ INT_MAX.
End WindowsSpecs.

Class WindowsLaws {W} (G : SocketGhost W) (C : WindowsCalls W) : Prop := {
  windows_range w h : h ∈ open_handles w → 0 ≤ h < INVALID_SOCKET;
  ws_startup_ok w : keeps w (ws_WSAStartup w).2;
  ws_getaddrinfo_ok host service hints w :
    let '((status, entries), w') := ws_getaddrinfo host service hints w in
    keeps w w' ∧ (status = 0 → Forall (λ e, sockaddr_holds (ai_addr e) (ai_addrlen e)) entries);
  ws_freeaddrinfo_ok entries w : keeps w (ws_freeaddrinfo entries w).2;
  ws_getnameinfo_ok storage size w : keeps w (ws_getnameinfo storage size w).2;
  ws_socket_ok family type protocol w :
    let '(v, w') := ws_socket family type protocol w in new_win_socket w v w';
  ws_setsockopt_ok v option w : v ∈ open_handles w → keeps w (ws_setsockopt v option w).2;
  ws_connect_ok v storage size w : v ∈ open_handles w → keeps w (ws_connect v storage size w).2;
  ws_bind_ok v storage size w : v ∈ open_handles w → keeps w (ws_bind v storage size w).2;
  ws_listen_ok v backlog w : v ∈ open_handles w → keeps w (ws_listen v backlog w).2;
  ws_accept_ok v w :
    v ∈ open_handles w →
    let '((accepted, storage, size), w') := ws_accept v w in
    new_win_socket w accepted w' ∧ (accepted ≠ INVALID_SOCKET → kernel_address storage size);
  ws_getsockname_ok v w :
    v ∈ open_handles w →
    let '((status, storage, size), w') := ws_getsockname v w in
    keeps w w' ∧ (status ≠ SOCKET_ERROR → kernel_address storage size);
  ws_send_ok v data w :
    v ∈ open_handles w →
    let '(n, w') := ws_send v data w in count_or_error n ∧ accepts_data w v data n w';
  ws_recv_ok v output requested w :
    v ∈ open_handles w → 0 ≤ requested ≤ len output →
    let '((n, output'), w') := ws_recv v output requested w in
    keeps w w' ∧ count_or_error n ∧ (0 ≤ n → n ≤ requested ∧ fills output n output');
  ws_sendto_ok v data storage size w :
    v ∈ open_handles w →
    let '(n, w') := ws_sendto v data storage size w in
    count_or_error n ∧ accepts_data w v data n w';
  (** a datagram that does not fit is an error *)
  ws_recvfrom_ok v output size w :
    v ∈ open_handles w → 0 ≤ size ≤ len output →
    let '((n, output', storage, address_size), w') := ws_recvfrom v output size w in
    keeps w w' ∧ count_or_error n ∧
    (0 ≤ n → n ≤ size ∧ fills output n output' ∧ kernel_address storage address_size);
  ws_shutdown_ok v w : v ∈ open_handles w → keeps w (ws_shutdown v w).2;
  ws_closesocket_ok v w :
    v ∈ open_handles w →
    let w' := (ws_closesocket v w).2 in
    open_handles w' = open_handles w ∖ {[v]} ∧ ∀ h, sent_bytes w' h = sent_bytes w h
}.

(** ** The platform functions satisfy the interface *)
Section Platform.
Context {W : Type} {G : SocketGhost W} {C : WindowsCalls W} {WL : WindowsLaws G C}.
Implicit Types w : win_process W.

Lemma wp_ws_call {A} (f : W → A * W) w Q F :
  Q (f (win_os w)).1 (MkProcess (winsock_runtime w) (f (win_os w)).2) → wp (ws_call f) w Q F.
Proof. unfold wp, ws_call. by destruct (f (win_os w)). Qed.

Lemma wp_win_fail {A} code operation w (Q : A → win_process W → Prop) F :
  (∀ e, F e w) → wp (win_fail code operation) w Q F.
Proof. intros HF. apply HF. Qed.

Lemma win_native_open s w : sock_value s ∈ open_handles w → win_native s = sock_value s.
Proof.
  intros H%(windows_range (win_os w)). unfold win_native, INVALID_SOCKET in *. apply wrap_small.
  unfold size_max in H. lia.
Qed.

Lemma to_int_small z : 0 ≤ z ≤ INT_MAX → to_int z = z.
Proof.
  intros Hz. unfold to_int, INT_MAX in *. rewrite wrap_small by lia.
  by destruct (Z.leb_spec z 2147483647); [|lia].
Qed.

Lemma win_copy_address_ok a size :
  kernel_address a size → ∃ n, win_copy_address a size = Ok n ∧ address_wf n.
Proof.
  intros [[H0 H1] H2]. unfold win_copy_address. unfold storage_size in *.
  rewrite wrap_small by lia. apply copy_address_ok; [done|]. unfold storage_size. lia.
Qed.

(** The runtime is initialised at most once, whatever the order of the first calls. *)
Lemma initialize_network_ok w : settles w (λ _, True) (initialize_network w).
Proof.
  apply settles_wp. unfold initialize_network, runtime_status. wp_step. wp_step. wp_step.
  destruct w as [[status|] o]; simpl.
  - wp_step. destruct (status =? 0); simpl; by wp_step.
  - wp_step. apply wp_ws_call. wp_step. pose proof (ws_startup_ok o) as Hk.
    unfold wp at 1, modify. wp_step. simpl. destruct (_ =? 0); simpl; by wp_step.
Qed.

Lemma win_status_call_ok (f : W → Z * W) w code operation :
  keeps (win_os w) (f (win_os w)).2 →
  settles w (λ _, True)
    ((r ← ws_call f; if r =? SOCKET_ERROR then win_fail code operation else mret tt) w).
Proof.
  intros Hk. apply settles_wp. wp_step. apply wp_ws_call.
  destruct ((f (win_os w)).1 =? SOCKET_ERROR); [by apply wp_win_fail|by wp_step].
Qed.

Lemma win_set_timeout_ok s option timeout w :
  sock_value s ∈ open_handles w → settles w (λ _, True) (win_set_timeout s option timeout w).
Proof.
  intros Hs. unfold win_set_timeout. destruct (timeout =? 0).
  - by apply settles_wp.
  - apply win_status_call_ok. rewrite (win_native_open s w) by done. by apply ws_setsockopt_ok.
Qed.

Lemma win_apply_options_ok s o w :
  sock_value s ∈ open_handles w → settles w (λ _, True) (win_apply_options s o w).
Proof.
  intros Hs. unfold win_apply_options. destruct (io_options_valid o); simpl negb; cbv iota;
    [|by apply settles_wp].
  eapply wp_settles_keeps; [by apply win_set_timeout_ok|]. intros _ w' [Ho _] _.
  apply win_set_timeout_ok. by rewrite Ho.
Qed.

Lemma win_resolve_ok e t passive w :
  settles w (λ l, l ≠ [] ∧ Forall address_wf l) (win_resolve e t passive w).
Proof.
  unfold win_resolve. eapply wp_settles_keeps; [apply initialize_network_ok|].
  intros _ w0 _ _. apply settles_wp. destruct (endpoint_valid e); simpl negb; cbv iota; [|by wp_step].
  wp_step. apply wp_ws_call.
  pose proof (ws_getaddrinfo_ok (host_argument e passive) (pretty (port_ e))
    (resolve_hints t passive) (win_os w0)) as Hg.
  destruct (ws_getaddrinfo _ _ _ _) as [[status entries] o1]. destruct Hg as [Hk Hentries]. simpl.
  destruct (Z.eqb_spec status 0) as [->|]; simpl; [|by wp_step].
  destruct (collect_addresses_ok entries [] (Hentries eq_refl) (Forall_nil_2 _)) as (l & El & Hl).
  wp_step. eapply wp_lift_ok; [exact El|]. wp_step. apply wp_ws_call.
  pose proof (ws_freeaddrinfo_ok entries o1) as Hk2. pose proof (keeps_trans _ _ _ Hk Hk2) as Hk'.
  destruct (Z.eqb_spec (len l) 0) as [|Hne]; wp_step; [done|].
  split_and!; [done| |done]. by intros ->.
Qed.

Lemma win_to_endpoint_ok a w : settles w (λ _, True) (win_to_endpoint a w).
Proof.
  apply settles_wp. unfold win_to_endpoint. wp_step. apply wp_ws_call.
  pose proof (ws_getnameinfo_ok (addr_storage a) (to_int (addr_size a)) (win_os w)) as Hk.
  destruct (ws_getnameinfo _ _ _) as [[[status host] service] o1]. simpl in *.
  destruct (status =? 0); simpl; [|by wp_step]. destruct (stoul 32 service); by wp_step.
Qed.

Lemma new_win_socket_opens {A} w v o' (handle : A → NativeSocket) a rt :
  new_win_socket (win_os w) v o' → v ≠ INVALID_SOCKET → handle a = MkNativeSocket (wrap 64 v) →
  opens_handle w handle (Ok a, MkProcess rt o').
Proof.
  unfold new_win_socket. destruct (Z.eqb_spec v INVALID_SOCKET) as [|Hv]; [done|].
  intros (Hr & Hn & Ho & Hs) _ Ha. unfold INVALID_SOCKET, size_max in *.
  simpl. rewrite Ha, wrap_small by lia. simpl. split_and!; [|done..].
  unfold socket_valid, invalid_value, size_max. simpl.
  by destruct (Z.eqb_spec v 18446744073709551615).
Qed.

Lemma opens_keeps {A} w w0 (handle : A → NativeSocket) r :
  keeps w w0 → opens_handle w0 handle r → opens_handle w handle r.
Proof.
  intros [Ho Hs]. unfold opens_handle. destruct r as [[a|e| |] w']; [| |done..].
  - rewrite Ho. intros (? & ? & ? & Hs'). split_and!; [done..|]. intros h Hh. by rewrite Hs', Hs.
  - intros Hk. by eapply keeps_trans.
Qed.

Lemma win_create_socket_ok a t w : opens_handle w id (win_create_socket a t w).
Proof.
  unfold win_create_socket. unfold mbind at 1, method_bind at 1.
  pose proof (initialize_network_ok w) as Hinit. unfold settles in Hinit.
  destruct (initialize_network w) as [[[]|e| |] w0]; try done. destruct Hinit as [Hk _].
  eapply opens_keeps; [exact Hk|]. unfold ws_call, mbind, method_bind.
  pose proof (ws_socket_ok (addr_family a) (socktype_of t) (protocol_of t) (win_os w0)) as Hs.
  destruct (ws_socket _ _ _ _) as [v o1]. destruct (Z.eqb_spec v INVALID_SOCKET) as [E|E].
  - unfold new_win_socket in Hs. rewrite E, Z.eqb_refl in Hs. exact Hs.
  - by apply (new_win_socket_opens w0 v).
Qed.

Lemma win_accept_socket_ok s w :
  sock_value s ∈ open_handles w → opens_handle w accepted_socket (win_accept_socket s w).
Proof.
  intros Hs. unfold win_accept_socket, ws_call, mbind, method_bind.
  rewrite (win_native_open s w) by done.
  pose proof (ws_accept_ok (sock_value s) (win_os w) Hs) as Ha.
  destruct (ws_accept _ _) as [[[v storage] size] o1]. destruct Ha as [Hn Hk].
  destruct (Z.eqb_spec v INVALID_SOCKET) as [E|E].
  - unfold new_win_socket in Hn. rewrite E, Z.eqb_refl in Hn. exact Hn.
  - destruct (win_copy_address_ok storage size (Hk E)) as (n & En & _). unfold lift. rewrite En.
    by apply (new_win_socket_opens w v).
Qed.

Lemma win_local_address_ok s w :
  sock_value s ∈ open_handles w → settles w address_wf (win_local_address s w).
Proof.
  intros Hs. apply settles_wp. unfold win_local_address. wp_step. apply wp_ws_call.
  rewrite (win_native_open s w) by done.
  pose proof (ws_getsockname_ok (sock_value s) (win_os w) Hs) as Hg.
  destruct (ws_getsockname _ _) as [[[status storage] size] o1]. destruct Hg as [Hk Ha]. simpl.
  destruct (Z.eqb_spec status SOCKET_ERROR) as [|E]; [by apply wp_win_fail|].
  destruct (win_copy_address_ok storage size (Ha E)) as (n & En & Hn). by eapply wp_lift_ok.
Qed.

(** Sending a prefix [data] of [bytes]. *)
Lemma win_transmits_ok w v data bytes n o' rt code operation :
  count_or_error n → accepts_data (win_os w) v data n o' →
  data = take (length data) bytes → in_memory data →
  transmits w v bytes
    ((if n =? SOCKET_ERROR then win_fail code operation else mret (wrap 64 n)) (MkProcess rt o')).
Proof.
  intros Hn Ha Hdata Hm. unfold SOCKET_ERROR, count_or_error in *.
  destruct (Z.eqb_spec n (-1)) as [->|E].
  - exact Ha.
  - assert (0 ≤ n) as Hpos by (destruct Hn as [?|[? _]]; [done|lia]).
    exact (accepts_transmits (win_os w) v data bytes n o' Ha Hpos Hdata Hm).
Qed.

Lemma win_send_socket_ok s bytes w :
  sock_value s ∈ open_handles w → in_memory bytes →
  transmits w (sock_value s) bytes (win_send_socket s bytes w).
Proof.
  intros Hs Hm. unfold win_send_socket, ws_call. unfold mbind, method_bind.
  rewrite (win_native_open s w), to_int_small by (done || (unfold INT_MAX; len_lia)).
  set (n := Z.to_nat _).
  pose proof (ws_send_ok (sock_value s) (take n bytes) (win_os w) Hs) as Hsend.
  destruct (ws_send _ _ _) as [sent o1]. destruct Hsend as [Hn Ha].
  apply (win_transmits_ok w _ (take n bytes)); [done|done| |].
  - rewrite length_take. subst n. f_equal. unfold len, INT_MAX. lia.
  - unfold in_memory, len in *. rewrite length_take. lia.
Qed.

Lemma win_send_datagram_ok s a payload w :
  sock_value s ∈ open_handles w → len payload ≤ 65507 →
  transmits w (sock_value s) payload (win_send_datagram s a payload w).
Proof.
  intros Hs Hm. unfold win_send_datagram, ws_call. unfold mbind, method_bind.
  rewrite (win_native_open s w) by done.
  rewrite (to_int_small (len payload)) by (unfold INT_MAX; len_lia).
  assert (take (Z.to_nat (len payload)) payload = payload) as ->
    by (unfold len; by rewrite Nat2Z.id, firstn_all).
  pose proof (ws_sendto_ok (sock_value s) payload (addr_storage a) (to_int (addr_size a))
    (win_os w) Hs) as Hsend.
  destruct (ws_sendto _ _ _ _ _) as [sent o1]. destruct Hsend as [Hn Ha].
  apply (win_transmits_ok w _ payload); [done|done|by rewrite firstn_all|len_lia].
Qed.

Lemma win_receive_socket_ok s output w :
  sock_value s ∈ open_handles w → in_memory output →
  settles w (λ r, fills output r.1 r.2) (win_receive_socket s output w).
Proof.
  intros Hs Hm. apply settles_wp. unfold win_receive_socket. wp_step. apply wp_ws_call.
  rewrite (win_native_open s w), to_int_small by (done || (unfold INT_MAX; len_lia)).
  set (requested := Z.min _ _).
  pose proof (ws_recv_ok (sock_value s) output requested (win_os w) Hs) as Hr.
  destruct (ws_recv _ _ _ _) as [[n output'] o1].
  destruct Hr as (Hk & Hn & Hf); [subst requested; unfold INT_MAX; len_lia|]. simpl.
  destruct (Z.eqb_spec n SOCKET_ERROR) as [|E]; [by apply wp_win_fail|]. wp_step. split; [done|].
  destruct Hn as [?|[H0 Hmax]]; [done|]. destruct (Hf H0) as [_ Hfill]. simpl.
  rewrite wrap_small; [done|]. unfold INT_MAX in *. lia.
Qed.

Lemma win_receive_datagram_ok s output w :
  sock_value s ∈ open_handles w → 0 < len output ≤ 65507 →
  settles w (λ r, address_wf (received_remote r.1) ∧ fills output (received_size r.1) r.2)
    (win_receive_datagram s output w).
Proof.
  intros Hs Hl. apply settles_wp. unfold win_receive_datagram. wp_step. apply wp_ws_call.
  rewrite (win_native_open s w), (to_int_small (len output)) by (done || (unfold INT_MAX; lia)).
  pose proof (ws_recvfrom_ok (sock_value s) output (len output) (win_os w) Hs ltac:(lia)) as Hr.
  destruct (ws_recvfrom _ _ _ _) as [[[[n output'] storage] size] o1].
  destruct Hr as (Hk & Hn & Hf). simpl.
  destruct (Z.eqb_spec n SOCKET_ERROR) as [|E].
  - wp_step. wp_step. destruct (_ =? WSAEMSGSIZE); by wp_step.
  - destruct Hn as [?|[H0 Hmax]]; [done|]. destruct (Hf H0) as (_ & Hfill & Ha).
    destruct (win_copy_address_ok storage size Ha) as (a & Ea & Hwf).
    wp_step. eapply wp_lift_ok; [exact Ea|]. wp_step. simpl.
    rewrite wrap_small by (unfold INT_MAX in *; lia). done.
Qed.

Lemma win_close_socket_ok s w :
  (socket_valid s = true → sock_value s ∈ open_handles w) →
  ∃ w', win_close_socket s w = (Ok invalid_socket, w') ∧
    open_handles w' =
      (if socket_valid s then open_handles w ∖ {[sock_value s]} else open_handles w) ∧
    ∀ h, sent_bytes w' h = sent_bytes w h.
Proof.
  intros Hs. unfold win_close_socket. destruct (socket_valid s) eqn:Hv; cbn [negb].
  - specialize (Hs eq_refl). rewrite (win_native_open s w) by done.
    unfold ws_call, mbind, method_bind.
    pose proof (ws_shutdown_ok (sock_value s) (win_os w) Hs) as [Ho1 Hs1].
    destruct (ws_shutdown _ _) as [r1 o1]. simpl in Ho1, Hs1 |- *.
    pose proof (ws_closesocket_ok (sock_value s) o1 ltac:(by rewrite Ho1)) as [Ho2 Hs2].
    destruct (ws_closesocket _ _) as [r2 o2]. simpl in *. eexists. split_and!; [done| |]; simpl.
    + by rewrite Ho2, Ho1.
    + intros h. by rewrite Hs2, Hs1.
  - exists w. split_and!; [|done..]. unfold mret, method_ret. do 2 f_equal.
    destruct s as [v]. unfold socket_valid in Hv. simpl in Hv.
    apply negb_false_iff, Z.eqb_eq in Hv. by subst v.
Qed.

Lemma windows_laws : SocketPlatformLaws process_ghost windows_platform.
Proof.
  split; simpl.
  - apply win_resolve_ok.
  - intros a w _. apply win_to_endpoint_ok.
  - apply win_create_socket_ok.
  - apply win_apply_options_ok.
  - intros s w Hs. apply win_status_call_ok. rewrite (win_native_open s w) by done.
    by apply ws_setsockopt_ok.
  - intros s a w Hs _. apply win_status_call_ok. rewrite (win_native_open s w) by done.
    by apply ws_connect_ok.
  - intros s a w Hs _. apply win_status_call_ok. rewrite (win_native_open s w) by done.
    by apply ws_bind_ok.
  - intros s b w Hs. apply win_status_call_ok. rewrite (win_native_open s w) by done.
    by apply ws_listen_ok.
  - apply win_accept_socket_ok.
  - apply win_local_address_ok.
  - apply win_send_socket_ok.
  - apply win_receive_socket_ok.
  - intros s a payload w Hs _. by apply win_send_datagram_ok.
  - apply win_receive_datagram_ok.
  - apply win_close_socket_ok.
Qed.
End Platform.
