(* ===== verification/SimOS.v ===== *)
(** * A small operating system

    A deterministic operating system that satisfies [PosixLaws] and [WindowsLaws]: the
    hypotheses of the transport theorems can be met, and the translated code can be run.
    A name resolves to an IPv6 and an IPv4 address, and a dotted address to the latter; only
    IPv4 can be reached; a connected handle waits until it is accepted, and then the two
    are each other's peer; a send accepts at most four bytes, and a receive returns at most
    three of those the peer sent; datagrams go into one queue and are received in order. *)

From stdpp Require Import prelude gmap sets list strings.
From Stdlib Require Import ZArith Lia.
From S2P Require Import Prelude Transport SocketLogic SocketAddr Posix Windows.

Record sim := MkSim {
  sim_handles : gset Z;
  sim_next : Z;
  sim_sent : gmap Z (list byte);
  sim_errno : Z;
  sim_read : gmap Z (list byte);
  sim_peer : gmap Z Z;
  sim_waiting : list Z;
  sim_mail : list (list byte);
  sim_taken : nat
}.

(** Some handles are open, and nothing has happened yet. *)
Definition sim_world (handles : gset Z) (next : Z) : sim := MkSim handles next ∅ 0 ∅ ∅ [] [] 0.

Definition sim_start : sim := sim_world ∅ 3.

Definition usable (h : Z) : Prop := 0 ≤ h ≤ INT_MAX.

#[export] Instance usable_dec h : Decision (usable h).
Proof. unfold usable. apply _. Defined.

#[export] Instance sim_ghost : SocketGhost sim := {|
  open_handles := λ w, filter usable (sim_handles w);
  sent_bytes := λ w h, default [] (sim_sent w !! h)
|}.

Definition AF_INET : Z := 2.
Definition AF_INET6 : Z := 10.

Definition sim_sockaddr (family : Z) : sockaddr :=
  MkSockaddr family (of_Z family :: replicate 27 Byte.x00).

Definition with_errno (e : Z) (w : sim) : sim :=
  MkSim (sim_handles w) (sim_next w) (sim_sent w) e (sim_read w) (sim_peer w) (sim_waiting w)
    (sim_mail w) (sim_taken w).

(** The next handle, if it is usable and free. *)
Definition sim_new (refused : Z) (w : sim) : Z * sim :=
  let h := sim_next w in
  if bool_decide (usable h ∧ h ∉ sim_handles w)
  then (h, MkSim ({[h]} ∪ sim_handles w) (h + 1) (<[h := []]> (sim_sent w)) (sim_errno w)
             (<[h := []]> (sim_read w)) (delete h (sim_peer w)) (sim_waiting w) (sim_mail w) (sim_taken w))
  else (refused, with_errno 24 w).

Definition sim_wait (queue : list Z) (w : sim) : sim :=
  MkSim (sim_handles w) (sim_next w) (sim_sent w) (sim_errno w) (sim_read w) (sim_peer w) queue
    (sim_mail w) (sim_taken w).

Definition sim_join (a b : Z) (w : sim) : sim :=
  MkSim (sim_handles w) (sim_next w) (sim_sent w) (sim_errno w) (sim_read w)
    (<[a := b]> (<[b := a]> (sim_peer w))) (sim_waiting w) (sim_mail w) (sim_taken w).

(** The first bytes of a connected address tell its family. *)
Definition sim_connect (h : Z) (storage : list byte) (size : Z) (w : sim) : Z * sim :=
  if bool_decide (storage !! 0%nat = Some (of_Z AF_INET))
  then (0, sim_wait (sim_waiting w ++ [h]) w) else (-1, with_errno 111 w).

(** The handle that has waited longest is accepted. *)
Definition sim_accept (refused : Z) (w : sim) : Z * sim :=
  match sim_waiting w with
  | [] => (refused, with_errno 11 w)
  | client :: queue =>
      let '(h, w') := sim_new refused w in
      if h =? refused then (h, w') else (h, sim_join client h (sim_wait queue w'))
  end.

Definition sim_accept_bytes (n : Z) (h : Z) (data : list byte) (w : sim) : sim :=
  MkSim (sim_handles w) (sim_next w)
    (<[h := default [] (sim_sent w !! h) ++ take (Z.to_nat n) data]> (sim_sent w))
    (sim_errno w) (sim_read w) (sim_peer w) (sim_waiting w) (sim_mail w) (sim_taken w).

Definition sim_send (h : Z) (data : list byte) (w : sim) : Z * sim :=
  let n := Z.min 4 (len data) in (n, sim_accept_bytes n h data w).

Definition sim_post (data : list byte) (w : sim) : sim :=
  MkSim (sim_handles w) (sim_next w) (sim_sent w) (sim_errno w) (sim_read w) (sim_peer w)
    (sim_waiting w) (sim_mail w ++ [data]) (sim_taken w).

(** A datagram is taken as a whole or not at all; one to an address that cannot be
    reached, or too long for IP, is refused. *)
Definition sim_sendto (h : Z) (data storage : list byte) (size : Z) (w : sim) : Z * sim :=
  if bool_decide (storage !! 0%nat = Some (of_Z AF_INET)) && (len data <=? 65507)
  then (len data, sim_post data (sim_accept_bytes (len data) h data w))
  else (-1, with_errno 101 w).

(** What was received on [h] so far. *)
Definition sim_arrived (h : Z) (w : sim) : list byte := default [] (sim_read w !! h).

Definition sim_deliver (h : Z) (bytes : list byte) (w : sim) : sim :=
  MkSim (sim_handles w) (sim_next w) (sim_sent w) (sim_errno w)
    (<[h := sim_arrived h w ++ bytes]> (sim_read w)) (sim_peer w) (sim_waiting w) (sim_mail w)
    (sim_taken w).

(** The next bytes the peer sent; when there are none, the end of the stream if the peer is
    closed, and otherwise [EAGAIN]. *)
Definition sim_recv (h : Z) (output : list byte) (requested : Z) (w : sim) : Z * list byte * sim :=
  match sim_peer w !! h with
  | None => (-1, output, with_errno 107 w)
  | Some p =>
      let pending := drop (length (sim_arrived h w)) (default [] (sim_sent w !! p)) in
      let available := take (Z.to_nat (Z.min 3 requested)) pending in
      match available with
      | [] => if bool_decide (p ∈ sim_handles w) then (-1, output, with_errno 11 w) else (0, output, w)
      | _ =>
          (len available, available ++ drop (length available) output, sim_deliver h available w)
      end
  end.

Definition sim_take (w : sim) : sim :=
  MkSim (sim_handles w) (sim_next w) (sim_sent w) (sim_errno w) (sim_read w) (sim_peer w)
    (sim_waiting w) (sim_mail w) (S (sim_taken w)).

(** [data] at the start of a span; what does not fit is lost. *)
Definition sim_write (data output : list byte) : list byte :=
  take (length output) data ++ drop (length data) output.

(** The next datagram in the queue; IP carries none that is longer. *)
Definition sim_datagram (w : sim) : option (list byte) :=
  d ← sim_mail w !! sim_taken w; if len d <=? 65507 then Some d else None.

(** The datagram and its size, as with [MSG_TRUNC]. *)
Definition sim_recvfrom (output : list byte) (w : sim) : Z * list byte * sim :=
  match sim_datagram w with
  | None => (-1, output, with_errno 11 w)
  | Some d => (len d, sim_write d output, sim_take w)
  end.

(** The datagram, or an error when it does not fit. *)
Definition sim_ws_recvfrom (output : list byte) (size : Z) (w : sim) : Z * list byte * sim :=
  match sim_datagram w with
  | None => (SOCKET_ERROR, output, with_errno 10060 w)
  | Some d =>
      if size <? len d then (SOCKET_ERROR, sim_write d output, with_errno WSAEMSGSIZE (sim_take w))
      else (len d, sim_write d output, sim_take w)
  end.

Definition sim_close (h : Z) (w : sim) : Z * sim :=
  (0, MkSim (sim_handles w ∖ {[h]}) (sim_next w) (sim_sent w) (sim_errno w) (sim_read w)
        (sim_peer w) (sim_waiting w) (sim_mail w) (sim_taken w)).

Definition sim_entries (host : option string) : list addrinfo :=
  if bool_decide (host = Some "127.0.0.1"%string) then [MkAddrinfo (sim_sockaddr AF_INET) 16]
  else [MkAddrinfo (sim_sockaddr AF_INET6) 28; MkAddrinfo (sim_sockaddr AF_INET) 16].

#[export] Instance sim_posix : PosixCalls sim := {|
  errno := sim_errno;
  strerror := λ _, "simulated error"%string;
  gai_strerror := λ _, "simulated error"%string;
  sys_getaddrinfo := λ host _ _ w, ((0, sim_entries host), w);
  sys_freeaddrinfo := λ _ w, (tt, w);
  sys_getnameinfo := λ _ _ w, ((0, "127.0.0.1"%string, "9000"%string), w);
  sys_socket := λ _ _ _, sim_new (-1);
  sys_setsockopt := λ _ _ w, (0, w);
  sys_connect := sim_connect;
  sys_bind := λ _ _ _ w, (0, w);
  sys_listen := λ _ _ w, (0, w);
  sys_accept := λ _ w, let '(h, w') := sim_accept (-1) w in ((h, sim_sockaddr AF_INET, 16), w');
  sys_getsockname := λ _ w, ((0, sim_sockaddr AF_INET, 16), w);
  sys_send := sim_send;
  sys_recv := sim_recv;
  sys_sendto := sim_sendto;
  sys_recvfrom := λ _ output w,
    let '(n, output', w') := sim_recvfrom output w in ((n, output', sim_sockaddr AF_INET, 16), w');
  sys_shutdown := λ _ w, (0, w);
  sys_close := sim_close
|}.

#[export] Instance sim_windows : WindowsCalls sim := {|
  WSAGetLastError := sim_errno;
  ws_WSAStartup := λ w, (0, w);
  ws_WSACleanup := λ w, (0, w);
  ws_getaddrinfo := λ host _ _ w, ((0, sim_entries host), w);
  ws_freeaddrinfo := λ _ w, (tt, w);
  ws_getnameinfo := λ _ _ w, ((0, "127.0.0.1"%string, "9000"%string), w);
  ws_socket := λ _ _ _, sim_new INVALID_SOCKET;
  ws_setsockopt := λ _ _ w, (0, w);
  ws_connect := sim_connect;
  ws_bind := λ _ _ _ w, (0, w);
  ws_listen := λ _ _ w, (0, w);
  ws_accept := λ _ w,
    let '(h, w') := sim_accept INVALID_SOCKET w in ((h, sim_sockaddr AF_INET, 16), w');
  ws_getsockname := λ _ w, ((0, sim_sockaddr AF_INET, 16), w);
  ws_send := sim_send;
  ws_recv := sim_recv;
  ws_sendto := sim_sendto;
  ws_recvfrom := λ _ output size w,
    let '(n, output', w') := sim_ws_recvfrom output size w in ((n, output', sim_sockaddr AF_INET, 16), w');
  ws_shutdown := λ _ w, (0, w);
  ws_closesocket := sim_close
|}.

(** ** The laws *)

Lemma sim_new_spec refused w :
  let '(h, w') := sim_new refused w in
  (h = refused ∧ keeps w w') ∨
  (usable h ∧ (h ∉ open_handles w) ∧ open_handles w' = {[h]} ∪ open_handles w ∧
   ∀ h', h' ≠ h → sent_bytes w' h' = sent_bytes w h').
Proof.
  unfold sim_new. destruct (bool_decide_reflect (usable (sim_next w) ∧ sim_next w ∉ sim_handles w))
    as [[Hu Hn]|_]; [right|by left].
  simpl. split_and!; [apply Hu..| | |].
  - rewrite elem_of_filter. tauto.
  - apply set_eq. intros h. rewrite elem_of_union, !elem_of_filter, elem_of_union, elem_of_singleton.
    naive_solver.
  - intros h' Hh'. by rewrite lookup_insert_ne.
Qed.

Lemma sim_keeps_errno e w : keeps w (with_errno e w).
Proof. done. Qed.

Lemma sim_accept_spec refused w :
  let '(h, w') := sim_accept refused w in
  (h = refused ∧ keeps w w') ∨
  (usable h ∧ (h ∉ open_handles w) ∧ open_handles w' = {[h]} ∪ open_handles w ∧
   ∀ h', h' ≠ h → sent_bytes w' h' = sent_bytes w h').
Proof.
  unfold sim_accept. destruct (sim_waiting w) as [|client queue]; [by left|].
  pose proof (sim_new_spec refused w) as Hn. destruct (sim_new refused w) as [h w'].
  by destruct (Z.eqb_spec h refused).
Qed.

Lemma sim_connect_keeps h storage size w : keeps w (sim_connect h storage size w).2.
Proof. unfold sim_connect. by case_bool_decide. Qed.

Lemma sim_accept_bytes_ok n h data w :
  0 ≤ n ≤ len data → accepts_data w h data n (sim_accept_bytes n h data w).
Proof.
  intros Hn. unfold accepts_data. destruct (Z.ltb_spec n 0); [lia|]. simpl. split_and!; [lia|done| |].
  - by rewrite lookup_insert_eq.
  - intros h' Hh'. by rewrite lookup_insert_ne.
Qed.

Lemma sim_send_ok h data w :
  let '(n, w') := sim_send h data w in 0 ≤ n ≤ 4 ∧ accepts_data w h data n w'.
Proof.
  unfold sim_send. split; [len_lia|]. apply sim_accept_bytes_ok. len_lia.
Qed.

Lemma sim_sendto_ok h data storage size w :
  let '(n, w') := sim_sendto h data storage size w in
  -1 ≤ n ≤ 65507 ∧ accepts_data w h data n w'.
Proof.
  unfold sim_sendto. case_bool_decide; cbn [andb]; [|split; [lia|done]].
  destruct (Z.leb_spec (len data) 65507); [|split; [lia|done]].
  split; [len_lia|]. pose proof (sim_accept_bytes_ok (len data) h data w ltac:(len_lia)) as Ha.
  unfold accepts_data in *. by destruct (_ <? 0).
Qed.

Lemma sim_datagram_size w d : sim_datagram w = Some d → len d ≤ 65507.
Proof.
  unfold sim_datagram. destruct (sim_mail w !! sim_taken w) as [d'|]; simpl; [|done].
  destruct (Z.leb_spec (len d') 65507); [|done]. by intros [= <-].
Qed.

Lemma sim_write_fills d output : len d ≤ len output → fills output (len d) (sim_write d output).
Proof.
  intros Hd. unfold fills, sim_write, len in *. rewrite take_ge by lia.
  rewrite length_app, length_drop, Nat2Z.id, drop_app_length. split_and!; lia || done.
Qed.

Lemma sim_write_whole d output : len d ≤ len output → take (length d) (sim_write d output) = d.
Proof. intros Hd. unfold sim_write, len in *. rewrite (take_ge d) by lia. apply take_app_length. Qed.

Lemma sim_recv_ok h output requested w :
  0 ≤ requested ≤ len output →
  let '((n, output'), w') := sim_recv h output requested w in
  keeps w w' ∧ -1 ≤ n ≤ 3 ∧ (0 ≤ n → n ≤ requested ∧ fills output n output').
Proof.
  intros Hr. unfold sim_recv. destruct (sim_peer w !! h) as [p|]; [|split_and!; [done|lia..]].
  set (available := take _ _).
  assert (len available ≤ Z.min 3 requested) as Hl.
  { unfold available, len. rewrite length_take. lia. }
  clearbody available. destruct available as [|b rest].
  { case_bool_decide; [split_and!; [done|lia..]|]. split_and!; [done|lia..|]. intros _.
    split; [lia|]. unfold fills. split_and!; [lia..|done|done]. }
  pose proof (len_nonneg (b :: rest)). split_and!; [done|lia|lia|]. intros _. split; [lia|].
  unfold fills. split_and!; [lia|lia| |].
  - unfold len in *. rewrite length_app, length_drop. lia.
  - unfold len at 1 2. by rewrite Nat2Z.id, drop_app_length.
Qed.

Lemma sim_close_ok h w :
  open_handles (sim_close h w).2 = open_handles w ∖ {[h]} ∧
  ∀ h', sent_bytes (sim_close h w).2 h' = sent_bytes w h'.
Proof.
  split; [|done]. simpl. apply set_eq. intros h'.
  rewrite elem_of_difference, !elem_of_filter, elem_of_difference. tauto.
Qed.

Lemma sim_entries_ok host :
  Forall (λ e, sockaddr_holds (ai_addr e) (ai_addrlen e)) (sim_entries host).
Proof. unfold sim_entries. case_bool_decide; repeat constructor; by_compute. Qed.

Lemma sim_kernel_address : kernel_address (sim_sockaddr AF_INET) 16.
Proof. split; by_compute. Qed.

Lemma sim_posix_laws : PosixLaws sim_ghost sim_posix.
Proof.
  split; try done.
  - intros w h [Hu _]%elem_of_filter. exact Hu.
  - intros. simpl. split; [done|]. intros _. apply sim_entries_ok.
  - intros family type protocol w. simpl. pose proof (sim_new_spec (-1) w) as Hn.
    destruct (sim_new (-1) w) as [h w']. unfold new_descriptor.
    destruct Hn as [[-> Hk]|([H0 Hmax] & Hn & Ho & Hs)]; [done|].
    destruct (Z.ltb_spec h 0); [lia|]. done.
  - intros. apply sim_connect_keeps.
  - intros fd w _. simpl. pose proof (sim_accept_spec (-1) w) as Hn.
    destruct (sim_accept (-1) w) as [h w']. unfold new_descriptor.
    split; [|intros _; apply sim_kernel_address].
    destruct Hn as [[-> Hk]|([H0 Hmax] & Hn & Ho & Hs)]; [done|].
    destruct (Z.ltb_spec h 0); [lia|]. done.
  - intros fd data w _. exact (proj2 (sim_send_ok fd data w)).
  - intros fd output requested w _ Hr. cbn [sys_recv sim_posix].
    pose proof (sim_recv_ok fd output requested w Hr) as Hf.
    destruct (sim_recv fd output requested w) as [[n output'] w']. tauto.
  - intros fd data storage size w _. cbn [sys_sendto sim_posix].
    pose proof (sim_sendto_ok fd data storage size w) as Ha.
    destruct (sim_sendto fd data storage size w). apply Ha.
  - intros fd output w _. simpl. unfold sim_recvfrom. destruct (sim_datagram w) as [d|] eqn:Hd;
      [|by split; [|lia]].
    apply sim_datagram_size in Hd. split; [done|]. intros _.
    split_and!; [unfold ptrdiff_max; lia|apply sim_kernel_address|apply sim_write_fills].
  - intros fd w _. apply sim_close_ok.
Qed.

Lemma sim_windows_laws : WindowsLaws sim_ghost sim_windows.
Proof.
  split; try done.
  - intros w h [Hu _]%elem_of_filter. unfold usable, INT_MAX, INVALID_SOCKET, size_max in *. lia.
  - intros. simpl. split; [done|]. intros _. apply sim_entries_ok.
  - intros family type protocol w. simpl. pose proof (sim_new_spec INVALID_SOCKET w) as Hn.
    destruct (sim_new INVALID_SOCKET w) as [h w']. unfold new_win_socket.
    destruct Hn as [[-> Hk]|([H0 Hmax] & Hn & Ho & Hs)]; [done|].
    unfold INT_MAX, INVALID_SOCKET, size_max in *.
    destruct (Z.eqb_spec h 18446744073709551615); [lia|]. split_and!; [lia|lia|done..].
  - intros. apply sim_connect_keeps.
  - intros fd w _. simpl. pose proof (sim_accept_spec INVALID_SOCKET w) as Hn.
    destruct (sim_accept INVALID_SOCKET w) as [h w']. unfold new_win_socket.
    split; [|intros _; apply sim_kernel_address].
    destruct Hn as [[-> Hk]|([H0 Hmax] & Hn & Ho & Hs)]; [done|].
    unfold INT_MAX, INVALID_SOCKET, size_max in *.
    destruct (Z.eqb_spec h 18446744073709551615); [lia|]. split_and!; [lia|lia|done..].
  - intros fd data w _. destruct (sim_send_ok fd data w) as [Hn Ha].
    split; [right; unfold INT_MAX; simpl in *; lia|exact Ha].
  - intros fd output requested w _ Hr. cbn [ws_recv sim_windows].
    pose proof (sim_recv_ok fd output requested w Hr) as Hf.
    destruct (sim_recv fd output requested w) as [[n output'] w']. destruct Hf as (Hk & Hn & Hf).
    split_and!; [done|unfold count_or_error, SOCKET_ERROR, INT_MAX; lia|done].
  - intros fd data storage size w _. cbn [ws_sendto sim_windows].
    pose proof (sim_sendto_ok fd data storage size w) as Ha.
    destruct (sim_sendto fd data storage size w) as [n w']. destruct Ha as [Hn Ha]. split; [|done].
    unfold count_or_error, SOCKET_ERROR, INT_MAX. lia.
  - intros fd output size w _ Hr. simpl. unfold sim_ws_recvfrom.
    destruct (sim_datagram w) as [d|] eqn:Hd; [|by split_and!; [|left|]].
    apply sim_datagram_size in Hd. destruct (Z.ltb_spec size (len d)); [by split_and!; [|left|]|].
    split_and!; [done|right; unfold INT_MAX; len_lia|]. intros _.
    split_and!; [done|apply sim_write_fills; lia|apply sim_kernel_address].
  - intros fd w _. apply sim_close_ok.
Qed.
