(* ===== verification/TransportProps.v ===== *)
(** * Transport: properties

    The theorems about streams, listeners, UDP sockets and the two platforms, with
    witnesses on the simulated operating system. *)

From stdpp Require Import prelude gmap sets list strings.
From Stdlib Require Import ZArith Lia.
From S2P Require Import Prelude Transport SocketLogic Tcp TcpFacts Udp UdpFacts.
From S2P Require Import Sockets SocketsFacts SocketAddr Posix Windows SimOS.

(** A process without transport objects. *)
Definition fresh_process {W} (w : W) : machine store W := MkMachine ∅ w [].

Lemma fresh_fleet {W} {G : SocketGhost W} (w : W) :
  fleet (open_handles w) (sent_bytes w) ∅ w.
Proof.
  split; simpl; try (intros *; rewrite lookup_empty; done); [|done].
  intros h. split; [by left|]. intros [?|(x & o & Hx & _)]; [done|].
  by rewrite lookup_empty in Hx.
Qed.

(** The simulated system with the POSIX functions on top. *)
Lemma sim_platform_laws : SocketPlatformLaws sim_ghost posix_platform.
Proof. apply (posix_laws (PL:=sim_posix_laws)). Qed.

(** ** The two platforms *)

(** C16. The POSIX implementation meets the platform contract: on any operating system
    that keeps the promises of the system calls, each function of [socket_posix.cpp] is
    defined, opens at most the handle it returns, sends only on its handle, never copies
    an address or counts bytes past a buffer, and releases exactly the handle it closes. *)
Theorem posix_platform_correct {W} {G : SocketGhost W} {C : PosixCalls W} :
  PosixLaws G C → SocketPlatformLaws G posix_platform.
Proof. intros PL. apply posix_laws. Qed.

Example posix_platform_correct_witness : SocketPlatformLaws sim_ghost posix_platform.
Proof. apply (posix_platform_correct (G:=sim_ghost) (C:=sim_posix)). apply sim_posix_laws. Defined.

(** C17. The Windows implementation meets the same contract, whether or not WinSock could
    be initialised. *)
Theorem windows_platform_correct {W} {G : SocketGhost W} {C : WindowsCalls W} :
  WindowsLaws G C → SocketPlatformLaws process_ghost windows_platform.
Proof. intros WL. apply windows_laws. Qed.

Example windows_platform_correct_witness :
  SocketPlatformLaws (process_ghost (G:=sim_ghost)) (windows_platform (C:=sim_windows)).
Proof. apply (windows_platform_correct (G:=sim_ghost) (C:=sim_windows)). apply sim_windows_laws. Defined.

(** C37. Timeouts reach the operating system unchanged: for a non-negative number of
    milliseconds the POSIX [timeval] is normalised and denotes the same time, and the
    Windows value is the same number up to the largest one that fits, so that a positive
    timeout never turns into zero, which would mean waiting for ever. *)
Theorem timeout_conversion_exact (timeout : Z) :
  0 ≤ timeout →
  tv_sec (timeval_of timeout) * 1000000 + tv_usec (timeval_of timeout) = timeout * 1000 ∧
  0 ≤ tv_usec (timeval_of timeout) < 1000000 ∧
  timeout_value timeout = Z.min timeout UINT_MAX ∧ (0 < timeout → 0 < timeout_value timeout).
Proof.
  intros Ht. unfold timeval_of, timeout_value, UINT_MAX. simpl.
  rewrite Z.quot_div_nonneg, Z.rem_mod_nonneg by lia. rewrite wrap_small by lia.
  pose proof (Z.div_mod timeout 1000 ltac:(lia)). pose proof (Z.mod_pos_bound timeout 1000 ltac:(lia)).
  lia.
Qed.

Example timeout_conversion_exact_witness :
  timeval_of 2500 = MkTimeval 2 500000 ∧
  tv_sec (timeval_of 2500) * 1000000 + tv_usec (timeval_of 2500) = 2500 * 1000.
Proof. split; [by vm_compute|]. apply (timeout_conversion_exact 2500). lia. Defined.

(** ** Ownership of handles *)

(** C12. No handle leaks and none is shared: after any sequence of well-formed calls on
    any objects (streams being made with a retry policy whose delays can be doubled in 64
    bits), starting from a process without them, the open handles are exactly those
    that were open before and those owned by live objects; each of the latter belongs to
    one object and none was open before; when no object is left the open handles are
    those of the start. *)
Theorem sockets_no_leak {W} {G : SocketGhost W} {P : SocketPlatform W} (w0 : W)
    (m : machine store W) :
  SocketPlatformLaws G P → reachable (fresh_process w0) m →
  (∀ h, h ∈ open_handles (os m) ↔
     h ∈ open_handles w0 ∨ ∃ x o, self m !! x = Some o ∧ h ∈ object_handles o) ∧
  (∀ x o h, self m !! x = Some o → h ∈ object_handles o →
     (h ∉ open_handles w0) ∧
     ∀ y o', self m !! y = Some o' → h ∈ object_handles o' → y = x) ∧
  (self m = ∅ → open_handles (os m) = open_handles w0).
Proof.
  intros L Hr.
  pose proof (reachable_fleet (open_handles w0) (sent_bytes w0) (fresh_process w0) m
    (fresh_fleet w0) Hr) as Hi.
  split_and!.
  - apply (fleet_open _ _ _ _ Hi).
  - intros x o h Hx Hh. split; [by apply (fleet_base _ _ _ _ Hi x o)|].
    intros y o' Hy Hh'. by eapply (fleet_unique _ _ _ _ Hi).
  - intros Hempty. apply set_eq. intros h. rewrite (fleet_open _ _ _ _ Hi), Hempty.
    split; [|by left]. intros [?|(x & o & Hx & _)]; [done|]. by rewrite lookup_empty in Hx.
Qed.

(** C13. Every well-formed call is defined and touches only its own objects: in every
    reachable state it returns a value or an error (no undefined behaviour, no endless
    loop), all other objects stay the same and nothing is sent on their handles, nor on
    the handles the library does not own.  A call is well formed when its objects exist
    and its arguments are values of their C++ types; a stream must also be made with a
    retry policy whose delays can be doubled in 64 bits, which the code does not check. *)
Theorem sockets_calls_isolated {W} {G : SocketGhost W} {P : SocketPlatform W} (w0 : W)
    (m : machine store W) op :
  SocketPlatformLaws G P → reachable (fresh_process w0) m → op_enabled op (self m) →
  let '(r, m') := sock_step op m in
  defined r ∧
  (∀ y o, y ∉ op_objects op → self m !! y = Some o →
     self m' !! y = Some o ∧
     ∀ h, h ∈ object_handles o → sent_bytes (os m') h = sent_bytes (os m) h) ∧
  (∀ h, h ∈ open_handles w0 → h ∈ open_handles (os m') ∧ sent_bytes (os m') h = sent_bytes w0 h).
Proof.
  intros L Hr Hop.
  pose proof (reachable_fleet (open_handles w0) (sent_bytes w0) (fresh_process w0) m
    (fresh_fleet w0) Hr) as Hi.
  pose proof (sock_step_good _ _ op m Hi Hop) as Hg. unfold good_wp, wp, good in Hg.
  destruct (sock_step op m) as [r m'].
  destruct r; [| |done..]; destruct Hg as [Hi' Hothers];
    (split_and!; [by split|exact Hothers|]; intros h Hh; split;
     [apply (fleet_open _ _ _ _ Hi'); by left|by apply (fleet_log _ _ _ _ Hi')]).
Qed.

(** A program on the simulated system: a stream connects, sends and is moved; a listener
    accepts; everything is destroyed. *)
Definition sample_ops : list sock_op :=
  [NewStream 0 default_io_options default_reconnect_policy;
   Connect 0 (MkIpEndpoint "localhost" 9000);
   SendAll 0 (bytes_of [1; 2; 3; 4; 5; 6; 7]);
   NewListener 1 default_io_options; BindListener 1 (MkIpEndpoint "*" 9000) 16; Accept 2 1;
   MoveConstruct 3 0; MoveAssign 2 3; Close 2; Reconnect 2; Destroy 0; Destroy 1; Destroy 3].

Fixpoint run_calls {W} {P : SocketPlatform W} (ops : list sock_op) (m : machine store W) :
    list (outcome TransportError sock_answer) * machine store W :=
  match ops with
  | [] => ([], m)
  | op :: rest =>
      let '(r, m') := sock_step op m in
      let '(rs, m'') := run_calls rest m' in (r :: rs, m'')
  end.

(** The calls of a program that are well formed one after the other. *)
Fixpoint ops_enabled {W} {P : SocketPlatform W} (ops : list sock_op) (m : machine store W) : Prop :=
  match ops with
  | [] => True
  | op :: rest => op_enabled op (self m) ∧ ops_enabled rest (sock_step op m).2
  end.

Lemma run_calls_reachable {W} {P : SocketPlatform W} ops (m0 m : machine store W) :
  reachable m0 m → ops_enabled ops m → reachable m0 (run_calls ops m).2.
Proof.
  revert m. induction ops as [|op rest IH]; intros m Hr; simpl; [done|]. intros [Hop Hrest].
  destruct (sock_step op m) as [r m'] eqn:E. simpl in Hrest.
  assert (reachable m0 m') as Hr' by (by eapply reachable_call).
  specialize (IH m' Hr' Hrest). by destruct (run_calls rest m').
Qed.

Lemma sample_enabled : ops_enabled sample_ops (fresh_process sim_start).
Proof.
  vm_compute.
  repeat match goal with
  | |- _ ∧ _ => split
  | |- ∃ a b, _ => eexists _, _
  end; try reflexivity; try (intros; discriminate); try (eexists; reflexivity).
Qed.

Lemma sample_reachable :
  reachable (fresh_process sim_start) (run_calls sample_ops (fresh_process sim_start)).2.
Proof. apply run_calls_reachable; [constructor|apply sample_enabled]. Qed.

Example sockets_no_leak_witness :
  let m := (run_calls sample_ops (fresh_process sim_start)).2 in
  sent_bytes (os m) 4 = bytes_of [1; 2; 3; 4; 5; 6; 7] ∧
  (∀ h, h ∈ open_handles (os m) ↔
     h ∈ open_handles sim_start ∨ ∃ x o, self m !! x = Some o ∧ h ∈ object_handles o).
Proof.
  split; [by vm_compute|].
  apply (sockets_no_leak (G:=sim_ghost) sim_start
    (run_calls sample_ops (fresh_process sim_start)).2).
  - apply sim_platform_laws.
  - apply sample_reachable.
Defined.

(** Sending on one stream leaves the listener beside it alone. *)
Definition sample_state : machine store sim :=
  (run_calls sample_ops (fresh_process sim_start)).2.

Example sockets_calls_isolated_witness :
  (sock_step (SendAll 2 (bytes_of [9])) sample_state).1 = Ok (Count 1) ∧
  let '(r, m') := sock_step (SendAll 2 (bytes_of [9])) sample_state in
  defined r ∧
  (∀ y o, y ∉ op_objects (SendAll 2 (bytes_of [9])) → self sample_state !! y = Some o →
     self m' !! y = Some o ∧
     ∀ h, h ∈ object_handles o → sent_bytes (os m') h = sent_bytes (os sample_state) h) ∧
  (∀ h, h ∈ open_handles sim_start →
     h ∈ open_handles (os m') ∧ sent_bytes (os m') h = sent_bytes sim_start h).
Proof.
  split; [by vm_compute|].
  apply (sockets_calls_isolated (G:=sim_ghost) sim_start sample_state (SendAll 2 (bytes_of [9]))).
  - apply sim_platform_laws.
  - apply sample_reachable.
  - by_compute.
Defined.

(** ** Streams *)

(** C15. [send_all] is exact: on a stream that owns its handle, it terminates; when it
    returns, it returns the size of the range and exactly these bytes were accepted for
    sending, in order and without repetition; when it fails, the stream is closed and a
    proper prefix of the range was accepted. *)
Theorem tcp_send_all_exact {W} {G : SocketGhost W} {P : SocketPlatform W}
    others log (t : TcpStream) (w : W) delays bytes :
  SocketPlatformLaws G P → owns others log (stream_handles t) w → in_memory bytes →
  match tcp_send_all bytes (MkMachine t w delays) with
  | (Ok n, m') =>
      n = len bytes ∧ self m' = t ∧ (bytes ≠ [] → connected t = true) ∧
      sent_on t (os m') = sent_on t w ++ bytes
  | (Fail _, m') =>
      connected (self m') = false ∧
      ∃ p q, bytes = p ++ q ∧ q ≠ [] ∧ sent_on t (os m') = sent_on t w ++ p
  | _ => False
  end.
Proof.
  intros L Ho Hm.
  pose proof (send_all_loop_wp others log (S (length bytes)) [] bytes (MkMachine t w delays)
    Ho Hm ltac:(lia)) as Hwp.
  unfold wp in Hwp. unfold tcp_send_all. change (len []) with 0 in Hwp. cbn [app self os] in Hwp.
  destruct (send_all_loop _ _ _ _) as [[n|e| |] m']; [| |done..].
  - destruct Hwp as (-> & Hself & _ & Hc & Hs). done.
  - destruct Hwp as (_ & Hc & Hs). done.
Qed.

(** A connected stream on the simulated system, alone. *)
Definition sample_world : sim := sim_world {[3]} 4.

Definition sample_impl : StreamImpl :=
  MkStreamImpl (MkNativeSocket 3) default_io_options default_reconnect_policy
    (Some (MkIpEndpoint "localhost" 9000)).

Definition sample_stream : TcpStream := Some sample_impl.

Lemma sample_owns : owns ∅ (λ _, []) (stream_handles sample_stream) sample_world.
Proof. split_and!; [apply disjoint_empty_r|by apply set_eq; vm_compute|done]. Qed.

Example tcp_send_all_exact_witness :
  let r := tcp_send_all (bytes_of [1; 2; 3; 4; 5]) (MkMachine sample_stream sample_world []) in
  r.1 = Ok 5 ∧ sent_on sample_stream (os r.2) = bytes_of [1; 2; 3; 4; 5] ∧
  match r with
  | (Ok n, m') =>
      n = 5 ∧ self m' = sample_stream ∧
      (bytes_of [1; 2; 3; 4; 5] ≠ [] → connected sample_stream = true) ∧
      sent_on sample_stream (os m') = sent_on sample_stream sample_world ++ bytes_of [1; 2; 3; 4; 5]
  | (Fail _, m') =>
      connected (self m') = false ∧
      ∃ p q, bytes_of [1; 2; 3; 4; 5] = p ++ q ∧ q ≠ [] ∧
        sent_on sample_stream (os m') = sent_on sample_stream sample_world ++ p
  | _ => False
  end.
Proof.
  split; [by vm_compute|]. split; [by vm_compute|].
  apply (tcp_send_all_exact (G:=sim_ghost) ∅ (λ _, []) sample_stream sample_world []
    (bytes_of [1; 2; 3; 4; 5])).
  - apply sim_platform_laws.
  - apply sample_owns.
  - by_compute.
Defined.


(** A closed stream on a simulated system that has no handle left. *)
Definition closed_stream (p : ReconnectPolicy) : StreamImpl :=
  MkStreamImpl invalid_socket default_io_options p (Some (MkIpEndpoint "127.0.0.1" 9000)).

Definition exhausted : sim := sim_world ∅ (INT_MAX + 1).


(** A policy that [ReconnectPolicy::valid] accepts, whose first delay overflows when it is
    doubled.  (The thread would have slept for it first.) *)
Example reconnect_delay_overflow :
  let p := MkReconnectPolicy 2 4611686018427387904 9223372036854775807 in
  reconnect_policy_valid p = true ∧
  (tcp_reconnect (MkMachine (Some (closed_stream p)) exhausted [])).1 = UB.
Proof. split; by vm_compute. Qed.

(** C19. [connect] is all or nothing: when it succeeds, the stream owns exactly one open
    handle beside the handles of others and remembers the endpoint; when it fails, either
    nothing changed (the arguments were refused) or the stream owns no handle at all, the
    previous one and those of every attempt being closed. *)
Theorem tcp_connect_all_or_nothing {W} {G : SocketGhost W} {P : SocketPlatform W}
    others log (t : TcpStream) (w : W) delays endpoint :
  SocketPlatformLaws G P → owns others log (stream_handles t) w →
  match tcp_connect endpoint (MkMachine t w delays) with
  | (Ok _, m') =>
      connected (self m') = true ∧ (self m' ≫= stream_endpoint) = Some endpoint ∧
      owns others log (stream_handles (self m')) (os m') ∧ same_settings t (self m')
  | (Fail _, m') =>
      m' = MkMachine t w delays ∨
      (connected (self m') = false ∧ open_handles (os m') = others ∧ same_settings t (self m'))
  | _ => False
  end.
Proof.
  intros L Ho. pose proof (tcp_connect_wp others log endpoint (MkMachine t w delays) Ho) as Hwp.
  unfold wp in Hwp. cbn [self slept] in Hwp.
  destruct (tcp_connect _ _) as [[[]|e| |] m']; [| |done..].
  - destruct Hwp as (Ho' & Hc & Hsame & He & _). done.
  - destruct Hwp as (Ho' & Hsame & _ & [->|Hc]); [by left|right]. split_and!; [done| |done..].
    destruct Ho' as (_ & Hop & _). rewrite Hop. destruct (self m') as [i|]; simpl in *.
    + unfold socket_handles. rewrite Hc. by rewrite union_empty_l_L.
    + by rewrite union_empty_l_L.
Qed.

Example tcp_connect_all_or_nothing_witness :
  match tcp_connect (MkIpEndpoint "localhost" 9001) (MkMachine sample_stream sample_world []) with
  | (Ok _, m') =>
      connected (self m') = true ∧
      (self m' ≫= stream_endpoint) = Some (MkIpEndpoint "localhost" 9001) ∧
      owns ∅ (λ _, []) (stream_handles (self m')) (os m') ∧ same_settings sample_stream (self m')
  | (Fail _, m') =>
      m' = MkMachine sample_stream sample_world [] ∨
      (connected (self m') = false ∧ open_handles (os m') = ∅ ∧
       same_settings sample_stream (self m'))
  | _ => False
  end.
Proof.
  apply (tcp_connect_all_or_nothing (G:=sim_ghost) ∅ (λ _, []) sample_stream sample_world []).
  - apply sim_platform_laws.
  - apply sample_owns.
Defined.

(** ** UDP *)

(** C21. UDP sizes are bounded: [receive] returns a datagram only within the bound the
    caller gave, which is in [1, 65507], and otherwise leaves the socket as it was;
    [send_to] refuses a larger payload before touching the socket, and when it succeeds
    the count is within the payload and the destination is the one remembered. *)
Theorem udp_sizes_bounded {W} {G : SocketGhost W} {P : SocketPlatform W}
    others log (u : UdpSocket) (w : W) delays maximum_size endpoint payload :
  SocketPlatformLaws G P → owns others log (udp_handles u) w → cache_wf u → 0 ≤ maximum_size →
  match udp_receive maximum_size (MkMachine u w delays) with
  | (Ok d, m') =>
      self m' = u ∧ len (datagram_payload d) ≤ maximum_size ∧
      0 < maximum_size ≤ maximum_payload_size
  | (Fail _, m') => self m' = u
  | _ => False
  end ∧
  match udp_send_to endpoint payload (MkMachine u w delays) with
  | (Ok n, m') =>
      0 ≤ n ≤ len payload ∧ len payload ≤ maximum_payload_size ∧
      udp_open (self m') = true ∧ (self m' ≫= cached_endpoint) = Some endpoint
  | (Fail e, m') =>
      maximum_payload_size < len payload →
      m' = MkMachine u w delays ∧ net_code e ∈ [net_invalid_argument; net_datagram_too_large]
  | _ => False
  end.
Proof.
  intros L Ho Hc Hmax. assert (udp_owns others log (MkMachine u w delays)) as Hown by (by split).
  split.
  - pose proof (udp_receive_wp others log maximum_size _ Hown Hmax) as Hwp.
    unfold wp in Hwp. cbn [self] in Hwp.
    destruct (udp_receive _ _) as [[d|e| |] m']; [| |done..]; tauto.
  - pose proof (udp_send_to_wp others log endpoint payload _ Hown) as Hwp.
    unfold wp, sent_to in Hwp. cbn [self] in Hwp.
    destruct (udp_send_to _ _ _) as [[n|e| |] m']; [| |done..]; tauto.
Qed.

Definition sample_udp : UdpSocket :=
  Some (MkUdpImpl (MkNativeSocket 3) default_io_options AF_INET None None).

Example udp_sizes_bounded_witness :
  match udp_receive 16 (MkMachine sample_udp sample_world []) with
  | (Ok d, m') => self m' = sample_udp ∧ len (datagram_payload d) ≤ 16 ∧
      0 < 16 ≤ maximum_payload_size
  | (Fail _, m') => self m' = sample_udp
  | _ => False
  end.
Proof.
  apply (udp_sizes_bounded (G:=sim_ghost) ∅ (λ _, []) sample_udp sample_world [] 16
    (MkIpEndpoint "localhost" 9000) []).
  - apply sim_platform_laws.
  - apply sample_owns.
  - by intros i a [= <-].
  - lia.
Defined.

(** ** Two behaviours worth knowing *)

(** [send_all] of an empty range succeeds on a moved-from stream: the loop body, which
    would report [not_connected], is never entered. *)
Lemma send_all_empty_moved_from {W} {P : SocketPlatform W} (w : W) delays :
  tcp_send_all [] (MkMachine None w delays) = (Ok 0, MkMachine None w delays).
Proof. done. Qed.

Lemma ensure_open_other_family {W} {P : SocketPlatform W} (i : UdpImpl) address (w : W) delays :
  socket_valid (udp_socket i) = true → addr_family address ≠ udp_family i →
  ensure_open address (MkMachine (Some i) w delays) =
  (net_failure net_send_failed "UDP endpoint does not match the open socket family" 0,
   MkMachine (Some i) w delays).
Proof.
  intros Hv Hf. unfold ensure_open, mbind, method_bind, get. simpl. rewrite Hv.
  unfold udp_impl, mbind, method_bind, get, lift, mret, method_ret. simpl.
  by destruct (Z.eqb_spec (addr_family address) (udp_family i)).
Qed.

(** What [send_to] looks at besides the socket: the options and the remembered
    destination. *)
Definition remembered (u : UdpSocket) :
    option (IoOptions * option IpEndpoint * option NativeAddress) :=
  (λ i, (udp_options i, cached_endpoint i, cached_address i)) <$> u.

(** One call of [close], [bind], [receive] or [local_endpoint], whatever its result. *)
Inductive udp_other_call {W} {P : SocketPlatform W} (m : machine UdpSocket W) :
    machine UdpSocket W → Prop :=
| other_close : udp_other_call m (udp_close m).2
| other_bind e : udp_other_call m (udp_bind e m).2
| other_receive n : udp_other_call m (udp_receive n m).2
| other_local : udp_other_call m (udp_local_endpoint m).2.

Section Remembered.
Context {W : Type} {P : SocketPlatform W}.
Implicit Types m : machine UdpSocket W.

Lemma remembered_socket s family :
  leaves (on_self remembered) (set_self (W:=W) (with_udp_socket s family)).
Proof. by intros [[i|] w sl]. Qed.
#[local] Hint Resolve remembered_socket : leaves.

Lemma udp_impl_remembered : leaves (on_self remembered) (udp_impl (W:=W)).
Proof. unfold udp_impl. leaves. Qed.
#[local] Hint Resolve udp_impl_remembered : leaves.

Lemma udp_close_remembered : leaves (on_self remembered) (udp_close (W:=W)).
Proof. unfold udp_close. leaves. Qed.
#[local] Hint Resolve udp_close_remembered : leaves.

Lemma udp_bind_loop_remembered options addresses last :
  leaves (on_self remembered) (udp_bind_loop (W:=W) options addresses last).
Proof. revert last. induction addresses; intros; simpl; leaves. Qed.
#[local] Hint Resolve udp_bind_loop_remembered : leaves.

(** No call but [send_to] changes what is remembered. *)
Lemma udp_other_call_remembered m m' :
  udp_other_call m m' → remembered (self m') = remembered (self m).
Proof.
  assert (∀ A (f : method (machine UdpSocket W) TransportError A),
    leaves (on_self remembered) f → remembered (self (f m).2) = remembered (self m)) as H
    by (intros A f Hf; exact (Hf m)).
  destruct 1; apply H; [leaves|unfold udp_bind; leaves|unfold udp_receive; leaves|].
  unfold udp_local_endpoint. leaves.
Qed.

Lemma udp_other_calls_remembered m m' :
  rtc udp_other_call m m' → remembered (self m') = remembered (self m).
Proof.
  induction 1 as [|m m1 m' H1 _ IH]; [done|]. by rewrite IH, (udp_other_call_remembered m m1).
Qed.
End Remembered.

(** C36. An open UDP socket is bound to its address family: once [send_to] has a socket,
    every further address of another family is refused without a system call, so a list
    of such addresses fails with the family error and changes nothing.  In particular
    there is no fallback from an unreachable IPv6 address to an IPv4 one within a call.
    The same holds of the remembered address.  [close], [bind], [receive] and
    [local_endpoint] never forget it, whatever they return: after any sequence of such
    calls a socket that remembered a destination still remembers it with the same
    address, and if it is then open for another family, a call to that destination is
    refused without a system call, so without asking for the other addresses of the
    name. *)
Theorem udp_other_family_refused {W} {P : SocketPlatform W} (i : UdpImpl) endpoint payload
    addresses last (w : W) delays :
  socket_valid (udp_socket i) = true →
  let refusal := net_failure (A:=Z) net_send_failed
                   "UDP endpoint does not match the open socket family" 0 in
  let now := MkMachine (Some i) w delays in
  (addresses ≠ [] → Forall (λ a, addr_family a ≠ udp_family i) addresses →
   send_to_loop endpoint payload addresses last now = (refusal, now)) ∧
  (∀ (m : machine UdpSocket W) j a,
     self m = Some j → cached_endpoint j = Some endpoint → cached_address j = Some a →
     rtc udp_other_call m now →
     cached_endpoint i = Some endpoint ∧ cached_address i = Some a ∧
     (addr_family a ≠ udp_family i →
      endpoint_valid endpoint = true → io_options_valid (udp_options j) = true →
      len payload ≤ maximum_payload_size →
      udp_send_to endpoint payload now = (refusal, now))).
Proof.
  intros Hv refusal now. split.
  - intros Hne Ha. revert last. induction Ha as [|a rest Hf Ha IH]; intros last; [done|].
    cbn [send_to_loop]. unfold attempt. unfold mbind at 1, method_bind at 1.
    unfold now at 1. rewrite ensure_open_other_family by done. unfold net_failure at 1.
    destruct rest as [|b rest]; [done|]. by apply IH.
  - intros m j a Hj He Ha Hm. apply udp_other_calls_remembered in Hm.
    rewrite Hj in Hm. simpl in Hm. injection Hm as Ho Hce Hca. rewrite Hce, Hca.
    split_and!; [done..|]. intros Hf Hev Hov Hl. unfold udp_send_to.
    rewrite (method_bind_ok get _ _ _ _ Logic.eq_refl). unfold now at 1. cbn [self].
    rewrite Hev, Ho, Hov. cbn [negb orb].
    rewrite (proj2 (Z.ltb_ge _ _)) by done. rewrite bool_decide_true by congruence.
    rewrite Hca, Ha. apply method_bind_fail. by apply ensure_open_other_family.
Qed.

(** The name has an IPv6 and an IPv4 address.  A socket bound to IPv4 sends to the second
    one and is bound to IPv6 afterwards. *)
Definition family_before : machine UdpSocket sim :=
  ((udp_bind (MkIpEndpoint "127.0.0.1" 0);;
    udp_send_to (MkIpEndpoint "localhost" 9000) (bytes_of [1]))
     (MkMachine (new_udp_socket default_io_options) sim_start [])).2.

Definition family_after : machine UdpSocket sim :=
  (udp_bind (MkIpEndpoint "::" 0) (udp_close family_before).2).2.

Example udp_other_family_refused_witness :
  let refusal := net_failure (A:=Z) net_send_failed
                   "UDP endpoint does not match the open socket family" 0 in
  (self family_before ≫= cached_endpoint) = Some (MkIpEndpoint "localhost" 9000) ∧
  (udp_family <$> self family_before) = Some AF_INET ∧
  (udp_family <$> self family_after) = Some AF_INET6 ∧
  udp_send_to (MkIpEndpoint "localhost" 9000) (bytes_of [1]) family_after =
    (refusal, family_after).
Proof.
  split; [by vm_compute|]. split; [by vm_compute|]. split; [by vm_compute|].
  assert (rtc udp_other_call family_before family_after) as Hr.
  { eapply rtc_l; [apply other_close|]. eapply rtc_once, other_bind. }
  destruct family_after as [[i|] w delays] eqn:Ei; [|by vm_compute in Ei].
  destruct (self family_before) as [j|] eqn:Ej; [|by vm_compute in Ej].
  destruct (udp_other_family_refused i (MkIpEndpoint "localhost" 9000) (bytes_of [1])
    [] None w delays) as [_ H].
  { vm_compute in Ei. by injection Ei as <- _ _. }
  destruct (cached_address j) as [a|] eqn:Ea; [|by vm_compute in Ej; simplify_eq].
  vm_compute in Ei, Ej. simplify_eq.
  destruct (H family_before _ _ Logic.eq_refl Logic.eq_refl Logic.eq_refl Hr) as (_ & _ & H').
  by apply H'.
Defined.

(** The name has an IPv6 and an IPv4 address.  A socket bound to IPv4 reaches the second
    one and remembers it; bound to IPv6 afterwards, it refuses the name without a call,
    though resolution would give an address of its family. *)
Example send_to_stale_cache :
  let name := MkIpEndpoint "localhost" 9000 in
  let m0 := MkMachine (new_udp_socket default_io_options) sim_start [] in
  let '(r1, m1) := (udp_bind (MkIpEndpoint "127.0.0.1" 0);; udp_send_to name (bytes_of [1])) m0 in
  let '(r2, m2) := (udp_bind (MkIpEndpoint "::" 0);; udp_send_to name (bytes_of [1])) m1 in
  r1 = Ok 1 ∧ (udp_family <$> self m2) = Some AF_INET6 ∧
  r2 = net_failure net_send_failed "UDP endpoint does not match the open socket family" 0 ∧
  match resolve name datagram_type false (os m2) with
  | (Ok l, _) => AF_INET6 ∈ addr_family <$> l
  | _ => False
  end.
Proof. vm_compute. split_and!; [done|done|done|by left]. Qed.

(** On the simulated system the IPv4 address is reachable, but the IPv6 one comes first:
    the call fails, and leaves the socket open for IPv6. *)
Example send_to_no_family_fallback :
  let '(r, m') := udp_send_to (MkIpEndpoint "localhost" 9000) (bytes_of [1])
                    (MkMachine (new_udp_socket default_io_options) sim_start []) in
  r = net_failure net_send_failed "UDP endpoint does not match the open socket family" 0 ∧
  (udp_family <$> self m') = Some AF_INET6.
Proof. by vm_compute. Qed.
