(* ===== verification/Programs.v ===== *)
(** * The programs of the repository

    [fuzz/frame_fuzz.cpp] and the four programs under [examples/], over the components
    they use.  A program is a [method] that cannot throw: the [std::expected] a call
    returns is a value of a sum, and the result is the exit status.  What a program
    prints is part of its state. *)

From stdpp Require Import prelude gmap sets list strings.
From Stdlib Require Import ZArith Lia.
From S2P Require Import Prelude Errors Types Frame FrameFacts Stream StreamFacts Text.
From S2P Require Import Permissions SecureBuffer SecureBufferFacts AuthTlv.
Import Protocol.

(** Keep the [std::expected] a call returns as a value. *)
Definition expected {S E A} (r : outcome E A) : method S Empty_set (E + A) := λ s,
  match r with
  | Ok a => (Ok (inr a), s)
  | Fail e => (Ok (inl e), s)
  | UB => (UB, s)
  | NoFuel => (NoFuel, s)
  end.

(** The same for a call on a local object, which is the first component of the state. *)
Definition local {X S E A} (f : method X E A) : method (X * S) Empty_set (E + A) := λ '(x, s),
  match f x with
  | (Ok a, x') => (Ok (inr a), (x', s))
  | (Fail e, x') => (Ok (inl e), (x', s))
  | (UB, x') => (UB, (x', s))
  | (NoFuel, x') => (NoFuel, (x', s))
  end.

(** ** The fuzz target *)
Section Fuzz.

(** [Limits limits; limits.max_payload_size = ...] *)
Definition fuzz_limits : Limits :=
  let payload := 1024 * 1024 in
  let extensions := max_extension_bytes default_limits in
  let frame := payload ⊕ extensions ⊕ wire_header_size in
  MkLimits payload (max_extension_count default_limits) extensions frame frame.

Definition LLVMFuzzerTestOneInput (input : list byte) : method unit Empty_set Z :=
  decoded ← expected (decode_prefix (EM:=Model) fuzz_limits input);
  match decoded with
  | inr decoded =>
      encoded ← expected (encode (EM:=Model) fuzz_limits (message decoded));
      match encoded with
      | inr encoded => expected (decode (EM:=Model) fuzz_limits encoded);; mret 0
      | inl _ => mret 0
      end
  | inl _ => mret 0
  end.
End Fuzz.

(** ** Output *)
Inductive output := OutBytes (l : list byte) | OutText (s : string) | OutNumber (n : Z).

Record console := MkConsole { cout : list output; cerr : list output }.

Definition no_output : console := MkConsole [] [].

Definition print (o : list output) (c : console) : console := MkConsole (cout c ++ o) (cerr c).
Definition complain (o : list output) (c : console) : console := MkConsole (cout c) (cerr c ++ o).

Definition newline : output := OutBytes [Byte.x0a].

(** ** examples/basic.cpp

    The text of the program is an argument, since the program is correct for others. *)
Definition basic_run (value : list byte) : method console Empty_set Z :=
  let text := MkUtf8Codec utf8_default_limit in
  payload ← expected (utf8_codec_encode (EM:=Model) text value);
  match payload with
  | inl e => modify (complain [OutText (message_ e); newline]);; mret 1
  | inr payload =>
      frame ← expected (encode (EM:=Model) default_limits
                          (MkMessage (MkVersion 1 0) 1 42 flags_none [] payload));
      match frame with
      | inl e => modify (complain [OutText (message_ e); newline]);; mret 2
      | inr frame =>
          received ← expected (decode (EM:=Model) default_limits frame);
          match received with
          | inl e => modify (complain [OutText (message_ e); newline]);; mret 3
          | inr received =>
              decoded ← expected (utf8_codec_decode (EM:=Model) text (payload_ received));
              match decoded with
              | inl e => modify (complain [OutText (message_ e); newline]);; mret 4
              | inr decoded =>
                  modify (print [OutBytes decoded; newline]);;
                  mret (if bool_decide (decoded = value) then 0 else 5)
              end
          end
      end
  end.

Definition basic_main : method console Empty_set Z :=
  basic_run (String.list_byte_of_string "hello protocol").

(** ** examples/stream.cpp *)

(** The loop that pushes the frame byte by byte; [false] is [return 3]. *)
Fixpoint push_each (bytes : list byte) : method (StreamDecoder * console) Empty_set bool :=
  match bytes with
  | [] => mret true
  | b :: rest =>
      pushed ← local (push (EM:=Model) [b]);
      match pushed with inl _ => mret false | inr _ => push_each rest end
  end.

Definition stream_run (value : list byte) : method (StreamDecoder * console) Empty_set Z :=
  let text := MkUtf8Codec utf8_default_limit in
  payload ← expected (utf8_codec_encode (EM:=Model) text value);
  match payload with
  | inl _ => mret 1
  | inr payload =>
      frame ← expected (encode (EM:=Model) default_limits
                          (MkMessage (MkVersion 1 0) 2 99 flags_none [] payload));
      match frame with
      | inl _ => mret 2
      | inr frame =>
          modify (λ s, (new_stream default_limits, s.2));;
          pushed ← push_each frame;
          if negb pushed then mret 3
          else
            received ← local (next (EM:=Model));
            match received with
            | inr (Some m) =>
                modify (λ s, (s.1, print [OutText "type="; OutNumber (type_ m);
                                          OutText " correlation="; OutNumber (correlation_id_ m);
                                          newline] s.2));;
                mret (if correlation_id_ m =? 99 then 0 else 5)
            | _ => mret 4
            end
      end
  end.

Definition stream_main : method (StreamDecoder * console) Empty_set Z :=
  stream_run (String.list_byte_of_string "fragmented").

(** ** examples/security.cpp

    [secret] is the object 0.  The extension owns a [std::vector] with a copy of the
    bytes, a block of the same heap; [tag] is a view of that block.  When [main] returns,
    the extension is destroyed first and then [secret].  [vector_of] and [vector_free]
    do not fail. *)
Section SecurityExample.
Context {SE : SecureErase}.

(** [enum class Permission : std::uint8_t { read, write, administer }] *)
Definition permission_type : underlying := MkUnderlying false 8.

(** The bytes a view of the vector shows. *)
Definition vector_bytes (v : vector) : method world Empty_set (list byte) := λ w,
  match vdata v with
  | None => (Ok [], w)
  | Some l =>
      match heap w !! l with
      | Some blk => (Ok (take (Z.to_nat (vsize v)) blk), w)
      | None => (UB, w)
      end
  end.

(** From [auto tag] on, with the extension and its vector [v] alive. *)
Definition security_checks (source : list byte) (extension : Extension) (v : vector) :
    method (world * console) Empty_set Z :=
  tag ← expected (authentication_tag extension);
  match tag with
  | inl _ => mret 4
  | inr _ =>
      view ← local (vector_bytes v);
      match view with
      | inl e => match (e : Empty_set) with end
      | inr view =>
          equal ← expected (E:=Empty_set) (constant_time_equal view source []).1;
          match equal with
          | inr true =>
              local (buffer_clear 0);;
              empty ← local (buffer_empty 0);
              match empty with inr true => mret 0 | _ => mret 5 end
          | _ => mret 4
          end
      end
  end.

Definition security_body (source : list byte) : method (world * console) Empty_set Z :=
  let '(granted, permissions) := grant permission_type 3 0 no_permissions in
  if negb granted || negb (allows permission_type 3 permissions 0) then mret 2
  else
    extension ← expected (authentication_extension source default_maximum_authentication_tag_size);
    match extension with
    | inl _ => mret 3
    | inr extension =>
        v ← local (vector_of (value_ extension));
        match v with
        | inl _ => mret 3
        | inr v =>
            status ← security_checks source extension v;
            local (vector_free v);;
            mret status
        end
    end.

Definition security_run (source : list byte) : method (world * console) Empty_set Z :=
  secret ← local (buffer_copy_from 0 source default_maximum_size);
  match secret with
  | inl e => modify (λ s, (s.1, complain [OutText (Security.sec_message_ e); newline] s.2));; mret 1
  | inr _ =>
      status ← security_body source;
      local (buffer_destroy 0);;
      mret status
  end.

Definition security_main : method (world * console) Empty_set Z :=
  security_run (bytes_of [16; 32; 48]).
End SecurityExample.

Example programs_run :
  (basic_main no_output = (Ok 0, print [OutBytes (String.list_byte_of_string "hello protocol"); newline] no_output)) ∧
  (stream_main (new_stream default_limits, no_output)).1 = Ok 0 ∧
  (security_main (SE:=posix_erase zero_memory) (initial_world, no_output)).1 = Ok 0.
Proof. split_and!; by vm_compute. Qed.

(** ** Symbolic execution of a program *)
Lemma expected_ok {S E A B} (r : outcome E A) (k : E + A → method S Empty_set B) s a :
  r = Ok a → (expected r ≫= k) s = k (inr a) s.
Proof. by intros ->. Qed.

Lemma expected_fail {S E A B} (r : outcome E A) (k : E + A → method S Empty_set B) s e :
  r = Fail e → (expected r ≫= k) s = k (inl e) s.
Proof. by intros ->. Qed.

Lemma local_ok {X S E A B} (f : method X E A) (k : E + A → method (X * S) Empty_set B) x s a x' :
  f x = (Ok a, x') → (local f ≫= k) (x, s) = k (inr a) (x', s).
Proof. unfold mbind at 1, method_bind at 1, local. by intros ->. Qed.

(** ** The fuzz target *)
Lemma fuzz_limits_wf : limits_wf fuzz_limits ∧ limits_valid fuzz_limits = true.
Proof. split; by_compute. Qed.

Lemma fuzz_reencodes input d :
  in_memory input → decode_prefix (EM:=Model) fuzz_limits input = Ok d →
  encode (EM:=Model) fuzz_limits (message d) = Ok (take (Z.to_nat (consumed d)) input) ∧
  decode (EM:=Model) fuzz_limits (take (Z.to_nat (consumed d)) input) = Ok (message d).
Proof.
  intros Hin. destruct fuzz_limits_wf as [Hlw Hlv].
  intros (_ & Hm & Hf & -> & rest & ->)%(decode_prefix_spec (EM:=Model) _ _ _ Hlw Hin).
  unfold len at 1 2. rewrite Nat2Z.id, take_app_length.
  destruct (encode_spec (EM:=Model) fuzz_limits (message d) Hlw Hlv Hm) as [[_ ->]|[Hn _]]; [|done].
  split; [done|]. apply (decode_spec (EM:=Model)); [done|len_lia|done].
Qed.

Lemma utf8_run {EM : ErrorModel} value :
  is_utf8 value → len value ≤ utf8_default_limit →
  utf8_codec_encode (MkUtf8Codec utf8_default_limit) value = Ok value ∧
  utf8_codec_decode (MkUtf8Codec utf8_default_limit) value = Ok value.
Proof.
  intros Hu Hl. rewrite utf8_codec_decode_eq. unfold utf8_codec_encode.
  cbn [utf8_limit_]. rewrite (proj2 (Z.ltb_ge _ _)) by done.
  assert (in_memory value) as Hm by (unfold utf8_default_limit in Hl; len_lia).
  by destruct (valid_utf8_cases (E:=error_type) value Hm) as [[_ ->]|[? _]].
Qed.

(** A message of the examples is well formed and fits the default limits. *)
Lemma example_sendable type correlation value :
  0 ≤ type ≤ uint32_max → 0 ≤ correlation ≤ size_max → len value ≤ utf8_default_limit →
  sendable default_limits (MkMessage (MkVersion 1 0) type correlation flags_none [] value).
Proof.
  intros Ht Hc Hl. unfold utf8_default_limit in Hl. pose proof (len_nonneg value).
  assert (in_memory (A:=Extension) []) by by_compute.
  split; [unfold message_wf; simpl; split_and!; try done; len_lia || by_compute|].
  unfold fits. rewrite len_frame_wire. simpl.
  change (len (A:=Extension) []) with 0. change (len (extensions_wire [])) with 0.
  unfold default_limits, default_payload_size, default_frame_size, default_payload_size,
    default_extension_bytes, uint16_max, wire_header_size; simpl. lia.
Qed.

Lemma example_frame {EM : ErrorModel} m :
  sendable default_limits m →
  encode default_limits m = Ok (frame_wire m) ∧ decode default_limits (frame_wire m) = Ok m.
Proof.
  intros [Hm Hf]. pose proof default_limits_wf as Hlw.
  assert (limits_valid default_limits = true) as Hlv by by_compute.
  destruct (encode_spec default_limits m Hlw Hlv Hm) as [[_ ->]|[? _]]; [|done].
  split; [done|]. apply decode_spec; [done| |done].
  destruct Hf as (_ & _ & _ & _ & Hf). unfold default_limits, default_frame_size,
    default_payload_size, default_extension_bytes, uint16_max in Hf. simpl in Hf. len_lia.
Qed.

Lemma push_each_run bytes d c :
  stream_inv d → len (pending d) + len bytes ≤ max_buffered_bytes (stream_limits d) →
  ∃ d', push_each bytes (d, c) = (Ok true, (d', c)) ∧ stream_inv d' ∧
    stream_limits d' = stream_limits d ∧ pending d' = pending d ++ bytes.
Proof.
  revert d. induction bytes as [|b bytes IH]; intros d Hi Hb; cbn [push_each].
  { exists d. by rewrite app_nil_r. }
  rewrite len_cons in Hb. pose proof (len_nonneg bytes).
  pose proof (push_refines (EM:=Model) [b] d Hi ltac:(by_compute)) as Hp.
  destruct (push [b] d) as [r d1] eqn:E. destruct Hp as (Hi1 & Hl1 & Hs). unfold spec_push in Hs.
  change (len [b]) with 1 in Hs. rewrite (proj2 (Z.leb_le _ _)) in Hs by lia. injection Hs as -> Hq.
  destruct (IH d1 Hi1) as (d2 & E2 & Hi2 & Hl2 & Hq2).
  { rewrite Hq, Hl1, len_app. change (len [b]) with 1. lia. }
  exists d2. rewrite (local_ok _ _ _ _ _ _ E), E2, Hl2, Hq2, Hq, <- app_assoc. done.
Qed.

Lemma basic_run_ok value c :
  is_utf8 value → len value ≤ utf8_default_limit →
  basic_run value c = (Ok 0, print [OutBytes value; newline] c).
Proof.
  intros Hu Hl. destruct (utf8_run (EM:=Model) value Hu Hl) as [He Hd].
  destruct (example_frame (EM:=Model) (MkMessage (MkVersion 1 0) 1 42 flags_none [] value))
    as [Hf Hg]; [apply example_sendable; [by_compute..|done]|].
  unfold basic_run. rewrite (expected_ok _ _ _ _ He), (expected_ok _ _ _ _ Hf),
    (expected_ok _ _ _ _ Hg), (expected_ok _ _ _ _ Hd).
  unfold modify, mbind, method_bind, mret, method_ret. by rewrite bool_decide_true.
Qed.

Lemma stream_run_ok value d c :
  is_utf8 value → len value ≤ utf8_default_limit →
  ∃ d', stream_run value (d, c) =
    (Ok 0, (d', print [OutText "type="; OutNumber 2; OutText " correlation="; OutNumber 99; newline] c)) ∧
    buffered_size d' = 0.
Proof.
  intros Hu Hl. destruct (utf8_run (EM:=Model) value Hu Hl) as [He _].
  set (m := MkMessage (MkVersion 1 0) 2 99 flags_none [] value).
  assert (sendable default_limits m) as Hm by (apply example_sendable; [by_compute..|done]).
  destruct (example_frame (EM:=Model) m Hm) as [Hf _].
  pose proof default_stream_inv as Hi. pose proof (proj2 Hm) as (_ & _ & _ & _ & Hsize).
  destruct (push_each_run (frame_wire m) (new_stream default_limits) c Hi) as (d1 & E1 & Hi1 & Hl1 & Hq1).
  { change (len (pending (new_stream default_limits))) with 0. cbn [stream_limits new_stream].
    assert (max_frame_size default_limits ≤ max_buffered_bytes default_limits) by by_compute. lia. }
  destruct (next_frame (EM:=Model) d1 m []) as (d2 & E2 & Hi2 & _ & Hq2);
    [done|by rewrite Hl1|by rewrite app_nil_r|].
  exists d2. split.
  - unfold stream_run. fold m. rewrite (expected_ok _ _ _ _ He), (expected_ok _ _ _ _ Hf).
    rewrite (method_bind_ok _ _ _ tt (new_stream default_limits, c)) by done.
    rewrite (method_bind_ok _ _ _ _ _ E1). cbn [negb]. by rewrite (local_ok _ _ _ _ _ _ E2).
  - by apply buffered_size_empty.
Qed.

(** ** examples/security.cpp *)
Section SecurityExampleFacts.
Context {SE : SecureErase} {SEL : SecureEraseLaws SE}.

(** The heap while [main] runs: block 0 is [secret]'s, block 1 the extension's. *)
Definition secret_world (n : Z) (blocks : list (list byte)) (freed : list (list byte)) : world :=
  MkWorld (map_seq 0 blocks) (length blocks) freed
    {[0%nat := MkSecureBuffer (MkVector (Some 0%nat) n)]}.

Lemma secret_copied source :
  0 < len source ≤ default_maximum_size →
  buffer_copy_from 0 source default_maximum_size initial_world =
    (Ok tt, secret_world (len source) [source] []).
Proof.
  intros Hl. unfold buffer_copy_from.
  rewrite (proj2 (Z.eqb_neq (len source) 0)) by lia.
  change (default_maximum_size =? 0) with false.
  change (hard_maximum_size <? default_maximum_size) with false.
  rewrite (proj2 (Z.ltb_ge default_maximum_size (len source))) by lia.
  destruct source as [|b rest]; [by destruct Hl|done].
Qed.

Lemma extension_allocated source :
  0 < len source →
  vector_of source (secret_world (len source) [source] []) =
    (Ok (MkVector (Some 1%nat) (len source)), secret_world (len source) [source; source] []).
Proof. intros Hl. by destruct source as [|b rest]. Qed.

Lemma secret_cleared source :
  buffer_clear 0 (secret_world (len source) [source; source] []) =
    (Ok tt, secret_world 0 [secure_erase source; source] []).
Proof.
  transitivity (Ok (E:=Security.SecurityError) tt,
    secret_world 0 [secure_erase (take (Z.to_nat (len source)) source) ++
                    drop (Z.to_nat (len source)) source; source] []); [done|].
  unfold len. by rewrite Nat2Z.id, firstn_all, drop_all, app_nil_r.
Qed.

Lemma extension_destroyed source blk :
  vector_free (MkVector (Some 1%nat) (len source)) (secret_world 0 [blk; source] []) =
    (Ok tt, MkWorld {[0%nat := blk]} 2 [source]
              {[0%nat := MkSecureBuffer (MkVector (Some 0%nat) 0)]}).
Proof. done. Qed.

(** Destroying a cleared buffer erases the empty range and releases the block. *)
Lemma secret_destroyed blk freed n :
  buffer_destroy 0 (MkWorld {[0%nat := blk]} n freed
                      {[0%nat := MkSecureBuffer (MkVector (Some 0%nat) 0)]}) =
    (Ok tt, MkWorld ∅ n (freed ++ [blk]) ∅).
Proof.
  transitivity (Ok (E:=Security.SecurityError) tt,
    MkWorld ∅ n (freed ++ [secure_erase [] ++ blk]) ∅); [done|].
  by rewrite secure_erase_zeroes.
Qed.

Lemma security_checks_ok source c :
  0 < len source ≤ default_maximum_authentication_tag_size →
  security_checks source (MkExtension (extension_id_value authentication) source)
    (MkVector (Some 1%nat) (len source)) (secret_world (len source) [source; source] [], c) =
    (Ok 0, (secret_world 0 [secure_erase source; source] [], c)).
Proof.
  intros Hl. unfold security_checks.
  rewrite (expected_ok _ _ _ _ (authentication_tag_of source (proj1 Hl))).
  rewrite (local_ok _ _ _ _ source (secret_world (len source) [source; source] [])).
  2: { transitivity (Ok (E:=Empty_set) (take (Z.to_nat (len source)) source),
         secret_world (len source) [source; source] []); [done|].
       unfold len. by rewrite Nat2Z.id, firstn_all. }
  assert ((constant_time_equal (E:=Empty_set) source source []).1 = Ok true) as Heq.
  { rewrite constant_time_equal_spec; [by rewrite bool_decide_true|].
    unfold default_maximum_authentication_tag_size in Hl. len_lia. }
  rewrite (expected_ok _ _ _ _ Heq), (local_ok _ _ _ _ _ _ (secret_cleared source)).
  done.
Qed.

Lemma security_run_ok source c :
  0 < len source ≤ default_maximum_authentication_tag_size →
  security_run source (initial_world, c) =
    (Ok 0, (MkWorld ∅ 2 [source; replicate (length source) Byte.x00] ∅, c)).
Proof.
  intros Hl. pose proof Hl as Hl'. unfold default_maximum_authentication_tag_size in Hl'.
  unfold security_run. rewrite (local_ok _ _ _ _ tt (secret_world (len source) [source] []))
    by (apply secret_copied; unfold default_maximum_size; lia).
  unfold security_body.
  change (grant permission_type 3 0 no_permissions) with (true, MkPermissionSet 1). cbv beta iota.
  change (negb true || negb (allows permission_type 3 (MkPermissionSet 1) 0)) with false.
  cbv beta iota.
  assert (authentication_extension source default_maximum_authentication_tag_size =
    Ok (MkExtension (extension_id_value authentication) source)) as He.
  { unfold authentication_extension, default_maximum_authentication_tag_size in *.
    rewrite (proj2 (Z.eqb_neq (len source) 0)), (proj2 (Z.ltb_ge 4096 (len source))) by lia. done. }
  rewrite (method_bind_ok _ _ _ 0 (MkWorld {[0%nat := secure_erase source]} 2 [source]
             {[0%nat := MkSecureBuffer (MkVector (Some 0%nat) 0)]}, c)).
  - rewrite (local_ok _ _ _ _ _ _ (secret_destroyed _ _ _)). by rewrite secure_erase_zeroes.
  - rewrite (expected_ok _ _ _ _ He). cbn [value_].
    rewrite (local_ok _ _ _ _ _ _ (extension_allocated source (proj1 Hl))).
    rewrite (method_bind_ok _ _ _ _ _ (security_checks_ok source c Hl)).
    by rewrite (local_ok _ _ _ _ _ _ (extension_destroyed source _)).
Qed.
End SecurityExampleFacts.

(** ** Properties *)

(** C24. The fuzz target never goes wrong: on every input the target returns 0 without
    undefined behaviour, and whenever the input starts with a frame, re-encoding the
    decoded message gives back the very bytes it was decoded from, which decode to the
    same message again. *)
Theorem fuzz_target_safe (input : list byte) :
  in_memory input →
  LLVMFuzzerTestOneInput input tt = (Ok 0, tt) ∧
  ∀ d, decode_prefix (EM:=Model) fuzz_limits input = Ok d →
    encode (EM:=Model) fuzz_limits (message d) = Ok (take (Z.to_nat (consumed d)) input) ∧
    decode (EM:=Model) fuzz_limits (take (Z.to_nat (consumed d)) input) = Ok (message d).
Proof.
  intros Hin. split; [|by intros d; apply fuzz_reencodes]. unfold LLVMFuzzerTestOneInput.
  destruct fuzz_limits_wf as [Hlw _].
  destruct (decode_prefix_defined (EM:=Model) fuzz_limits input Hlw Hin) as [Hub Hnf].
  destruct (decode_prefix (EM:=Model) fuzz_limits input) as [d|e| |] eqn:Hd; [| |done..].
  - destruct (fuzz_reencodes input d Hin Hd) as [He Hdec].
    rewrite (expected_ok _ _ _ _ Logic.eq_refl), (expected_ok _ _ _ _ He).
    by rewrite (expected_ok _ _ _ _ Hdec).
  - by rewrite (expected_fail _ _ _ _ Logic.eq_refl).
Qed.

Example fuzz_target_safe_witness :
  let input := frame_wire sample_message ++ [Byte.x00] in
  LLVMFuzzerTestOneInput input tt = (Ok 0, tt) ∧
  ∀ d, decode_prefix (EM:=Model) fuzz_limits input = Ok d →
    encode (EM:=Model) fuzz_limits (message d) = Ok (take (Z.to_nat (consumed d)) input) ∧
    decode (EM:=Model) fuzz_limits (take (Z.to_nat (consumed d)) input) = Ok (message d).
Proof. apply (fuzz_target_safe (frame_wire sample_message ++ [Byte.x00])). by_compute. Defined.

(** C38. The example programs do what they show, and not only for their own constants.
    For every UTF-8 text within the codec's limit, [basic] prints the text and exits with
    0, and [stream], which pushes the frame byte by byte, prints the type and correlation
    and exits with 0 with an empty decoder.  For every secret of 1 to 4096 bytes and every
    erasing primitive, [security] exits with 0, no object or block is left, and exactly
    two blocks were released: first the copy of the bytes that the extension owns, which
    is a plain vector and is not erased, then the block of the secure buffer, which held
    only zeroes by then. *)
Theorem example_programs_succeed {SE : SecureErase} (value source : list byte) d c :
  SecureEraseLaws SE → is_utf8 value → len value ≤ utf8_default_limit →
  0 < len source ≤ default_maximum_authentication_tag_size →
  basic_run value c = (Ok 0, print [OutBytes value; newline] c) ∧
  (∃ d', stream_run value (d, c) =
     (Ok 0, (d', print [OutText "type="; OutNumber 2; OutText " correlation="; OutNumber 99;
                        newline] c)) ∧ buffered_size d' = 0) ∧
  (∃ w, security_run source (initial_world, c) = (Ok 0, (w, c)) ∧
     objects w = ∅ ∧ heap w = ∅ ∧
     released w = [source; replicate (length source) Byte.x00]).
Proof.
  intros SEL Hu Hl Hs.
  split_and!; [by apply basic_run_ok|by apply stream_run_ok|].
  eexists. by rewrite security_run_ok.
Qed.

Lemma hello_is_utf8 : is_utf8 (String.list_byte_of_string "hello protocol").
Proof.
  destruct (valid_utf8_cases (E:=unit) (String.list_byte_of_string "hello protocol") ltac:(by_compute))
    as [[H _]|[_ H]]; [done|]. by vm_compute in H.
Qed.

(** The three programs as they are in the repository, [stream] with the text of [basic]. *)
Example example_programs_succeed_witness :
  let erase := posix_erase zero_memory in
  basic_main no_output =
    (Ok 0, print [OutBytes (String.list_byte_of_string "hello protocol"); newline] no_output) ∧
  (∃ w, security_main (SE:=erase) (initial_world, no_output) = (Ok 0, (w, no_output)) ∧
     objects w = ∅ ∧ heap w = ∅ ∧ released w = [bytes_of [16; 32; 48]; bytes_of [0; 0; 0]]).
Proof.
  destruct (example_programs_succeed (SE:=posix_erase zero_memory)
    (String.list_byte_of_string "hello protocol") (bytes_of [16; 32; 48])
    (new_stream default_limits) no_output) as (H1 & _ & H3).
  - by apply posix_erase_laws.
  - apply hello_is_utf8.
  - by_compute.
  - by_compute.
  - split; [exact H1|exact H3].
Defined.
