(* ===== verification/TransportExample.v ===== *)
(** * The transport example

    [examples/transport.cpp]: a UDP socket is bound to the loopback interface, a second
    one sends it three bytes, and the first receives them.  The program is translated
    over the platform interface with its destructors, which run on every return. *)

From stdpp Require Import prelude gmap sets list strings.
From Stdlib Require Import ZArith Lia.
From S2P Require Import Prelude Programs Transport SocketLogic Udp UdpFacts.
From S2P Require Import Sockets SocketsFacts SocketAddr Posix Windows SimOS TransportProps.

(** ** The program

    [receiver] is the object 0 and [sender] the object 1; the result is the exit status
    and what was printed. *)
Section Program.
Context {W : Type} {P : SocketPlatform W}.
Abbreviation M := (method (machine store W) TransportError).

Definition report (e : TransportError) : console :=
  complain [OutText (net_message e); newline] no_output.

Definition example_payload : list byte := String.list_byte_of_string "VSP".

(** From [UdpSocket sender;] to the end of [main]. *)
Definition transport_send (endpoint : IpEndpoint) : M (Z * console) :=
  place 1 (ObjUdp (new_udp_socket default_io_options));;
  sent ← attempt (on_udp 1 (udp_send_to endpoint example_payload));
  result ←
    match sent with
    | inl e => mret (3, report e)
    | inr _ =>
        datagram ← attempt (on_udp 0 (udp_receive 64));
        match datagram with
        | inl e => mret (4, report e)
        | inr datagram =>
            mret (0, print [OutText "received "; OutNumber (len (datagram_payload datagram));
                            OutText " bytes"; newline] no_output)
        end
    end;
  destroy_object 1;;
  mret result.

Definition transport_main : M (Z * console) :=
  place 0 (ObjUdp (new_udp_socket (MkIoOptions 1000 1000)));;
  bound ← attempt (on_udp 0 (udp_bind (MkIpEndpoint "127.0.0.1" 0)));
  result ←
    match bound with
    | inl e => mret (1, report e)
    | inr _ =>
        endpoint ← attempt (on_udp 0 udp_local_endpoint);
        match endpoint with
        | inl e => mret (2, report e)
        | inr endpoint => transport_send endpoint
        end
    end;
  destroy_object 0;;
  mret result.
End Program.

(** ** Proof *)
Section Facts.
Context {W : Type} {G : SocketGhost W} {P : SocketPlatform W} {L : SocketPlatformLaws G P}.
Context (base : gset Z) (log : Z → list byte).

(** The objects are UDP sockets, and the open handles are theirs and [base]. *)
Definition udp_fleet (xs : gset nat) (m : machine store W) : Prop :=
  fleet base log (self m) (os m) ∧ dom (self m) = xs ∧
  ∀ x o, self m !! x = Some o → ∃ u, o = ObjUdp u.

Lemma on_udp_fleet {A} xs x (f : method (machine UdpSocket W) TransportError A) (R : A → Prop) m Q F :
  udp_fleet xs m → x ∈ xs →
  (∀ others log m, udp_owns others log m →
     wp f m (λ a m', udp_owns others log m' ∧ R a) (λ _ m', udp_owns others log m')) →
  (∀ a m', udp_fleet xs m' → R a → Q a m') → (∀ e m', udp_fleet xs m' → F e m') →
  wp (on_udp x f) m Q F.
Proof.
  intros (Hi & Hd & Hu) Hx Hf HQ HF. destruct m as [s w sl]; simpl in *.
  rewrite <- Hd in Hx. apply elem_of_dom in Hx as [o Hx]. destruct (Hu x o Hx) as [u ->].
  assert (∀ u' w' sl', good base log {[x]} (MkMachine s w sl) (MkMachine (<[x := ObjUdp u']> s) w' sl') →
    udp_fleet xs (MkMachine (<[x := ObjUdp u']> s) w' sl')) as Hnext.
  { intros u' w' sl' [Hi' _]. split_and!; [done| |].
    - simpl. rewrite dom_insert_lookup_L by done. done.
    - simpl. intros y o. destruct (decide (y = x)) as [->|]; [rewrite lookup_insert_eq|rewrite lookup_insert_ne by done].
      + intros [= <-]. by eexists.
      + apply Hu. }
  eapply on_udp_wp; [exact Hi|done|]. simpl.
  eapply wp_mono; [apply (Hf (open_handles w ∖ udp_handles u) (sent_bytes w) (MkMachine u w sl))| |]; simpl.
  - split; [by eapply (fleet_focus _ _ _ _ _ _ Hi Hx)|by apply (fleet_wf _ _ _ _ Hi _ _ Hx)].
  - intros a m' [Ho Ha]. split; [done|]. intros Hg. by apply HQ, Ha; apply Hnext.
  - intros e m' Ho. split; [done|]. intros Hg. by apply HF, Hnext.
Qed.

Lemma destroy_fleet xs x m Q F :
  udp_fleet xs m → x ∈ xs → (∀ m', udp_fleet (xs ∖ {[x]}) m' → Q tt m') →
  wp (destroy_object x) m Q F.
Proof.
  intros (Hi & Hd & Hu) Hx HQ. destruct m as [s w sl]; simpl in *.
  rewrite <- Hd in Hx. apply elem_of_dom in Hx as [o Hx]. destruct (Hu x o Hx) as [u ->].
  unfold wp, destroy_object. simpl. rewrite Hx.
  change (wp (on_udp x udp_destroy;; set_self (delete x)) (MkMachine s w sl) Q F).
  wp_step. eapply on_udp_wp; [exact Hi|done|]. simpl.
  eapply wp_mono; [eapply (udp_destroy_wp (open_handles w ∖ udp_handles u) (sent_bytes w))| |done].
  - split; [by eapply (fleet_focus _ _ _ _ _ _ Hi Hx)|by apply (fleet_wf _ _ _ _ Hi _ _ Hx)].
  - intros _ m' [Hself Ho]. destruct m' as [u' w' sl']; simpl in *. subst u'.
    split; [by split|]. intros [Hi' _]. wp_step. apply HQ. simpl.
    pose proof (fleet_remove base log _ w' sl' x _ Hi' (lookup_insert_eq _ _ _) Logic.eq_refl) as [Hr _].
    simpl in Hr. rewrite delete_insert_eq in Hr. rewrite delete_insert_eq. split_and!; [done| |].
    + simpl. by rewrite dom_delete_L, Hd.
    + simpl. intros y o [_ Hy]%lookup_delete_Some. by eapply Hu.
Qed.

Lemma place_fleet xs x options m Q F :
  udp_fleet xs m → x ∉ xs → (∀ m', udp_fleet ({[x]} ∪ xs) m' → Q tt m') →
  wp (place x (ObjUdp (new_udp_socket options))) m Q F.
Proof.
  intros (Hi & Hd & Hu) Hx HQ. destruct m as [s w sl]; simpl in *.
  rewrite <- Hd in Hx. apply not_elem_of_dom in Hx. unfold wp, place. simpl. rewrite Hx.
  apply HQ. destruct (fleet_add base log s w sl x (ObjUdp (new_udp_socket options)) w sl Hi Hx) as [Hi' _].
  - by intros i a [= <-].
  - apply disjoint_empty_l.
  - symmetry. apply union_empty_l_L.
  - done.
  - split_and!; [done|simpl; by rewrite dom_insert_L, Hd|]. simpl. intros y o.
    rewrite lookup_insert_Some. intros [[_ <-]|[_ Hy]]; [by eexists|by eapply Hu].
Qed.

(** What is known of the result. *)
Definition example_result (r : Z * console) : Prop :=
  match r.1 with
  | 0 => ∃ n, 0 ≤ n ≤ 64 ∧
      r.2 = print [OutText "received "; OutNumber n; OutText " bytes"; newline] no_output
  | 1 | 2 | 3 | 4 => ∃ e, r.2 = report e
  | _ => False
  end.

Lemma transport_send_wp endpoint m :
  udp_fleet {[0%nat]} m →
  wp (transport_send endpoint) m
    (λ r m', udp_fleet {[0%nat]} m' ∧ example_result r) (λ _ _, False).
Proof.
  intros Hm. unfold transport_send. wp_step. eapply place_fleet; [done|set_solver|]. clear m Hm. intros m Hm.
  assert (∀ r m, example_result r → udp_fleet ({[1%nat]} ∪ {[0%nat]}) m →
    wp (destroy_object 1;; mret r) m (λ r m', udp_fleet {[0%nat]} m' ∧ example_result r) (λ _ _, False)) as Hend.
  { intros r m1 Hr Hm1. wp_step. eapply destroy_fleet; [done|set_solver|].
    intros m2 Hm2. wp_step. split; [|done].
    by replace (({[1%nat]} ∪ {[0%nat]}) ∖ {[1%nat]}) with ({[0%nat]} : gset nat) in Hm2 by set_solver. }
  wp_step. wp_step. eapply (on_udp_fleet _ _ _ (λ _, True)); [done|set_solver| | |].
  - intros others log' m1 Ho. eapply wp_mono; [by apply udp_send_to_wp| |]; simpl.
    + intros n m2 [(Ho2 & _) _]. done.
    + by intros e m2 [Ho2 _].
  - intros n m1 Hm1 _. wp_step. wp_step. wp_step.
    eapply (on_udp_fleet _ _ _ (λ d, len (datagram_payload d) ≤ 64)); [done|set_solver| | |].
    + intros others log' m2 Ho. eapply wp_mono; [apply (udp_receive_wp others log' 64); [done|lia]| |]; simpl.
      * intros d m3 (Ho3 & _ & _ & Hd & _). done.
      * by intros e m3 [Ho3 _].
    + intros d m2 Hm2 Hd. wp_step. apply Hend; [|done]. exists (len (datagram_payload d)).
      pose proof (len_nonneg (datagram_payload d)). split; [lia|done].
    + intros e m2 Hm2. wp_step. apply Hend; [|done]. by exists e.
  - intros e m1 Hm1. wp_step. wp_step. apply Hend; [|done]. by exists e.
Qed.

Lemma transport_main_wp m :
  udp_fleet ∅ m →
  wp transport_main m (λ r m', udp_fleet ∅ m' ∧ example_result r) (λ _ _, False).
Proof.
  intros Hm. unfold transport_main. wp_step. eapply place_fleet; [done|set_solver|]. clear m Hm.
  rewrite union_empty_r_L. intros m Hm.
  assert (∀ r m, example_result r → udp_fleet {[0%nat]} m →
    wp (destroy_object 0;; mret r) m (λ r m', udp_fleet ∅ m' ∧ example_result r) (λ _ _, False)) as Hend.
  { intros r m1 Hr Hm1. wp_step. eapply destroy_fleet; [done|set_solver|].
    intros m2 Hm2. wp_step. split; [|done]. by rewrite difference_diag_L in Hm2. }
  wp_step. wp_step. eapply (on_udp_fleet _ _ _ (λ _, True)); [done|set_solver| | |].
  - intros others log' m1 Ho. eapply wp_mono; [by apply udp_bind_wp| |]; simpl; [by intros _ m2 [Ho2 _]|].
    by intros e m2 [Ho2 _].
  - intros _ m1 Hm1 _. wp_step. wp_step. wp_step.
    eapply (on_udp_fleet _ _ _ (λ _, True)); [done|set_solver| | |].
    + intros others log' m2 Ho. eapply wp_mono; [by apply udp_local_endpoint_wp| |]; simpl;
        [by intros _ m3 [Ho3 _]|by intros _ m3 [Ho3 _]].
    + intros e m2 Hm2 _. eapply wp_mono; [by apply transport_send_wp| |done].
      simpl. intros r m3 [Hm3 Hr]. by apply Hend.
    + intros e m2 Hm2. wp_step. apply Hend; [|done]. by exists e.
  - intros e m1 Hm1. wp_step. wp_step. apply Hend; [|done]. by exists e.
Qed.
End Facts.

(** ** Property *)

(** C39. The transport example on every platform that keeps the interface's promises: it
    always exits with a status from 0 to 4 and no undefined behaviour, status 0 exactly
    with the line that reports a datagram of at most 64 bytes and the others with an error
    message, and whichever return is taken the destructors leave no object and no open
    handle behind. *)
Theorem transport_example_safe {W} {G : SocketGhost W} {P : SocketPlatform W} (w : W) :
  SocketPlatformLaws G P →
  ∃ r m, transport_main (fresh_process w) = (Ok r, m) ∧ example_result r ∧
    self m = ∅ ∧ open_handles (os m) = open_handles w.
Proof.
  intros L. pose proof (transport_main_wp (open_handles w) (sent_bytes w) (fresh_process w)) as Hwp.
  unfold wp in Hwp. destruct (transport_main (fresh_process w)) as [[r| | |] m].
  2-4: destruct Hwp; split_and!; [apply fresh_fleet|apply dom_empty_L|done].
  destruct Hwp as [(Hi & Hd & _) Hr]; [split_and!; [apply fresh_fleet|apply dom_empty_L|done]|].
  exists r, m. apply dom_empty_inv_L in Hd. split_and!; [done..|].
  apply set_eq. intros h. rewrite (fleet_open _ _ _ _ Hi), Hd.
  split; [|by left]. intros [?|(x & o & Hx & _)]; [done|]. by rewrite lookup_empty in Hx.
Qed.

Example transport_example_safe_witness :
  (transport_main (fresh_process sim_start)).1 =
    Ok (0, print [OutText "received "; OutNumber 3; OutText " bytes"; newline] no_output) ∧
  ∃ r m, transport_main (fresh_process sim_start) = (Ok r, m) ∧ example_result r ∧
    self m = ∅ ∧ open_handles (os m) = open_handles sim_start.
Proof.
  split; [by vm_compute|].
  apply (transport_example_safe (G:=sim_ghost) sim_start). apply sim_platform_laws.
Defined.
