(* ===== verification/Lifecycle.v ===== *)
(** * The lifecycle of transport objects

    What [docs/CONTRACTS.md] promises under "Transport lifecycle and failure": [close] is
    idempotent, and a moved-from or closed object may be used, but its operations report an
    error and do nothing else. *)

From stdpp Require Import prelude gmap sets list strings.
From Stdlib Require Import ZArith Lia.
From S2P Require Import Prelude Transport SocketLogic Tcp TcpFacts Udp UdpFacts.
From S2P Require Import Sockets SocketsFacts SocketAddr Posix SimOS TransportProps.

(** [connected()], [listening()] and [open()] *)
Definition object_open (o : sock_object) : bool :=
  match o with
  | ObjStream t => connected t
  | ObjListener t => listening t
  | ObjUdp u => udp_open u
  end.

(** The object whose member function a call is. *)
Definition op_subject (op : sock_op) : nat :=
  match op with
  | NewStream x _ _ | NewListener x _ | NewUdp x _ | Connect x _ | Reconnect x | Send x _
  | SendAll x _ | Receive x _ | BindListener x _ _ | BindUdp x _ | SendTo x _ _
  | ReceiveFrom x _ | LocalEndpoint x | Close x | Destroy x | MoveConstruct x _
  | MoveAssign x _ => x
  | Accept _ l => l
  end.

Definition refuse (code : TransportErrorCode) (message : string) :
    option (outcome TransportError sock_answer) := Some (net_failure code message 0).

(** The answer of a call that must not do anything: on an object that is not open every
    operation that needs a handle, and on a moved-from object every operation but
    assignment and destruction.  [None] is a call that may proceed. *)
Definition refusal (op : sock_op) (o : sock_object) : option (outcome TransportError sock_answer) :=
  match op, o with
  | Send _ _, ObjStream _ | Receive _ _, ObjStream _ =>
      refuse net_not_connected "TCP stream is not connected"
  | SendAll _ bytes, ObjStream _ =>
      if len bytes =? 0 then Some (Ok (Count 0))
      else refuse net_not_connected "TCP stream is not connected"
  | Accept _ _, ObjListener _ | LocalEndpoint _, ObjListener _ =>
      refuse net_not_connected "TCP listener is not active"
  | ReceiveFrom _ _, ObjUdp _ | LocalEndpoint _, ObjUdp _ =>
      refuse net_not_connected "UDP socket is not open"
  | Connect _ _, ObjStream None => refuse net_invalid_argument "cannot reuse a moved-from TCP stream"
  | Reconnect _, ObjStream None =>
      refuse net_not_connected "TCP reconnect requires a previous endpoint"
  | BindListener _ _ _, ObjListener None =>
      refuse net_invalid_argument "cannot reuse a moved-from TCP listener"
  | BindUdp _ _, ObjUdp None | SendTo _ _ _, ObjUdp None =>
      refuse net_invalid_argument "cannot reuse a moved-from UDP socket"
  | Close _, ObjStream None | Close _, ObjListener None | Close _, ObjUdp None => Some (Ok Done)
  | _, _ => None
  end.

Section Refusals.
Context {W : Type} {P : SocketPlatform W}.
Implicit Types m : machine store W.

(** A member function that leaves its object and the system alone leaves the process alone. *)
Lemma on_stream_idle {A} x t m (f : method (machine TcpStream W) TransportError A) r :
  self m !! x = Some (ObjStream t) →
  f (MkMachine t (os m) (slept m)) = (r, MkMachine t (os m) (slept m)) → on_stream x f m = (r, m).
Proof. intros Hx Hf. unfold on_stream. rewrite Hx, Hf. simpl. rewrite insert_id by done. by destruct m. Qed.

Lemma on_listener_idle {A} x t m (f : method (machine TcpListener W) TransportError A) r :
  self m !! x = Some (ObjListener t) →
  f (MkMachine t (os m) (slept m)) = (r, MkMachine t (os m) (slept m)) → on_listener x f m = (r, m).
Proof. intros Hx Hf. unfold on_listener. rewrite Hx, Hf. simpl. rewrite insert_id by done. by destruct m. Qed.

Lemma on_udp_idle {A} x u m (f : method (machine UdpSocket W) TransportError A) r :
  self m !! x = Some (ObjUdp u) →
  f (MkMachine u (os m) (slept m)) = (r, MkMachine u (os m) (slept m)) → on_udp x f m = (r, m).
Proof. intros Hx Hf. unfold on_udp. rewrite Hx, Hf. simpl. rewrite insert_id by done. by destruct m. Qed.

Lemma local_endpoint_listener x t m r :
  self m !! x = Some (ObjListener t) →
  listener_local_endpoint (MkMachine t (os m) (slept m)) = (r, MkMachine t (os m) (slept m)) →
  local_endpoint x m = (r, m).
Proof. intros Hx Hf. unfold local_endpoint. rewrite Hx. by eapply on_listener_idle. Qed.

Lemma local_endpoint_udp x u m r :
  self m !! x = Some (ObjUdp u) →
  udp_local_endpoint (MkMachine u (os m) (slept m)) = (r, MkMachine u (os m) (slept m)) →
  local_endpoint x m = (r, m).
Proof. intros Hx Hf. unfold local_endpoint. rewrite Hx. by eapply on_udp_idle. Qed.

Lemma close_moved_from x o m : self m !! x = Some (moved_from o) → close_object x m = (Ok tt, m).
Proof.
  intros Hx. unfold close_object. rewrite Hx.
  destruct o; [eapply on_stream_idle|eapply on_listener_idle|eapply on_udp_idle]; done.
Qed.

(** The guards at the start of the member functions. *)
Lemma tcp_send_refused bytes t (w : W) sl :
  connected t = false →
  tcp_send bytes (MkMachine t w sl) =
  (net_failure net_not_connected "TCP stream is not connected" 0, MkMachine t w sl).
Proof. intros Hc. unfold tcp_send, mbind, method_bind, get. simpl. by rewrite Hc. Qed.

Lemma tcp_receive_refused output t (w : W) sl :
  connected t = false →
  tcp_receive output (MkMachine t w sl) =
  (net_failure net_not_connected "TCP stream is not connected" 0, MkMachine t w sl).
Proof. intros Hc. unfold tcp_receive, mbind, method_bind, get. simpl. by rewrite Hc. Qed.

Lemma tcp_send_all_refused bytes t (w : W) sl :
  connected t = false → in_memory bytes →
  tcp_send_all bytes (MkMachine t w sl) =
  (if len bytes =? 0 then Ok 0
   else net_failure net_not_connected "TCP stream is not connected" 0, MkMachine t w sl).
Proof.
  intros Hc Hm. unfold tcp_send_all. cbn [send_all_loop]. pose proof (len_nonneg bytes).
  destruct (Z.eqb_spec (len bytes) 0) as [->|]; [done|].
  destruct (Z.ltb_spec 0 (len bytes)); [|lia].
  pose proof (subspan_app (E:=TransportError) [] bytes []) as Hs. simpl in Hs. rewrite app_nil_r in Hs.
  rewrite size_sub_small, Z.sub_0_r by len_lia. change (len []) with 0 in Hs. rewrite Hs.
  erewrite method_bind_ok by done. by erewrite method_bind_fail by by apply tcp_send_refused.
Qed.

Lemma listener_refused t (w : W) sl :
  listening t = false →
  listener_accept (MkMachine t w sl) =
    (net_failure net_not_connected "TCP listener is not active" 0, MkMachine t w sl) ∧
  listener_local_endpoint (MkMachine t w sl) =
    (net_failure net_not_connected "TCP listener is not active" 0, MkMachine t w sl).
Proof.
  intros Hc. unfold listener_accept, listener_local_endpoint, mbind, method_bind, get. simpl.
  by rewrite Hc.
Qed.

Lemma udp_refused n u (w : W) sl :
  udp_open u = false →
  udp_receive n (MkMachine u w sl) =
    (net_failure net_not_connected "UDP socket is not open" 0, MkMachine u w sl) ∧
  udp_local_endpoint (MkMachine u w sl) =
    (net_failure net_not_connected "UDP socket is not open" 0, MkMachine u w sl).
Proof.
  intros Hc. unfold udp_receive, udp_local_endpoint, mbind, method_bind, get. simpl. by rewrite Hc.
Qed.

(** [refused H] runs a call whose member function has the refusal [H]. *)
Ltac refused lem H :=
  unfold sock_step, refuse in *; simplify_eq/=;
  first [erewrite method_bind_fail by (eapply lem; [eassumption|]; eapply H; eassumption); reflexivity
        |erewrite method_bind_ok by (eapply lem; [eassumption|]; eapply H; eassumption); reflexivity].

(** A refused call changes nothing at all. *)
Lemma refused_step m op o r :
  self m !! op_subject op = Some o → object_open o = false → op_enabled op (self m) →
  refusal op o = Some r → sock_step op m = (r, m).
Proof.
  intros Ho Hc Hop Hr. destruct op, o as [t|t|u]; try done; simpl in Ho, Hc, Hop, Hr.
  - destruct t; [done|]. refused @on_stream_idle @Logic.eq_refl.
  - destruct t; [done|]. refused @on_stream_idle @Logic.eq_refl.
  - refused @on_stream_idle @tcp_send_refused.
  - destruct Hop as [_ Hm]. pose proof (tcp_send_all_refused bytes t (os m) (slept m) Hc Hm) as Hs.
    destruct (Z.eqb_spec (len bytes) 0); refused @on_stream_idle Hs.
  - refused @on_stream_idle @tcp_receive_refused.
  - destruct t; [done|]. refused @on_listener_idle @Logic.eq_refl.
  - destruct Hop as [Hx _]. destruct (listener_refused t (os m) (slept m) Hc) as [Ha _].
    unfold sock_step. rewrite (method_bind_ok get _ _ _ _ Logic.eq_refl), Hx.
    refused @on_listener_idle Ha.
  - destruct u; [done|]. refused @on_udp_idle @Logic.eq_refl.
  - destruct u; [done|]. refused @on_udp_idle @Logic.eq_refl.
  - destruct (udp_refused maximum_size u (os m) (slept m) Hc) as [Hu _]. refused @on_udp_idle Hu.
  - destruct (listener_refused t (os m) (slept m) Hc) as [_ Ha].
    refused @local_endpoint_listener Ha.
  - destruct (udp_refused 0 u (os m) (slept m) Hc) as [_ Ha]. refused @local_endpoint_udp Ha.
  - destruct t; [done|]. simplify_eq/=.
    by erewrite method_bind_ok by by eapply (close_moved_from _ (ObjStream None)).
  - destruct t; [done|]. simplify_eq/=.
    by erewrite method_bind_ok by by eapply (close_moved_from _ (ObjListener None)).
  - destruct u; [done|]. simplify_eq/=.
    by erewrite method_bind_ok by by eapply (close_moved_from _ (ObjUdp None)).
Qed.
End Refusals.

(** ** Closing twice *)
Section Closing.
Context {W : Type} {G : SocketGhost W} {P : SocketPlatform W} {L : SocketPlatformLaws G P}.
Implicit Types m : machine store W.

(** The object after [close]: no handle, and the rest as before. *)
Definition closed (o : sock_object) : sock_object :=
  match o with
  | ObjStream t => ObjStream (with_stream_socket invalid_socket t)
  | ObjListener t => ObjListener (with_listener_socket invalid_socket t)
  | ObjUdp u => ObjUdp (with_udp_socket invalid_socket 0 u)
  end.

Lemma closed_idle o : object_open (closed o) = false ∧ object_handles (closed o) = ∅.
Proof. by destruct o as [[]|[]|[]]. Qed.

Lemma closed_closed o : closed (closed o) = closed o.
Proof. by destruct o as [[]|[]|[]]. Qed.

(** [close] on an object whose handle, if it has one, is open. *)
Lemma close_object_run x o m :
  self m !! x = Some o → object_handles o ⊆ open_handles (os m) →
  ∃ w, close_object x m = (Ok tt, MkMachine (<[x := closed o]> (self m)) w (slept m)) ∧
    open_handles w = open_handles (os m) ∖ object_handles o ∧
    ∀ h, sent_bytes w h = sent_bytes (os m) h.
Proof.
  intros Hx Hsub.
  assert (∀ s, socket_handles s ⊆ open_handles (os m) →
    ∃ w, close_socket s (os m) = (Ok invalid_socket, w) ∧
      open_handles w = open_handles (os m) ∖ socket_handles s ∧
      ∀ h, sent_bytes w h = sent_bytes (os m) h) as Hclose.
  { intros s Hs. unfold socket_handles in *.
    destruct (close_socket_law s (os m)) as (w & E & Ho & Hw); [intros Hv; rewrite Hv in Hs; set_solver|].
    exists w. split_and!; [done| |done]. rewrite Ho. destruct (socket_valid s); [done|set_solver]. }
  unfold close_object. rewrite Hx. destruct o as [[i|]|[i|]|[i|]]; simpl in Hsub.
  2, 4, 6: exists (os m); split_and!; [|simpl; set_solver|done]; unfold on_stream, on_listener, on_udp;
    by rewrite Hx.
  - destruct (Hclose _ Hsub) as (w & E & Ho & Hw). exists w. split_and!; [|done..].
    unfold on_stream, tcp_close, mbind, method_bind, get, sys. rewrite Hx. simpl. by rewrite E.
  - destruct (Hclose _ Hsub) as (w & E & Ho & Hw). exists w. split_and!; [|done..].
    unfold on_listener, listener_close, mbind, method_bind, get, sys. rewrite Hx. simpl. by rewrite E.
  - destruct (Hclose _ Hsub) as (w & E & Ho & Hw). exists w. split_and!; [|done..].
    unfold on_udp, udp_close, mbind, method_bind, get, sys. rewrite Hx. simpl. by rewrite E.
Qed.
End Closing.

Lemma close_step_run {W} {G : SocketGhost W} {P : SocketPlatform W} {L : SocketPlatformLaws G P}
    x o (m : machine store W) :
  self m !! x = Some o → object_handles o ⊆ open_handles (os m) →
  ∃ w, sock_step (Close x) m = (Ok Done, MkMachine (<[x := closed o]> (self m)) w (slept m)) ∧
    open_handles w = open_handles (os m) ∖ object_handles o ∧
    ∀ h, sent_bytes w h = sent_bytes (os m) h.
Proof.
  intros Hx Ho. destruct (close_object_run x o m Hx Ho) as (w & E & Hw & Hs).
  exists w. split_and!; [|done..]. unfold sock_step. by erewrite method_bind_ok by done.
Qed.

(** Assigning to a moved-from object takes the other one over. *)
Lemma assign_moved_from {W} {P : SocketPlatform W} x other o (m : machine store W) :
  x ≠ other → self m !! x = Some (moved_from o) → self m !! other = Some o →
  sock_step (MoveAssign x other) m =
  (Ok Done, MkMachine (<[other := moved_from o]> (<[x := o]> (self m))) (os m) (slept m)).
Proof.
  intros Hne Hx Ho. unfold sock_step.
  assert (move_assign x other m =
    (Ok tt, MkMachine (<[other := moved_from o]> (<[x := o]> (self m))) (os m) (slept m))) as E.
  { erewrite move_assign_eq; [|done|done|by destruct o|done].
    erewrite method_bind_ok by by eapply close_moved_from. unfold take_implementation.
    by rewrite (method_bind_ok get _ _ _ _ Logic.eq_refl), Ho. }
  by erewrite method_bind_ok by done.
Qed.

(** ** Property *)

(** C14. The documented lifecycle, in every state that a program over any number of streams,
    listeners and UDP sockets can reach by well-formed calls (in the sense of
    [op_enabled]).  On an object that is closed or moved from, every
    operation that needs a handle reports [not_connected], and on a moved-from object
    [connect], [bind] and [send_to] report [invalid_argument]; such a call makes no system
    call and changes nothing (the one exception in the code is [send_all] of an empty range,
    which succeeds).  [close] always succeeds, gives up exactly the object's handle and is
    idempotent.  A moved-from object can be assigned to, and then is the object it was
    assigned. *)
Theorem transport_lifecycle {W} {G : SocketGhost W} {P : SocketPlatform W} (w0 : W)
    (m : machine store W) :
  SocketPlatformLaws G P → reachable (fresh_process w0) m →
  (∀ op o r, self m !! op_subject op = Some o → object_open o = false → op_enabled op (self m) →
     refusal op o = Some r → sock_step op m = (r, m)) ∧
  (∀ x o, self m !! x = Some o →
     ∃ w, let m' := MkMachine (<[x := closed o]> (self m)) w (slept m) in
       sock_step (Close x) m = (Ok Done, m') ∧ object_open (closed o) = false ∧
       open_handles w = open_handles (os m) ∖ object_handles o ∧
       (∀ h, sent_bytes w h = sent_bytes (os m) h) ∧
       ∃ w', sock_step (Close x) m' = (Ok Done, MkMachine (self m') w' (slept m)) ∧ keeps w w') ∧
  (∀ x other o, x ≠ other → self m !! x = Some (moved_from o) → self m !! other = Some o →
     sock_step (MoveAssign x other) m =
     (Ok Done, MkMachine (<[other := moved_from o]> (<[x := o]> (self m))) (os m) (slept m))).
Proof.
  intros L Hr. split_and!; [intros op o r; by apply refused_step| |intros x other o; by apply assign_moved_from].
  pose proof (reachable_fleet (open_handles w0) (sent_bytes w0) (fresh_process w0) m
    (fresh_fleet w0) Hr) as Hi.
  intros x o Hx. assert (object_handles o ⊆ open_handles (os m)) as Hsub.
  { intros h Hh. apply (fleet_open _ _ _ _ Hi). right. by exists x, o. }
  destruct (close_step_run x o m Hx Hsub) as (w & E & Ho & Hs). exists w. cbv zeta.
  destruct (closed_idle o) as [Hc Hnone]. split_and!; [done..|].
  destruct (close_step_run x (closed o) (MkMachine (<[x := closed o]> (self m)) w (slept m)))
    as (w' & E' & Ho' & Hs'); [apply lookup_insert_eq|rewrite Hnone; apply empty_subseteq|].
  exists w'. simpl in *. rewrite closed_closed, insert_insert_eq in E'. split; [done|].
  split; [|done]. by rewrite Ho', Hnone, difference_empty_L.
Qed.

(** A connected stream was moved away from the object 0. *)
Definition moved_ops : list sock_op :=
  [NewStream 0 default_io_options default_reconnect_policy;
   Connect 0 (MkIpEndpoint "127.0.0.1" 9000); MoveConstruct 1 0].

Definition moved_state : machine store sim := (run_calls moved_ops (fresh_process sim_start)).2.

Lemma moved_reachable : reachable (fresh_process sim_start) moved_state.
Proof.
  apply run_calls_reachable; [constructor|]. vm_compute.
  split_and!; try reflexivity; try (intros; discriminate); by eexists.
Qed.

Example transport_lifecycle_witness :
  elements (open_handles (os moved_state)) = [3] ∧
  sock_step (Connect 0 (MkIpEndpoint "127.0.0.1" 9000)) moved_state =
    (net_failure net_invalid_argument "cannot reuse a moved-from TCP stream" 0, moved_state) ∧
  sock_step (Receive 0 [Byte.x00]) moved_state =
    (net_failure net_not_connected "TCP stream is not connected" 0, moved_state).
Proof.
  split; [by vm_compute|].
  destruct (transport_lifecycle (G:=sim_ghost) sim_start moved_state) as (H & _ & _).
  - apply sim_platform_laws.
  - apply moved_reachable.
  - split; apply (H _ (ObjStream None)); first [by vm_compute|by_compute|split; by_compute].
Defined.
