(* ===== verification/Link.v ===== *)
(** * Frames over a TCP connection

    The composition the README describes: one process encodes messages and calls
    [TcpStream::send_all], another calls [TcpStream::receive], passes every received range
    to [StreamDecoder::push] and calls [next] until it returns an empty optional.  Both
    processes and the network advance in any order.  The network is known only by what TCP
    promises, the class [TcpChannel]. *)

From stdpp Require Import prelude gmap sets list strings.
From Stdlib Require Import ZArith Lia.
From S2P Require Import Prelude Errors Types Frame FrameFacts Stream StreamFacts.
From S2P Require Import Transport SocketLogic Tcp TcpFacts.
Import Protocol.

(** A connection: bytes accepted on the handle [a] arrive on the handle [b], in order,
    without loss or duplication inside the stream, at an arbitrary pace.  [live] says that
    [a] and [b] are the ends of this connection (or were, before they were closed), which
    the calls on them do not change; [arrived] are the bytes that calls on [b] have returned
    so far. *)
Class TcpChannel {W} (G : SocketGhost W) (P : SocketPlatform W) (a b : Z) := {
  live : W → Prop;
  arrived : W → list byte;
  channel_send s bytes w :
    live w → sock_value s = a →
    let w' := (send_socket s bytes w).2 in live w' ∧ arrived w' = arrived w;
  channel_receive s output w :
    live w → sock_value s = b → b ∈ open_handles w → in_memory output →
    arrived w `prefix_of` sent_bytes w a →
    match receive_socket s output w with
    | (Ok (n, output'), w') =>
        live w' ∧ arrived w' = arrived w ++ take (Z.to_nat n) output' ∧
        arrived w' `prefix_of` sent_bytes w a
    | (_, w') => live w' ∧ arrived w' = arrived w
    end;
  channel_close s w :
    live w → (socket_valid s = true → sock_value s = a ∨ sock_value s = b) →
    let w' := (close_socket s w).2 in live w' ∧ arrived w' = arrived w
}.

(** ** The two processes *)

(** [confirmed] are the messages whose [send_all] succeeded and [delivered] those that
    [next] returned. *)
Record link (W : Type) := MkLink {
  source : TcpStream;
  sink : TcpStream;
  decoder : StreamDecoder;
  network : W;
  confirmed : list Message;
  delivered : list Message
}.
Arguments MkLink {W}.
Arguments source {W}.
Arguments sink {W}.
Arguments decoder {W}.
Arguments network {W}.
Arguments confirmed {W}.
Arguments delivered {W}.

(** The results of the two libraries in one error type. *)
Definition protocol_call {EM : ErrorModel} {S A} (r : result A) :
    method S (TransportError + error_type) A := λ s,
  match r with
  | Ok a => (Ok a, s)
  | Fail e => (Fail (inr e), s)
  | UB => (UB, s)
  | NoFuel => (NoFuel, s)
  end.

Definition transport_result {EM : ErrorModel} {S A} (r : outcome TransportError A) (s : S) :
    outcome (TransportError + error_type) A * S :=
  match r with
  | Ok a => (Ok a, s)
  | Fail e => (Fail (inl e), s)
  | UB => (UB, s)
  | NoFuel => (NoFuel, s)
  end.

Section Processes.
Context {EM : ErrorModel} {W : Type} {P : SocketPlatform W} (l : Limits).

(** Errors of the transport and of the protocol. *)
Abbreviation M := (method (link W) (TransportError + error_type)).

Definition on_source {A} (f : method (machine TcpStream W) TransportError A) : M A := λ s,
  let '(r, m) := f (MkMachine (source s) (network s) []) in
  transport_result r (MkLink (self m) (sink s) (decoder s) (os m) (confirmed s) (delivered s)).

Definition on_sink {A} (f : method (machine TcpStream W) TransportError A) : M A := λ s,
  let '(r, m) := f (MkMachine (sink s) (network s) []) in
  transport_result r (MkLink (source s) (self m) (decoder s) (os m) (confirmed s) (delivered s)).

Definition on_decoder {A} (f : method StreamDecoder error_type A) : M A := λ s,
  let '(r, d) := f (decoder s) in
  protocol_call r (MkLink (source s) (sink s) d (network s) (confirmed s) (delivered s)).

(** Encode a message and send the frame. *)
Definition submit (m : Message) : M unit :=
  frame ← protocol_call (encode l m);
  on_source (tcp_send_all frame);;
  modify (λ s, MkLink (source s) (sink s) (decoder s) (network s) (confirmed s ++ [m]) (delivered s)).

(** Receive a range of at most [n] bytes and take the messages it completes. *)
Definition pump (n : nat) : M (list Message) :=
  r ← on_sink (tcp_receive (replicate n Byte.x00));
  on_decoder (push (take (Z.to_nat r.1) r.2));;
  ms ← on_decoder (d ← get; drain (drain_fuel d));
  modify (λ s, MkLink (source s) (sink s) (decoder s) (network s) (confirmed s) (delivered s ++ ms));;
  mret ms.

Context {G : SocketGhost W} {a b : Z} {C : TcpChannel G P a b}.

(** The largest range a decoder between two frames can always take. *)
Definition chunk_limit : Z := max_buffered_bytes l - max_frame_size l.

(** The connection is as before for the two processes. *)
Definition undisturbed (w w' : W) : Prop := live w' ∧ arrived w' = arrived w.

(** The network may do anything the two processes do not see. *)
Definition quiet (w w' : W) : Prop := keeps w w' ∧ undisturbed w w'.

Inductive link_step : link W → link W → Prop :=
| step_submit m s : message_wf m → link_step s (submit m s).2
| step_pump n s : Z.of_nat n ≤ chunk_limit → link_step s (pump n s).2
| step_network s w' :
    quiet (network s) w' →
    link_step s (MkLink (source s) (sink s) (decoder s) w' (confirmed s) (delivered s)).

(** A stream that owns the handle [h] or none. *)
Definition stream_on (h : Z) (t : TcpStream) (w : W) : Prop :=
  stream_handles t ⊆ {[h]} ∧ stream_handles t ⊆ open_handles w.

(** A new connection. *)
Definition link_start (s : link W) : Prop :=
  stream_on a (source s) (network s) ∧ stream_on b (sink s) (network s) ∧ live (network s) ∧
  sent_bytes (network s) a = [] ∧ arrived (network s) = [] ∧
  decoder s = new_stream l ∧ confirmed s = [] ∧ delivered s = [].
End Processes.
