(* ===== verification/LinkFacts.v ===== *)
(** * Frames over a TCP connection: proofs

    What a call on either end does to the channel, the invariant that relates the bytes
    sent, the bytes that arrived and the messages on both sides, and its preservation by
    every step. *)

From stdpp Require Import prelude gmap sets list strings.
From Stdlib Require Import ZArith Lia.
From S2P Require Import Prelude Errors Types Frame FrameFacts Stream StreamFacts.
From S2P Require Import Transport SocketLogic Tcp TcpFacts Link.
Import Protocol.

(** ** Calls on the ends of a channel *)
Section Channel.
Context {W : Type} {G : SocketGhost W} {P : SocketPlatform W} {L : SocketPlatformLaws G P}.
Context {a b : Z} {C : TcpChannel G P a b}.

(** A valid handle of [t] is one of the two ends. *)
Definition on_channel (t : TcpStream) : Prop :=
  ∀ i, t = Some i → socket_valid (stream_socket i) = true →
    sock_value (stream_socket i) = a ∨ sock_value (stream_socket i) = b.

Lemma stream_on_value h t (w : W) i :
  stream_on h t w → t = Some i → socket_valid (stream_socket i) = true →
  sock_value (stream_socket i) = h ∧ h ∈ open_handles w.
Proof.
  intros [Hs Ho] -> Hv. simpl in Hs, Ho. rewrite socket_handles_valid in Hs, Ho by done.
  assert (sock_value (stream_socket i) = h) as Hh
    by (apply (elem_of_singleton (C:=gset Z)), Hs, elem_of_singleton; done).
  split; [done|]. apply Ho. rewrite Hh. by apply elem_of_singleton.
Qed.

Lemma stream_on_closed h t (w : W) : connected t = false → stream_on h t w.
Proof.
  intros Hc. unfold stream_on. destruct t as [i|]; simpl in *; [unfold socket_handles; rewrite Hc|];
    split; apply empty_subseteq.
Qed.

Lemma stream_on_mono h t (w w' : W) :
  stream_on h t w → (h ∈ open_handles w → h ∈ open_handles w') → stream_on h t w'.
Proof.
  intros [Hs Ho] Hw. split; [done|]. intros x Hx. pose proof (Hs x Hx) as ->%elem_of_singleton.
  by apply Hw, Ho.
Qed.

Lemma undisturbed_trans (w1 w2 w3 : W) : undisturbed w1 w2 → undisturbed w2 w3 → undisturbed w1 w3.
Proof. intros [_ H1] [H2 H3]. split; [done|by rewrite H3]. Qed.

Lemma tcp_close_arrived (m : machine TcpStream W) :
  live (os m) → on_channel (self m) → undisturbed (os m) (os (tcp_close m).2).
Proof.
  intros Hlive Hon. unfold tcp_close, mbind, method_bind, get, sys. destruct m as [[i|] w sl]; simpl; [|done].
  pose proof (channel_close (stream_socket i) w Hlive (Hon i Logic.eq_refl)) as Hc.
  by destruct (close_socket (stream_socket i) w) as [[| | |] w'].
Qed.

Lemma tcp_send_channel bytes (m : machine TcpStream W) :
  live (os m) → stream_on a (self m) (os m) →
  undisturbed (os m) (os (tcp_send bytes m).2) ∧
  ((∃ n, (tcp_send bytes m).1 = Ok n) → self (tcp_send bytes m).2 = self m).
Proof.
  intros Hlive Hon. unfold tcp_send, stream_impl, throw, lift, attempt, sys, mbind, method_bind, get.
  destruct m as [[i|] w sl]; simpl; [|by split].
  destruct (socket_valid (stream_socket i)) eqn:Hv; simpl; [|by split].
  destruct (len bytes =? 0); [by split|]. simpl.
  destruct (stream_on_value a _ _ i Hon Logic.eq_refl Hv) as [Ha _].
  pose proof (channel_send (stream_socket i) bytes w Hlive Ha) as Hs.
  destruct (send_socket (stream_socket i) bytes w) as [[n|e| |] w']; simpl in *; [by split|..]; try by split.
  pose proof (tcp_close_arrived (MkMachine (S:=TcpStream) (Some i) w' sl)) as Hc.
  destruct (tcp_close (MkMachine (S:=TcpStream) (Some i) w' sl)) as [[| | |] m']; simpl in *;
    (split; [|by intros [n ?]]; eapply undisturbed_trans; [exact Hs|]; apply Hc; [by apply Hs|];
     by intros j [= <-] _; left).
Qed.

Lemma send_all_arrived fuel bytes offset others log (m : machine TcpStream W) :
  in_memory bytes → live (os m) → stream_owns others log m → stream_on a (self m) (os m) →
  undisturbed (os m) (os (send_all_loop fuel bytes offset m).2).
Proof.
  intros Hm. revert offset m. induction fuel as [|fuel IH]; intros offset m Hlive Ho Hon; simpl; [done|].
  destruct (offset <? len bytes); [|done].
  unfold mbind, method_bind, lift. 
  destruct (subspan bytes offset (len bytes ⊖ offset)) as [rest| | |] eqn:Hsub; [|done..].
  assert (in_memory rest) as Hrest.
  { apply subspan_ok_inv in Hsub. unfold in_memory in *. lia. }
  pose proof (tcp_send_wp others log rest m Ho Hrest) as Hwp.
  destruct (tcp_send_channel rest m Hlive Hon) as [Harr Hself].
  unfold wp in Hwp. destruct (tcp_send rest m) as [[n|e| |] m1]; [|done..].
  destruct Hwp as (Hs & _ & Ho1 & _). simpl in Harr.
  assert (stream_on a (self m1) (os m1)) as Hon1.
  { rewrite Hs. split; [apply Hon|]. intros h Hh. eapply owns_open; [exact Ho1|by rewrite Hs]. }
  eapply undisturbed_trans; [exact Harr|]. destruct Harr as [Hlive1 _].
  destruct (n =? 0); [|by apply IH].
  pose proof (tcp_close_arrived m1 Hlive1) as Hc.
  destruct (tcp_close m1) as [[| | |] m2]; simpl in *; apply Hc;
    intros i Hi Hv; left; by eapply (stream_on_value a _ _ i Hon1).
Qed.

Lemma stream_on_owns h t (w : W) sl :
  stream_on h t w →
  stream_owns (open_handles w ∖ stream_handles t) (sent_bytes w) (MkMachine t w sl).
Proof.
  intros [_ Ho]. unfold stream_owns, owns. simpl. split_and!; [set_solver| |done].
  by apply union_difference_L.
Qed.

Lemma connected_on h t (w : W) :
  stream_on h t w → connected t = true →
  ∃ i, t = Some i ∧ socket_valid (stream_socket i) = true ∧ sock_value (stream_socket i) = h ∧
    h ∈ open_handles w ∧ stream_handles t = {[h]}.
Proof.
  intros Hon Hc. destruct (connected_inv t Hc) as (i & Hi & Hv & Hh). exists i.
  destruct (stream_on_value h t w i Hon Hi Hv) as [Hval Hop]. by subst h.
Qed.

(** A stream without a handle sends nothing. *)
Lemma send_all_disconnected bytes t (w : W) sl :
  connected t = false → bytes ≠ [] → in_memory bytes →
  ∃ e, tcp_send_all bytes (MkMachine t w sl) = (Fail e, MkMachine t w sl).
Proof.
  intros Hc Hb Hm. unfold tcp_send_all. cbn [send_all_loop].
  assert (0 < len bytes) as Hl.
  { destruct bytes as [|x r]; [done|]. rewrite len_cons. pose proof (len_nonneg r). lia. }
  rewrite (proj2 (Z.ltb_lt _ _)) by done. rewrite size_sub_small, Z.sub_0_r by len_lia.
  pose proof (subspan_app (E:=TransportError) [] bytes []) as Hsub. rewrite app_nil_r in Hsub.
  change (len []) with 0 in Hsub. simpl in Hsub. rewrite Hsub.
  eexists. unfold mbind, method_bind, lift, tcp_send, mbind, method_bind, get. simpl. by rewrite Hc.
Qed.

(** What [send_all] does on the sending end. *)
Lemma tcp_send_all_channel bytes t (w : W) sl :
  live w → stream_on a t w → bytes ≠ [] → in_memory bytes →
  match tcp_send_all bytes (MkMachine t w sl) with
  | (Ok _, m') =>
      connected t = true ∧ self m' = t ∧ open_handles (os m') = open_handles w ∧
      sent_bytes (os m') a = sent_bytes w a ++ bytes ∧ undisturbed w (os m')
  | (Fail _, m') =>
      connected (self m') = false ∧ open_handles w ∖ {[a]} ⊆ open_handles (os m') ∧
      undisturbed w (os m') ∧
      if connected t then
        ∃ p q, bytes = p ++ q ∧ q ≠ [] ∧ sent_bytes (os m') a = sent_bytes w a ++ p
      else sent_bytes (os m') a = sent_bytes w a
  | _ => False
  end.
Proof.
  intros Hlive Hon Hne Hm. destruct (connected t) eqn:Hc.
  2:{ destruct (send_all_disconnected bytes t w sl Hc Hne Hm) as [e ->]. simpl.
      split_and!; [done|set_solver|done..]. }
  destruct (connected_on a t w Hon Hc) as (i & -> & Hv & Ha & Hop & Hh).
  pose proof (stream_on_owns a (Some i) w sl Hon) as Ho. rewrite Hh in Ho.
  pose proof (send_all_loop_wp _ _ (S (length bytes)) [] bytes (MkMachine (Some i) w sl)
    Ho Hm ltac:(lia)) as Hwp.
  pose proof (send_all_arrived (S (length bytes)) bytes 0 _ _ (MkMachine (Some i) w sl) Hm Hlive Ho Hon) as Harr.
  change (len []) with 0 in Hwp. cbn [app] in Hwp. unfold wp, stream_owns, sent_on in Hwp.
  unfold tcp_send_all. cbn [self os] in *. rewrite Ha in Hwp.
  destruct (send_all_loop _ _ _ _) as [[n|e| |] m']; [| |done..]; simpl in Harr.
  - destruct Hwp as (_ & Hself & Hown & _ & Hs). split_and!; [done|done| |done..].
    destruct Hown as (_ & -> & _). rewrite Hself, Hh.
    symmetry. apply union_difference_L. intros h ->%elem_of_singleton. done.
  - destruct Hwp as ((_ & Hown & _) & Hcl & p & q & -> & Hq & Hs).
    split_and!; [done|rewrite Hown; apply union_subseteq_r|done|]. by exists p, q.
Qed.

(** The receiving end is closed after a failed call. *)
Lemma sink_close {A} i e (w w1 : W) sl (k : unit → method (machine TcpStream W) TransportError A) :
  socket_valid (stream_socket i) = true → sock_value (stream_socket i) = b → b ∈ open_handles w →
  keeps w w1 → undisturbed w w1 → (∀ m, k tt m = (Fail e, m)) →
  ∃ m', (tcp_close ≫= k) (MkMachine (S:=TcpStream) (Some i) w1 sl) = (Fail e, m') ∧
    connected (self m') = false ∧ open_handles w ∖ {[b]} ⊆ open_handles (os m') ∧
    sent_bytes (os m') a = sent_bytes w a ∧ undisturbed w (os m').
Proof.
  intros Hv Hb Hop [Hk Hks] Ha Hkk.
  destruct (close_socket_law (stream_socket i) w1) as (w2 & E & Hc & Hs); [by rewrite Hk, Hb|].
  pose proof (channel_close (stream_socket i) w1 (proj1 Ha) ltac:(by right)) as Hcc. rewrite E in Hcc.
  exists (MkMachine (with_stream_socket invalid_socket (Some i)) w2 sl). split.
  - rewrite <- Hkk. apply method_bind_ok.
    unfold tcp_close, mbind, method_bind, get, sys. simpl. by rewrite E.
  - simpl in *. rewrite Hv, Hb, Hk in Hc. rewrite Hc, Hs, Hks.
    split_and!; [done..|]. by eapply undisturbed_trans.
Qed.

(** What [receive] does on the receiving end. *)
Lemma tcp_receive_channel output t (w : W) sl :
  live w → stream_on b t w → in_memory output → arrived w `prefix_of` sent_bytes w a →
  match tcp_receive output (MkMachine t w sl) with
  | (Ok (n, output'), m') =>
      self m' = t ∧ open_handles (os m') = open_handles w ∧ 0 ≤ n ≤ len output ∧
      len output' = len output ∧ sent_bytes (os m') a = sent_bytes w a ∧ live (os m') ∧
      arrived (os m') = arrived w ++ take (Z.to_nat n) output' ∧
      arrived (os m') `prefix_of` sent_bytes w a
  | (Fail _, m') =>
      connected (self m') = false ∧ open_handles w ∖ {[b]} ⊆ open_handles (os m') ∧
      sent_bytes (os m') a = sent_bytes w a ∧
      undisturbed w (os m')
  | _ => False
  end.
Proof.
  intros Hlive Hon Hm Hpre. unfold tcp_receive. rewrite (method_bind_ok get _ _ _ _ Logic.eq_refl).
  cbn [self]. destruct (connected t) eqn:Hc; cbn [negb].
  2:{ simpl. split_and!; [done|set_solver|done..]. }
  destruct (Z.eqb_spec (len output) 0) as [Hz|Hz].
  { simpl. rewrite app_nil_r. split_and!; (done || lia). }
  destruct (connected_on b t w Hon Hc) as (i & -> & Hv & Hb & Hop & Hh).
  rewrite (method_bind_ok stream_impl _ _ i (MkMachine (Some i) w sl)) by done.
  pose proof (receive_socket_law (stream_socket i) output w ltac:(by rewrite Hb) Hm) as Hlaw.
  pose proof (channel_receive (stream_socket i) output w Hlive Hb Hop Hm Hpre) as Hch.
  unfold attempt, sys. unfold mbind at 1, method_bind at 1. cbn [os self slept].
  destruct (receive_socket (stream_socket i) output w) as [[[n output']|e| |] w1]; [| |done..].
  - destruct Hlaw as [Hk (Hn & Hlen & _)], Hch as (Hlive1 & Harr & Hpre'). simpl in Hn, Hlen.
    destruct (Z.eqb_spec n 0) as [->|Hn0].
    + change (Z.to_nat 0) with 0%nat in Harr. rewrite take_0, app_nil_r in Harr.
      destruct (sink_close (A:=Z * list byte) i _ w w1 sl
        (λ _, lift (net_failure net_peer_closed "TCP peer closed the stream" 0)) Hv Hb Hop Hk (conj Hlive1 Harr)
        (λ _, Logic.eq_refl)) as (m' & -> & Hm'). exact Hm'.
    + destruct Hk as [Hk Hks]. simpl. split_and!; (done || lia || apply Hks).
  - destruct (sink_close (A:=Z * list byte) i e w w1 sl (λ _, throw e) Hv Hb Hop Hlaw Hch
      (λ _, Logic.eq_refl)) as (m' & -> & Hm'). exact Hm'.
Qed.
End Channel.

(** ** The invariant *)
Section Link.
Context {EM : ErrorModel} {W : Type} {G : SocketGhost W} {P : SocketPlatform W}.
Context {L : SocketPlatformLaws G P} {a b : Z} {C : TcpChannel G P a b} (l : Limits).
Hypothesis Hab : a ≠ b.

(** Other handles of the two processes. *)
Context (rest : gset Z).
Hypothesis Hrest : rest ## {[a; b]}.
Hypothesis Hl : stream_limits_ok l.
Implicit Types s : link W.

Lemma frames_wire_app ms1 ms2 : frames_wire (ms1 ++ ms2) = frames_wire ms1 ++ frames_wire ms2.
Proof. unfold frames_wire. by rewrite map_app, concat_app. Qed.

Lemma frames_wire_one m : frames_wire [m] = frame_wire m.
Proof. unfold frames_wire. cbn [map concat]. apply app_nil_r. Qed.

(** The bytes sent are the confirmed frames and, when a call failed half-way, a proper
    prefix of one more; the stream is closed then.  [torn] is that last message. *)
Definition sent_wire (sent : list byte) (msgs : list Message) (open : bool) (torn : list Message) : Prop :=
  ∃ p q, sent = frames_wire msgs ++ p ∧ p ++ q = frames_wire torn ∧
    (torn = [] ∨ open = false ∧ q ≠ [] ∧ ∃ m, torn = [m]) ∧ Forall (sendable l) (msgs ++ torn).

Record link_inv s : Prop := MkLinkInv {
  inv_source : stream_on a (source s) (network s);
  inv_sink : stream_on b (sink s) (network s);
  inv_rest : rest ⊆ open_handles (network s);
  inv_live : live (network s);
  inv_decoder : stream_inv (decoder s);
  inv_limits : stream_limits (decoder s) = l;
  inv_prefix : arrived (network s) `prefix_of` sent_bytes (network s) a;
  inv_arrived : arrived (network s) = frames_wire (delivered s) ++ pending (decoder s);
  inv_wire : ∃ torn ms, sent_wire (sent_bytes (network s) a) (confirmed s) (connected (source s)) torn ∧
    confirmed s ++ torn = delivered s ++ ms ∧ partial (pending (decoder s)) ms
}.

Lemma rest_but h (w : W) : rest ⊆ open_handles w → h ∈ ({[a; b]} : gset Z) → rest ⊆ open_handles w ∖ {[h]}.
Proof.
  intros Hr Hh x Hx. apply elem_of_difference. split; [by apply Hr|]. intros ->%elem_of_singleton.
  by apply (Hrest h).
Qed.

Lemma partial_snoc q ms m : partial q ms → partial q (ms ++ [m]).
Proof.
  destruct ms as [|x ms]; simpl; [|done]. intros ->. rewrite len_frame_wire, len_nil.
  pose proof (len_nonneg (payload_ m)). pose proof (len_nonneg (extensions_wire (extensions_ m))). lia.
Qed.

Lemma start_inv s : link_start l s → rest ⊆ open_handles (network s) → link_inv s.
Proof.
  intros (Ha & Hb & Hlive & Hsent & Harr & Hd & Hc & Hdl) Hr. pose proof Hl as (Hlw & _ & _).
  split; [done|done|done|done|..]; rewrite ?Hd, ?Hsent, ?Harr, ?Hc, ?Hdl; [|done|done|done|].
  - unfold stream_inv. simpl. destruct Hlw as (_ & _ & _ & _ & ?). split_and!; [done|done|done|].
    change (len []) with 0. lia.
  - exists [], []. split_and!; [|done|done]. exists [], []. by split_and!; [..|left|].
Qed.

(** ** Sending *)
Lemma encode_cases m :
  message_wf m →
  (sendable l m ∧ encode l m = Ok (frame_wire m) ∧ in_memory (frame_wire m) ∧ frame_wire m ≠ []) ∨
  ∃ e, encode l m = Fail e.
Proof.
  intros Hm. pose proof Hl as (Hlw & Hlv & Hlp). pose proof (limits_valid_spec l Hlw Hlv) as Hv.
  destruct (encode_spec l m Hlw Hlv Hm) as [[Hf He]|[_ [msg He]]]; [left|right; by eexists].
  split_and!; [done|done| |].
  - destruct Hf as (_ & _ & _ & _ & Hf). len_lia.
  - intros Hn. pose proof (len_frame_wire m) as Hlen. rewrite Hn, len_nil in Hlen.
    pose proof (len_nonneg (payload_ m)). pose proof (len_nonneg (extensions_wire (extensions_ m))). lia.
Qed.

(** The wire after one more message, whole or torn. *)
Lemma sent_wire_open sent msgs torn :
  sent_wire sent msgs true torn → torn = [] ∧ sent = frames_wire msgs ∧ Forall (sendable l) msgs.
Proof.
  intros (p & q & -> & Hpq & [->|(? & _)] & Hall); [|done].
  apply app_eq_nil in Hpq as [-> ->]. rewrite app_nil_r in *. done.
Qed.

Lemma sent_wire_snoc msgs m :
  Forall (sendable l) msgs → sendable l m →
  sent_wire (frames_wire msgs ++ frame_wire m) (msgs ++ [m]) true [].
Proof.
  intros Hall Hm. exists [], []. rewrite !app_nil_r, frames_wire_app, frames_wire_one.
  split_and!; [done|done|by left|]. apply Forall_app. split; [done|]. by apply Forall_singleton.
Qed.

Lemma sent_wire_torn msgs m p q :
  Forall (sendable l) msgs → sendable l m → frame_wire m = p ++ q → q ≠ [] →
  sent_wire (frames_wire msgs ++ p) msgs false [m].
Proof.
  intros Hall Hm Hpq Hq. exists p, q. rewrite frames_wire_one.
  split_and!; [done|done|right; by split_and!; [..|exists m]|].
  apply Forall_app. split; [done|]. by apply Forall_singleton.
Qed.

(** The call succeeded. *)
Lemma submit_ok_inv m s (m' : machine TcpStream W) :
  link_inv s → sendable l m → connected (source s) = true → self m' = source s →
  open_handles (os m') = open_handles (network s) →
  sent_bytes (os m') a = sent_bytes (network s) a ++ frame_wire m →
  undisturbed (network s) (os m') →
  link_inv (MkLink (self m') (sink s) (decoder s) (os m') (confirmed s ++ [m]) (delivered s)).
Proof.
  intros Hi Hm Hc Hself Hop Hsent [Hlive Harr].
  destruct (inv_wire _ Hi) as (torn & ms & Hwire & Heq & Hpart). rewrite Hc in Hwire.
  destruct (sent_wire_open _ _ _ Hwire) as (-> & Hw & Hall). rewrite app_nil_r in Heq.
  split; simpl; rewrite ?Hself, ?Harr, ?Hsent, ?Hop; try apply Hi; try done.
  - eapply stream_on_mono; [apply Hi|by rewrite Hop].
  - eapply stream_on_mono; [apply Hi|by rewrite Hop].
  - etrans; [apply Hi|]. by apply prefix_app_r.
  - exists [], (ms ++ [m]). rewrite Hc, Hw. split_and!; [by apply sent_wire_snoc| |by apply partial_snoc].
    by rewrite app_nil_r, Heq, app_assoc.
Qed.

(** The call failed, perhaps half-way. *)
Lemma submit_fail_inv m s (m' : machine TcpStream W) :
  link_inv s → sendable l m → connected (self m') = false →
  open_handles (network s) ∖ {[a]} ⊆ open_handles (os m') →
  undisturbed (network s) (os m') →
  (if connected (source s) then
     ∃ p q, frame_wire m = p ++ q ∧ q ≠ [] ∧ sent_bytes (os m') a = sent_bytes (network s) a ++ p
   else sent_bytes (os m') a = sent_bytes (network s) a) →
  link_inv (MkLink (self m') (sink s) (decoder s) (os m') (confirmed s) (delivered s)).
Proof.
  intros Hi Hm Hcl Hop [Hlive Harr] Hs.
  destruct (inv_wire _ Hi) as (torn & ms & Hwire & Heq & Hpart).
  assert (arrived (network s) `prefix_of` sent_bytes (os m') a ∧
    ∃ torn' ms', sent_wire (sent_bytes (os m') a) (confirmed s) false torn' ∧
      confirmed s ++ torn' = delivered s ++ ms' ∧ partial (pending (decoder s)) ms') as [Hpre Hw'].
  { destruct (connected (source s)) eqn:Hc.
    - destruct Hs as (p & q & Hpq & Hq & Hs). destruct (sent_wire_open _ _ _ Hwire) as (-> & Hw & Hall).
      rewrite app_nil_r in Heq. rewrite Hs. split; [etrans; [apply Hi|by apply prefix_app_r]|].
      exists [m], (ms ++ [m]). rewrite Hw.
      split_and!; [by eapply sent_wire_torn|by rewrite Heq, app_assoc|by apply partial_snoc].
    - rewrite Hs. split; [apply Hi|]. by exists torn, ms. }
  split; simpl; rewrite ?Harr, ?Hcl; try apply Hi; [by apply stream_on_closed| | |done..].
  - eapply stream_on_mono; [apply Hi|]. intros Hb. apply Hop. set_solver.
  - etrans; [|exact Hop]. apply rest_but; [apply Hi|set_solver].
Qed.

Lemma submit_inv m s :
  link_inv s → message_wf m → defined (submit l m s).1 ∧ link_inv (submit l m s).2.
Proof.
  intros Hi Hm. unfold submit.
  destruct (encode_cases m Hm) as [(Hsend & He & Hmem & Hne)|[e He]]; rewrite He.
  2:{ by erewrite method_bind_fail by done. }
  erewrite method_bind_ok by done.
  pose proof (tcp_send_all_channel (frame_wire m) (source s) (network s) [] (inv_live _ Hi) (inv_source _ Hi) Hne Hmem) as Hs.
  destruct (tcp_send_all (frame_wire m) _) as [[n|e| |] m'] eqn:Es; [| |done..].
  - erewrite method_bind_ok by (unfold on_source; by rewrite Es). destruct Hs as (Hc & ? & ? & ? & ?).
    split; [by split|]. cbn. by apply submit_ok_inv.
  - erewrite method_bind_fail by (unfold on_source; by rewrite Es). destruct Hs as (? & ? & ? & ?).
    split; [by split|]. by eapply submit_fail_inv.
Qed.

(** ** Receiving *)

(** What is still to come completes the frames that were not delivered. *)
Lemma rest_of_wire s torn ms later :
  sent_wire (sent_bytes (network s) a) (confirmed s) (connected (source s)) torn →
  confirmed s ++ torn = delivered s ++ ms →
  (frames_wire (delivered s) ++ pending (decoder s)) ++ later = sent_bytes (network s) a →
  ∃ more, pending (decoder s) ++ later ++ more = frames_wire ms.
Proof.
  intros (p & q & Hsent & Hpq & _) Heq Hlater. exists q.
  apply (app_inv_head (frames_wire (delivered s))).
  rewrite <- frames_wire_app, <- Heq, frames_wire_app, <- Hpq, !app_assoc.
  by rewrite <- Hsent, <- Hlater.
Qed.

Lemma sent_wire_sendable s torn ms :
  sent_wire (sent_bytes (network s) a) (confirmed s) (connected (source s)) torn →
  confirmed s ++ torn = delivered s ++ ms → Forall (sendable l) ms.
Proof.
  intros (p & q & _ & _ & _ & Hall) Heq. rewrite Heq in Hall. by apply Forall_app in Hall as [_ ?].
Qed.

Lemma pump_inv n s :
  link_inv s → Z.of_nat n ≤ chunk_limit l →
  match (pump n s).1 with Ok _ | Fail (inl _) => True | _ => False end ∧ link_inv (pump n s).2.
Proof.
  intros Hi Hn. pose proof Hl as (Hlw & Hlv & Hlp). unfold chunk_limit in Hn.
  assert (0 ≤ max_frame_size l) by (by destruct Hlw as (_ & _ & _ & [? _] & _)).
  assert (len (replicate n Byte.x00) = Z.of_nat n) as Hlen by (unfold len; by rewrite length_replicate).
  pose proof (tcp_receive_channel (replicate n Byte.x00) (sink s) (network s) [] (inv_live _ Hi) (inv_sink _ Hi)
    ltac:(unfold in_memory; lia) (inv_prefix _ Hi)) as Hr.
  unfold pump. destruct (tcp_receive _ _) as [[[k output]|e| |] m'] eqn:Er; [| |done..].
  2:{ erewrite method_bind_fail by (unfold on_sink; by rewrite Er).
      destruct Hr as (Hcl & Hop & Hsent & Hlive & Harr). split; [done|].
      split; simpl; rewrite ?Hsent, ?Harr; try apply Hi; [|by apply stream_on_closed| |done].
      - eapply stream_on_mono; [apply Hi|]. intros Ha. apply Hop. set_solver.
      - etrans; [|exact Hop]. apply rest_but; [apply Hi|set_solver]. }
  erewrite method_bind_ok by (unfold on_sink; by rewrite Er).
  destruct Hr as (Hself & Hop & Hk & Hlen' & Hsent & Hlive & Harr & Hpre).
  destruct (inv_wire _ Hi) as (torn & ms & Hwire & Heq & Hpart).
  set (c := take (Z.to_nat k) output) in *. destruct Hpre as [later Hlater].
  rewrite Harr, (inv_arrived _ Hi), <- app_assoc in Hlater.
  destruct (rest_of_wire s torn ms (c ++ later) Hwire Heq) as [more Hmore].
  { by rewrite Hlater, !app_assoc. }
  rewrite !app_assoc in Hmore. rewrite <- (app_assoc _ later more) in Hmore.
  pose proof (sent_wire_sendable s torn ms Hwire Heq) as Hms.
  destruct (push_drain c (later ++ more) ms (decoder s)) as
    (d1 & ms1 & ms2 & d2 & E1 & E2 & -> & Hq & Hi2 & Hl2 & _ & Hp2);
    [apply Hi|by rewrite (inv_limits _ Hi)| |done|done|].
  { rewrite (inv_limits _ Hi). unfold c, len. rewrite length_take. lia. }
  cbn [fst snd]. fold c.
  erewrite method_bind_ok by (unfold on_decoder; cbn [decoder]; by rewrite E1).
  erewrite method_bind_ok by (unfold on_decoder; cbn [decoder];
    rewrite (method_bind_ok get _ d1 d1 d1 Logic.eq_refl); by rewrite E2).
  split; [done|].
  split; simpl; rewrite ?Hself, ?Hsent, ?Hop; try apply Hi; try done.
  - eapply stream_on_mono; [apply Hi|by rewrite Hop].
  - eapply stream_on_mono; [apply Hi|by rewrite Hop].
  - by rewrite Hl2, (inv_limits _ Hi).
  - exists later. by rewrite Harr, (inv_arrived _ Hi), <- app_assoc.
  - by rewrite Harr, (inv_arrived _ Hi), frames_wire_app, <- !app_assoc, <- Hq.
  - exists torn, ms2. by rewrite Heq, app_assoc.
Qed.

Lemma network_inv s w' :
  link_inv s → quiet (network s) w' →
  link_inv (MkLink (source s) (sink s) (decoder s) w' (confirmed s) (delivered s)).
Proof.
  intros Hi [[Hop Hs] [Hlive Harr]].
  split; simpl; rewrite ?Hs, ?Harr, ?Hop; try apply Hi; try done;
    (eapply stream_on_mono; [apply Hi|by rewrite Hop]).
Qed.

Lemma link_steps_inv s s' : link_inv s → rtc (link_step l) s s' → link_inv s'.
Proof.
  intros Hi Hsteps. induction Hsteps as [|s s1 s2 Hstep _ IH]; [done|]. apply IH.
  destruct Hstep as [m s Hm|n s Hn|s w' Hw];
    [by apply submit_inv|by apply pump_inv|by apply network_inv].
Qed.

(** ** What the invariant says of the messages *)

Lemma delivered_prefix s : link_inv s → delivered s `prefix_of` confirmed s.
Proof.
  intros Hi. destruct (inv_wire _ Hi) as (torn & ms & (p & q & Hsent & Hpq & Htorn & _) & Heq & _).
  destruct Htorn as [->|(_ & Hq & m & ->)].
  { exists ms. by rewrite app_nil_r in Heq. }
  destruct ms as [|x ms' _] using rev_ind.
  - exfalso. rewrite app_nil_r in Heq. destruct (inv_prefix _ Hi) as [later Hlater].
    rewrite (inv_arrived _ Hi), Hsent, <- Heq, frames_wire_app, <- Hpq, <- !app_assoc in Hlater.
    apply (app_inv_head (frames_wire _)) in Hlater.
    assert (len p = len (p ++ q ++ pending (decoder s) ++ later)) as Hlen by congruence.
    rewrite !len_app in Hlen. pose proof (len_nonneg (pending (decoder s))). pose proof (len_nonneg later).
    destruct q as [|y q]; [done|]. rewrite len_cons in Hlen. pose proof (len_nonneg q). lia.
  - rewrite app_assoc in Heq. apply app_inj_tail in Heq as [-> _]. by apply prefix_app_r.
Qed.

Lemma delivered_complete s :
  link_inv s → arrived (network s) = sent_bytes (network s) a → delivered s = confirmed s.
Proof.
  intros Hi Hall. destruct (delivered_prefix s Hi) as [late Hlate].
  destruct (inv_wire _ Hi) as (torn & ms & (p & q & Hsent & Hpq & _) & Heq & Hpart).
  destruct late as [|m late]; [by rewrite app_nil_r in Hlate|]. exfalso.
  rewrite (inv_arrived _ Hi), Hsent, Hlate, frames_wire_app, <- app_assoc in Hall.
  apply app_inv_head in Hall. rewrite Hlate, <- app_assoc in Heq. apply app_inv_head in Heq as <-.
  cbn [partial app] in Hpart. rewrite Hall, frames_wire_cons, <- app_assoc, len_app in Hpart.
  pose proof (len_nonneg (frames_wire late ++ p)). lia.
Qed.
End Link.
