(* ===== verification/Session.v ===== *)
(** * Sessions: connect, accept and reconnect

    A client and a server that keep a link alive over any number of connections.  To renew
    the link the server drops its stream, the client calls [connect] or [reconnect], and the
    server calls [TcpListener::accept] and takes a new [StreamDecoder], as
    [docs/ARCHITECTURE.md] asks ("a transport creates one decoder per connection").  Between
    two renewals the processes run as in [Link.v]. *)

From stdpp Require Import prelude gmap sets list strings.
From Stdlib Require Import ZArith Lia.
From S2P Require Import Prelude Errors Types Frame FrameFacts Stream StreamFacts.
From S2P Require Import Transport SocketLogic Tcp TcpFacts Link LinkFacts.
Import Protocol.

(** Every pair of handles may be the two ends of a connection. *)
Class TcpNetwork {W} (G : SocketGhost W) (P : SocketPlatform W) := {
  channel :: ∀ a b, TcpChannel G P a b
}.

(** [past] holds, for every connection that ended, what the client had confirmed and what
    the server had delivered on it; [ends] are the handles of the connection in use. *)
Record session (W : Type) := MkSession {
  current : link W;
  acceptor : TcpListener;
  ends : option (Z * Z);
  past : list (list Message * list Message)
}.
Arguments MkSession {W}.
Arguments current {W}.
Arguments acceptor {W}.
Arguments ends {W}.
Arguments past {W}.

Definition stream_value (t : TcpStream) : Z :=
  match t with Some i => sock_value (stream_socket i) | None => invalid_value end.

Section Sessions.
Context {EM : ErrorModel} {W : Type} {P : SocketPlatform W} (l : Limits).
Abbreviation M := (method (session W) (TransportError + error_type)).

Definition on_link {A} (f : method (link W) (TransportError + error_type) A) : M A := λ s,
  let '(r, c) := f (current s) in (r, MkSession c (acceptor s) (ends s) (past s)).

Definition on_acceptor {A} (f : method (machine TcpListener W) TransportError A) : M A := λ s,
  let c := current s in
  let '(r, m) := f (MkMachine (acceptor s) (network c) []) in
  let '(r', c') :=
    transport_result r (MkLink (source c) (sink c) (decoder c) (os m) (confirmed c) (delivered c)) in
  (r', MkSession c' (self m) (ends s) (past s)).

(** The connection in use ends. *)
Definition hang_up : M unit :=
  modify (λ s, let c := current s in
    MkSession (MkLink (source c) (sink c) (decoder c) (network c) [] []) (acceptor s) None
      (past s ++ [(confirmed c, delivered c)])).

(** The client dials: a new endpoint, or the one it remembers. *)
Definition dial (target : option IpEndpoint) : method (machine TcpStream W) TransportError unit :=
  match target with Some e => tcp_connect e | None => tcp_reconnect end.

Definition renew (target : option IpEndpoint) : M unit :=
  hang_up;;
  on_link (on_sink tcp_close);;
  on_link (on_source (dial target));;
  stream ← on_acceptor listener_accept;
  modify (λ s, let c := current s in
    MkSession (MkLink (source c) stream (new_stream l) (network c) [] []) (acceptor s)
      (Some (stream_value (source c), stream_value stream)) (past s)).

Context {G : SocketGhost W} {N : TcpNetwork G P}.

(** A new connection has carried nothing. *)
Definition fresh_link (a b : Z) (w : W) : Prop :=
  live (a:=a) (b:=b) w ∧ sent_bytes w a = [] ∧ arrived (a:=a) (b:=b) w = [].

(** When [accept] returned the connection the client has just made, it is a new one. *)
Inductive session_step : session W → session W → Prop :=
| step_link a b s c :
    ends s = Some (a, b) → link_step (a:=a) (b:=b) l (current s) c →
    session_step s (MkSession c (acceptor s) (ends s) (past s))
| step_renew target s :
    (∀ a b, ends (renew target s).2 = Some (a, b) →
       fresh_link a b (network (current (renew target s).2))) →
    session_step s (renew target s).2
| step_idle s w :
    ends s = None → keeps (network (current s)) w →
    let c := current s in
    session_step s
      (MkSession (MkLink (source c) (sink c) (decoder c) w (confirmed c) (delivered c))
         (acceptor s) (ends s) (past s)).

(** The three objects own their handles. *)
Definition holdings (c : link W) (t : TcpListener) : Prop :=
  stream_handles (source c) ⊆ open_handles (network c) ∧
  stream_handles (sink c) ⊆ open_handles (network c) ∧
  listener_handles t ⊆ open_handles (network c) ∧
  stream_handles (source c) ## stream_handles (sink c) ∧
  stream_handles (source c) ## listener_handles t ∧
  stream_handles (sink c) ## listener_handles t.

(** The delays of the client's policy can be doubled in 64 bits; the program has to see to
    it, since [ReconnectPolicy::valid] does not check it. *)
Definition policy_ok (t : TcpStream) : Prop :=
  ∀ i, t = Some i → delays_representable (stream_policy i).

(** No connection yet, and a client whose retries are defined. *)
Definition session_start (s : session W) : Prop :=
  holdings (current s) (acceptor s) ∧ policy_ok (source (current s)) ∧
  ends s = None ∧ past s = [] ∧ confirmed (current s) = [] ∧ delivered (current s) = [].

(** Everything the client has confirmed and the server has delivered. *)
Definition all_confirmed (s : session W) : list Message :=
  concat (past s).*1 ++ confirmed (current s).
Definition all_delivered (s : session W) : list Message :=
  concat (past s).*2 ++ delivered (current s).
End Sessions.
