(* ===== verification/SessionFacts.v ===== *)
(** * Sessions: proofs

    Renewing a link is defined, keeps the handles of the three objects apart, and when it
    succeeds starts a new link; the invariant of sessions follows from that of links. *)

From stdpp Require Import prelude gmap sets list strings.
From Stdlib Require Import ZArith Lia.
From S2P Require Import Prelude Errors Types Frame FrameFacts Stream StreamFacts.
From S2P Require Import Transport SocketLogic Tcp TcpFacts Link LinkFacts Session.
Import Protocol.

(** ** Handles of the others during a call *)
Section Frame.
Context {W : Type} {G : SocketGhost W} {P : SocketPlatform W} {L : SocketPlatformLaws G P}.

(** After a call on an object with the handles [mine], those of another are still open and
    still its own. *)
Lemma owns_frame mine mine' log X (w w' : W) :
  owns (open_handles w ∖ mine) log mine' w' → X ⊆ open_handles w → X ## mine →
  X ⊆ open_handles w' ∧ X ## mine'.
Proof.
  intros (Hd & Ho & _) HX Hdis.
  assert (X ⊆ open_handles w ∖ mine) as Hsub
    by (intros h Hh; apply elem_of_difference; split; [by apply HX|by intros ?; apply (Hdis h)]).
  split; [rewrite Ho; etrans; [exact Hsub|apply union_subseteq_r]|].
  intros h Hh Hm. by apply (Hd h Hm), Hsub.
Qed.

Lemma owns_subset others log mine (w : W) : owns others log mine w → mine ⊆ open_handles w.
Proof. intros (_ & -> & _). apply union_subseteq_l. Qed.

(** A subset of the open handles, as ownership. *)
Lemma subset_owns mine (w : W) :
  mine ⊆ open_handles w → owns (open_handles w ∖ mine) (sent_bytes w) mine w.
Proof.
  intros Hm. split_and!; [|by apply union_difference_L|done].
  intros h Hh [_ Hn]%elem_of_difference. done.
Qed.
End Frame.

(** ** Renewing *)
Section Renew.
Context {EM : ErrorModel} {W : Type} {G : SocketGhost W} {P : SocketPlatform W}.
Context {L : SocketPlatformLaws G P} {N : TcpNetwork G P} (l : Limits).
Implicit Types c : link W.
Implicit Types s : session W.

(** The call is defined, and the object is [Q] afterwards. *)
Definition link_call {A} (r : outcome (TransportError + error_type) A * link W)
    (Q F : link W → Prop) : Prop :=
  match r with (Ok _, c') => Q c' | (Fail (inl _), c') => F c' | _ => False end.

Lemma drop_sink_ok c t :
  holdings c t →
  ∃ c', on_sink tcp_close c = (Ok tt, c') ∧ holdings c' t ∧ source c' = source c ∧
    confirmed c' = confirmed c ∧ delivered c' = delivered c.
Proof.
  intros (H1 & H2 & H3 & H4 & H5 & H6). unfold on_sink.
  pose proof (tcp_close_wp (open_handles (network c) ∖ stream_handles (sink c)) (sent_bytes (network c))
    (MkMachine (S:=TcpStream) (sink c) (network c) [])
    (λ _ m, owns (open_handles (network c) ∖ stream_handles (sink c)) (sent_bytes (network c)) ∅ (os m) ∧
       stream_handles (self m) = ∅) (λ _ _, False) (subset_owns _ _ H2)) as Hwp.
  unfold wp in Hwp. destruct (tcp_close _) as [[[]|e| |] m']; cbv iota in Hwp.
  2-4: destruct Hwp; intros w Hw _; split; [done|]; by destruct (sink c).
  destruct Hwp as [Ho Hh]; [intros w Hw _; split; [done|]; by destruct (sink c)|].
  eexists. split; [done|]. split; [|done]. unfold holdings. simpl. rewrite Hh.
  destruct (owns_frame _ _ _ _ _ _ Ho H1 H4) as [? _].
  destruct (owns_frame _ _ _ _ _ _ Ho H3 ltac:(done)) as [? _].
  split_and!; [done|apply empty_subseteq|done|apply disjoint_empty_r|done|apply disjoint_empty_l].
Qed.

Lemma dial_policy target : keeps_policy (dial (W:=W) target).
Proof. destruct target; [apply tcp_connect_policy|apply tcp_reconnect_policy]. Qed.

Lemma policy_ok_same t t' :
  policy_ok t → stream_policy <$> t' = stream_policy <$> t → policy_ok t'.
Proof.
  intros Ht He i ->. destruct t as [j|]; [|done]. simpl in He. injection He as ->. by apply Ht.
Qed.

Lemma dial_ok target c t :
  holdings c t → policy_ok (source c) →
  link_call (on_source (dial target) c)
    (λ c', holdings c' t ∧ policy_ok (source c') ∧ connected (source c') = true ∧
       confirmed c' = confirmed c ∧ delivered c' = delivered c)
    (λ c', holdings c' t ∧ policy_ok (source c') ∧
       confirmed c' = confirmed c ∧ delivered c' = delivered c).
Proof.
  intros (H1 & H2 & H3 & H4 & H5 & H6) Hpol. unfold on_source.
  set (m := MkMachine (source c) (network c) []).
  pose proof (subset_owns _ _ H1 : stream_owns _ _ m) as Ho.
  assert (wp (dial target) m
    (λ _ m', stream_owns (open_handles (network c) ∖ stream_handles (source c)) (sent_bytes (network c)) m' ∧
       connected (self m') = true)
    (λ _ m', stream_owns (open_handles (network c) ∖ stream_handles (source c)) (sent_bytes (network c)) m'))
    as Hwp.
  { destruct target as [e|]; simpl.
    - eapply wp_mono; [by apply (tcp_connect_wp _ _ e m Ho)| |]; simpl; tauto.
    - eapply wp_mono; [by apply (tcp_reconnect_wp _ _ m Ho)| |]; simpl; tauto. }
  pose proof (dial_policy target m) as Hp. unfold wp in Hwp.
  assert (∀ m' : machine TcpStream W,
    stream_owns (open_handles (network c) ∖ stream_handles (source c)) (sent_bytes (network c)) m' →
    holdings (MkLink (self m') (sink c) (decoder c) (os m') (confirmed c) (delivered c)) t) as Hh.
  { intros m' Ho'. unfold holdings. simpl.
    destruct (owns_frame _ _ _ _ _ _ Ho' H2 ltac:(by symmetry)) as [? ?].
    destruct (owns_frame _ _ _ _ _ _ Ho' H3 ltac:(by symmetry)) as [? ?].
    pose proof (owns_subset _ _ _ _ Ho'). by split_and!. }
  destruct (dial target m) as [[[]|e| |] m']; [| |done..]; simpl in Hp |- *.
  - destruct Hwp as [Ho' Hc]. split_and!; [by apply Hh|by eapply policy_ok_same|done..].
  - split_and!; [by apply Hh|by eapply policy_ok_same|done..].
Qed.

Lemma accept_ok s :
  holdings (current s) (acceptor s) →
  match on_acceptor listener_accept s with
  | (Ok stream, s') =>
      source (current s') = source (current s) ∧ acceptor s' = acceptor s ∧
      ends s' = ends s ∧ past s' = past s ∧
      confirmed (current s') = confirmed (current s) ∧ delivered (current s') = delivered (current s) ∧
      connected stream = true ∧
      stream_handles (source (current s)) ⊆ open_handles (network (current s')) ∧
      listener_handles (acceptor s) ⊆ open_handles (network (current s')) ∧
      stream_handles stream ⊆ open_handles (network (current s')) ∧
      stream_handles (source (current s)) ## stream_handles stream ∧
      stream_handles stream ## listener_handles (acceptor s)
  | (Fail (inl _), s') =>
      holdings (current s') (acceptor s') ∧ source (current s') = source (current s) ∧
      ends s' = ends s ∧ past s' = past s ∧
      confirmed (current s') = confirmed (current s) ∧ delivered (current s') = delivered (current s)
  | _ => False
  end.
Proof.
  destruct s as [c t e p]. simpl. intros (H1 & H2 & H3 & H4 & H5 & H6). unfold on_acceptor. simpl.
  set (m := MkMachine t (network c) []).
  pose proof (listener_accept_wp _ _ m (subset_owns _ _ H3)) as Hwp. unfold wp in Hwp.
  destruct (listener_accept m) as [[stream|err| |] m']; [| |done..]; simpl in Hwp |- *.
  - destruct Hwp as (Hself & Hc & _ & Hd & Ho & _).
    destruct (owns_frame _ _ _ _ _ _ Ho H1 H5) as [Hsrc Hdis]. apply disjoint_union_r in Hdis as [Hdis _].
    pose proof (owns_subset _ _ _ _ Ho) as Hopen. apply union_subseteq in Hopen as [? ?].
    by split_and!.
  - destruct Hwp as (Hself & Ho). unfold holdings. simpl. rewrite Hself.
    unfold listener_owns in Ho. rewrite Hself in Ho.
    destruct (owns_frame _ _ _ _ _ _ Ho H1 H5) as [? _].
    destruct (owns_frame _ _ _ _ _ _ Ho H2 H6) as [? _].
    pose proof (owns_subset _ _ _ _ Ho). by split_and!.
Qed.

(** ** The invariant *)
Hypothesis Hl : stream_limits_ok l.

Definition connection_inv s : Prop :=
  match ends s with
  | None =>
      holdings (current s) (acceptor s) ∧ confirmed (current s) = [] ∧ delivered (current s) = []
  | Some (a, b) =>
      a ≠ b ∧ listener_handles (acceptor s) ## {[a; b]} ∧
      link_inv (a:=a) (b:=b) l (listener_handles (acceptor s)) (current s)
  end.

Record session_inv s : Prop := MkSessionInv {
  inv_policy : policy_ok (source (current s));
  inv_past : Forall (λ e, e.2 `prefix_of` e.1) (past s);
  inv_connection : connection_inv s
}.

Lemma start_session_inv s : session_start s → session_inv s.
Proof.
  intros (Hh & Hp & He & Hpast & Hc & Hd).
  split; [done|by rewrite Hpast|]. unfold connection_inv. by rewrite He.
Qed.

(** Between connections or on one, the objects own their handles. *)
Lemma inv_holdings s : session_inv s → holdings (current s) (acceptor s).
Proof.
  intros [_ _ Hc]. unfold connection_inv in Hc. destruct (ends s) as [[a b]|]; [|apply Hc].
  destruct Hc as (Hab & Hr & Hi).
  destruct (inv_source _ _ _ Hi) as [Ha Hoa], (inv_sink _ _ _ Hi) as [Hb Hob].
  pose proof (inv_rest _ _ _ Hi) as Hro.
  split_and!; [done..| | |]; clear -Ha Hb Hr Hab; set_solver.
Qed.

Lemma inv_delivered s : session_inv s → delivered (current s) `prefix_of` confirmed (current s).
Proof.
  intros [_ _ Hc]. unfold connection_inv in Hc. destruct (ends s) as [[a b]|].
  - destruct Hc as (Hab & Hr & Hi). by apply (delivered_prefix l _ _ Hi).
  - destruct Hc as (_ & -> & ->). done.
Qed.

Lemma hang_up_inv s :
  session_inv s → ∃ s', hang_up s = (Ok tt, s') ∧ session_inv s' ∧ ends s' = None.
Proof.
  intros Hi. eexists. split; [done|]. split; [|done]. split; simpl.
  - apply (inv_policy _ Hi).
  - apply Forall_app. split; [apply (inv_past _ Hi)|]. apply Forall_singleton. by apply inv_delivered.
  - split_and!; [|done..]. apply (inv_holdings _ Hi).
Qed.

(** The connection that [accept] returned starts a link. *)
Lemma accepted_inv s stream :
  policy_ok (source (current s)) → Forall (λ e, e.2 `prefix_of` e.1) (past s) →
  connected (source (current s)) = true → connected stream = true →
  stream_handles (source (current s)) ⊆ open_handles (network (current s)) →
  listener_handles (acceptor s) ⊆ open_handles (network (current s)) →
  stream_handles stream ⊆ open_handles (network (current s)) →
  stream_handles (source (current s)) ## stream_handles stream →
  stream_handles (source (current s)) ## listener_handles (acceptor s) →
  stream_handles stream ## listener_handles (acceptor s) →
  let a := stream_value (source (current s)) in
  let b := stream_value stream in
  fresh_link a b (network (current s)) →
  session_inv
    (MkSession (MkLink (source (current s)) stream (new_stream l) (network (current s)) [] [])
       (acceptor s) (Some (a, b)) (past s)).
Proof.
  intros Hp Hpast Hcs Hct Hos Hol Hot Hd1 Hd2 Hd3 a b (Hlive & Hsent & Harr).
  destruct (connected_inv _ Hcs) as (i & Hi & Hv & Hh), (connected_inv _ Hct) as (j & -> & Hv' & Hh').
  assert (a = sock_value (stream_socket i)) as Ha by (unfold a; by rewrite Hi).
  rewrite <- Ha in Hh. change (sock_value (stream_socket j)) with b in Hh'.
  split; simpl; [done|done|]. unfold connection_inv. cbn [ends current acceptor].
  rewrite Hh in Hos, Hd1, Hd2. rewrite Hh' in Hot, Hd1, Hd3.
  split_and!; [intros Hab; rewrite Hab in Hd1; clear -Hd1; set_solver|clear -Hd2 Hd3; set_solver|].
  apply start_inv; [done| |done]. unfold link_start, stream_on. cbn [source sink network].
  rewrite Hh, Hh'. split_and!; done.
Qed.

Lemma renew_inv target s :
  session_inv s →
  (∀ a b, ends (renew l target s).2 = Some (a, b) →
     fresh_link a b (network (current (renew l target s).2))) →
  defined (renew l target s).1 ∧ session_inv (renew l target s).2.
Proof.
  intros Hi. unfold renew. destruct (hang_up_inv s Hi) as (s1 & E1 & [Hp1 Hpast1 Hc1] & He1).
  erewrite (method_bind_ok hang_up) by done. unfold connection_inv in Hc1. rewrite He1 in Hc1.
  destruct Hc1 as (Hh1 & Hcf & Hdl). destruct s1 as [c1 t e1 past1]. simpl in *. subst e1.
  destruct (drop_sink_ok c1 t Hh1) as (c2 & E2 & Hh2 & Hsrc & Hcf2 & Hdl2).
  erewrite (method_bind_ok (on_link (on_sink tcp_close))) by (unfold on_link; simpl; by rewrite E2).
  rewrite <- Hsrc in Hp1. rewrite Hcf in Hcf2. rewrite Hdl in Hdl2.
  pose proof (dial_ok target c2 t Hh2 Hp1) as Hd. unfold link_call in Hd.
  destruct (on_source (dial target) c2) as [[[]|[err|err]| |] c3] eqn:E3; [| |done..].
  2:{ erewrite method_bind_fail by (unfold on_link; simpl; by rewrite E3). simpl.
      destruct Hd as (Hh3 & Hp3 & Hcf3 & Hdl3). intros _. split; [done|].
      split; [done|done|]. split_and!; [done|simpl; congruence..]. }
  destruct Hd as (Hh3 & Hp3 & Hcon & Hcf3 & Hdl3).
  erewrite (method_bind_ok (on_link (on_source (dial target)))) by (unfold on_link; simpl; by rewrite E3).
  pose proof (accept_ok (MkSession c3 t None past1) Hh3) as Ha. simpl in Ha.
  destruct (on_acceptor listener_accept _) as [[stream|[err|err]| |] s4] eqn:E4; [| |done..].
  - destruct Ha as (Hs4 & Ht4 & _ & Hp4 & _ & _ & Hct & H1 & H2 & H3 & H4 & H5).
    erewrite method_bind_ok by done. simpl. intros Hf. split; [done|].
    apply accepted_inv; try (by rewrite Hs4) || (by rewrite Hp4) || (by rewrite Ht4) || done.
    + rewrite Hs4, Ht4. by destruct Hh3 as (_ & _ & _ & _ & ? & _).
    + by apply Hf.
  - destruct Ha as (Hh4 & Hs4 & He4 & Hp4 & Hcf4 & Hdl4).
    erewrite method_bind_fail by done. simpl. intros _. split; [done|].
    split; [by rewrite Hs4|by rewrite Hp4|]. unfold connection_inv. rewrite He4.
    split_and!; [done|congruence..].
Qed.

(** ** Steps of the link *)
Lemma submit_policy m c : stream_policy <$> source (submit l m c).2 = stream_policy <$> source c.
Proof.
  unfold submit, protocol_call. unfold mbind at 1, method_bind at 1.
  destruct (encode l m) as [frame| | |]; [|done..].
  pose proof (send_all_loop_policy (S (length frame)) frame 0 (MkMachine (source c) (network c) [])) as Hp.
  unfold mbind, method_bind, on_source, tcp_send_all.
  destruct (send_all_loop _ _ _ _) as [[| | |] m']; exact Hp.
Qed.

(** Calls of the server do not touch the client. *)
Lemma sink_source {A} (f : method (machine TcpStream W) TransportError A) : leaves (source (W:=W)) (on_sink f).
Proof. intros c. unfold on_sink. by destruct (f _) as [[| | |] m]. Qed.

Lemma decoder_source {A} (f : method StreamDecoder error_type A) : leaves (source (W:=W)) (on_decoder f).
Proof. intros c. unfold on_decoder. by destruct (f _) as [[| | |] d]. Qed.

Lemma pump_source n : leaves (source (W:=W)) (pump n).
Proof.
  unfold pump. apply leaves_bind; [apply sink_source|]. intros r.
  do 2 (apply leaves_bind; [apply decoder_source|]; intros ?). done.
Qed.

Lemma link_step_policy a b c c' :
  link_step (a:=a) (b:=b) l c c' → stream_policy <$> source c' = stream_policy <$> source c.
Proof.
  intros [m s Hm|n s Hn|s w Hw]; [apply submit_policy|by rewrite pump_source|done].
Qed.

Lemma session_step_inv s s' : session_inv s → session_step l s s' → session_inv s'.
Proof.
  intros Hi Hstep. destruct Hstep as [a b s c He Hc|target s Hf|s w He Hk].
  - split; simpl; [|apply (inv_past _ Hi)|].
    + eapply policy_ok_same; [apply (inv_policy _ Hi)|by eapply link_step_policy].
    + pose proof (inv_connection _ Hi) as Hcon. unfold connection_inv in *. rewrite He in *. simpl.
      destruct Hcon as (Hab & Hr & Hinv). split_and!; [done..|].
      by eapply (link_steps_inv l Hab _ Hr Hl _ _ Hinv), rtc_once.
  - by apply renew_inv.
  - pose proof (inv_connection _ Hi) as Hcon. unfold connection_inv in *. rewrite He in *.
    split; [apply Hi|apply Hi|]. unfold connection_inv. cbn [ends].
    destruct Hk as [Hk _]. unfold holdings in *. simpl in *. by rewrite Hk.
Qed.

Lemma session_steps_inv s s' : session_inv s → rtc (session_step l) s s' → session_inv s'.
Proof. intros Hi H. induction H as [|s s1 s2 Hs _ IH]; [done|]. by eapply IH, session_step_inv. Qed.

(** ** What the invariant says of all connections together *)
Lemma concat_prefixes (e : list (list Message * list Message)) :
  Forall (λ e, e.2 `prefix_of` e.1) e → concat e.*2 `sublist_of` concat e.*1.
Proof.
  induction 1 as [|[c d] e [k Hk] _ IH]; simpl in *; [done|]. subst c.
  rewrite <- app_assoc. apply sublist_app; [done|]. by apply sublist_inserts_l.
Qed.

Lemma inv_at_most_once s : session_inv s → all_delivered s `sublist_of` all_confirmed s.
Proof.
  intros Hi. apply sublist_app; [apply concat_prefixes, (inv_past _ Hi)|].
  destruct (inv_delivered s Hi) as [k ->]. by apply sublist_inserts_r.
Qed.
End Renew.
