(* ===== verification/SessionProps.v ===== *)
(** * Frames over TCP connections: the theorem

    Messages submitted by a client are delivered at most once and in order by the server,
    over any number of connections, and exactly once on each connection whose bytes arrive;
    with a run on the simulated system. *)

From stdpp Require Import prelude gmap sets list strings.
From Stdlib Require Import ZArith Lia.
From S2P Require Import Prelude Errors Types Frame FrameFacts Stream StreamFacts.
From S2P Require Import Transport SocketLogic Tcp TcpFacts Link LinkFacts Session SessionFacts.
From S2P Require Import SocketAddr Posix Windows SimOS TransportProps.
Import Protocol.

(** ** The simulated connections *)

(** [b] is the peer of [a]. *)
Definition sim_live (a b : Z) (w : sim) : Prop := sim_peer w !! b = Some a.

Lemma sim_send_link a b s bytes w :
  sim_live a b w →
  let w' := (posix_send_socket (C:=sim_posix) s bytes w).2 in
  sim_live a b w' ∧ sim_arrived b w' = sim_arrived b w.
Proof.
  intros Hl. unfold posix_send_socket, call, mbind, method_bind. cbn [sys_send sim_posix].
  unfold sim_send. by destruct (_ <? 0).
Qed.

Lemma sim_close_link a b s w :
  sim_live a b w →
  let w' := (posix_close_socket (C:=sim_posix) s w).2 in
  sim_live a b w' ∧ sim_arrived b w' = sim_arrived b w.
Proof. intros Hl. unfold posix_close_socket. by destruct (negb _). Qed.

Lemma sim_recv_link a b output requested w :
  sim_live a b w → 0 ≤ requested ≤ len output → sim_arrived b w `prefix_of` sent_bytes w a →
  let '((n, output'), w') := sim_recv b output requested w in
  sim_live a b w' ∧
  if n <? 0 then sim_arrived b w' = sim_arrived b w
  else
    n ≤ 3 ∧ sim_arrived b w' = sim_arrived b w ++ take (Z.to_nat n) output' ∧
    sim_arrived b w' `prefix_of` sent_bytes w a.
Proof.
  intros Hl Hr [more Hmore]. unfold sim_recv, sim_live in *. rewrite Hl. simpl in Hmore.
  rewrite Hmore, drop_app_length.
  assert (len (take (Z.to_nat (Z.min 3 requested)) more) ≤ 3) as Hlen
    by (unfold len; rewrite length_take; lia).
  assert (∃ later, more = take (Z.to_nat (Z.min 3 requested)) more ++ later) as [later Hlater]
    by (eexists; symmetry; apply take_drop).
  destruct (take (Z.to_nat (Z.min 3 requested)) more) as [|x available].
  { case_bool_decide; [done|]. split; [done|]. simpl. rewrite app_nil_r. split_and!; [lia|done|].
    by exists more. }
  split; [done|]. rewrite (proj2 (Z.ltb_ge _ _)) by apply len_nonneg.
  set (w' := sim_deliver _ _ _).
  assert (sim_arrived b w' = sim_arrived b w ++ x :: available) as ->.
  { unfold w', sim_deliver, sim_arrived at 1. simpl. by rewrite lookup_insert_eq. }
  split_and!; [done| |].
  - unfold len. by rewrite Nat2Z.id, (take_app_length (x :: available)).
  - simpl. rewrite Hmore, Hlater. exists later. by rewrite <- app_assoc.
Qed.

Lemma sim_receive_link a b s output w :
  sim_live a b w → sock_value s = b → b ∈ open_handles w → in_memory output →
  sim_arrived b w `prefix_of` sent_bytes w a →
  match posix_receive_socket (C:=sim_posix) s output w with
  | (Ok (n, output'), w') =>
      sim_live a b w' ∧ sim_arrived b w' = sim_arrived b w ++ take (Z.to_nat n) output' ∧
      sim_arrived b w' `prefix_of` sent_bytes w a
  | (_, w') => sim_live a b w' ∧ sim_arrived b w' = sim_arrived b w
  end.
Proof.
  intros Hl Hs Hop Hm Hpre. unfold posix_receive_socket, call, mbind, method_bind.
  rewrite (native_open (PL:=sim_posix_laws) s w) by by rewrite Hs. rewrite Hs. cbn [sys_recv sim_posix].
  pose proof (sim_recv_link a b output (Z.min (len output) INT_MAX) w Hl) as Hr.
  destruct (sim_recv b _ _ w) as [[n output'] w'].
  destruct (Hr ltac:(unfold INT_MAX; len_lia) Hpre) as [Hl' H].
  destruct (Z.ltb_spec n 0); [done|]. destruct H as (Hn & Ha & Hp).
  unfold mret, method_ret. rewrite wrap_small by lia. done.
Qed.

#[export] Instance sim_network : TcpNetwork sim_ghost posix_platform.
Proof.
  split. intros a b. refine {| live := sim_live a b; arrived := sim_arrived b |}.
  - intros s bytes w Hl _. by apply sim_send_link.
  - intros. by apply sim_receive_link.
  - intros s w Hl _. by apply sim_close_link.
Defined.

(** ** Property *)

(** C6. At most once, in order, over any number of connections: on every platform, over
    every network whose connections deliver bytes reliably and in order, and for every
    interleaving of the client, the server, the network and renewals by [connect],
    [reconnect] and [accept], the messages delivered are a subsequence of those whose
    [send_all] succeeded, so that nothing is duplicated, reordered, corrupted or made up,
    also when connections broke half-way through a frame.  On each connection they are a
    prefix, and on the one in use exactly the messages confirmed once every byte has
    arrived.  Receiving never runs into a protocol error, and no call is undefined.  The
    client's retry policy is one whose delays can be doubled in 64 bits. *)
Theorem tcp_session_at_most_once {EM : ErrorModel} {W} {G : SocketGhost W} {P : SocketPlatform W}
    {N : TcpNetwork G P} (l : Limits) (s0 s : session W) :
  SocketPlatformLaws G P → stream_limits_ok l →
  session_start s0 → rtc (session_step l) s0 s →
  all_delivered s `sublist_of` all_confirmed s ∧
  Forall (λ e, e.2 `prefix_of` e.1) (past s) ∧
  delivered (current s) `prefix_of` confirmed (current s) ∧
  (∀ a b, ends s = Some (a, b) →
     let c := current s in
     (arrived (a:=a) (b:=b) (network c) = sent_bytes (network c) a → delivered c = confirmed c) ∧
     (∀ m, message_wf m → defined (submit l m c).1) ∧
     (∀ n, Z.of_nat n ≤ chunk_limit l →
        match (pump n c).1 with Ok _ | Fail (inl _) => True | _ => False end)) ∧
  (∀ target,
     (∀ a b, ends (renew l target s).2 = Some (a, b) →
        fresh_link a b (network (current (renew l target s).2))) →
     defined (renew l target s).1).
Proof.
  intros L Hl Hstart Hsteps.
  pose proof (session_steps_inv l Hl s0 s (start_session_inv l s0 Hstart) Hsteps) as Hi.
  split_and!; [by apply (inv_at_most_once l)|apply (inv_past _ _ Hi)|by apply (inv_delivered l)| |].
  - intros a b He. pose proof (inv_connection _ _ Hi) as Hc. unfold connection_inv in Hc.
    rewrite He in Hc. destruct Hc as (Hab & Hr & Hinv).
    split_and!; [by apply (delivered_complete l _ _ Hinv)| |].
    + intros m Hm. by apply (submit_inv l Hab _ Hr Hl).
    + intros n Hn. by apply (pump_inv l Hab _ Hr Hl).
  - intros target Hf. by apply (renew_inv l Hl).
Qed.

(** ** A run

    The client connects, sends two messages and reconnects when the server has read
    twenty times; on the second connection it sends a third one, which arrives. *)
Definition sample_listener : machine TcpListener sim :=
  (listener_bind (MkIpEndpoint "127.0.0.1" 9000) 16
     (MkMachine (new_tcp_listener default_io_options) sim_start [])).2.

Definition sample_session : session sim :=
  MkSession
    (MkLink (new_tcp_stream default_io_options default_reconnect_policy) None
       (new_stream default_limits) (os sample_listener) [] [])
    (self sample_listener) None [].

Definition submit_step (m : Message) (s : session sim) : session sim :=
  (on_link (submit (EM:=Model) default_limits m) s).2.
Definition pump_steps (k : nat) (s : session sim) : session sim :=
  Nat.iter k (λ s, (on_link (pump (EM:=Model) 8) s).2) s.
Definition renew_step (target : option IpEndpoint) (s : session sim) : session sim :=
  (renew (EM:=Model) default_limits target s).2.

Definition later_message : Message :=
  MkMessage (version_ sample_message) (type_ sample_message) 43 (flags_ sample_message)
    (extensions_ sample_message) (payload_ sample_message).

Definition sample_connected : session sim :=
  renew_step (Some (MkIpEndpoint "127.0.0.1" 9000)) sample_session.
Definition sample_busy : session sim :=
  submit_step sample_message (submit_step sample_message sample_connected).
Definition sample_first : session sim := pump_steps 20 sample_busy.
Definition sample_reconnected : session sim := renew_step None sample_first.
Definition sample_second : session sim :=
  pump_steps 30 (submit_step later_message sample_reconnected).

(** A call on the connection in use is a step. *)
Lemma on_link_step {EM : ErrorModel} {W} {G : SocketGhost W} {P : SocketPlatform W} {N : TcpNetwork G P}
    {A} l (f : method (link W) (TransportError + error_type) A) a b s :
  ends s = Some (a, b) → link_step (a:=a) (b:=b) l (current s) (f (current s)).2 →
  session_step l s (on_link f s).2 ∧ ends (on_link f s).2 = Some (a, b).
Proof.
  intros He Hf. pose proof (step_link l a b s _ He Hf) as Hs. unfold on_link.
  destruct (f (current s)) as [r c]. done.
Qed.

Lemma submit_step_ok m s s' a b :
  message_wf m → rtc (session_step (EM:=Model) default_limits) s s' → ends s' = Some (a, b) →
  rtc (session_step (EM:=Model) default_limits) s (submit_step m s') ∧
  ends (submit_step m s') = Some (a, b).
Proof.
  intros Hm Hs He.
  destruct (on_link_step (EM:=Model) default_limits (submit (EM:=Model) default_limits m) a b s' He)
    as [H1 H2]; [by constructor|]. split; [|done]. by eapply rtc_r.
Qed.

Lemma pump_steps_ok k s s' a b :
  rtc (session_step (EM:=Model) default_limits) s s' → ends s' = Some (a, b) →
  rtc (session_step (EM:=Model) default_limits) s (pump_steps k s') ∧
  ends (pump_steps k s') = Some (a, b).
Proof.
  intros Hs He. induction k as [|k [IH1 IH2]]; [done|].
  destruct (on_link_step (EM:=Model) default_limits (pump (EM:=Model) 8) a b (pump_steps k s') IH2)
    as [H1 H2]; [constructor; by_compute|]. split; [|done]. by eapply rtc_r.
Qed.

Lemma renew_step_ok target s s' a b :
  rtc (session_step (EM:=Model) default_limits) s s' → ends (renew_step target s') = Some (a, b) →
  fresh_link a b (network (current (renew_step target s'))) →
  rtc (session_step (EM:=Model) default_limits) s (renew_step target s').
Proof.
  intros Hs He Hf. eapply rtc_r; [done|]. apply step_renew. intros a' b' He'.
  assert (Some (a', b') = Some (a, b)) as [= -> ->] by by rewrite <- He, <- He'. done.
Qed.

Lemma later_message_wf : message_wf later_message.
Proof.
  unfold message_wf, version_wf. split_and!;
    try lazymatch goal with |- Forall _ _ => repeat constructor end; by_compute.
Qed.

Lemma sample_busy_steps :
  rtc (session_step (EM:=Model) default_limits) sample_session sample_busy ∧
  ends sample_busy = Some (4, 5).
Proof.
  pose proof sample_message_wf as Hm.
  assert (rtc (session_step (EM:=Model) default_limits) sample_session sample_connected) as H1.
  { apply (renew_step_ok _ _ _ 4 5); [done|by vm_compute|split_and!; by vm_compute]. }
  destruct (submit_step_ok _ _ _ 4 5 Hm H1) as [H2 E2]; [by vm_compute|].
  exact (submit_step_ok _ _ _ 4 5 Hm H2 E2).
Qed.

Lemma sample_second_steps :
  rtc (session_step (EM:=Model) default_limits) sample_session sample_second.
Proof.
  destruct sample_busy_steps as [H3 E3].
  destruct (pump_steps_ok 20 _ _ 4 5 H3 E3) as [H4 E4].
  assert (rtc (session_step (EM:=Model) default_limits) sample_session sample_reconnected) as H5.
  { apply (renew_step_ok _ _ _ 6 7); [exact H4|by vm_compute|split_and!; by vm_compute]. }
  destruct (submit_step_ok _ _ _ 6 7 later_message_wf H5) as [H6 E6]; [by vm_compute|].
  by destruct (pump_steps_ok 30 _ _ 6 7 H6 E6).
Qed.

Lemma sample_session_start : session_start sample_session.
Proof.
  split; [|by split_and!; [by intros i [= <-]; by_compute|..]].
  split_and!; try (apply (bool_decide_eq_true_1 _); by vm_compute); by_compute.
Qed.

Example tcp_session_at_most_once_witness :
  all_confirmed sample_second = [sample_message; sample_message; later_message] ∧
  all_delivered sample_second = [sample_message; later_message] ∧
  all_delivered sample_second `sublist_of` all_confirmed sample_second ∧
  delivered (current sample_second) = confirmed (current sample_second).
Proof.
  split; [by vm_compute|]. split; [by vm_compute|].
  destruct (tcp_session_at_most_once (EM:=Model) (G:=sim_ghost) default_limits
    sample_session sample_second) as (H1 & _ & _ & H2 & _).
  - apply sim_platform_laws.
  - unfold stream_limits_ok. split_and!; [apply default_limits_wf|by_compute..].
  - apply sample_session_start.
  - apply sample_second_steps.
  - destruct (H2 6 7) as [H3 _]; [by vm_compute|]. cbv zeta in H3.
    split; [exact H1|]. apply H3. by vm_compute.
Defined.

(** Why a connection needs its own decoder: one that is kept over a reconnect completes the
    torn frame with the first bytes of the new connection.  It hands out a message that
    nobody sent, and every later frame of the connection is lost. *)
Example decoder_per_connection_needed :
  let torn := take 40 (frame_wire sample_message) in
  let resumed := push torn;; push (frame_wire later_message) in
  match (resumed;; next (EM:=Model)) (new_stream default_limits) with
  | (Ok (Some m), d) =>
      m ≠ sample_message ∧ m ≠ later_message ∧
      (next (EM:=Model) d).1 = failure (EM:=Model) invalid_magic "protocol frame magic mismatch"
  | _ => False
  end.
Proof. vm_compute. split_and!; [done|done|done]. Qed.
