(* ===== verification/Progress.v ===== *)
(** * Frames over TCP: nothing confirmed is withheld

    The other half of [SessionProps.v].  When the network keeps delivering, a server that
    keeps calling [receive] and [next] has every confirmed message after a number of calls
    that is bounded by the number of bytes under way, whatever ranges it asks for and
    whatever the network does between the calls. *)

From stdpp Require Import prelude gmap sets list strings.
From Stdlib Require Import ZArith Lia.
From S2P Require Import Prelude Errors Types Frame FrameFacts Stream StreamFacts.
From S2P Require Import Transport SocketLogic Tcp TcpFacts Link LinkFacts Session SessionFacts.
From S2P Require Import SocketAddr Posix SimOS TransportProps SessionProps.
Import Protocol.

(** The network delivers: while bytes of the peer are under way, [recv] returns some of them
    before the receive timeout. *)
Class PromptNetwork {W} {G : SocketGhost W} {P : SocketPlatform W} (N : TcpNetwork G P) : Prop := {
  prompt_receive a b s output w :
    live (a:=a) (b:=b) w → sock_value s = b → b ∈ open_handles w →
    in_memory output → output ≠ [] →
    arrived (a:=a) (b:=b) w `prefix_of` sent_bytes w a →
    arrived (a:=a) (b:=b) w ≠ sent_bytes w a →
    ∃ n output' w', receive_socket s output w = (Ok (n, output'), w') ∧ n ≠ 0
}.

Section Progress.
Context {EM : ErrorModel} {W : Type} {G : SocketGhost W} {P : SocketPlatform W}.
Context {N : TcpNetwork G P} (l : Limits) (a b : Z).
Implicit Types s : link W.
Abbreviation got := (arrived (a:=a) (b:=b)).

(** The number of bytes under way. *)
Definition outstanding s : nat := length (sent_bytes (network s) a) - length (got (network s)).

Definition with_network (w : W) s : link W :=
  MkLink (source s) (sink s) (decoder s) w (confirmed s) (delivered s).

(** After at most [k] calls, each of which succeeds, [Q] holds: for every sequence of range
    sizes the decoder has room for, and for everything the network may do in between. *)
Fixpoint within (k : nat) (Q : link W → Prop) s : Prop :=
  Q s ∨
  match k with
  | O => False
  | S k' =>
      ∀ n w, 0 < Z.of_nat n ≤ chunk_limit l → quiet (a:=a) (b:=b) (network s) w →
      let '(r, s') := pump n (with_network w s) in (∃ ms, r = Ok ms) ∧ within k' Q s'
  end.

(** ** One call *)
Context {L : SocketPlatformLaws G P} {PN : PromptNetwork N}.

Lemma tcp_receive_prompt output t (w : W) sl :
  live (a:=a) (b:=b) w → stream_on b t w → connected t = true → in_memory output → output ≠ [] →
  got w `prefix_of` sent_bytes w a → got w ≠ sent_bytes w a →
  ∃ n output' m', tcp_receive output (MkMachine t w sl) = (Ok (n, output'), m') ∧
    self m' = t ∧ sent_bytes (os m') a = sent_bytes w a ∧
    (length (got w) < length (got (os m')))%nat.
Proof.
  intros Hlive Hon Hc Hm Hne Hpre Hmore.
  pose proof (tcp_receive_channel (a:=a) (b:=b) output t w sl Hlive Hon Hm Hpre) as Hch.
  destruct (connected_on b t w Hon Hc) as (i & -> & Hv & Hb & Hop & _).
  destruct (prompt_receive a b (stream_socket i) output w Hlive Hb Hop Hm Hne Hpre Hmore)
    as (n & output' & w' & E & Hn).
  assert (tcp_receive output (MkMachine (S:=TcpStream) (Some i) w sl) = (Ok (n, output'), MkMachine (S:=TcpStream) (Some i) w' sl)) as Er.
  { unfold tcp_receive. rewrite (method_bind_ok get _ _ _ _ Logic.eq_refl). cbn [self].
    rewrite Hc. cbn [negb]. destruct (Z.eqb_spec (len output) 0) as [Hz|_];
      [by apply len_zero_inv in Hz|].
    rewrite (method_bind_ok stream_impl _ _ i (MkMachine (S:=TcpStream) (Some i) w sl)) by done.
    rewrite (method_bind_ok (attempt (sys (receive_socket (stream_socket i) output))) _ _ (inr (n, output'))
      (MkMachine (S:=TcpStream) (Some i) w' sl)) by (unfold attempt, sys; simpl; by rewrite E).
    by rewrite (proj2 (Z.eqb_neq _ _)). }
  rewrite Er in Hch. destruct Hch as (Hself & _ & Hr & Hlen & Hsent & _ & Harr & _).
  exists n, output', (MkMachine (S:=TcpStream) (Some i) w' sl). split_and!; [done..|].
  rewrite Harr, length_app, length_take. unfold len in *. lia.
Qed.

(** The decoder's part of [pump] does not touch the sockets. *)
Definition sockets s : TcpStream * W * list Message := (sink s, network s, confirmed s).

Lemma on_decoder_sockets {A} (f : method StreamDecoder error_type A) :
  leaves sockets (on_decoder (W:=W) f).
Proof. intros s. unfold on_decoder. by destruct (f (decoder s)) as [[| | |] d]. Qed.

(** The call does not fail with an error of the transport. *)
Definition no_transport_error {A} (f : method (link W) (TransportError + error_type) A) : Prop :=
  ∀ s e, (f s).1 ≠ Fail (inl e).

Lemma no_transport_error_bind {A B} (f : method (link W) (TransportError + error_type) A)
    (g : A → method (link W) (TransportError + error_type) B) :
  no_transport_error f → (∀ x, no_transport_error (g x)) → no_transport_error (f ≫= g).
Proof.
  intros Hf Hg s e. specialize (Hf s). unfold mbind, method_bind.
  destruct (f s) as [[x|[e'|e']| |] s']; [apply Hg| |done..]. by destruct (Hf e').
Qed.

Lemma on_decoder_errors {A} (f : method StreamDecoder error_type A) :
  no_transport_error (on_decoder f).
Proof. intros s e. unfold on_decoder. by destruct (f (decoder s)) as [[| | |] d]. Qed.

Context (rest : gset Z).
Hypothesis Hab : a ≠ b.
Hypothesis Hrest : rest ## {[a; b]}.
Hypothesis Hl : stream_limits_ok l.
Abbreviation inv := (link_inv (a:=a) (b:=b) l rest).

(** After a successful [receive], an error could only come from the decoder. *)
Lemma pump_after n s r m' :
  tcp_receive (replicate n Byte.x00) (MkMachine (sink s) (network s) []) = (Ok r, m') →
  (∀ e, (pump n s).1 ≠ Fail (inl e)) ∧ sockets (pump n s).2 = (self m', os m', confirmed s).
Proof.
  intros E. unfold pump.
  erewrite method_bind_ok by (unfold on_sink; by rewrite E). cbn [transport_result].
  set (s1 := MkLink (source s) (self m') (decoder s) (os m') (confirmed s) (delivered s)).
  change (self m', os m', confirmed s) with (sockets s1). split.
  - apply no_transport_error_bind; [apply on_decoder_errors|]. intros _.
    apply no_transport_error_bind; [apply on_decoder_errors|]. by intros ms s2 e.
  - apply leaves_bind; [apply on_decoder_sockets|]. intros _.
    apply leaves_bind; [apply on_decoder_sockets|]. intros ms. by intros s2.
Qed.

Lemma pump_progress n s :
  inv s → connected (sink s) = true → 0 < Z.of_nat n ≤ chunk_limit l → outstanding s ≠ 0%nat →
  ∃ ms s', pump n s = (Ok ms, s') ∧ inv s' ∧ connected (sink s') = true ∧
    confirmed s' = confirmed s ∧ (outstanding s' < outstanding s)%nat.
Proof.
  intros Hi Hc Hn Hout. pose proof (pump_inv l Hab rest Hrest Hl n s Hi ltac:(lia)) as [Hr Hi'].
  assert (max_buffered_bytes l ≤ ptrdiff_max ∧ 0 ≤ max_frame_size l) as [Hmem Hf].
  { destruct Hl as ((_ & _ & _ & [? _] & _) & _ & ?). done. }
  destruct (tcp_receive_prompt (replicate n Byte.x00) (sink s) (network s) [] (inv_live _ _ _ Hi)
    (inv_sink _ _ _ Hi) Hc) as (k & output & m' & Er & Hself & Hsent & Hlt).
  - unfold in_memory, len, chunk_limit in *. rewrite length_replicate. lia.
  - destruct n; [lia|done].
  - apply Hi.
  - unfold outstanding in Hout. intros E. by rewrite E, Nat.sub_diag in Hout.
  - destruct (pump_after n s (k, output) m' Er) as [Hno Hs]. destruct (pump n s) as [r s'].
    simpl in *. injection Hs as Hsink Hnet Hcf. exists (match r with Ok ms => ms | _ => [] end), s'.
    split_and!; [|done|by rewrite Hsink, Hself|done|].
    + destruct r as [ms|[e|e]| |]; [done| |done..]. by destruct (Hno e).
    + unfold outstanding. rewrite Hnet, Hsent. unfold outstanding in Hout. lia.
Qed.

(** ** All of them *)
Lemma outstanding_zero s : inv s → outstanding s = 0%nat → got (network s) = sent_bytes (network s) a.
Proof.
  intros Hi Hz. destruct (inv_prefix _ _ _ Hi) as [later Hlater]. unfold outstanding in Hz.
  rewrite Hlater, length_app in Hz. destruct later as [|x later]; [by rewrite Hlater, app_nil_r|].
  simpl in Hz. lia.
Qed.

Lemma drains k s :
  inv s → connected (sink s) = true → (outstanding s ≤ k)%nat →
  within k (λ s', delivered s' = confirmed s ∧ confirmed s' = confirmed s ∧
                  connected (sink s') = true ∧ outstanding s' = 0%nat) s.
Proof.
  revert s. induction k as [|k IH]; intros s Hi Hc Hk.
  all: destruct (decide (outstanding s = 0%nat)) as [Hz|Hz].
  1, 3: left; split_and!; [|done..]; by apply (delivered_complete l _ _ Hi), outstanding_zero.
  { lia. }
  right. intros n w Hn Hq. pose proof (network_inv l rest s w Hi Hq) as Hiw.
  fold (with_network w s) in Hiw. destruct Hq as [[_ Hs] [_ Ha]].
  assert (outstanding (with_network w s) = outstanding s) as Ho.
  { unfold outstanding. simpl. by rewrite Hs, Ha. }
  destruct (pump_progress n (with_network w s) Hiw Hc Hn) as (ms & s' & -> & Hi' & Hc' & Hcf & Hlt);
    [by rewrite Ho|]. split; [by exists ms|].
  simpl in Hcf. rewrite <- Hcf. apply IH; [done|done|lia].
Qed.
End Progress.

(** ** The simulated network delivers *)
Lemma sim_prompt : PromptNetwork sim_network.
Proof.
  split. intros a b s output w Hlive Hs Hop Hm Hne [later Hlater] Hmore. simpl in Hlater, Hmore, Hlive.
  unfold sim_live in Hlive. change (receive_socket s output w) with (posix_receive_socket (C:=sim_posix) s output w).
  unfold posix_receive_socket, call, mbind, method_bind.
  rewrite (native_open (PL:=sim_posix_laws) s w) by by rewrite Hs. rewrite Hs. cbn [sys_recv sim_posix].
  unfold sim_recv. rewrite Hlive, Hlater, drop_app_length.
  destruct later as [|x later]; [by rewrite app_nil_r in Hlater|]. destruct output as [|y output]; [done|].
  assert (1 ≤ Z.min 3 (Z.min (len (y :: output)) INT_MAX) ≤ 3) as Hr.
  { rewrite len_cons. pose proof (len_nonneg output). unfold INT_MAX. lia. }
  destruct (Z.to_nat (Z.min 3 (Z.min (len (y :: output)) INT_MAX))) as [|k] eqn:Ek; [lia|].
  cbn [take]. assert (1 ≤ len (x :: take k later) ≤ 3) as Hlen.
  { unfold len. cbn [length]. rewrite length_take. lia. }
  destruct (Z.ltb_spec (len (x :: take k later)) 0); [lia|].
  do 3 eexists. split; [done|]. rewrite wrap_small by lia. lia.
Qed.

(** ** Property *)

(** C7. Nothing confirmed is withheld: on a network that delivers the bytes under way, in
    every state that a client and a server can reach, over any number of reconnects, a
    server whose stream is connected has delivered every message that the client has
    confirmed on the connection after at most as many calls of [receive] as there are bytes
    under way.  Each of the calls succeeds, for every choice of range sizes that the decoder
    has room for and whatever the network does in between, and the connection stays up: no
    timeout, protocol error or full buffer can come first.  The client's retry policy is
    one whose delays can be doubled in 64 bits. *)
Theorem tcp_session_delivers {EM : ErrorModel} {W} {G : SocketGhost W} {P : SocketPlatform W}
    {N : TcpNetwork G P} (l : Limits) (s0 s : session W) a b :
  SocketPlatformLaws G P → PromptNetwork N → stream_limits_ok l →
  session_start s0 → rtc (session_step l) s0 s →
  ends s = Some (a, b) → connected (sink (current s)) = true →
  within l a b (outstanding a b (current s))
    (λ c, delivered c = confirmed (current s) ∧ confirmed c = confirmed (current s) ∧
          connected (sink c) = true ∧ outstanding a b c = 0%nat) (current s).
Proof.
  intros L PN Hl Hstart Hsteps He Hc.
  pose proof (session_steps_inv l Hl s0 s (start_session_inv l s0 Hstart) Hsteps) as Hi.
  pose proof (inv_connection _ _ Hi) as Hcon. unfold connection_inv in Hcon. rewrite He in Hcon.
  destruct Hcon as (Hab & Hr & Hinv). by apply (drains l a b _ Hab Hr Hl).
Qed.

(** Two messages of 53 bytes are under way. *)
Example tcp_session_delivers_witness :
  delivered (current sample_busy) = [] ∧ outstanding 4 5 (current sample_busy) = 106%nat ∧
  within (EM:=Model) default_limits 4 5 (outstanding 4 5 (current sample_busy))
    (λ c, delivered c = confirmed (current sample_busy) ∧
          confirmed c = confirmed (current sample_busy) ∧
          connected (sink c) = true ∧ outstanding 4 5 c = 0%nat) (current sample_busy).
Proof.
  split; [by vm_compute|]. split; [by vm_compute|].
  apply (tcp_session_delivers (EM:=Model) (G:=sim_ghost) default_limits sample_session sample_busy 4 5).
  - apply sim_platform_laws.
  - apply sim_prompt.
  - unfold stream_limits_ok. split_and!; [apply default_limits_wf|by_compute..].
  - apply sample_session_start.
  - apply sample_busy_steps.
  - apply sample_busy_steps.
  - by vm_compute.
Defined.
