(* ===== verification/AddressLoops.v ===== *)
(** * Trying the resolved addresses

    [TcpStream::connect], [TcpListener::bind] and [UdpSocket::bind] each contain a loop
    over the resolved addresses.  The reference definition [first_usable] says what such
    a loop is for: take the first address that can be opened, and report the error of the
    last one when none can.  The three loops are instances of it. *)

From stdpp Require Import prelude gmap sets list strings.
From Stdlib Require Import ZArith Lia.
From S2P Require Import Prelude Transport Tcp Udp SocketAddr Posix Windows SimOS TransportProps.

(** ** The reference *)
Section Reference.
Context {W : Type} {P : SocketPlatform W}.
Abbreviation OS := (method W TransportError).

(** Give the socket up when a step of its preparation fails. *)
Definition or_close {A} (s : NativeSocket) (f : OS A) : OS A := λ w,
  match f w with
  | (Fail e, w') => (close_socket s;; lift (Fail e)) w'
  | r => r
  end.

(** The ways to make an address usable. *)
Definition open_connected (options : IoOptions) (address : NativeAddress) : OS NativeSocket :=
  s ← create_socket address stream_type;
  or_close s (apply_options s options;; connect_socket s address);;
  mret s.

Definition open_listening (backlog : Z) (address : NativeAddress) : OS NativeSocket :=
  s ← create_socket address stream_type;
  or_close s (set_reuse_address s;; bind_socket s address;; listen_socket s backlog);;
  mret s.

Definition open_bound (options : IoOptions) (address : NativeAddress) : OS NativeSocket :=
  s ← create_socket address datagram_type;
  or_close s (apply_options s options;; bind_socket s address);;
  mret s.

(** The first address that can be opened; [last] is the error of the one before. *)
Fixpoint first_usable (open : NativeAddress → OS NativeSocket) (addresses : list NativeAddress)
    (last : TransportError) : OS (NativeAddress * NativeSocket) := λ w,
  match addresses with
  | [] => (Fail last, w)
  | address :: rest =>
      match open address w with
      | (Ok s, w') => (Ok (address, s), w')
      | (Fail e, w') => first_usable open rest e w'
      | (UB, w') => (UB, w')
      | (NoFuel, w') => (NoFuel, w')
      end
  end.

(** Every address of the list was refused in turn, from [w] to [w'], and [e] is the
    error of the last one ([e0] when there is none). *)
Inductive refused (open : NativeAddress → OS NativeSocket) :
    list NativeAddress → TransportError → W → TransportError → W → Prop :=
| refused_none e w : refused open [] e w e w
| refused_one address rest e0 e1 e w w1 w' :
    open address w = (Fail e1, w1) → refused open rest e1 w1 e w' →
    refused open (address :: rest) e0 w e w'.

(** Store the socket in the object. *)
Definition install {S} (store : NativeAddress → NativeSocket → S → S)
    (f : OS (NativeAddress * NativeSocket)) : method (machine S W) TransportError unit :=
  r ← sys f; set_self (store r.1 r.2).

Lemma first_usable_inv open addresses e0 w :
  match first_usable open addresses e0 w with
  | (Ok (address, s), w') =>
      ∃ before after e1 w1, addresses = before ++ address :: after ∧
        refused open before e0 w e1 w1 ∧ open address w1 = (Ok s, w')
  | (Fail e, w') => refused open addresses e0 w e w'
  | _ => True
  end.
Proof.
  revert e0 w. induction addresses as [|address rest IH]; intros e0 w; simpl; [constructor|].
  destruct (open address w) as [[s|e| |] w1] eqn:E; [| |done..].
  - exists [], rest, e0, w. by split_and!; [|constructor|].
  - specialize (IH e w1). destruct (first_usable open rest e w1) as [[[a s]|e'| |] w']; [| |done..].
    + destruct IH as (before & after & e1 & w2 & -> & Hr & Ho).
      exists (address :: before), after, e1, w2. split_and!; [done|by econstructor|done].
    + by econstructor.
Qed.

(** ** The loops of the library *)

(** [close_socket] is [void] and [noexcept]. *)
Definition close_total : Prop := ∀ s (w : W), ∃ s' w', close_socket s w = (Ok s', w').

Hypothesis Hclose : close_total.

(** One step of the symbolic execution of both sides. *)
Ltac next_call :=
  match goal with
  | |- context [create_socket ?x ?y ?w] => destruct (create_socket x y w) as [[|?| |] ?]; try done
  | |- context [apply_options ?x ?y ?w] => destruct (apply_options x y w) as [[|?| |] ?]; try done
  | |- context [set_reuse_address ?x ?w] => destruct (set_reuse_address x w) as [[|?| |] ?]; try done
  | |- context [bind_socket ?x ?y ?w] => destruct (bind_socket x y w) as [[|?| |] ?]; try done
  | |- context [listen_socket ?x ?y ?w] => destruct (listen_socket x y w) as [[|?| |] ?]; try done
  | |- context [connect_socket ?x ?y ?w] => destruct (connect_socket x y w) as [[|?| |] ?]; try done
  | |- context [close_socket ?x ?w] => destruct (Hclose x w) as (? & ? & ->)
  end; simpl; auto.

(** Both sides make the same calls on the same states. *)
Ltac same_calls := simpl in *; repeat next_call.

Lemma connect_loop_first_usable options addresses last m :
  connect_loop options addresses last m =
  install (λ _, with_stream_socket) (first_usable (open_connected options) addresses
    (default (MkTransportError net_connect_failed 0 "no usable TCP endpoint was resolved") last)) m.
Proof.
  revert last m. induction addresses as [|address rest IH]; intros last [t w sl];
    [by destruct last|].
  pose proof (λ e w, IH (Some e) (MkMachine t w sl)) as IH'. clear IH.
  simpl. unfold install, open_connected, or_close, sys, attempt, mbind, method_bind, lift in *. same_calls.
Qed.

Lemma listen_loop_first_usable backlog addresses last m :
  listen_loop backlog addresses last m =
  install (λ _, with_listener_socket) (first_usable (open_listening backlog) addresses
    (default (MkTransportError net_bind_failed 0 "no usable TCP bind endpoint was resolved") last)) m.
Proof.
  revert last m. induction addresses as [|address rest IH]; intros last [t w sl];
    [by destruct last|].
  pose proof (λ e w, IH (Some e) (MkMachine t w sl)) as IH'. clear IH.
  simpl. unfold install, open_listening, or_close, sys, attempt, mbind, method_bind, lift in *. same_calls.
Qed.

Lemma udp_bind_loop_first_usable options addresses last m :
  udp_bind_loop options addresses last m =
  install (λ address s, with_udp_socket s (addr_family address))
    (first_usable (open_bound options) addresses
      (default (MkTransportError net_bind_failed 0 "no usable UDP bind endpoint was resolved") last)) m.
Proof.
  revert last m. induction addresses as [|address rest IH]; intros last [t w sl];
    [by destruct last|].
  pose proof (λ e w, IH (Some e) (MkMachine t w sl)) as IH'. clear IH.
  simpl. unfold install, open_bound, or_close, sys, attempt, mbind, method_bind, lift in *. same_calls.
Qed.
End Reference.

(** ** Property *)

(** C22. The three address loops are one: [connect], the listener's [bind] and the UDP
    [bind] behave as [first_usable] over the resolved addresses in their order, and
    [first_usable] does what its name says: a success is the first address whose socket
    could be created and prepared, every address before it having been refused (and its
    socket closed) in turn; a failure means that every address was refused, and reports
    the error of the last one, or the loop's own error for an empty list. *)
Theorem address_loops_first_usable {W} {P : SocketPlatform W} options backlog addresses
    (t : machine TcpStream W) (k : machine TcpListener W) (u : machine UdpSocket W) open e0 (w : W) :
  close_total (W:=W) →
  (connect_loop options addresses None t =
     install (λ _, with_stream_socket) (first_usable (open_connected options) addresses
       (MkTransportError net_connect_failed 0 "no usable TCP endpoint was resolved")) t ∧
   listen_loop backlog addresses None k =
     install (λ _, with_listener_socket) (first_usable (open_listening backlog) addresses
       (MkTransportError net_bind_failed 0 "no usable TCP bind endpoint was resolved")) k ∧
   udp_bind_loop options addresses None u =
     install (λ address s, with_udp_socket s (addr_family address))
       (first_usable (open_bound options) addresses
         (MkTransportError net_bind_failed 0 "no usable UDP bind endpoint was resolved")) u) ∧
  match first_usable open addresses e0 w with
  | (Ok (address, s), w') =>
      ∃ before after e1 w1, addresses = before ++ address :: after ∧
        refused open before e0 w e1 w1 ∧ open address w1 = (Ok s, w')
  | (Fail e, w') => refused open addresses e0 w e w'
  | _ => True
  end.
Proof.
  intros Hc. split_and!.
  - by rewrite (connect_loop_first_usable Hc).
  - by rewrite (listen_loop_first_usable Hc).
  - by rewrite (udp_bind_loop_first_usable Hc).
  - apply first_usable_inv.
Qed.

Lemma posix_close_total {W} {C : PosixCalls W} : close_total (W:=W) (P:=posix_platform).
Proof.
  intros s w. simpl. unfold posix_close_socket, call, mbind, method_bind, mret, method_ret.
  destruct (negb _); [by eexists _, _|]. destruct (sys_shutdown _ w) as [? w1].
  destruct (sys_close _ w1) as [? w2]. by eexists _, _.
Qed.

(** On the simulated system IPv6 cannot be reached: its socket, handle 3, is closed and
    the stream gets the IPv4 socket, handle 4. *)
Definition sample_addresses : list NativeAddress :=
  match (posix_resolve (MkIpEndpoint "localhost" 9000) stream_type false sim_start).1 with
  | Ok l => l
  | _ => []
  end.

Definition sample_outcome :=
  first_usable (open_connected default_io_options) sample_addresses
    (MkTransportError net_connect_failed 0 "no usable TCP endpoint was resolved") sim_start.

Example address_loops_first_usable_witness :
  addr_family <$> sample_addresses = [AF_INET6; AF_INET] ∧
  (∃ r, sample_outcome.1 = Ok r ∧ addr_family r.1 = AF_INET ∧ r.2 = MkNativeSocket 4) ∧
  match sample_outcome with
  | (Ok (address, s), w') =>
      ∃ before after e1 w1, sample_addresses = before ++ address :: after ∧
        refused (open_connected default_io_options) before
          (MkTransportError net_connect_failed 0 "no usable TCP endpoint was resolved") sim_start e1 w1 ∧
        open_connected default_io_options address w1 = (Ok s, w')
  | (Fail e, w') =>
      refused (open_connected default_io_options) sample_addresses
        (MkTransportError net_connect_failed 0 "no usable TCP endpoint was resolved") sim_start e w'
  | _ => True
  end.
Proof.
  split; [by vm_compute|]. split; [eexists; by vm_compute|].
  apply (address_loops_first_usable (P:=posix_platform) default_io_options 16 sample_addresses
    (MkMachine None sim_start []) (MkMachine None sim_start []) (MkMachine None sim_start [])
    (open_connected default_io_options)
    (MkTransportError net_connect_failed 0 "no usable TCP endpoint was resolved") sim_start).
  apply posix_close_total.
Defined.
