(* ===== verification/UdpCache.v ===== *)
(** * The destination cache of UDP

    [UdpSocket] remembers the last destination it sent to and its address.  To say what
    the cache must not do, the platform is instrumented: [traced_platform] makes the same
    calls and records every successful resolution and every datagram.  The theorem is that
    a call of [send_to] never uses an address that resolution did not give for the very
    endpoint of the call, however many binds, closes, failures and other destinations
    came before. *)

From stdpp Require Import prelude gmap sets list strings.
From Stdlib Require Import ZArith Lia.
From S2P Require Import Prelude Transport Udp UdpFacts SocketAddr Posix Windows SimOS TransportProps.

(** ** A platform that keeps a record *)
Inductive event :=
| Looked (endpoint : IpEndpoint) (addresses : list NativeAddress)
| Sent (address : NativeAddress) (payload : list byte).

Record traced (W : Type) := MkTraced { inner : W; trace : list event }.
Arguments MkTraced {W}.
Arguments inner {W}.
Arguments trace {W}.

Section Traced.
Context {W : Type} {P : SocketPlatform W}.

Definition recorded {A} (f : method W TransportError A) (events : outcome TransportError A → list event) :
    method (traced W) TransportError A := λ t,
  let '(r, w') := f (inner t) in (r, MkTraced w' (trace t ++ events r)).

Definition unrecorded {A} (f : method W TransportError A) : method (traced W) TransportError A := λ t,
  let '(r, w') := f (inner t) in (r, MkTraced w' (trace t)).

#[export] Instance traced_platform : SocketPlatform (traced W) := {|
  resolve e type passive :=
    recorded (resolve e type passive) (λ r, match r with Ok l => [Looked e l] | _ => [] end);
  to_endpoint a := unrecorded (to_endpoint a);
  create_socket a type := unrecorded (create_socket a type);
  apply_options s o := unrecorded (apply_options s o);
  set_reuse_address s := unrecorded (set_reuse_address s);
  connect_socket s a := unrecorded (connect_socket s a);
  bind_socket s a := unrecorded (bind_socket s a);
  listen_socket s n := unrecorded (listen_socket s n);
  accept_socket s := unrecorded (accept_socket s);
  local_address s := unrecorded (local_address s);
  send_socket s l := unrecorded (send_socket s l);
  receive_socket s l := unrecorded (receive_socket s l);
  send_datagram s a payload := recorded (send_datagram s a payload) (λ _, [Sent a payload]);
  receive_datagram s l := unrecorded (receive_datagram s l);
  close_socket s := unrecorded (close_socket s)
|}.

(** ** Histories of a socket *)
Abbreviation M := (method (machine UdpSocket (traced W)) TransportError).

Inductive udp_op :=
| UdpBind (endpoint : IpEndpoint)
| UdpSendTo (endpoint : IpEndpoint) (payload : list byte)
| UdpReceive (maximum_size : Z)
| UdpLocal
| UdpClose.

Definition udp_call (op : udp_op) : M unit :=
  match op with
  | UdpBind e => udp_bind e
  | UdpSendTo e payload => udp_send_to e payload;; mret tt
  | UdpReceive n => udp_receive n;; mret tt
  | UdpLocal => udp_local_endpoint;; mret tt
  | UdpClose => udp_close
  end.

Inductive udp_history (options : IoOptions) : machine UdpSocket (traced W) → Prop :=
| history_start w : udp_history options (MkMachine (new_udp_socket options) (MkTraced w []) [])
| history_call m op : udp_history options m → udp_history options (udp_call op m).2.

(** ** The invariant *)
Definition cache (u : UdpSocket) : option (option IpEndpoint * option NativeAddress) :=
  (λ i, (cached_endpoint i, cached_address i)) <$> u.

(** Resolution gave the address for the endpoint. *)
Definition justified (e : IpEndpoint) (a : NativeAddress) (t : list event) : Prop :=
  ∃ l, Looked e l ∈ t ∧ a ∈ l.

Definition cache_ok (m : machine UdpSocket (traced W)) : Prop :=
  ∀ i, self m = Some i →
    match cached_endpoint i, cached_address i with
    | Some e, Some a => justified e a (trace (os m))
    | None, None => True
    | _, _ => False
    end.

Lemma justified_mono e a t t' : justified e a t → justified e a (t ++ t').
Proof. intros (l & Hl & Ha). exists l. split; [apply elem_of_app; by left|done]. Qed.

(** The record grows and the cache stays. *)
Lemma cache_ok_grow m m' events :
  cache_ok m → trace (os m') = trace (os m) ++ events → cache (self m') = cache (self m) → cache_ok m'.
Proof.
  intros Hm Ht Hc i Hi. rewrite Ht. rewrite Hi in Hc. unfold cache in Hc.
  destruct (self m) as [j|] eqn:Hj; [|done]. simpl in Hc. injection Hc as -> ->.
  specialize (Hm j Hj). destruct (cached_endpoint j), (cached_address j); [|done..].
  by apply justified_mono.
Qed.

(** ** Calls that record nothing and keep the cache *)
Definition footprint (m : machine UdpSocket (traced W)) := (trace (os m), cache (self m)).

Lemma silent_sys {A} (f : method W TransportError A) : leaves footprint (sys (unrecorded f)).
Proof. intros m. unfold sys, unrecorded. by destruct (f (inner (os m))). Qed.

Lemma silent_socket s family : leaves footprint (set_self (with_udp_socket s family)).
Proof. intros [[i|] w sl]; done. Qed.
End Traced.

Abbreviation silent := (leaves footprint).
#[export] Hint Resolve silent_sys silent_socket : leaves.

Section Facts.
Context {W : Type} {P : SocketPlatform W}.
Implicit Types m : machine UdpSocket (traced W).

Lemma udp_impl_silent : silent (udp_impl (W:=traced W)).
Proof. unfold udp_impl. leaves. Qed.
#[local] Hint Resolve udp_impl_silent : leaves.

Lemma udp_close_silent : silent (udp_close (W:=traced W)).
Proof. unfold udp_close. leaves. Qed.

Lemma udp_bind_loop_silent options addresses last :
  silent (udp_bind_loop options addresses last).
Proof. revert last. induction addresses; intros; simpl; leaves. Qed.

Lemma ensure_open_silent a : silent (ensure_open a).
Proof. unfold ensure_open. leaves. Qed.

Lemma udp_receive_silent n : silent (udp_receive n).
Proof. unfold udp_receive. leaves. Qed.

Lemma udp_local_silent : silent (udp_local_endpoint (W:=traced W)).
Proof. unfold udp_local_endpoint. leaves. Qed.

Lemma silent_inv {A} (f : method (machine UdpSocket (traced W)) TransportError A) m :
  silent f → trace (os (f m).2) = trace (os m) ∧ cache (self (f m).2) = cache (self m).
Proof. intros Hf. by injection (Hf m). Qed.

(** ** Histories keep the invariant *)
Lemma silent_cache_ok {A} (f : method (machine UdpSocket (traced W)) TransportError A) m :
  silent f → cache_ok m → cache_ok (f m).2.
Proof.
  intros Hf Hm. destruct (silent_inv f m Hf). by eapply (cache_ok_grow m _ []); [|rewrite app_nil_r|].
Qed.

Lemma discard_state {A} (f : method (machine UdpSocket (traced W)) TransportError A) m :
  ((f;; mret tt) m).2 = (f m).2.
Proof. unfold mbind, method_bind. by destruct (f m) as [[| | |] ?]. Qed.

Lemma udp_bind_cache_ok e m : cache_ok m → cache_ok (udp_bind e m).2.
Proof.
  intros Hm. unfold udp_bind. rewrite (method_bind_ok get _ m m m) by done.
  destruct (self (S:=option UdpImpl) m) as [i|]; [|exact Hm]. destruct (_ || _); [exact Hm|].
  pose proof (silent_cache_ok udp_close m udp_close_silent Hm) as Hm1.
  unfold mbind at 1, method_bind at 1. destruct (udp_close m) as [[| | |] m1]; [|exact Hm1..]. simpl in Hm1.
  unfold mbind at 1, method_bind at 1. unfold sys. cbn [resolve traced_platform]. unfold recorded.
  destruct (resolve e datagram_type true (inner (os m1))) as [[l| | |] w'];
    [apply silent_cache_ok; [apply udp_bind_loop_silent|]|..];
    (eapply (cache_ok_grow m1); [done|simpl; reflexivity|done]).
Qed.

(** What a call of [send_to] records. *)
Definition sends (payload : list byte) (addresses : list NativeAddress) (events : list event) : Prop :=
  Forall (λ ev, ∃ a, ev = Sent a payload ∧ a ∈ addresses) events.

Lemma sends_nil payload addresses : sends payload addresses [].
Proof. constructor. Qed.

(** A call that recorded nothing and did not succeed. *)
Lemma no_sends {A} payload addresses m m' (r : outcome TransportError A) :
  cache_ok m' → trace (os m') = trace (os m) → (∀ n, r ≠ Ok n) →
  cache_ok m' ∧ ∃ events, trace (os m') = trace (os m) ++ events ∧ sends payload addresses events ∧
    ∀ n, r = Ok n → ∃ before a, events = before ++ [Sent a payload].
Proof.
  intros Hm Ht Hr. split; [done|]. exists []. rewrite app_nil_r. split_and!; [done|apply sends_nil|].
  intros n Hn. by destruct (Hr n).
Qed.

(** One datagram. *)
Lemma send_datagram_trace i a payload m :
  self m = Some i →
  ∃ r w, sys (send_datagram (udp_socket i) a payload) m =
    (r, MkMachine (Some i) (MkTraced w (trace (os m) ++ [Sent a payload])) (slept m)).
Proof.
  intros Hi. unfold sys. cbn [send_datagram traced_platform]. unfold recorded. rewrite Hi.
  destruct (send_datagram (udp_socket i) a payload (inner (os m))) as [r w]. by exists r, w.
Qed.

Lemma send_to_loop_trace e payload all addresses last m :
  cache_ok m → Looked e all ∈ trace (os m) → addresses ⊆ all →
  let '(r, m') := send_to_loop e payload addresses last m in
  cache_ok m' ∧ ∃ events, trace (os m') = trace (os m) ++ events ∧ sends payload all events ∧
    ∀ n, r = Ok n → ∃ before a, events = before ++ [Sent a payload].
Proof.
  revert last m. induction addresses as [|a rest IH]; intros last m Hm Hl Hsub; cbn [send_to_loop].
  { destruct last; by apply no_sends. }
  assert (a ∈ all) as Ha by (apply Hsub; by left).
  assert (rest ⊆ all) as Hrest by (intros x Hx; apply Hsub; by right).
  pose proof (silent_cache_ok _ m (ensure_open_silent a) Hm) as Hm1.
  destruct (silent_inv _ m (ensure_open_silent a)) as [Ht1 _]. unfold mbind, method_bind, attempt.
  destruct (ensure_open a m) as [[[]|e1| |] m1]; simpl in Hm1, Ht1; [| |by apply no_sends..].
  2:{ specialize (IH (Some e1) m1 Hm1). rewrite Ht1 in IH. by apply IH. }
  rewrite udp_impl_run. destruct (self m1) as [i|] eqn:Hi; [|by apply no_sends].
  destruct (send_datagram_trace i a payload m1 Hi) as (r & w & ->). rewrite Ht1.
  set (t2 := trace (os m) ++ [Sent a payload]).
  assert (cache_ok (MkMachine (Some i) (MkTraced w t2) (slept m1))) as Hm2.
  { eapply (cache_ok_grow m1 _ [Sent a payload]); [done|by rewrite Ht1|by rewrite Hi]. }
  assert (sends payload all [Sent a payload]) as Hone by (constructor; [by exists a|constructor]).
  destruct r as [n|e2| |].
  - split.
    + intros j [= <-]. simpl. apply justified_mono. by exists all.
    + exists [Sent a payload]. split_and!; [done|done|]. intros _ _. by exists [], a.
  - specialize (IH (Some e2) _ Hm2). simpl in IH.
    destruct (send_to_loop e payload rest (Some e2) _) as [r m'].
    destruct IH as (Hm' & events & Ht & Hev & Hok); [by apply elem_of_app; left|done|].
    split; [done|]. exists (Sent a payload :: events).
    split_and!; [by rewrite Ht; unfold t2; rewrite <- app_assoc|by apply (Forall_app_2 _ [_])|].
    intros n Hn. destruct (Hok n Hn) as (before & b & ->). by exists (Sent a payload :: before), b.
  - split; [done|]. by exists [Sent a payload].
  - split; [done|]. by exists [Sent a payload].
Qed.

(** What a whole call guarantees. *)
Definition sends_right (e : IpEndpoint) (payload : list byte) (hit : bool)
    (r : outcome TransportError Z) (before after events : list event) : Prop :=
  after = before ++ events ∧
  (∀ a p, Sent a p ∈ events → p = payload ∧ justified e a after) ∧
  (∀ n, r = Ok n → ∃ earlier a, events = earlier ++ [Sent a payload]) ∧
  (hit = true → ∀ e' l, Looked e' l ∉ events).

Definition cache_hit (e : IpEndpoint) (u : UdpSocket) : bool :=
  bool_decide ((u ≫= cached_endpoint) = Some e).

(** Nothing was sent or resolved. *)
Lemma sends_right_nil e payload hit (r : outcome TransportError Z) t :
  (∀ n, r ≠ Ok n) → sends_right e payload hit r t t [].
Proof.
  intros Hr. split_and!; [by rewrite app_nil_r|by intros a p ?%not_elem_of_nil| |].
  - intros n Hn. by destruct (Hr n).
  - by intros _ e' l ?%not_elem_of_nil.
Qed.

Lemma cached_send_trace e payload a m :
  cache_ok m → justified e a (trace (os m)) →
  let '(r, m') := (ensure_open a;; i ← udp_impl; sys (send_datagram (udp_socket i) a payload)) m in
  cache_ok m' ∧ ∃ events, sends_right e payload true r (trace (os m)) (trace (os m')) events.
Proof.
  intros Hm Ha. pose proof (silent_cache_ok _ m (ensure_open_silent a) Hm) as Hm1.
  destruct (silent_inv _ m (ensure_open_silent a)) as [Ht1 _]. unfold mbind, method_bind.
  destruct (ensure_open a m) as [[[]|e1| |] m1]; simpl in Hm1, Ht1;
    [|split; [done|]; exists []; rewrite Ht1; by apply sends_right_nil..].
  rewrite udp_impl_run. destruct (self m1) as [i|] eqn:Hi;
    [|split; [done|]; exists []; rewrite Ht1; by apply sends_right_nil].
  destruct (send_datagram_trace i a payload m1 Hi) as (r & w & ->). rewrite Ht1. split.
  - eapply (cache_ok_grow m1 _ [Sent a payload]); [done|by rewrite Ht1|by rewrite Hi].
  - exists [Sent a payload]. split_and!; [done| |by intros; exists [], a|].
    + intros b p [= -> ->]%list_elem_of_singleton. split; [done|]. by apply justified_mono.
    + by intros _ e' l ?%list_elem_of_singleton.
Qed.

Lemma resolved_send_trace e payload hit m :
  cache_ok m → hit = false →
  let '(r, m') := (addresses ← sys (resolve e datagram_type false);
                   send_to_loop e payload addresses None) m in
  cache_ok m' ∧ ∃ events, sends_right e payload hit r (trace (os m)) (trace (os m')) events.
Proof.
  intros Hm ->. unfold mbind, method_bind, sys. cbn [resolve traced_platform]. unfold recorded.
  destruct (resolve e datagram_type false (inner (os m))) as [[l|e1| |] w1].
  2-4: split; [by eapply (cache_ok_grow m _ [])|];
       exists []; simpl; rewrite app_nil_r; by apply sends_right_nil.
  set (m1 := MkMachine (self m) (MkTraced w1 (trace (os m) ++ [Looked e l])) (slept m)).
  pose proof (send_to_loop_trace e payload l l None m1) as Hloop.
  destruct (send_to_loop e payload l None m1) as [r m']. destruct Hloop as (Hm' & events & Ht & Hev & Hok);
    [by eapply (cache_ok_grow m _ [Looked e l])|apply elem_of_app; right; by left|done|].
  split; [done|]. exists (Looked e l :: events). simpl in Ht.
  split_and!; [by rewrite Ht, <- app_assoc| | |done].
  - intros a p [?|Hin]%elem_of_cons; [done|]. unfold sends in Hev. rewrite Forall_forall in Hev.
    destruct (Hev _ Hin) as (b & [= -> ->] & Hb). split; [done|]. exists l. split; [|done].
    rewrite Ht. apply elem_of_app. left. apply elem_of_app. right. by left.
  - intros n Hn. destruct (Hok n Hn) as (earlier & a & ->). by exists (Looked e l :: earlier), a.
Qed.

Lemma udp_send_to_trace e payload m :
  cache_ok m →
  let '(r, m') := udp_send_to e payload m in
  cache_ok m' ∧ ∃ events,
    sends_right e payload (cache_hit e (self m)) r (trace (os m)) (trace (os m')) events.
Proof.
  intros Hm. unfold udp_send_to. rewrite (method_bind_ok get _ m m m) by done.
  destruct (self (S:=option UdpImpl) m) as [i|] eqn:Hi.
  2:{ split; [exact Hm|]. exists []. by apply sends_right_nil. }
  destruct (_ || _); [split; [exact Hm|]; exists []; by apply sends_right_nil|].
  destruct (_ <? _); [split; [exact Hm|]; exists []; by apply sends_right_nil|].
  pose proof (Hm i Hi) as Hc. assert (self m = Some i) as Hi' by exact Hi.
  unfold cache_hit. rewrite Hi'. simpl.
  destruct (bool_decide_reflect (cached_endpoint i = Some e)) as [He|He].
  - rewrite He in Hc. destruct (cached_address i) as [a|]; [|done]. by apply cached_send_trace.
  - by apply resolved_send_trace.
Qed.

Lemma udp_history_cache_ok options m : udp_history options m → cache_ok m.
Proof.
  induction 1 as [w|m op Hh IH]; [by intros i [= <-]|]. destruct op as [e|e payload|n| |]; cbn [udp_call].
  - by apply udp_bind_cache_ok.
  - rewrite discard_state. pose proof (udp_send_to_trace e payload m IH) as H.
    destruct (udp_send_to e payload m). apply H.
  - rewrite discard_state. by apply silent_cache_ok; [apply udp_receive_silent|].
  - rewrite discard_state. by apply silent_cache_ok; [apply udp_local_silent|].
  - by apply silent_cache_ok; [apply udp_close_silent|].
Qed.
End Facts.

(** ** Property *)

(** C23. The cache never misdirects a datagram: after any history of calls on a UDP socket,
    on any platform, every datagram that [send_to] hands to the system carries the payload
    of the call and goes to an address that a resolution of the endpoint of the call has
    returned; a success means that the last thing the call did was such a datagram; and
    when the endpoint is the one remembered, no name is resolved at all. *)
Theorem udp_cache_sound {W} {P : SocketPlatform W} options (m : machine UdpSocket (traced W)) e payload :
  udp_history options m →
  let '(r, m') := udp_send_to e payload m in
  ∃ events,
    trace (os m') = trace (os m) ++ events ∧
    (∀ a p, Sent a p ∈ events → p = payload ∧ ∃ l, Looked e l ∈ trace (os m') ∧ a ∈ l) ∧
    (∀ n, r = Ok n → ∃ earlier a, events = earlier ++ [Sent a payload]) ∧
    ((self m ≫= cached_endpoint) = Some e → ∀ e' l, Looked e' l ∉ events).
Proof.
  intros Hh. pose proof (udp_send_to_trace e payload m (udp_history_cache_ok options m Hh)) as H.
  destruct (udp_send_to e payload m) as [r m']. destruct H as (_ & events & Ht & Hs & Hok & Hhit).
  exists events. split_and!; [done..|]. intros He. apply Hhit. unfold cache_hit. by apply bool_decide_true.
Qed.

(** A socket sent once and was closed: the second call to the same destination opens it
    again and sends without a resolution. *)
Definition sample_destination : IpEndpoint := MkIpEndpoint "127.0.0.1" 9000.

Definition sample_history : machine UdpSocket (traced sim) :=
  (udp_call UdpClose (udp_call (UdpSendTo sample_destination (bytes_of [7; 8]))
    (MkMachine (new_udp_socket default_io_options) (MkTraced sim_start []) [])).2).2.

Example udp_cache_sound_witness :
  length (trace (os sample_history)) = 2%nat ∧
  (self sample_history ≫= cached_endpoint) = Some sample_destination ∧
  (udp_send_to sample_destination (bytes_of [1]) sample_history).1 = Ok 1 ∧
  let '(r, m') := udp_send_to sample_destination (bytes_of [1]) sample_history in
  ∃ events,
    trace (os m') = trace (os sample_history) ++ events ∧
    (∀ a p, Sent a p ∈ events → p = bytes_of [1] ∧
       ∃ l, Looked sample_destination l ∈ trace (os m') ∧ a ∈ l) ∧
    (∀ n, r = Ok n → ∃ earlier a, events = earlier ++ [Sent a (bytes_of [1])]) ∧
    ((self sample_history ≫= cached_endpoint) = Some sample_destination →
     ∀ e' l, Looked e' l ∉ events).
Proof.
  split; [by vm_compute|]. split; [by vm_compute|]. split; [by vm_compute|].
  apply (udp_cache_sound default_io_options sample_history).
  do 2 apply history_call. apply history_start.
Defined.
