(* ===== verification/Datagrams.v ===== *)
(** * Datagrams are whole

    What UDP promises of the datagrams on their way, as the system calls document it, and
    what the two platform layers make of it: a datagram is sent as a whole or not at all,
    and a received one is handed out as a whole or refused, never truncated.  POSIX reports
    the size of a datagram that did not fit ([MSG_TRUNC]) and WinSock the error
    [WSAEMSGSIZE]; both become [datagram_too_large]. *)

From stdpp Require Import prelude gmap sets list strings.
From Stdlib Require Import ZArith Lia.
From S2P Require Import Prelude Transport SocketAddr Posix Windows SimOS.

(** [posted] are the datagrams that were ever sent to the receivers, by anybody: what
    arrives is one of them.  UDP may lose, repeat and reorder them. *)
Class DatagramNetwork {W} (P : SocketPlatform W) (posted : W → list (list byte)) : Prop := {
  net_resolve e t passive : leaves posted (resolve e t passive);
  net_to_endpoint a : leaves posted (to_endpoint a);
  net_create_socket a t : leaves posted (create_socket a t);
  net_apply_options s o : leaves posted (apply_options s o);
  net_set_reuse_address s : leaves posted (set_reuse_address s);
  net_connect_socket s a : leaves posted (connect_socket s a);
  net_bind_socket s a : leaves posted (bind_socket s a);
  net_listen_socket s n : leaves posted (listen_socket s n);
  net_accept_socket s : leaves posted (accept_socket s);
  net_local_address s : leaves posted (local_address s);
  net_send_socket s bytes : leaves posted (send_socket s bytes);
  net_receive_socket s output : leaves posted (receive_socket s output);
  net_close_socket s : leaves posted (close_socket s);
  net_send_datagram s a payload w :
    len payload ≤ 65507 →
    match send_datagram s a payload w with
    | (Ok n, w') => n = len payload ∧ posted w' = posted w ++ [payload]
    | (_, w') => posted w' = posted w
    end;
  net_receive_datagram s output w :
    0 < len output ≤ 65507 →
    let '(r, w') := receive_datagram s output w in
    posted w' = posted w ∧
    match r with
    | Ok (r, output') =>
        ∃ d, d ∈ posted w ∧ received_size r = len d ∧ take (length d) output' = d
    | Fail e => net_code e = net_datagram_too_large → ∃ d, d ∈ posted w ∧ len output < len d
    | _ => True
    end
}.

#[export] Hint Resolve net_resolve net_to_endpoint net_create_socket net_apply_options
  net_set_reuse_address net_connect_socket net_bind_socket net_listen_socket net_accept_socket
  net_local_address net_send_socket net_receive_socket net_close_socket : leaves.

(** ** The system calls *)
Class PosixDatagrams {W} (C : PosixCalls W) (posted : W → list (list byte)) : Prop := {
  posted_getaddrinfo host service hints : leaves posted (sys_getaddrinfo host service hints);
  posted_freeaddrinfo entries : leaves posted (sys_freeaddrinfo entries);
  posted_getnameinfo storage size : leaves posted (sys_getnameinfo storage size);
  posted_socket family type protocol : leaves posted (sys_socket family type protocol);
  posted_setsockopt fd option : leaves posted (sys_setsockopt fd option);
  posted_connect fd storage size : leaves posted (sys_connect fd storage size);
  posted_bind fd storage size : leaves posted (sys_bind fd storage size);
  posted_listen fd backlog : leaves posted (sys_listen fd backlog);
  posted_accept fd : leaves posted (sys_accept fd);
  posted_getsockname fd : leaves posted (sys_getsockname fd);
  posted_send fd data : leaves posted (sys_send fd data);
  posted_recv fd output requested : leaves posted (sys_recv fd output requested);
  posted_shutdown fd : leaves posted (sys_shutdown fd);
  posted_close fd : leaves posted (sys_close fd);
  posted_sendto fd data storage size w :
    let '(n, w') := sys_sendto fd data storage size w in
    if n <? 0 then posted w' = posted w else n = len data ∧ posted w' = posted w ++ [data];
  (** with [MSG_TRUNC]: the real size, and as much of the datagram as fits *)
  posted_recvfrom fd output w :
    let '((n, output', storage, size), w') := sys_recvfrom fd output w in
    posted w' = posted w ∧
    (0 ≤ n → ∃ d, d ∈ posted w ∧ in_memory d ∧ n = len d ∧
       take (length output) d = take (length d) output')
}.

Class WindowsDatagrams {W} (C : WindowsCalls W) (posted : W → list (list byte)) : Prop := {
  wposted_WSAStartup : leaves posted ws_WSAStartup;
  wposted_getaddrinfo host service hints : leaves posted (ws_getaddrinfo host service hints);
  wposted_freeaddrinfo entries : leaves posted (ws_freeaddrinfo entries);
  wposted_getnameinfo storage size : leaves posted (ws_getnameinfo storage size);
  wposted_socket family type protocol : leaves posted (ws_socket family type protocol);
  wposted_setsockopt v option : leaves posted (ws_setsockopt v option);
  wposted_connect v storage size : leaves posted (ws_connect v storage size);
  wposted_bind v storage size : leaves posted (ws_bind v storage size);
  wposted_listen v backlog : leaves posted (ws_listen v backlog);
  wposted_accept v : leaves posted (ws_accept v);
  wposted_getsockname v : leaves posted (ws_getsockname v);
  wposted_send v data : leaves posted (ws_send v data);
  wposted_recv v output requested : leaves posted (ws_recv v output requested);
  wposted_shutdown v : leaves posted (ws_shutdown v);
  wposted_closesocket v : leaves posted (ws_closesocket v);
  wposted_sendto v data storage size w :
    let '(n, w') := ws_sendto v data storage size w in
    if n =? SOCKET_ERROR then posted w' = posted w
    else n = len data ∧ posted w' = posted w ++ [data];
  (** a datagram that does not fit is the error [WSAEMSGSIZE] *)
  wposted_recvfrom v output size w :
    0 ≤ size ≤ len output →
    let '((n, output', storage, address_size), w') := ws_recvfrom v output size w in
    posted w' = posted w ∧
    if n =? SOCKET_ERROR then
      WSAGetLastError w' = WSAEMSGSIZE → ∃ d, d ∈ posted w ∧ size < len d
    else ∃ d, d ∈ posted w ∧ len d ≤ size ∧ n = len d ∧ take (length d) output' = d
}.

#[export] Hint Resolve posted_getaddrinfo posted_freeaddrinfo posted_getnameinfo posted_socket
  posted_setsockopt posted_connect posted_bind posted_listen posted_accept posted_getsockname
  posted_send posted_recv posted_shutdown posted_close : leaves.
#[export] Hint Resolve wposted_WSAStartup wposted_getaddrinfo wposted_freeaddrinfo
  wposted_getnameinfo wposted_socket wposted_setsockopt wposted_connect wposted_bind
  wposted_listen wposted_accept wposted_getsockname wposted_send wposted_recv wposted_shutdown
  wposted_closesocket : leaves.

Lemma leaves_call {W V A} (g : W → V) (f : W → A * W) : leaves g f → leaves g (call f).
Proof. intros Hf w. specialize (Hf w). unfold call. by destruct (f w). Qed.
#[export] Hint Resolve leaves_call : leaves.

(** Copying an address reports no error. *)
Lemma copy_address_no_error a size e : copy_address a size ≠ Fail e.
Proof.
  unfold copy_address, memcpy. repeat case_match; simplify_eq; done.
Qed.

(** ** POSIX *)
Section Posix.
Context {W : Type} {C : PosixCalls W} {posted : W → list (list byte)} {D : PosixDatagrams C posted}.

Lemma posix_fail_leaves {A} code operation : leaves posted (posix_fail (A:=A) code operation).
Proof. done. Qed.
#[local] Hint Resolve posix_fail_leaves : leaves.

Lemma set_timeout_leaves s option timeout : leaves posted (set_timeout s option timeout).
Proof. unfold set_timeout. leaves. Qed.
#[local] Hint Resolve set_timeout_leaves : leaves.

Lemma posix_send_datagram_whole s a payload w :
  len payload ≤ 65507 →
  match posix_send_datagram s a payload w with
  | (Ok n, w') => n = len payload ∧ posted w' = posted w ++ [payload]
  | (_, w') => posted w' = posted w
  end.
Proof.
  intros Hl. unfold posix_send_datagram, call, mbind, method_bind.
  pose proof (posted_sendto (native s) payload (addr_storage a) (wrap 32 (addr_size a)) w) as Hs.
  destruct (sys_sendto _ _ _ _ w) as [n w']. destruct (n <? 0); [done|].
  destruct Hs as [-> Hp]. unfold mret, method_ret. rewrite wrap_small by len_lia. done.
Qed.

Lemma posix_receive_datagram_whole s output w :
  let '(r, w') := posix_receive_datagram s output w in
  posted w' = posted w ∧
  match r with
  | Ok (r, output') => ∃ d, d ∈ posted w ∧ received_size r = len d ∧ take (length d) output' = d
  | Fail e => net_code e = net_datagram_too_large → ∃ d, d ∈ posted w ∧ len output < len d
  | _ => True
  end.
Proof.
  unfold posix_receive_datagram, call, mbind, method_bind.
  pose proof (posted_recvfrom (native s) output w) as Hr.
  destruct (sys_recvfrom _ _ w) as [[[[n output'] storage] size] w']. destruct Hr as [Hp Hd].
  destruct (Z.ltb_spec n 0); [done|]. destruct (Hd ltac:(done)) as (d & Hin & Hm & -> & Hd').
  rewrite wrap_small by len_lia.
  destruct (Z.ltb_spec (len output) (len d)); [split; [done|]; intros _; by exists d|].
  rewrite take_ge in Hd' by (unfold len in *; lia). unfold lift.
  destruct (copy_address storage size) as [remote|e| |] eqn:Ec; split; try done.
  - by exists d.
  - by destruct (copy_address_no_error storage size e).
Qed.

Lemma posix_datagrams : DatagramNetwork posix_platform posted.
Proof.
  split; intros; simpl;
    try (unfold posix_resolve, posix_to_endpoint, posix_create_socket, posix_apply_options,
           posix_set_reuse_address, posix_connect_socket, posix_bind_socket, posix_listen_socket,
           posix_accept_socket, posix_local_address, posix_send_socket, posix_receive_socket,
           posix_close_socket; leaves; fail).
  - by apply posix_send_datagram_whole.
  - apply posix_receive_datagram_whole.
Qed.
End Posix.

(** ** WinSock *)
Section Windows.
Context {W : Type} {C : WindowsCalls W} {posted : W → list (list byte)} {D : WindowsDatagrams C posted}.

(** The datagrams of the operating system, seen from the process. *)
Definition win_posted (w : win_process W) : list (list byte) := posted (win_os w).

Lemma leaves_ws_call {A} (f : W → A * W) : leaves posted f → leaves win_posted (ws_call f).
Proof. intros Hf w. specialize (Hf (win_os w)). unfold ws_call. by destruct (f (win_os w)). Qed.

Lemma win_fail_leaves {A} code operation : leaves win_posted (win_fail (A:=A) code operation).
Proof. done. Qed.

Lemma set_runtime_leaves status :
  leaves win_posted (modify (E:=TransportError) (λ w, MkProcess (Some status) (win_os w))).
Proof. done. Qed.
#[local] Hint Resolve leaves_ws_call win_fail_leaves set_runtime_leaves : leaves.

Lemma initialize_network_leaves : leaves win_posted initialize_network.
Proof. unfold initialize_network, runtime_status. leaves. Qed.

Lemma win_set_timeout_leaves s option timeout : leaves win_posted (win_set_timeout s option timeout).
Proof. unfold win_set_timeout. leaves. Qed.
#[local] Hint Resolve initialize_network_leaves win_set_timeout_leaves : leaves.

Lemma win_send_datagram_whole s a payload w :
  len payload ≤ 65507 →
  match win_send_datagram s a payload w with
  | (Ok n, w') => n = len payload ∧ win_posted w' = win_posted w ++ [payload]
  | (_, w') => win_posted w' = win_posted w
  end.
Proof.
  intros Hl. unfold win_send_datagram, ws_call, mbind, method_bind.
  rewrite (to_int_small (len payload)), take_ge by (unfold INT_MAX, len in *; lia).
  pose proof (wposted_sendto (win_native s) payload (addr_storage a) (to_int (addr_size a)) (win_os w)) as Hs.
  destruct (ws_sendto _ _ _ _ _) as [n o]. destruct (n =? SOCKET_ERROR); [done|].
  destruct Hs as [-> Hp]. unfold mret, method_ret. rewrite wrap_small by len_lia. done.
Qed.

Lemma win_receive_datagram_whole s output w :
  0 < len output ≤ 65507 →
  let '(r, w') := win_receive_datagram s output w in
  win_posted w' = win_posted w ∧
  match r with
  | Ok (r, output') =>
      ∃ d, d ∈ win_posted w ∧ received_size r = len d ∧ take (length d) output' = d
  | Fail e => net_code e = net_datagram_too_large → ∃ d, d ∈ win_posted w ∧ len output < len d
  | _ => True
  end.
Proof.
  intros Hl. unfold win_receive_datagram, ws_call, mbind, method_bind.
  rewrite (to_int_small (len output)) by (unfold INT_MAX; lia).
  pose proof (wposted_recvfrom (win_native s) output (len output) (win_os w) ltac:(lia)) as Hr.
  destruct (ws_recvfrom _ _ _ _) as [[[[n output'] storage] size] o]. destruct Hr as [Hp Hd].
  destruct (n =? SOCKET_ERROR).
  - unfold get. cbn [win_os]. destruct (Z.eqb_spec (WSAGetLastError o) WSAEMSGSIZE) as [He|];
      (split; [done|]); [intros _; by apply Hd|done].
  - destruct Hd as (d & Hin & Hfit & -> & Hd). unfold lift, win_copy_address. rewrite (wrap_small 64 (len d)) by len_lia.
    destruct (copy_address _ _) as [remote|e| |] eqn:Ec; split; try done.
    + by exists d.
    + by destruct (copy_address_no_error _ _ _ Ec).
Qed.

Lemma windows_datagrams : DatagramNetwork windows_platform win_posted.
Proof.
  split; intros; simpl;
    try (unfold win_resolve, win_to_endpoint, win_create_socket, win_apply_options,
           win_set_reuse_address, win_connect_socket, win_bind_socket, win_listen_socket,
           win_accept_socket, win_local_address, win_send_socket, win_receive_socket,
           win_close_socket; leaves; fail).
  - by apply win_send_datagram_whole.
  - by apply win_receive_datagram_whole.
Qed.
End Windows.

Arguments win_posted {W} posted w.

(** ** The simulated system *)
Lemma sim_new_mail refused : leaves sim_mail (sim_new refused).
Proof. intros w. unfold sim_new. by case_bool_decide. Qed.

Lemma sim_accept_mail refused : leaves sim_mail (sim_accept refused).
Proof.
  intros w. unfold sim_accept. destruct (sim_waiting w); [done|].
  pose proof (sim_new_mail refused w). destruct (sim_new refused w) as [h w']. by destruct (_ =? _).
Qed.

Lemma sim_recv_mail h output requested : leaves sim_mail (sim_recv h output requested).
Proof. intros w. unfold sim_recv. repeat case_match; done. Qed.

Lemma sim_sendto_mail h data storage size w :
  let '(n, w') := sim_sendto h data storage size w in
  if n <? 0 then sim_mail w' = sim_mail w else n = len data ∧ sim_mail w' = sim_mail w ++ [data].
Proof.
  unfold sim_sendto. destruct (_ && _); [|done]. by rewrite (proj2 (Z.ltb_ge _ _)) by apply len_nonneg.
Qed.

Lemma sim_datagram_posted w d : sim_datagram w = Some d → d ∈ sim_mail w ∧ len d ≤ 65507.
Proof.
  unfold sim_datagram. destruct (sim_mail w !! sim_taken w) as [d'|] eqn:E; simpl; [|done].
  destruct (Z.leb_spec (len d') 65507); [|done]. intros [= <-].
  split; [by eapply list_elem_of_lookup_2|done].
Qed.

Lemma sim_write_prefix d output :
  take (length d) (sim_write d output) = take (length output) d.
Proof.
  unfold sim_write. destruct (decide (length d ≤ length output)%nat) as [Hl|Hl].
  - rewrite (take_ge d) by lia. apply take_app_length.
  - rewrite (drop_ge output), app_nil_r, take_take by lia. f_equal. lia.
Qed.

Lemma sim_posix_datagrams : PosixDatagrams sim_posix sim_mail.
Proof.
  split; intros; try done.
  - apply sim_new_mail.
  - intros w. simpl. unfold sim_connect. by case_bool_decide.
  - intros w. simpl. pose proof (sim_accept_mail (-1) w). by destruct (sim_accept (-1) w).
  - apply sim_recv_mail.
  - apply sim_sendto_mail.
  - simpl. unfold sim_recvfrom. destruct (sim_datagram w) as [d|] eqn:E; [|split; [done|lia]].
    apply sim_datagram_posted in E as [Hin Hl]. split; [done|]. intros _. exists d.
    split_and!; [done|len_lia|done|symmetry; apply sim_write_prefix].
Qed.

Lemma sim_windows_datagrams : WindowsDatagrams sim_windows sim_mail.
Proof.
  split; intros; try done.
  - apply sim_new_mail.
  - intros w. simpl. unfold sim_connect. by case_bool_decide.
  - intros w. simpl. pose proof (sim_accept_mail INVALID_SOCKET w). by destruct (sim_accept _ w).
  - apply sim_recv_mail.
  - cbn [ws_sendto sim_windows]. pose proof (sim_sendto_mail v data storage size w) as Hs.
    pose proof (sim_sendto_ok v data storage size w) as Hn. destruct (sim_sendto _ _ _ _ w) as [n w'].
    destruct Hn as [Hn _]. unfold SOCKET_ERROR.
    destruct (Z.ltb_spec n 0), (Z.eqb_spec n (-1)); (done || lia).
  - simpl. unfold sim_ws_recvfrom. destruct (sim_datagram w) as [d|] eqn:E; [|done].
    apply sim_datagram_posted in E as [Hin Hl].
    destruct (Z.ltb_spec size (len d)); [split; [done|]; intros _; by exists d|].
    split; [done|]. rewrite (proj2 (Z.eqb_neq _ _)) by (unfold SOCKET_ERROR; len_lia).
    exists d. split_and!; [done..|]. apply sim_write_whole. lia.
Qed.

(** ** Property *)

(** C18. Neither platform truncates: when the system calls behave as documented, with
    [MSG_TRUNC] on POSIX and [WSAEMSGSIZE] on WinSock, [send_datagram] sends the whole payload
    or nothing, [receive_datagram] returns a datagram that was sent with all its bytes, and it
    reports [datagram_too_large] only for one that is larger than the buffer; no other
    function of the platform layers sends a datagram. *)
Theorem datagrams_whole_or_refused {W} (posted : W → list (list byte))
    {PC : PosixCalls W} {WC : WindowsCalls W} :
  (PosixDatagrams PC posted → DatagramNetwork posix_platform posted) ∧
  (WindowsDatagrams WC posted → DatagramNetwork windows_platform (win_posted posted)).
Proof. split; intros; [by apply posix_datagrams|by apply windows_datagrams]. Qed.

Example datagrams_whole_or_refused_witness :
  DatagramNetwork (W:=sim) posix_platform sim_mail ∧
  DatagramNetwork (W:=win_process sim) windows_platform (win_posted sim_mail).
Proof.
  destruct (datagrams_whole_or_refused sim_mail (PC:=sim_posix) (WC:=sim_windows)) as [H1 H2].
  split; [apply H1, sim_posix_datagrams|apply H2, sim_windows_datagrams].
Defined.
