(* ===== verification/ReceiveQueues.v ===== *)
(** * Receive queues

    A UDP socket has a queue of datagrams that have arrived; a receive takes the first one,
    waiting for it when there is none, and more may arrive at any time.  This is what the
    system calls promise about the queue, and what [receive_datagram] of the two platform
    layers and [UdpSocket::receive] make of it. *)

From stdpp Require Import prelude gmap sets list strings.
From Stdlib Require Import ZArith Lia.
From S2P Require Import Prelude Transport Udp UdpFacts SocketAddr Posix Windows SimOS Datagrams.

(** More datagrams may have arrived. *)
Definition grows (before after : list (list byte)) : Prop :=
  ∃ arrived, after = before ++ arrived.

(** The first datagram was [d], and it is gone. *)
Definition takes (before : list (list byte)) (d : list byte) (after : list (list byte)) : Prop :=
  ∃ arrived, before ++ arrived = d :: after.

#[export] Instance grows_preorder : PreOrder grows.
Proof.
  split.
  - intros q. exists []. by rewrite app_nil_r.
  - intros q1 q2 q3 [a ->] [b ->]. exists (a ++ b). by rewrite app_assoc.
Qed.

Lemma takes_grows q d q1 q2 : takes q d q1 → grows q1 q2 → takes q d q2.
Proof. intros [a Ha] [b ->]. exists (a ++ b). by rewrite app_assoc, Ha. Qed.

(** What is taken from a queue that was not empty is its first datagram. *)
Lemma takes_cons d0 q d q' : takes (d0 :: q) d q' → d = d0 ∧ grows q q'.
Proof. intros [a [= -> <-]]. split; [done|by exists a]. Qed.

(** ** The interface

    [queued w s] are the datagrams that wait on the socket [s]. *)
Class DatagramQueue {W} (P : SocketPlatform W) (queued : W → NativeSocket → list (list byte)) : Prop := {
  queue_receive s output w :
    0 < len output ≤ 65507 →
    match receive_datagram s output w with
    | (Ok (r, output'), w') =>
        ∃ d, takes (queued w s) d (queued w' s) ∧ received_size r = len d ∧
          take (length d) output' = d
    | _ => True
    end;
  queue_to_endpoint a w s : grows (queued w s) (queued (to_endpoint a w).2 s)
}.

(** ** The system calls *)
Class PosixQueue {W} (C : PosixCalls W) (queued : W → Z → list (list byte)) : Prop := {
  queue_recvfrom fd output w :
    let '((n, output', storage, size), w') := sys_recvfrom fd output w in
    0 ≤ n →
    ∃ d, takes (queued w fd) d (queued w' fd) ∧ in_memory d ∧ n = len d ∧
      take (length output) d = take (length d) output';
  queue_getnameinfo storage size w fd :
    grows (queued w fd) (queued (sys_getnameinfo storage size w).2 fd)
}.

Class WindowsQueue {W} (C : WindowsCalls W) (queued : W → Z → list (list byte)) : Prop := {
  wqueue_recvfrom v output size w :
    0 ≤ size ≤ len output →
    let '((n, output', storage, address_size), w') := ws_recvfrom v output size w in
    n ≠ SOCKET_ERROR →
    ∃ d, takes (queued w v) d (queued w' v) ∧ len d ≤ size ∧ n = len d ∧
      take (length d) output' = d;
  wqueue_getnameinfo storage size w v :
    grows (queued w v) (queued (ws_getnameinfo storage size w).2 v)
}.

Lemma posix_queue {W} {C : PosixCalls W} (queued : W → Z → list (list byte)) :
  PosixQueue C queued → DatagramQueue posix_platform (λ w s, queued w (native s)).
Proof.
  intros Q. split.
  - intros s output w _. cbn [receive_datagram posix_platform].
    unfold posix_receive_datagram, call, mbind, method_bind.
    pose proof (queue_recvfrom (native s) output w) as Hr.
    destruct (sys_recvfrom _ _ w) as [[[[n output'] storage] size] w'].
    destruct (Z.ltb_spec n 0); [done|]. destruct (Hr ltac:(done)) as (d & Ht & Hm & -> & Hd).
    rewrite wrap_small by len_lia. destruct (Z.ltb_spec (len output) (len d)); [done|].
    rewrite take_ge in Hd by (unfold len in *; lia). unfold lift.
    destruct (copy_address storage size); [by exists d|done..].
  - intros a w s. cbn [to_endpoint posix_platform].
    unfold posix_to_endpoint, call, mbind, method_bind.
    pose proof (queue_getnameinfo (addr_storage a) (wrap 32 (addr_size a)) w (native s)) as Hg.
    destruct (sys_getnameinfo _ _ w) as [[[status host] service] w']. simpl in Hg.
    by repeat case_match.
Qed.

Lemma windows_queue {W} {C : WindowsCalls W} (queued : W → Z → list (list byte)) :
  WindowsQueue C queued →
  DatagramQueue windows_platform (λ w s, queued (win_os w) (win_native s)).
Proof.
  intros Q. split.
  - intros s output w Hl. cbn [receive_datagram windows_platform].
    unfold win_receive_datagram, ws_call, mbind, method_bind.
    rewrite (to_int_small (len output)) by (unfold INT_MAX; lia).
    pose proof (wqueue_recvfrom (win_native s) output (len output) (win_os w) ltac:(lia)) as Hr.
    destruct (ws_recvfrom _ _ _ _) as [[[[n output'] storage] size] o].
    destruct (Z.eqb_spec n SOCKET_ERROR); [unfold get; by destruct (_ =? WSAEMSGSIZE)|].
    destruct (Hr ltac:(done)) as (d & Ht & Hfit & -> & Hd). unfold lift, win_copy_address.
    rewrite (wrap_small 64 (len d)) by len_lia.
    destruct (copy_address _ _); [by exists d|done..].
  - intros a w s. cbn [to_endpoint windows_platform].
    unfold win_to_endpoint, ws_call, mbind, method_bind.
    pose proof (wqueue_getnameinfo (addr_storage a) (to_int (addr_size a)) (win_os w) (win_native s)) as Hg.
    destruct (ws_getnameinfo _ _ _) as [[[status host] service] o]. simpl in Hg.
    by repeat case_match.
Qed.

(** ** The simulated system has one queue for all sockets *)
Definition sim_queue (w : sim) (h : Z) : list (list byte) := drop (sim_taken w) (sim_mail w).

Lemma sim_datagram_takes w d h :
  sim_datagram w = Some d → takes (sim_queue w h) d (sim_queue (sim_take w) h).
Proof.
  unfold sim_datagram. destruct (sim_mail w !! sim_taken w) as [d'|] eqn:E; simpl; [|done].
  destruct (len d' <=? 65507); [|done]. intros [= <-]. exists []. rewrite app_nil_r.
  unfold sim_queue. simpl. by apply drop_S.
Qed.

Lemma sim_posix_queue : PosixQueue sim_posix sim_queue.
Proof.
  split; [|by intros]. intros fd output w. simpl. unfold sim_recvfrom.
  destruct (sim_datagram w) as [d|] eqn:E; [|lia]. intros _. exists d.
  pose proof (sim_datagram_posted w d E) as [_ Hl].
  split_and!; [by apply sim_datagram_takes|len_lia|done|symmetry; apply sim_write_prefix].
Qed.

Lemma sim_windows_queue : WindowsQueue sim_windows sim_queue.
Proof.
  split; [|by intros]. intros v output size w Hs. simpl. unfold sim_ws_recvfrom.
  destruct (sim_datagram w) as [d|] eqn:E; [|done].
  destruct (Z.ltb_spec size (len d)); [done|]. intros _. exists d.
  split_and!; [by apply sim_datagram_takes|done|done|]. apply sim_write_whole. lia.
Qed.

(** ** [UdpSocket::receive] *)
Lemma resize_whole d output : take (length d) output = d → resize output (len d) = d.
Proof.
  intros Ht. unfold resize, len. rewrite Nat2Z.id, Ht.
  assert (length d ≤ length output)%nat.
  { apply (f_equal length) in Ht. rewrite length_take in Ht. lia. }
  replace (length d - length output)%nat with 0%nat by lia. by rewrite app_nil_r.
Qed.

(** A successful call returns the first datagram of the queue and removes it. *)
Lemma udp_receive_takes {W} {P : SocketPlatform W} queued {Q : DatagramQueue P queued}
    n (m : machine UdpSocket W) i :
  self m = Some i → 0 ≤ n →
  match udp_receive n m with
  | (Ok d, m') =>
      takes (queued (os m) (udp_socket i)) (datagram_payload d) (queued (os m') (udp_socket i))
  | _ => True
  end.
Proof.
  intros Hi Hn. unfold udp_receive. rewrite (method_bind_ok get _ m m m) by done.
  destruct (negb _); [done|]. destruct (Z.eqb_spec n 0); [done|].
  destruct (Z.ltb_spec maximum_payload_size n) as [|Hmax]; [done|]. cbn [orb].
  unfold mbind, method_bind. rewrite udp_impl_run, Hi. unfold sys.
  pose proof (queue_receive (udp_socket i) (replicate (Z.to_nat n) Byte.x00) (os m)) as Hr.
  destruct (receive_datagram _ _ (os m)) as [[[rd out]|e| |] w]; [|done..].
  destruct Hr as (d & Ht & Hsize & Hd);
    [unfold len, maximum_payload_size in *; rewrite length_replicate; lia|]. simpl in Hsize, Hd |- *.
  pose proof (queue_to_endpoint (received_remote rd) w (udp_socket i)) as He.
  destruct (to_endpoint (received_remote rd) w) as [[e| | |] w2]; [|done..]. simpl in He |- *.
  rewrite Hsize, resize_whole by done. by eapply takes_grows.
Qed.
