(* ===== verification/Mesh.v ===== *)
(** * One frame per datagram

    The composition [docs/ARCHITECTURE.md] describes for datagram transports: "one complete
    frame".  Any number of transport objects run; a message is encoded and sent with
    [UdpSocket::send_to], and every datagram that [UdpSocket::receive] returns is decoded with
    [FrameCodec::decode].  Other hosts may send anything to the sockets. *)

From stdpp Require Import prelude gmap sets list strings.
From Stdlib Require Import ZArith Lia.
From S2P Require Import Prelude Errors Types Frame FrameFacts StreamFacts.
From S2P Require Import Transport SocketLogic Tcp TcpFacts Udp UdpFacts Sockets SocketsFacts Link Datagrams.
From S2P Require Import ReceiveQueues.
Import Protocol.

(** ** Datagrams sent by the transport objects *)
Section Posted.
Context {W : Type} {P : SocketPlatform W} {posted : W → list (list byte)}.
Context {D : DatagramNetwork P posted}.
Abbreviation quiet_call := (leaves (on_os posted)).

(** TCP sends none. *)
Lemma tcp_close_posted : quiet_call tcp_close.
Proof. unfold tcp_close. leaves. Qed.
#[local] Hint Resolve tcp_close_posted : leaves.

Lemma connect_loop_posted options addresses last : quiet_call (connect_loop options addresses last).
Proof. revert last. induction addresses; intros; simpl; leaves. Qed.
#[local] Hint Resolve connect_loop_posted : leaves.

Lemma tcp_connect_posted e : quiet_call (tcp_connect e).
Proof. unfold tcp_connect. leaves. Qed.
#[local] Hint Resolve tcp_connect_posted : leaves.

Lemma reconnect_loop_posted fuel p e a d last : quiet_call (reconnect_loop fuel p e a d last).
Proof. revert a d last. induction fuel; intros; simpl; leaves. Qed.
#[local] Hint Resolve reconnect_loop_posted : leaves.

Lemma tcp_reconnect_posted : quiet_call tcp_reconnect.
Proof. unfold tcp_reconnect. leaves. Qed.

Lemma tcp_send_posted bytes : quiet_call (tcp_send bytes).
Proof. unfold tcp_send, stream_impl. leaves. Qed.
#[local] Hint Resolve tcp_send_posted : leaves.

Lemma send_all_loop_posted fuel bytes offset : quiet_call (send_all_loop fuel bytes offset).
Proof. revert offset. induction fuel; intros; simpl; leaves. Qed.

Lemma tcp_receive_posted output : quiet_call (tcp_receive output).
Proof. unfold tcp_receive, stream_impl. leaves. Qed.

Lemma listener_close_posted : quiet_call listener_close.
Proof. unfold listener_close. leaves. Qed.
#[local] Hint Resolve listener_close_posted : leaves.

Lemma listen_loop_posted backlog addresses last : quiet_call (listen_loop backlog addresses last).
Proof. revert last. induction addresses; intros; simpl; leaves. Qed.
#[local] Hint Resolve listen_loop_posted : leaves.

Lemma listener_bind_posted e backlog : quiet_call (listener_bind e backlog).
Proof. unfold listener_bind. leaves. Qed.

Lemma listener_accept_posted : quiet_call listener_accept.
Proof. unfold listener_accept, listener_impl. leaves. Qed.

Lemma listener_local_endpoint_posted : quiet_call listener_local_endpoint.
Proof. unfold listener_local_endpoint, listener_impl. leaves. Qed.

(** Nor does UDP, except in [send_to]. *)
Lemma udp_impl_posted : quiet_call udp_impl.
Proof. unfold udp_impl. leaves. Qed.

Lemma udp_close_posted : quiet_call udp_close.
Proof. unfold udp_close. leaves. Qed.
#[local] Hint Resolve udp_impl_posted udp_close_posted : leaves.

Lemma udp_bind_loop_posted options addresses last : quiet_call (udp_bind_loop options addresses last).
Proof. revert last. induction addresses; intros; simpl; leaves. Qed.
#[local] Hint Resolve udp_bind_loop_posted : leaves.

Lemma udp_bind_posted e : quiet_call (udp_bind e).
Proof. unfold udp_bind. leaves. Qed.

Lemma ensure_open_posted a : quiet_call (ensure_open a).
Proof. unfold ensure_open. leaves. Qed.

Lemma udp_local_endpoint_posted : quiet_call udp_local_endpoint.
Proof. unfold udp_local_endpoint. leaves. Qed.

(** A call of [send_to] sends the payload once and as a whole, or it fails and sends
    nothing. *)
Definition posts (payload : list byte) (w : W) (r : outcome TransportError Z) (w' : W) : Prop :=
  match r with
  | Ok n => n = len payload ∧ posted w' = posted w ++ [payload]
  | _ => posted w' = posted w
  end.

Lemma send_datagram_posts {S} s a payload (m : machine S W) :
  len payload ≤ 65507 →
  let '(r, m') := sys (send_datagram s a payload) m in posts payload (os m) r (os m').
Proof.
  intros Hl. pose proof (net_send_datagram s a payload (os m) Hl) as H. unfold sys.
  by destruct (send_datagram s a payload (os m)) as [[| | |] w].
Qed.

Lemma send_to_loop_posts e payload addresses last m :
  len payload ≤ 65507 →
  let '(r, m') := send_to_loop e payload addresses last m in posts payload (os m) r (os m').
Proof.
  intros Hl. revert last m. induction addresses as [|a rest IH]; intros last m; cbn [send_to_loop].
  { by destruct last. }
  pose proof (ensure_open_posted a m) as Hopen. unfold mbind, method_bind, attempt, on_os in *.
  destruct (ensure_open a m) as [[[]|e1| |] m1]; simpl in Hopen; [| |done..].
  2:{ specialize (IH (Some e1) m1). unfold posts in *. by rewrite <- Hopen. }
  rewrite udp_impl_run. destruct (self m1) as [i|]; [|done]. pose proof (send_datagram_posts (udp_socket i) a payload m1 Hl) as Hs.
  unfold posts in Hs |- *. rewrite Hopen in Hs.
  destruct (sys (send_datagram (udp_socket i) a payload) m1) as [[n|e2| |] m2]; [done| |done..].
  specialize (IH (Some e2) m2). unfold posts in IH. by rewrite <- Hs.
Qed.

Lemma udp_send_to_posts e payload m :
  let '(r, m') := udp_send_to e payload m in posts payload (os m) r (os m').
Proof.
  unfold udp_send_to. rewrite (method_bind_ok get _ m m m) by done.
  destruct (self (S:=option UdpImpl) m) as [i|]; [|done]. destruct (_ || _); [done|].
  destruct (Z.ltb_spec maximum_payload_size (len payload)) as [|Hl]; [done|].
  assert (let '(r, m') :=
    (addresses ← sys (resolve e datagram_type false); send_to_loop e payload addresses None) m in
    posts payload (os m) r (os m')) as Hresolved.
  { pose proof (net_resolve e datagram_type false (os m)) as Hr. unfold mbind, method_bind, sys.
    destruct (resolve e datagram_type false (os m)) as [[l| | |] w]; [|done..].
    pose proof (send_to_loop_posts e payload l None (MkMachine (self m) w (slept m)) Hl) as Hs.
    simpl in Hr, Hs. unfold posts in *. by rewrite <- Hr. }
  destruct (bool_decide _); [|done]. destruct (cached_address i) as [a|]; [|done].
  pose proof (ensure_open_posted a m) as Hopen. unfold mbind, method_bind, on_os in *.
  destruct (ensure_open a m) as [[[]|e1| |] m1]; simpl in Hopen; [|done..].
  rewrite udp_impl_run. destruct (self m1) as [j|]; [|done]. pose proof (send_datagram_posts (udp_socket j) a payload m1 Hl) as Hs.
  unfold posts in *. by rewrite <- Hopen.
Qed.

(** A datagram that [receive] returns was sent. *)
Lemma udp_receive_posted n m :
  0 ≤ n →
  let '(r, m') := udp_receive n m in
  posted (os m') = posted (os m) ∧ ∀ d, r = Ok d → datagram_payload d ∈ posted (os m).
Proof.
  intros Hn. unfold udp_receive. rewrite (method_bind_ok get _ m m m) by done.
  destruct (negb _); [done|]. destruct (Z.eqb_spec n 0); [done|].
  destruct (Z.ltb_spec maximum_payload_size n) as [|Hmax]; [done|]. cbn [orb].
  unfold mbind, method_bind. rewrite udp_impl_run. destruct (self m) as [i|]; [|done]. unfold sys.
  pose proof (net_receive_datagram (udp_socket i) (replicate (Z.to_nat n) Byte.x00) (os m)) as Hr.
  destruct (receive_datagram _ _ (os m)) as [[[rd out]|e| |] w]; destruct Hr as [Hp Hd];
    try (unfold len, maximum_payload_size in *; rewrite length_replicate; lia); [|done..].
  destruct Hd as (d & Hin & Hsize & Htake). simpl in Hsize, Htake |- *.
  pose proof (net_to_endpoint (received_remote rd) w) as He.
  destruct (to_endpoint (received_remote rd) w) as [[e| | |] w2]; simpl in He |- *;
    (split; [by rewrite He|]); intros g Hg; [|done..].
  injection Hg as <-. simpl. by rewrite Hsize, resize_whole.
Qed.
End Posted.

(** ** Any other call on the transport objects sends no datagram *)
Section Programs.
Context {W : Type} {P : SocketPlatform W} {posted : W → list (list byte)}.
Context {D : DatagramNetwork P posted}.

Lemma on_stream_posted {A} x (f : method (machine TcpStream W) TransportError A) :
  leaves (on_os posted) f → leaves (on_os posted) (on_stream x f).
Proof.
  intros Hf m. unfold on_stream. destruct (self m !! x) as [[t| |]|]; [|done..].
  specialize (Hf (MkMachine t (os m) (slept m))). by destruct (f _).
Qed.

Lemma on_listener_posted {A} x (f : method (machine TcpListener W) TransportError A) :
  leaves (on_os posted) f → leaves (on_os posted) (on_listener x f).
Proof.
  intros Hf m. unfold on_listener. destruct (self m !! x) as [[|t|]|]; [done| |done..].
  specialize (Hf (MkMachine t (os m) (slept m))). by destruct (f _).
Qed.

Lemma on_udp_posted {A} x (f : method (machine UdpSocket W) TransportError A) :
  leaves (on_os posted) f → leaves (on_os posted) (on_udp x f).
Proof.
  intros Hf m. unfold on_udp. destruct (self m !! x) as [[| |u]|]; [done|done| |done].
  specialize (Hf (MkMachine u (os m) (slept m))). by destruct (f _).
Qed.

Lemma place_posted x o : leaves (on_os posted) (place x o).
Proof. intros m. unfold place. by destruct (self m !! x). Qed.
#[local] Hint Resolve on_stream_posted on_listener_posted on_udp_posted place_posted : leaves.
#[local] Hint Resolve tcp_close_posted tcp_connect_posted tcp_reconnect_posted tcp_send_posted
  send_all_loop_posted tcp_receive_posted listener_close_posted listener_bind_posted
  listener_accept_posted listener_local_endpoint_posted udp_close_posted udp_bind_posted
  udp_local_endpoint_posted : leaves.

Lemma close_object_posted x : leaves (on_os posted) (close_object x).
Proof.
  intros m. unfold close_object.
  destruct (self m !! x) as [[t|t|u]|]; [apply on_stream_posted|apply on_listener_posted|
    apply on_udp_posted|done]; leaves.
Qed.

Lemma destroy_object_posted x : leaves (on_os posted) (destroy_object x).
Proof.
  intros m. unfold destroy_object, tcp_destroy, listener_destroy, udp_destroy.
  destruct (self m !! x) as [[t|t|u]|]; [| | |done]; apply leaves_bind; leaves;
    (apply on_stream_posted || apply on_listener_posted || apply on_udp_posted); leaves.
Qed.

Lemma local_endpoint_posted x : leaves (on_os posted) (local_endpoint x).
Proof.
  intros m. unfold local_endpoint. destruct (self m !! x) as [[t|t|u]|]; [done| | |done];
    [apply on_listener_posted|apply on_udp_posted]; leaves.
Qed.

Lemma move_construct_posted x other : leaves (on_os posted) (move_construct x other).
Proof. intros m. unfold move_construct. by destruct (self m !! x), (self m !! other). Qed.
#[local] Hint Resolve close_object_posted destroy_object_posted local_endpoint_posted
  move_construct_posted : leaves.

Lemma take_implementation_posted x other : leaves (on_os posted) (take_implementation x other).
Proof. unfold take_implementation. leaves. Qed.
#[local] Hint Resolve take_implementation_posted : leaves.

Lemma move_assign_posted x other : leaves (on_os posted) (move_assign x other).
Proof.
  intros m. unfold move_assign, tcp_stream_move_assign, tcp_listener_move_assign,
    udp_socket_move_assign. case_bool_decide.
  all: destruct (self m !! x) as [[]|], (self m !! other) as [[]|]; try done.
  all: apply leaves_bind; [|intros _]; leaves;
    (apply on_stream_posted || apply on_listener_posted || apply on_udp_posted); leaves.
Qed.
#[local] Hint Resolve move_assign_posted : leaves.

(** The calls that neither send nor receive datagrams. *)
Definition no_datagram (op : sock_op) : Prop :=
  match op with SendTo _ _ _ | ReceiveFrom _ _ => False | _ => True end.

Lemma sock_step_posted op : no_datagram op → leaves (on_os posted) (sock_step op).
Proof. intros Hop. destruct op; try done; unfold sock_step; leaves; apply on_stream_posted; leaves. Qed.
End Programs.

(** ** Processes that exchange messages *)

(** [submitted] are the messages whose [send_to] succeeded, [taken] those that were decoded
    from received datagrams, and [strangers] the datagrams of other hosts. *)
Record mesh (W : Type) := MkMesh {
  process : machine store W;
  submitted : list Message;
  taken : list Message;
  strangers : list (list byte)
}.
Arguments MkMesh {W}.
Arguments process {W}.
Arguments submitted {W}.
Arguments taken {W}.
Arguments strangers {W}.

Section Mesh.
Context {EM : ErrorModel} {W : Type} {P : SocketPlatform W} (l : Limits).
Abbreviation M := (method (mesh W) (TransportError + error_type)).

Definition on_process {A} (f : method (machine store W) TransportError A) : M A := λ s,
  let '(r, m) := f (process s) in
  transport_result r (MkMesh m (submitted s) (taken s) (strangers s)).

(** Encode a message and send the frame in one datagram. *)
Definition post (x : nat) (e : IpEndpoint) (m : Message) : M Z :=
  frame ← protocol_call (encode l m);
  n ← on_process (on_udp x (udp_send_to e frame));
  modify (λ s, MkMesh (process s) (submitted s ++ [m]) (taken s) (strangers s));;
  mret n.

(** Receive a datagram of at most [n] bytes and decode the frame. *)
Definition collect (x : nat) (n : Z) : M Message :=
  d ← on_process (on_udp x (udp_receive n));
  m ← protocol_call (decode l (datagram_payload d));
  modify (λ s, MkMesh (process s) (submitted s) (taken s ++ [m]) (strangers s));;
  mret m.

Context {G : SocketGhost W} (posted : W → list (list byte)).

Inductive mesh_step : mesh W → mesh W → Prop :=
| step_post x e m s :
    is_udp (self (process s) !! x) = true → message_wf m → mesh_step s (post x e m s).2
| step_collect x n s :
    is_udp (self (process s) !! x) = true → 0 ≤ n → mesh_step s (collect x n s).2
| step_call op s :
    op_enabled op (self (process s)) → no_datagram op →
    mesh_step s (MkMesh (sock_step op (process s)).2 (submitted s) (taken s) (strangers s))
| step_stranger ds w s :
    keeps (os (process s)) w → posted w = posted (os (process s)) ++ ds →
    mesh_step s
      (MkMesh (MkMachine (self (process s)) w (slept (process s))) (submitted s) (taken s)
         (strangers s ++ ds)).

(** A process without objects; datagrams may be under way. *)
Definition mesh_start (w : W) : mesh W := MkMesh (MkMachine ∅ w []) [] [] (posted w).

(** ** The invariant *)
Record mesh_inv (base : gset Z) (log : Z → list byte) (s : mesh W) : Prop := MkMeshInv {
  mesh_fleet : fleet base log (self (process s)) (os (process s));
  mesh_posted : ∀ d, d ∈ posted (os (process s)) →
    d ∈ strangers s ∨ ∃ m, m ∈ submitted s ∧ sendable l m ∧ d = frame_wire m;
  mesh_taken : ∀ m, m ∈ taken s → m ∈ submitted s ∨ frame_wire m ∈ strangers s
}.
End Mesh.

Section MeshFacts.
Context {EM : ErrorModel} {W : Type} {G : SocketGhost W} {P : SocketPlatform W}.
Context {L : SocketPlatformLaws G P} {posted : W → list (list byte)} {D : DatagramNetwork P posted}.
Context (l : Limits) (base : gset Z) (log : Z → list byte).
Hypothesis Hl : limits_wf l.
Hypothesis Hlv : limits_valid l = true.
Implicit Types s : mesh W.

Abbreviation inv := (mesh_inv l posted base log).

(** What [on_udp] adds to the facts about the socket alone. *)
Lemma on_udp_run {A} x (f : method (machine UdpSocket W) TransportError A) (m : machine store W) u :
  self m !! x = Some (ObjUdp u) →
  on_udp x f m =
    ((f (MkMachine u (os m) (slept m))).1,
     MkMachine (<[x := ObjUdp (self (f (MkMachine u (os m) (slept m))).2)]> (self m))
       (os (f (MkMachine u (os m) (slept m))).2) (slept (f (MkMachine u (os m) (slept m))).2)).
Proof. intros Hx. unfold on_udp. rewrite Hx. by destruct (f _). Qed.

Lemma is_udp_inv o : is_udp o = true → ∃ u, o = Some (ObjUdp u).
Proof. destruct o as [[| |u]|]; try done. by exists u. Qed.

(** Sending from the socket [x]. *)
Lemma on_udp_send x e payload m :
  fleet base log (self m) (os m) → is_udp (self m !! x) = true →
  let '(r, m') := on_udp x (udp_send_to e payload) m in
  fleet base log (self m') (os m') ∧ posts (posted:=posted) payload (os m) r (os m') ∧ defined r.
Proof.
  destruct m as [st w sl]. simpl. intros Hf Hx. destruct (is_udp_inv _ Hx) as [u Hu].
  assert (good_wp base log (on_udp x (udp_send_to e payload)) {[x]} (MkMachine st w sl)) as Hg.
  { apply udp_step_good; [done..|]. intros others log' m Ho.
    eapply wp_mono; [by apply udp_send_to_wp| |]; simpl; intros ? ? H; apply H. }
  unfold good_wp, wp in Hg. rewrite (on_udp_run _ _ _ u) in Hg |- * by done.
  cbn [os slept self] in *.
  pose proof (udp_send_to_posts e payload (MkMachine u w sl)) as Hp.
  destruct (udp_send_to e payload (MkMachine u w sl)) as [[n|err| |] m']; [| |done..]; simpl in *;
    (split; [apply Hg|]; split; [exact Hp|by split]).
Qed.

(** Receiving on the socket [x]. *)
Lemma on_udp_take x n m :
  fleet base log (self m) (os m) → is_udp (self m !! x) = true → 0 ≤ n →
  let '(r, m') := on_udp x (udp_receive n) m in
  fleet base log (self m') (os m') ∧ posted (os m') = posted (os m) ∧ self m' = self m ∧
  match r with
  | Ok d => datagram_payload d ∈ posted (os m) ∧ in_memory (datagram_payload d)
  | Fail _ => True
  | _ => False
  end.
Proof.
  destruct m as [st w sl]. simpl. intros Hf Hx Hn. destruct (is_udp_inv _ Hx) as [u Hu].
  pose proof (fleet_focus _ _ _ _ _ _ Hf Hu) as Ho. pose proof (fleet_wf _ _ _ _ Hf _ _ Hu) as Hc.
  pose proof (udp_receive_wp _ _ n (MkMachine u w sl) (conj Ho Hc) Hn) as Hwp.
  assert (good_wp base log (on_udp x (udp_receive n)) {[x]} (MkMachine st w sl)) as Hg.
  { apply udp_step_good; [done..|]. intros others log' m Hm.
    eapply wp_mono; [by apply udp_receive_wp| |]; simpl; intros ? ? H; apply H. }
  unfold good_wp, wp in Hg, Hwp. rewrite (on_udp_run _ _ _ u) in Hg |- * by done.
  cbn [os slept self] in *.
  pose proof (udp_receive_posted n (MkMachine u w sl) Hn) as Hp.
  destruct (udp_receive n (MkMachine u w sl)) as [[d|err| |] m']; [| |done..];
    destruct Hp as [Hp Hd]; simpl in *.
  - destruct Hwp as (_ & Hself & _ & Hlen & Hmax). rewrite Hself, insert_id by done.
    rewrite Hself, insert_id in Hg by done.
    split_and!; [apply Hg|done|done|by apply Hd|]. unfold in_memory, maximum_payload_size, ptrdiff_max in *. lia.
  - destruct Hwp as (_ & Hself). rewrite Hself, insert_id by done.
    rewrite Hself, insert_id in Hg by done. split_and!; [apply Hg|done..].
Qed.

(** ** Steps *)
Lemma submitted_more s d m :
  (d ∈ strangers s ∨ ∃ m', m' ∈ submitted s ∧ sendable l m' ∧ d = frame_wire m') →
  d ∈ strangers s ∨ ∃ m', m' ∈ submitted s ++ [m] ∧ sendable l m' ∧ d = frame_wire m'.
Proof.
  intros [?|(m' & Hm' & ?)]; [by left|right]. exists m'. split; [|done]. apply elem_of_app. by left.
Qed.

Lemma post_inv x e m s :
  inv s → is_udp (self (process s) !! x) = true → message_wf m →
  match (post l x e m s).1 with Ok n => n = len (frame_wire m) | Fail _ => True | _ => False end ∧
  inv (post l x e m s).2.
Proof.
  intros [Hf Hp Ht] Hx Hm. unfold post.
  destruct (encode_spec l m Hl Hlv Hm) as [[Hfit ->]|[_ [msg ->]]].
  2:{ by erewrite method_bind_fail by done. }
  erewrite method_bind_ok by done. pose proof (on_udp_send x e (frame_wire m) (process s) Hf Hx) as Hs.
  destruct (on_udp x _ _) as [[n|err| |] m'] eqn:E; destruct Hs as (Hf' & Hpost & Hdef);
    [| |by destruct Hdef..].
  - erewrite method_bind_ok by (unfold on_process; by rewrite E). simpl.
    destruct Hpost as [-> Hpost]. split; [done|]. split; simpl; [done| |].
    + intros d. rewrite Hpost. intros [Hd| ->%list_elem_of_singleton]%elem_of_app;
        [by apply submitted_more, Hp|right]. exists m. split; [|done]. apply elem_of_app. right. by left.
    + intros m1 [?|?]%Ht; [left; apply elem_of_app; by left|by right].
  - erewrite method_bind_fail by (unfold on_process; by rewrite E). simpl. split; [done|].
    split; simpl; [done|by rewrite Hpost|done].
Qed.

(** What a call of [collect] gives. *)
Definition collected s (r : outcome (TransportError + error_type) Message * mesh W) : Prop :=
  match r with
  | (Ok m, s') => m ∈ submitted s ∨ frame_wire m ∈ strangers s
  | (Fail (inl _), s') => self (process s') = self (process s) ∧ taken s' = taken s
  | (Fail (inr e), s') =>
      self (process s') = self (process s) ∧ taken s' = taken s ∧
      ∃ d, d ∈ strangers s ∧ decode l d = Fail e
  | _ => False
  end.

Lemma collect_inv x n s :
  inv s → is_udp (self (process s) !! x) = true → 0 ≤ n →
  collected s (collect l x n s) ∧ inv (collect l x n s).2.
Proof.
  intros [Hf Hp Ht] Hx Hn. unfold collect.
  pose proof (on_udp_take x n (process s) Hf Hx Hn) as Hr.
  destruct (on_udp x _ _) as [[d|err| |] m'] eqn:E; destruct Hr as (Hf' & Hpost & Hself & Hd); [| |done..].
  2:{ erewrite method_bind_fail by (unfold on_process; by rewrite E). simpl. split; [done|].
      split; simpl; [done|by rewrite Hpost|done]. }
  erewrite method_bind_ok by (unfold on_process; by rewrite E). destruct Hd as [Hin Hmem].
  destruct (decode_defined l (datagram_payload d) Hl Hmem) as [Hd1 Hd2].
  destruct (decode l (datagram_payload d)) as [m|err| |] eqn:Ed; [| |done..].
  - erewrite method_bind_ok by done. simpl.
    apply (decode_spec l _ m Hl Hmem) in Ed as (_ & Hwf & Hfit & Hw).
    assert (m ∈ submitted s ∨ frame_wire m ∈ strangers s) as Hm.
    { rewrite Hw in Hin. destruct (Hp _ Hin) as [?|(m2 & Hm2 & [Hwf2 Hfit2] & Hw2)]; [by right|left].
      rewrite Hw in Hmem.
      assert (decode l (frame_wire m) = Ok m2) as Hd by by apply decode_spec.
      assert (decode l (frame_wire m) = Ok m) as Hd' by by apply decode_spec.
      rewrite Hd in Hd'. by injection Hd' as <-. }
    split; [done|]. split; simpl; [done|by rewrite Hpost|].
    intros m1 [?| ->%list_elem_of_singleton]%elem_of_app; [by apply Ht|done].
  - erewrite method_bind_fail by done. simpl. split.
    + split_and!; [done|done|]. exists (datagram_payload d). split; [|done].
      destruct (Hp _ Hin) as [?|(m2 & Hm2 & [Hwf2 Hfit2] & Hw2)]; [done|exfalso].
      assert (decode l (datagram_payload d) = Ok m2) as Hd by by apply decode_spec. by rewrite Ed in Hd.
    + split; simpl; [done|by rewrite Hpost|done].
Qed.

(** What a call of [collect] on the socket [i] does to its receive queue. *)
Definition consumed_first (queued : W → NativeSocket → list (list byte)) (i : UdpImpl) s
    (r : outcome (TransportError + error_type) Message * mesh W) : Prop :=
  let queue s := queued (os (process s)) (udp_socket i) in
  match r with
  | (Ok m, s') => takes (queue s) (frame_wire m) (queue s')
  | (Fail (inr e), s') => ∃ d, takes (queue s) d (queue s') ∧ decode l d = Fail e
  | _ => True
  end.

Lemma collect_takes queued x n i s :
  DatagramQueue P queued → inv s → self (process s) !! x = Some (ObjUdp (Some i)) → 0 ≤ n →
  consumed_first queued i s (collect l x n s).
Proof.
  intros Q [Hf _ _] Hx Hn. unfold collect.
  assert (is_udp (self (process s) !! x) = true) as Hu by by rewrite Hx.
  pose proof (on_udp_take x n (process s) Hf Hu Hn) as Hr.
  pose proof (udp_receive_takes queued n
    (MkMachine (Some i) (os (process s)) (slept (process s))) i Logic.eq_refl Hn) as Ht.
  rewrite (on_udp_run _ _ _ (Some i)) in Hr by done.
  destruct (udp_receive n _) as [[d|err| |] m'] eqn:E; simpl in Hr, Ht;
    destruct Hr as (_ & _ & _ & Hd); [| |done..].
  2:{ erewrite method_bind_fail by (unfold on_process; by rewrite (on_udp_run _ _ _ (Some i)), E).
      done. }
  erewrite method_bind_ok by (unfold on_process; by rewrite (on_udp_run _ _ _ (Some i)), E).
  destruct Hd as [_ Hmem]. destruct (decode_defined l (datagram_payload d) Hl Hmem) as [Hd1 Hd2].
  destruct (decode l (datagram_payload d)) as [m|err| |] eqn:Ed; [| |done..].
  - erewrite method_bind_ok by done. simpl.
    apply (decode_spec l _ m Hl Hmem) in Ed as (_ & _ & _ & <-). exact Ht.
  - erewrite method_bind_fail by done. simpl. by exists (datagram_payload d).
Qed.

Lemma fleet_keeps st (w w' : W) : fleet base log st w → keeps w w' → fleet base log st w'.
Proof.
  intros [H1 H2 H3 H4 H5] [Ho Hs]. split; try done; [by rewrite Ho|].
  intros h Hh. rewrite Hs. by apply H5.
Qed.

Lemma mesh_step_inv s s' : inv s → mesh_step l posted s s' → inv s'.
Proof.
  intros Hi Hstep. destruct Hstep as [x e m s Hx Hm|x n s Hx Hn|op s Hop Hno|ds w s Hk Hp].
  - by apply post_inv.
  - by apply collect_inv.
  - destruct Hi as [Hf Hp Ht]. pose proof (sock_step_good base log op _ Hf Hop) as Hg.
    pose proof (sock_step_posted op Hno (process s)) as Hs. unfold good_wp, wp, on_os in *.
    destruct (sock_step op (process s)) as [[| | |] m']; [| |done..]; simpl in *;
      (split; simpl; [apply Hg|by rewrite Hs|done]).
  - destruct Hi as [Hf Hp' Ht]. split; simpl; [by eapply fleet_keeps| |].
    + intros d. rewrite Hp. intros [Hd|Hd]%elem_of_app.
      * destruct (Hp' d Hd) as [?|?]; [left; apply elem_of_app; by left|by right].
      * left. apply elem_of_app. by right.
    + intros m [?|?]%Ht; [by left|right; apply elem_of_app; by left].
Qed.

Lemma mesh_steps_inv s s' : inv s → rtc (mesh_step l posted) s s' → inv s'.
Proof. intros Hi H. induction H as [|s s1 s2 Hs _ IH]; [done|]. by eapply IH, mesh_step_inv. Qed.
End MeshFacts.
