(* ===== verification/MeshProps.v ===== *)
(** * One frame per datagram: the theorem

    with a run on the simulated system. *)

From stdpp Require Import prelude gmap sets list strings.
From Stdlib Require Import ZArith Lia.
From S2P Require Import Prelude Errors Types Frame FrameFacts StreamFacts.
From S2P Require Import Transport Udp Sockets Datagrams ReceiveQueues Mesh.
From S2P Require Import SocketAddr Posix SimOS TransportProps.
Import Protocol.

(** ** Property *)

(** C8. A datagram carries its frame intact: whatever the transport objects of a process
    do, whichever datagrams the network loses, repeats or reorders, and whatever strangers
    send, every message taken from a datagram is one whose [send_to] succeeded, or a
    stranger sent its very wire form; nothing is truncated, merged or made up.  A protocol
    error is always a stranger's doing, and costs only that datagram: all objects stay as
    they were, and on every platform whose sockets queue what arrives, the call has removed
    exactly the datagram it rejected from the front of the queue, as a successful call
    removes exactly the one that carried its message; so the next call takes the next
    datagram, unlike on a stream.  A successful call of [send_to] reports the size of the
    whole frame, and no call is undefined. *)
Theorem udp_frames_intact {EM : ErrorModel} {W} {G : SocketGhost W} {P : SocketPlatform W}
    (posted : W → list (list byte)) (l : Limits) (w : W) (s : mesh W) :
  SocketPlatformLaws G P → DatagramNetwork P posted → limits_wf l → limits_valid l = true →
  rtc (mesh_step l posted) (mesh_start posted w) s →
  (∀ m, m ∈ taken s → m ∈ submitted s ∨ frame_wire m ∈ strangers s) ∧
  (∀ x n, is_udp (self (process s) !! x) = true → 0 ≤ n → collected l s (collect l x n s)) ∧
  (∀ x e m, is_udp (self (process s) !! x) = true → message_wf m →
     match (post l x e m s).1 with
     | Ok n => n = len (frame_wire m)
     | Fail _ => True
     | _ => False
     end) ∧
  (∀ queued x n i, DatagramQueue P queued →
     self (process s) !! x = Some (ObjUdp (Some i)) → 0 ≤ n →
     consumed_first l queued i s (collect l x n s)).
Proof.
  intros L D Hl Hlv Hsteps.
  assert (mesh_inv l posted (open_handles w) (sent_bytes w) s) as Hi.
  { eapply (mesh_steps_inv l _ _ Hl Hlv); [|exact Hsteps].
    split; simpl; [apply fresh_fleet|by left|by intros m ?%not_elem_of_nil]. }
  split_and!.
  - apply (mesh_taken _ _ _ _ _ Hi).
  - intros x n Hx Hn. by apply (collect_inv l _ _ Hl Hlv x n s Hi).
  - intros x e m Hx Hm. by apply (post_inv l _ _ Hl Hlv x e m s Hi).
  - intros queued x n i Q Hx Hn. by eapply (collect_takes l _ _ Hl queued x n i s).
Qed.

(** ** A run: a message, a stranger's datagram that is no frame, and a second message *)
Definition receiver_endpoint : IpEndpoint := MkIpEndpoint "127.0.0.1" 9000.

Definition call_step (op : sock_op) (s : mesh sim) : mesh sim :=
  MkMesh (sock_step op (process s)).2 (submitted s) (taken s) (strangers s).
Definition post_step (m : Message) (s : mesh sim) : mesh sim :=
  (post (EM:=Model) default_limits 1 receiver_endpoint m s).2.
Definition collect_step (s : mesh sim) : mesh sim := (collect (EM:=Model) default_limits 0 256 s).2.
Definition stranger_step (d : list byte) (s : mesh sim) : mesh sim :=
  MkMesh (MkMachine (self (process s)) (sim_post d (os (process s))) (slept (process s)))
    (submitted s) (taken s) (strangers s ++ [d]).

Definition mesh_bound : mesh sim :=
  call_step (BindUdp 0 receiver_endpoint)
    (call_step (NewUdp 1 default_io_options)
      (call_step (NewUdp 0 default_io_options) (mesh_start sim_mail sim_start))).

Definition mesh_spammed : mesh sim :=
  stranger_step (bytes_of [1; 2; 3]) (post_step sample_message mesh_bound).

(** The stranger's datagram is the next one. *)
Definition mesh_middle : mesh sim := collect_step (post_step sample_message mesh_spammed).

Definition mesh_end : mesh sim := collect_step (collect_step mesh_middle).

Lemma sim_datagram_network : DatagramNetwork (W:=sim) posix_platform sim_mail.
Proof. apply (posix_datagrams (D:=sim_posix_datagrams)). Qed.

Abbreviation sample_step := (mesh_step (EM:=Model) default_limits sim_mail).

Lemma call_step_ok op s s' :
  rtc sample_step s s' → op_enabled op (self (process s')) → no_datagram op →
  rtc sample_step s (call_step op s').
Proof. intros. eapply rtc_r; [done|]. by apply step_call. Qed.

Lemma post_step_ok m s s' :
  rtc sample_step s s' → is_udp (self (process s') !! 1%nat) = true → message_wf m →
  rtc sample_step s (post_step m s').
Proof. intros. eapply rtc_r; [done|]. by apply step_post. Qed.

Lemma collect_step_ok s s' :
  rtc sample_step s s' → is_udp (self (process s') !! 0%nat) = true →
  rtc sample_step s (collect_step s').
Proof. intros. eapply rtc_r; [done|]. by apply step_collect. Qed.

Lemma stranger_step_ok d s s' : rtc sample_step s s' → rtc sample_step s (stranger_step d s').
Proof. intros. eapply rtc_r; [done|]. by apply step_stranger. Qed.

Lemma mesh_middle_steps : rtc sample_step (mesh_start sim_mail sim_start) mesh_middle.
Proof.
  pose proof sample_message_wf as Hm.
  assert (rtc sample_step (mesh_start sim_mail sim_start) mesh_bound) as Hb
    by (do 3 (apply call_step_ok; [|by vm_compute|done]); apply rtc_refl).
  assert (rtc sample_step (mesh_start sim_mail sim_start) mesh_spammed) as Hs
    by (apply stranger_step_ok, post_step_ok; [exact Hb|by vm_compute|exact Hm]).
  apply collect_step_ok; [|by vm_compute]. apply post_step_ok; [exact Hs|by vm_compute|exact Hm].
Qed.

Lemma mesh_end_steps : rtc sample_step (mesh_start sim_mail sim_start) mesh_end.
Proof. do 2 (apply collect_step_ok; [|by vm_compute]). apply mesh_middle_steps. Qed.

Definition sample_queue (w : sim) (s : NativeSocket) : list (list byte) := sim_queue w (native s).

(** Both messages are taken, and the datagram between them is rejected and removed. *)
Example udp_frames_intact_witness :
  taken mesh_end = [sample_message; sample_message] ∧
  (∀ m, m ∈ taken mesh_end → m ∈ submitted mesh_end ∨ frame_wire m ∈ strangers mesh_end) ∧
  ∃ i, self (process mesh_middle) !! 0%nat = Some (ObjUdp (Some i)) ∧
    sample_queue (os (process mesh_middle)) (udp_socket i) =
      [bytes_of [1; 2; 3]; frame_wire sample_message] ∧
    sample_queue (os (process (collect_step mesh_middle))) (udp_socket i) =
      [frame_wire sample_message] ∧
    consumed_first default_limits sample_queue i mesh_middle
      (collect (EM:=Model) default_limits 0 256 mesh_middle).
Proof.
  split; [by vm_compute|]. split.
  - destruct (udp_frames_intact (EM:=Model) (G:=sim_ghost) sim_mail default_limits sim_start mesh_end)
      as [H _]; [apply sim_platform_laws|apply sim_datagram_network|apply default_limits_wf|
                 by vm_compute|apply mesh_end_steps|exact H].
  - destruct (udp_frames_intact (EM:=Model) (G:=sim_ghost) sim_mail default_limits sim_start mesh_middle)
      as (_ & _ & _ & H); [apply sim_platform_laws|apply sim_datagram_network|apply default_limits_wf|
                 by vm_compute|apply mesh_middle_steps|].
    eexists. split; [by vm_compute|]. split; [by vm_compute|]. split; [by vm_compute|].
    apply H; [apply posix_queue, sim_posix_queue|by vm_compute|lia].
Defined.
