(* ===== verification/Facade.v ===== *)
(** * Entry points and versions

    The facade headers [include/vosp/protocol.hpp], [security.hpp] and [transport.hpp], and
    the three [version.hpp].  An alias that keeps the name of its class ([TcpStream],
    [SecureBuffer], ...) is that definition; the others are declared here. *)

From stdpp Require Import prelude strings pretty.
From Stdlib Require Import ZArith.
From S2P Require Import Prelude Errors Types Frame Stream Transport.

Module Vosp.
Definition Protocol : Type := FrameCodec.
Definition ProtocolError : Type := Protocol.Error.
Definition ProtocolLimits : Type := Limits.
Definition ProtocolMessage : Type := Message.
Definition ProtocolStream : Type := StreamDecoder.
Definition ProtocolVersion : Type := Version.
Definition TcpEndpoint : Type := IpEndpoint.
End Vosp.

(** The constants of a [version.hpp] *)
Record release := MkRelease {
  api : string;
  prerelease : string;
  release_major : Z;
  release_minor : Z;
  release_patch : Z
}.

Definition protocol_release : release := MkRelease "0.3.0-beta" "beta" 0 3 0.
Definition security_release : release := MkRelease "0.3.0-beta" "beta" 0 3 0.
Definition transport_release : release := MkRelease "0.3.0-beta" "beta" 0 3 0.

(** Semantic versioning: the numbers, then the pre-release tag. *)
Definition semantic_version (r : release) : string :=
  pretty (release_major r) +:+ "." +:+ pretty (release_minor r) +:+ "." +:+
  pretty (release_patch r) +:+ "-" +:+ prerelease r.

(** The text of every module is that of its numbers, and all modules have one version. *)
Example releases_consistent :
  Forall (λ r, api r = semantic_version r ∧ r = protocol_release)
    [protocol_release; security_release; transport_release].
Proof. repeat constructor; by vm_compute. Qed.
