(* ===== verification/Tests.v ===== *)
(** * The test suites, run on the model

    [tests/protocol_tests.cpp] and [tests/security_tests.cpp], test by test, over the
    translated components: the model gives every answer that the suites expect of the
    code.  A test returns the messages of the checks that failed.  The [static_assert]s of
    [test_contracts] are checked by the compiler and have no counterpart. *)

From stdpp Require Import prelude gmap sets list strings.
From Stdlib Require Import ZArith Lia.
From S2P Require Import Prelude Errors Types Binary Frame Stream Text.
From S2P Require Import Permissions SecureBuffer AuthTlv Facade.
Import Protocol.

(** ** Checks *)
Definition checks := list string.

Definition expect (condition : bool) (message : string) : checks :=
  if condition then [] else [message].

(** [Checks::result]: the exit status of [main]. *)
Definition result_of (c : checks) : Z := match c with [] => 0 | _ => 1 end.

(** What a test asks of an [std::expected]; undefined behaviour gives neither answer. *)
Definition holds {E A} (r : outcome E A) : bool := match r with Ok _ => true | _ => false end.
Definition holds_with {E A} (r : outcome E A) (f : A → bool) : bool :=
  match r with Ok a => f a | _ => false end.
Definition fails {E A} (r : outcome E A) : bool := match r with Fail _ => true | _ => false end.
Definition fails_with {E A} (r : outcome E A) (f : E → bool) : bool :=
  match r with Fail e => f e | _ => false end.

(** ** protocol_tests.cpp *)
Module ProtocolTests.
#[local] Existing Instance Model.

Definition as_bytes (text : string) : list byte := String.list_byte_of_string text.

Definition kind_is (code : ErrorCode) (e : Error) : bool := code_ e =? code_value code.

Definition test_contracts : checks :=
  expect (bool_decide (api protocol_release = "0.3.0-beta"))
    "public version must match package version".

Definition test_versioning : checks :=
  let v := MkVersion in
  let selected := negotiate_version (MkVersionRange (v 1 0) (v 1 5)) (MkVersionRange (v 1 2) (v 1 3)) in
  expect (compatible_with (v 1 5) (v 1 1)) "versions with the same major must be compatible" ++
  expect (negb (compatible_with (v 1 5) (v 2 0))) "different major versions must be incompatible" ++
  expect (bool_decide (selected = Some (v 1 3))) "negotiation must select the highest common version" ++
  expect (bool_decide (negotiate_version (MkVersionRange (v 1 0) (v 1 5))
            (MkVersionRange (v 2 0) (v 2 1)) = None)) "disjoint ranges must not negotiate" ++
  expect (negb (range_valid (MkVersionRange (v 1 9) (v 2 0))))
    "one negotiation range must not cross major versions".

Definition test_binary_codec : checks :=
  let '(w1, writer) := write (UInt 2) 0x1234 (new_writer 128) in
  let '(w2, writer) := write (UInt 4) 0x89abcdef writer in
  let '(w3, writer) := write_string (as_bytes "VOSP") writer in
  let '(bytes, _) := take_writer writer in
  let '(first, reader) := read (UInt 2) (new_reader bytes) in
  let '(second, reader) := read (UInt 4) reader in
  let '(text, reader) := read_string uint32_max reader in
  let '(limited_write, limited) := write (UInt 4) 7 (new_writer 2) in
  let '(string_write, string_limited) := write_string (as_bytes "xx") (new_writer 5) in
  let '(bounded, bounded_reader) := read_string 1 (new_reader (bytes_of [0; 0; 0; 2] ++ as_bytes "ok")) in
  expect (holds w1) "u16 write must succeed" ++
  expect (holds w2) "u32 write must succeed" ++
  expect (holds w3) "string write must succeed" ++
  expect (len bytes =? 14) "binary layout size must be stable" ++
  expect (bool_decide (take 2 bytes = bytes_of [0x12; 0x34]))
    "binary integers must use network byte order" ++
  expect (holds_with first (Z.eqb 0x1234)) "u16 round trip must succeed" ++
  expect (holds_with second (Z.eqb 0x89abcdef)) "u32 round trip must succeed" ++
  expect (holds_with text (λ t, bool_decide (t = as_bytes "VOSP"))) "string round trip must succeed" ++
  expect (reader_empty reader) "reader must consume the complete input" ++
  expect (fails (read (UInt 2) (new_reader (take 1 bytes))).1) "truncated integer must be rejected" ++
  expect (fails limited_write) "writer limit must be enforced before mutation" ++
  expect (writer_size limited =? 0) "failed write must be atomic" ++
  expect (fails string_write) "string prefix and payload must share one bound" ++
  expect (writer_size string_limited =? 0) "failed string write must be atomic" ++
  expect (fails bounded) "reader string limit must be enforced" ++
  expect (reader_position bounded_reader =? 0) "failed bounded string read must preserve the cursor".

Definition test_text_codec : checks :=
  let codec := MkUtf8Codec 64 in
  let source := as_bytes "VOSP " ++
    bytes_of [0xd0; 0xbf; 0xd1; 0x80; 0xd0; 0xbe; 0xd1; 0x82; 0xd0; 0xbe; 0xd0; 0xba; 0xd0; 0xbe; 0xd0; 0xbb] in
  let encoded := utf8_codec_encode codec source in
  expect (holds encoded) "valid UTF-8 must encode" ++
  expect (holds_with encoded (λ e, holds_with (utf8_codec_decode codec e) (λ d, bool_decide (d = source))))
    "UTF-8 must round trip" ++
  expect (fails (utf8_codec_decode codec (bytes_of [0xc0; 0xaf]))) "overlong UTF-8 must be rejected" ++
  expect (fails (utf8_codec_decode codec (bytes_of [0xe2; 0x82]))) "truncated UTF-8 must be rejected" ++
  expect (fails (utf8_codec_decode codec (bytes_of [0xed; 0xa0; 0x80])))
    "UTF-16 surrogate code points must be rejected" ++
  expect (fails (utf8_codec_decode codec (bytes_of [0xf4; 0x90; 0x80; 0x80])))
    "code points above U+10FFFF must be rejected" ++
  expect (fails (utf8_codec_encode (MkUtf8Codec 2) (as_bytes "long"))) "text limit must be enforced".

Definition test_message (correlation : Z) : Message :=
  MkMessage (MkVersion 1 2) 17 correlation (flags_or flags_authenticated flags_checksum)
    [MkExtension (extension_id_value content_type) (as_bytes "text/plain")] (as_bytes "payload").

Definition test_frame_round_trip : checks :=
  let m := test_message 42 in
  let application := MkMessage (version_ m) (type_ m) (correlation_id_ m) (flags_ m)
    [MkExtension 2048 (as_bytes "opaque")] (payload_ m) in
  let application_frame := encode default_limits application in
  match encode default_limits m with
  | Ok encoded =>
      let with_trailing := encoded ++ [Byte.x00] in
      expect (len encoded =? 32 + 4 + 10 + 7) "frame size must equal header, TLV and payload" ++
      expect (bool_decide (take 4 encoded = as_bytes "VSP1")) "frame magic must be VSP1" ++
      expect (holds_with (probe default_limits encoded)
                (λ p, bool_decide (state p = ready) && (frame_size p =? len encoded)))
        "complete frame must probe as ready" ++
      expect (holds_with (decode default_limits encoded) (λ d, bool_decide (d = m)))
        "frame must round trip exactly" ++
      expect (holds application_frame) "application-defined extension must encode" ++
      expect (holds_with application_frame (λ f,
                holds_with (decode default_limits f) (λ d, bool_decide (d = application))))
        "application-defined extensions must remain opaque and round trip" ++
      expect (fails (decode default_limits with_trailing)) "exact decode must reject trailing bytes" ++
      expect (holds_with (decode_prefix default_limits with_trailing) (λ d, consumed d =? len encoded))
        "prefix decode must report consumed bytes"
  | _ => expect false "frame encode must succeed"
  end.

(** The loop over the bytes of the first frame. *)
Fixpoint fragment_loop (bytes : list byte) (d : StreamDecoder) : checks * StreamDecoder :=
  match bytes with
  | [] => ([], d)
  | b :: rest =>
      let '(pushed, d) := push [b] d in
      let '(received, d) := next d in
      let should_be_ready := bool_decide (rest = []) in
      let '(c, d') := fragment_loop rest d in
      (expect (holds pushed) "one-byte stream push must succeed" ++
       expect (holds received) "fragmented probe must not fail" ++
       expect (holds_with received (λ r, eqb (bool_decide (is_Some r)) should_be_ready))
         "frame must appear only after the last byte" ++
       match received with
       | Ok (Some m) => expect (correlation_id_ m =? 100) "fragmented frame must preserve correlation"
       | _ => []
       end ++ c, d')
  end.

Definition received_with (correlation : Z) (r : outcome Error (option Message)) : bool :=
  holds_with r (λ r, match r with Some m => correlation_id_ m =? correlation | None => false end).

Definition test_stream_decoder : checks :=
  match encode default_limits (test_message 100), encode default_limits (test_message 101) with
  | Ok first_frame, Ok second_frame =>
      let '(c, fragmented) := fragment_loop first_frame (new_stream default_limits) in
      let '(pushed, stream) := push (first_frame ++ second_frame) (new_stream default_limits) in
      let '(first, stream) := next stream in
      let '(second, stream) := next stream in
      let '(empty, stream) := next stream in
      c ++
      expect (buffered_size fragmented =? 0) "consumed fragmented frame must release its buffer" ++
      expect (holds pushed) "coalesced stream push must succeed" ++
      expect (received_with 100 first) "first coalesced frame must decode" ++
      expect (received_with 101 second) "second coalesced frame must decode" ++
      expect (holds_with empty (λ r, bool_decide (r = None))) "empty stream must return no message"
  | _, _ => expect false "stream test frames must encode"
  end.

(** [copy[index] = value], on a copy of the frame *)
Definition patch (l : list (nat * Z)) (frame : list byte) : list byte :=
  foldr (λ p f, <[p.1 := of_Z p.2]> f) frame l.

Definition test_invalid_frames (encoded : list byte) : checks :=
  let invalid_magic := patch [(0%nat, 0)] encoded in
  expect (fails_with (probe default_limits invalid_magic) (kind_is Protocol.invalid_magic))
    "invalid magic must fail closed" ++
  expect (fails (decode default_limits (take 12 encoded))) "truncated frame must not decode" ++
  expect (fails (probe default_limits (patch [(28%nat, 0); (29%nat, 2)] encoded)))
    "inconsistent extension count must be rejected" ++
  expect (fails (probe default_limits (patch [(31%nat, 1)] encoded)))
    "non-zero reserved header bits must be rejected" ++
  expect (fails (probe default_limits (patch [(4%nat, 0); (5%nat, 31)] encoded)))
    "undersized fixed header must be rejected" ++
  expect (fails (probe default_limits (patch [(34%nat, 0xff); (35%nat, 0xff)] encoded)))
    "TLV value extending beyond the header must be rejected" ++
  expect (fails (probe default_limits
            (patch [(24%nat, 0xff); (25%nat, 0xff); (26%nat, 0xff); (27%nat, 0xff)] encoded)))
    "declared payload above configured bounds must be rejected".

Definition test_fail_closed (encoded : list byte) : checks :=
  let invalid_magic := patch [(0%nat, 0)] encoded in
  let '(pushed, fail_closed) := push invalid_magic (new_stream default_limits) in
  let '(received, fail_closed) := next fail_closed in
  expect (holds pushed) "bounded malformed bytes may enter the stream buffer" ++
  expect (fails received) "malformed stream input must fail closed" ++
  expect (buffered_size fail_closed =? len invalid_magic)
    "fail-closed stream input must remain available for policy decisions" ++
  expect (buffered_size (reset fail_closed) =? 0) "stream reset must release malformed input".

Definition test_limits : checks :=
  let limits := MkLimits 8 0 0 40 40 in
  let d := default_limits in
  let invalid_limits := MkLimits (max_payload_size d) (max_extension_count d)
    (max_extension_bytes d) 31 (max_buffered_bytes d) in
  let '(pushed, bounded) := push (replicate 41 Byte.x00) (new_stream limits) in
  expect (limits_valid limits) "small test limits must be internally valid" ++
  expect (fails (encode limits (test_message 9))) "extension limit must be enforced" ++
  expect (fails pushed) "stream backpressure limit must be enforced" ++
  expect (buffered_size bounded =? 0) "rejected stream push must not retain bytes" ++
  expect (fails_with (encode invalid_limits (test_message 10)) (kind_is invalid_argument))
    "inconsistent limits must fail as invalid arguments".

Definition test_invalid_frames_and_limits : checks :=
  match encode default_limits (test_message 7) with
  | Ok encoded => test_invalid_frames encoded ++ test_limits ++ test_fail_closed encoded
  | _ => expect false "invalid-frame fixture must encode"
  end.

Definition protocol_tests_main : Z :=
  result_of (test_contracts ++ test_versioning ++ test_binary_codec ++ test_text_codec ++ test_frame_round_trip ++
             test_stream_decoder ++ test_invalid_frames_and_limits).

(** Every check of the suite holds of the model. *)
Example protocol_tests_pass : protocol_tests_main = 0.
Proof. by vm_compute. Qed.
End ProtocolTests.

(** ** security_tests.cpp *)
Module SecurityTests.
Section Suite.
Context {SE : SecureErase}.

(** [tag[index % tag.size()] ^= input[index]], from [index] on *)
Fixpoint mix (input tag : list byte) (index : nat) : list byte :=
  match input with
  | [] => tag
  | b :: rest =>
      let i := (index mod length tag)%nat in
      mix rest (alter (λ t, of_Z (Z.lxor (to_Z t) (to_Z b))) i tag) (S index)
  end.

(** [TestAuthenticator]: a tag of four bytes *)
Definition authenticate (input : list byte) : list byte := mix input (replicate 4 Byte.x00) 0.

Definition equal (left right : list byte) : bool :=
  holds_with (E:=Empty_set) (constant_time_equal left right []).1 id.

Definition verify (input tag : list byte) : bool := equal (authenticate input) tag.

(** [buffer] is the object 0 and [moved] the object 1. *)
Definition test_secure_erase_and_buffer : checks :=
  let secret := bytes_of [0x10; 0x20; 0x30] in
  let '(buffer, w) := buffer_copy_from 0 secret default_maximum_size initial_world in
  let '(size, _) := buffer_size 0 w in
  let '(bytes, _) := buffer_bytes 0 w in
  let '(moved, w) := buffer_move_construct 1 0 w in
  let '(source_empty, w) := buffer_empty 0 w in
  let '(cleared, w) := buffer_clear 1 w in
  let '(empty, w) := buffer_empty 1 w in
  expect (bool_decide (secure_erase (bytes_of [1; 2; 3; 4]) = replicate 4 Byte.x00))
    "secure_erase must overwrite every byte" ++
  expect (holds buffer && holds_with size (Z.eqb (len secret))) "secure buffer must copy bounded data" ++
  expect (holds_with bytes (equal secret)) "secure buffer must preserve source bytes" ++
  expect (holds moved && holds_with source_empty id) "moved-from secure buffer must not retain the secret" ++
  expect (holds cleared && holds_with empty id) "clear must erase and release the logical secret" ++
  expect (fails (buffer_copy_from 2 [] default_maximum_size w).1) "empty secret must be rejected" ++
  expect (fails (buffer_copy_from 2 secret 2 w).1) "secret larger than policy must be rejected" ++
  expect (fails (buffer_copy_from 2 secret (hard_maximum_size + 1) w).1)
    "policy above hard maximum must be rejected".

Definition test_constant_time_comparison : checks :=
  let first := bytes_of [1; 2; 3] in
  expect (equal first (bytes_of [1; 2; 3])) "equal tags must compare equal" ++
  expect (negb (equal first (bytes_of [1; 2; 4]))) "different tags must compare unequal" ++
  expect (negb (equal first (bytes_of [1; 2]))) "different public lengths must compare unequal".

(** [enum class Permission : std::int8_t { read = 0, write = 1, administer = 2 }] *)
Definition test_permissions : checks :=
  let u := MkUnderlying true 8 in
  let '(g0, p) := grant u 3 0 no_permissions in
  let '(g2, p) := grant u 3 2 p in
  let '(negative, p) := grant u 3 (-1) p in
  let '(above, p) := grant u 3 3 p in
  let '(revoked, p') := revoke u 3 0 p in
  expect (permissions_empty no_permissions) "permission set must start empty" ++
  expect g0 "valid permission must be granted" ++
  expect g2 "second valid permission must be granted" ++
  expect (allows u 3 p 0 && negb (allows u 3 p 1)) "permission lookup must use independent bits" ++
  expect (negb negative) "negative permission must be rejected" ++
  expect (negb above) "out-of-range permission must be rejected" ++
  expect (revoked && negb (allows u 3 p' 0)) "revocation must clear one bit" ++
  expect (permissions_empty (clear_permissions p')) "clear must remove every permission".

Definition test_authentication_extensions : checks :=
  let input := bytes_of [1; 2; 3; 4] in
  let tag := authenticate input in
  let limit := default_maximum_authentication_tag_size in
  let extension := authentication_extension tag limit in
  let wrong := MkExtension (extension_id_value checksum) (bytes_of [1]) in
  expect (verify input tag) "compatible authenticator must verify its own tag" ++
  expect (holds extension) "authentication tag must create a VSP1 extension" ++
  expect (holds_with extension (λ e, holds_with (authentication_tag e) (λ view, equal view tag)))
    "authentication extension must preserve opaque tag bytes" ++
  expect (fails (authentication_extension [] limit)) "empty authentication tag must be rejected" ++
  expect (fails (authentication_extension tag 2)) "authentication tag limit must be enforced" ++
  expect (fails (authentication_tag wrong)) "non-authentication extension must be rejected".

Definition security_tests_main : Z :=
  result_of (test_secure_erase_and_buffer ++ test_constant_time_comparison ++ test_permissions ++
             test_authentication_extensions).
End Suite.

(** Every check of the suite holds of the model, with the primitive of either system. *)
Example security_tests_pass :
  security_tests_main (SE:=posix_erase zero_memory) = 0 ∧ security_tests_main (SE:=windows_erase zero_memory) = 0.
Proof. split; by vm_compute. Qed.
End SecurityTests.
