(* ===== verification/TransportTests.v ===== *)
(** * The transport test suite, run on the model

    [tests/transport_tests.cpp] over the platform interface, and
    [tests/package_consumer/main.cpp], which uses all three modules.
    A test with two threads is a pair of programs that stop at every call; here the first one
    runs until it would block, and [Schedules.v] follows all other schedules.  The suite
    passes over both translated platforms on the operating system of [SimOS.v], whose sends
    and receives are partial, and leaves no socket open. *)

From stdpp Require Import prelude gmap sets list strings.
From Stdlib Require Import ZArith Lia.
From S2P Require Import Prelude Errors Types Frame Transport Tcp Udp Sockets.
From S2P Require Import SocketAddr Posix Windows SimOS TransportProps Text SecureBuffer.
From S2P Require Import Facade Programs Tests.
Import Protocol.

Section Suite.
Context {W : Type} {P : SocketPlatform W}.
Abbreviation M := (method (machine store W) TransportError).

(** Whether [accept], and [receive] on a handle, would wait. *)
Context (accept_blocks : W → bool) (receive_blocks : Z → W → bool).

Definition succeeded {A} (r : TransportError + A) : bool := match r with inr _ => true | inl _ => false end.
Definition succeeded_with {A} (r : TransportError + A) (f : A → bool) : bool :=
  match r with inr a => f a | inl _ => false end.
Definition failed_with {A} (r : TransportError + A) (code : TransportErrorCode) : bool :=
  match r with inl e => bool_decide (net_code e = code) | inr _ => false end.

Definition new_stream_object (x : nat) (o : IoOptions) (p : ReconnectPolicy) : M unit :=
  place x (ObjStream (new_tcp_stream o p)).

Definition test_invalid_arguments : M checks :=
  new_stream_object 0 default_io_options default_reconnect_policy;;
  connected ← attempt (on_stream 0 (tcp_connect (MkIpEndpoint "" 0)));
  reconnected ← attempt (on_stream 0 tcp_reconnect);
  place 1 (ObjListener (new_tcp_listener default_io_options));;
  bound ← attempt (on_listener 1 (listener_bind (MkIpEndpoint "127.0.0.1" 0) 0));
  place 2 (ObjUdp (new_udp_socket default_io_options));;
  sent ← attempt (on_udp 2 (udp_send_to (MkIpEndpoint "127.0.0.1" 9)
                             (replicate (Z.to_nat (maximum_payload_size + 1)) Byte.x00)));
  destroy_object 2;; destroy_object 1;; destroy_object 0;;
  mret (expect (negb (succeeded connected)) "empty TCP endpoint must be rejected" ++
        expect (negb (succeeded reconnected)) "reconnect without an endpoint must be rejected" ++
        expect (negb (succeeded bound)) "zero TCP backlog must be rejected" ++
        expect (negb (succeeded sent)) "oversized UDP payload must be rejected before opening a socket").

(** [IoOptions{.receive_timeout = 2s, .send_timeout = 2s}] *)
Definition test_options : IoOptions := MkIoOptions 2000 2000.

(** *** Threads

    A thread has returned, with the checks it failed, or it is at a call.  A call that would
    block is not made: the other thread runs. *)
Inductive thread :=
| Returned (c : checks)
| AtCall (blocks : machine store W → bool)
    (resume : machine store W → thread * machine store W).

Definition call_then {A} (blocks : machine store W → bool) (f : M A)
    (k : TransportError + A → thread) : thread :=
  AtCall blocks (λ m,
    match attempt f m with
    | (Ok r, m') => (k r, m')
    | (_, m') => (Returned ["undefined behaviour"%string], m')
    end).

Definition never (m : machine store W) : bool := false.

(** [receive] on the stream [x] *)
Definition stream_blocks (x : nat) (m : machine store W) : bool :=
  match self m !! x with
  | Some (ObjStream (Some i)) => receive_blocks (sock_value (stream_socket i)) (os m)
  | _ => false
  end.

(** [receive_exact(stream, output)]: the answer and the contents of the span.  Every
    successful [receive] returns a byte, so [length output] rounds are enough. *)
Fixpoint receive_exact (fuel : nat) (x : nat) (output : list byte) (offset : Z)
    (k : bool * list byte → thread) : thread :=
  if offset <? len output then
    match fuel with
    | O => Returned ["receive_exact does not end"%string]
    | S fuel' =>
        let before := take (Z.to_nat offset) output in
        call_then (stream_blocks x) (on_stream x (tcp_receive (drop (Z.to_nat offset) output)))
          (λ received,
             match received with
             | inl _ => k (false, output)
             | inr (n, rest) => receive_exact fuel' x (before ++ rest) (offset ⊕ n) k
             end)
    end
  else k (true, output).

Definition threads : Type := thread * thread * machine store W.

(** The configurations after one call of the first or of the second thread. *)
Definition first_moves (c : threads) : list threads :=
  let '(t1, t2, m) := c in
  match t1 with
  | AtCall blocks resume => if blocks m then [] else let '(t1', m') := resume m in [(t1', t2, m')]
  | Returned _ => []
  end.

Definition second_moves (c : threads) : list threads :=
  let '(t1, t2, m) := c in
  match t2 with
  | AtCall blocks resume => if blocks m then [] else let '(t2', m') := resume m in [(t1, t2', m')]
  | Returned _ => []
  end.

Definition moves (c : threads) : list threads := first_moves c ++ second_moves c.

(** One schedule: the first thread runs until it would block, and then the second.  At the
    end both have returned, which is where the test joins the server. *)
Fixpoint run_threads (fuel : nat) (t1 t2 : thread) : M checks := λ m,
  match fuel with
  | O => (NoFuel, m)
  | S fuel' =>
      match moves (t1, t2, m) with
      | (t1', t2', m') :: _ => run_threads fuel' t1' t2' m'
      | [] =>
          match t1, t2 with
          | Returned c1, Returned c2 => (Ok (c1 ++ c2), m)
          | _, _ => (Ok ["deadlock"%string], m)
          end
      end
  end.

(** *** The round trip *)

(** The server thread: the stream it accepts is the object 2, which is destroyed when the
    thread returns. *)
Definition echo_server (size : nat) : thread :=
  let leave (ok : bool) := call_then never (destroy_object 2)
    (λ _, Returned (expect ok "TCP server must decode and echo the frame")) in
  call_then (λ m, accept_blocks (os m)) (sock_step (Accept 2 0)) (λ accepted,
    match accepted with
    | inl _ => Returned (expect false "TCP server must decode and echo the frame")
    | inr _ =>
        receive_exact size 2 (replicate size Byte.x00) 0 (λ '(whole, input),
          if negb whole then leave false
          else
            match decode (EM:=Model) default_limits input with
            | Ok message =>
                if negb (type_ message =? 7) || negb (correlation_id_ message =? 42) then leave false
                else call_then never (on_stream 2 (tcp_send_all input)) (λ sent,
                       leave (succeeded_with sent (Z.eqb (len input))))
            | _ => leave false
            end)
    end).

(** The main thread from the construction of the client, the object 1, to [server.join()]. *)
Definition echo_client (endpoint : IpEndpoint) (frame : list byte) : thread :=
  call_then never (new_stream_object 1 test_options default_reconnect_policy) (λ _,
  call_then never (on_stream 1 (tcp_connect endpoint)) (λ connected,
    if negb (succeeded connected) then Returned (expect false "loopback TCP client must connect")
    else
      call_then never (on_stream 1 (tcp_send_all frame)) (λ sent,
      receive_exact (length frame) 1 (replicate (length frame) Byte.x00) 0 (λ '(whole, echoed),
        Returned
          (expect (succeeded_with sent (Z.eqb (len frame))) "TCP send_all must write complete frame" ++
           expect whole "TCP client must receive echoed frame" ++
           expect (holds (decode (EM:=Model) default_limits echoed)) "echoed TCP frame must decode"))))).

Definition echo_message : Message :=
  MkMessage (MkVersion 1 0) 7 42 flags_none [] (String.list_byte_of_string "VOSP").

(** A test makes at most this many calls. *)
Definition call_budget : nat := 200.

Definition test_tcp_protocol_round_trip : M checks :=
  place 0 (ObjListener (new_tcp_listener test_options));;
  bound ← attempt (on_listener 0 (listener_bind (MkIpEndpoint "127.0.0.1" 0) 128));
  c ← match bound with
      | inl _ => mret (expect false "loopback TCP listener must bind")
      | inr _ =>
          endpoint ← attempt (on_listener 0 listener_local_endpoint);
          match endpoint with
          | inl _ => mret (expect false "TCP listener must expose assigned port")
          | inr e =>
              c ← match encode (EM:=Model) default_limits echo_message with
                  | Ok frame =>
                      c ← run_threads call_budget (echo_client e frame) (echo_server (length frame));
                      destroy_object 1;; mret c
                  | _ => mret (expect false "protocol frame must encode")
                  end;
              mret (expect (negb (port_ e =? 0)) "TCP listener must expose assigned port" ++ c)
          end
      end;
  destroy_object 0;; mret c.

(** *** Reconnecting *)

(** The server thread accepts the first connection as the object 2 and closes it, accepts the
    second one as the object 3 and reads a byte. *)
Definition reconnect_server : thread :=
  let leave (ok : bool) := call_then never (destroy_object 2)
    (λ _, Returned (expect ok "server must receive data after reconnect")) in
  call_then (λ m, accept_blocks (os m)) (sock_step (Accept 2 0)) (λ first,
    match first with
    | inl _ => Returned (expect false "server must receive data after reconnect")
    | inr _ =>
        call_then never (on_stream 2 tcp_close) (λ _,
        call_then (λ m, accept_blocks (os m)) (sock_step (Accept 3 0)) (λ second,
          match second with
          | inl _ => leave false
          | inr _ =>
              receive_exact 1 3 [Byte.x00] 0 (λ '(whole, value),
                call_then never (destroy_object 3) (λ _,
                  leave (whole && bool_decide (value = bytes_of [0x2a]))))
          end))
    end).

(** The main thread from the construction of the client, the object 1. *)
Definition reconnect_client (endpoint : IpEndpoint) : thread :=
  call_then never (new_stream_object 1 test_options (MkReconnectPolicy 3 1 4)) (λ _,
  call_then never (on_stream 1 (tcp_connect endpoint)) (λ connected,
    if negb (succeeded connected) then
      call_then never (on_listener 0 listener_close) (λ _,
        Returned (expect false "initial TCP connection must succeed"))
    else
      call_then (stream_blocks 1) (on_stream 1 (tcp_receive [Byte.x00])) (λ closed,
      call_then never (on_stream 1 tcp_reconnect) (λ reconnected,
        let c := expect (failed_with closed net_peer_closed)
                   "remote close must be explicit before reconnect" ++
                 expect (succeeded reconnected) "bounded TCP reconnect must succeed" in
        if succeeded reconnected then
          call_then never (on_stream 1 (tcp_send_all (bytes_of [0x2a]))) (λ sent,
            Returned (c ++ expect (succeeded sent) "reconnected TCP stream must transfer bytes"))
        else call_then never (on_listener 0 listener_close) (λ _, Returned c))))).

Definition test_tcp_reconnect : M checks :=
  place 0 (ObjListener (new_tcp_listener test_options));;
  bound ← attempt (on_listener 0 (listener_bind (MkIpEndpoint "127.0.0.1" 0) 128));
  c ← match bound with
      | inl _ => mret (expect false "reconnect listener must bind")
      | inr _ =>
          endpoint ← attempt (on_listener 0 listener_local_endpoint);
          match endpoint with
          | inl _ => mret (expect false "reconnect listener must expose assigned port")
          | inr e =>
              c ← run_threads call_budget (reconnect_client e) reconnect_server;
              destroy_object 1;; mret c
          end
      end;
  destroy_object 0;; mret c.

(** From the receiver's endpoint on; the sender is the object 1. *)
Definition udp_round_trip (endpoint : IpEndpoint) : M checks :=
  let payload := String.list_byte_of_string "udp" in
  place 1 (ObjUdp (new_udp_socket test_options));;
  sent ← attempt (on_udp 1 (udp_send_to endpoint payload));
  received ← attempt (on_udp 0 (udp_receive 64));
  again ← attempt (on_udp 1 (udp_send_to endpoint payload));
  truncated ← attempt (on_udp 0 (udp_receive 2));
  destroy_object 1;;
  mret (expect (succeeded_with sent (Z.eqb (len payload))) "UDP datagram must be sent completely" ++
        expect (succeeded_with received (λ d, len (datagram_payload d) =? len payload))
          "UDP datagram must preserve payload size" ++
        expect (succeeded_with received (λ d, bool_decide (datagram_payload d = payload)))
          "UDP datagram must preserve payload bytes" ++
        expect (succeeded again) "second UDP datagram must use the cached endpoint" ++
        expect (failed_with truncated net_datagram_too_large)
          "UDP receive must reject truncation instead of returning partial data").

Definition test_udp_round_trip : M checks :=
  place 0 (ObjUdp (new_udp_socket test_options));;
  bound ← attempt (on_udp 0 (udp_bind (MkIpEndpoint "127.0.0.1" 0)));
  c ← match bound with
      | inl _ => mret (expect false "loopback UDP receiver must bind")
      | inr _ =>
          endpoint ← attempt (on_udp 0 udp_local_endpoint);
          match endpoint with
          | inl _ => mret (expect false "UDP socket must expose assigned port")
          | inr e =>
              c ← udp_round_trip e;
              mret (expect (negb (port_ e =? 0)) "UDP socket must expose assigned port" ++ c)
          end
      end;
  destroy_object 0;; mret c.

Definition transport_tests_main : M Z :=
  c1 ← test_invalid_arguments;
  c2 ← test_tcp_protocol_round_trip;
  c3 ← test_tcp_reconnect;
  c4 ← test_udp_round_trip;
  mret (result_of (c1 ++ c2 ++ c3 ++ c4)).
End Suite.

(** ** The suite on the simulated system *)
Definition sim_accept_blocks (w : sim) : bool := bool_decide (sim_waiting w = []).

(** Nothing has arrived, and the peer is not closed or not known yet. *)
Definition sim_receive_blocks (h : Z) (w : sim) : bool :=
  match sim_peer w !! h with
  | None => true
  | Some p =>
      bool_decide (length (default [] (sim_sent w !! p)) ≤ length (sim_arrived h w))%nat &&
      bool_decide (p ∈ sim_handles w)
  end.

(** The exit status and the handles that are still open. *)
Example transport_tests_pass :
  (let '(status, m) :=
     transport_tests_main (P:=posix_platform) sim_accept_blocks sim_receive_blocks
       (fresh_process sim_start) in
   status = Ok 0 ∧ elements (sim_handles (os m)) = []) ∧
  (let '(status, m) :=
     transport_tests_main (P:=windows_platform) (sim_accept_blocks ∘ win_os)
       (λ h, sim_receive_blocks h ∘ win_os) (fresh_process (MkProcess None sim_start)) in
   status = Ok 0 ∧ elements (sim_handles (win_os (os m))) = []).
Proof. split; vm_compute; done. Qed.

(** ** The package consumer

    The state has the buffer, which is the object 0, and the stream. *)
Section Consumer.
Context {W : Type} {P : SocketPlatform W} {SE : SecureErase}.
Abbreviation M := (method (world * machine TcpStream W) Empty_set).

(** From [SecureBuffer::copy_from] on. *)
Definition consumer_secret (protocol : Vosp.Protocol) (frame : list byte) : M Z :=
  let secret := bytes_of [1; 2; 3] in
  secure ← local (buffer_copy_from 0 secret default_maximum_size);
  match secure with
  | inl _ => mret 5
  | inr _ =>
      bytes ← local (buffer_bytes 0);
      equal ← expected (E:=Empty_set)
        (constant_time_equal (match bytes with inr b => b | inl _ => [] end) secret []).1;
      status ←
        match equal with
        | inr true =>
            decoded ← expected (decode (EM:=Model) protocol frame);
            match decoded with
            | inr m => mret (if (type_ m =? 7) && (correlation_id_ m =? 42) then 0 else 3)
            | inl _ => mret 3
            end
        | _ => mret 5
        end;
      local (buffer_destroy 0);; mret status
  end.

Definition consumer_body : M Z :=
  payload ← expected (utf8_codec_encode (EM:=Model) (MkUtf8Codec utf8_default_limit)
                        (String.list_byte_of_string "installed package"));
  match payload with
  | inl _ => mret 1
  | inr payload =>
      let protocol : Vosp.Protocol := new_codec default_limits in
      frame ← expected (encode (EM:=Model) protocol (MkMessage (MkVersion 1 0) 7 42 flags_none [] payload));
      match frame with
      | inl _ => mret 2
      | inr frame => consumer_secret protocol frame
      end
  end.

(** [stream] is constructed first and destroyed last. *)
Definition consumer_main (w : W) : outcome Empty_set Z * (world * machine TcpStream W) :=
  let stream := new_tcp_stream default_io_options default_reconnect_policy in
  let start := (initial_world, MkMachine stream w []) in
  let '(status, (heap, m)) := if connected stream then (Ok 4, start) else consumer_body start in
  let '(_, m) := tcp_destroy m in
  (status, (heap, m)).
End Consumer.

(** The program exits with 0, has erased the secret and leaves no object behind. *)
Example package_consumer_pass :
  let '(status, (w, m)) := consumer_main (SE:=posix_erase zero_memory) sim_start in
  status = Ok 0 ∧ released w = [bytes_of [0; 0; 0]] ∧ elements (dom (objects w)) = [] ∧
  self m = None ∧ elements (sim_handles (os m)) = [].
Proof. vm_compute. done. Qed.
