(* ===== verification/Schedules.v ===== *)
(** * Every schedule of the transport tests

    The two threads of a test share the listener and the network, so its outcome could depend
    on who runs first.  A configuration steps to any of its [moves]; [explore] follows all of
    them, and is proved to decide that no schedule deadlocks or fails a check. *)

From stdpp Require Import prelude gmap sets list strings relations.
From Stdlib Require Import ZArith Lia.
From S2P Require Import Prelude Errors Types Frame Transport Tcp Sockets.
From S2P Require Import SocketAddr Posix Windows SimOS TransportProps Tests TransportTests.
Import Protocol.

Section Explore.
Context {W : Type}.
Implicit Types c : threads (W:=W).

(** One call of one thread. *)
Definition scheduled c c' : Prop := c' ∈ moves c.

(** Follow every schedule; [good] must hold where no thread can move. *)
Fixpoint explore (fuel : nat) (good : threads (W:=W) → bool) c : bool :=
  match fuel with
  | O => false
  | S fuel' =>
      match moves c with
      | [] => good c
      | next => forallb (explore fuel' good) next
      end
  end.

Lemma explore_step fuel good c c' :
  explore (S fuel) good c = true → scheduled c c' → explore fuel good c' = true.
Proof.
  unfold scheduled. simpl. destruct (moves c) as [|d next]; [by intros _ ?%not_elem_of_nil|].
  intros Hall Hc'. apply (proj1 (forallb_forall (explore fuel good) (d :: next)) Hall). by apply list_elem_of_In.
Qed.

(** Every schedule is shorter than the fuel, and ends where [good] holds. *)
Lemma explore_sound fuel good c :
  explore fuel good c = true →
  ∀ k c', nsteps scheduled k c c' → (k < fuel)%nat ∧ (moves c' = [] → good c' = true).
Proof.
  revert c. induction fuel as [|fuel IH]; intros c Hc k c' Hsteps; [done|].
  inversion Hsteps as [|k' ? d ? Hd Hrest]; subst.
  - split; [lia|]. intros Hend. simpl in Hc. by rewrite Hend in Hc.
  - destruct (IH d (explore_step _ _ _ _ Hc Hd) _ _ Hrest). split; [lia|done].
Qed.
End Explore.

(** ** The two tests with threads *)

(** Both threads have returned without a failed check, and once the objects of the main
    thread are destroyed no handle is open. *)
Definition passes {W} {P : SocketPlatform W} (handles : W → gset Z) (c : threads (W:=W)) : bool :=
  match c with
  | (Returned [], Returned [], m) =>
      match (destroy_object 1;; destroy_object 0) m with
      | (Ok _, m') => bool_decide (handles (os m') = ∅)
      | _ => false
      end
  | _ => false
  end.

(** The state in which the server thread starts: a listener is bound. *)
Definition listening_process : machine store sim :=
  ((place 0 (ObjListener (new_tcp_listener test_options));;
    on_listener 0 (listener_bind (MkIpEndpoint "127.0.0.1" 0) 128))
     (fresh_process sim_start)).2.

Definition loopback : IpEndpoint := MkIpEndpoint "127.0.0.1" 9000.

Definition echo_threads : threads (W:=sim) :=
  let frame := frame_wire echo_message in
  (echo_client sim_receive_blocks loopback frame,
   echo_server sim_accept_blocks sim_receive_blocks (length frame), listening_process).

Definition reconnect_threads : threads (W:=sim) :=
  (reconnect_client sim_receive_blocks loopback,
   reconnect_server sim_accept_blocks sim_receive_blocks, listening_process).

(** Whatever the schedule, both tests come to an end, no thread waits for ever, every check
    holds and no socket stays open. *)
Example transport_tests_every_schedule :
  ∀ start, start ∈ [echo_threads; reconnect_threads] →
  ∀ k c, nsteps scheduled k start c →
  (k < call_budget)%nat ∧ (moves c = [] → passes sim_handles c = true).
Proof.
  intros start Hstart. apply explore_sound.
  apply elem_of_cons in Hstart as [->| ->%list_elem_of_singleton]; by vm_compute.
Qed.
